(* ===== verification/_CoqProject ===== *)
-Q . S2P
Prelude.v
Json.v
JsMap.v
Entries.v
Scope.v
Kinds.v
Identity.v
Disposition.v
Matching.v
Resolution.v
Replayer.v
Usage.v
Billing.v
Termination.v
Lineage.v
PlanState.v
PlanEntries.v
PlanProgress.v
Cascade.v
Rebase.v
PlanGuards.v
EffectTypes.v
EffectFold.v
EffectLaws.v
EffectConsume.v
EffectStable.v
EffectReplay.v
EffectWriter.v
EffectAppend.v
EffectReceipts.v
EffectDispatch.v
EffectRecover.v
EffectReconcile.v
EffectSweep.v
Num.v
AdmissionAlgo.v
Admission.v
AdmissionSlots.v
AdmissionInv.v
AdmissionLaws.v
AdmissionRuns.v
AdmissionStore.v
Reuse.v
ReuseLaws.v
Pricing.v
Budget.v
BudgetTree.v
BudgetInv.v
BudgetLaws.v
BudgetRuns.v
BudgetExposure.v
BudgetBounds.v
BudgetExamples.v
Quota.v
QuotaKey.v
QuotaOrder.v
QuotaLaws.v
QuotaExamples.v
SpawnAdmission.v
SpawnLaws.v
SpawnRuns.v
SpawnBatch.v
SpawnReplay.v
SpawnCapacity.v
SpawnExamples.v
Shell.v
ShellLaws.v
ShellSplit.v
ShellVerdict.v
Permission.v
PermissionLaws.v
PermissionTables.v
