(* ===== verification/Prelude.v ===== *)
(** * Rulvar: the journal, the plan, the effects, admission and the budget

    Rulvar runs workflows of language-model agents and records everything it
    pays for in an append-only journal.  A resumed run re-issues its calls, and
    the journal serves the ones it already holds; the state of the run
    (suspensions, abandoned branches, budgets, task lineages, money, the plan and
    the effects on the outside world) is a fold over the journal's entries.  This
    development models that kernel (packages/core/src/journal and the parts of
    l0 it stands on), the plan engine's state (packages/plan), the effect lane
    (packages/core/src/effects, packages/effects), the admission scheduler
    (packages/core/src/admission), the run budget (packages/core/src/engine), the
    quota limiter (packages/core/src/model) and the admission of spawns
    (packages/core/src/orchestrator), and proves the properties the rest of the
    program relies on.

    ** Files

    Shared:
    - [Prelude]: results of fallible code, lists, strings, decimal numerals,
      binary64 rounding, the hint database [rulvar] and the tactics.
    - [Json] (l0/json.ts): JSON values and the reads the folds make of unchecked
      payloads.  [JsMap]: the insertion-ordered [Map].

    The journal:
    - [Entries] (l0/entries.ts, l0/errors.ts): the journal entry and its parts,
      and [normalizeEntry].
    - [Scope] (journal/scope.ts): the scope-path grammar.
    - [Kinds] (journal/kinds.ts): [validateEntryShape], the gate of every append.
    - [Identity] (l0/jcs.ts, journal/identity.ts, journal/keyderiver.ts): the
      canonical JSON, the identity of a call and its versioned keys.
    - [Disposition] (journal/disposition.ts): the abandon fold and the replay
      predicate.
    - [Matching] (journal/matching.ts): [JournalMatcher], against the interface
      [KeyRing] that the rings of [Identity] implement.
    - [Resolution] (journal/resolution.ts): [ResolutionFold], the state of
      suspensions.
    - [Replayer] (journal/replayer.ts, and the arbiter of resolution.ts): the
      journal front end, as a state machine.
    - [Usage] (l0/usage.ts): token counts, their rules, repair and addition.
    - [Billing] (l0/entries.ts, [foldLedger] of replayer.ts): pricing folds and
      the ledger, against the interface [Money].
    - [Termination] (journal/termination.ts): the debit-only account and its
      fold.
    - [Lineage] (journal/lineage.ts): the index of logical tasks.
    - [Reuse], [ReuseLaws] (journal/reuse.ts): the index of severed branches and the
      verdict on reusing one.

    The plan (packages/plan/src):
    - [PlanState] (plan-state.ts, plan-hash.ts, task-spec.ts): nodes, their
      transitions, readiness and the dependency-cycle search.
    - [PlanEntries] (plan-entries.ts): the operations of a revision and the fold
      of plan entries.  [PlanProgress]: what the scheduler can run.
    - [Cascade], [Rebase] (rebase.ts): the cancel cascade, and
      [rebasePlanRevision] against a class of hooks for admission and minting.
    - [PlanGuards] (guards.ts, ladder.ts, park.ts): the revision guards, the
      escalation ladder and the ledger of pins.

    The effect lane (core/src/effects and packages/effects/src):
    - [EffectTypes] (types.ts): the readers of lane payloads.
    - [EffectFold] (fold.ts): the fold of the lane, over a [ResolutionFold];
      [EffectLaws], [EffectConsume], [EffectStable] and [EffectReplay] prove what
      its machines satisfy.
    - [EffectWriter], [EffectAppend] (writer.ts): every append of the lane, over a
      store given as an oracle of rounds, and what reaches the store.
    - [EffectReceipts] (receipts.ts, adapter.ts): the verification of receipts.
    - [EffectDispatch], [EffectRecover] (dispatcher.ts): sends, probes and the
      recovery table over the writer's monad and a provider oracle.
    - [EffectReconcile], [EffectSweep] (reconciler.ts): budgets, the sweep and the
      reconciliation of a restored epoch, against the interface [Recoverer].

    Admission (core/src/admission):
    - [AdmissionAlgo] (algorithms.ts): fair queuing, windows, token buckets,
      against the interface [Num] of numbers.
    - [Admission] (memory.ts): the scheduler as segments between awaits;
      [AdmissionSlots], [AdmissionInv], [AdmissionLaws] its invariant and laws,
      [AdmissionRuns] concrete runs, [AdmissionStore] the durable document.

    The budget (core/src/engine and core/src/model):
    - [Num]: numbers, as an interface: order laws that hold under rounding, and
      exact arithmetic.
    - [Pricing] (model/pricing.ts): price rows.
    - [Budget] (budget.ts): accounts, spawn admission, exposure, turns, debits, the
      strict pricing gate.  [BudgetTree], [BudgetInv]: the account tree under every
      operation; [BudgetLaws], [BudgetRuns], [BudgetExposure], [BudgetBounds]:
      admission and the bounds over traces; [BudgetExamples]: concrete runs.

    Shared provider quotas (core/src/model):
    - [Quota] (quota.ts): rules, their canonical key, the in-process limiter over
      bucket keys of any type.  [QuotaKey]: the key tells rules apart; [QuotaOrder]:
      permuted rule sets and keyed buckets answer alike; [QuotaLaws]: the limiter
      beside a ledger of its grants; [QuotaExamples]: concrete runs.

    Spawn admission (core/src/orchestrator/admission.ts):
    - [SpawnAdmission]: the controller every spawn passes, over the run budget, the
      termination account and the lineage index.  [SpawnLaws]: its verdict is decided
      exactly as its guards say; [SpawnRuns]: the limits over every run; [SpawnBatch]:
      the embedded spawns of a revision; [SpawnReplay]: decisions in the journal and
      their folds; [SpawnCapacity]: the price and the wires of an acceptance tail;
      [SpawnExamples]: concrete runs.

    Definitions keep the names of the source.  A class becomes a record of its
    fields and one function per method; a method that throws returns [result]; a
    payload is read from [json] with the tests the code makes, including what
    they do to [null], arrays and missing members.  A definition in lower case
    with underscores is a named part of a source function: a branch, a loop body
    or a test.

    ** How the parts meet

    [Replayer] owns a [JournalMatcher] and a [ResolutionFold].  Its machine has
    three kinds of step: a request, which is checked and queued; the run of the
    queued operation at the head, with the outcome of the store (stored, refused,
    or stored without an acknowledgement); and the synchronous calls.  Every
    interleaving of asynchronous code is a list of such steps, and the theorems
    quantify over all of them.  [Matching] takes its disposition from
    [Disposition], which reads the coverage [Resolution] computes; [Billing] sums
    the usages [Usage] adds; [Lineage] and [Termination] read the same decision
    entries, and [Lineage] proves that they agree.

    [Rebase] answers a revision with the operations it keeps; [PlanEntries] folds
    the entry they are journaled as, and [Rebase.rebase_replays] is the bridge.
    The effect fold reads the allowed approvals off the resolution fold; the
    writer loads the journal, folds it, decides and appends, in rounds between
    which other holders append; the dispatcher is a program over the writer and
    the provider, and the reconciler a program over any dispatcher with the laws
    of [Recoverer].  The admission scheduler stands alone: its callers are the
    engine's.  [Budget] prices with [Pricing] and adds usages with [Usage]; its
    theorems say of its callers only how they pair operations (a reserve with its
    release, a turn with its guard, a dispatch with its closure), and any other
    operation may come between.  [SpawnAdmission] composes [Budget], [Termination]
    and [Lineage]: it reads the three, decides, and commits only what it admits;
    what it keeps is what their folds read back from the decisions it journals.

    ** What is shown

    - The journal: it grows by well-shaped entries with fresh sequence numbers,
      no operation identity occurs twice, memory and store agree unless a flush
      failed, a sealed journal takes no spending, and a strict replay writes
      nothing ([Replayer], [Kinds]).
    - Replay: a complete journal serves every call of the same program, no
      operation is served twice, and a call that finds nothing disturbs no other
      ([Matching]); when an operation replays, reruns or is skipped, and where
      the two frozen profiles part ([Disposition]).
    - Suspensions: the first closing entry wins, and the fold a run keeps is the
      fold a reload builds, at every point of a run ([Resolution], [Replayer]).
    - Branches: abandoning covers exactly the targets and their child scopes, and
      the textual subtree test is segment prefix ([Disposition], [Scope]).
    - Termination: every debit lowers the variant, so a run makes boundedly many;
      the account survives a reload, and a wrong embedded balance is reported at
      its entry ([Termination]); the index and the account count the same
      escalations, which the cap bounds ([Lineage]).
    - Money: the repair of hostile telemetry is safe and never undercharges,
      addition keeps the canonical invariant, billing conserves tokens and the
      ledger counts each usage once ([Usage], [Billing]).
    - The plan: what every folded plan satisfies, its chain of hashes, the
      rejection of foreign entries, totality and replay of a rebase, the exact
      extent of a cascade, and progress until every node is done ([PlanEntries],
      [Rebase], [PlanProgress]); when the guards engage ([PlanGuards]).
    - Effects: consumption of an approval is exactly its licence, one canonical
      intent per key and epoch, attempts follow consumption and precede
      revocation, terminals are proved, verdicts are stable as the journal grows,
      a retried append changes nothing ([EffectConsume], [EffectStable],
      [EffectReplay]); an append lands once whatever other holders do
      ([EffectAppend]); a recovery sends at most once and only behind a fence
      ([EffectRecover]); a sweep closes what is exhausted ([EffectSweep]).
    - Admission: slots are counted exactly and never exceed the cap under any
      interleaving, a pump grants in fair order and always ends, a settlement is
      final, the durable document restores the scheduler ([AdmissionLaws],
      [AdmissionStore]).

    - Reuse: a captured donor is not offered again, and a key is reused boundedly
      often ([ReuseLaws]).
    - The budget: the walk to the root always returns; a spawn is admitted exactly
      when its reserve fits every account on the walk; reserves are conserved; a
      ceiling is overshot by at most one turn per open turn; the exposure cap holds;
      a meter bills the price of the whole call ([BudgetLaws], [BudgetBounds]).
    - Quotas: answers depend on the set of rules only, the request cap of a rule is
      hard in every window and twice the cap bounds every minute, and the counters are
      what was granted, settled and released ([QuotaOrder], [QuotaLaws]).

    - Spawn admission: a verdict and what it commits are exactly those its guards
      name, and a rejection commits nothing ([SpawnLaws]); caps on spawns and depth
      hold in every run ([SpawnRuns]); what a batch admits can be dispatched
      ([SpawnBatch]); the live account and index are those a reload of the journal
      builds ([SpawnReplay]); the money and the wires of an acceptance tail come
      from one derivation and agree ([SpawnCapacity]).

    Lemmas outside the numbered claims record where the code and its comments
    part, among them [Resolution.abandon_folds_differ],
    [Resolution.live_suspension_state_differs],
    [Termination.first_touch_raises_variant],
    [Lineage.pinned_stall_streak_unstable], [EffectRecover.sent_effect_is_cancelled],
    [EffectSweep.spent_attempts_stop_the_sweep], [ReuseLaws.donor_active_never] and the
    examples of [AdmissionRuns], [BudgetExamples], [QuotaExamples] and
    [SpawnExamples].

    ** Parameters and bounds

    Parameters stand for code outside the repository's sources: sha256, the text
    ECMAScript prints for a non-integer number, [Date.parse] and [toISOString],
    Unicode normalization, the vendored JSON Schema validator, the user's price
    function, the hooks of a rebase, the answers of a provider and the signature
    check of a receipt.  A store is an oracle that keeps the journal ordered.

    Sequence numbers and ordinals are natural numbers, and counters and accounted
    token sums are exact integers, which a JavaScript number represents below
    2^53; where the code lets a larger number in (scope segments, raw telemetry)
    the rounding is modelled.  The tags, caps and tokens of admission range over
    any type with the operations and order laws of [Num]; the sums of the budget are
    proved for exact arithmetic ([ExactNum]), so for dollars they hold up to the
    rounding of doubles.  Strings are sequences
    of code units, below 256.

    Fuel: the search for a dependency cycle and the cascade take the size of the
    plan, since a node enters the visited set once, and are proved to finish
    within it; the writer's retries are the eight of the source; a pump takes one
    more than the length of its queue, since each pass but the last grants one; the
    walk to the root takes one more than the number of accounts and never runs out.
    Every other recursion is structural.

    ** Not modelled

    The stores, the asynchronous engine, the agent loop, adapters and user
    interfaces: I/O and scheduling around the kernel.  Of the files modelled, the
    warnings about large values, the lease argument of an append, the hashes of a
    profile's schema and toolset, and the message texts of errors are left out,
    and so are lookups of inherited members in objects used as maps.
    Planned: the run ledger and the write lock of packages/plan, retry and failover
    (core/src/model), the permission chain and the no-progress detector. *)
From Stdlib Require Export Ascii Lia Sorted.
From Stdlib Require Import DecimalString DecimalN DecimalFacts.
From stdpp Require Export base strings list option gmap fin_maps.

#[global] Open Scope stdpp_scope.

(** ** Fallible code

    A JavaScript function that may throw returns a [result]: [Ok] of its
    value or [Err] of the typed error it throws. *)

Inductive result (E A : Type) : Type :=
  | Ok (a : A)
  | Err (e : E).
Arguments Ok {E A} a.
Arguments Err {E A} e.

#[global] Instance result_ret E : MRet (result E) := fun A a => Ok a.
#[global] Instance result_bind E : MBind (result E) :=
  fun A B f r => match r with Ok a => f a | Err e => Err e end.
#[global] Instance result_fmap E : FMap (result E) :=
  fun A B f r => match r with Ok a => Ok (f a) | Err e => Err e end.

Definition is_ok {E A} (r : result E A) : bool :=
  match r with Ok _ => true | Err _ => false end.

(** The bind notation of stdpp is at [x <- e; k] with a Unicode arrow; the
    development uses it for [result] and for [option]. *)

Lemma bind_ok {E A B} (r : result E A) (f : A → result E B) b :
  (r ≫= f) = Ok b ↔ ∃ a, r = Ok a ∧ f a = Ok b.
Proof.
  destruct r as [a|e]; cbn; [|naive_solver].
  split; [by exists a | by intros (a' & [= ->] & Hf)].
Qed.

(** ** Development tactics *)

(** Split the goal and the context along every [match] and [if] scrutinee. *)
Ltac split_matches :=
  repeat (case_match; simplify_eq/=).

(** Inversion of a successful monadic computation. *)
Ltac inv_ok :=
  repeat match goal with
  | H : (_ ≫= _) = Ok _ |- _ =>
      let a := fresh "a" in apply bind_ok in H as (a & ? & ?)
  | H : Err _ = Ok _ |- _ => discriminate H
  end; simplify_eq/=.

Create HintDb rulvar.
Create Rewrite HintDb rulvar.

(** ** Lists *)

(** [list.find(p)]: the first element satisfying a boolean predicate. *)
Fixpoint find_first {A} (p : A → bool) (l : list A) : option A :=
  match l with
  | [] => None
  | x :: xs => if p x then Some x else find_first p xs
  end.

Lemma find_first_Some {A} (p : A → bool) l x :
  find_first p l = Some x → x ∈ l ∧ p x = true.
Proof.
  induction l as [|y l IH]; cbn; [done|].
  destruct (p y) eqn:E; intros H; simplify_eq.
  - by split; [left|].
  - destruct (IH H). by split; [right|].
Qed.

Lemma find_first_None {A} (p : A → bool) l :
  find_first p l = None ↔ ∀ x, x ∈ l → p x = false.
Proof.
  induction l as [|y l IH]; cbn; [set_solver|].
  destruct (p y) eqn:E; split; intros H; try done.
  - specialize (H y ltac:(left)). congruence.
  - rewrite IH in H. intros x [->|]%elem_of_cons; auto.
  - apply IH. intros x Hx. apply H. by right.
Qed.

Lemma find_first_app {A} (p : A → bool) l k :
  find_first p (l ++ k) =
    match find_first p l with Some x => Some x | None => find_first p k end.
Proof. induction l as [|y l IH]; cbn; [done|]. by destruct (p y). Qed.

Lemma existsb_elem_of {A} (p : A → bool) l :
  existsb p l = true ↔ ∃ x, x ∈ l ∧ p x = true.
Proof. rewrite existsb_exists. by setoid_rewrite list_elem_of_In. Qed.

Lemma existsb_false_elem_of {A} (p : A → bool) l :
  existsb p l = false ↔ ∀ x, x ∈ l → p x = false.
Proof.
  rewrite <- not_true_iff_false, existsb_elem_of. split.
  - intros H x Hx. destruct (p x) eqn:E; [|done]. exfalso; eauto.
  - intros H (x & Hx & E). specialize (H x Hx). congruence.
Qed.

(** [l.filter(p)] with a test no element passes. *)
Lemma filter_none {A} (p : A → bool) (l : list A) :
  (∀ x, x ∈ l → p x = false) → List.filter p l = [].
Proof.
  induction l as [|x l IH]; intros Hl; [done|]. cbn.
  rewrite Hl by left. apply IH. intros y Hy. apply Hl. by right.
Qed.

#[export] Hint Resolve find_first_Some : rulvar.

(** ** Strings *)

Lemma append_nil_r s : s +:+ "" = s.
Proof. induction s; [done|]. change (String a s +:+ "") with (String a (s +:+ "")). congruence. Qed.

Lemma append_cons a s t : String a s +:+ t = String a (s +:+ t).
Proof. done. Qed.

Lemma append_assoc s t u : (s +:+ t) +:+ u = s +:+ (t +:+ u).
Proof. induction s; [done|]. rewrite !append_cons. congruence. Qed.

(** [s.startsWith(p)]. *)
Fixpoint starts_with (p s : string) : bool :=
  match p, s with
  | "", _ => true
  | String a p', String b s' => Ascii.eqb a b && starts_with p' s'
  | _, _ => false
  end.

Lemma starts_with_spec p s : starts_with p s = true ↔ ∃ t, s = p +:+ t.
Proof.
  revert s. induction p as [|a p IH]; intros s; cbn [starts_with].
  - split; [intros _; by exists s | by destruct s].
  - destruct s as [|b s]; [split; [done | by intros [t ?]]|].
    rewrite andb_true_iff, IH, Ascii.eqb_eq. setoid_rewrite append_cons.
    split; [intros [-> [t ->]]; by exists t | intros [t [= -> ->]]; eauto].
Qed.

Fixpoint str_forall (p : Ascii.ascii → bool) (s : string) : bool :=
  match s with
  | "" => true
  | String c r => p c && str_forall p r
  end.

(** A string without the separator [c]. *)
Definition lacks (c : Ascii.ascii) (s : string) : bool :=
  str_forall (fun a => negb (Ascii.eqb a c)) s.

(** [s.split(c)] for a one-character separator. *)
Fixpoint split_on (c : Ascii.ascii) (s : string) : list string :=
  match s with
  | "" => [""]
  | String a r =>
      if Ascii.eqb a c then "" :: split_on c r
      else match split_on c r with
           | [] => [String a ""]
           | w :: ws => String a w :: ws
           end
  end.

(** [l.join(c)] for a one-character separator. *)
Fixpoint join_with (c : Ascii.ascii) (l : list string) : string :=
  match l with
  | [] => ""
  | [x] => x
  | x :: xs => x +:+ String c (join_with c xs)
  end.

Lemma join_with_cons c x y l :
  join_with c (x :: y :: l) = x +:+ String c (join_with c (y :: l)).
Proof. done. Qed.

Lemma split_on_nonempty c s : split_on c s ≠ [].
Proof. destruct s; cbn; [done|]. by repeat case_match. Qed.

Lemma join_split c s : join_with c (split_on c s) = s.
Proof.
  induction s as [|a s IH]; [done|]. cbn.
  pose proof (split_on_nonempty c s).
  destruct (Ascii.eqb_spec a c) as [->|Hne]; destruct (split_on c s) as [|w ws] eqn:E; try done.
  - rewrite join_with_cons, IH. done.
  - destruct ws; cbn in *; rewrite <- IH; done.
Qed.

Lemma split_on_lacks c s : Forall (fun w => lacks c w = true) (split_on c s).
Proof.
  induction s as [|a s IH]; cbn; [by repeat constructor|].
  destruct (Ascii.eqb a c) eqn:E; [by constructor|].
  destruct (split_on c s) as [|w ws]; [constructor; [|done]; cbn; by rewrite E|].
  apply Forall_cons_1 in IH as [Hw Hws]. constructor; [|done].
  cbn. by rewrite E.
Qed.

Lemma split_lacks c s : lacks c s = true → split_on c s = [s].
Proof.
  induction s as [|a s IH]; cbn; [done|].
  intros [Ha Hs]%andb_prop. rewrite (IH Hs).
  by rewrite (proj1 (negb_true_iff _) Ha).
Qed.

Lemma split_append c w s :
  lacks c w = true → split_on c (w +:+ String c s) = w :: split_on c s.
Proof.
  induction w as [|a w IH]; cbn.
  - intros _. change ("" +:+ String c s) with (String c s). cbn. by rewrite Ascii.eqb_refl.
  - intros [Ha Hw]%andb_prop. rewrite append_cons. cbn.
    rewrite (proj1 (negb_true_iff _) Ha). by rewrite (IH Hw).
Qed.

Lemma split_join c l :
  l ≠ [] → Forall (fun w => lacks c w = true) l → split_on c (join_with c l) = l.
Proof.
  induction l as [|x l IH]; [done|]. intros _ [Hx Hl]%Forall_cons_1.
  destruct l as [|y l]; [by apply split_lacks|].
  rewrite join_with_cons, split_append by done. by rewrite IH.
Qed.

Lemma join_app c l k :
  l ≠ [] → k ≠ [] → join_with c (l ++ k) = join_with c l +:+ String c (join_with c k).
Proof.
  induction l as [|x l IH]; [done|]. intros _ Hk.
  destruct l as [|y l].
  - destruct k; [done|]. by rewrite <- join_with_cons.
  - change ((x :: y :: l) ++ k) with (x :: y :: (l ++ k)).
    rewrite !join_with_cons.
    change (y :: l ++ k) with ((y :: l) ++ k). rewrite IH by done.
    by rewrite append_assoc, append_cons.
Qed.

Lemma lacks_app c s t : lacks c (s +:+ t) = lacks c s && lacks c t.
Proof.
  unfold lacks. induction s as [|a s IH]; [done|].
  rewrite append_cons. cbn. by rewrite IH, andb_assoc.
Qed.

(** ** Decimal numerals *)

(** [String(n)] for a non-negative integer below 1e21. *)
Definition dec_of_N (n : N) : string := NilEmpty.string_of_uint (N.to_uint n).

(** [Number(s)] for a string of decimal digits, before rounding. *)
Definition N_of_dec (s : string) : N :=
  match NilEmpty.uint_of_string s with Some d => N.of_uint d | None => 0 end.

Lemma N_of_dec_of_N n : N_of_dec (dec_of_N n) = n.
Proof. unfold N_of_dec, dec_of_N. by rewrite NilEmpty.usu, DecimalN.Unsigned.of_to. Qed.

Lemma dec_of_N_inj : Inj (=) (=) dec_of_N.
Proof. intros n m H. by rewrite <- (N_of_dec_of_N n), H, N_of_dec_of_N. Qed.
#[global] Existing Instance dec_of_N_inj.

(** IEEE 754 binary64 rounding (to nearest, ties to even) of a natural
    number below the overflow threshold: what [Number] does to a digit
    string. It is the identity up to 2^53. *)
Definition double_of_N (n : N) : N :=
  let k := N.log2 n in
  if (k <=? 52)%N then n
  else
    let e := (k - 52)%N in
    let q := N.shiftr n e in
    let r := N.land n (N.ones e) in
    let half := N.shiftl 1 (e - 1) in
    let up := (half <? r)%N || ((half =? r)%N && N.odd q) in
    N.shiftl (if up then q + 1 else q)%N e.

Lemma double_of_N_small n : (n < 2 ^ 53)%N → double_of_N n = n.
Proof.
  intros Hn. unfold double_of_N.
  destruct (N.leb_spec (N.log2 n) 52) as [|Hk]; [done|].
  destruct (N.eq_dec n 0%N) as [->|Hn0]; [done|].
  pose proof (proj1 (N.log2_lt_pow2 n 53 ltac:(lia)) Hn). lia.
Qed.

Lemma double_of_N_small_inv n : (double_of_N n < 2 ^ 53)%N → double_of_N n = n.
Proof.
  intros H. destruct (N.lt_ge_cases n (2 ^ 53)) as [Hs|Hge]; [by apply double_of_N_small|].
  exfalso. revert H. unfold double_of_N.
  destruct (N.leb_spec (N.log2 n) 52) as [|Hk]; [lia|].
  assert (∀ q e b, 2 ^ 52 <= q → 1 <= e → N.shiftl (if b : bool then q + 1 else q) e < 2 ^ 53 → False)%N
    as Hcut.
  { intros q e b Hq He. rewrite N.shiftl_mul_pow2.
    assert (2 <= 2 ^ e)%N by (change 2%N with (2 ^ 1)%N at 1; apply N.pow_le_mono_r; lia).
    destruct b; nia. }
  apply Hcut; [|lia].
  rewrite N.shiftr_div_pow2. apply N.div_le_lower_bound; [lia|].
  rewrite <- N.pow_add_r. replace (N.log2 n - 52 + 52)%N with (N.log2 n) by lia.
  by apply N.log2_spec; lia.
Qed.

(** ** Decimal syntax *)

Definition char_between (lo hi c : ascii) : bool :=
  (N_of_ascii lo <=? N_of_ascii c)%N && (N_of_ascii c <=? N_of_ascii hi)%N.

Definition is_digit : ascii → bool := char_between "0"%char "9"%char.
Definition is_upper : ascii → bool := char_between "A"%char "Z"%char.

(** A decimal numeral without leading zeros. *)
Definition canonical_dec (s : string) : bool :=
  match s with
  | "" => false
  | String c r =>
      (Ascii.eqb c "0"%char && bool_decide (r = "")) ||
      (char_between "1"%char "9"%char c && str_forall is_digit r)
  end.

Lemma str_forall_impl p q s :
  (∀ c, p c = true → q c = true) → str_forall p s = true → str_forall q s = true.
Proof. intros Hpq. induction s as [|c s IH]; cbn; [done|]. intros [? ?]%andb_prop. by rewrite Hpq, IH. Qed.

Lemma string_of_uint_digits d : str_forall is_digit (NilEmpty.string_of_uint d) = true.
Proof. by induction d. Qed.

Lemma dec_of_N_digits n : str_forall is_digit (dec_of_N n) = true.
Proof. apply string_of_uint_digits. Qed.

Lemma nzhead_head d :
  Decimal.nzhead d = Decimal.Nil ∨
  canonical_dec (NilEmpty.string_of_uint (Decimal.nzhead d)) = true.
Proof.
  induction d as [|d IH|d _|d _|d _|d _|d _|d _|d _|d _|d _]; cbn; auto.
  all: right; apply string_of_uint_digits.
Qed.

Lemma dec_of_N_canonical n : canonical_dec (dec_of_N n) = true.
Proof.
  unfold dec_of_N. rewrite <- (DecimalN.Unsigned.of_to n), DecimalN.Unsigned.to_of.
  unfold Decimal.unorm.
  destruct (nzhead_head (N.to_uint n)) as [->|Hc]; [done|].
  by destruct (Decimal.nzhead (N.to_uint n)).
Qed.

Lemma is_digit_cases (P : ascii → Prop) c :
  Forall P ["0"; "1"; "2"; "3"; "4"; "5"; "6"; "7"; "8"; "9"]%char → is_digit c = true → P c.
Proof.
  intros HP Hc.
  repeat match goal with H : Forall _ (_ :: _) |- _ => apply Forall_cons_1 in H as [? ?] end.
  destruct c as [[] [] [] [] [] [] [] []]; vm_compute in Hc; done.
Qed.

Lemma uint_of_digits s :
  str_forall is_digit s = true → ∃ d, NilEmpty.uint_of_string s = Some d.
Proof.
  induction s as [|c s IH]; cbn [str_forall]; [by exists Decimal.Nil|].
  intros [Hc [d Hd]%IH]%andb_prop. pattern c.
  apply is_digit_cases; [|exact Hc].
  repeat (apply Forall_cons_2; [cbn; rewrite Hd; by eexists|]). by apply Forall_nil.
Qed.

(** A canonical numeral is what its value prints as. *)
Lemma dec_of_canonical s : canonical_dec s = true → dec_of_N (N_of_dec s) = s.
Proof.
  destruct s as [|c r]; [done|]. cbn [canonical_dec].
  intros [[Hc Hr]%andb_prop | [Hc Hr]%andb_prop]%orb_prop.
  - apply Ascii.eqb_eq in Hc as ->. apply bool_decide_eq_true in Hr as ->. done.
  - assert (is_digit c = true) as Hd.
    { destruct c as [[] [] [] [] [] [] [] []]; vm_compute in Hc; done. }
    destruct (uint_of_digits r Hr) as [d Hu].
    unfold N_of_dec, dec_of_N.
    assert (∃ e, NilEmpty.uint_of_string (String c r) = Some e ∧ Decimal.unorm e = e)
      as (e & He & Hn).
    { revert Hc. pattern c. apply is_digit_cases; [|exact Hd].
      repeat (apply Forall_cons_2; [cbn; rewrite Hu; first [by intros ? | by eexists]|]).
      by apply Forall_nil. }
    rewrite He, DecimalN.Unsigned.to_of, Hn. by apply NilEmpty.sus.
Qed.

Lemma digits_lack c s :
  is_digit c = false → str_forall is_digit s = true → lacks c s = true.
Proof.
  intros Hc. apply str_forall_impl. intros a Ha.
  apply negb_true_iff, Ascii.eqb_neq. intros ->. congruence.
Qed.

Lemma split_on_app c s t : split_on c (s +:+ String c t) = split_on c s ++ split_on c t.
Proof.
  induction s as [|a s IH].
  - change ("" +:+ String c t) with (String c t). cbn. by rewrite Ascii.eqb_refl.
  - rewrite append_cons. cbn. destruct (Ascii.eqb a c); [by rewrite IH|].
    rewrite IH. pose proof (split_on_nonempty c s). by destruct (split_on c s).
Qed.
