(* ===== verification/Json.v ===== *)
(** * JSON values (packages/core/src/l0/json.ts)

    The values the journal stores, and the JavaScript reads the folds make of
    a payload typed [unknown]: [typeof v === "object" && v !== null], member
    access, [typeof v === "string"], [typeof v === "number"],
    [Array.isArray(v)].  [undefined] is [None] of an [option json].

    An integer JSON number is [JNum]; any other finite number is [JFrac] of a
    numerator and a denominator. *)
From S2P Require Import Prelude.

Inductive json :=
  | JNull
  | JBool (b : bool)
  | JNum (n : Z)
  | JFrac (num : Z) (den : positive)
  | JStr (s : string)
  | JArr (items : list json)
  | JObj (members : list (string * json)).

(** A plain object, as the record its members are read from. *)
Abbreviation record := (list (string * json)).

(** [record[key]]. *)
Fixpoint prop (r : record) (key : string) : option json :=
  match r with
  | [] => None
  | (k, v) :: r' => if decide (k = key) then Some v else prop r' key
  end.

(** [asRecord]: an array passes the [typeof] test, and none of the members the
    folds read from it exists. *)
Definition asRecord (value : option json) : option record :=
  match value with
  | Some (JObj members) => Some members
  | Some (JArr _) => Some []
  | _ => None
  end.

(** [r?.[key]]. *)
Definition opt_prop (r : option record) (key : string) : option json :=
  m ← r; prop m key.

(** [readString]. *)
Definition readString (r : record) (key : string) : option string :=
  match prop r key with Some (JStr s) => Some s | _ => None end.

(** [typeof v === "string" ? v : undefined]. *)
Definition as_string (v : option json) : option string :=
  match v with Some (JStr s) => Some s | _ => None end.

(** [Array.isArray(v) ? v : undefined]. *)
Definition as_array (v : option json) : option (list json) :=
  match v with Some (JArr l) => Some l | _ => None end.

(** [typeof v === "number"]. *)
Definition is_number (v : option json) : bool :=
  match v with Some (JNum _) | Some (JFrac _ _) => true | _ => false end.

(** [v === true] and [v === false]. *)
Definition is_true_json (v : option json) : bool :=
  match v with Some (JBool true) => true | _ => false end.
Definition is_false_json (v : option json) : bool :=
  match v with Some (JBool false) => true | _ => false end.

(** [v === "text"]. *)
Definition is_str (v : option json) (text : string) : bool :=
  match v with Some (JStr s) => bool_decide (s = text) | _ => false end.

(** [v !== n] for a number [v] and an integer [n]. *)
Definition num_differs (v : option json) (n : Z) : bool :=
  match v with
  | Some (JNum m) => negb (m =? n)%Z
  | Some (JFrac _ _) => true
  | _ => false
  end.

Lemma is_str_spec v text : is_str v text = true ↔ v = Some (JStr text).
Proof.
  destruct v as [[]|]; cbn; try (split; [done|]; by intros [=]).
  rewrite bool_decide_eq_true. naive_solver.
Qed.

Lemma is_true_spec v : is_true_json v = true ↔ v = Some (JBool true).
Proof. destruct v as [[|[]| | | | |]|]; cbn; naive_solver. Qed.

#[export] Hint Rewrite is_str_spec is_true_spec : rulvar.
