(* ===== verification/JsMap.v ===== *)
(** * Insertion-ordered maps

    The JavaScript [Map] the folds keep their state in: a finite map and the
    order its keys were first inserted in, which iteration follows.  Setting a
    present key keeps its place. *)
From S2P Require Import Prelude.

Record jsmap (K V : Type) `{Countable K} := mkJsMap {
  jm_map : gmap K V;
  jm_order : list K;
}.
Arguments mkJsMap {K V _ _} _ _.
Arguments jm_map {K V _ _} _.
Arguments jm_order {K V _ _} _.

Section JsMap.
Context {K V : Type} `{Countable K}.
Implicit Types (m : jsmap K V) (k : K) (v : V).

Definition jm_empty : jsmap K V := mkJsMap ∅ [].

(** [map.get(k)]. *)
Definition jm_get m k : option V := jm_map m !! k.

(** [map.set(k, v)]. *)
Definition jm_set m k v : jsmap K V :=
  mkJsMap (<[k := v]> (jm_map m))
    (if decide (is_Some (jm_map m !! k)) then jm_order m else jm_order m ++ [k]).

(** [map.delete(k)]. *)
Definition jm_delete m k : jsmap K V :=
  mkJsMap (delete k (jm_map m)) (filter (fun k' => k' ≠ k) (jm_order m)).

(** [[...map.values()]] and [[...map]]. *)
Definition jm_values m : list V := omap (fun k => jm_map m !! k) (jm_order m).

Definition jm_entries m : list (K * V) :=
  omap (fun k => pair k <$> jm_map m !! k) (jm_order m).

(** Mutating every value in place. *)
Definition jm_update (f : V → V) m : jsmap K V := mkJsMap (f <$> jm_map m) (jm_order m).

(** Keys occur once, and exactly the present ones. *)
Definition jm_wf m : Prop :=
  NoDup (jm_order m) ∧ ∀ k, k ∈ jm_order m ↔ is_Some (jm_map m !! k).

Lemma jm_get_empty k : jm_get jm_empty k = None.
Proof. apply lookup_empty. Qed.

Lemma jm_get_set_eq m k v : jm_get (jm_set m k v) k = Some v.
Proof. apply lookup_insert_eq. Qed.

Lemma jm_get_set_ne m k k' v : k ≠ k' → jm_get (jm_set m k v) k' = jm_get m k'.
Proof. apply lookup_insert_ne. Qed.

Lemma jm_get_set m k k' v :
  jm_get (jm_set m k v) k' = if decide (k = k') then Some v else jm_get m k'.
Proof. case_decide; [subst; apply jm_get_set_eq | by apply jm_get_set_ne]. Qed.

Lemma jm_get_update f m k : jm_get (jm_update f m) k = f <$> jm_get m k.
Proof. apply lookup_fmap. Qed.

Lemma jm_get_delete m k k' :
  jm_get (jm_delete m k) k' = if decide (k = k') then None else jm_get m k'.
Proof.
  unfold jm_get, jm_delete; cbn.
  case_decide; [subst; apply lookup_delete_eq | by apply lookup_delete_ne].
Qed.

Lemma jm_wf_empty : jm_wf jm_empty.
Proof. split; [constructor|]. intros k. cbn. rewrite lookup_empty, is_Some_alt. set_solver. Qed.

Lemma jm_wf_set m k v : jm_wf m → jm_wf (jm_set m k v).
Proof.
  intros [Hnd Hk]. split; cbn.
  - case_decide as Hs; [done|]. apply NoDup_app. split_and!; [done| |apply NoDup_singleton].
    intros x Hx ->%list_elem_of_singleton. by apply Hs, Hk.
  - intros k'. rewrite lookup_insert_is_Some'.
    case_decide; [|rewrite elem_of_app, list_elem_of_singleton]; rewrite Hk; naive_solver.
Qed.

Lemma jm_wf_update f m : jm_wf m → jm_wf (jm_update f m).
Proof. intros [Hnd Hk]. split; [done|]. intros k. cbn. by rewrite lookup_fmap, fmap_is_Some. Qed.

Lemma jm_wf_delete m k : jm_wf m → jm_wf (jm_delete m k).
Proof.
  intros [Hnd Hk]. split; cbn; [by apply NoDup_filter|].
  intros k'. rewrite list_elem_of_filter, Hk, lookup_delete_is_Some. naive_solver.
Qed.

Lemma jm_values_spec m v : jm_wf m → (v ∈ jm_values m ↔ ∃ k, jm_get m k = Some v).
Proof.
  intros [_ Hk]. unfold jm_values, jm_get. rewrite list_elem_of_omap. split.
  - intros (k & _ & ?); by exists k.
  - intros (k & Hv). exists k. rewrite Hk, Hv. by split.
Qed.

Lemma jm_entries_spec m k v : jm_wf m → ((k, v) ∈ jm_entries m ↔ jm_get m k = Some v).
Proof.
  intros [_ Hk]. unfold jm_entries, jm_get. rewrite list_elem_of_omap. split.
  - intros (k' & _ & Hv). destruct (jm_map m !! k') eqn:E; cbn in Hv; [|done]. congruence.
  - intros Hv. exists k. rewrite Hk, Hv. by split.
Qed.
End JsMap.

#[global] Arguments jm_empty {K V _ _}.
#[export] Hint Resolve jm_wf_empty jm_wf_set jm_wf_update jm_wf_delete : rulvar.
#[export] Hint Rewrite @jm_get_empty @jm_get_set_eq @jm_get_update : rulvar.
