(* ===== verification/Entries.v ===== *)
(** * The journal entry form (packages/core/src/l0/entries.ts, l0/errors.ts)

    Kinds, stored statuses, the ref-entry payloads, and the entry record.  A
    loaded entry may carry a kind or a status outside the closed vocabulary
    (readers tolerate unknown ones), so each type has a constructor for the
    other strings.  Sequence numbers, ordinals and versions are
    non-negative integers. *)
From S2P Require Import Prelude Json.

Definition CURRENT_HASH_VERSION : N := 2.

Inductive EntryKind :=
  | KAgent | KStep | KChild | KExternal | KApproval | KRand | KDecision
  | KPlanRevision | KPlanDecision | KLedgerOp | KResolution | KAbandon
  | KNodeLink | KTerminationInit | KTerminationDenied
  | KOther (kind : string).

Inductive EntryStatus :=
  | StRunning | StOk | StError | StLimit | StSuspended | StCancelled | StEscalated
  | StOther (status : string).

#[global] Instance EntryKind_eq_dec : EqDecision EntryKind.
Proof. solve_decision. Defined.
#[global] Instance EntryStatus_eq_dec : EqDecision EntryStatus.
Proof. solve_decision. Defined.

Inductive ResolutionBy :=
  | ByExternal | ByTimeout | ByClassDecision | ByOperator | ByQuiescence | ByEngineFallback.

#[global] Instance ResolutionBy_eq_dec : EqDecision ResolutionBy.
Proof. solve_decision. Defined.

Record ResolutionPayload := mkResolution {
  r_target : N;
  r_by : ResolutionBy;
  r_value : json;
  r_decisionRef : option N;
  r_logicalTaskId : option string;
  r_countsAgainstLimit : option bool;
}.

Record AbandonPayload := mkAbandon {
  a_target : N;
  a_authorizedBy : N;
  a_nodeId : option string;
  a_logicalTaskId : option string;
  a_reason : string;
  a_retainCheckpoint : option bool;
  a_retainWorktree : option bool;
}.

(** [WireError] of l0/errors.ts. *)
Record WireError := mkWire {
  w_code : string;
  w_message : string;
  w_retryable : bool;
  w_data : option json;
}.

(** [Usage] of l0/messages.ts. *)
Record Usage := mkUsage {
  inputTokens : Z;
  outputTokens : Z;
  cacheReadTokens : Z;
  cacheWriteTokens : Z;
  reasoningTokens : option Z;
  cacheWrite5mTokens : option Z;
  cacheWrite1hTokens : option Z;
}.

(** [UsageSlice] and the part of [ProviderCallRecord] the folds read. *)
Record UsageSlice := mkSlice {
  sl_servedBy : string;
  sl_usage : Usage;
  sl_role : option string;
}.

Record ProviderCallRecord := mkCall {
  pc_ordinal : N;
  pc_role : string;
  pc_servedBy : string;
  pc_usage : Usage;
}.

(** [JournalEntry].  The fields that only ride a terminal entry and that no
    modelled function reads are grouped in [e_extras]. *)
Record JournalEntry := mkEntry {
  e_hashVersion : N;
  e_seq : N;
  e_ref : option N;
  e_scope : string;
  e_key : string;
  e_ordinal : N;
  e_kind : EntryKind;
  e_status : EntryStatus;
  e_value : option json;
  e_error : option WireError;
  e_usage : option Usage;
  e_servedBy : option string;
  e_usageByModel : option (list UsageSlice);
  e_providerCalls : option (list ProviderCallRecord);
  e_checkpointRef : option string;
  e_escalation : option json;
  e_resolution : option ResolutionPayload;
  e_abandon : option AbandonPayload;
  e_memoizeOutcome : option bool;
  e_deadlineAt : option string;
  e_spanId : string;
  e_startedAt : string;
  e_endedAt : option string;
  e_extras : list (string * json);
}.

(** Kinds appended as ref-entries (matching.ts, kinds.ts). *)
Definition is_ref_kind (k : EntryKind) : bool :=
  match k with KResolution | KAbandon => true | _ => false end.

(** ** Building entries

    One setter per field the append paths of the replayer fill in, and the
    entry they start from. *)

Definition base_entry (seq : N) (scope key : string) (kind : EntryKind) (status : EntryStatus)
    : JournalEntry :=
  mkEntry CURRENT_HASH_VERSION seq None scope key 0 kind status None None None None None None None None None None None None "" "" None [].

Definition with_hashVersion (e : JournalEntry) (v : N) : JournalEntry :=
  mkEntry v (e_seq e) (e_ref e) (e_scope e) (e_key e) (e_ordinal e) (e_kind e) (e_status e)
    (e_value e) (e_error e) (e_usage e) (e_servedBy e) (e_usageByModel e) (e_providerCalls
    e) (e_checkpointRef e) (e_escalation e) (e_resolution e) (e_abandon e) (e_memoizeOutcome
    e) (e_deadlineAt e) (e_spanId e) (e_startedAt e) (e_endedAt e) (e_extras e).

Definition with_ref (e : JournalEntry) (ref : N) : JournalEntry :=
  mkEntry (e_hashVersion e) (e_seq e) (Some ref) (e_scope e) (e_key e) (e_ordinal e) (e_kind
    e) (e_status e) (e_value e) (e_error e) (e_usage e) (e_servedBy e) (e_usageByModel e)
    (e_providerCalls e) (e_checkpointRef e) (e_escalation e) (e_resolution e) (e_abandon e)
    (e_memoizeOutcome e) (e_deadlineAt e) (e_spanId e) (e_startedAt e) (e_endedAt e)
    (e_extras e).

Definition with_ordinal (e : JournalEntry) (n : N) : JournalEntry :=
  mkEntry (e_hashVersion e) (e_seq e) (e_ref e) (e_scope e) (e_key e) n (e_kind e) (e_status
    e) (e_value e) (e_error e) (e_usage e) (e_servedBy e) (e_usageByModel e)
    (e_providerCalls e) (e_checkpointRef e) (e_escalation e) (e_resolution e) (e_abandon e)
    (e_memoizeOutcome e) (e_deadlineAt e) (e_spanId e) (e_startedAt e) (e_endedAt e)
    (e_extras e).

Definition with_value (e : JournalEntry) (v : json) : JournalEntry :=
  mkEntry (e_hashVersion e) (e_seq e) (e_ref e) (e_scope e) (e_key e) (e_ordinal e) (e_kind
    e) (e_status e) (Some v) (e_error e) (e_usage e) (e_servedBy e) (e_usageByModel e)
    (e_providerCalls e) (e_checkpointRef e) (e_escalation e) (e_resolution e) (e_abandon e)
    (e_memoizeOutcome e) (e_deadlineAt e) (e_spanId e) (e_startedAt e) (e_endedAt e)
    (e_extras e).

Definition with_error (e : JournalEntry) (w : WireError) : JournalEntry :=
  mkEntry (e_hashVersion e) (e_seq e) (e_ref e) (e_scope e) (e_key e) (e_ordinal e) (e_kind
    e) (e_status e) (e_value e) (Some w) (e_usage e) (e_servedBy e) (e_usageByModel e)
    (e_providerCalls e) (e_checkpointRef e) (e_escalation e) (e_resolution e) (e_abandon e)
    (e_memoizeOutcome e) (e_deadlineAt e) (e_spanId e) (e_startedAt e) (e_endedAt e)
    (e_extras e).

Definition with_usage (e : JournalEntry) (u : Usage) : JournalEntry :=
  mkEntry (e_hashVersion e) (e_seq e) (e_ref e) (e_scope e) (e_key e) (e_ordinal e) (e_kind
    e) (e_status e) (e_value e) (e_error e) (Some u) (e_servedBy e) (e_usageByModel e)
    (e_providerCalls e) (e_checkpointRef e) (e_escalation e) (e_resolution e) (e_abandon e)
    (e_memoizeOutcome e) (e_deadlineAt e) (e_spanId e) (e_startedAt e) (e_endedAt e)
    (e_extras e).

Definition with_servedBy (e : JournalEntry) (m : string) : JournalEntry :=
  mkEntry (e_hashVersion e) (e_seq e) (e_ref e) (e_scope e) (e_key e) (e_ordinal e) (e_kind
    e) (e_status e) (e_value e) (e_error e) (e_usage e) (Some m) (e_usageByModel e)
    (e_providerCalls e) (e_checkpointRef e) (e_escalation e) (e_resolution e) (e_abandon e)
    (e_memoizeOutcome e) (e_deadlineAt e) (e_spanId e) (e_startedAt e) (e_endedAt e)
    (e_extras e).

Definition with_escalation (e : JournalEntry) (v : json) : JournalEntry :=
  mkEntry (e_hashVersion e) (e_seq e) (e_ref e) (e_scope e) (e_key e) (e_ordinal e) (e_kind
    e) (e_status e) (e_value e) (e_error e) (e_usage e) (e_servedBy e) (e_usageByModel e)
    (e_providerCalls e) (e_checkpointRef e) (Some v) (e_resolution e) (e_abandon e)
    (e_memoizeOutcome e) (e_deadlineAt e) (e_spanId e) (e_startedAt e) (e_endedAt e)
    (e_extras e).

Definition with_resolution (e : JournalEntry) (r : ResolutionPayload) : JournalEntry :=
  mkEntry (e_hashVersion e) (e_seq e) (e_ref e) (e_scope e) (e_key e) (e_ordinal e) (e_kind
    e) (e_status e) (e_value e) (e_error e) (e_usage e) (e_servedBy e) (e_usageByModel e)
    (e_providerCalls e) (e_checkpointRef e) (e_escalation e) (Some r) (e_abandon e)
    (e_memoizeOutcome e) (e_deadlineAt e) (e_spanId e) (e_startedAt e) (e_endedAt e)
    (e_extras e).

Definition with_abandon (e : JournalEntry) (a : AbandonPayload) : JournalEntry :=
  mkEntry (e_hashVersion e) (e_seq e) (e_ref e) (e_scope e) (e_key e) (e_ordinal e) (e_kind
    e) (e_status e) (e_value e) (e_error e) (e_usage e) (e_servedBy e) (e_usageByModel e)
    (e_providerCalls e) (e_checkpointRef e) (e_escalation e) (e_resolution e) (Some a)
    (e_memoizeOutcome e) (e_deadlineAt e) (e_spanId e) (e_startedAt e) (e_endedAt e)
    (e_extras e).

Definition with_memoize (e : JournalEntry) (b : bool) : JournalEntry :=
  mkEntry (e_hashVersion e) (e_seq e) (e_ref e) (e_scope e) (e_key e) (e_ordinal e) (e_kind
    e) (e_status e) (e_value e) (e_error e) (e_usage e) (e_servedBy e) (e_usageByModel e)
    (e_providerCalls e) (e_checkpointRef e) (e_escalation e) (e_resolution e) (e_abandon e)
    (Some b) (e_deadlineAt e) (e_spanId e) (e_startedAt e) (e_endedAt e) (e_extras e).

Definition with_deadline (e : JournalEntry) (d : string) : JournalEntry :=
  mkEntry (e_hashVersion e) (e_seq e) (e_ref e) (e_scope e) (e_key e) (e_ordinal e) (e_kind
    e) (e_status e) (e_value e) (e_error e) (e_usage e) (e_servedBy e) (e_usageByModel e)
    (e_providerCalls e) (e_checkpointRef e) (e_escalation e) (e_resolution e) (e_abandon e)
    (e_memoizeOutcome e) (Some d) (e_spanId e) (e_startedAt e) (e_endedAt e) (e_extras e).


(** ** Normalization at read

    A journal line as its parsed members.  [set_member] is the assignment of a
    property: in place when the key is there, at the end otherwise. *)

Fixpoint set_member (r : record) (key : string) (v : json) : record :=
  match r with
  | [] => [(key, v)]
  | (k, w) :: rest => if decide (k = key) then (k, v) :: rest else (k, w) :: set_member rest key v
  end.

Definition drop_member (r : record) (key : string) : record :=
  filter (fun m => fst m ≠ key) r.

(** The version the line names: [hashVersion], else the legacy [v], else 1. *)
Definition normalizeEntry (raw : record) : record :=
  if is_number (prop raw "hashVersion") then raw
  else
    let hashVersion :=
      match prop raw "v" with
      | Some (JNum n) => JNum n
      | Some (JFrac n d) => JFrac n d
      | _ => JNum 1
      end in
    set_member (drop_member raw "v") "hashVersion" hashVersion.

Lemma prop_set_member r key v key' :
  prop (set_member r key v) key' = if decide (key = key') then Some v else prop r key'.
Proof.
  induction r as [|[k w] r IH]; cbn; [done|].
  destruct (decide (k = key)) as [->|Hk]; cbn; [by repeat case_decide|].
  rewrite IH. repeat case_decide; congruence.
Qed.

Lemma prop_drop_member r key key' :
  prop (drop_member r key) key' = if decide (key = key') then None else prop r key'.
Proof.
  unfold drop_member. induction r as [|[k w] r IH]; [cbn; by case_decide|].
  rewrite filter_cons. cbn [fst prop].
  destruct (decide (k = key)) as [->|Hk]; [rewrite decide_False by tauto | rewrite decide_True by done];
    cbn [prop]; rewrite IH; repeat case_decide; congruence.
Qed.

(** A normalized entry names a numeric version: its own [hashVersion], else
    the legacy [v], else 1; no other member changes and the legacy one is gone
    when it was used; and normalizing again changes nothing. *)
Theorem normalizeEntry_spec (raw : record) :
  is_number (prop (normalizeEntry raw) "hashVersion") = true ∧
  normalizeEntry (normalizeEntry raw) = normalizeEntry raw ∧
  (is_number (prop raw "hashVersion") = true → normalizeEntry raw = raw) ∧
  (is_number (prop raw "hashVersion") = false →
   prop (normalizeEntry raw) "v" = None ∧
   prop (normalizeEntry raw) "hashVersion" =
     (if is_number (prop raw "v") then prop raw "v" else Some (JNum 1))) ∧
  ∀ key, key ≠ "v" → key ≠ "hashVersion" → prop (normalizeEntry raw) key = prop raw key.
Proof.
  assert (is_number (prop (normalizeEntry raw) "hashVersion") = true) as Hnum.
  { unfold normalizeEntry. destruct (is_number (prop raw "hashVersion")) eqn:E; [done|].
    rewrite prop_set_member, decide_True by done. by destruct (prop raw "v") as [[]|]. }
  split_and!; [done| | | |].
  - unfold normalizeEntry at 1. by rewrite Hnum.
  - intros E. unfold normalizeEntry. by rewrite E.
  - intros E. unfold normalizeEntry. rewrite E, !prop_set_member, prop_drop_member.
    rewrite !decide_False, !decide_True by done. split; [done|].
    by destruct (prop raw "v") as [[]|].
  - intros key Hv Hh. unfold normalizeEntry. destruct (is_number (prop raw "hashVersion")); [reflexivity|].
    by rewrite prop_set_member, prop_drop_member, !decide_False by done.
Qed.
