(* ===== verification/Scope.v ===== *)
(** * Scope paths (packages/core/src/journal/scope.ts)

    The scope-path grammar of the journal: segments, the printers that build
    child scopes, the parser, the canonical formatter, the allocator of
    parallel site numbers, and the textual subtree test shared by the abandon
    folds ([scope === prefix || scope.startsWith(prefix + "/")]).

    Strings are sequences of code units.  A segment number is a JavaScript
    number: [Number] rounds a digit string to binary64 ([double_of_N]), so the
    canonicity theorems speak of paths whose numbers are below 2^53. *)
From S2P Require Import Prelude.

Definition slash : ascii := "/"%char.
Definition colon : ascii := ":"%char.

(** ** The grammar *)

Inductive ScopeSegment :=
  | SegParallel (site branch : N)
  | SegPipeline (stage item : N)
  | SegWorkflow (name : string) (ordinal : N)
  | SegAgent (seq : N)
  | SegPlanNode (nodeId : string).

#[global] Instance ScopeSegment_eq_dec : EqDecision ScopeSegment.
Proof. solve_decision. Defined.

(** The errors of [parseScopePath], one per [throw] statement. *)
Inductive ScopeError :=
  | InvalidParallel (part : string)
  | InvalidPipeline (part : string)
  | InvalidWorkflow (part : string)
  | InvalidAgent (part : string)
  | PlanNeedsNodeId (nodeId : string)
  | UnknownSegment (part : string).

Definition ROOT_SCOPE : string := "".

Definition joinScope (parent segment : string) : string :=
  if decide (parent = "") then segment else parent +:+ "/" +:+ segment.

Definition parallelScope (parent : string) (site branch : N) : string :=
  joinScope parent ("par:" +:+ dec_of_N site +:+ ":" +:+ dec_of_N branch).

Definition pipelineScope (parent : string) (stage item : N) : string :=
  joinScope parent ("pipe:" +:+ dec_of_N stage +:+ ":" +:+ dec_of_N item).

Definition workflowScope (parent name : string) (ordinal : N) : string :=
  joinScope parent ("wf:" +:+ name +:+ ":" +:+ dec_of_N ordinal).

Definition agentScope (parent : string) (seq : N) : string :=
  joinScope parent ("agent:" +:+ dec_of_N seq).

Definition planNodeScope (nodeId : string) : string := "plan/" +:+ nodeId.

(** ** Lexical tests *)

(** The test against the regular expression that accepts [0] and the digit
    strings without a leading zero; [undefined] is [None]. *)
Definition isNat (text : option string) : bool :=
  match text with Some s => canonical_dec s | None => false end.

(** [/^[0-9A-Z]{26}$/.test(nodeId)]. *)
Definition isNodeId (s : string) : bool :=
  (String.length s =? 26)%nat && str_forall (fun c => is_digit c || is_upper c) s.

(** [Number(text)] where the pattern above has matched. *)
Definition Number (text : option string) : N :=
  match text with Some s => double_of_N (N_of_dec s) | None => 0 end.

(** ** The parser *)

Definition parse_parallel (part : string) : result ScopeError ScopeSegment :=
  let pieces := split_on colon part in
  let site := pieces !! 1%nat in
  let branch := pieces !! 2%nat in
  let rest := drop 3 pieces in
  if (0 <? length rest)%nat || negb (isNat site) || negb (isNat branch)
  then Err (InvalidParallel part)
  else Ok (SegParallel (Number site) (Number branch)).

Definition parse_pipeline (part : string) : result ScopeError ScopeSegment :=
  let pieces := split_on colon part in
  let stage := pieces !! 1%nat in
  let item := pieces !! 2%nat in
  let rest := drop 3 pieces in
  if (0 <? length rest)%nat || negb (isNat stage) || negb (isNat item)
  then Err (InvalidPipeline part)
  else Ok (SegPipeline (Number stage) (Number item)).

Definition parse_workflow (part : string) : result ScopeError ScopeSegment :=
  let pieces := split_on colon part in
  let ordinal := default "" (last pieces) in
  let name := join_with colon (drop 1 (take (length pieces - 1) pieces)) in
  if (length pieces <? 3)%nat || bool_decide (name = "") || negb (isNat (Some ordinal))
  then Err (InvalidWorkflow part)
  else Ok (SegWorkflow name (Number (Some ordinal))).

Definition parse_agent (part : string) : result ScopeError ScopeSegment :=
  let pieces := split_on colon part in
  let seq := pieces !! 1%nat in
  let rest := drop 2 pieces in
  if (0 <? length rest)%nat || negb (isNat seq)
  then Err (InvalidAgent part)
  else Ok (SegAgent (Number seq)).

(** The loop over the parts: [plan] consumes the part that follows it. *)
Fixpoint parse_parts (parts : list string) : result ScopeError (list ScopeSegment) :=
  match parts with
  | [] => Ok []
  | part :: rest =>
      if starts_with "par:" part then
        seg ← parse_parallel part; segs ← parse_parts rest; Ok (seg :: segs)
      else if starts_with "pipe:" part then
        seg ← parse_pipeline part; segs ← parse_parts rest; Ok (seg :: segs)
      else if starts_with "wf:" part then
        seg ← parse_workflow part; segs ← parse_parts rest; Ok (seg :: segs)
      else if starts_with "agent:" part then
        seg ← parse_agent part; segs ← parse_parts rest; Ok (seg :: segs)
      else if decide (part = "plan") then
        match rest with
        | nodeId :: rest' =>
            if isNodeId nodeId
            then segs ← parse_parts rest'; Ok (SegPlanNode nodeId :: segs)
            else Err (PlanNeedsNodeId nodeId)
        | [] => Err (PlanNeedsNodeId "")
        end
      else Err (UnknownSegment part)
  end.

Definition parseScopePath (path : string) : result ScopeError (list ScopeSegment) :=
  if decide (path = "") then Ok [] else parse_parts (split_on slash path).

Definition formatSegment (segment : ScopeSegment) : string :=
  match segment with
  | SegParallel site branch => "par:" +:+ dec_of_N site +:+ ":" +:+ dec_of_N branch
  | SegPipeline stage item => "pipe:" +:+ dec_of_N stage +:+ ":" +:+ dec_of_N item
  | SegWorkflow name ordinal => "wf:" +:+ name +:+ ":" +:+ dec_of_N ordinal
  | SegAgent seq => "agent:" +:+ dec_of_N seq
  | SegPlanNode nodeId => "plan/" +:+ nodeId
  end.

Definition formatScopePath (segments : list ScopeSegment) : string :=
  join_with slash (map formatSegment segments).

(** ** Parallel site numbers *)

Module ParallelSiteCounter.
(** The private [bySite] map. *)
Abbreviation t := (gmap string N).

Definition next (bySite : t) (enclosingScope : string) : N * t :=
  let current := default 0%N (bySite !! enclosingScope) in
  (current, <[enclosingScope := (current + 1)%N]> bySite).
End ParallelSiteCounter.

(** ** The subtree test of the abandon folds

    [entry.scope === prefix || entry.scope.startsWith(prefix + "/")]. *)
Definition scope_under (prefix scope : string) : bool :=
  bool_decide (scope = prefix) || starts_with (prefix +:+ "/") scope.

(** ** Well-formed segments *)

(** A number that binary64 represents exactly. *)
Definition safe (n : N) : Prop := (n < 2 ^ 53)%N.

Definition segment_safe (seg : ScopeSegment) : Prop :=
  match seg with
  | SegParallel a b | SegPipeline a b => safe a ∧ safe b
  | SegWorkflow _ n | SegAgent n => safe n
  | SegPlanNode _ => True
  end.

(** Names are non-empty and hold no separator; node ids match the pattern. *)
Definition segment_named (seg : ScopeSegment) : Prop :=
  match seg with
  | SegWorkflow name _ => name ≠ "" ∧ lacks slash name = true
  | SegPlanNode nodeId => isNodeId nodeId = true
  | _ => True
  end.

Definition segment_wf (seg : ScopeSegment) : Prop := segment_safe seg ∧ segment_named seg.

(** The slash-separated parts a segment is printed as. *)
Definition segment_parts (seg : ScopeSegment) : list string :=
  match seg with
  | SegPlanNode nodeId => ["plan"; nodeId]
  | _ => [formatSegment seg]
  end.

Lemma dec_lacks_slash n : lacks slash (dec_of_N n) = true.
Proof. apply digits_lack, dec_of_N_digits. done. Qed.

Lemma dec_lacks_colon n : lacks colon (dec_of_N n) = true.
Proof. apply digits_lack, dec_of_N_digits. done. Qed.

Lemma isNat_dec n : isNat (Some (dec_of_N n)) = true.
Proof. apply dec_of_N_canonical. Qed.

Lemma Number_dec n : safe n → Number (Some (dec_of_N n)) = n.
Proof. intros Hn. cbn. rewrite N_of_dec_of_N. by apply double_of_N_small. Qed.

Lemma Number_canonical s :
  canonical_dec s = true → safe (double_of_N (N_of_dec s)) →
  dec_of_N (double_of_N (N_of_dec s)) = s.
Proof. intros Hc Hs. rewrite double_of_N_small_inv by done. by apply dec_of_canonical. Qed.

#[export] Hint Resolve dec_lacks_slash dec_lacks_colon isNat_dec Number_dec : rulvar.
#[export] Hint Rewrite lacks_app dec_lacks_slash dec_lacks_colon isNat_dec : rulvar.

Lemma nodeId_lacks_slash s : isNodeId s = true → lacks slash s = true.
Proof.
  unfold isNodeId. intros [_ H]%andb_prop. revert H. apply str_forall_impl.
  intros c Hc. apply negb_true_iff, Ascii.eqb_neq. by intros ->.
Qed.

Lemma segment_parts_nonempty seg : segment_parts seg ≠ [].
Proof. by destruct seg. Qed.

Lemma segment_parts_lack seg :
  segment_named seg → Forall (fun w => lacks slash w = true) (segment_parts seg).
Proof.
  destruct seg as [| |name o| |id]; cbn [segment_parts formatSegment segment_named]; intros Hn.
  all: repeat apply Forall_cons_2; try apply Forall_nil_2; try done.
  all: rewrite ?lacks_app, ?dec_lacks_slash; try done.
  - destruct Hn as [_ ->]. done.
  - by apply nodeId_lacks_slash.
Qed.

Lemma format_parts seg : formatSegment seg = join_with slash (segment_parts seg).
Proof. by destruct seg. Qed.

Lemma concat_parts_nil segs : concat (map segment_parts segs) = [] → segs = [].
Proof. destruct segs as [|[] ?]; done. Qed.

Lemma formatScopePath_parts segs :
  formatScopePath segs = join_with slash (concat (map segment_parts segs)).
Proof.
  unfold formatScopePath. induction segs as [|seg segs IH]; [done|].
  destruct segs as [|seg' segs].
  - cbn. by rewrite app_nil_r, format_parts.
  - change (map formatSegment (seg :: seg' :: segs))
      with (formatSegment seg :: map formatSegment (seg' :: segs)).
    cbn [map]. rewrite join_with_cons. cbn [map] in IH. rewrite IH.
    cbn [concat]. rewrite (join_app _ (segment_parts seg)).
    + by rewrite format_parts.
    + apply segment_parts_nonempty.
    + intros [? _]%app_nil. by eapply segment_parts_nonempty.
Qed.

Lemma parts_lack segs :
  Forall segment_named segs →
  Forall (fun w => lacks slash w = true) (concat (map segment_parts segs)).
Proof.
  induction 1; cbn; [by apply Forall_nil_2|].
  apply Forall_app. by split; [apply segment_parts_lack|].
Qed.

Lemma split_format segs :
  segs ≠ [] → Forall segment_named segs →
  split_on slash (formatScopePath segs) = concat (map segment_parts segs).
Proof.
  intros Hne Hn. rewrite formatScopePath_parts. apply split_join, parts_lack; [|done].
  by intros ?%concat_parts_nil.
Qed.

(** ** The parser inverts the printer, segment by segment *)

Lemma split_fields pre a b :
  lacks colon pre = true →
  split_on colon (pre +:+ ":" +:+ dec_of_N a +:+ ":" +:+ dec_of_N b)
  = [pre; dec_of_N a; dec_of_N b].
Proof.
  intros Hp. change (":" +:+ ?s) with (String colon s).
  rewrite split_append by done.
  change (":" +:+ ?s) with (String colon s).
  rewrite split_append by apply dec_lacks_colon.
  by rewrite split_lacks by apply dec_lacks_colon.
Qed.

Lemma parse_parallel_format a b :
  safe a → safe b → parse_parallel (formatSegment (SegParallel a b)) = Ok (SegParallel a b).
Proof.
  intros Ha Hb. unfold parse_parallel. cbn [formatSegment].
  change ("par:" +:+ ?s) with ("par" +:+ ":" +:+ s). rewrite split_fields by done.
  cbn [lookup list_lookup drop length]. cbn -[isNat Number].
  by rewrite !isNat_dec, !Number_dec.
Qed.

Lemma parse_pipeline_format a b :
  safe a → safe b → parse_pipeline (formatSegment (SegPipeline a b)) = Ok (SegPipeline a b).
Proof.
  intros Ha Hb. unfold parse_pipeline. cbn [formatSegment].
  change ("pipe:" +:+ ?s) with ("pipe" +:+ ":" +:+ s). rewrite split_fields by done.
  cbn -[isNat Number]. by rewrite !isNat_dec, !Number_dec.
Qed.

Lemma parse_agent_format a :
  safe a → parse_agent (formatSegment (SegAgent a)) = Ok (SegAgent a).
Proof.
  intros Ha. unfold parse_agent. cbn [formatSegment].
  change ("agent:" +:+ ?s) with ("agent" +:+ String colon s).
  rewrite split_append by done. rewrite split_lacks by apply dec_lacks_colon.
  cbn -[isNat Number]. by rewrite !isNat_dec, !Number_dec.
Qed.

Lemma split_workflow name n :
  split_on colon (formatSegment (SegWorkflow name n))
  = "wf" :: split_on colon name ++ [dec_of_N n].
Proof.
  cbn [formatSegment]. change ("wf:" +:+ ?s) with ("wf" +:+ String colon s).
  rewrite split_append by done. change (":" +:+ ?s) with (String colon s).
  rewrite split_on_app. by rewrite (split_lacks colon (dec_of_N n)) by apply dec_lacks_colon.
Qed.

Lemma parse_workflow_format name n :
  name ≠ "" → safe n →
  parse_workflow (formatSegment (SegWorkflow name n)) = Ok (SegWorkflow name n).
Proof.
  intros Hne Hn. unfold parse_workflow. rewrite split_workflow.
  pose proof (split_on_nonempty colon name) as Hs.
  rewrite app_comm_cons, last_snoc. cbn [default].
  rewrite length_app, take_app_length' by (cbn; lia).
  cbn [drop skipn length]. rewrite drop_0, join_split, Nat.add_comm. unfold id.
  rewrite bool_decide_eq_false_2 by done.
  destruct (Nat.ltb_spec (1 + S (length (split_on colon name))) 3) as [Hl|_].
  { destruct (split_on colon name); [done | cbn in Hl; lia]. }
  cbn [orb]. by rewrite isNat_dec, Number_dec.
Qed.

(** Segment heads of the grammar are pairwise exclusive, so each part is
    dispatched to the parser of its own form. *)
Lemma parse_parts_segment seg rest :
  segment_wf seg →
  parse_parts (segment_parts seg ++ rest) = (segs ← parse_parts rest; Ok (seg :: segs)).
Proof.
  intros [Hs Hn]. destruct seg as [a b|a b|name n|a|id].
  - change (segment_parts _ ++ rest) with (formatSegment (SegParallel a b) :: rest).
    cbn [parse_parts]. change (starts_with "par:" _) with true. cbv iota.
    by rewrite parse_parallel_format by apply Hs.
  - change (segment_parts _ ++ rest) with (formatSegment (SegPipeline a b) :: rest).
    cbn [parse_parts].
    change (starts_with "par:" _) with false. change (starts_with "pipe:" _) with true. cbv iota.
    by rewrite parse_pipeline_format by apply Hs.
  - change (segment_parts _ ++ rest) with (formatSegment (SegWorkflow name n) :: rest).
    cbn [parse_parts].
    change (starts_with "par:" _) with false. change (starts_with "pipe:" _) with false.
    change (starts_with "wf:" _) with true. cbv iota.
    by rewrite parse_workflow_format by (apply Hn || apply Hs).
  - change (segment_parts _ ++ rest) with (formatSegment (SegAgent a) :: rest).
    cbn [parse_parts].
    change (starts_with "par:" _) with false. change (starts_with "pipe:" _) with false.
    change (starts_with "wf:" _) with false. change (starts_with "agent:" _) with true.
    cbv iota. by rewrite parse_agent_format by apply Hs.
  - cbn -[isNodeId]. by rewrite Hn.
Qed.

Lemma parse_parts_format segs rest :
  Forall segment_wf segs →
  parse_parts (concat (map segment_parts segs) ++ rest)
  = (more ← parse_parts rest; Ok (segs ++ more)).
Proof.
  induction 1 as [|seg segs Hseg _ IH]; cbn [map concat app].
  - by destruct (parse_parts rest).
  - rewrite <- app_assoc, parse_parts_segment, IH by done.
    by destruct (parse_parts rest).
Qed.

Lemma parse_format_wf segs :
  Forall segment_wf segs → parseScopePath (formatScopePath segs) = Ok segs.
Proof.
  intros Hwf. destruct segs as [|seg segs']; [done|].
  set (segs := seg :: segs') in *. assert (segs ≠ []) as Hne by done. clearbody segs.
  assert (Forall segment_named segs) as Hn by (by eapply Forall_impl; [exact Hwf | intros ? []]).
  unfold parseScopePath. rewrite split_format by done.
  rewrite <- (app_nil_r (concat _)), parse_parts_format by done. cbn. rewrite app_nil_r.
  destruct (decide _) as [He|]; [|done].
  pose proof (split_format segs Hne Hn) as Hs. rewrite He in Hs. cbn in Hs.
  destruct segs as [|[] [|[] ?]]; done.
Qed.

(** ** The printer inverts the parser *)

Lemma starts_with_head pre part :
  lacks colon pre = true → starts_with (pre +:+ ":") part = true →
  ∃ t, part = pre +:+ String colon t ∧ split_on colon part = pre :: split_on colon t.
Proof.
  intros Hp (t & ->)%starts_with_spec. exists t. rewrite append_assoc.
  change (":" +:+ t) with (String colon t). by rewrite split_append.
Qed.

Lemma split_two t s b :
  split_on colon t = [s; b] → t = s +:+ ":" +:+ b.
Proof. intros H. by rewrite <- (join_split colon t), H. Qed.

Lemma parse_two_inv pre (mk : N → N → ScopeSegment) err part seg t :
  part = pre +:+ String colon t →
  split_on colon part = pre :: split_on colon t →
  (if (0 <? length (drop 3 (split_on colon part)))%nat
      || negb (isNat (split_on colon part !! 1%nat))
      || negb (isNat (split_on colon part !! 2%nat))
   then Err err
   else Ok (mk (Number (split_on colon part !! 1%nat)) (Number (split_on colon part !! 2%nat))))
  = Ok (E := ScopeError) seg →
  ∃ s b, seg = mk (Number (Some s)) (Number (Some b)) ∧
         canonical_dec s = true ∧ canonical_dec b = true ∧
         part = pre +:+ ":" +:+ s +:+ ":" +:+ b.
Proof.
  intros Ht ->. cbn [lookup list_lookup drop].
  destruct (split_on colon t) as [|s [|b [|x l]]] eqn:E; cbn -[isNat Number]; try done.
  - by destruct (isNat (Some s)).
  - destruct (isNat (Some s)) eqn:Es, (isNat (Some b)) eqn:Eb; intros H; simplify_eq/=.
    exists s, b. repeat split; try done. by rewrite (split_two t s b).
Qed.

Lemma parse_parallel_inv part seg :
  starts_with "par:" part = true → parse_parallel part = Ok seg →
  segment_named seg ∧ (segment_safe seg → segment_parts seg = [part]).
Proof.
  intros (t & Ht & Hsp)%(starts_with_head "par"); [|done]. intros H.
  destruct (parse_two_inv "par" SegParallel _ part seg t Ht Hsp H)
    as (s & b & -> & Hs & Hb & ->).
  split; [done|]. intros [Hss Hsb]. cbn [segment_parts formatSegment].
  unfold Number. by rewrite !Number_canonical.
Qed.

Lemma parse_pipeline_inv part seg :
  starts_with "pipe:" part = true → parse_pipeline part = Ok seg →
  segment_named seg ∧ (segment_safe seg → segment_parts seg = [part]).
Proof.
  intros (t & Ht & Hsp)%(starts_with_head "pipe"); [|done]. intros H.
  destruct (parse_two_inv "pipe" SegPipeline _ part seg t Ht Hsp H)
    as (s & b & -> & Hs & Hb & ->).
  split; [done|]. intros [Hss Hsb]. cbn [segment_parts formatSegment].
  unfold Number. by rewrite !Number_canonical.
Qed.

Lemma parse_agent_inv part seg :
  starts_with "agent:" part = true → parse_agent part = Ok seg →
  segment_named seg ∧ (segment_safe seg → segment_parts seg = [part]).
Proof.
  intros (t & Ht & Hsp)%(starts_with_head "agent"); [|done].
  unfold parse_agent. rewrite Hsp. cbn [lookup list_lookup drop].
  destruct (split_on colon t) as [|s [|x l]] eqn:E; cbn -[isNat Number]; try done.
  destruct (isNat (Some s)) eqn:Es; [|done]. intros [= <-]. split; [done|]. intros Hss.
  rewrite Ht, <- (join_split colon t), E. cbn [segment_parts formatSegment join_with].
  unfold Number. by rewrite Number_canonical.
Qed.

Lemma parse_workflow_inv part seg :
  starts_with "wf:" part = true → lacks slash part = true → parse_workflow part = Ok seg →
  segment_named seg ∧ (segment_safe seg → segment_parts seg = [part]).
Proof.
  intros (t & Ht & Hsp)%(starts_with_head "wf"); [|done].
  unfold parse_workflow. rewrite Hsp. intros Hl.
  destruct (split_on colon t) as [|x l _] eqn:E using rev_ind; [done|].
  rewrite app_comm_cons, last_snoc, length_app, take_app_length' by (cbn; lia).
  cbn [default drop skipn length]. rewrite drop_0. unfold id.
  destruct (_ || _) eqn:C; [done|]. intros [= <-].
  apply orb_false_iff in C as [[Hlen Hne]%orb_false_iff Hx].
  apply negb_false_iff in Hx. apply bool_decide_eq_false in Hne. apply Nat.ltb_ge in Hlen.
  assert (l ≠ []) as Hlne by (intros ->; cbn in Hlen; lia).
  assert (t = join_with colon l +:+ ":" +:+ x) as Htj.
  { rewrite <- (join_split colon t), E. by rewrite join_app. }
  cbn [segment_named segment_safe segment_parts formatSegment]. split.
  - split; [done|]. rewrite Ht, Htj, !lacks_app in Hl.
    change (String colon ?s) with (":" +:+ s) in Hl. rewrite !lacks_app in Hl.
    by repeat apply andb_prop in Hl as [? Hl]; repeat match goal with
      H : _ && _ = true |- _ => apply andb_prop in H as [? ?] end.
  - intros Hs. unfold Number. by rewrite Number_canonical, Ht, Htj.
Qed.

Lemma parse_parts_inv parts segs :
  Forall (fun w => lacks slash w = true) parts → parse_parts parts = Ok segs →
  Forall segment_named segs ∧
  (Forall segment_safe segs → concat (map segment_parts segs) = parts).
Proof.
  remember (length parts) as n eqn:Hn.
  revert parts segs Hn. induction (lt_wf n) as [n _ IH].
  intros [|part rest] segs -> Hl H; [by simplify_eq/=|].
  apply Forall_cons_1 in Hl as [Hp Hl].
  assert (∀ seg p, p = Ok (E := ScopeError) seg →
    segment_named seg ∧ (segment_safe seg → segment_parts seg = [part]) →
    (s ← p; segs ← parse_parts rest; Ok (s :: segs)) = Ok segs →
    Forall segment_named segs ∧ (Forall segment_safe segs →
      concat (map segment_parts segs) = part :: rest)) as Hstep.
  { intros seg p -> [Hnm Hsf]. cbn. intros (segs' & Hs & [= <-])%bind_ok.
    destruct (IH (length rest) ltac:(cbn; lia) rest segs' eq_refl Hl Hs) as [Hn' Hf].
    split; [by apply Forall_cons_2|]. intros [? ?]%Forall_cons_1. cbn.
    by rewrite Hsf, Hf. }
  cbn [parse_parts] in H.
  destruct (starts_with "par:" part) eqn:E1.
  { pose proof H as (seg & Hs & _)%bind_ok. eapply Hstep; eauto using parse_parallel_inv. }
  destruct (starts_with "pipe:" part) eqn:E2.
  { pose proof H as (seg & Hs & _)%bind_ok. eapply Hstep; eauto using parse_pipeline_inv. }
  destruct (starts_with "wf:" part) eqn:E3.
  { pose proof H as (seg & Hs & _)%bind_ok. eapply Hstep; eauto using parse_workflow_inv. }
  destruct (starts_with "agent:" part) eqn:E4.
  { pose proof H as (seg & Hs & _)%bind_ok. eapply Hstep; eauto using parse_agent_inv. }
  destruct (decide (part = "plan")) as [->|]; [|done].
  destruct rest as [|id rest]; [done|]. apply Forall_cons_1 in Hl as [Hid Hl].
  destruct (isNodeId id) eqn:Eid; [|done].
  apply bind_ok in H as (segs' & Hs & [= <-]).
  destruct (IH (length rest) ltac:(cbn; lia) rest segs' eq_refl Hl Hs) as [Hn' Hf].
  split; [by apply Forall_cons_2|]. intros [? ?]%Forall_cons_1. cbn. by rewrite Hf.
Qed.

Lemma parseScopePath_inv path segs :
  parseScopePath path = Ok segs →
  Forall segment_named segs ∧ (Forall segment_safe segs → formatScopePath segs = path).
Proof.
  unfold parseScopePath. destruct (decide (path = "")) as [->|Hne]; [by intros [= <-]|].
  intros H. destruct (parse_parts_inv _ _ (split_on_lacks slash path) H) as [Hn Hf].
  split; [done|]. intros Hs. by rewrite formatScopePath_parts, Hf, join_split.
Qed.

(** C38: the parser and the printer of scope paths are inverse on the
    grammar.  Every list of well-formed segments (numbers below 2^53, workflow
    names non-empty and without a slash, node ids of the 26-character form)
    parses back from its printed path, and every path that parses to segments
    with such numbers is exactly the canonical print of them, so a path has
    one parse and a segment list one path. *)
Theorem scope_path_roundtrip :
  (∀ segs, Forall segment_wf segs → parseScopePath (formatScopePath segs) = Ok segs) ∧
  (∀ path segs, parseScopePath path = Ok segs → Forall segment_safe segs →
     formatScopePath segs = path ∧ Forall segment_wf segs).
Proof.
  split; [exact parse_format_wf|].
  intros path segs H Hs. destruct (parseScopePath_inv path segs H) as [Hn Hf].
  split; [by apply Hf | by apply Forall_and].
Qed.

Definition example_path : list ScopeSegment :=
  [SegWorkflow "nightly:build" 2; SegParallel 0 12; SegPlanNode "01ARZ3NDEKTSV4RRFFQ69G5FAV";
   SegAgent 7].

Lemma example_path_wf : Forall segment_wf example_path.
Proof. repeat apply Forall_cons_2; try apply Forall_nil_2; repeat split; try done. Qed.

Lemma scope_path_roundtrip_witness :
  parseScopePath "wf:nightly:build:2/par:0:12/plan/01ARZ3NDEKTSV4RRFFQ69G5FAV/agent:7"
    = Ok example_path ∧
  formatScopePath example_path
    = "wf:nightly:build:2/par:0:12/plan/01ARZ3NDEKTSV4RRFFQ69G5FAV/agent:7".
Proof.
  split.
  - apply (proj1 scope_path_roundtrip example_path). exact example_path_wf.
  - apply (proj2 scope_path_roundtrip _ example_path); [vm_compute; reflexivity|].
    eapply Forall_impl; [exact example_path_wf | by intros ? []].
Defined.

(** ** Child scopes *)

(** ** Textual subtree membership is structural *)

Lemma scope_under_spec prefix scope :
  scope_under prefix scope = true ↔ scope = prefix ∨ ∃ t, scope = prefix +:+ String slash t.
Proof.
  unfold scope_under. rewrite orb_true_iff, bool_decide_eq_true, starts_with_spec.
  setoid_rewrite append_assoc. done.
Qed.

Lemma format_segs_app a b :
  a ≠ [] → b ≠ [] →
  formatScopePath (a ++ b) = formatScopePath a +:+ String slash (formatScopePath b).
Proof.
  intros Ha Hb. unfold formatScopePath. rewrite map_app. apply join_app; by destruct a, b.
Qed.

(** The subtree test of the abandon folds, which compares scope strings,
    decides the ancestor relation of the scope tree: for well-formed paths the
    scope is equal to the prefix or starts with the prefix and a slash exactly
    when the prefix's segments are an initial part of the scope's.  In
    particular [agent:1] never covers [agent:12]. *)
Theorem scope_under_is_segment_prefix (a b : list ScopeSegment) :
  a ≠ [] → Forall segment_wf a → Forall segment_wf b →
  scope_under (formatScopePath a) (formatScopePath b) = true ↔ a `prefix_of` b.
Proof.
  intros Hne Ha Hb. rewrite scope_under_spec. split.
  - assert (parseScopePath (formatScopePath b) = Ok b) as Hpb by by apply parse_format_wf.
    intros [Heq | [t Heq]].
    + rewrite Heq, parse_format_wf in Hpb by done. by injection Hpb as ->.
    + assert (Forall segment_named a) as Hna by (by eapply Forall_impl; [exact Ha | intros ? []]).
      unfold parseScopePath in Hpb. rewrite Heq in Hpb.
      destruct (decide _) as [He|_].
      { by destruct (formatScopePath a). }
      rewrite split_on_app, split_format, parse_parts_format in Hpb by done.
      apply bind_ok in Hpb as (more & _ & [= <-]). by eexists.
  - intros [c ->]. destruct c as [|seg c]; [left; by rewrite app_nil_r|].
    right. eexists. by apply format_segs_app.
Qed.

Lemma scope_under_is_segment_prefix_witness :
  scope_under (formatScopePath [SegAgent 1]) (formatScopePath [SegAgent 1; SegAgent 4]) = true ∧
  ¬ scope_under (formatScopePath [SegAgent 1]) (formatScopePath [SegAgent 12]) = true.
Proof.
  split.
  - apply scope_under_is_segment_prefix; [done| | |by exists [SegAgent 4]];
      repeat apply Forall_cons_2; try apply Forall_nil_2; repeat split; done.
  - intros H. apply scope_under_is_segment_prefix in H;
      [| done | repeat apply Forall_cons_2; try apply Forall_nil_2; repeat split; done ..].
    destruct H as [l H]. by injection H.
Defined.

(** ** Parallel site numbers are never reused in a scope *)

Module SiteCounterFacts.
Import ParallelSiteCounter.

(** The numbers a sequence of calls receives. *)
Fixpoint run (c : t) (calls : list string) : list N :=
  match calls with
  | [] => []
  | s :: rest => let '(n, c') := next c s in n :: run c' rest
  end.

Definition count_scope (s : string) (calls : list string) : N :=
  N.of_nat (length (filter (fun x => x = s) calls)).

Lemma run_lookup c calls i s :
  calls !! i = Some s →
  run c calls !! i = Some (default 0%N (c !! s) + count_scope s (take i calls))%N.
Proof.
  revert c i. induction calls as [|x calls IH]; intros c i Hi; [done|].
  cbn [run next]. destruct i as [|i]; cbn in *.
  - simplify_eq. f_equal. unfold count_scope. cbn. lia.
  - rewrite (IH _ _ Hi). f_equal. unfold count_scope. rewrite filter_cons.
    destruct (decide (x = s)) as [->|Hne].
    + rewrite lookup_insert_eq. cbn. lia.
    + by rewrite lookup_insert_ne by done.
Qed.
End SiteCounterFacts.

(** [ParallelSiteCounter.next] hands out, for the call at position [i] of
    any sequence of calls, the number of earlier calls made with the same
    enclosing scope; so allocation depends only on the execution order within
    that scope and two calls never receive the same scope and number. *)
Theorem site_counter_fresh (calls : list string) :
  (∀ i s, calls !! i = Some s →
     SiteCounterFacts.run ∅ calls !! i = Some (SiteCounterFacts.count_scope s (take i calls))) ∧
  (∀ i j s n, calls !! i = Some s → calls !! j = Some s →
     SiteCounterFacts.run ∅ calls !! i = Some n → SiteCounterFacts.run ∅ calls !! j = Some n →
     i = j).
Proof.
  assert (∀ i s, calls !! i = Some s →
     SiteCounterFacts.run ∅ calls !! i = Some (SiteCounterFacts.count_scope s (take i calls)))
    as Hcount.
  { intros i s Hi. by rewrite (SiteCounterFacts.run_lookup ∅ calls i s Hi), lookup_empty. }
  split; [exact Hcount|].
  assert (∀ i j s, calls !! i = Some s → i < j →
    (SiteCounterFacts.count_scope s (take i calls) < SiteCounterFacts.count_scope s (take j calls))%N)
    as Hlt.
  { intros i j s Hi Hij. unfold SiteCounterFacts.count_scope.
    rewrite <- (take_drop i (take j calls)), take_take, Nat.min_l by lia.
    rewrite filter_app, length_app.
    rewrite skipn_firstn_comm, (drop_S _ _ _ Hi).
    destruct (j - i)%nat eqn:E; [lia|]. cbn [firstn take]. rewrite filter_cons_True by done. cbn. lia. }
  intros i j s n Hi Hj Hn Hm. rewrite (Hcount i s Hi) in Hn. rewrite (Hcount j s Hj) in Hm.
  simplify_eq. destruct (Nat.lt_trichotomy i j) as [Hl|[->|Hl]]; [|done|].
  - specialize (Hlt i j s Hi Hl). lia.
  - specialize (Hlt j i s Hj Hl). lia.
Qed.

Lemma site_counter_fresh_witness :
  SiteCounterFacts.run ∅ ["a"; "b"; "a"] !! 2 = Some 1%N.
Proof. apply (proj1 (site_counter_fresh ["a"; "b"; "a"]) 2 "a"). reflexivity. Defined.
