(* ===== verification/Kinds.v ===== *)
(** * Entry shape validation (packages/core/src/journal/kinds.ts)

    [validateEntryShape] is the gate every append and every imported entry
    passes.  It returns the list of issues, or throws: reading a member of a
    [null] payload is a [TypeError], which the model keeps as [Err]. *)
From S2P Require Import Prelude Json Entries.

Inductive ShapeIssue :=
  | UnknownKind (kind : EntryKind)
  | IllegalStatus (status : EntryStatus) (kind : EntryKind)
  | SkippedPersisted
  | RefRequired (kind : EntryKind)
  | ForwardReference
  | ResolutionPayloadRequired
  | AbandonPayloadRequired
  | SinglePhaseRef (kind : EntryKind)
  | RunningTerminal
  | RandPayloadShape
  | RandValueType (subtype : string)
  | DecisionTypeRequired
  | ExternalDeadline
  | DeadlineNotSuspended
  | DeadlineUnparsable (deadlineAt : string)
  | EscalationReportRequired
  | EscalationOnlyEscalated.

(** The uncaught error of a member access on [null]. *)
Inductive TypeError := ReadOfNull (member : string).

Definition KNOWN_KINDS (k : EntryKind) : bool :=
  match k with KOther _ => false | _ => true end.

Definition LEGAL_STATUSES (k : EntryKind) : option (list EntryStatus) :=
  match k with
  | KAgent => Some [StRunning; StOk; StError; StLimit; StCancelled; StEscalated]
  | KStep => Some [StRunning; StOk; StError]
  | KChild => Some [StRunning; StOk; StError; StLimit; StCancelled]
  | KExternal | KApproval => Some [StSuspended]
  | KRand | KDecision | KPlanRevision | KPlanDecision | KLedgerOp | KResolution | KAbandon
  | KNodeLink | KTerminationInit | KTerminationDenied => Some [StOk]
  | KOther _ => None
  end.

Definition TWO_PHASE_KINDS (k : EntryKind) : bool :=
  match k with KAgent | KStep | KChild => true | _ => false end.

Definition REF_ENTRY_KINDS (k : EntryKind) : bool := is_ref_kind k.

(** [payload === undefined || test(payload.member)]: [undefined] is reported
    as such, [null] throws, and a value that is not an object has no member. *)
Definition read_member (payload : json) (member : string) : result TypeError (option json) :=
  match payload with
  | JNull => Err (ReadOfNull member)
  | JObj r => Ok (prop r member)
  | _ => Ok None
  end.

(** The reference rules of one entry. *)
Definition ref_issues (entry : JournalEntry) : list ShapeIssue :=
  if REF_ENTRY_KINDS (e_kind entry) then
    match e_ref entry with
    | None => [RefRequired (e_kind entry)]
    | Some ref => if (e_seq entry <=? ref)%N then [ForwardReference] else []
    end ++
    (if bool_decide (e_kind entry = KResolution) && bool_decide (e_resolution entry = None)
     then [ResolutionPayloadRequired] else []) ++
    (if bool_decide (e_kind entry = KAbandon) && bool_decide (e_abandon entry = None)
     then [AbandonPayloadRequired] else [])
  else
    match e_ref entry with
    | None => []
    | Some ref =>
        if negb (TWO_PHASE_KINDS (e_kind entry)) then [SinglePhaseRef (e_kind entry)]
        else if decide (e_status entry = StRunning) then [RunningTerminal]
        else if (e_seq entry <=? ref)%N then [ForwardReference] else []
    end.

Definition rand_subtypes : list string := ["now"; "random"; "uuid"].

(** The payload rules of [rand] entries. *)
Definition rand_issues (entry : JournalEntry) : result TypeError (list ShapeIssue) :=
  if decide (e_kind entry = KRand) then
    match e_value entry with
    | None => Ok [RandPayloadShape]
    | Some payload =>
        subtype ← read_member payload "subtype";
        if negb (is_str subtype "now") && negb (is_str subtype "random")
           && negb (is_str subtype "uuid")
        then Ok [RandPayloadShape]
        else
          value ← read_member payload "value";
          if (is_str subtype "uuid" && bool_decide (as_string value = None))
             || (negb (is_str subtype "uuid") && negb (is_number value))
          then Ok [RandValueType (default "" (as_string subtype))]
          else Ok []
    end
  else Ok [].

Definition decision_issues (entry : JournalEntry) : result TypeError (list ShapeIssue) :=
  if decide (e_kind entry = KDecision) then
    match e_value entry with
    | None => Ok [DecisionTypeRequired]
    | Some payload =>
        decisionType ← read_member payload "decisionType";
        if decide (as_string decisionType = None) then Ok [DecisionTypeRequired] else Ok []
    end
  else Ok [].

Section Validate.
(** [Number.isNaN(Date.parse(text))]: the accepted date formats beyond ISO
    8601 are left to the JavaScript implementation. *)
Variable date_parse_is_nan : string → bool.

Definition deadline_issues (entry : JournalEntry) : list ShapeIssue :=
  (if bool_decide (e_kind entry = KExternal) && bool_decide (is_Some (e_deadlineAt entry))
   then [ExternalDeadline] else []) ++
  (if bool_decide (is_Some (e_deadlineAt entry)) && negb (bool_decide (e_status entry = StSuspended))
   then [DeadlineNotSuspended] else []) ++
  match e_deadlineAt entry with
  | Some d => if date_parse_is_nan d then [DeadlineUnparsable d] else []
  | None => []
  end.

Definition escalation_issues (entry : JournalEntry) : list ShapeIssue :=
  (if bool_decide (e_status entry = StEscalated) && negb (bool_decide (is_Some (e_escalation entry)))
   then [EscalationReportRequired] else []) ++
  (if bool_decide (is_Some (e_escalation entry)) && negb (bool_decide (e_status entry = StEscalated))
   then [EscalationOnlyEscalated] else []).

Definition status_issues (entry : JournalEntry) : list ShapeIssue :=
  match LEGAL_STATUSES (e_kind entry) with
  | Some legal =>
      if negb (bool_decide (e_status entry ∈ legal))
      then [IllegalStatus (e_status entry) (e_kind entry)] else []
  | None => []
  end ++
  (if decide (e_status entry = StOther "skipped") then [SkippedPersisted] else []).

Definition validateEntryShape (entry : JournalEntry) : result TypeError (list ShapeIssue) :=
  if negb (KNOWN_KINDS (e_kind entry)) then Ok [UnknownKind (e_kind entry)]
  else
    rand ← rand_issues entry;
    decision ← decision_issues entry;
    Ok (status_issues entry ++ ref_issues entry ++ rand ++ decision ++
        deadline_issues entry ++ escalation_issues entry).


(** ** What a valid entry is *)

(** The payload of a [rand] entry. *)
Inductive rand_payload : json → Prop :=
  | rand_number m subtype v :
      prop m "subtype" = Some (JStr subtype) → subtype = "now" ∨ subtype = "random" →
      prop m "value" = Some v → is_number (Some v) = true → rand_payload (JObj m)
  | rand_uuid m s :
      prop m "subtype" = Some (JStr "uuid") → prop m "value" = Some (JStr s) →
      rand_payload (JObj m).

Record well_shaped (e : JournalEntry) : Prop := {
  ws_status : ∃ legal, LEGAL_STATUSES (e_kind e) = Some legal ∧ e_status e ∈ legal;
  ws_ref_entry : REF_ENTRY_KINDS (e_kind e) = true → ∃ r, e_ref e = Some r ∧ (r < e_seq e)%N;
  ws_resolution : e_kind e = KResolution → is_Some (e_resolution e);
  ws_abandon : e_kind e = KAbandon → is_Some (e_abandon e);
  ws_terminal : ∀ r, REF_ENTRY_KINDS (e_kind e) = false → e_ref e = Some r →
    TWO_PHASE_KINDS (e_kind e) = true ∧ e_status e ≠ StRunning ∧ (r < e_seq e)%N;
  ws_rand : e_kind e = KRand → ∃ v, e_value e = Some v ∧ rand_payload v;
  ws_decision : e_kind e = KDecision →
    ∃ m t, e_value e = Some (JObj m) ∧ prop m "decisionType" = Some (JStr t);
  ws_deadline : ∀ d, e_deadlineAt e = Some d →
    e_status e = StSuspended ∧ e_kind e ≠ KExternal ∧ date_parse_is_nan d = false;
  ws_escalation : e_status e = StEscalated ↔ is_Some (e_escalation e);
}.

Lemma status_issues_nil e :
  KNOWN_KINDS (e_kind e) = true →
  status_issues e = [] ↔ ∃ legal, LEGAL_STATUSES (e_kind e) = Some legal ∧ e_status e ∈ legal.
Proof.
  intros Hk. unfold status_issues. split.
  - intros [H _]%app_nil. destruct (LEGAL_STATUSES _) as [legal|] eqn:E.
    + exists legal. split; [done|]. destruct (bool_decide _) eqn:B; [|done].
      by apply bool_decide_eq_true in B.
    + by destruct (e_kind e).
  - intros (legal & E & Hin). rewrite E, bool_decide_eq_true_2 by done. cbn.
    destruct (decide _) as [Hs|]; [|done]. rewrite Hs in Hin.
    destruct (e_kind e); cbn in E; simplify_eq; set_solver.
Qed.

Lemma ref_issues_nil e :
  ref_issues e = [] ↔
    (REF_ENTRY_KINDS (e_kind e) = true → ∃ r, e_ref e = Some r ∧ (r < e_seq e)%N) ∧
    (e_kind e = KResolution → is_Some (e_resolution e)) ∧
    (e_kind e = KAbandon → is_Some (e_abandon e)) ∧
    (∀ r, REF_ENTRY_KINDS (e_kind e) = false → e_ref e = Some r →
      TWO_PHASE_KINDS (e_kind e) = true ∧ e_status e ≠ StRunning ∧ (r < e_seq e)%N).
Proof.
  unfold ref_issues, REF_ENTRY_KINDS.
  destruct (is_ref_kind (e_kind e)) eqn:Erk.
  - destruct (e_kind e) eqn:Ek; try done.
    all: destruct (e_ref e) as [r|] eqn:Er; [destruct (N.leb_spec (e_seq e) r)|].
    all: destruct (e_resolution e), (e_abandon e); cbn; split; try done.
    all: try (intros (H1 & H2 & H3 & _); destruct (H1 eq_refl) as (r' & ? & ?);
      try destruct (H2 eq_refl); try destruct (H3 eq_refl); simplify_eq; done || lia).
    all: intros _; split_and!; intros; try done; eauto.
  - destruct (e_ref e) as [r|] eqn:Er; cbn; [|split; [|done];
      intros _; split_and!; try done; intros Hk; rewrite Hk in Erk; done].
    destruct (TWO_PHASE_KINDS (e_kind e)) eqn:Et, (decide (e_status e = StRunning)),
      (N.leb_spec (e_seq e) r); cbn; split; try done.
    all: try (intros (_ & _ & _ & H'); destruct (H' r eq_refl eq_refl) as (? & ? & ?); done || lia).
    intros _. split_and!; try (intros Hk; rewrite Hk in Erk; done).
    intros r' _ [= <-]. done.
Qed.

Lemma rand_issues_nil e :
  rand_issues e = Ok [] ↔ (e_kind e = KRand → ∃ v, e_value e = Some v ∧ rand_payload v).
Proof.
  unfold rand_issues. destruct (decide (e_kind e = KRand)) as [Hk|]; [|naive_solver].
  split.
  - intros H _. destruct (e_value e) as [v|]; [|done]. exists v. split; [done|].
    destruct v as [| | | | | |m]; cbn in H; try done.
    destruct (prop m "subtype") as [sub|] eqn:Es; [|done].
    destruct sub as [| | | |t| |]; try done. cbn in H.
    destruct (prop m "value") as [v|] eqn:Ev;
      repeat case_bool_decide; subst; try done; cbn in H.
    all: try (eapply rand_number; eauto; by destruct v).
    destruct v; cbn in H; try done. by eapply rand_uuid.
  - intros H. destruct (H Hk) as (v & -> & Hv).
    destruct Hv as [m t v Es Ht Ev Hn | m s Es Ev]; cbn [read_member]; unfold mbind, result_bind;
      rewrite Es, Ev; cbn; [|done].
    destruct Ht as [-> | ->]; cbn; destruct v; done.
Qed.

Lemma decision_issues_nil e :
  decision_issues e = Ok [] ↔
    (e_kind e = KDecision →
     ∃ m t, e_value e = Some (JObj m) ∧ prop m "decisionType" = Some (JStr t)).
Proof.
  unfold decision_issues. destruct (decide (e_kind e = KDecision)) as [Hk|]; [|naive_solver].
  split.
  - intros H _. destruct (e_value e) as [[| | | | | |m]|]; cbn in H; try done.
    destruct (prop m "decisionType") as [[]|] eqn:E; cbn in H; try done. eauto.
  - intros H. destruct (H Hk) as (m & t & -> & E). cbn. by rewrite E.
Qed.

Lemma deadline_issues_nil e :
  deadline_issues e = [] ↔
    ∀ d, e_deadlineAt e = Some d →
      e_status e = StSuspended ∧ e_kind e ≠ KExternal ∧ date_parse_is_nan d = false.
Proof.
  unfold deadline_issues. destruct (e_deadlineAt e) as [d|]; [|by repeat case_bool_decide].
  rewrite (bool_decide_eq_true_2 (is_Some (Some d))) by eauto. split.
  - intros H d' [= <-]. repeat case_bool_decide; try done.
    by destruct (date_parse_is_nan d).
  - intros H. destruct (H d eq_refl) as (-> & Hk & ->).
    by rewrite bool_decide_eq_false_2, bool_decide_eq_true_2.
Qed.

Lemma escalation_issues_nil e :
  escalation_issues e = [] ↔ (e_status e = StEscalated ↔ is_Some (e_escalation e)).
Proof.
  unfold escalation_issues. repeat case_bool_decide; cbn; split; try done; tauto.
Qed.

(** C40: [validateEntryShape] accepts exactly the well-shaped entries.  An
    accepted entry has a registry kind with a status legal for it (so never the
    derived [skipped]), references only strictly earlier entries, carries the
    payload of its ref-entry kind, pairs a terminal phase only with a two-phase
    kind, carries a typed [rand] or [decision] payload, has a parsable deadline
    only while suspended and never on an external wait, and carries an
    escalation report exactly when it is escalated. *)
Theorem validateEntryShape_accepts (e : JournalEntry) :
  validateEntryShape e = Ok [] ↔ well_shaped e.
Proof.
  unfold validateEntryShape. destruct (KNOWN_KINDS (e_kind e)) eqn:Hk; cbn [negb].
  - split.
    + intros (rand & Hr & (dec & Hd & [= Hall])%bind_ok)%bind_ok.
      apply app_nil in Hall as [Hs [Hf [-> [-> [Hdl He]%app_nil]%app_nil]%app_nil]%app_nil].
      apply status_issues_nil in Hs; [|done]. apply ref_issues_nil in Hf as (? & ? & ? & ?).
      constructor; try done; [by apply rand_issues_nil | by apply decision_issues_nil
        | by apply deadline_issues_nil | by apply escalation_issues_nil].
    + intros []. apply bind_ok. exists []. split; [by apply rand_issues_nil|].
      apply bind_ok. exists []. split; [by apply decision_issues_nil|].
      rewrite (proj2 (status_issues_nil e Hk)), (proj2 (ref_issues_nil e)),
        (proj2 (deadline_issues_nil e)), (proj2 (escalation_issues_nil e)) by done. done.
  - split; [done|]. intros [(legal & E & _) _ _ _ _ _ _ _ _]. by destruct (e_kind e).
Qed.

(** The validator itself throws, instead of reporting an issue, exactly on
    a [rand] or [decision] entry whose payload is the JSON value [null]: the
    guard tests [undefined] only, and the member read on [null] is a
    [TypeError]. *)
Theorem validateEntryShape_throws (e : JournalEntry) :
  (∃ err, validateEntryShape e = Err err) ↔
  (e_kind e = KRand ∨ e_kind e = KDecision) ∧ e_value e = Some JNull.
Proof.
  unfold validateEntryShape. split.
  - intros [err H]. destruct (KNOWN_KINDS (e_kind e)); cbn [negb] in H; [|done].
    unfold rand_issues, decision_issues in H.
    destruct (decide (e_kind e = KRand)) as [Hr|], (decide (e_kind e = KDecision)) as [Hd|];
      try congruence.
    + destruct (e_value e) as [[]|]; cbn in H; auto; repeat case_match; done.
    + destruct (e_value e) as [[]|]; cbn in H; auto; repeat case_match; done.
    + done.
  - intros [[Hk|Hk] Hv]; unfold rand_issues, decision_issues; rewrite Hk, Hv; cbn; eauto.
Qed.

End Validate.

Definition null_decision : JournalEntry := with_value (base_entry 3 "" "k" KDecision StOk) JNull.

Lemma validateEntryShape_accepts_witness :
  ¬ well_shaped (fun _ => false) (base_entry 0 "" "k" KDecision (StOther "skipped")) ∧
  well_shaped (fun _ => false) (with_ref (base_entry 5 "" "k" KAgent StOk) 2).
Proof.
  split.
  - intros H. apply validateEntryShape_accepts in H. vm_compute in H. discriminate H.
  - apply (validateEntryShape_accepts (fun _ => false)). reflexivity.
Defined.

Lemma validateEntryShape_throws_witness :
  ∃ err, validateEntryShape (fun _ => false) null_decision = Err err.
Proof.
  apply (proj2 (validateEntryShape_throws (fun _ => false) null_decision)).
  split; [right; reflexivity | reflexivity].
Defined.
