(* ===== verification/Identity.v ===== *)
(** * Content-addressed identity and key derivers
    (l0/jcs.ts, journal/identity.ts, journal/keyderiver.ts)

    RFC 8785 canonical JSON, the identity projection of a spawn, and the
    frozen key-deriver profiles.  The digest [sha256] comes from node:crypto
    and is a parameter, like the text ECMAScript prints for a number that is
    not an integer. *)
From S2P Require Import Prelude Json Entries.

(** ** JSON.stringify *)

Definition dquote : ascii := ascii_of_N 34.
Definition backslash : ascii := ascii_of_N 92.

Definition hex_digit (n : N) : ascii := ascii_of_N (if (n <? 10)%N then 48 + n else 87 + n).

(** The escape of one code unit inside a JSON string. *)
Definition escape_char (c : ascii) : string :=
  let n := N_of_ascii c in
  if (n =? 34)%N then String backslash (String dquote "")
  else if (n =? 92)%N then String backslash (String backslash "")
  else if (n =? 8)%N then String backslash "b"
  else if (n =? 9)%N then String backslash "t"
  else if (n =? 10)%N then String backslash "n"
  else if (n =? 12)%N then String backslash "f"
  else if (n =? 13)%N then String backslash "r"
  else if (n <? 32)%N then
    String backslash ("u00" +:+ String (hex_digit (n / 16)) (String (hex_digit (n mod 16)) ""))
  else String c "".

Fixpoint escape (s : string) : string :=
  match s with
  | "" => ""
  | String c r => escape_char c +:+ escape r
  end.

Definition stringify_string (s : string) : string :=
  String dquote (escape s +:+ String dquote "").

(** An integer of magnitude below 1e21. *)
Definition stringify_int (z : Z) : string :=
  if (z <? 0)%Z then "-" +:+ dec_of_N (Z.abs_N z) else dec_of_N (Z.abs_N z).

(** ** Canonical JSON *)

(** [Object.keys(record).sort()] applied to the serialized members. *)
Fixpoint insert_member (m : string * string) (l : list (string * string))
    : list (string * string) :=
  match l with
  | [] => [m]
  | x :: l' => if String.leb (fst m) (fst x) then m :: l else x :: insert_member m l'
  end.

Definition sort_members (l : list (string * string)) : list (string * string) :=
  foldr insert_member [] l.

Definition comma : ascii := ","%char.

Section Identity.
Variable stringify_frac : Z → positive → string.

Fixpoint jcsSerialize (value : json) : string :=
  match value with
  | JNull => "null"
  | JBool b => if b then "true" else "false"
  | JNum n => stringify_int n
  | JFrac n d => stringify_frac n d
  | JStr s => stringify_string s
  | JArr items =>
      "[" +:+ join_with comma
        ((fix elements (l : list json) : list string :=
            match l with [] => [] | v :: l' => jcsSerialize v :: elements l' end) items) +:+ "]"
  | JObj members =>
      let serialized :=
        (fix fields (l : list (string * json)) : list (string * string) :=
           match l with [] => [] | (k, v) :: l' => (k, jcsSerialize v) :: fields l' end) members in
      "{" +:+ join_with comma
        (map (fun m => stringify_string (fst m) +:+ ":" +:+ snd m) (sort_members serialized)) +:+ "}"
  end.

(** ** Identity inputs *)

Inductive CanonicalModelSpec :=
  | SpecModel (model : string) (effort : option string)
  | SpecLadder (ladder : json).

Inductive IsolationSpec :=
  | IsoNone
  | IsoReadonly
  | IsoWorktree (ref : option string).

Inductive IdentityInput :=
  | AgentIdentity (agentType : string) (modelSpec : CanonicalModelSpec)
      (prompt schemaHash toolsetHash : string) (isolation : IsolationSpec)
  | ChildIdentity (workflow : string) (args : json)
  | StepIdentity (key : string) (deps : list json)
  | ExternalIdentity (key : string)
  | ApprovalIdentity (toolName : string) (input : json)
  | RandIdentity (subtype : string) (key : option string).

(** A member present only when the value is. *)
Definition opt_member (k : string) (v : option string) : record :=
  match v with Some s => [(k, JStr s)] | None => [] end.

Definition isolation_json (i : IsolationSpec) : json :=
  match i with
  | IsoNone => JStr "none"
  | IsoReadonly => JStr "readonly"
  | IsoWorktree ref => JObj (("kind", JStr "worktree") :: opt_member "ref" ref)
  end.

Definition modelSpecIdentity (spec : CanonicalModelSpec) : record :=
  match spec with
  | SpecModel model effort => ("model", JStr model) :: opt_member "effort" effort
  | SpecLadder ladder => [("ladder", ladder)]
  end.

Definition projectIdentity (input : IdentityInput) : record :=
  match input with
  | AgentIdentity agentType modelSpec prompt schemaHash toolsetHash isolation =>
      [("kind", JStr "agent"); ("agentType", JStr agentType);
       ("modelSpec", JObj (modelSpecIdentity modelSpec)); ("prompt", JStr prompt);
       ("schemaHash", JStr schemaHash); ("toolsetHash", JStr toolsetHash);
       ("isolation", isolation_json isolation)]
  | ChildIdentity workflow args =>
      [("kind", JStr "child"); ("workflow", JStr workflow); ("args", args)]
  | StepIdentity key deps => [("kind", JStr "step"); ("key", JStr key); ("deps", JArr deps)]
  | ExternalIdentity key => [("kind", JStr "external"); ("key", JStr key)]
  | ApprovalIdentity toolName input =>
      [("kind", JStr "approval"); ("toolName", JStr toolName); ("input", input)]
  | RandIdentity subtype key =>
      ("kind", JStr "rand") :: ("subtype", JStr subtype) :: opt_member "key" key
  end.

Definition identityJcs (input : IdentityInput) : string :=
  jcsSerialize (JObj (projectIdentity input)).

Variable sha256 : string → string.

Definition deriveContentKey (input : IdentityInput) : string := sha256 (identityJcs input).

(** ** Key-deriver profiles *)

Inductive DispositionRule := RuleReplay | RuleRerun | RuleMemoizeLimit | RuleMemoizeTaskError.

Definition DispositionTable : Type := EntryStatus → option DispositionRule.

Definition V2_TABLE : DispositionTable := fun status =>
  match status with
  | StOk => Some RuleReplay
  | StEscalated => Some RuleReplay
  | StLimit => Some RuleMemoizeLimit
  | StError => Some RuleMemoizeTaskError
  | StCancelled => Some RuleRerun
  | StRunning => Some RuleRerun
  | _ => None
  end.

Definition V1_TABLE : DispositionTable := fun status =>
  match status with
  | StOk => Some RuleReplay
  | StLimit => Some RuleRerun
  | StError => Some RuleRerun
  | StCancelled => Some RuleRerun
  | StRunning => Some RuleRerun
  | _ => None
  end.

(** The [KeyDeriver] members the journal kernel reads; [None] of [d_project]
    is the marker [incomparable]. *)
Record KeyDeriver := mkDeriver {
  d_hashVersion : N;
  d_project : IdentityInput → option record;
  d_deriveKey : record → string;
  d_dispositionTable : DispositionTable;
}.

Definition identity_kind (input : IdentityInput) : string :=
  match input with
  | AgentIdentity _ _ _ _ _ _ => "agent"
  | ChildIdentity _ _ => "child"
  | StepIdentity _ _ => "step"
  | ExternalIdentity _ => "external"
  | ApprovalIdentity _ _ => "approval"
  | RandIdentity _ _ => "rand"
  end.

Definition V1_INEXPRESSIBLE_KINDS : list string :=
  ["decision"; "plan.revision"; "plan.decision"; "ledger.op"; "node.link"; "termination.init";
   "termination.denied"].

(** [delete record[key]] and [{ ...record, key: v }]. *)
Definition remove_prop (r : record) (key : string) : record :=
  filter (fun m => fst m ≠ key) r.
Definition set_prop (r : record) (key : string) (v : json) : record :=
  map (fun m => if decide (fst m = key) then (key, v) else m) r.

Definition project_v1 (input : IdentityInput) : option record :=
  if bool_decide (identity_kind input ∈ V1_INEXPRESSIBLE_KINDS) then None
  else
    let projected := projectIdentity input in
    match input with
    | AgentIdentity _ _ _ _ _ _ =>
        let modelSpec := default [] (asRecord (prop projected "modelSpec")) in
        Some (set_prop projected "modelSpec" (JObj (remove_prop modelSpec "effort")))
    | _ => Some projected
    end.

Definition deriverV2 : KeyDeriver :=
  mkDeriver 2 (fun input => Some (projectIdentity input))
    (fun c => sha256 (jcsSerialize (JObj c))) V2_TABLE.

Definition deriverV1 : KeyDeriver :=
  mkDeriver 1 project_v1 (fun c => sha256 (jcsSerialize (JObj c))) V1_TABLE.

(** The shipped profiles, then the extra ones, each replacing the profile of
    its own version.  The structural test of an extra deriver is the type. *)
Definition buildDeriverRegistry (extraDerivers : list KeyDeriver) : gmap N KeyDeriver :=
  foldl (fun registry d => <[d_hashVersion d := d]> registry)
    (<[d_hashVersion deriverV2 := deriverV2]> {[d_hashVersion deriverV1 := deriverV1]})
    extraDerivers.

Inductive CompatibilityError :=
  | HashVersionTooNew (entrySeq entryHashVersion : N)
  | HashVersionTooOld (entrySeq entryHashVersion : N).

(** The scan: the first entry outside the registry, in journal order. *)
Fixpoint scanJournalCompatibility (entries : list JournalEntry) (registry : gmap N KeyDeriver)
    : result CompatibilityError unit :=
  match entries with
  | [] => Ok tt
  | entry :: rest =>
      match registry !! e_hashVersion entry with
      | Some _ => scanJournalCompatibility rest registry
      | None =>
          if (CURRENT_HASH_VERSION <? e_hashVersion entry)%N
          then Err (HashVersionTooNew (e_seq entry) (e_hashVersion entry))
          else Err (HashVersionTooOld (e_seq entry) (e_hashVersion entry))
      end
  end.

(** [registryKeyRing(registry).keyFor]; [None] is [incomparable]. *)
Definition registryKeyRing (registry : gmap N KeyDeriver) (identity : IdentityInput)
    (hashVersion : N) : option string :=
  deriver ← registry !! hashVersion;
  projected ← d_project deriver identity;
  Some (d_deriveKey deriver projected).

(** [currentOnlyKeyRing().keyFor] of matching.ts. *)
Definition currentOnlyKeyRing (identity : IdentityInput) (hashVersion : N) : option string :=
  if decide (hashVersion = CURRENT_HASH_VERSION) then Some (deriveContentKey identity) else None.

End Identity.

(** [DeriverRegistry]. *)
Abbreviation DeriverRegistry := (gmap N KeyDeriver).
