(* ===== verification/Disposition.v ===== *)
(** * Abandon coverage and the replay predicate
    (packages/core/src/journal/disposition.ts)

    The abandon fold over a loaded journal, the error classes, and the
    canonical replay predicate that decides, for one journaled operation,
    whether a resume replays, reruns or skips it. *)
From S2P Require Import Prelude Json Entries Scope Identity.

(** The typed errors of the journal folds: a member read on [null]
    ([TypeError]) and the violations of rule O2 ([JournalOrderViolation]). *)
Inductive FoldError :=
  | NullMember (member : string)
  | OrderForward (seq : N)
  | OrderMissing (seq ref : N).

(** ** Operations and dispositions (matching.ts) *)

Record JournalOperation := mkOp {
  op_running : JournalEntry;
  op_terminal : option JournalEntry;
}.

Inductive ReplayDisposition := DReplay | DRerun | DSkip.

#[global] Instance ReplayDisposition_eq_dec : EqDecision ReplayDisposition.
Proof. solve_decision. Defined.

(** ** Error classes *)

Inductive AgentErrorKind :=
  | EkTransport | EkRateLimit | EkSchemaMismatch | EkTool | EkBudget | EkTerminal
  | EkOther.

(** The members of [AgentError] the classifier reads. *)
Record AgentError := mkAgentError {
  ae_kind : AgentErrorKind;
  ae_retryable : bool;
}.

Inductive ErrorClass := ClassTransport | ClassTask.

#[global] Instance ErrorClass_eq_dec : EqDecision ErrorClass.
Proof. solve_decision. Defined.

Definition classifyAgentError (e : AgentError) : ErrorClass :=
  match ae_kind e with
  | EkSchemaMismatch | EkTerminal => ClassTask
  | EkTool => if ae_retryable e then ClassTransport else ClassTask
  | _ => ClassTransport
  end.

(** [data.kind as AgentError["kind"]]. *)
Definition agent_error_kind (v : option json) : AgentErrorKind :=
  if is_str v "transport" then EkTransport
  else if is_str v "rate-limit" then EkRateLimit
  else if is_str v "schema-mismatch" then EkSchemaMismatch
  else if is_str v "tool" then EkTool
  else if is_str v "budget" then EkBudget
  else if is_str v "terminal" then EkTerminal
  else EkOther.

(** [agentErrorFromWire] on a wire error of code [agent]: the two members the
    classifier reads ([wire.data ?? {}]). *)
Definition agentErrorFromWire (wire : WireError) : AgentError :=
  mkAgentError (agent_error_kind (opt_prop (asRecord (w_data wire)) "kind")) (w_retryable wire).

Definition agentErrorFromWireSafe (terminal : JournalEntry) : AgentError :=
  match e_error terminal with
  | None => mkAgentError EkTerminal false
  | Some wire =>
      if decide (w_code wire = "agent") then agentErrorFromWire wire
      else mkAgentError (if w_retryable wire then EkTransport else EkTerminal) (w_retryable wire)
  end.

(** ** Abandon coverage *)

(** The scope the children of an abandoned spawn run under. *)
Definition childCoveragePrefix (target : JournalEntry) : result FoldError string :=
  let fallback := agentScope (e_scope target) (e_seq target) in
  if decide (e_kind target = KChild) then
    match e_value target with
    | None => Ok fallback
    | Some JNull => Err (NullMember "childScope")
    | Some payload => Ok (default fallback (as_string (opt_prop (asRecord (Some payload)) "childScope")))
    end
  else Ok fallback.

Record Coverage := mkCoverage {
  coveredSeqs : gset N;
  coveredPrefixes : list string;
}.

Definition no_coverage : Coverage := mkCoverage ∅ [].

(** [isCovered] of the abandon fold, [isCoveredEntry] of the resolution fold. *)
Definition isCovered (c : Coverage) (entry : JournalEntry) : bool :=
  bool_decide (e_seq entry ∈ coveredSeqs c) ||
  existsb (fun prefix => scope_under prefix (e_scope entry)) (coveredPrefixes c).

(** Cover [target] and the scope of its children. *)
Definition cover (c : Coverage) (target : JournalEntry) : result FoldError Coverage :=
  prefix ← childCoveragePrefix target;
  Ok (mkCoverage ({[e_seq target]} ∪ coveredSeqs c) (coveredPrefixes c ++ [prefix])).

(** [bySeq]: a later entry with the same sequence number wins. *)
Definition index_by_seq (entries : list JournalEntry) : gmap N JournalEntry :=
  foldl (fun m entry => <[e_seq entry := entry]> m) ∅ entries.

Definition abandon_step (bySeq : gmap N JournalEntry) (c : Coverage) (entry : JournalEntry)
    : result FoldError Coverage :=
  if decide (e_kind entry = KAbandon) then
    match e_ref entry with
    | None => Ok c
    | Some ref =>
        match bySeq !! ref with
        | None => Ok c
        | Some target => if isCovered c target then Ok c else cover c target
        end
    end
  else Ok c.

Fixpoint abandon_steps (bySeq : gmap N JournalEntry) (c : Coverage) (entries : list JournalEntry)
    : result FoldError Coverage :=
  match entries with
  | [] => Ok c
  | entry :: rest => c' ← abandon_step bySeq c entry; abandon_steps bySeq c' rest
  end.

(** The fold: the entry index and the coverage it closes over. *)
Record AbandonFold := mkAbandonFold {
  af_bySeq : gmap N JournalEntry;
  af_coverage : Coverage;
}.

Definition isAbandoned (fold : AbandonFold) (ref : N) : bool :=
  match af_bySeq fold !! ref with
  | None => false
  | Some entry => isCovered (af_coverage fold) entry
  end.

Definition buildAbandonFold (entries : list JournalEntry) : result FoldError AbandonFold :=
  let bySeq := index_by_seq entries in
  c ← abandon_steps bySeq no_coverage entries;
  Ok (mkAbandonFold bySeq c).

(** ** The replay predicate *)

(** [terminal.memoizeOutcome ?? running.memoizeOutcome ?? false]. *)
Definition memoized (op : JournalOperation) : bool :=
  let terminal := default (op_running op) (op_terminal op) in
  match e_memoizeOutcome terminal with
  | Some b => b
  | None => default false (e_memoizeOutcome (op_running op))
  end.

Definition applyRule (rule : option DispositionRule) (op : JournalOperation) (runSettledOk : bool)
    : ReplayDisposition :=
  let terminal := default (op_running op) (op_terminal op) in
  match rule with
  | Some RuleReplay => DReplay
  | Some RuleMemoizeLimit =>
      if memoized op then DReplay else if runSettledOk then DReplay else DRerun
  | Some RuleMemoizeTaskError =>
      if negb (memoized op) || bool_decide (e_error terminal = None) then DRerun
      else if decide (classifyAgentError (agentErrorFromWireSafe terminal) = ClassTask)
      then DReplay else DRerun
  | Some RuleRerun | None => DRerun
  end.

(** [options] of the predicate, [is_abandoned] being [fold.isAbandoned]. *)
Definition replayDisposition (tableFor : N → DispositionTable) (is_abandoned : N → bool)
    (entry : JournalEntry) (terminal : option JournalEntry) (invalidated : gset N)
    (runSettledOk : bool) : ReplayDisposition :=
  if is_abandoned (e_seq entry) then DSkip
  else if decide (e_seq entry ∈ invalidated) then DRerun
  else
    let op := mkOp entry (Some (default entry terminal)) in
    applyRule (tableFor (e_hashVersion entry) (e_status (default entry terminal))) op runSettledOk.

(** [registry.get(hashVersion) ?? deriverV2], as the table it carries. *)
Definition registry_table (registry : DeriverRegistry) (hashVersion : N) : DispositionTable :=
  match registry !! hashVersion with
  | Some d => d_dispositionTable d
  | None => V2_TABLE
  end.

Definition dispositionHook (registry : DeriverRegistry) (is_abandoned : N → bool)
    (invalidated : gset N) (runSettledOk : bool) (op : JournalOperation) : ReplayDisposition :=
  replayDisposition (registry_table registry) is_abandoned (op_running op) (op_terminal op)
    invalidated runSettledOk.

(** ** The predicate, status by status *)

(** A failure the classifier calls a task failure. *)
Definition task_failure (terminal : JournalEntry) : Prop :=
  is_Some (e_error terminal) ∧
  classifyAgentError (agentErrorFromWireSafe terminal) = ClassTask.

(** The outcomes a resume serves from the journal under the version 2
    profile, without paying again. *)
Definition replays_v2 (entry terminal : JournalEntry) (runSettledOk : bool) : Prop :=
  let memo := memoized (mkOp entry (Some terminal)) in
  match e_status terminal with
  | StOk | StEscalated => True
  | StLimit => (memo = true) ∨ (runSettledOk = true)
  | StError => (memo = true) ∧ task_failure terminal
  | _ => False
  end.

Lemma applyRule_v2 entry terminal settled :
  applyRule (V2_TABLE (e_status terminal)) (mkOp entry (Some terminal)) settled = DReplay
  ↔ replays_v2 entry terminal settled.
Proof.
  unfold replays_v2, applyRule, V2_TABLE, task_failure. cbn [op_terminal default op_running].
  destruct (e_status terminal); try (split; done); unfold id.
  - destruct (memoized _), (e_error terminal) eqn:Ee; cbn;
      rewrite ?bool_decide_eq_true_2, ?bool_decide_eq_false_2 by done; cbn.
    + destruct (decide _); split; [eauto| done | done | by intros (_ & _ & ?)].
    + split; [done | by intros (_ & [? ?] & _)].
    + split; [done | by intros []].
    + split; [done | by intros []].
  - destruct (memoized _), settled; split; naive_solver.
Qed.

Lemma applyRule_not_skip rule op settled : applyRule rule op settled ≠ DSkip.
Proof. unfold applyRule. repeat case_match; done. Qed.

(** The canonical replay predicate under the version 2 profile.  An
    operation is skipped exactly when the abandon fold covers it, whatever its
    status; otherwise it replays exactly when it was not invalidated and its
    terminal is ok or escalated, or a limit that was memoized or belongs to a
    run that settled ok, or a memoized task-class error; everything else
    reruns. *)
Theorem replayDisposition_v2 (is_abandoned : N → bool) (entry : JournalEntry)
    (terminal : option JournalEntry) (invalidated : gset N) (settled : bool) :
  let d := replayDisposition (fun _ => V2_TABLE) is_abandoned entry terminal invalidated settled in
  (d = DSkip ↔ is_abandoned (e_seq entry) = true) ∧
  (d = DReplay ↔ is_abandoned (e_seq entry) = false ∧ e_seq entry ∉ invalidated ∧
                 replays_v2 entry (default entry terminal) settled).
Proof.
  unfold replayDisposition. destruct (is_abandoned (e_seq entry)); cbn.
  - split; split; try done. by intros [].
  - destruct (decide (e_seq entry ∈ invalidated)).
    + split; split; try done. by intros (_ & ? & _).
    + split; [split; [by intros ?%applyRule_not_skip | done]|].
      rewrite applyRule_v2. naive_solver.
Qed.

(** The domain of the version 1 profile: no memoization flag, no escalation. *)
Definition v1_domain (entry : JournalEntry) (terminal : option JournalEntry) : Prop :=
  e_memoizeOutcome entry = None ∧ e_memoizeOutcome (default entry terminal) = None ∧
  e_status (default entry terminal) ≠ StEscalated.

(** The two frozen tables agree on the version 1 domain, except on a limit
    terminal of a run that settled ok, which version 2 replays and version 1
    reruns. *)
Theorem v1_v2_agree_on_v1_domain (is_abandoned : N → bool) (entry : JournalEntry)
    (terminal : option JournalEntry) (invalidated : gset N) (settled : bool) :
  v1_domain entry terminal →
  (replayDisposition (fun _ => V1_TABLE) is_abandoned entry terminal invalidated settled
   = replayDisposition (fun _ => V2_TABLE) is_abandoned entry terminal invalidated settled) ↔
  ¬ (is_abandoned (e_seq entry) = false ∧ e_seq entry ∉ invalidated ∧
       e_status (default entry terminal) = StLimit ∧ settled = true).
Proof.
  intros (Hm & Hmt & Hne). unfold replayDisposition.
  destruct (is_abandoned (e_seq entry)); [naive_solver|].
  destruct (decide (e_seq entry ∈ invalidated)); [naive_solver|].
  unfold applyRule, memoized. cbn [op_terminal op_running].
  change (default entry (Some (default entry terminal))) with (default entry terminal).
  rewrite Hmt, Hm. change (default false None) with false. cbn.
  destruct (e_status (default entry terminal)); cbn; try naive_solver.
  destruct settled; naive_solver.
Qed.

Lemma v1_v2_agree_on_v1_domain_witness :
  v1_domain (base_entry 0 "" "k" KAgent StLimit) None ∧
  replayDisposition (fun _ => V1_TABLE) (fun _ => false) (base_entry 0 "" "k" KAgent StLimit) None ∅ false
  = replayDisposition (fun _ => V2_TABLE) (fun _ => false) (base_entry 0 "" "k" KAgent StLimit) None ∅ false.
Proof.
  split; [done|].
  apply (v1_v2_agree_on_v1_domain (fun _ => false) (base_entry 0 "" "k" KAgent StLimit) None ∅ false);
    [done|]. by intros (_ & _ & _ & ?).
Defined.

Lemma replayDisposition_v2_examples :
  (* a memoized terminal error is served, a transient one reruns *)
  replayDisposition (fun _ => V2_TABLE) (fun _ => false)
    (base_entry 0 "" "k" KAgent StRunning)
    (Some (with_memoize (with_error (base_entry 1 "" "k" KAgent StError)
             (mkWire "agent" "" false (Some (JObj [("kind", JStr "terminal")])))) true))
    ∅ false = DReplay ∧
  replayDisposition (fun _ => V2_TABLE) (fun _ => false)
    (base_entry 0 "" "k" KAgent StRunning)
    (Some (with_memoize (with_error (base_entry 1 "" "k" KAgent StError)
             (mkWire "agent" "" true (Some (JObj [("kind", JStr "transport")])))) true))
    ∅ false = DRerun.
Proof. split; reflexivity. Qed.

(** ** The abandon fold as a union *)

Lemma scope_under_trans a b c :
  scope_under a b = true → scope_under b c = true → scope_under a c = true.
Proof.
  rewrite !scope_under_spec. intros [->|[t ->]] [->|[u ->]]; eauto.
  right. exists (t +:+ String slash u). by rewrite !append_assoc, append_cons.
Qed.

(** The entry an abandon entry targets, when there is one. *)
Definition abandon_target (bySeq : gmap N JournalEntry) (entry : JournalEntry)
    : option JournalEntry :=
  if decide (e_kind entry = KAbandon) then ref ← e_ref entry; bySeq !! ref else None.

(** The children of [target] run under a scope nested in its own. *)
Definition nested (target : JournalEntry) (prefix : string) : Prop :=
  childCoveragePrefix target = Ok prefix ∧ prefix ≠ "" ∧
  (e_scope target = "" ∨ scope_under (e_scope target) prefix = true).

(** [entry] is the target itself or runs in the scope of its children. *)
Definition under_target (target : JournalEntry) (prefix : string) (entry : JournalEntry) : Prop :=
  e_seq entry = e_seq target ∨ scope_under prefix (e_scope entry) = true.

Lemma abandon_step_target bySeq c entry :
  abandon_step bySeq c entry =
    match abandon_target bySeq entry with
    | None => Ok c
    | Some target => if isCovered c target then Ok c else cover c target
    end.
Proof.
  unfold abandon_step, abandon_target. destruct (decide _); [|done].
  destruct (e_ref entry) as [r|]; [|done]. cbn. by destruct (bySeq !! r).
Qed.

Lemma isCovered_spec c entry :
  isCovered c entry = true ↔
  e_seq entry ∈ coveredSeqs c ∨ ∃ p, p ∈ coveredPrefixes c ∧ scope_under p (e_scope entry) = true.
Proof. unfold isCovered. by rewrite orb_true_iff, bool_decide_eq_true, existsb_elem_of. Qed.

Lemma isCovered_cover c target p entry :
  childCoveragePrefix target = Ok p →
  ∃ c', cover c target = Ok c' ∧
    (isCovered c' entry = true ↔ isCovered c entry = true ∨ under_target target p entry).
Proof.
  intros Hp. unfold cover. rewrite Hp. cbn. eexists; split; [done|].
  rewrite !isCovered_spec. unfold under_target. cbn. set_solver.
Qed.

Section AbandonUnion.
Variable bySeq : gmap N JournalEntry.
Hypothesis bySeq_seq : ∀ r e, bySeq !! r = Some e → e_seq e = r.

(** The coverage closes over the targets met so far: each prefix in it hangs
    below no root, and each covered sequence number brought its prefix. *)
Definition coverage_wf (c : Coverage) : Prop :=
  Forall (fun p => p ≠ "") (coveredPrefixes c) ∧
  ∀ s, s ∈ coveredSeqs c → ∃ t p,
    bySeq !! s = Some t ∧ childCoveragePrefix t = Ok p ∧ p ∈ coveredPrefixes c.

Lemma scope_under_root p : scope_under p "" = true → p = "".
Proof. rewrite scope_under_spec. by intros [->|[t Ht]]; [done | destruct p]. Qed.

(** An already covered target adds nothing: its whole subtree is covered. *)
Lemma covered_subtree c t p entry :
  coverage_wf c → bySeq !! e_seq t = Some t → bySeq !! e_seq entry = Some entry →
  nested t p → isCovered c t = true → under_target t p entry → isCovered c entry = true.
Proof.
  intros [Hne Hwf] Ht He (Hp & _ & Hn) Hc [Heq | Hu]; [congruence|].
  rewrite isCovered_spec. apply isCovered_spec in Hc. destruct Hc as [Hs | (q & Hq & Hqt)]; right.
  - destruct (Hwf _ Hs) as (t' & p' & Ht' & Hp' & Hin). assert (t' = t) as -> by congruence. assert (p' = p) as -> by congruence. exists p; done.
  - exists q. split; [done|]. rewrite Forall_forall in Hne. specialize (Hne q Hq).
    destruct Hn as [Hroot|Hn]; [rewrite Hroot in Hqt; by apply scope_under_root in Hqt|].
    eauto using scope_under_trans.
Qed.

(** The targets of a list of entries, each with its children's prefix. *)
Definition hits (entries : list JournalEntry) (entry : JournalEntry) : Prop :=
  ∃ a t p, a ∈ entries ∧ abandon_target bySeq a = Some t ∧ childCoveragePrefix t = Ok p ∧
    under_target t p entry.

Definition targets_nested (entries : list JournalEntry) : Prop :=
  ∀ a t, a ∈ entries → abandon_target bySeq a = Some t → ∃ p, nested t p.

Lemma abandon_target_in a t : abandon_target bySeq a = Some t → bySeq !! e_seq t = Some t.
Proof.
  unfold abandon_target. destruct (decide _); [|done]. intros (r & _ & Hr)%bind_Some.
  by rewrite (bySeq_seq _ _ Hr).
Qed.

Lemma cover_wf c c' t p :
  coverage_wf c → bySeq !! e_seq t = Some t → nested t p → cover c t = Ok c' → coverage_wf c'.
Proof.
  intros [Hne Hwf] Ht (Hp & Hp0 & _). unfold cover. rewrite Hp. cbn. intros [= <-]. split; cbn.
  - apply Forall_app. split; [done|]. by constructor.
  - intros s [->%elem_of_singleton|Hs]%elem_of_union; [exists t, p; set_solver|].
    destruct (Hwf s Hs) as (t' & p' & ? & ? & ?). exists t', p'. set_solver.
Qed.

Lemma abandon_steps_union entries c :
  coverage_wf c → targets_nested entries →
  ∃ c', abandon_steps bySeq c entries = Ok c' ∧
    ∀ entry, bySeq !! e_seq entry = Some entry →
      (isCovered c' entry = true ↔ isCovered c entry = true ∨ hits entries entry).
Proof.
  revert c. induction entries as [|a rest IH]; intros c Hwf Hn.
  { exists c. split; [done|]. intros entry _. split; [auto|]. intros [?|(a & _ & _ & Ha & _)]; [done|].
    set_solver. }
  assert (targets_nested rest) as Hn' by (intros b t Hb; apply Hn; by right).
  cbn. rewrite abandon_step_target.
  destruct (abandon_target bySeq a) as [t|] eqn:Ha; cbn.
  2:{ destruct (IH c Hwf Hn') as (c' & -> & Hc'). exists c'. split; [done|].
      intros entry He. rewrite (Hc' entry He). unfold hits. set_solver. }
  destruct (Hn a t ltac:(left) Ha) as [p Hp]. pose proof (abandon_target_in _ _ Ha) as Ht.
  assert (∀ entry, hits (a :: rest) entry ↔ under_target t p entry ∨ hits rest entry) as Hhits.
  { intros entry. unfold hits. destruct Hp as (Hp & _). split.
    - intros (a' & t' & p' & [->|?]%elem_of_cons & Ht' & Hp' & ?); [|right; by exists a', t', p'].
      left. assert (t' = t) as -> by congruence. by assert (p' = p) as -> by congruence.
    - intros [?|(a' & t' & p' & ? & ?)]; [|exists a', t', p'; set_solver].
      exists a, t, p. set_solver. }
  destruct (isCovered c t) eqn:Hct; cbn.
  - destruct (IH c Hwf Hn') as (c' & -> & Hc'). exists c'. split; [done|].
    intros entry He. rewrite (Hc' entry He), Hhits.
    pose proof (covered_subtree c t p entry Hwf Ht He Hp Hct). tauto.
  - destruct (cover c t) as [c1|e] eqn:Hcov.
    2:{ destruct (isCovered_cover c t p t (proj1 Hp)) as (? & ? & _). congruence. }
    destruct (IH c1 (cover_wf _ _ _ _ Hwf Ht Hp Hcov) Hn') as (c' & Hrun & Hc'). cbn. rewrite Hrun.
    exists c'. split; [done|]. intros entry He. rewrite (Hc' entry He), Hhits.
    destruct (isCovered_cover c t p entry (proj1 Hp)) as (c2 & ? & Hc2). assert (c2 = c1) as -> by congruence. tauto.
Qed.
End AbandonUnion.

Lemma index_by_seq_foldl entries (m : gmap N JournalEntry) :
  (∀ r e, m !! r = Some e → e_seq e = r) →
  ∀ r e, foldl (fun m entry => <[e_seq entry := entry]> m) m entries !! r = Some e → e_seq e = r.
Proof.
  revert m. induction entries as [|a rest IH]; intros m Hm; cbn; [done|].
  apply IH. intros r e. rewrite lookup_insert_Some. naive_solver.
Qed.

Lemma index_by_seq_seq entries r e : index_by_seq entries !! r = Some e → e_seq e = r.
Proof. apply index_by_seq_foldl. intros ? ?. by rewrite lookup_empty. Qed.

(** The abandon fold is total on a journal whose abandoned spawns run their
    children in scopes nested below their own, and covers exactly the union
    of the targets and their child scopes: the first-wins noops (an abandon
    over an already covered target) lose nothing. *)
Theorem abandon_fold_union (entries : list JournalEntry) :
  targets_nested (index_by_seq entries) entries →
  ∃ fold, buildAbandonFold entries = Ok fold ∧
    ∀ ref, isAbandoned fold ref = true ↔
      ∃ entry, index_by_seq entries !! ref = Some entry ∧
        hits (index_by_seq entries) entries entry.
Proof.
  intros Hn. unfold buildAbandonFold.
  destruct (abandon_steps_union (index_by_seq entries) (index_by_seq_seq entries)
              entries no_coverage) as (c & -> & Hc); [|done|].
  { split; [by constructor|]. cbn. set_solver. }
  cbn. eexists; split; [done|]. intros ref. unfold isAbandoned. cbn.
  destruct (index_by_seq entries !! ref) as [entry|] eqn:He; [|naive_solver].
  rewrite Hc by (by rewrite (index_by_seq_seq _ _ _ He)).
  rewrite isCovered_spec. cbn. set_solver.
Qed.

(** A spawn, its nested call, an unrelated call, and two abandons, the second
    one over the already covered nested call. *)
Definition abandoned_journal : list JournalEntry :=
  [base_entry 0 "" "a" KAgent StRunning;
   base_entry 1 "agent:0" "b" KAgent StRunning;
   base_entry 2 "agent:01" "c" KAgent StRunning;
   with_ref (base_entry 3 "" "" KAbandon StOk) 0;
   with_ref (base_entry 4 "" "" KAbandon StOk) 1;
   base_entry 5 "agent:0/agent:1" "d" KAgent StRunning].

Lemma abandoned_journal_nested :
  targets_nested (index_by_seq abandoned_journal) abandoned_journal.
Proof.
  intros a t Ha Ht. repeat (apply elem_of_cons in Ha as [->|Ha]; [try (vm_compute in Ht; discriminate)|]);
    [..|by apply not_elem_of_nil in Ha].
  - vm_compute in Ht. injection Ht as <-. exists "agent:0". by repeat split; auto.
  - vm_compute in Ht. injection Ht as <-. exists "agent:0/agent:1". repeat split; [done..|by right].
Qed.

Lemma abandon_fold_union_witness :
  ∃ fold, buildAbandonFold abandoned_journal = Ok fold ∧
    isAbandoned fold 5 = true ∧ isAbandoned fold 2 = false.
Proof.
  destruct (abandon_fold_union abandoned_journal abandoned_journal_nested) as (fold & Hf & _).
  exists fold. split; [exact Hf|]. vm_compute in Hf. injection Hf as <-. by split.
Defined.
