(* ===== verification/Matching.v ===== *)
(** * Forward matching (packages/core/src/journal/matching.ts)

    [JournalMatcher]: the operations of a loaded journal, per scope, and the
    consumption of them by the live calls of a resumed program.  The key ring
    (versioned key derivation) is an interface, [KeyRing], instantiated by the
    rings of Identity.v; the memo table of derived keys is not part of the
    state, since a ring is a function of its arguments. *)
From S2P Require Import Prelude Json Entries Scope Identity Disposition.

(** ** Data *)

(** [keyFor]: the key of a live call under a stored entry's version, [None]
    for [incomparable]. *)
Class KeyRing := keyFor : IdentityInput → N → option string.

Inductive MatchMode := Scoped | Cache | Never.

Inductive MatchResult :=
  | MReplay (running terminal : JournalEntry)
  | MSkip (running : JournalEntry) (terminal : option JournalEntry)
  | MRerunDangling (running : JournalEntry)
  | MRerun (running : JournalEntry)
  | MLive.

(** [roundOneDisposition]. *)
Definition roundOneDisposition (op : JournalOperation) : ReplayDisposition :=
  match e_status (default (op_running op) (op_terminal op)) with
  | StOk => DReplay
  | _ => DRerun
  end.

Record JournalMatcher := mkMatcher {
  byScope : gmap string (list JournalOperation);
  all : list JournalOperation;
  consumed : gset N;
  resolvedRefs : gset N;
  disposition : JournalOperation → ReplayDisposition;
  aliasDisposition : option (JournalOperation → ReplayDisposition);
  aliases : list (string * string);
  hitsInternal : N;
  missesInternal : N;
  skippedInternal : N;
  rerunsInternal : N;
}.

Record ResumeReport := mkReport {
  rep_hits : N;
  rep_misses : N;
  rep_skipped : N;
  rep_reruns : N;
  rep_orphaned : list N;
}.

(** ** Construction *)

(** The first pass: resolved suspensions and terminals by ref, the last
    terminal of a ref winning. *)
Definition index_entry (acc : gset N * gmap N JournalEntry) (entry : JournalEntry)
    : gset N * gmap N JournalEntry :=
  let '(resolved, terminalsByRef) := acc in
  match e_ref entry with
  | None => acc
  | Some ref =>
      if is_ref_kind (e_kind entry) then
        if decide (e_kind entry = KResolution) then ({[ref]} ∪ resolved, terminalsByRef)
        else acc
      else (resolved, <[ref := entry]> terminalsByRef)
  end.

(** The operation an entry dispatches, if it dispatches one. *)
Definition operation_of (terminalsByRef : gmap N JournalEntry) (entry : JournalEntry)
    : option JournalOperation :=
  if is_ref_kind (e_kind entry) then None
  else match e_ref entry with
       | Some _ => None
       | None => Some (mkOp entry (terminalsByRef !! e_seq entry))
       end.

(** Second pass: [list = byScope.get(scope) ?? []; list.push(op)]. *)
Definition push_scope (m : gmap string (list JournalOperation)) (op : JournalOperation)
    : gmap string (list JournalOperation) :=
  let scope := e_scope (op_running op) in
  <[scope := default [] (m !! scope) ++ [op]]> m.

Definition newJournalMatcher (entries : list JournalEntry)
    (disposition : JournalOperation → ReplayDisposition) : JournalMatcher :=
  let '(resolved, terminalsByRef) := foldl index_entry (∅, ∅) entries in
  let ops := omap (operation_of terminalsByRef) entries in
  mkMatcher (foldl push_scope ∅ ops) ops ∅ resolved disposition None [] 0 0 0 0.

Definition setDisposition (m : JournalMatcher) (d : JournalOperation → ReplayDisposition)
    : JournalMatcher :=
  mkMatcher (byScope m) (all m) (consumed m) (resolvedRefs m) d (aliasDisposition m) (aliases m)
    (hitsInternal m) (missesInternal m) (skippedInternal m) (rerunsInternal m).

Definition setAliasDisposition (m : JournalMatcher) (d : JournalOperation → ReplayDisposition)
    : JournalMatcher :=
  mkMatcher (byScope m) (all m) (consumed m) (resolvedRefs m) (disposition m) (Some d) (aliases m)
    (hitsInternal m) (missesInternal m) (skippedInternal m) (rerunsInternal m).

Definition registerAlias (m : JournalMatcher) (donorPrefix targetPrefix : string)
    : JournalMatcher :=
  if decide ((donorPrefix, targetPrefix) ∈ aliases m) then m
  else mkMatcher (byScope m) (all m) (consumed m) (resolvedRefs m) (disposition m)
         (aliasDisposition m) (aliases m ++ [(donorPrefix, targetPrefix)])
         (hitsInternal m) (missesInternal m) (skippedInternal m) (rerunsInternal m).

(** ** Candidates *)

Record Candidate := mkCandidate { c_op : JournalOperation; c_viaAlias : bool }.

Definition ops_of (m : JournalMatcher) (scope : string) : list JournalOperation :=
  default [] (byScope m !! scope).

Fixpoint str_drop (n : nat) (s : string) : string :=
  match n, s with
  | S n', String _ s' => str_drop n' s'
  | _, _ => s
  end.

(** The donor scope an alias maps [scope] to. *)
Definition donorScope (scope : string) (alias : string * string) : option string :=
  let '(donorPrefix, targetPrefix) := alias in
  if decide (scope = targetPrefix) then Some donorPrefix
  else if starts_with (targetPrefix +:+ "/") scope
  then Some (donorPrefix +:+ str_drop (String.length targetPrefix) scope)
  else None.

Definition aliased_ops (m : JournalMatcher) (scope : string) (alias : string * string)
    : list JournalOperation :=
  match donorScope scope alias with
  | None => []
  | Some donor => ops_of m donor
  end.

(** [sort((a, b) => a.op.running.seq - b.op.running.seq)], a stable sort. *)
Definition c_seq (c : Candidate) : N := e_seq (op_running (c_op c)).

Fixpoint insert_candidate (c : Candidate) (l : list Candidate) : list Candidate :=
  match l with
  | [] => [c]
  | x :: l' => if (c_seq c <=? c_seq x)%N then c :: l else x :: insert_candidate c l'
  end.

Definition sort_candidates (l : list Candidate) : list Candidate := foldr insert_candidate [] l.

Definition candidatesOf (m : JournalMatcher) (scope : string) : list Candidate :=
  let native := map (fun op => mkCandidate op false) (ops_of m scope) in
  let aliased := concat (map (fun alias =>
    map (fun op => mkCandidate op true) (aliased_ops m scope alias)) (aliases m)) in
  match aliased with
  | [] => native
  | _ => sort_candidates (native ++ aliased)
  end.

(** ** Matching *)

Section Match.
Context {ring : KeyRing}.

(** The loop test: not consumed, comparable, and of the same key. *)
Definition eligible (used : gset N) (identity : IdentityInput) (c : Candidate) : bool :=
  negb (bool_decide (c_seq c ∈ used)) &&
  match keyFor identity (e_hashVersion (op_running (c_op c))) with
  | None => false
  | Some key => bool_decide (key = e_key (op_running (c_op c)))
  end.

(** One of the four counters of the report. *)
Inductive Counter := CHit | CMiss | CSkip | CRerun.

Definition count (m : JournalMatcher) (c : Counter) : JournalMatcher :=
  mkMatcher (byScope m) (all m) (consumed m) (resolvedRefs m) (disposition m)
    (aliasDisposition m) (aliases m)
    (hitsInternal m + match c with CHit => 1 | _ => 0 end)
    (missesInternal m + match c with CMiss => 1 | _ => 0 end)
    (skippedInternal m + match c with CSkip => 1 | _ => 0 end)
    (rerunsInternal m + match c with CRerun => 1 | _ => 0 end).

Definition consume (m : JournalMatcher) (runningSeq : N) : JournalMatcher :=
  mkMatcher (byScope m) (all m) ({[runningSeq]} ∪ consumed m) (resolvedRefs m) (disposition m)
    (aliasDisposition m) (aliases m)
    (hitsInternal m) (missesInternal m) (skippedInternal m) (rerunsInternal m).

Definition dispositionOf (m : JournalMatcher) (viaAlias : bool)
    : JournalOperation → ReplayDisposition :=
  if viaAlias then default (disposition m) (aliasDisposition m) else disposition m.

(** What a matched operation becomes, and the counter it moves. *)
Definition outcome (dispositionOf : JournalOperation → ReplayDisposition) (op : JournalOperation)
    : MatchResult * Counter :=
  let running := op_running op in
  match op_terminal op with
  | None =>
      match e_status running with
      | StSuspended => (MSkip running None, CHit)
      | StRunning =>
          match dispositionOf (mkOp running None) with
          | DSkip => (MSkip running None, CSkip)
          | _ => (MRerunDangling running, CRerun)
          end
      | _ =>
          match dispositionOf (mkOp running (Some running)) with
          | DReplay => (MReplay running running, CHit)
          | DSkip => (MSkip running (Some running), CSkip)
          | DRerun => (MRerun running, CRerun)
          end
      end
  | Some terminal =>
      match dispositionOf op with
      | DReplay => (MReplay running terminal, CHit)
      | DSkip => (MSkip running (Some terminal), CSkip)
      | DRerun => (MRerun running, CRerun)
      end
  end.

Definition candidates (m : JournalMatcher) (scope : string) (mode : MatchMode)
    : list Candidate :=
  match mode with
  | Cache => map (fun op => mkCandidate op false) (all m)
  | _ => candidatesOf m scope
  end.

Definition match_call (m : JournalMatcher) (scope : string) (identity : IdentityInput)
    (mode : MatchMode) : MatchResult * JournalMatcher :=
  match mode with
  | Never => (MLive, count m CMiss)
  | _ =>
      match find_first (eligible (consumed m) identity) (candidates m scope mode) with
      | None => (MLive, count m CMiss)
      | Some c =>
          let '(res, counter) := outcome (dispositionOf m (c_viaAlias c)) (c_op c) in
          (res, count (consume m (c_seq c)) counter)
      end
  end.

(** Whether an operation needs recovery. *)
Definition is_orphan (m : JournalMatcher) (op : JournalOperation) : bool :=
  let running := op_running op in
  if bool_decide (e_seq running ∈ consumed m) || negb (bool_decide (op_terminal op = None))
  then false
  else match e_status running with
       | StRunning => true
       | StSuspended => negb (bool_decide (e_seq running ∈ resolvedRefs m))
       | _ => false
       end.

Definition report (m : JournalMatcher) : ResumeReport :=
  mkReport (hitsInternal m) (missesInternal m) (skippedInternal m) (rerunsInternal m)
    (map (fun op => e_seq (op_running op)) (List.filter (is_orphan m) (all m))).

(** A live call of the program, and a sequence of them. *)
Record Call := mkCall { call_scope : string; call_identity : IdentityInput; call_mode : MatchMode }.

Fixpoint run_calls (m : JournalMatcher) (calls : list Call) : list MatchResult * JournalMatcher :=
  match calls with
  | [] => ([], m)
  | c :: rest =>
      let '(res, m') := match_call m (call_scope c) (call_identity c) (call_mode c) in
      let '(results, m'') := run_calls m' rest in
      (res :: results, m'')
  end.
End Match.

(** ** One call *)

(** The dispatch entry a result hands to the live call. *)
Definition result_running (r : MatchResult) : option JournalEntry :=
  match r with
  | MReplay running _ | MSkip running _ | MRerunDangling running | MRerun running => Some running
  | MLive => None
  end.

Definition result_seq (r : MatchResult) : option N := e_seq <$> result_running r.

Lemma outcome_running d op : result_running (outcome d op).1 = Some (op_running op).
Proof. unfold outcome. repeat case_match; done. Qed.

Section Theorems.
Context {ring : KeyRing}.
Implicit Types (m : JournalMatcher) (calls : list Call).

(** The two ways a call goes: live, moving the miss counter only, or served by
    the first eligible candidate, which it consumes. *)
Lemma match_call_cases m scope identity mode :
  match_call m scope identity mode = (MLive, count m CMiss) ∨
  ∃ c, find_first (eligible (consumed m) identity) (candidates m scope mode) = Some c ∧
    mode ≠ Never ∧
    match_call m scope identity mode =
      ((outcome (dispositionOf m (c_viaAlias c)) (c_op c)).1,
       count (consume m (c_seq c)) (outcome (dispositionOf m (c_viaAlias c)) (c_op c)).2).
Proof.
  unfold match_call. destruct mode; [| |by left].
  all: destruct (find_first _ _) as [c|] eqn:E; [right|by left].
  all: exists c; split_and!; [done..|].
  all: by destruct (outcome _ _).
Qed.

Lemma eligible_spec used identity c :
  eligible used identity c = true ↔
  c_seq c ∉ used ∧
  keyFor identity (e_hashVersion (op_running (c_op c))) = Some (e_key (op_running (c_op c))).
Proof.
  unfold eligible. rewrite andb_true_iff, negb_true_iff, bool_decide_eq_false.
  destruct (keyFor _ _) as [k|]; [rewrite bool_decide_eq_true|]; naive_solver.
Qed.

Lemma match_call_consumes m scope identity mode r m' :
  match_call m scope identity mode = (r, m') →
  match result_seq r with
  | None => m' = count m CMiss
  | Some s => s ∉ consumed m ∧ consumed m' = {[s]} ∪ consumed m
  end.
Proof.
  destruct (match_call_cases m scope identity mode) as [->|(c & Hf & _ & ->)];
    intros [= <- <-]; [done|].
  unfold result_seq. rewrite outcome_running. cbn.
  apply find_first_Some in Hf as [_ [Hnc _]%eligible_spec]. done.
Qed.

(** ** Sequences of calls *)

Lemma run_calls_cons m c rest :
  run_calls m (c :: rest) =
    let '(res, m') := match_call m (call_scope c) (call_identity c) (call_mode c) in
    let '(results, m'') := run_calls m' rest in (res :: results, m'').
Proof. done. Qed.

Lemma run_calls_app m a b :
  run_calls m (a ++ b) =
    let '(ra, m1) := run_calls m a in
    let '(rb, m2) := run_calls m1 b in (ra ++ rb, m2).
Proof.
  revert m. induction a as [|c a IH]; intros m; cbn; [by destruct (run_calls m b)|].
  destruct (match_call m _ _ _) as [r m']. rewrite IH.
  destruct (run_calls m' a) as [ra m1]. by destruct (run_calls m1 b).
Qed.

Lemma run_calls_consumed m calls rs m' :
  run_calls m calls = (rs, m') →
  NoDup (omap result_seq rs) ∧
  (∀ s, s ∈ consumed m' ↔ s ∈ consumed m ∨ s ∈ omap result_seq rs) ∧
  (∀ s, s ∈ omap result_seq rs → s ∉ consumed m).
Proof.
  revert m rs. induction calls as [|c calls IH]; intros m rs; cbn.
  { intros [= <- <-]. split_and!; [constructor | set_solver | set_solver]. }
  destruct (match_call m _ _ _) as [r m1] eqn:Hm. destruct (run_calls m1 calls) as [rs1 m2] eqn:Hr.
  intros [= <- <-]. apply match_call_consumes in Hm. apply IH in Hr as (Hnd & Hc & Hfresh).
  cbn. destruct (result_seq r) as [s|]; cbn.
  - destruct Hm as [Hs Hm1]. rewrite Hm1 in Hc, Hfresh. split_and!; [|set_solver..].
    constructor; [|done]. intros Hin. specialize (Hfresh s Hin). set_solver.
  - subst m1. cbn in *. split_and!; [done|set_solver..].
Qed.

(** What a miss leaves alone: everything but the miss counter. *)
Definition same_but_misses m1 m2 : Prop :=
  byScope m1 = byScope m2 ∧ all m1 = all m2 ∧ consumed m1 = consumed m2 ∧
  resolvedRefs m1 = resolvedRefs m2 ∧ disposition m1 = disposition m2 ∧
  aliasDisposition m1 = aliasDisposition m2 ∧ aliases m1 = aliases m2 ∧
  hitsInternal m1 = hitsInternal m2 ∧ skippedInternal m1 = skippedInternal m2 ∧
  rerunsInternal m1 = rerunsInternal m2.

Lemma same_but_misses_candidates m1 m2 scope mode :
  same_but_misses m1 m2 → candidates m1 scope mode = candidates m2 scope mode.
Proof.
  intros (Hb & Ha & _ & _ & _ & _ & Hal & _). destruct mode; cbn.
  2: by rewrite Ha.
  all: unfold candidatesOf, aliased_ops, ops_of; by rewrite Hb, Hal.
Qed.

Lemma match_call_same m1 m2 scope identity mode (k : N) :
  same_but_misses m1 m2 → missesInternal m1 = (missesInternal m2 + k)%N →
  let '(r1, m1') := match_call m1 scope identity mode in
  let '(r2, m2') := match_call m2 scope identity mode in
  r1 = r2 ∧ same_but_misses m1' m2' ∧ missesInternal m1' = (missesInternal m2' + k)%N.
Proof.
  intros Hs Hk. pose proof (same_but_misses_candidates m1 m2 scope mode Hs) as Hc.
  destruct Hs as (? & ? & Hcons & ? & Hd & Had & ? & ? & ? & ?).
  assert (∀ b, dispositionOf m1 b = dispositionOf m2 b) as Hdo
    by (intros []; cbn; by rewrite ?Hd, ?Had).
  unfold match_call. rewrite Hc, Hcons.
  assert (same_but_misses (count m1 CMiss) (count m2 CMiss)) by (repeat split; cbn; congruence).
  destruct mode; [| |cbn; split; [done|]; split; [done|lia]].
  all: destruct (find_first _ _) as [c|]; [|cbn; split; [done|]; split; [done|lia]].
  all: rewrite Hdo; destruct (outcome _ _) as [r k']; split; [done|].
  all: split; [repeat split; cbn; congruence | destruct k'; cbn; lia].
Qed.

Lemma run_calls_same m1 m2 calls (k : N) :
  same_but_misses m1 m2 → missesInternal m1 = (missesInternal m2 + k)%N →
  let '(r1, m1') := run_calls m1 calls in
  let '(r2, m2') := run_calls m2 calls in
  r1 = r2 ∧ same_but_misses m1' m2' ∧ missesInternal m1' = (missesInternal m2' + k)%N.
Proof.
  revert m1 m2. induction calls as [|c calls IH]; intros m1 m2 Hs Hk; cbn; [done|].
  pose proof (match_call_same m1 m2 (call_scope c) (call_identity c) (call_mode c) k Hs Hk) as Hm.
  destruct (match_call m1 _ _ _) as [r1 m1'], (match_call m2 _ _ _) as [r2 m2'].
  destruct Hm as (-> & Hs' & Hk'). specialize (IH m1' m2' Hs' Hk').
  destruct (run_calls m1' calls) as [ra ma], (run_calls m2' calls) as [rb mb].
  destruct IH as (-> & ? & ?). done.
Qed.

(** Consumption is per operation.  Over any sequence of live calls, in any
    mode, no journaled operation is handed out twice, and none that was already
    consumed is handed out at all. *)
Theorem match_never_reuses m calls :
  let rs := (run_calls m calls).1 in
  NoDup (omap result_seq rs) ∧ ∀ s, s ∈ omap result_seq rs → s ∉ consumed m.
Proof.
  destruct (run_calls m calls) as [rs m'] eqn:E.
  by destruct (run_calls_consumed _ _ _ _ E) as (? & _ & ?).
Qed.

(** Insertion stability.  A call that finds nothing costs exactly itself:
    every call before and after it gets the result it would have got without
    it, and the matcher ends in the same state but for one more miss. *)
Theorem match_insertion_stable m (before : list Call) (c : Call) (after : list Call) :
  let m1 := (run_calls m before).2 in
  (match_call m1 (call_scope c) (call_identity c) (call_mode c)).1 = MLive →
  let '(rs, m2) := run_calls m (before ++ c :: after) in
  let '(rs', m2') := run_calls m (before ++ after) in
  (∃ ra rb, rs = ra ++ MLive :: rb ∧ rs' = ra ++ rb ∧ length ra = length (run_calls m before).1) ∧
  same_but_misses m2 m2' ∧ missesInternal m2 = (missesInternal m2' + 1)%N.
Proof.
  rewrite !run_calls_app. destruct (run_calls m before) as [ra m1]. cbn.
  destruct (match_call m1 _ _ _) as [r m1'] eqn:Hm. cbn. intros ->.
  apply match_call_consumes in Hm. cbn in Hm. subst m1'.
  pose proof (run_calls_same (count m1 CMiss) m1 after 1) as Hrun.
  destruct (run_calls (count m1 CMiss) after) as [rb m2], (run_calls m1 after) as [rb' m2'].
  destruct Hrun as (-> & Hs & Hk); [repeat split; cbn; lia | cbn; lia |].
  split_and!; [by exists ra, rb'|done..].
Qed.

(** ** Replay of a complete journal *)

Definition op_seq (op : JournalOperation) : N := e_seq (op_running op).
Definition op_scope (op : JournalOperation) : string := e_scope (op_running op).

(** The scope table and the list of operations agree. *)
Definition scoped_by m : Prop :=
  ∀ scope, ops_of m scope = filter (fun op => op_scope op = scope) (all m).

Lemma push_scope_foldl ops t scope :
  default [] (foldl push_scope t ops !! scope)
  = default [] (t !! scope) ++ filter (fun op => op_scope op = scope) ops.
Proof.
  revert t. induction ops as [|op ops IH]; intros t; [by rewrite app_nil_r|].
  cbn [foldl]. rewrite IH, filter_cons. unfold push_scope. fold (op_scope op).
  destruct (decide (op_scope op = scope)) as [->|Hne].
  - rewrite lookup_insert_eq. unfold default at 1, id. by rewrite <- app_assoc.
  - by rewrite lookup_insert_ne by done.
Qed.

Lemma newJournalMatcher_scoped entries d : scoped_by (newJournalMatcher entries d).
Proof.
  intros scope. unfold newJournalMatcher, ops_of.
  destruct (foldl index_entry _ _) as [resolved terminals]. cbn. by rewrite push_scope_foldl.
Qed.

(** The key of the live call [identity] is the stored key of [op]. *)
Definition key_matches (identity : IdentityInput) (op : JournalOperation) : Prop :=
  keyFor identity (e_hashVersion (op_running op)) = Some (e_key (op_running op)).

Lemma find_first_skip {A} (p : A → bool) l1 x l2 :
  (∀ y, y ∈ l1 → p y = false) → p x = true → find_first p (l1 ++ x :: l2) = Some x.
Proof.
  intros Hl Hx. rewrite find_first_app, (proj2 (find_first_None p l1) Hl). cbn. by rewrite Hx.
Qed.

Section Complete.
Variable m : JournalMatcher.
Variable ident : JournalOperation → IdentityInput.
Hypothesis m_scoped : scoped_by m.
Hypothesis m_aliases : aliases m = [].
Hypothesis m_unique : NoDup (map op_seq (all m)).
Hypothesis m_fresh : ∀ op, op ∈ all m → op_seq op ∉ consumed m.
Hypothesis ident_key : ∀ op, op ∈ all m → key_matches (ident op) op.

Definition call_of (op : JournalOperation) : Call := mkCall (op_scope op) (ident op) Scoped.

(** The program reaches the calls of one scope that share a key in journal
    order; everything else may be reordered. *)
Definition order_respected (p : list JournalOperation) : Prop :=
  ∀ p1 op p2, p = p1 ++ op :: p2 → ∀ l1 l2, all m = l1 ++ op :: l2 →
  ∀ other, other ∈ l1 → op_scope other = op_scope op → key_matches (ident op) other → other ∈ p1.

(** The state after the calls of [p1] were served. *)
Definition served (p1 : list JournalOperation) (m' : JournalMatcher) : Prop :=
  byScope m' = byScope m ∧ all m' = all m ∧ aliases m' = aliases m ∧
  disposition m' = disposition m ∧ missesInternal m' = missesInternal m ∧
  ∀ s, s ∈ consumed m' ↔ s ∈ consumed m ∨ s ∈ map op_seq p1.

Lemma candidates_native m' scope :
  byScope m' = byScope m → aliases m' = aliases m →
  candidatesOf m' scope =
    map (fun op => mkCandidate op false) (filter (fun op => op_scope op = scope) (all m)).
Proof.
  intros Hb Ha. unfold candidatesOf. rewrite Ha, m_aliases. cbn.
  unfold ops_of. rewrite Hb. fold (ops_of m scope). by rewrite m_scoped.
Qed.

Lemma serve_next p1 op p2 m' :
  p1 ++ op :: p2 ≡ₚ all m → order_respected (p1 ++ op :: p2) → served p1 m' →
  let '(r, k) := outcome (disposition m) op in
  match_call m' (op_scope op) (ident op) Scoped = (r, count (consume m' (op_seq op)) k).
Proof.
  intros Hperm Hord (Hb & Hall & Hal & Hd & _ & Hcons).
  assert (op ∈ all m) as Hin by (rewrite <- Hperm; set_solver).
  assert (NoDup (map op_seq (p1 ++ op :: p2))) as Hnd by (by rewrite Hperm).
  destruct (list_elem_of_split _ _ Hin) as (l1 & l2 & Hsplit).
  unfold match_call, candidates. rewrite candidates_native by done.
  rewrite Hsplit, filter_app, filter_cons, decide_True by done. rewrite map_app. cbn [map].
  rewrite find_first_skip.
  - cbn [c_viaAlias c_op dispositionOf]. rewrite Hd. by destruct (outcome _ _).
  - intros c. rewrite list_elem_of_fmap. intros (other & -> & [Hsc Ho]%list_elem_of_filter).
    apply not_true_iff_false. rewrite eligible_spec. cbn. intros [Hnc Hk]. apply Hnc, Hcons. right.
    apply list_elem_of_fmap. exists other. split; [done|]. by eapply Hord.
  - apply eligible_spec. cbn. split; [|by apply ident_key].
    rewrite Hcons. intros [?|Hp1]; [by apply (m_fresh op)|].
    rewrite map_app in Hnd. apply NoDup_app in Hnd as (_ & Hdis & _).
    apply (Hdis _ Hp1). cbn. left.
Qed.

(** A sound disposition never skips here: the journal is complete and the
    fold replays each of its operations. *)
Definition replays_all : Prop :=
  ∀ op, op ∈ all m → ∃ terminal, (outcome (disposition m) op) = (MReplay (op_running op) terminal, CHit).

Lemma serve_all p1 p2 m' :
  replays_all → p1 ++ p2 ≡ₚ all m → order_respected (p1 ++ p2) → served p1 m' →
  let '(rs, m'') := run_calls m' (map call_of p2) in
  rs = map (fun op => (outcome (disposition m) op).1) p2 ∧ served (p1 ++ p2) m''.
Proof.
  intros Hrep. revert p1 m'. induction p2 as [|op p2 IH]; intros p1 m' Hperm Hord Hs.
  { cbn. by rewrite app_nil_r. }
  pose proof (serve_next p1 op p2 m' Hperm Hord Hs) as Hm.
  assert (op ∈ all m) as Hin by (rewrite <- Hperm; set_solver).
  destruct (Hrep op Hin) as [t Ht]. rewrite Ht in *.
  change (map call_of (op :: p2)) with (call_of op :: map call_of p2). rewrite run_calls_cons.
  unfold call_of at 1 2 3. cbn [call_scope call_identity call_mode]. rewrite Hm.
  cbn [map]. rewrite Ht. cbn [fst].
  assert ((p1 ++ [op]) ++ p2 = p1 ++ op :: p2) as Happ by by rewrite <- app_assoc.
  specialize (IH (p1 ++ [op]) (count (consume m' (op_seq op)) CHit)).
  rewrite Happ in IH. specialize (IH Hperm Hord).
  destruct (run_calls _ (map call_of p2)) as [rs m''].
  destruct IH as [-> ?]; [|done].
  destruct Hs as (? & ? & ? & ? & ? & Hc). repeat split; cbn; try done; [lia| |].
  - rewrite elem_of_union, elem_of_singleton, Hc, map_app. set_solver.
  - rewrite elem_of_union, elem_of_singleton, Hc, map_app. set_solver.
Qed.
End Complete.

(** C9: a resume of a complete journal pays nothing.  When every journaled
    operation replays, a program that issues one call per operation, in any
    order that keeps same-scope calls of one key in journal order, gets each
    operation's own terminal; no call goes live, the miss counter does not
    move, and the orphan report is empty. *)
Theorem complete_journal_replays m (ident : JournalOperation → IdentityInput)
    (p : list JournalOperation) :
  scoped_by m → aliases m = [] → NoDup (map op_seq (all m)) → consumed m = ∅ →
  (∀ op, op ∈ all m → key_matches (ident op) op) →
  replays_all m → p ≡ₚ all m → order_respected m ident p →
  let '(rs, m') := run_calls m (map (call_of ident) p) in
  rs = map (fun op => (outcome (disposition m) op).1) p ∧
  Forall2 (fun op r => ∃ terminal, r = MReplay (op_running op) terminal) p rs ∧
  missesInternal m' = missesInternal m ∧ rep_orphaned (report m') = [].
Proof.
  intros Hsc Hal Hnd Hc Hk Hrep Hp Hord.
  pose proof (serve_all m ident Hsc Hal Hnd (fun op _ => ltac:(rewrite Hc; set_solver)) Hk
                [] p m Hrep Hp Hord) as Hrun.
  destruct (run_calls m (map (call_of ident) p)) as [rs m'].
  destruct Hrun as [-> (_ & Hall & _ & _ & Hm & Hcons)]; [repeat split; set_solver|].
  split_and!; [done| |done|].
  - apply Forall2_fmap_r, Forall_Forall2_diag, Forall_forall. intros op Hop.
    destruct (Hrep op) as [t Ht]; [by rewrite <- Hp|]. exists t. by rewrite Ht.
  - cbn. rewrite Hall.
    rewrite filter_none; [done|]. intros op Hop. unfold is_orphan.
    rewrite bool_decide_eq_true_2; [done|]. apply Hcons. right. cbn.
    apply list_elem_of_fmap. exists op. by rewrite Hp.
Qed.

(** ** The report *)

Definition counted m : N :=
  hitsInternal m + missesInternal m + skippedInternal m + rerunsInternal m.

Lemma match_call_frame m scope identity mode :
  let '(_, m') := match_call m scope identity mode in
  all m' = all m ∧ resolvedRefs m' = resolvedRefs m ∧ counted m' = (counted m + 1)%N.
Proof.
  unfold counted.
  destruct (match_call_cases m scope identity mode) as [->|(c & _ & _ & ->)];
    [cbn; repeat split; lia|].
  destruct (outcome _ _) as [r []]; cbn; repeat split; lia.
Qed.

Lemma run_calls_frame m calls :
  let '(_, m') := run_calls m calls in
  all m' = all m ∧ resolvedRefs m' = resolvedRefs m ∧
  counted m' = (counted m + N.of_nat (length calls))%N.
Proof.
  revert m. induction calls as [|c calls IH]; intros m; [cbn; repeat split; lia|].
  rewrite run_calls_cons.
  pose proof (match_call_frame m (call_scope c) (call_identity c) (call_mode c)) as Hm.
  destruct (match_call m _ _ _) as [r m1]. specialize (IH m1).
  destruct (run_calls m1 calls) as [rs m2]. destruct Hm as (? & ? & ?), IH as (? & ? & ?).
  cbn [length]. repeat split; [congruence..|lia].
Qed.

Lemma is_orphan_consumed m m' op :
  resolvedRefs m' = resolvedRefs m →
  (∀ s, s ∈ consumed m → s ∈ consumed m') →
  is_orphan m' op = is_orphan m op && negb (bool_decide (op_seq op ∈ consumed m')).
Proof.
  intros Hr Hc. unfold is_orphan. fold (op_seq op). rewrite Hr.
  destruct (decide (op_seq op ∈ consumed m')) as [Hin|Hin].
  - rewrite (bool_decide_eq_true_2 (op_seq op ∈ consumed m')) by done. cbn. by rewrite andb_false_r.
  - assert (op_seq op ∉ consumed m) by (intros ?; apply Hin; auto).
    rewrite (bool_decide_eq_false_2 (op_seq op ∈ consumed m')) by done.
    rewrite (bool_decide_eq_false_2 (op_seq op ∈ consumed m)) by done.
    cbn [negb orb]. by rewrite andb_true_r.
Qed.

(** The report accounts for every call once, and a call that is handed an
    operation takes it off the orphan list: what is left are the orphans that
    no call claimed. *)
Theorem report_accounts m calls :
  let '(rs, m') := run_calls m calls in
  counted m' = (counted m + N.of_nat (length calls))%N ∧
  rep_orphaned (report m') =
    filter (fun s => s ∉ omap result_seq rs) (rep_orphaned (report m)).
Proof.
  pose proof (run_calls_frame m calls) as Hf.
  destruct (run_calls m calls) as [rs m'] eqn:E.
  destruct Hf as (Hall & Hr & Hcount). split; [done|].
  destruct (run_calls_consumed _ _ _ _ E) as (_ & Hcons & _).
  cbn. rewrite Hall. clear Hall Hcount E. induction (all m) as [|op l IH]; [done|]. cbn [List.filter].
  rewrite (is_orphan_consumed m m' op) by (try done; intros; apply Hcons; by left).
  destruct (is_orphan m op) eqn:Ho; cbn [andb]; [|exact IH].
  assert (op_seq op ∉ consumed m) as Hnc.
  { unfold is_orphan in Ho. fold (op_seq op) in Ho.
    destruct (decide (op_seq op ∈ consumed m)); [|done].
    by rewrite bool_decide_eq_true_2 in Ho. }
  cbn [map]. fold (op_seq op). rewrite filter_cons.
  destruct (decide (op_seq op ∉ omap result_seq rs)) as [Hn|Hn].
  - rewrite bool_decide_eq_false_2 by (rewrite Hcons; naive_solver). cbn [negb map]. by rewrite IH.
  - apply dec_stable in Hn. rewrite bool_decide_eq_true_2 by (rewrite Hcons; by right). exact IH.
Qed.
(** ** Candidates in journal order *)

Definition by_seq (a b : Candidate) : Prop := (c_seq a <= c_seq b)%N.

Lemma insert_candidate_perm c l : insert_candidate c l ≡ₚ c :: l.
Proof.
  induction l as [|x l IH]; cbn; [done|]. case_match; [done|]. rewrite IH. constructor.
Qed.

Lemma sort_candidates_perm l : sort_candidates l ≡ₚ l.
Proof. induction l as [|c l IH]; cbn; [done|]. by rewrite insert_candidate_perm, IH. Qed.

Lemma insert_candidate_sorted c l : StronglySorted by_seq l → StronglySorted by_seq (insert_candidate c l).
Proof.
  induction 1 as [|x l Hl IH Hx]; cbn; [by repeat constructor|].
  case_match eqn:E.
  - apply N.leb_le in E. constructor; [by constructor|]. constructor; [done|].
    eapply Forall_impl; [exact Hx|]. unfold by_seq. lia.
  - apply N.leb_gt in E. constructor; [done|]. rewrite insert_candidate_perm.
    constructor; [unfold by_seq; lia|done].
Qed.

Lemma sort_candidates_sorted l : StronglySorted by_seq (sort_candidates l).
Proof. induction l; cbn; [constructor|by apply insert_candidate_sorted]. Qed.

Lemma native_sorted m scope :
  StronglySorted (fun a b => op_seq a <= op_seq b)%N (all m) → scoped_by m →
  StronglySorted by_seq (map (fun op => mkCandidate op false) (ops_of m scope)).
Proof.
  intros Hs ->. induction Hs as [|op l Hl IH Hop]; [constructor|].
  rewrite filter_cons. case_decide; [|done]. cbn. constructor; [done|].
  apply Forall_fmap, Forall_forall. intros o [_ Ho]%list_elem_of_filter.
  by apply (proj1 (Forall_forall _ _) Hop).
Qed.

(** The candidates of a call are its scope's own operations and the
    operations an alias maps into the scope, in journal order whatever the
    order the aliases were registered in. *)
Theorem candidates_journal_order m scope :
  scoped_by m → StronglySorted (fun a b => op_seq a <= op_seq b)%N (all m) →
  StronglySorted by_seq (candidatesOf m scope) ∧
  ∀ op viaAlias, mkCandidate op viaAlias ∈ candidatesOf m scope ↔
    op ∈ all m ∧
    if viaAlias then ∃ alias, alias ∈ aliases m ∧ donorScope scope alias = Some (op_scope op)
    else op_scope op = scope.
Proof.
  intros Hsc Hs. set (aliased := concat (map (fun alias =>
    map (fun op => mkCandidate op true) (aliased_ops m scope alias)) (aliases m))).
  assert (candidatesOf m scope ≡ₚ map (fun op => mkCandidate op false) (ops_of m scope) ++ aliased) as Hp.
  { unfold candidatesOf. fold aliased. destruct aliased; [by rewrite app_nil_r|].
    apply sort_candidates_perm. }
  split.
  { unfold candidatesOf. fold aliased.
    destruct aliased; [by apply native_sorted | apply sort_candidates_sorted]. }
  assert (∀ op alias, op ∈ aliased_ops m scope alias ↔
    op ∈ all m ∧ donorScope scope alias = Some (op_scope op)) as Hali.
  { intros op alias. unfold aliased_ops. destruct (donorScope scope alias); [|set_solver].
    rewrite Hsc, list_elem_of_filter. naive_solver. }
  intros op via. rewrite Hp, elem_of_app, list_elem_of_fmap. unfold aliased.
  rewrite list_elem_of_In, in_concat. setoid_rewrite <- list_elem_of_In.
  setoid_rewrite list_elem_of_fmap. rewrite Hsc. setoid_rewrite list_elem_of_filter. split.
  - intros [(o & [= -> ->] & ? & ?) | (x & (alias & -> & ?) & (o & [= -> ->] & Ho)%list_elem_of_fmap)];
      [done|]. apply Hali in Ho as [? ?]. eauto.
  - destruct via; [|naive_solver]. intros (Hop & alias & Hin & Hd). right.
    eexists. split; [by exists alias|]. apply list_elem_of_fmap. exists op. by rewrite Hali.
Qed.
End Theorems.

(** ** A complete journal of three operations, two of them concurrent *)

Definition key_ring_example : KeyRing := fun identity _ =>
  match identity with StepIdentity key _ => Some key | _ => None end.

Definition complete_journal : list JournalEntry :=
  [base_entry 0 "" "a" KAgent StRunning;
   base_entry 1 "" "b" KAgent StRunning;
   with_ref (base_entry 2 "" "b" KAgent StOk) 1;
   with_ref (base_entry 3 "" "a" KAgent StOk) 0;
   base_entry 4 "agent:0" "a" KRand StOk].

Definition complete_matcher : JournalMatcher :=
  newJournalMatcher complete_journal roundOneDisposition.

Definition step_ident (op : JournalOperation) : IdentityInput :=
  StepIdentity (e_key (op_running op)) [].

(** The order of a second run: the scopes and the keys are interleaved otherwise. *)
Definition second_run : list JournalOperation :=
  match all complete_matcher with
  | op :: ops => ops ++ [op]
  | [] => []
  end.

Definition live_call : Call := mkCall "" (StepIdentity "new" []) Scoped.

Lemma match_never_reuses_witness :
  NoDup (omap result_seq
    (run_calls (ring := key_ring_example) complete_matcher
       (map (call_of step_ident) (second_run ++ second_run))).1) ∧
  (run_calls (ring := key_ring_example) complete_matcher
     (map (call_of step_ident) (second_run ++ second_run))).2.(hitsInternal) = 3%N.
Proof.
  split; [|reflexivity].
  exact (proj1 (match_never_reuses (ring := key_ring_example) complete_matcher
    (map (call_of step_ident) (second_run ++ second_run)))).
Defined.

Lemma match_insertion_stable_witness :
  let '(rs, m2) := run_calls (ring := key_ring_example) complete_matcher
                     (map (call_of step_ident) second_run ++ live_call :: []) in
  let '(rs', m2') := run_calls (ring := key_ring_example) complete_matcher
                     (map (call_of step_ident) second_run ++ []) in
  missesInternal m2 = (missesInternal m2' + 1)%N.
Proof.
  pose proof (match_insertion_stable (ring := key_ring_example) complete_matcher
    (map (call_of step_ident) second_run) live_call [] ltac:(reflexivity)) as H.
  destruct (run_calls _ _) as [rs m2], (run_calls _ _) as [rs' m2']. exact (proj2 (proj2 H)).
Defined.

Lemma second_run_order :
  order_respected (ring := key_ring_example) complete_matcher step_ident second_run.
Proof.
  (* the operations that share a scope have different keys *)
  assert (∀ op other, op ∈ all complete_matcher → other ∈ all complete_matcher →
    op_scope other = op_scope op → key_matches (ring := key_ring_example) (step_ident op) other →
    op_seq other = op_seq op) as Hkeys.
  { intros op other Hop Hother.
    repeat (apply elem_of_cons in Hop as [->|Hop]); [..|by apply not_elem_of_nil in Hop];
      repeat (apply elem_of_cons in Hother as [->|Hother]);
      [..|by apply not_elem_of_nil in Hother | | | |by apply not_elem_of_nil in Hother
       | | | |by apply not_elem_of_nil in Hother]; try done. }
  intros p1 op p2 _ l1 l2 Hl other Ho Hsc Hk. exfalso.
  assert (NoDup (map op_seq (all complete_matcher))) as Hnd
    by (apply (bool_decide_eq_true_1 _); reflexivity).
  specialize (Hkeys op other). rewrite Hl in Hnd, Hkeys.
  rewrite map_app in Hnd. apply NoDup_app in Hnd as (_ & Hdis & _).
  apply (Hdis (op_seq other)); [by apply list_elem_of_fmap_2|].
  rewrite Hkeys by (set_solver || done). by left.
Qed.

Lemma complete_journal_replays_witness :
  let '(rs, m') := run_calls (ring := key_ring_example) complete_matcher
                     (map (call_of step_ident) second_run) in
  map result_seq rs = [Some 1%N; Some 4%N; Some 0%N] ∧ missesInternal m' = 0%N.
Proof.
  pose proof (complete_journal_replays (ring := key_ring_example) complete_matcher step_ident
    second_run) as H.
  destruct (run_calls _ _) as [rs m'] eqn:E.
  destruct H as (-> & _ & Hm & _); [..|by split].
  - apply newJournalMatcher_scoped.
  - done.
  - apply (bool_decide_eq_true_1 _). reflexivity.
  - done.
  - by repeat (intros op [->|H]%elem_of_cons; [done|]; revert op H).
  - intros op. repeat (intros [->|H]%elem_of_cons; [by eexists|]; revert H). by intros ?%not_elem_of_nil.
  - unfold second_run. destruct (all complete_matcher); [done|]. symmetry. apply Permutation_cons_append.
  - exact second_run_order.
Defined.

Lemma candidates_journal_order_witness :
  StronglySorted by_seq
    (candidatesOf (registerAlias complete_matcher "agent:0" "plan") "plan") ∧
  map c_seq (candidatesOf (registerAlias complete_matcher "agent:0" "plan") "plan") = [4%N].
Proof.
  split; [|reflexivity].
  apply (candidates_journal_order (registerAlias complete_matcher "agent:0" "plan") "plan").
  - intros scope. exact (newJournalMatcher_scoped complete_journal roundOneDisposition scope).
  - by repeat constructor.
Defined.
