(* ===== verification/Resolution.v ===== *)
(** * Suspensions and the first-closing-wins fold
    (packages/core/src/journal/resolution.ts)

    [ResolutionFold]: which suspended entries are open, resolved or abandoned,
    folded over the resolution and abandon entries of a journal, at load and
    for each entry appended live.  The JSON Schema validator is vendored code
    and enters as a parameter. *)
From S2P Require Import Prelude Json JsMap Entries Scope Identity Disposition.

(** ** Data *)

Inductive ClosedKind := ClosedResolution | ClosedAbandon.

#[global] Instance ClosedKind_eq_dec : EqDecision ClosedKind.
Proof. solve_decision. Defined.

Record TargetState := mkTarget {
  t_entry : JournalEntry;
  closedBy : option N;
  closedKind : option ClosedKind;
  t_value : option json;
}.

Inductive NoopReason := AlreadyResolved | TargetAbandoned.

(** Fold classification of one ref-entry. *)
Inductive RefEntryClassification :=
  | Applied
  | Noop (supersededBy : N) (reason : NoopReason)
  | Invalid (detail : string).

Inductive SuspensionState :=
  | Suspended (deadlineAt : option string)
  | Resolved (by_ : N) (value : json)
  | Abandoned (by_ : N).

Record ResolutionFold := mkFold {
  targets : jsmap N TargetState;
  rf_bySeq : gmap N JournalEntry;
  classifications : jsmap N RefEntryClassification;
  rf_coverage : Coverage;
}.

Definition empty_fold : ResolutionFold := mkFold jm_empty ∅ jm_empty no_coverage.

Definition set_targets (f : ResolutionFold) (t : jsmap N TargetState) : ResolutionFold :=
  mkFold t (rf_bySeq f) (classifications f) (rf_coverage f).

Definition set_coverage (f : ResolutionFold) (c : Coverage) : ResolutionFold :=
  mkFold (targets f) (rf_bySeq f) (classifications f) c.

Definition classify (f : ResolutionFold) (seq : N) (c : RefEntryClassification) : ResolutionFold :=
  mkFold (targets f) (rf_bySeq f) (jm_set (classifications f) seq c) (rf_coverage f).

Definition isCoveredEntry (f : ResolutionFold) (entry : JournalEntry) : bool :=
  isCovered (rf_coverage f) entry.

Section Fold.
(** [new Validator(schema, "2020-12", false).validate(value)]: whether the
    value is valid, and the text of the first error, if any. *)
Variable validate : json → json → bool * option string.

(** The target of a ref-entry under rule O2: it names an earlier entry. *)
Definition o2_target (f : ResolutionFold) (entry : JournalEntry) : result FoldError JournalEntry :=
  match e_ref entry with
  | None => Err (OrderForward (e_seq entry))
  | Some ref =>
      if (e_seq entry <=? ref)%N then Err (OrderForward (e_seq entry))
      else match rf_bySeq f !! ref with
           | None => Err (OrderMissing (e_seq entry) ref)
           | Some target => Ok target
           end
  end.

(** The schema pinned inside the suspended entry. *)
Definition pinned_schema (entry : JournalEntry) : option json :=
  opt_prop (asRecord (e_value entry)) "schema".

Definition resolution_detail (entry : JournalEntry) (value : json) : option string :=
  match pinned_schema entry with
  | None => None
  | Some schema =>
      let '(valid, first) := validate schema value in
      if valid : bool then None
      else Some (default "resolution value does not validate" first)
  end.

(** A fold step: the state it leaves and what it returns or throws. *)
Definition Step : Type := ResolutionFold * result FoldError RefEntryClassification.

Definition applyResolution (f : ResolutionFold) (entry : JournalEntry) : Step :=
  match o2_target f entry with
  | Err e => (f, Err e)
  | Ok target =>
      let ref := default 0%N (e_ref entry) in
      match jm_get (targets f) ref with
      | None => (f, Ok (Invalid "target is not a suspended entry"))
      | Some state =>
          if isCoveredEntry f (t_entry state) then
            (f, Ok (Noop (default (e_seq entry) (closedBy state)) TargetAbandoned))
          else
            match closedBy state with
            | Some closer =>
                (f, Ok (Noop closer
                          (if decide (closedKind state = Some ClosedAbandon)
                           then TargetAbandoned else AlreadyResolved)))
            | None =>
                match e_resolution entry with
                | None => (f, Ok (Invalid "missing resolution payload"))
                | Some payload =>
                    match resolution_detail (t_entry state) (r_value payload) with
                    | Some detail => (f, Ok (Invalid detail))
                    | None =>
                        (set_targets f (jm_set (targets f) ref
                           (mkTarget (t_entry state) (Some (e_seq entry)) (Some ClosedResolution)
                              (Some (r_value payload)))),
                         Ok Applied)
                    end
                end
            end
      end
  end.

(** A covering abandon closes the open suspended entries under it. *)
Definition close_if_covered (c : Coverage) (seq : N) (state : TargetState) : TargetState :=
  if bool_decide (closedBy state = None) && isCovered c (t_entry state)
  then mkTarget (t_entry state) (Some seq) (Some ClosedAbandon) (t_value state)
  else state.

Definition applyAbandon (f : ResolutionFold) (entry : JournalEntry) : Step :=
  match o2_target f entry with
  | Err e => (f, Err e)
  | Ok target =>
      if isCoveredEntry f target then (f, Ok (Noop (e_seq entry) TargetAbandoned))
      else
        match jm_get (targets f) (e_seq target) ≫= closedBy with
        | Some closer => (f, Ok (Noop closer AlreadyResolved))
        | None =>
            match cover (rf_coverage f) target with
            | Err e =>
                (* the sequence number was added before the prefix is read *)
                (set_coverage f (mkCoverage ({[e_seq target]} ∪ coveredSeqs (rf_coverage f))
                                   (coveredPrefixes (rf_coverage f))), Err e)
            | Ok c =>
                (set_targets (set_coverage f c)
                   (jm_update (close_if_covered c (e_seq entry)) (targets f)), Ok Applied)
            end
        end
  end.

Definition applyRef (f : ResolutionFold) (entry : JournalEntry) : Step :=
  if decide (e_kind entry = KResolution) then applyResolution f entry else applyAbandon f entry.

(** ** Construction *)

Definition preload (f : ResolutionFold) (entry : JournalEntry) : ResolutionFold :=
  mkFold
    (if decide (e_status entry = StSuspended)
     then jm_set (targets f) (e_seq entry) (mkTarget entry None None None) else targets f)
    (<[e_seq entry := entry]> (rf_bySeq f)) (classifications f) (rf_coverage f).

Definition fold_entry (f : ResolutionFold) (entry : JournalEntry) : result FoldError ResolutionFold :=
  if is_ref_kind (e_kind entry) then
    match applyRef f entry with
    | (f', Ok c) => Ok (classify f' (e_seq entry) c)
    | (_, Err e) => Err e
    end
  else Ok f.

Fixpoint fold_entries (f : ResolutionFold) (entries : list JournalEntry)
    : result FoldError ResolutionFold :=
  match entries with
  | [] => Ok f
  | entry :: rest => f' ← fold_entry f entry; fold_entries f' rest
  end.

Definition newResolutionFold (entries : list JournalEntry) : result FoldError ResolutionFold :=
  fold_entries (foldl preload empty_fold entries) entries.

(** ** Live registration *)

Definition registerSuspended (f : ResolutionFold) (entry : JournalEntry) : ResolutionFold :=
  mkFold (jm_set (targets f) (e_seq entry) (mkTarget entry None None None))
    (<[e_seq entry := entry]> (rf_bySeq f)) (classifications f) (rf_coverage f).

Definition registerEntry (f : ResolutionFold) (entry : JournalEntry) : ResolutionFold :=
  mkFold (targets f) (<[e_seq entry := entry]> (rf_bySeq f)) (classifications f) (rf_coverage f).

Definition registerRefEntry (f : ResolutionFold) (entry : JournalEntry) : Step :=
  match applyRef (registerEntry f entry) entry with
  | (f', Ok c) => (classify f' (e_seq entry) c, Ok c)
  | (f', Err e) => (f', Err e)
  end.

(** What the replayer does with each persisted entry (replayer.ts [persist],
    and the arbiter for ref-entries). *)
Definition register (f : ResolutionFold) (entry : JournalEntry) : result FoldError ResolutionFold :=
  if decide (e_status entry = StSuspended) then Ok (registerSuspended f entry)
  else if is_ref_kind (e_kind entry) then
    match registerRefEntry f entry with
    | (f', Ok _) => Ok f'
    | (_, Err e) => Err e
    end
  else Ok (registerEntry f entry).

Fixpoint register_all (f : ResolutionFold) (entries : list JournalEntry)
    : result FoldError ResolutionFold :=
  match entries with
  | [] => Ok f
  | entry :: rest => f' ← register f entry; register_all f' rest
  end.

(** ** Reading the fold *)

Definition suspensionState (f : ResolutionFold) (target : N) : SuspensionState :=
  match jm_get (targets f) target with
  | None => Suspended None
  | Some state =>
      match closedBy state with
      | None => Suspended (e_deadlineAt (t_entry state))
      | Some closer =>
          if decide (closedKind state = Some ClosedAbandon) then Abandoned closer
          else Resolved closer (default JNull (t_value state))
      end
  end.

Definition classificationOf (f : ResolutionFold) (seq : N) : option RefEntryClassification :=
  jm_get (classifications f) seq.

Definition invalidResolutions (f : ResolutionFold) : list (N * string) :=
  omap (fun '(seq, c) => match c with Invalid detail => Some (seq, detail) | _ => None end)
    (jm_entries (classifications f)).

(** [abandonFold], the projection the replay predicate consumes. *)
Definition abandonFold (f : ResolutionFold) : AbandonFold :=
  mkAbandonFold (rf_bySeq f) (rf_coverage f).

Definition openSuspensions (f : ResolutionFold) : list JournalEntry :=
  map t_entry
    (List.filter (fun state => bool_decide (closedBy state = None)
                               && negb (isCoveredEntry f (t_entry state)))
       (jm_values (targets f))).

(** ** The arbiter

    One attempt: the entry the appender persisted is registered, and the
    classification becomes the outcome the caller sees.  [fallback] is the
    outcome of an [Invalid] classification. *)

Inductive ResolutionOutcome :=
  | OutcomeApplied (seq : N)
  | OutcomeNotApplied (seq supersededBy : N) (reason : NoopReason).

Definition outcome_of (seq target : N) (fallback : NoopReason) (c : RefEntryClassification)
    : ResolutionOutcome :=
  match c with
  | Applied => OutcomeApplied seq
  | Noop supersededBy reason => OutcomeNotApplied seq supersededBy reason
  | Invalid _ => OutcomeNotApplied seq target fallback
  end.

Record ResolutionAttempt := mkResolutionAttempt {
  at_by : ResolutionBy;
  at_value : json;
  at_decisionRef : option N;
}.

Definition resolution_payload (target : N) (attempt : ResolutionAttempt) : ResolutionPayload :=
  mkResolution target (at_by attempt) (at_value attempt) (at_decisionRef attempt) None None.

Record AbandonAttempt := mkAbandonAttempt {
  ab_target : N;
  ab_authorizedBy : N;
  ab_nodeId : option string;
  ab_logicalTaskId : option string;
  ab_reason : string;
  ab_retainCheckpoint : option bool;
  ab_retainWorktree : option bool;
}.

Definition abandon_payload (attempt : AbandonAttempt) : AbandonPayload :=
  mkAbandon (ab_target attempt) (ab_authorizedBy attempt) (ab_nodeId attempt)
    (ab_logicalTaskId attempt) (ab_reason attempt)
    (Some (default true (ab_retainCheckpoint attempt)))
    (Some (default false (ab_retainWorktree attempt))).

Definition settle (f : ResolutionFold) (entry : JournalEntry) (target : N) (fallback : NoopReason)
    : ResolutionFold * result FoldError ResolutionOutcome :=
  let '(f', r) := registerRefEntry f entry in
  (f', outcome_of (e_seq entry) target fallback <$> r).
End Fold.

(** ** Lemmas on one step *)

Section Steps.
Variable validate : json → json → bool * option string.
Implicit Types (f g : ResolutionFold) (e entry : JournalEntry).

Lemma close_if_covered_closed c seq st : closedBy st ≠ None → close_if_covered c seq st = st.
Proof. intros Hc. unfold close_if_covered. by rewrite bool_decide_eq_false_2. Qed.

Lemma close_if_covered_entry c seq st : t_entry (close_if_covered c seq st) = t_entry st.
Proof. unfold close_if_covered. by case_match. Qed.

(** What a step never touches. *)
Lemma applyRef_frame f e :
  let f' := (applyRef validate f e).1 in
  rf_bySeq f' = rf_bySeq f ∧ classifications f' = classifications f ∧
  jm_order (targets f') = jm_order (targets f) ∧
  ∀ s, t_entry <$> jm_get (targets f') s = t_entry <$> jm_get (targets f) s.
Proof.
  cbn zeta. unfold applyRef, applyResolution, applyAbandon. repeat case_match; try done; cbn.
  - split_and!; try done.
    + rewrite decide_True; [done|]. unfold jm_get in *. eauto.
    + intros s. rewrite jm_get_set. destruct (decide (default 0%N (e_ref e) = s)) as [Hs|]; [|done]. rewrite <- Hs.
      match goal with H : jm_get _ _ = Some _ |- _ => by rewrite H end.
  - split_and!; try done. intros s. rewrite jm_get_update.
    destruct (jm_get (targets f) s); [|done]. cbn. by rewrite close_if_covered_entry.
Qed.

(** First closing wins: what is closed stays closed, by the same entry. *)
Lemma applyRef_closed f e t st :
  jm_get (targets f) t = Some st → closedBy st ≠ None →
  jm_get (targets (applyRef validate f e).1) t = Some st.
Proof.
  intros Ht Hc. unfold applyRef, applyResolution, applyAbandon.
  repeat case_match; try done; cbn.
  - rewrite jm_get_set. destruct (decide (default 0%N (e_ref e) = t)); [congruence|done].
  - rewrite jm_get_update, Ht. cbn. by rewrite close_if_covered_closed.
Qed.

Lemma applyResolution_applied f e f' :
  e_kind e = KResolution → applyRef validate f e = (f', Ok Applied) →
  ∃ ref payload state, e_ref e = Some ref ∧ e_resolution e = Some payload ∧
    jm_get (targets f') ref =
      Some (mkTarget state (Some (e_seq e)) (Some ClosedResolution) (Some (r_value payload))).
Proof.
  intros Hk. unfold applyRef. rewrite decide_True by done. unfold applyResolution, o2_target.
  destruct (e_ref e) as [ref|]; [|done]. repeat case_match; try done.
  intros [= <-]. eexists ref, _, _. split_and!; [done..|]. cbn. apply jm_get_set_eq.
Qed.

Lemma fold_entry_inv f e f' :
  fold_entry validate f e = Ok f' →
  (is_ref_kind (e_kind e) = false ∧ f' = f) ∨
  (is_ref_kind (e_kind e) = true ∧ ∃ g c, applyRef validate f e = (g, Ok c) ∧ f' = classify g (e_seq e) c).
Proof.
  unfold fold_entry. destruct (is_ref_kind _); [|intros [= <-]; by left].
  destruct (applyRef validate f e) as [g [c|]]; [|done]. intros [= <-]. right; eauto.
Qed.

Lemma fold_entries_app f a b :
  fold_entries validate f (a ++ b) = (f' ← fold_entries validate f a; fold_entries validate f' b).
Proof.
  revert f. induction a as [|e a IH]; intros f; cbn; [done|].
  destruct (fold_entry validate f e); cbn; [apply IH|done].
Qed.

Lemma fold_entries_closed f es f' t st :
  fold_entries validate f es = Ok f' → jm_get (targets f) t = Some st → closedBy st ≠ None →
  jm_get (targets f') t = Some st.
Proof.
  revert f. induction es as [|e es IH]; intros f; cbn; [by intros [= <-]|].
  intros (f1 & He & Hes)%bind_ok Ht Hc. apply (IH f1 Hes); [|done].
  apply fold_entry_inv in He as [[_ ->]|(_ & g & c & Hg & ->)]; [done|].
  pose proof (applyRef_closed f e t st Ht Hc) as Hk. by rewrite Hg in Hk.
Qed.

Lemma fold_entries_classification f es f' s :
  fold_entries validate f es = Ok f' → s ∉ map e_seq es →
  classificationOf f' s = classificationOf f s.
Proof.
  revert f. induction es as [|e es IH]; intros f; cbn; [by intros [= <-]|].
  intros (f1 & He & Hes)%bind_ok Hs. rewrite (IH f1 Hes) by set_solver.
  apply fold_entry_inv in He as [[_ ->]|(_ & g & c & Hg & ->)]; [done|].
  pose proof (applyRef_frame f e) as Hk. rewrite Hg in Hk. destruct Hk as (_ & Hcl & _).
  unfold classificationOf, classify. cbn. rewrite jm_get_set_ne by set_solver. cbn in Hcl. by rewrite Hcl.
Qed.

(** An applied resolution closed its target, for good. *)
Lemma applied_state entries f e :
  NoDup (map e_seq entries) → newResolutionFold validate entries = Ok f → e ∈ entries →
  e_kind e = KResolution → classificationOf f (e_seq e) = Some Applied →
  ∃ ref payload state, e_ref e = Some ref ∧ e_resolution e = Some payload ∧
    jm_get (targets f) ref =
      Some (mkTarget state (Some (e_seq e)) (Some ClosedResolution) (Some (r_value payload))).
Proof.
  intros Hnd Hf (a & b & ->)%list_elem_of_split Hk Hc.
  unfold newResolutionFold in Hf. rewrite fold_entries_app in Hf. cbn in Hf.
  apply bind_ok in Hf as (f1 & Ha & (f2 & He & Hb)%bind_ok).
  rewrite map_app in Hnd. apply NoDup_app in Hnd as (_ & _ & Hnd). apply NoDup_cons in Hnd as [Hs _].
  rewrite (fold_entries_classification _ _ _ _ Hb Hs) in Hc.
  apply fold_entry_inv in He as [[Hr _]|(_ & g & c & Hg & ->)]; [by rewrite Hk in Hr|].
  unfold classificationOf, classify in Hc. cbn in Hc. rewrite jm_get_set_eq in Hc.
  injection Hc as ->.
  apply applyResolution_applied in Hg as (ref & payload & state & Hr & Hp & Ht); [|done].
  exists ref, payload, state. split_and!; [done..|]. by apply (fold_entries_closed _ _ _ _ _ Hb Ht).
Qed.

(** First closing wins.  In a folded journal a resolution classified
    [applied] is the one that closed its target: the target reads as resolved
    by that entry, with its value, and no other resolution of the same target
    is classified [applied]. *)
Theorem applied_resolution_is_unique entries f e :
  NoDup (map e_seq entries) → newResolutionFold validate entries = Ok f → e ∈ entries →
  e_kind e = KResolution → classificationOf f (e_seq e) = Some Applied →
  ∃ ref payload, e_ref e = Some ref ∧ e_resolution e = Some payload ∧
    suspensionState f ref = Resolved (e_seq e) (r_value payload) ∧
    ∀ e', e' ∈ entries → e_kind e' = KResolution → e_ref e' = Some ref →
      classificationOf f (e_seq e') = Some Applied → e' = e.
Proof.
  intros Hnd Hf He Hk Hc.
  destruct (applied_state _ _ _ Hnd Hf He Hk Hc) as (ref & payload & st & Hr & Hp & Ht).
  exists ref, payload. split_and!; [done..| |].
  - unfold suspensionState. by rewrite Ht.
  - intros e' He' Hk' Hr' Hc'.
    destruct (applied_state _ _ _ Hnd Hf He' Hk' Hc') as (ref' & p' & st' & Hr2 & _ & Ht').
    assert (ref' = ref) as -> by congruence. rewrite Ht in Ht'. injection Ht' as _ Hseq _.
    apply list_elem_of_lookup in He as [i Hi]. apply list_elem_of_lookup in He' as [j Hj].
    assert (i = j) as ->; [|congruence].
    apply (NoDup_lookup _ i j (e_seq e) Hnd); rewrite list_lookup_fmap; [by rewrite Hi|].
    rewrite Hj. cbn. by rewrite Hseq.
Qed.
End Steps.

(** ** Live registration agrees with reload *)

(** Two target states that no reader under the coverage [c] tells apart, but
    for who abandoned them. *)
Definition target_rel (c : Coverage) (tb tl : TargetState) : Prop :=
  tb = tl ∨
  (t_entry tb = t_entry tl ∧ isCovered c (t_entry tb) = true ∧
   closedBy tb ≠ None ∧ closedKind tb = Some ClosedAbandon ∧
   (closedBy tl = None ∨ closedKind tl = Some ClosedAbandon)).

(** Two classifications that differ at most in who abandoned the target. *)
Definition class_rel (a b : RefEntryClassification) : Prop :=
  a = b ∨ ∃ s s', a = Noop s TargetAbandoned ∧ b = Noop s' TargetAbandoned.

Record fold_rel (b l : ResolutionFold) : Prop := {
  fr_bySeq : rf_bySeq b = rf_bySeq l;
  fr_coverage : rf_coverage b = rf_coverage l;
  fr_order : jm_order (targets b) = jm_order (targets l);
  fr_targets : ∀ s, option_Forall2 (target_rel (rf_coverage b))
                      (jm_get (targets b) s) (jm_get (targets l) s);
  fr_classes : ∀ s, option_Forall2 class_rel
                      (jm_get (classifications b) s) (jm_get (classifications l) s);
  fr_class_order : jm_order (classifications b) = jm_order (classifications l);
}.

(** The entries of a journal: numbered increasingly, ref-entries not suspended. *)
Record journal_wf (es : list JournalEntry) : Prop := {
  jw_seqs : StronglySorted (fun a b => e_seq a < e_seq b)%N es;
  jw_refs : Forall (fun e => is_ref_kind (e_kind e) = true → e_status e ≠ StSuspended) es;
}.

(** The indexes of a fold hold what their keys say. *)
Record indexed (f : ResolutionFold) : Prop := {
  ix_bySeq : ∀ s e, rf_bySeq f !! s = Some e → e_seq e = s;
  ix_targets : ∀ s t, jm_get (targets f) s = Some t → rf_bySeq f !! s = Some (t_entry t);
}.

Section Live.
Variable validate : json → json → bool * option string.
Implicit Types (f b l : ResolutionFold) (e entry : JournalEntry) (q : list JournalEntry).

Lemma isCovered_mono c target c' e :
  cover c target = Ok c' → isCovered c e = true → isCovered c' e = true.
Proof.
  unfold cover. intros (p & _ & [= <-])%bind_ok. rewrite !isCovered_spec. cbn. set_solver.
Qed.

(** *** Preloading *)

Lemma preload_bySeq f q s :
  (∀ e, e ∈ q → s < e_seq e)%N → rf_bySeq (foldl preload f q) !! s = rf_bySeq f !! s.
Proof.
  revert f. induction q as [|e q IH]; intros f Hs; cbn; [done|].
  rewrite IH by (intros; apply Hs; by right). cbn. apply lookup_insert_ne.
  specialize (Hs e ltac:(left)). lia.
Qed.

Lemma preload_target f q s :
  (∀ e, e ∈ q → s < e_seq e)%N → jm_get (targets (foldl preload f q)) s = jm_get (targets f) s.
Proof.
  revert f. induction q as [|e q IH]; intros f Hs; cbn; [done|].
  rewrite IH by (intros; apply Hs; by right). cbn. case_decide; [|done].
  rewrite jm_get_set_ne; [done|]. specialize (Hs e ltac:(left)). lia.
Qed.

Lemma preload_frame f q :
  rf_coverage (foldl preload f q) = rf_coverage f ∧
  classifications (foldl preload f q) = classifications f.
Proof. revert f. induction q as [|e q IH]; intros f; cbn; [done|]. by destruct (IH (preload f e)) as [-> ->]. Qed.

(** The target a preloaded entry brings. *)
Definition fresh q (s : N) : option TargetState := jm_get (targets (foldl preload empty_fold q)) s.

Lemma preload_get_gen f q s :
  jm_get (targets (foldl preload f q)) s =
    match fresh q s with Some t => Some t | None => jm_get (targets f) s end.
Proof.
  unfold fresh. induction q as [|e q IH] using rev_ind; [done|].
  rewrite !foldl_app. cbn. case_decide; [|done]. rewrite !jm_get_set. by case_decide.
Qed.

Lemma fresh_inv q s t :
  fresh q s = Some t → ∃ e, e ∈ q ∧ e_seq e = s ∧ t = mkTarget e None None None.
Proof.
  unfold fresh. revert t. induction q as [|e q IH] using rev_ind; intros t; [done|].
  rewrite foldl_app. cbn. case_decide; [rewrite jm_get_set; case_decide|].
  - intros [= <-]. exists e. set_solver.
  - intros (x & ? & ?)%IH. exists x. set_solver.
  - intros (x & ? & ?)%IH. exists x. set_solver.
Qed.

Lemma fresh_none q s : (∀ e, e ∈ q → s < e_seq e)%N → fresh q s = None.
Proof.
  intros Hs. destruct (fresh q s) eqn:E; [|done].
  apply fresh_inv in E as (e & He & <- & _). specialize (Hs e He). lia.
Qed.

(** The indexes after preloading depend on the indexes before. *)
Lemma preload_indexes f g q :
  rf_bySeq f = rf_bySeq g → jm_order (targets f) = jm_order (targets g) →
  (∀ s, t_entry <$> jm_get (targets f) s = t_entry <$> jm_get (targets g) s) →
  rf_bySeq (foldl preload f q) = rf_bySeq (foldl preload g q) ∧
  jm_order (targets (foldl preload f q)) = jm_order (targets (foldl preload g q)).
Proof.
  revert f g. induction q as [|e q IH]; intros f g Hb Ho Ht; [done|].
  cbn. apply IH; cbn; [by rewrite Hb| |].
  - case_decide; [|done]. cbn. rewrite Ho. pose proof (Ht (e_seq e)) as Hs. unfold jm_get in Hs.
    assert (is_Some (jm_map (targets f) !! e_seq e) ↔ is_Some (jm_map (targets g) !! e_seq e)) as Hiff
      by (rewrite <- (fmap_is_Some t_entry), Hs; apply fmap_is_Some).
    by rewrite (decide_ext _ _ _ _ Hiff).
  - intros s. case_decide; [|done]. rewrite !jm_get_set. by case_decide.
Qed.

Lemma indexed_preload f e :
  indexed f → rf_bySeq f !! e_seq e = None → indexed (preload f e).
Proof.
  intros [Hb Ht] Hnew. split; cbn.
  - intros s x. rewrite lookup_insert_Some. naive_solver.
  - intros s t Hs. destruct (decide (e_seq e = s)) as [<-|Hne].
    + rewrite lookup_insert_eq. revert Hs. case_decide; [rewrite jm_get_set_eq; by intros [= <-]|].
      intros Hs%Ht. congruence.
    + rewrite lookup_insert_ne by done. apply Ht. revert Hs.
      case_decide; [by rewrite jm_get_set_ne|done].
Qed.

Lemma indexed_preloads f q :
  indexed f → NoDup (map e_seq q) → (∀ e, e ∈ q → rf_bySeq f !! e_seq e = None) →
  indexed (foldl preload f q).
Proof.
  revert f. induction q as [|e q IH]; intros f Hi Hnd Hnew; [done|]. cbn in *.
  apply NoDup_cons in Hnd as [He Hnd]. apply IH; [|done|].
  - apply indexed_preload; [done|]. apply Hnew. by left.
  - intros x Hx. cbn. rewrite lookup_insert_ne; [apply Hnew; by right|].
    intros Heq. apply He. rewrite Heq. by apply list_elem_of_fmap_2.
Qed.

Lemma indexed_applyRef f e : indexed f → indexed (applyRef validate f e).1.
Proof.
  intros [Hb Ht]. pose proof (applyRef_frame validate f e) as (Hbs & _ & _ & Hte).
  split; intros s x; rewrite Hbs; [by apply Hb|].
  intros Hx. specialize (Hte s). rewrite Hx in Hte. cbn in Hte.
  destruct (jm_get (targets f) s) as [t|] eqn:E; [|done]. injection Hte as ->. by apply Ht.
Qed.

(** *** One ref-entry, on the preloaded fold and on the live one

    [l] is the live fold, which does not know the entries [q] yet; [b] is
    related to [l] with [q] preloaded. *)

Lemma o2_target_agree b l e q :
  (∀ x, x ∈ q → e_seq e < e_seq x)%N →
  rf_bySeq b = rf_bySeq (foldl preload l q) → o2_target b e = o2_target l e.
Proof.
  intros Hq Hb. unfold o2_target. destruct (e_ref e) as [ref|]; [|done].
  destruct (N.leb_spec (e_seq e) ref); [done|]. rewrite Hb, preload_bySeq; [done|].
  intros x Hx. specialize (Hq x Hx). lia.
Qed.

Lemma o2_target_seq f e t :
  indexed f → o2_target f e = Ok t →
  e_ref e = Some (e_seq t) ∧ (e_seq t < e_seq e)%N ∧ rf_bySeq f !! e_seq t = Some t.
Proof.
  intros Hi. unfold o2_target. destruct (e_ref e) as [ref|]; [|done].
  destruct (N.leb_spec (e_seq e) ref); [done|].
  destruct (rf_bySeq f !! ref) as [t'|] eqn:E; [|done]. intros [= <-].
  by rewrite (ix_bySeq _ Hi _ _ E).
Qed.

Lemma target_rel_uncovered c tb tl :
  target_rel c tb tl → isCovered c (t_entry tb) = false → tb = tl.
Proof. intros [->|(_ & Hc & _)]; [done|]. congruence. Qed.

(** The two states a live fold and a reload keep for one target. *)
Lemma rel_close c c' seq tb tl target :
  cover c target = Ok c' → target_rel c tb tl →
  target_rel c' (close_if_covered c' seq tb) (close_if_covered c' seq tl).
Proof.
  intros Hc [->|(He & Hcov & Hcb & Hk & Hl)]; [by left|].
  apply (isCovered_mono _ _ _ _ Hc) in Hcov. rewrite (close_if_covered_closed _ _ tb) by done.
  right. rewrite close_if_covered_entry. split_and!; [done..|].
  unfold close_if_covered. case_match; cbn; auto.
Qed.

Lemma rel_close_fresh c c' seq tb e target :
  cover c target = Ok c' → target_rel c tb (mkTarget e None None None) →
  target_rel c' (close_if_covered c' seq tb) (mkTarget e None None None).
Proof.
  intros Hc [->|(He & Hcov & Hcb & Hk & Hl)].
  - unfold close_if_covered. cbn. destruct (isCovered c' e) eqn:E; [|by left].
    right. cbn. split_and!; auto; done.
  - apply (isCovered_mono _ _ _ _ Hc) in Hcov. rewrite (close_if_covered_closed _ _ tb) by done.
    right. cbn. split_and!; auto.
Qed.

Section RefStep.
Variables (b l : ResolutionFold) (e : JournalEntry) (q : list JournalEntry).
Hypothesis Hrel : fold_rel b (foldl preload l q).
Hypothesis Hix : indexed b.
Hypothesis Hq : ∀ x, x ∈ q → (e_seq e < e_seq x)%N.

Lemma live_coverage : rf_coverage b = rf_coverage l.
Proof. rewrite (fr_coverage _ _ Hrel). apply preload_frame. Qed.

(** An earlier target: the live fold has it too. *)
Lemma live_target s :
  (s < e_seq e)%N →
  option_Forall2 (target_rel (rf_coverage b)) (jm_get (targets b) s) (jm_get (targets l) s).
Proof.
  intros Hs. pose proof (fr_targets _ _ Hrel s) as Ht. rewrite preload_target in Ht; [done|].
  intros x Hx. specialize (Hq x Hx). lia.
Qed.

(** Any target: the live fold has it, or will register it. *)
Lemma any_target s :
  option_Forall2 (target_rel (rf_coverage b)) (jm_get (targets b) s)
    (match fresh q s with Some t => Some t | None => jm_get (targets l) s end).
Proof. pose proof (fr_targets _ _ Hrel s) as Ht. by rewrite preload_get_gen in Ht. Qed.

(** How a step of both folds lifts to the preloaded relation. *)
Lemma fold_rel_step b' l' :
  rf_bySeq b' = rf_bySeq b → rf_bySeq l' = rf_bySeq l →
  jm_order (targets b') = jm_order (targets b) → jm_order (targets l') = jm_order (targets l) →
  (∀ s, t_entry <$> jm_get (targets l') s = t_entry <$> jm_get (targets l) s) →
  classifications b' = classifications b → classifications l' = classifications l →
  rf_coverage b' = rf_coverage l' →
  (∀ s, option_Forall2 (target_rel (rf_coverage b')) (jm_get (targets b') s)
     (match fresh q s with Some t => Some t | None => jm_get (targets l') s end)) →
  fold_rel b' (foldl preload l' q).
Proof.
  intros Hb1 Hb2 Ho1 Ho2 Hte Hc1 Hc2 Hcov Ht.
  destruct (preload_indexes l' l q Hb2 Ho2 Hte) as [Hpb Hpo].
  destruct (preload_frame l' q) as [Hpc Hpcl], (preload_frame l q) as [_ Hpcl0].
  destruct Hrel as [Rb _ Ro _ Rcl Rco]. rewrite Hpcl0 in Rcl, Rco.
  split; rewrite ?Hpb, ?Hpo, ?Hpc, ?Hpcl, ?Hb1, ?Ho1, ?Hc1, ?Hc2; try done.
  intros s. rewrite preload_get_gen. apply Ht.
Qed.

Definition step_agrees (sb sl : Step) : Prop :=
  match sb.2, sl.2 with
  | Ok cb, Ok cl => class_rel cb cl ∧ fold_rel sb.1 (foldl preload sl.1 q)
  | Err x, Err y => x = y
  | _, _ => False
  end.

Lemma agrees_same (c1 c2 : RefEntryClassification) :
  class_rel c1 c2 → step_agrees (b, Ok c1) (l, Ok c2).
Proof. by split. Qed.

Lemma resolution_agrees : step_agrees (applyResolution validate b e) (applyResolution validate l e).
Proof.
  unfold applyResolution. rewrite <- (o2_target_agree b l e q Hq (fr_bySeq _ _ Hrel)).
  destruct (o2_target b e) as [t|x] eqn:Ho; [|done].
  destruct (o2_target_seq _ _ _ Hix Ho) as (Hr & Hlt & _). rewrite Hr. change (default 0%N (Some (e_seq t))) with (e_seq t).
  pose proof (live_target (e_seq t) Hlt) as Ht.
  inversion Ht as [tb tl Htr Hb Hl|Hb Hl]; rewrite <- ?Hb, <- ?Hl; [|by apply agrees_same; left].
  assert (t_entry tb = t_entry tl) as Hte by (destruct Htr as [->|(? & _)]; done).
  unfold isCoveredEntry. rewrite <- live_coverage, <- Hte.
  destruct (isCovered (rf_coverage b) (t_entry tb)) eqn:Hc; [apply agrees_same; right; eauto|].
  apply target_rel_uncovered in Htr as <-; [|done].
  destruct (closedBy tb); [by apply agrees_same; left|].
  destruct (e_resolution e) as [payload|]; [|by apply agrees_same; left].
  destruct (resolution_detail _ _ _); [by apply agrees_same; left|].
  split; [by left|]. cbn. apply fold_rel_step; try done; cbn.
  - rewrite decide_True; [done|]. unfold jm_get in Hb. rewrite <- Hb. done.
  - rewrite decide_True; [done|]. unfold jm_get in Hl. rewrite <- Hl. done.
  - intros s. rewrite jm_get_set. destruct (decide _) as [<-|]; [by rewrite <- Hl|done].
  - apply live_coverage.
  - intros s. rewrite !jm_get_set. destruct (decide (e_seq t = s)) as [<-|]; [|apply any_target].
    rewrite fresh_none by (intros x Hx; specialize (Hq x Hx); lia). constructor. by left.
Qed.

Lemma abandon_agrees : step_agrees (applyAbandon b e) (applyAbandon l e).
Proof.
  unfold applyAbandon. rewrite <- (o2_target_agree b l e q Hq (fr_bySeq _ _ Hrel)).
  destruct (o2_target b e) as [t|x] eqn:Ho; [|done].
  destruct (o2_target_seq _ _ _ Hix Ho) as (Hr & Hlt & Hbt).
  unfold isCoveredEntry. rewrite <- live_coverage.
  destruct (isCovered (rf_coverage b) t) eqn:Hc; [by apply agrees_same; left|].
  pose proof (live_target (e_seq t) Hlt) as Ht.
  assert (jm_get (targets b) (e_seq t) ≫= closedBy = jm_get (targets l) (e_seq t) ≫= closedBy) as <-.
  { inversion Ht as [tb tl Htr Hb Hl|Hb Hl]; [|done]. cbn.
    rewrite (target_rel_uncovered _ _ _ Htr); [done|].
    symmetry in Hb. apply (ix_targets _ Hix) in Hb. congruence. }
  destruct (jm_get (targets b) (e_seq t) ≫= closedBy); [by apply agrees_same; left|].
  destruct (cover (rf_coverage b) t) as [c|x] eqn:Hcov; [|done].
  split; [by left|]. cbn. apply fold_rel_step; try done; cbn.
  - intros s. rewrite jm_get_update. destruct (jm_get (targets l) s); [|done]. cbn.
    by rewrite close_if_covered_entry.
  - intros s. rewrite !jm_get_update. pose proof (any_target s) as Ha.
    destruct (fresh q s) as [tf|] eqn:Hf.
    + apply fresh_inv in Hf as (x & _ & _ & ->). inversion Ha as [tb tl Htr Hb Hl|]. cbn.
      constructor. by eapply rel_close_fresh.
    + inversion Ha as [tb tl Htr Hb Hl|]; cbn; constructor. by eapply rel_close.
Qed.

Lemma ref_agrees : step_agrees (applyRef validate b e) (applyRef validate l e).
Proof. unfold applyRef. case_decide; [apply resolution_agrees|apply abandon_agrees]. Qed.
End RefStep.

Lemma class_rel_refl c : class_rel c c. Proof. by left. Qed.
Lemma target_rel_refl c t : target_rel c t t. Proof. by left. Qed.

Lemma fold_rel_refl f : fold_rel f f.
Proof.
  split; try done; intros s; [destruct (jm_get (targets f) s)|destruct (jm_get (classifications f) s)];
    constructor; [apply target_rel_refl | apply class_rel_refl].
Qed.

Lemma preload_classify f s c q :
  foldl preload (classify f s c) q = classify (foldl preload f q) s c.
Proof. revert f. induction q as [|e q IH]; intros f; [done|]. cbn. by rewrite <- IH. Qed.

Lemma fold_rel_classify b l s cb cl :
  class_rel cb cl → fold_rel b l → fold_rel (classify b s cb) (classify l s cl).
Proof.
  intros Hc [Hb Hcov Ho Ht Hcl Hco]. split; cbn; try done.
  - intros s'. rewrite !jm_get_set. case_decide; [by constructor|done].
  - rewrite Hco. pose proof (Hcl s) as Hs. unfold jm_get in Hs.
    destruct (jm_map (classifications b) !! s), (jm_map (classifications l) !! s);
      inversion Hs; repeat case_decide; try done; exfalso; eauto using is_Some_None.
Qed.

Lemma live_agrees b l es :
  fold_rel b (foldl preload l es) → indexed b → journal_wf es →
  match fold_entries validate b es, register_all validate l es with
  | Ok b', Ok l' => fold_rel b' l' ∧ indexed b'
  | Err x, Err y => x = y
  | _, _ => False
  end.
Proof.
  revert b l. induction es as [|e q IH]; intros b l Hrel Hix [Hs Hr]; [done|].
  apply StronglySorted_inv in Hs as [Hs Hq]. apply Forall_cons_1 in Hr as [He Hr].
  assert (journal_wf q) as Hwf by done. rewrite Forall_forall in Hq.
  assert (is_ref_kind (e_kind e) = false → register validate l e = Ok (preload l e)) as Hplain.
  { intros Hk. unfold register, preload, registerSuspended, registerEntry. rewrite Hk. by case_decide. }
  cbn [fold_entries register_all]. destruct (is_ref_kind (e_kind e)) eqn:Hk.
  2:{ unfold fold_entry. rewrite Hk, Hplain by done. by apply IH. }
  assert (register validate l e =
    match registerRefEntry validate l e with (f', Ok _) => Ok f' | (_, Err x) => Err x end) as ->.
  { unfold register. rewrite decide_False by auto. by rewrite Hk. }
  assert (preload l e = registerEntry l e) as Hpre.
  { unfold preload, registerEntry. by rewrite decide_False by auto. }
  cbn [foldl] in Hrel. rewrite Hpre in Hrel.
  pose proof (ref_agrees b (registerEntry l e) e q Hrel Hix Hq) as Hag.
  pose proof (indexed_applyRef b e Hix) as Hix'.
  unfold fold_entry, registerRefEntry. rewrite Hk.
  destruct (applyRef validate b e) as [b' [cb|x]], (applyRef validate (registerEntry l e) e) as [l' [cl|y]];
    try done.
  destruct Hag as [Hc Hrel']. cbn. apply IH; [|split; apply Hix'|done].
  rewrite preload_classify. by apply fold_rel_classify.
Qed.

(** The entries [p] of both folds, when the live one does not know [q] yet. *)
Lemma prefix_agrees b l p q :
  fold_rel b (foldl preload l q) → indexed b →
  (∀ e x, e ∈ p → x ∈ q → e_seq e < e_seq x)%N →
  match fold_entries validate b p, fold_entries validate l p with
  | Ok b', Ok l' => fold_rel b' (foldl preload l' q) ∧ indexed b'
  | Err x, Err y => x = y
  | _, _ => False
  end.
Proof.
  revert b l. induction p as [|e p IH]; intros b l Hrel Hix Hq; [done|].
  assert (∀ x, x ∈ q → e_seq e < e_seq x)%N as Hqe by (intros; apply Hq; [left|done]).
  assert (∀ e x, e ∈ p → x ∈ q → e_seq e < e_seq x)%N as Hqp
    by (intros y x Hy; apply Hq; by right).
  cbn [fold_entries]. unfold fold_entry. destruct (is_ref_kind (e_kind e)) eqn:Hk; [|by apply IH].
  pose proof (ref_agrees b l e q Hrel Hix Hqe) as Hag.
  pose proof (indexed_applyRef b e Hix) as Hix'.
  destruct (applyRef validate b e) as [b' [cb|x]], (applyRef validate l e) as [l' [cl|y]]; try done.
  destruct Hag as [Hc Hrel']. cbn. apply IH; [|split; apply Hix'|done].
  rewrite preload_classify. by apply fold_rel_classify.
Qed.

Lemma journal_wf_indexed es : journal_wf es → indexed (foldl preload empty_fold es).
Proof.
  intros [Hs _]. apply indexed_preloads.
  - split; intros s x; cbn; unfold jm_get; cbn; by rewrite lookup_empty.
  - induction Hs as [|e q _ IH Hq]; cbn; [constructor|]. constructor; [|done].
    intros (x & Heq & Hx)%list_elem_of_fmap. rewrite Forall_forall in Hq. specialize (Hq x Hx). lia.
  - intros e _. apply lookup_empty.
Qed.

(** *** The entry index, and where registration throws *)

Lemma preload_index_gen q f : rf_bySeq (foldl preload f q) = foldl (fun m e => <[e_seq e := e]> m) (rf_bySeq f) q.
Proof. revert f. induction q as [|e q IH]; intros f; [done|]. cbn. by rewrite IH. Qed.

Lemma register_bySeq f e f' :
  register validate f e = Ok f' → rf_bySeq f' = <[e_seq e := e]> (rf_bySeq f).
Proof.
  unfold register. destruct (decide _); [by intros [= <-]|].
  destruct (is_ref_kind _); [|by intros [= <-]]. unfold registerRefEntry.
  pose proof (applyRef_frame validate (registerEntry f e) e) as (Hb & _).
  destruct (applyRef validate (registerEntry f e) e) as [g [c|x]]; [|done]. cbn in *.
  intros [= <-]. cbn. exact Hb.
Qed.

Lemma register_all_bySeq f es f' :
  register_all validate f es = Ok f' →
  rf_bySeq f' = foldl (fun m e => <[e_seq e := e]> m) (rf_bySeq f) es.
Proof.
  revert f. induction es as [|e es IH]; intros f; cbn; [by intros [= <-]|].
  intros (f1 & He & Hes)%bind_ok. rewrite (IH f1 Hes). by rewrite (register_bySeq _ _ _ He).
Qed.

Lemma register_all_app f (a b : list JournalEntry) :
  register_all validate f (a ++ b) = (f' ← register_all validate f a; register_all validate f' b).
Proof.
  revert f. induction a as [|e a IH]; intros f; cbn; [done|].
  destruct (register validate f e); cbn; [apply IH|done].
Qed.

Lemma newResolutionFold_bySeq es f :
  newResolutionFold validate es = Ok f → rf_bySeq f = index_by_seq es.
Proof.
  unfold newResolutionFold. intros Hf. transitivity (rf_bySeq (foldl preload empty_fold es));
    [|apply preload_index_gen].
  revert Hf. generalize (foldl preload empty_fold es). induction es as [|e es IH]; intros g; cbn;
    [by intros [= <-]|]. intros (f1 & He & Hes)%bind_ok. rewrite (IH f1 Hes).
  apply fold_entry_inv in He as [[_ ->]|(_ & h & c & Hg & ->)]; [done|].
  pose proof (applyRef_frame validate g e) as (Hb & _). by rewrite Hg in Hb.
Qed.

(** The prefix of an abandoned child entry is readable. *)
Definition coverable (t : JournalEntry) : Prop := ¬ (e_kind t = KChild ∧ e_value t = Some JNull).

Lemma coverable_prefix t : coverable t → ∃ p, childCoveragePrefix t = Ok p.
Proof.
  unfold childCoveragePrefix, coverable. intros Hc. destruct (decide _) as [Hk|]; [|eauto].
  destruct (e_value t) as [[]|]; eauto. exfalso. by apply Hc.
Qed.

(** Registering a ref-entry over an earlier entry throws only on a child
    without a readable payload. *)
Lemma register_total f e s t :
  e_ref e = Some s → (s < e_seq e)%N → rf_bySeq f !! s = Some t →
  (e_kind e = KAbandon → coverable t) → ∃ f', register validate f e = Ok f'.
Proof.
  intros Hr Hlt Ht Hc. unfold register. destruct (decide _); [eauto|].
  destruct (is_ref_kind (e_kind e)) eqn:Hk; [|eauto]. unfold registerRefEntry.
  assert (o2_target (registerEntry f e) e = Ok t) as Ho.
  { unfold o2_target. rewrite Hr. destruct (N.leb_spec (e_seq e) s); [lia|]. cbn.
    rewrite lookup_insert_ne by lia. by rewrite Ht. }
  unfold applyRef, applyResolution, applyAbandon. rewrite Ho.
  destruct (decide _) as [Hkr|Hkr]; [repeat case_match; simplify_eq/=; eauto|].
  assert (e_kind e = KAbandon) as Hka by (destruct (e_kind e); done).
  destruct (coverable_prefix t (Hc Hka)) as [p Hp].
  unfold cover. rewrite Hp. cbn. repeat case_match; simplify_eq/=; eauto.
Qed.

(** *** What the relation means for the readers *)

Lemma rel_open b l : fold_rel b l → openSuspensions b = openSuspensions l.
Proof.
  intros [_ Hcov Ho Ht _ _]. unfold openSuspensions, jm_values, isCoveredEntry.
  rewrite Ho, <- Hcov. clear Ho. induction (jm_order (targets l)) as [|s order IH]; [done|].
  cbn [omap list_omap]. pose proof (Ht s) as Hs. unfold jm_get in Hs.
  destruct (jm_map (targets b) !! s) as [tb|], (jm_map (targets l) !! s) as [tl|];
    inversion Hs as [? ? Htr|]; [|exact IH]. subst.
  cbn [List.filter]. destruct Htr as [->|(He & Hc & _)].
  - destruct (_ && _); cbn [map]; by rewrite IH.
  - rewrite <- He, Hc, !andb_false_r. exact IH.
Qed.

Lemma rel_invalid b l : fold_rel b l → invalidResolutions b = invalidResolutions l.
Proof.
  intros [_ _ _ _ Hcl Hco]. unfold invalidResolutions, jm_entries. rewrite Hco. clear Hco.
  induction (jm_order (classifications l)) as [|s order IH]; [done|].
  cbn [omap list_omap]. pose proof (Hcl s) as Hs. unfold jm_get in Hs.
  destruct (jm_map (classifications b) !! s) as [cb|], (jm_map (classifications l) !! s) as [cl|];
    inversion Hs as [? ? Hc|]; [|exact IH]. subst. cbn.
  destruct Hc as [->|(s1 & s2 & -> & ->)]; [|exact IH]. destruct cl; by rewrite IH || exact IH.
Qed.

Lemma rel_state b l s :
  fold_rel b l → indexed b →
  (∀ e, rf_bySeq b !! s = Some e → isCoveredEntry b e = false) →
  suspensionState b s = suspensionState l s.
Proof.
  intros [_ _ _ Ht _ _] Hix Hunc. unfold suspensionState. pose proof (Ht s) as Hs.
  destruct (jm_get (targets b) s) as [tb|] eqn:Hb; inversion Hs as [? tl Htr Hx Hl|]; [|done].
  rewrite (target_rel_uncovered _ _ _ Htr); [done|]. by apply Hunc, ix_targets.
Qed.

(** A fold built over [p] and kept live over [q] is the fold of [p ++ q]. *)
Lemma resumed_fold_is_reload p q f0 f :
  journal_wf (p ++ q) → newResolutionFold validate p = Ok f0 → register_all validate f0 q = Ok f →
  ∃ b, newResolutionFold validate (p ++ q) = Ok b ∧ fold_rel b f ∧ indexed b.
Proof.
  intros Hwf Hf0 Hf. pose proof (journal_wf_indexed _ Hwf) as Hix.
  destruct Hwf as [Hs Hr]. apply Forall_app in Hr as [_ Hr].
  assert (∀ e x, e ∈ p → x ∈ q → e_seq e < e_seq x)%N as Hlt.
  { intros e x He Hx. apply list_elem_of_split in He as (p1 & p2 & ->).
    rewrite <- app_assoc in Hs. cbn in Hs. clear -Hs Hx. induction p1 as [|y p1 IH]; cbn in Hs.
    - apply StronglySorted_inv in Hs as [_ Hs]. rewrite Forall_forall in Hs. apply Hs. set_solver.
    - apply StronglySorted_inv in Hs as [Hs _]. by apply IH. }
  assert (StronglySorted (fun a b : JournalEntry => e_seq a < e_seq b)%N q) as Hsq.
  { clear -Hs. induction p as [|y p IH]; [done|]. apply StronglySorted_inv in Hs as [Hs _]. by apply IH. }
  unfold newResolutionFold in *. rewrite foldl_app, fold_entries_app. rewrite foldl_app in Hix.
  pose proof (prefix_agrees _ (foldl preload empty_fold p) p q (fold_rel_refl _) Hix Hlt) as Hp.
  rewrite Hf0 in Hp. destruct (fold_entries validate (foldl preload (foldl preload empty_fold p) q) p) as [b0|]; [|done]. destruct Hp as [Hrel0 Hix0].
  cbn. pose proof (live_agrees b0 f0 q Hrel0 Hix0 (Build_journal_wf q Hsq Hr)) as Hl.
  rewrite Hf in Hl. destruct (fold_entries _ b0 q) as [b|]; [|done]. exists b. naive_solver.
Qed.

(** C2: the fold kept live is the fold a reload would build.  Registering the
    entries of a journal one by one, as they are appended, throws where the
    batch fold throws, and otherwise covers the same entries, leaves the same
    suspensions open in the same order, reports the same invalid resolutions,
    and classifies each ref-entry alike but for who abandoned a target; the
    states of targets that are not under an abandoned branch are equal. *)
Theorem live_fold_is_reload (es : list JournalEntry) :
  journal_wf es →
  match newResolutionFold validate es, register_all validate empty_fold es with
  | Ok b, Ok l =>
      (∀ ref, isAbandoned (abandonFold b) ref = isAbandoned (abandonFold l) ref) ∧
      openSuspensions b = openSuspensions l ∧
      invalidResolutions b = invalidResolutions l ∧
      (∀ s, option_Forall2 class_rel (classificationOf b s) (classificationOf l s)) ∧
      (∀ s, (∀ e, rf_bySeq b !! s = Some e → isCoveredEntry b e = false) →
        suspensionState b s = suspensionState l s)
  | Err x, Err y => x = y
  | _, _ => False
  end.
Proof.
  intros Hwf.
  pose proof (live_agrees (foldl preload empty_fold es) empty_fold es (fold_rel_refl _)
                (journal_wf_indexed es Hwf) Hwf) as H.
  unfold newResolutionFold. destruct (fold_entries _ _ _) as [b|x], (register_all _ _ _) as [l|y]; try done.
  destruct H as [Hrel Hix]. split_and!.
  - intros ref. unfold isAbandoned, abandonFold. cbn.
    by rewrite (fr_bySeq _ _ Hrel), (fr_coverage _ _ Hrel).
  - by apply rel_open.
  - by apply rel_invalid.
  - intros s. apply (fr_classes _ _ Hrel).
  - intros s. by apply rel_state.
Qed.

(** *** The abandon fold of the readers *)

Lemma fold_entry_abandon f e f' :
  indexed f → fold_entry validate f e = Ok f' →
  (∀ t, abandon_target (rf_bySeq f) e = Some t → jm_get (targets f) (e_seq t) = None) →
  abandon_step (rf_bySeq f) (rf_coverage f) e = Ok (rf_coverage f').
Proof.
  intros Hix Hf Hns. rewrite abandon_step_target. unfold abandon_target in *.
  apply fold_entry_inv in Hf as [[Hk ->]|(Hk & g & c & Hg & ->)].
  { rewrite decide_False; [done|]. intros Hka. by rewrite Hka in Hk. }
  destruct (decide (e_kind e = KAbandon)) as [Hka|Hna].
  - unfold applyRef in Hg. rewrite decide_False in Hg by congruence. unfold applyAbandon, o2_target in Hg.
    destruct (e_ref e) as [ref|]; [|done]. cbn in *. destruct (_ <=? _)%N; [done|].
    destruct (rf_bySeq f !! ref) as [t|]; [|done]. unfold isCoveredEntry in Hg.
    destruct (isCovered (rf_coverage f) t); [by injection Hg as <- _|].
    rewrite (Hns t eq_refl) in Hg. cbn in Hg.
    destruct (cover (rf_coverage f) t) as [c'|]; [|done]. by injection Hg as <- _.
  - unfold applyRef in Hg. rewrite decide_True in Hg by (destruct (e_kind e); done).
    cbn. unfold applyResolution in Hg. repeat case_match; try done; by injection Hg as <- _.
Qed.

Definition suspended_targets f : Prop :=
  ∀ s st, jm_get (targets f) s = Some st → e_status (t_entry st) = StSuspended.

Lemma preload_suspended f q : suspended_targets f → suspended_targets (foldl preload f q).
Proof.
  revert f. induction q as [|e q IH]; intros f Hf; [done|]. cbn. apply IH. intros s st. cbn.
  case_decide; [rewrite jm_get_set; case_decide; [by intros [= <-]|]|]; apply Hf.
Qed.

Lemma suspended_applyRef f e : suspended_targets f → suspended_targets (applyRef validate f e).1.
Proof.
  intros Hf s st Hs. pose proof (applyRef_frame validate f e) as (_ & _ & _ & Hte).
  specialize (Hte s). rewrite Hs in Hte. destruct (jm_get (targets f) s) as [st'|] eqn:E; [|done].
  injection Hte as ->. by eapply Hf.
Qed.

Lemma fold_entries_abandon f es f' :
  indexed f → suspended_targets f → fold_entries validate f es = Ok f' →
  (∀ a t, a ∈ es → abandon_target (rf_bySeq f) a = Some t → e_status t ≠ StSuspended) →
  abandon_steps (rf_bySeq f) (rf_coverage f) es = Ok (rf_coverage f') ∧ rf_bySeq f' = rf_bySeq f.
Proof.
  revert f. induction es as [|e es IH]; intros f Hix Hst; cbn; [by intros [= <-]|].
  intros (f1 & He & Hes)%bind_ok Hns.
  assert (indexed f1 ∧ suspended_targets f1 ∧ rf_bySeq f1 = rf_bySeq f) as (Hix1 & Hst1 & Hb).
  { apply fold_entry_inv in He as [[_ ->]|(_ & g & c & Hg & ->)]; [done|].
    pose proof (indexed_applyRef f e Hix) as [? ?]. pose proof (suspended_applyRef f e Hst) as Hs.
    pose proof (applyRef_frame validate f e) as (Hbs & _). rewrite Hg in *. by repeat split. }
  rewrite (fold_entry_abandon f e f1 Hix He); cbn.
  - rewrite <- Hb. rewrite <- Hb in Hns. destruct (IH f1 Hix1 Hst1 Hes) as [-> ->]; [|done].
    intros a t Ha. apply Hns. by right.
  - intros t Ht. destruct (jm_get (targets f) (e_seq t)) as [st|] eqn:E; [exfalso|done].
    apply (Hns e t ltac:(left) Ht). pose proof (ix_targets _ Hix _ _ E) as Hx.
    apply abandon_target_in in Ht; [|apply Hix]. rewrite Hx in Ht. injection Ht as <-. by eapply Hst.
Qed.

(** The two abandon folds of the program agree on spawns.  When no abandon
    entry targets a suspended entry, the abandon fold the cost report, the
    invoice and the reconciliation build is the projection of the resolution
    fold that the replay predicate consumes. *)
Theorem abandon_folds_agree (es : list JournalEntry) f :
  journal_wf es → newResolutionFold validate es = Ok f →
  (∀ a t, a ∈ es → abandon_target (index_by_seq es) a = Some t → e_status t ≠ StSuspended) →
  buildAbandonFold es = Ok (abandonFold f).
Proof.
  intros Hwf Hf Hns. pose proof (journal_wf_indexed es Hwf) as Hix.
  pose proof (preload_index_gen es empty_fold) as Hb.
  change (foldl (fun m e => <[e_seq e := e]> m) (rf_bySeq empty_fold) es) with (index_by_seq es) in Hb.
  destruct (fold_entries_abandon (foldl preload empty_fold es) es f) as [Hs Hbf]; try done.
  - by apply preload_suspended.
  - by rewrite Hb.
  - unfold buildAbandonFold, abandonFold. rewrite Hbf. rewrite Hb in *.
    replace (rf_coverage (foldl preload empty_fold es)) with no_coverage in Hs
      by (symmetry; apply preload_frame).
    by rewrite Hs.
Qed.
End Live.

(** ** Examples *)

Definition any_schema (schema value : json) : bool * option string := (true, None).

Definition resolution_of (seq target : N) (value : json) : JournalEntry :=
  with_resolution (with_ref (base_entry seq "" "" KResolution StOk) target)
    (mkResolution target ByExternal value None None None).

Definition abandon_of (seq target : N) : JournalEntry :=
  with_abandon (with_ref (base_entry seq "" "" KAbandon StOk) target)
    (mkAbandon target 0 None None "" None None).

(** Two resolutions race for one suspension; the branch of another is abandoned. *)
Definition raced_journal : list JournalEntry :=
  [base_entry 0 "" "w" KExternal StSuspended;
   base_entry 1 "" "a" KAgent StRunning;
   base_entry 2 "agent:1" "p" KApproval StSuspended;
   resolution_of 3 0 (JStr "first");
   resolution_of 4 0 (JStr "second");
   abandon_of 5 1;
   resolution_of 6 2 (JStr "late")].

Lemma raced_journal_wf : journal_wf raced_journal.
Proof. split; repeat constructor; done. Qed.

Lemma applied_resolution_is_unique_witness :
  ∃ f, newResolutionFold any_schema raced_journal = Ok f ∧
    suspensionState f 0 = Resolved 3 (JStr "first") ∧
    classificationOf f 4 = Some (Noop 3 AlreadyResolved) ∧
    classificationOf f 6 = Some (Noop 5 TargetAbandoned).
Proof.
  eexists. split; [reflexivity|]. split; [|by split].
  edestruct (applied_resolution_is_unique any_schema raced_journal) as (ref & payload & Hr & Hp & Hs & _);
    [| reflexivity | | | |].
  - apply (bool_decide_eq_true_1 _). reflexivity.
  - do 3 right. left.
  - done.
  - done.
  - injection Hr as <-. injection Hp as <-. exact Hs.
Defined.

Lemma live_fold_is_reload_witness :
  journal_wf raced_journal ∧
  match newResolutionFold any_schema raced_journal, register_all any_schema empty_fold raced_journal with
  | Ok b, Ok l => openSuspensions b = openSuspensions l ∧ isAbandoned (abandonFold l) 2 = true
  | _, _ => False
  end.
Proof.
  split; [exact raced_journal_wf|].
  pose proof (live_fold_is_reload any_schema raced_journal raced_journal_wf) as H.
  destruct (newResolutionFold _ _) as [b|] eqn:Eb, (register_all _ _ _) as [l|] eqn:El; try done.
  destruct H as (Ha & Ho & _). split; [exact Ho|]. rewrite <- Ha.
  vm_compute in Eb. injection Eb as <-. reflexivity.
Defined.

Lemma abandon_folds_agree_witness :
  ∃ f, newResolutionFold any_schema raced_journal = Ok f ∧
    buildAbandonFold raced_journal = Ok (abandonFold f).
Proof.
  eexists. split; [reflexivity|].
  apply (abandon_folds_agree any_schema raced_journal); [exact raced_journal_wf | reflexivity |].
  intros a t Ha Ht. repeat (apply elem_of_cons in Ha as [->|Ha]; [vm_compute in Ht; try discriminate|]);
    [|by apply not_elem_of_nil in Ha].
  injection Ht as <-. done.
Defined.

(** An abandon of a suspension that a resolution closed: a noop of the
    resolution fold, coverage in the other. *)
Definition resolved_then_abandoned : list JournalEntry :=
  [base_entry 0 "" "w" KExternal StSuspended; resolution_of 1 0 JNull; abandon_of 2 0].

Lemma abandon_folds_differ :
  match newResolutionFold any_schema resolved_then_abandoned, buildAbandonFold resolved_then_abandoned with
  | Ok f, Ok g => isAbandoned (abandonFold f) 0 = false ∧ isAbandoned g 0 = true
  | _, _ => False
  end.
Proof. by split. Qed.

(** A suspension appended under an abandoned branch: open for the fold that
    was kept live, abandoned after a reload. *)
Definition suspended_under_abandoned : list JournalEntry :=
  [base_entry 0 "" "a" KAgent StRunning; abandon_of 1 0;
   base_entry 2 "agent:0" "p" KApproval StSuspended].

Lemma live_suspension_state_differs :
  match newResolutionFold any_schema suspended_under_abandoned,
        register_all any_schema empty_fold suspended_under_abandoned with
  | Ok b, Ok l => suspensionState b 2 = Abandoned 1 ∧ suspensionState l 2 = Suspended None
  | _, _ => False
  end.
Proof. by split. Qed.
