(* ===== verification/Replayer.v ===== *)
(** * The journal front end (packages/core/src/journal/replayer.ts)

    [Replayer]: matching, the append funnels, the serialized append queue, the
    resolution arbiter, the seal and the lost-append latch, as a state machine.
    An [Action] is a request of the program (which is checked, then queued), the
    execution of the queued operation at the head, or one of the synchronous
    calls.  The store is the list of durable entries; what [store.append] does
    with an entry is part of the action that runs it. *)
From S2P Require Import Prelude Json JsMap Entries Kinds Scope Identity Disposition Matching Resolution.

(** ** Errors and inputs *)

Inductive AppendError :=
  | JournalSealed
  | StrictAppend (kind : EntryKind)
  | ShapeViolation (issues : list ShapeIssue)
  | ShapeThrew (e : TypeError)
  | StoreThrew
  | NotRunning (seq : N)
  | NotSuspended (seq : N)
  | NoSuchEntry (seq : N)
  | FoldThrew (e : FoldError).

(** How [store.append] ends: stored, refused, or stored with the
    acknowledgement lost. *)
Inductive StoreOutcome := Stored | Refused | StoredUnacknowledged.

Record BaseAppend := mkBase {
  ba_scope : string;
  ba_key : string;
  ba_kind : EntryKind;
  ba_spanId : string;
}.

(** The patch of a terminal phase; the members no journal fold reads are in
    [tp_extras]. *)
Record TerminalPatch := mkPatch {
  tp_status : EntryStatus;
  tp_value : option json;
  tp_error : option WireError;
  tp_usage : option Usage;
  tp_servedBy : option string;
  tp_usageByModel : option (list UsageSlice);
  tp_providerCalls : option (list ProviderCallRecord);
  tp_checkpointRef : option string;
  tp_escalation : option json;
  tp_memoizeOutcome : option bool;
  tp_extras : list (string * json);
}.

(** The four lanes the seal closes. *)
Inductive Lane :=
  | LSinglePhase (input : BaseAppend) (value : option json) (usage : option Usage)
      (servedBy : option string)
  | LRunning (input : BaseAppend) (memoizeOutcome : option bool) (value : option json)
  | LTerminal (runningSeq : N) (patch : TerminalPatch)
  | LSuspended (input : BaseAppend) (deadlineAt : option string) (value : option json).

(** A request of the program. *)
Inductive Request :=
  | RLane (lane : Lane)
  | RResolve (target : N) (attempt : ResolutionAttempt)
  | RAbandon (attempt : AbandonAttempt).

(** A queued operation: a checked request, ref-entries with the scope and the
    span of their target. *)
Inductive Pending :=
  | PLane (lane : Lane)
  | PResolve (target : N) (scope spanId : string) (attempt : ResolutionAttempt)
  | PAbandon (scope spanId : string) (attempt : AbandonAttempt).

Inductive Reply :=
  | Appended (entry : JournalEntry)
  | Settled (entry : JournalEntry) (o : ResolutionOutcome).

(** ** State *)

Record Replayer := mkReplayer {
  strict : bool;
  entries : list JournalEntry;
  ordinals : gmap string N;
  matcher : JournalMatcher;
  foldInternal : ResolutionFold;
  invalidated : gset N;
  appendFailure : option AppendError;
  sealedInternal : bool;
  seq : N;
  queue : list Pending;
  waiting : list Pending;
  store : list JournalEntry;
}.

Definition nul : string := String (ascii_of_N 0) "".

Definition ordinalMapKey (scope : string) (hashVersion : N) (key : string) : string :=
  scope +:+ nul +:+ dec_of_N hashVersion +:+ nul +:+ key.

(** Whether an entry owns an ordinal of its (scope, key). *)
Definition owns_ordinal (entry : JournalEntry) : bool :=
  bool_decide (e_ref entry = None) && negb (is_ref_kind (e_kind entry)) &&
  bool_decide (e_hashVersion entry = CURRENT_HASH_VERSION).

Definition seed_seq (seq : N) (entry : JournalEntry) : N :=
  if (seq <=? e_seq entry)%N then e_seq entry + 1 else seq.

Definition seed_ordinal (ordinals : gmap string N) (entry : JournalEntry) : gmap string N :=
  if owns_ordinal entry then
    let ordinalKey := ordinalMapKey (e_scope entry) (e_hashVersion entry) (e_key entry) in
    let current := default 0%N (ordinals !! ordinalKey) in
    if (current <? e_ordinal entry + 1)%N then <[ordinalKey := (e_ordinal entry + 1)%N]> ordinals
    else ordinals
  else ordinals.

Section Replay.
Variable date_parse_is_nan : string → bool.
Variable validate : json → json → bool * option string.
Context {ring : KeyRing}.

Definition newReplayer (priors : list JournalEntry)
    (disposition : JournalOperation → ReplayDisposition) (strict : bool)
    : result FoldError Replayer :=
  fold ← newResolutionFold validate priors;
  Ok (mkReplayer strict priors (foldl seed_ordinal ∅ priors)
        (newJournalMatcher priors disposition) fold ∅ None false
        (foldl seed_seq 0%N priors) [] [] priors).

(** *** Functional updates *)

Definition set_matcher (r : Replayer) (m : JournalMatcher) : Replayer :=
  mkReplayer (strict r) (entries r) (ordinals r) m (foldInternal r) (invalidated r)
    (appendFailure r) (sealedInternal r) (seq r) (queue r) (waiting r) (store r).

Definition set_fold (r : Replayer) (f : ResolutionFold) : Replayer :=
  mkReplayer (strict r) (entries r) (ordinals r) (matcher r) f (invalidated r)
    (appendFailure r) (sealedInternal r) (seq r) (queue r) (waiting r) (store r).

Definition set_queues (r : Replayer) (q w : list Pending) : Replayer :=
  mkReplayer (strict r) (entries r) (ordinals r) (matcher r) (foldInternal r) (invalidated r)
    (appendFailure r) (sealedInternal r) (seq r) q w (store r).

(** [this.seq += 1], and the minted ordinal. *)
Definition bump (r : Replayer) (o : gmap string N) : Replayer :=
  mkReplayer (strict r) (entries r) o (matcher r) (foldInternal r) (invalidated r)
    (appendFailure r) (sealedInternal r) (seq r + 1) (queue r) (waiting r) (store r).

(** [this.appendFailure ??= { thrown }]. *)
Definition latch (r : Replayer) (e : AppendError) : Replayer :=
  mkReplayer (strict r) (entries r) (ordinals r) (matcher r) (foldInternal r) (invalidated r)
    (match appendFailure r with Some e0 => Some e0 | None => Some e end)
    (sealedInternal r) (seq r) (queue r) (waiting r) (store r).

Definition store_entry (r : Replayer) (entry : JournalEntry) : Replayer :=
  mkReplayer (strict r) (entries r) (ordinals r) (matcher r) (foldInternal r) (invalidated r)
    (appendFailure r) (sealedInternal r) (seq r) (queue r) (waiting r) (store r ++ [entry]).

Definition push_entry (r : Replayer) (entry : JournalEntry) : Replayer :=
  mkReplayer (strict r) (entries r ++ [entry]) (ordinals r) (matcher r) (foldInternal r)
    (invalidated r) (appendFailure r) (sealedInternal r) (seq r) (queue r) (waiting r) (store r).

(** *** Persisting *)

Definition register_persisted (f : ResolutionFold) (entry : JournalEntry) : ResolutionFold :=
  if decide (e_status entry = StSuspended) then registerSuspended f entry
  else if is_ref_kind (e_kind entry) then f
  else registerEntry f entry.

Definition persist (r : Replayer) (entry : JournalEntry) (o : StoreOutcome)
    : Replayer * result AppendError JournalEntry :=
  if strict r then (r, Err (StrictAppend (e_kind entry)))
  else
    match validateEntryShape date_parse_is_nan entry with
    | Err e => (latch r (ShapeThrew e), Err (ShapeThrew e))
    | Ok (i :: issues) => (latch r (ShapeViolation (i :: issues)), Err (ShapeViolation (i :: issues)))
    | Ok [] =>
        match o with
        | Refused => (latch r StoreThrew, Err StoreThrew)
        | StoredUnacknowledged => (latch (store_entry r entry) StoreThrew, Err StoreThrew)
        | Stored =>
            let r' := push_entry (store_entry r entry) entry in
            (set_fold r' (register_persisted (foldInternal r') entry), Ok entry)
        end
    end.

(** *** The append funnels *)

(** The ordinal [mint] hands out, and the counter it leaves. *)
Definition next_ordinal (r : Replayer) (scope key : string) : N :=
  default 0%N (ordinals r !! ordinalMapKey scope CURRENT_HASH_VERSION key).

Definition mint_ordinals (r : Replayer) (scope key : string) : gmap string N :=
  <[ordinalMapKey scope CURRENT_HASH_VERSION key := (next_ordinal r scope key + 1)%N]> (ordinals r).

(** [mint] followed by the members its caller sets. *)
Definition mint (r : Replayer) (input : BaseAppend) (status : EntryStatus) (now : string)
    (value : option json) (usage : option Usage) (servedBy : option string)
    (memoizeOutcome : option bool) (deadlineAt : option string) (endedAt : option string)
    : JournalEntry :=
  mkEntry CURRENT_HASH_VERSION (seq r) None (ba_scope input) (ba_key input)
    (next_ordinal r (ba_scope input) (ba_key input)) (ba_kind input) status value None usage
    servedBy None None None None None None memoizeOutcome deadlineAt (ba_spanId input) now
    endedAt [].

Definition minted (r : Replayer) (input : BaseAppend) : Replayer :=
  bump r (mint_ordinals r (ba_scope input) (ba_key input)).

Definition terminal_entry (r : Replayer) (running : JournalEntry) (patch : TerminalPatch)
    (now : string) : JournalEntry :=
  mkEntry (e_hashVersion running) (seq r) (Some (e_seq running)) (e_scope running) (e_key running)
    (e_ordinal running) (e_kind running) (tp_status patch) (tp_value patch) (tp_error patch)
    (tp_usage patch) (tp_servedBy patch) (tp_usageByModel patch) (tp_providerCalls patch)
    (tp_checkpointRef patch) (tp_escalation patch) None None (tp_memoizeOutcome patch) None
    (e_spanId running) (e_startedAt running) (Some now) (tp_extras patch).

Definition ref_entry (r : Replayer) (kind : EntryKind) (ref : N) (scope spanId : string)
    (resolution : option ResolutionPayload) (abandon : option AbandonPayload) (now : string)
    : JournalEntry :=
  mkEntry CURRENT_HASH_VERSION (seq r) (Some ref) scope "" 0 kind StOk None None None None None
    None None None resolution abandon None None spanId now None [].

Definition entry_with_seq (r : Replayer) (s : N) : option JournalEntry :=
  find_first (fun e => bool_decide (e_seq e = s)) (entries r).

(** The arbiter registers the ref-entry it persisted and settles the attempt. *)
Definition settle_ref (persisted : Replayer * result AppendError JournalEntry)
    (target : N) (fallback : NoopReason) : Replayer * result AppendError Reply :=
  match persisted with
  | (r', Err e) => (r', Err e)
  | (r', Ok entry) =>
      match settle validate (foldInternal r') entry target fallback with
      | (f, Ok o) => (set_fold r' f, Ok (Settled entry o))
      | (f, Err e) => (set_fold r' f, Err (FoldThrew e))
      end
  end.

Definition replied (p : Replayer * result AppendError JournalEntry)
    : Replayer * result AppendError Reply := (p.1, Appended <$> p.2).

(** The operation at the head of the queue. *)
Definition run_pending (r : Replayer) (p : Pending) (now : string) (o : StoreOutcome)
    : Replayer * result AppendError Reply :=
  match p with
  | PLane (LSinglePhase input value usage servedBy) =>
      replied (persist (minted r input)
        (mint r input StOk now value usage servedBy None None (Some now)) o)
  | PLane (LRunning input memoizeOutcome value) =>
      replied (persist (minted r input)
        (mint r input StRunning now value None None memoizeOutcome None None) o)
  | PLane (LSuspended input deadlineAt value) =>
      replied (persist (minted r input)
        (mint r input StSuspended now value None None None deadlineAt None) o)
  | PLane (LTerminal runningSeq patch) =>
      match entry_with_seq r runningSeq with
      | Some running =>
          if decide (e_status running = StRunning) then
            replied (persist (bump r (ordinals r)) (terminal_entry r running patch now) o)
          else (r, Err (NotRunning runningSeq))
      | None => (r, Err (NotRunning runningSeq))
      end
  | PResolve target scope spanId attempt =>
      settle_ref (persist (bump r (ordinals r))
        (ref_entry r KResolution target scope spanId
           (Some (resolution_payload target attempt)) None now) o) target AlreadyResolved
  | PAbandon scope spanId attempt =>
      settle_ref (persist (bump r (ordinals r))
        (ref_entry r KAbandon (ab_target attempt) scope spanId None
           (Some (abandon_payload attempt)) now) o) (ab_target attempt) TargetAbandoned
  end.

(** *** Submitting *)

Definition pending_target (p : Pending) : option N :=
  match p with
  | PLane _ => None
  | PResolve target _ _ _ => Some target
  | PAbandon _ _ attempt => Some (ab_target attempt)
  end.

(** A lane request goes to the append queue, behind the seal; an attempt goes
    to the per-target queue of the arbiter. *)
Definition submit (r : Replayer) (request : Request) : Replayer * result AppendError unit :=
  match request with
  | RLane lane =>
      if sealedInternal r then (r, Err JournalSealed)
      else (set_queues r (queue r ++ [PLane lane]) (waiting r), Ok tt)
  | RResolve target attempt =>
      match entry_with_seq r target with
      | Some t =>
          if decide (e_status t = StSuspended) then
            (set_queues r (queue r)
               (waiting r ++ [PResolve target (e_scope t) (e_spanId t) attempt]), Ok tt)
          else (r, Err (NotSuspended target))
      | None => (r, Err (NotSuspended target))
      end
  | RAbandon attempt =>
      match entry_with_seq r (ab_target attempt) with
      | Some t =>
          (set_queues r (queue r) (waiting r ++ [PAbandon (e_scope t) (e_spanId t) attempt]), Ok tt)
      | None => (r, Err (NoSuchEntry (ab_target attempt)))
      end
  end.

(** The arbiter starts the [i]-th waiting attempt, once the earlier attempts on
    its target have settled: its append enters the queue. *)
Definition enqueue_attempt (r : Replayer) (i : nat) : Replayer :=
  match waiting r !! i with
  | None => r
  | Some p =>
      let busy := map pending_target (queue r ++ take i (waiting r)) in
      if decide (pending_target p ∈ busy) then r
      else set_queues r (queue r ++ [p]) (take i (waiting r) ++ drop (S i) (waiting r))
  end.

Definition run_head (r : Replayer) (now : string) (o : StoreOutcome)
    : Replayer * option (result AppendError Reply) :=
  match queue r with
  | [] => (r, None)
  | p :: q =>
      let '(r', reply) := run_pending (set_queues r q (waiting r)) p now o in (r', Some reply)
  end.

(** *** Synchronous operations *)

Inductive MissError := JournalMiss (scope : string) (miss : MatchResult).

(** [match]: in replay-strict mode a result that would go live throws. *)
Definition match_ (r : Replayer) (scope : string) (identity : IdentityInput) (mode : MatchMode)
    : Replayer * result MissError MatchResult :=
  let '(res, m) := match_call (matcher r) scope identity mode in
  (set_matcher r m,
   if strict r then
     match res with
     | MLive | MRerun _ | MRerunDangling _ => Err (JournalMiss scope res)
     | _ => Ok res
     end
   else Ok res).

Definition invalidate (r : Replayer) (s : N) : Replayer :=
  mkReplayer (strict r) (entries r) (ordinals r) (matcher r) (foldInternal r)
    ({[s]} ∪ invalidated r) (appendFailure r) (sealedInternal r) (seq r) (queue r) (waiting r)
    (store r).

Definition seal (r : Replayer) : Replayer :=
  mkReplayer (strict r) (entries r) (ordinals r) (matcher r) (foldInternal r) (invalidated r)
    (appendFailure r) true (seq r) (queue r) (waiting r) (store r).

(** [flush], once the queue has drained. *)
Definition flush (r : Replayer) : result AppendError unit :=
  match appendFailure r with Some e => Err e | None => Ok tt end.

Definition resumeReport (r : Replayer) : ResumeReport :=
  let rep := report (matcher r) in
  let abandoned := List.filter (isAbandoned (abandonFold (foldInternal r))) (rep_orphaned rep) in
  mkReport (rep_hits rep) (rep_misses rep) (rep_skipped rep + N.of_nat (length abandoned))
    (rep_reruns rep)
    (List.filter (fun s => negb (isAbandoned (abandonFold (foldInternal r)) s)) (rep_orphaned rep)).

(** *** The machine *)

Inductive Action :=
  | ASubmit (request : Request)
  | AAdmit (i : nat)
  | ARun (now : string) (o : StoreOutcome)
  | AMatch (scope : string) (identity : IdentityInput) (mode : MatchMode)
  | AInvalidate (s : N)
  | AAlias (donorPrefix targetPrefix : string)
  | ASetDisposition (d : JournalOperation → ReplayDisposition)
  | ASetAliasDisposition (d : JournalOperation → ReplayDisposition)
  | ASeal.

Definition step (r : Replayer) (a : Action) : Replayer :=
  match a with
  | ASubmit request => (submit r request).1
  | AAdmit i => enqueue_attempt r i
  | ARun now o => (run_head r now o).1
  | AMatch scope identity mode => (match_ r scope identity mode).1
  | AInvalidate s => invalidate r s
  | AAlias donor target => set_matcher r (registerAlias (matcher r) donor target)
  | ASetDisposition d => set_matcher r (setDisposition (matcher r) d)
  | ASetAliasDisposition d => set_matcher r (setAliasDisposition (matcher r) d)
  | ASeal => seal r
  end.

Definition run (r : Replayer) (actions : list Action) : Replayer := foldl step r actions.
End Replay.

(** ** Facts about one step *)

Section Facts.
Variable date_parse_is_nan : string → bool.
Variable validate : json → json → bool * option string.
Context {ring : KeyRing}.
Implicit Types (r : Replayer) (e : JournalEntry).

Abbreviation shaped := (well_shaped date_parse_is_nan).
Abbreviation persist' := (persist date_parse_is_nan).
Abbreviation run_pending' := (run_pending date_parse_is_nan validate).
Abbreviation step' := (step date_parse_is_nan validate).
Abbreviation run' := (run date_parse_is_nan validate).

(** What one append attempt of the entry [e] may do: nothing (strict), latch a
    failure, lose the acknowledgement, or store the well-shaped entry. *)
Inductive persisted r e : Replayer → Prop :=
  | p_strict : strict r = true → persisted r e r
  | p_failed err : strict r = false → persisted r e (latch r err)
  | p_lost err : strict r = false → shaped e → persisted r e (latch (store_entry r e) err)
  | p_stored : strict r = false → shaped e →
      persisted r e (set_fold (push_entry (store_entry r e) e) (register_persisted (foldInternal r) e)).

Lemma persist_persisted r e o :
  persisted r e (persist' r e o).1 ∧
  match (persist' r e o).2 with
  | Ok e' => e' = e ∧ shaped e ∧
      (persist' r e o).1 =
        set_fold (push_entry (store_entry r e) e) (register_persisted (foldInternal r) e)
  | Err _ => entries (persist' r e o).1 = entries r ∧
      foldInternal (persist' r e o).1 = foldInternal r
  end.
Proof.
  unfold persist. destruct (strict r) eqn:Hs; [by split; [constructor|]|].
  destruct (validateEntryShape _ e) as [[|i issues]|x] eqn:Hv; cbn; try (by split; [constructor|]).
  apply validateEntryShape_accepts in Hv.
  destruct o; cbn; by split; [constructor|].
Qed.

(** The fields the append invariants speak of. *)
Record same_core r r' : Prop := {
  sc_strict : strict r' = strict r;
  sc_entries : entries r' = entries r;
  sc_store : store r' = store r;
  sc_seq : seq r' = seq r;
  sc_ordinals : ordinals r' = ordinals r;
  sc_failure : appendFailure r' = appendFailure r;
}.

(** How the entry being appended relates to the ordinal counters. *)
Inductive ordinal_use r e : gmap string N → Prop :=
  | use_minted scope key :
      e_scope e = scope → e_key e = key → e_hashVersion e = CURRENT_HASH_VERSION →
      e_ordinal e = next_ordinal r scope key → ordinal_use r e (mint_ordinals r scope key)
  | use_none : owns_ordinal e = false → ordinal_use r e (ordinals r).

(** The four ways an append attempt ends, on these fields. *)
Inductive append_result r e : bool → list JournalEntry → list JournalEntry → option AppendError → Prop :=
  | ar_strict : strict r = true → append_result r e true (entries r) (store r) (appendFailure r)
  | ar_failed err : strict r = false → append_result r e false (entries r) (store r) (Some err)
  | ar_lost err : strict r = false → shaped e →
      append_result r e false (entries r) (store r ++ [e]) (Some err)
  | ar_stored : strict r = false → shaped e →
      append_result r e false (entries r ++ [e]) (store r ++ [e]) (appendFailure r).

Record append_effect r e r' : Prop := {
  ae_seq : seq r' = (seq r + 1)%N;
  ae_entry : e_seq e = seq r;
  ae_ordinals : ordinal_use r e (ordinals r');
  ae_result : append_result r e (strict r') (entries r') (store r') (appendFailure r');
}.

Lemma persisted_effect r o e r1 :
  e_seq e = seq r → ordinal_use r e o → persisted (bump r o) e r1 → append_effect r e r1.
Proof.
  intros He Ho Hp. destruct Hp as [Hs|err Hs|err Hs Hsh|Hs Hsh]; split; cbn; try done;
    cbn in Hs; rewrite Hs; try (by constructor).
  - destruct (appendFailure r); by constructor.
  - destruct (appendFailure r); by constructor.
Qed.

Lemma effect_set_fold r e r1 f : append_effect r e r1 → append_effect r e (set_fold r1 f).
Proof. by intros []. Qed.

Lemma settle_ref_effect r e p target fallback :
  append_effect r e p.1 → append_effect r e (settle_ref validate p target fallback).1.
Proof.
  destruct p as [r' [entry|x]]; cbn; [|done]. intros He. unfold settle.
  destruct (registerRefEntry validate _ entry) as [f [c|y]]; cbn; by apply effect_set_fold.
Qed.

Definition is_attempt (p : Pending) : bool := match p with PLane _ => false | _ => true end.

(** A queued operation appends one entry, or is refused before any change. *)
Lemma run_pending_effect r p now o :
  (run_pending' r p now o).1 = r ∨
  ∃ e, append_effect r e (run_pending' r p now o).1 ∧
       (is_attempt p = true → is_ref_kind (e_kind e) = true).
Proof.
  destruct p as [[]| |]; cbn [run_pending].
  3: { destruct (entry_with_seq r runningSeq) as [running|]; [|by left].
       destruct (decide _); [|by left]. right. eexists. split.
       - eapply persisted_effect; [| |apply persist_persisted]; [done|]. by apply use_none.
       - done. }
  all: right; eexists; split;
    [first [apply settle_ref_effect | cbn [replied fst]];
     eapply persisted_effect; [| |apply persist_persisted]; [done|];
     first [by apply use_minted | by apply use_none] | done].
Qed.

Lemma append_effect_queues r q w e r' : append_effect (set_queues r q w) e r' → append_effect r e r'.
Proof.
  intros [Hs He Ho Hr]. split; [done|done| |].
  - destruct Ho as [scope key|]; [by apply (use_minted r e scope key)|by apply (use_none r e)].
  - destruct Hr; [by apply (ar_strict r e) | by apply (ar_failed r e)
      | by apply (ar_lost r e) | by apply (ar_stored r e)].
Qed.

Lemma step_effect r a :
  same_core r (step' r a) ∨
  ∃ e p, append_effect r e (step' r a) ∧ p ∈ queue r ∧
         (is_attempt p = true → is_ref_kind (e_kind e) = true).
Proof.
  destruct a; cbn [step]; try (by left).
  - left. unfold submit. repeat case_match; done.
  - left. unfold enqueue_attempt. repeat case_match; done.
  - unfold run_head. destruct (queue r) as [|p q]; [by left|].
    destruct (run_pending_effect (set_queues r q (waiting r)) p now o) as [He|(e & He & Hk)];
      destruct (run_pending' _ p now o) as [r' reply]; cbn in *.
    + left. by subst r'.
    + right. exists e, p. split; [by eapply append_effect_queues|]. split; [left|done].
  - left. unfold match_. by destruct (match_call _ _ _ _).
Qed.

(** ** Order and durability *)

Definition ordered (l : list JournalEntry) : Prop :=
  StronglySorted (fun a b : JournalEntry => e_seq a < e_seq b)%N l.

Record journal_inv (priors : list JournalEntry) r : Prop := {
  ji_new : ∃ new, store r = priors ++ new ∧ Forall shaped new;
  ji_ordered : ordered (store r);
  ji_below : Forall (fun e => e_seq e < seq r)%N (store r);
  ji_entries : sublist (entries r) (store r);
  ji_flushed : appendFailure r = None → entries r = store r;
}.

Lemma ordered_snoc l e : ordered l → Forall (fun x => e_seq x < e_seq e)%N l → ordered (l ++ [e]).
Proof.
  induction 1 as [|x l Hl IH Hx]; intros Hb; [by repeat constructor|].
  apply Forall_cons_1 in Hb as [Hb1 Hb2]. constructor; [by apply IH|].
  apply Forall_app. split; [done|by constructor].
Qed.

Lemma journal_inv_store priors r e l :
  journal_inv priors r → e_seq e = seq r → shaped e → l = store r ++ [e] →
  (∃ new, l = priors ++ new ∧ Forall shaped new) ∧ ordered l ∧
  Forall (fun x => e_seq x < seq r + 1)%N l.
Proof.
  intros [(new & Hn & Hs) Ho Hb _ _] He Hsh ->. split_and!.
  - exists (new ++ [e]). rewrite Hn, app_assoc. split; [done|]. apply Forall_app. by split; [|constructor].
  - apply ordered_snoc; [done|]. eapply Forall_impl; [exact Hb|]. cbn. lia.
  - apply Forall_app. split; [|constructor; [lia|done]]. eapply Forall_impl; [exact Hb|]. cbn. lia.
Qed.

Lemma journal_inv_step priors r a : journal_inv priors r → journal_inv priors (step' r a).
Proof.
  intros Hi. destruct (step_effect r a) as [[_ He Hst Hs _ Hf]|(e & _ & [Hs He _ Hr] & _)].
  - destruct Hi. by split; rewrite ?He, ?Hst, ?Hs, ?Hf.
  - assert (Forall (fun x => e_seq x < seq r + 1)%N (store r)) as Hb'.
    { eapply Forall_impl; [apply Hi|]. cbn. lia. }
    inversion Hr as [Hx Hb He' Hst' Hf' |err Hx Hb He' Hst' Hf'|err Hx Hsh Hb He' Hst' Hf'
      |Hx Hsh Hb He' Hst' Hf']; split; rewrite ?Hs, <- ?Hst', <- ?He', <- ?Hf'; try apply Hi; try done.
    all: try (eapply journal_inv_store; done).
    + by apply sublist_inserts_r, Hi.
    + apply sublist_app; [apply Hi|done].
    + intros Hnone. by rewrite (ji_flushed _ _ Hi Hnone).
Qed.

Lemma seed_seq_foldl l n :
  (n <= foldl seed_seq n l)%N ∧ Forall (fun e => e_seq e < foldl seed_seq n l)%N l.
Proof.
  revert n. induction l as [|e l IH]; intros n; cbn; [split; [lia|constructor]|].
  destruct (IH (seed_seq n e)) as [Hle Hall].
  assert (n <= seed_seq n e ∧ e_seq e < seed_seq n e)%N as [? ?]
    by (unfold seed_seq; destruct (N.leb_spec n (e_seq e)); lia).
  split; [lia|]. constructor; [lia|done].
Qed.

Lemma newReplayer_inv priors d s r :
  ordered priors → newReplayer validate priors d s = Ok r → journal_inv priors r.
Proof.
  intros Ho (f & _ & [= <-])%bind_ok. split; cbn; try done.
  - exists []. by rewrite app_nil_r.
  - apply seed_seq_foldl.
Qed.

Lemma run_invariant (P : Replayer → Prop) r actions :
  P r → (∀ r a, P r → P (step' r a)) → P (run' r actions).
Proof. intros HP Hstep. unfold run. revert r HP. induction actions; cbn; auto. Qed.

(** C1: the journal grows by appending well-shaped entries, in order.  After
    any interleaving of requests, queue runs, lost acknowledgements, matches
    and seals, the durable journal is the prior one followed by well-shaped
    entries, its sequence numbers strictly increase (a failed or unacknowledged
    append never frees its number), the entries the run works with are a
    sublist of the durable ones, and when [flush] reports no failure the two
    are equal. *)
Theorem journal_append_only (priors : list JournalEntry)
    (d : JournalOperation → ReplayDisposition) (s : bool) r0 (actions : list Action) :
  ordered priors → newReplayer validate priors d s = Ok r0 →
  let r := run' r0 actions in
  (∃ new, store r = priors ++ new ∧ Forall shaped new) ∧ ordered (store r) ∧
  sublist (entries r) (store r) ∧ (flush r = Ok tt → entries r = store r).
Proof.
  intros Ho Hr. assert (journal_inv priors (run' r0 actions)) as [H1 H2 H3 H4 H5].
  { apply run_invariant; [by eapply newReplayer_inv | intros; by apply journal_inv_step]. }
  split_and!; try done. unfold flush. destruct (appendFailure _); [done|]. auto.
Qed.

(** ** Identity *)

Definition id_triple (e : JournalEntry) : string * string * N := (e_scope e, e_key e, e_ordinal e).

Definition owned (l : list JournalEntry) : list JournalEntry := List.filter owns_ordinal l.

Record identity_inv r : Prop := {
  ii_unique : NoDup (map id_triple (owned (store r)));
  ii_below : ∀ e, e ∈ owned (store r) → (e_ordinal e < next_ordinal r (e_scope e) (e_key e))%N;
}.

Lemma owned_app l k : owned (l ++ k) = owned l ++ owned k.
Proof. apply List.filter_app. Qed.

(** An append attempt moves the counters up, past the ordinal it used. *)
Lemma ordinal_use_next r e r' :
  ordinal_use r e (ordinals r') →
  (∀ scope key, next_ordinal r scope key <= next_ordinal r' scope key)%N ∧
  (owns_ordinal e = true →
   (e_ordinal e = next_ordinal r (e_scope e) (e_key e) ∧
    e_ordinal e < next_ordinal r' (e_scope e) (e_key e))%N).
Proof.
  unfold next_ordinal at 2 4. intros Hu. inversion Hu as [scope key Hs Hk _ Ho Hm|Hno Hm].
  - unfold mint_ordinals. split.
    + intros scope' key'. rewrite lookup_insert. case_decide as Heq; cbn; [|done].
      unfold next_ordinal. rewrite Heq. cbn. lia.
    + intros _. rewrite Hs, Hk, lookup_insert_eq. cbn. lia.
  - split; [done|]. congruence.
Qed.

Lemma identity_inv_store r e r' :
  identity_inv r → ordinal_use r e (ordinals r') →
  store r' = store r ∨ store r' = store r ++ [e] → identity_inv r'.
Proof.
  intros [Hu Hb] [Hmono Hown]%ordinal_use_next Hst.
  assert (∀ x, x ∈ owned (store r) →
    (e_ordinal x < next_ordinal r' (e_scope x) (e_key x))%N) as Hold.
  { intros x Hx. specialize (Hb x Hx). specialize (Hmono (e_scope x) (e_key x)). lia. }
  destruct Hst as [Hst|Hst]; [by split; rewrite Hst|].
  split; rewrite Hst, owned_app; unfold owned at 2; cbn; destruct (owns_ordinal e) eqn:Hoe.
  2, 4: by rewrite app_nil_r.
  - destruct (Hown eq_refl) as [Ho _]. rewrite map_app. apply NoDup_app. split_and!; [done| |apply NoDup_singleton].
    intros t (x & -> & Hx)%list_elem_of_fmap Ht%list_elem_of_singleton. injection Ht as Hs Hk Hn.
    specialize (Hb x Hx). rewrite Hs, Hk in Hb. lia.
  - intros x [Hx|Hx]%elem_of_app; [by apply Hold|]. apply list_elem_of_singleton in Hx as ->.
    by apply Hown.
Qed.

Lemma identity_inv_step r a : identity_inv r → identity_inv (step' r a).
Proof.
  intros Hi. destruct (step_effect r a) as [[_ _ Hst _ Ho _]|(e & _ & [_ _ Ho Hr] & _)].
  - destruct Hi. split; unfold next_ordinal; by rewrite ?Hst, ?Ho.
  - eapply identity_inv_store; [done..|]. inversion Hr; auto.
Qed.

Lemma seed_ordinal_foldl l o :
  let o' := foldl seed_ordinal o l in
  (∀ k, default 0 (o !! k) <= default 0 (o' !! k))%N ∧
  ∀ e, e ∈ owned l →
    (e_ordinal e < default 0 (o' !! ordinalMapKey (e_scope e) CURRENT_HASH_VERSION (e_key e)))%N.
Proof.
  revert o. induction l as [|e l IH]; intros o; cbn; [split; [done|set_solver]|].
  destruct (IH (seed_ordinal o e)) as [Hle Hall].
  assert (∀ k, default 0 (o !! k) <= default 0 (seed_ordinal o e !! k))%N as Hseed.
  { intros k. unfold seed_ordinal. destruct (owns_ordinal e); [|done].
    destruct (N.ltb_spec (default 0%N (o !! ordinalMapKey (e_scope e) (e_hashVersion e) (e_key e)))
                (e_ordinal e + 1)); [|done].
    rewrite lookup_insert. case_decide as Hk; [|done]. subst k. cbn. lia. }
  split; [intros k; specialize (Hle k); specialize (Hseed k); lia|].
  destruct (owns_ordinal e) eqn:Ho; [|done].
  intros x [->|Hx]%elem_of_cons; [|by apply Hall].
  eapply N.lt_le_trans; [|apply Hle]. unfold seed_ordinal. rewrite Ho.
  unfold owns_ordinal in Ho. apply andb_prop in Ho as [_ Hv]. apply bool_decide_eq_true in Hv. rewrite Hv.
  destruct (N.ltb_spec (default 0%N (o !! ordinalMapKey (e_scope e) CURRENT_HASH_VERSION (e_key e)))
              (e_ordinal e + 1)); [rewrite lookup_insert_eq; cbn; lia|lia].
Qed.

(** The identity triple of an operation is unique, across resumes.  If no
    two dispatch entries of the prior journal share scope, key and ordinal, no
    two of the journal do after any run on it: the ordinals seeded from the
    prior entries continue, and a lost append never gives its ordinal back. *)
Theorem identity_triples_unique (priors : list JournalEntry)
    (d : JournalOperation → ReplayDisposition) (s : bool) r0 (actions : list Action) :
  NoDup (map id_triple (owned priors)) → newReplayer validate priors d s = Ok r0 →
  NoDup (map id_triple (owned (store (run' r0 actions)))).
Proof.
  intros Hnd (f & _ & [= <-])%bind_ok. apply ii_unique.
  apply run_invariant; [|intros; by apply identity_inv_step].
  split; cbn; [done|]. apply seed_ordinal_foldl.
Qed.

(** ** Replay-strict *)

(** A replay-strict preview is pure.  Whatever it is asked, its journal
    stays the prior one, no entry reaches the store, and a call that would go
    live or rerun is an error: a call that returns was served from the journal. *)
Theorem strict_replay_is_pure (priors : list JournalEntry)
    (d : JournalOperation → ReplayDisposition) r0 (actions : list Action) :
  newReplayer validate priors d true = Ok r0 →
  let r := run' r0 actions in
  store r = priors ∧ entries r = priors ∧
  ∀ scope identity mode,
    match (match_ r scope identity mode).2 with
    | Ok res => (∃ running terminal, res = MReplay running terminal) ∨
                (∃ running terminal, res = MSkip running terminal)
    | Err (JournalMiss at_ miss) => at_ = scope ∧ ∀ running terminal, miss ≠ MReplay running terminal
    end.
Proof.
  intros (f & _ & Hr)%bind_ok.
  destruct (run_invariant (fun r => strict r = true ∧ store r = priors ∧ entries r = priors)
              r0 actions) as (Hs & Hst & He).
  - by injection Hr as <-.
  - intros r a (Hs & Hst & He).
    destruct (step_effect r a) as [[Hs1 He1 Hst1 _ _ _]|(e & _ & [_ _ _ Hr'] & _)];
      [by split_and!; congruence|].
    inversion Hr'; try congruence. by split_and!; congruence.
  - cbn. split_and!; [done..|]. intros scope identity mode. unfold match_.
  destruct (match_call _ _ _ _) as [res m]. cbn. rewrite Hs. destruct res; eauto; split; done.
Qed.

(** ** The seal *)

Lemma persisted_queues r e r' :
  persisted r e r' →
  queue r' = queue r ∧ waiting r' = waiting r ∧ sealedInternal r' = sealedInternal r.
Proof. by destruct 1. Qed.

Lemma settle_ref_queues p target fallback :
  let r' := (settle_ref validate p target fallback).1 in
  queue r' = queue p.1 ∧ waiting r' = waiting p.1 ∧ sealedInternal r' = sealedInternal p.1.
Proof.
  destruct p as [r' [entry|x]]; [|done]. cbn. unfold settle.
  by destruct (registerRefEntry validate _ entry) as [f [c|y]].
Qed.

Lemma run_pending_queues r p now o :
  let r' := (run_pending' r p now o).1 in
  queue r' = queue r ∧ waiting r' = waiting r ∧ sealedInternal r' = sealedInternal r.
Proof.
  assert (∀ r1 e, queue r1 = queue r → waiting r1 = waiting r → sealedInternal r1 = sealedInternal r →
    queue (persist' r1 e o).1 = queue r ∧ waiting (persist' r1 e o).1 = waiting r ∧
    sealedInternal (persist' r1 e o).1 = sealedInternal r) as Hp.
  { intros r1 e <- <- <-. eapply persisted_queues, persist_persisted. }
  cbn zeta. destruct p as [[]| |]; cbn [run_pending]; try (by apply Hp).
  - repeat case_match; [by apply Hp|done..].
  - match goal with |- context [settle_ref validate ?p ?t ?f] =>
      destruct (settle_ref_queues p t f) as (-> & -> & ->) end. by apply Hp.
  - match goal with |- context [settle_ref validate ?p ?t ?f] =>
      destruct (settle_ref_queues p t f) as (-> & -> & ->) end. by apply Hp.
Qed.

Definition attempts (l : list Pending) : Prop := Forall (fun p => is_attempt p = true) l.

(** Waiting attempts are attempts; once sealed, nothing else enters the queue. *)
Lemma step_attempts r a :
  attempts (waiting r) →
  attempts (waiting (step' r a)) ∧
  (sealedInternal r = true → attempts (queue r) →
   sealedInternal (step' r a) = true ∧ attempts (queue (step' r a))).
Proof.
  unfold attempts. intros Hw. destruct a; cbn [step]; try done.
  - unfold submit. destruct request as [lane|target attempt|attempt].
    + destruct (sealedInternal r) eqn:Hs; cbn; [by rewrite Hs|by split].
    + repeat case_match; cbn; try done. split; [|done]. apply Forall_app. by split; [|constructor].
    + repeat case_match; cbn; try done. split; [|done]. apply Forall_app. by split; [|constructor].
  - unfold enqueue_attempt. destruct (waiting r !! i) as [p|] eqn:Hi; [|done]. destruct (decide _); [done|]. cbn.
    assert (is_attempt p = true) by (eapply Forall_lookup_1 in Hw; eauto).
    split; [apply Forall_app; split; [by apply Forall_take | by apply Forall_drop]|].
    intros Hs Hq. split; [exact Hs|]. apply Forall_app. by split; [|constructor].
  - unfold run_head. destruct (queue r) as [|p q] eqn:Hq; [cbn; by rewrite Hq || done|].
    destruct (run_pending_queues (set_queues r q (waiting r)) p now o) as (H1 & H2 & H3).
    destruct (run_pending' _ p now o) as [r' reply]. cbn in *. rewrite H1, H2, H3.
    split; [done|]. intros Hs Hall. apply Forall_cons_1 in Hall as [_ Hall]. done.
  - unfold match_. by destruct (match_call _ _ _ _).
Qed.

(** The seal.  Once a drained run is sealed by its settle, every lane that
    moves money or roster facts is refused, and whatever happens afterwards
    the journal grows by resolution and abandon entries only. *)
Theorem sealed_journal (priors : list JournalEntry)
    (d : JournalOperation → ReplayDisposition) (s : bool) r0 (before after : list Action) :
  newReplayer validate priors d s = Ok r0 → queue (run' r0 before) = [] →
  let sealed := run' r0 (before ++ [ASeal]) in
  let r := run' sealed after in
  (∀ lane, submit r (RLane lane) = (r, Err JournalSealed)) ∧
  ∃ new, store r = store sealed ++ new ∧ Forall (fun e => is_ref_kind (e_kind e) = true) new.
Proof.
  intros (f & _ & Hr)%bind_ok Hq sealed.
  assert (attempts (waiting (run' r0 before))) as Hw.
  { apply run_invariant; [by injection Hr as <-; constructor|]. intros r a Hr'. by apply step_attempts. }
  assert (sealed = seal (run' r0 before)) as Hsealed by (unfold sealed, run; by rewrite foldl_app).
  destruct (run_invariant (fun r => attempts (waiting r) ∧ sealedInternal r = true ∧ attempts (queue r) ∧
    ∃ new, store r = store sealed ++ new ∧ Forall (fun e => is_ref_kind (e_kind e) = true) new)
    sealed after) as (_ & Hs & _ & Hnew); [| |cbn; split; [|done]; intros lane; by rewrite Hs].
  {
rewrite Hsealed. cbn. rewrite Hq. split_and!; [done..|by constructor|]. exists [].
    by rewrite app_nil_r. }
  intros r a (Hw' & Hs & Hqa & new & Hn & Hk).
  destruct (step_attempts r a Hw') as [Hw2 Hq2]. destruct (Hq2 Hs Hqa) as [Hs2 Hqa2].
  split_and!; [done..|].
  destruct (step_effect r a) as [[_ _ -> _ _ _]|(e & p & [_ _ _ Hr'] & Hp & Hek)]; [by exists new|].
  assert (is_ref_kind (e_kind e) = true) as He.
  { apply Hek. unfold attempts in Hqa. rewrite Forall_forall in Hqa. by apply Hqa. }
  inversion Hr' as [| | |]; [by exists new..| |]; exists (new ++ [e]); rewrite Hn, app_assoc;
    (split; [done|]; apply Forall_app; by split; [|constructor]).
Qed.

(** ** The fold the run keeps is the fold a reload builds *)

(** What running one operation does to the entries and the fold: nothing, or one
    more entry, which the fold registers (a throw leaves the fold behind). *)
Definition fold_effect (target : option N) r r' : Prop :=
  (entries r' = entries r ∧ foldInternal r' = foldInternal r) ∨
  ∃ e, entries r' = entries r ++ [e] ∧ shaped e ∧ e_seq e = seq r ∧
    (is_ref_kind (e_kind e) = true → e_ref e = target) ∧
    match register validate (foldInternal r) e with
    | Ok f => foldInternal r' = f
    | Err _ => True
    end.

Lemma register_plain f e :
  is_ref_kind (e_kind e) = false → register validate f e = Ok (register_persisted f e).
Proof. intros Hk. unfold register, register_persisted. rewrite Hk. by case_decide. Qed.

(** A shaped entry of a lane is not a ref-entry: it lacks their payload. *)
Lemma shaped_not_ref e :
  shaped e → e_resolution e = None → e_abandon e = None → is_ref_kind (e_kind e) = false.
Proof.
  intros [_ _ Hr Ha _ _ _ _ _] Hnr Hna. destruct (e_kind e) eqn:Hk; try done.
  - destruct (Hr eq_refl). congruence.
  - destruct (Ha eq_refl). congruence.
Qed.

Lemma persist_lane_fold r0 r e o t :
  entries r = entries r0 → foldInternal r = foldInternal r0 → e_seq e = seq r0 →
  e_resolution e = None → e_abandon e = None → fold_effect t r0 (persist' r e o).1.
Proof.
  intros He Hf Hs Hr Ha. destruct (persist_persisted r e o) as [Hp _].
  destruct Hp as [| | |_ Hsh]; [by left..|]. right. exists e. cbn. rewrite He, Hf.
  pose proof (shaped_not_ref e Hsh Hr Ha) as Hk. rewrite register_plain by done.
  split_and!; try done. congruence.
Qed.

Lemma persist_ref_fold r0 r e o target fallback :
  entries r = entries r0 → foldInternal r = foldInternal r0 → e_seq e = seq r0 →
  e_status e = StOk → is_ref_kind (e_kind e) = true → e_ref e = Some target →
  fold_effect (Some target) r0 (settle_ref validate (persist' r e o) target fallback).1.
Proof.
  intros He Hf Hs Hst Hk Href. pose proof (persist_persisted r e o) as [Hp Hr].
  destruct (persist' r e o) as [r' [e'|x]]; cbn in *.
  - destruct Hr as (-> & Hsh & ->). right. exists e.
    assert (e_status e ≠ StSuspended) as Hns by congruence.
    unfold register, register_persisted, settle. rewrite !decide_False, Hk by done. cbn.
    rewrite <- Hf.
    destruct (registerRefEntry validate (foldInternal r) e) as [f [c|y]]; cbn; by rewrite He.
  - destruct Hr as [He' Hf']. left. by rewrite He', Hf'.
Qed.

Lemma run_pending_fold r p now o : fold_effect (pending_target p) r (run_pending' r p now o).1.
Proof.
  destruct p as [[]| |]; cbn [run_pending replied fst]; try (by apply persist_lane_fold).
  - destruct (entry_with_seq r runningSeq) as [running|]; [|by left].
    destruct (decide _); [|by left]. by apply persist_lane_fold.
  - by apply persist_ref_fold.
  - by apply persist_ref_fold.
Qed.

Lemma step_fold r a :
  (entries (step' r a) = entries r ∧ foldInternal (step' r a) = foldInternal r) ∨
  ∃ p, p ∈ queue r ∧ fold_effect (pending_target p) r (step' r a).
Proof.
  destruct a; cbn [step]; try (by left).
  - left. unfold submit. repeat case_match; done.
  - left. unfold enqueue_attempt. repeat case_match; done.
  - unfold run_head. destruct (queue r) as [|p q]; [by left|]. right. exists p. split; [left|].
    pose proof (run_pending_fold (set_queues r q (waiting r)) p now o) as H.
    by destruct (run_pending' _ p now o).
  - left. unfold match_. by destruct (match_call _ _ _ _).
Qed.

(** Each queued attempt targets an entry of the run. *)
Definition pending_known r : Prop :=
  ∀ p t, p ∈ queue r ++ waiting r → pending_target p = Some t → ∃ x, x ∈ entries r ∧ e_seq x = t.

Lemma entry_with_seq_Some r s x : entry_with_seq r s = Some x → x ∈ entries r ∧ e_seq x = s.
Proof. intros [Hx Hb]%find_first_Some. by apply bool_decide_eq_true in Hb. Qed.

(** The pending operations of a step: old ones, or a request on a known entry. *)
Lemma step_pending r a p :
  p ∈ queue (step' r a) ++ waiting (step' r a) →
  p ∈ queue r ++ waiting r ∨ pending_target p = None ∨
  ∃ x, x ∈ entries r ∧ pending_target p = Some (e_seq x).
Proof.
  destruct a; cbn [step]; try (by left).
  - unfold submit. destruct request as [lane|target attempt|attempt].
    + destruct (sealedInternal r); cbn; [by left|]. set_solver.
    + destruct (entry_with_seq r target) as [x|] eqn:E; cbn; [|by left].
      apply entry_with_seq_Some in E as [? ?]. destruct (decide _); cbn; [|by left].
      rewrite app_assoc. intros [?| ->%list_elem_of_singleton]%elem_of_app; [by left|].
      right; right. exists x. split; [done|]. cbn. congruence.
    + destruct (entry_with_seq r _) as [x|] eqn:E; cbn; [|by left].
      apply entry_with_seq_Some in E as [? ?].
      rewrite app_assoc. intros [?| ->%list_elem_of_singleton]%elem_of_app; [by left|].
      right; right. exists x. split; [done|]. cbn. congruence.
  - unfold enqueue_attempt. destruct (waiting r !! i) as [p'|] eqn:Hi; [|by left].
    destruct (decide _); [by left|]. cbn. intros Hp. left.
    apply list_elem_of_lookup_2 in Hi as Hin.
    assert (p ∈ take i (waiting r) ++ drop (S i) (waiting r) → p ∈ waiting r) as Hsub.
    { intros [Ht|Ht]%elem_of_app;
        [by eapply subseteq_take | by eapply subseteq_drop]. }
    set_solver.
  - unfold run_head. destruct (queue r) as [|p' q] eqn:Hq; [cbn; rewrite ?Hq; by left|].
    destruct (run_pending_queues (set_queues r q (waiting r)) p' now o) as (H1 & H2 & _).
    destruct (run_pending' _ p' now o) as [r' reply]. cbn in *. rewrite H1, H2. set_solver.
  - left. unfold match_ in *. by destruct (match_call _ _ _ _).
Qed.

(** The entries an abandon targets have a readable child scope. *)
Definition abandons_coverable (l : list JournalEntry) : Prop :=
  ∀ a t, a ∈ l → t ∈ l → e_kind a = KAbandon → e_ref a = Some (e_seq t) → coverable t.

Section Coherence.
Variables (priors : list JournalEntry) (f0 : ResolutionFold).
Hypothesis Hf0 : newResolutionFold validate priors = Ok f0.

Record coherent r : Prop := {
  co_fold : ∃ new, entries r = priors ++ new ∧ Forall shaped new ∧
              register_all validate f0 new = Ok (foldInternal r);
  co_below : Forall (fun e => e_seq e < seq r)%N (entries r);
  co_pending : pending_known r;
}.

Lemma index_lookup_in l s t : index_by_seq l !! s = Some t → t ∈ l.
Proof.
  unfold index_by_seq. induction l as [|e l IH] using rev_ind; cbn; [by rewrite lookup_empty|].
  rewrite foldl_app. cbn. intros [[_ <-]|[_ Ht]]%lookup_insert_Some; set_solver.
Qed.

Lemma index_lookup_some l x : x ∈ l → ∃ t, index_by_seq l !! e_seq x = Some t ∧ e_seq t = e_seq x.
Proof.
  unfold index_by_seq. induction l as [|e l IH] using rev_ind; cbn; [set_solver|].
  rewrite foldl_app. cbn. intros Hx. destruct (decide (e_seq e = e_seq x)) as [Heq|Hne].
  - exists e. rewrite Heq. by rewrite lookup_insert_eq.
  - rewrite lookup_insert_ne by done. apply IH. set_solver.
Qed.

Lemma coherent_bySeq r : coherent r → rf_bySeq (foldInternal r) = index_by_seq (entries r).
Proof.
  intros [(new & -> & _ & Hreg) _ _]. rewrite (register_all_bySeq _ _ _ _ Hreg).
  rewrite (newResolutionFold_bySeq _ _ _ Hf0). unfold index_by_seq. by rewrite foldl_app.
Qed.

Lemma step_seq_grows r a :
  (seq r <= seq (step' r a))%N ∧
  ((∃ e, entries (step' r a) = entries r ++ [e]) → seq (step' r a) = (seq r + 1)%N).
Proof.
  destruct (step_effect r a) as [[_ He _ -> _ _]|(e & _ & [-> _ _ _] & _)]; [|split; [lia|done]].
  split; [done|]. intros [e Hx]. rewrite He in Hx. apply (f_equal length) in Hx.
  rewrite length_app in Hx. cbn in Hx. lia.
Qed.

Lemma coherent_step r a :
  abandons_coverable (entries (step' r a)) → coherent r → coherent (step' r a).
Proof.
  intros Hcov Hco. destruct (step_seq_grows r a) as [Hgrow Hsucc].
  pose proof (coherent_bySeq r Hco) as Hidx. destruct Hco as [(new & Hnew & Hsh & Hreg) Hb Hpend].
  assert (entries r ⊆ entries (step' r a) → pending_known (step' r a)) as Hpk.
  { intros Hsub p t Hp Ht. destruct (step_pending r a p Hp) as [Hold|[Hn|(x & Hx & Hx')]].
    - destruct (Hpend p t Hold Ht) as (x & Hx & Hxs). exists x. split; [by apply Hsub|done].
    - congruence.
    - exists x. split; [by apply Hsub|congruence]. }
  destruct (step_fold r a) as [[He Hf]|(p & Hp & [[He Hf]|(e & He & Hse & Hes & Href & Hm)])].
  1, 2: split; rewrite ?He, ?Hf; [by exists new| |apply Hpk; by rewrite He];
    eapply Forall_impl; [exact Hb|]; cbn; lia.
  rewrite Hsucc in * by (by exists e).
  assert (∃ f, register validate (foldInternal r) e = Ok f) as [f Hrf].
  { destruct (is_ref_kind (e_kind e)) eqn:Hk; [|by rewrite register_plain; eauto].
    destruct (ws_ref_entry _ _ Hse Hk) as (s & Hrs & Hlt). rewrite Href in Hrs by done.
    destruct (Hpend p s) as (x & Hx & <-); [set_solver|done|].
    destruct (index_lookup_some _ _ Hx) as (t & Ht & Hts).
    apply (register_total validate _ e (e_seq x) t); [by rewrite Href by done|done|by rewrite Hidx|].
    intros Hka. apply (Hcov e t); rewrite ?He; try done; [set_solver| |].
    - apply index_lookup_in in Ht. set_solver.
    - by rewrite Href, Hts by done. }
  rewrite Hrf in Hm. split.
  - exists (new ++ [e]). rewrite He, Hnew, app_assoc. split_and!; [done| |].
    + apply Forall_app. by split; [|constructor].
    + rewrite register_all_app, Hreg. cbn. by rewrite Hrf, Hm.
  - rewrite He, Hsucc by (by exists e). apply Forall_app. split; [|constructor; [lia|done]].
    eapply Forall_impl; [exact Hb|]. cbn. lia.
  - apply Hpk. rewrite He. set_solver.
Qed.
End Coherence.

Lemma ordered_sublist l k : sublist l k → ordered k → ordered l.
Proof.
  induction 1 as [|x l k Hs IH|x l k Hs IH]; intros Hord; [done| |].
  - apply StronglySorted_inv in Hord as [Ho Hx]. constructor; [by apply IH|].
    rewrite Forall_forall in *. intros y Hy. apply Hx. by eapply elem_of_sublist.
  - apply StronglySorted_inv in Hord as [Ho _]. by apply IH.
Qed.

Lemma shaped_ref_not_suspended e :
  shaped e → is_ref_kind (e_kind e) = true → e_status e ≠ StSuspended.
Proof.
  intros [(legal & Hl & Hin) _ _ _ _ _ _ _ _] Hk Hst.
  destruct (e_kind e); try done; cbn in Hl; injection Hl as <-; rewrite Hst in Hin; set_solver.
Qed.

End Facts.

(** ** A run

    An agent is dispatched, its approval suspends, the approval is answered
    twice, one append is lost, and the run settles and is sealed. *)

Definition no_dates (d : string) : bool := false.

Definition demo_base (kind : EntryKind) (scope key : string) : BaseAppend := mkBase scope key kind "s".

Definition demo_attempt (answer : string) : ResolutionAttempt :=
  mkResolutionAttempt ByExternal (JStr answer) None.

Definition demo_priors : list JournalEntry := [base_entry 0 "" "k" KAgent StRunning].

Definition demo_actions : list Action :=
  [ASubmit (RLane (LRunning (demo_base KAgent "" "k") None None)); ARun "t1" Stored;
   ASubmit (RLane (LSuspended (demo_base KApproval "agent:1" "p") None None)); ARun "t2" Stored;
   ASubmit (RResolve 2 (demo_attempt "yes")); ASubmit (RResolve 2 (demo_attempt "no"));
   AAdmit 0; AAdmit 0; ARun "t3" Stored; AAdmit 0; ARun "t4" Stored].

Definition demo_lost : list Action :=
  demo_actions ++
  [ASubmit (RLane (LRunning (demo_base KAgent "" "k") None None)); ARun "t5" StoredUnacknowledged;
   ASubmit (RLane (LRunning (demo_base KAgent "" "k") None None)); ARun "t6" Stored].

Definition demo_replayer (s : bool) : Replayer :=
  match newReplayer any_schema demo_priors roundOneDisposition s with
  | Ok r => r
  | Err _ => mkReplayer s [] ∅ (newJournalMatcher [] roundOneDisposition) empty_fold ∅ None false 0 [] [] []
  end.

Abbreviation demo_run s actions :=
  (run (ring := key_ring_example) no_dates any_schema (demo_replayer s) actions).

Lemma demo_priors_ordered : ordered demo_priors.
Proof. by repeat constructor. Qed.

Lemma journal_append_only_witness :
  let r := demo_run false demo_lost in
  ordered (store r) ∧ map e_seq (store r) = [0; 1; 2; 3; 4; 5; 6]%N ∧
  map e_seq (entries r) = [0; 1; 2; 3; 4; 6]%N.
Proof.
  cbn zeta. split; [|by split].
  apply (journal_append_only (ring := key_ring_example) no_dates any_schema demo_priors
    roundOneDisposition false (demo_replayer false) demo_lost demo_priors_ordered eq_refl).
Defined.

Lemma identity_triples_unique_witness :
  NoDup (map id_triple (owned (store (demo_run false demo_lost)))) ∧
  map id_triple (owned (store (demo_run false demo_lost))) =
    [("", "k", 0); ("", "k", 1); ("agent:1", "p", 0); ("", "k", 2); ("", "k", 3)]%N.
Proof.
  split; [|reflexivity].
  apply (identity_triples_unique (ring := key_ring_example) no_dates any_schema demo_priors
    roundOneDisposition false (demo_replayer false) demo_lost); [|reflexivity].
  by repeat constructor; intros ?%not_elem_of_nil.
Defined.

Lemma strict_replay_is_pure_witness :
  store (demo_run true demo_lost) = demo_priors ∧ seq (demo_run true demo_lost) = 5%N.
Proof.
  split; [|reflexivity].
  apply (strict_replay_is_pure (ring := key_ring_example) no_dates any_schema demo_priors
    roundOneDisposition (demo_replayer true) demo_lost eq_refl).
Defined.

Lemma sealed_journal_witness :
  let sealed := demo_run false (demo_actions ++ [ASeal]) in
  let r := run (ring := key_ring_example) no_dates any_schema sealed
             [ASubmit (RLane (LRunning (demo_base KAgent "" "k") None None)); ARun "t7" Stored] in
  store r = store sealed ∧
  submit r (RLane (LRunning (demo_base KAgent "" "k") None None)) = (r, Err JournalSealed).
Proof.
  cbn zeta. split; [vm_compute; reflexivity|].
  assert (queue (demo_run false demo_actions) = []) as Hq by (vm_compute; reflexivity).
  exact (proj1 (sealed_journal (ring := key_ring_example) no_dates any_schema demo_priors
    roundOneDisposition false (demo_replayer false) demo_actions
    [ASubmit (RLane (LRunning (demo_base KAgent "" "k") None None)); ARun "t7" Stored]
    eq_refl Hq) _).
Defined.

