(* ===== verification/Usage.v ===== *)
(** * Usage telemetry (packages/core/src/l0/usage.ts)

    Token counts as an adapter reports them ([RawUsage]: any JavaScript number,
    or something else), the rules that accept them, the repair that makes them
    safe to account, and the addition of accounted usages ([Usage], whose
    counts are integers).  The additions of accounted usages are exact, which
    the code's binary64 additions are while every total stays within 2^53. *)
From S2P Require Import Prelude Json Entries.

(** ** Raw counts *)

(** What [usage[field]] may hold.  [Fraction n d] is a finite number that is not
    an integer, [n/d]. *)
Inductive raw :=
  | Undefined
  | NotNumber
  | NotANumber
  | Infinite (negative : bool)
  | Whole (z : Z)
  | Fraction (num : Z) (den : positive).

Record RawUsage := mkRaw {
  r_inputTokens : raw;
  r_outputTokens : raw;
  r_cacheReadTokens : raw;
  r_cacheWriteTokens : raw;
  r_reasoningTokens : raw;
  r_cacheWrite5mTokens : raw;
  r_cacheWrite1hTokens : raw;
}.

Definition MAX_SAFE_INTEGER : Z := 2 ^ 53 - 1.

Inductive CountField :=
  | FInput | FOutput | FCacheRead | FCacheWrite | FReasoning | FWrite5m | FWrite1h.

Definition COUNT_FIELDS : list CountField :=
  [FInput; FOutput; FCacheRead; FCacheWrite; FReasoning; FWrite5m; FWrite1h].

Definition OPTIONAL_COUNT_FIELDS (f : CountField) : bool :=
  match f with FReasoning | FWrite5m | FWrite1h => true | _ => false end.

Definition field (u : RawUsage) (f : CountField) : raw :=
  match f with
  | FInput => r_inputTokens u
  | FOutput => r_outputTokens u
  | FCacheRead => r_cacheReadTokens u
  | FCacheWrite => r_cacheWriteTokens u
  | FReasoning => r_reasoningTokens u
  | FWrite5m => r_cacheWrite5mTokens u
  | FWrite1h => r_cacheWrite1hTokens u
  end.

(** ** The rules *)

Inductive Violation :=
  | NotFinite (f : CountField)
  | Negative (f : CountField)
  | Fractional (f : CountField)
  | BeyondSafe (f : CountField)
  | SubsetRule
  | SplitRule.

Definition count_violation (f : CountField) (value : raw) : option Violation :=
  match value with
  | Undefined => if OPTIONAL_COUNT_FIELDS f then None else Some (NotFinite f)
  | NotNumber | NotANumber | Infinite _ => Some (NotFinite f)
  | Whole z =>
      if (z <? 0)%Z then Some (Negative f)
      else if (MAX_SAFE_INTEGER <? z)%Z then Some (BeyondSafe f) else None
  | Fraction n d => if (n <? 0)%Z then Some (Negative f) else Some (Fractional f)
  end.

(** A nonnegative safe integer. *)
Definition safe_count (value : raw) : option Z :=
  match value with
  | Whole z => if (0 <=? z)%Z && (z <=? MAX_SAFE_INTEGER)%Z then Some z else None
  | _ => None
  end.

(** [value ?? 0]. *)
Definition or_zero (value : raw) : raw :=
  match value with Undefined => Whole 0 | v => v end.

Definition is_undefined (value : raw) : bool :=
  match value with Undefined => true | _ => false end.

Section Violations.
(** [a >= b + c] and [a + b === c] on operands one of which already breaks a
    count rule: IEEE arithmetic on garbage, whose outcome adds a message to a
    list that is not empty. *)
Variable garbage_ge_sum garbage_sum_eq : raw → raw → raw → bool.

(** [inputTokens >= cacheReadTokens + cacheWriteTokens].  The sum of two safe
    integers is rounded to binary64. *)
Definition ge_sum (a b c : raw) : bool :=
  match safe_count a, safe_count b, safe_count c with
  | Some x, Some y, Some z => (Z.of_N (double_of_N (Z.to_N (y + z))) <=? x)%Z
  | _, _, _ => garbage_ge_sum a b c
  end.

Definition sum_eq (a b c : raw) : bool :=
  match safe_count a, safe_count b, safe_count c with
  | Some x, Some y, Some z => (Z.of_N (double_of_N (Z.to_N (x + y))) =? z)%Z
  | _, _, _ => garbage_sum_eq a b c
  end.

Definition usageViolations (u : RawUsage) : list Violation :=
  omap (fun f => count_violation f (field u f)) COUNT_FIELDS ++
  (if ge_sum (r_inputTokens u) (r_cacheReadTokens u) (r_cacheWriteTokens u)
   then [] else [SubsetRule]) ++
  (if negb (is_undefined (r_cacheWrite5mTokens u)) || negb (is_undefined (r_cacheWrite1hTokens u))
   then if sum_eq (or_zero (r_cacheWrite5mTokens u)) (or_zero (r_cacheWrite1hTokens u))
             (r_cacheWriteTokens u) then [] else [SplitRule]
   else []).
End Violations.

(** ** The repair *)

(** [Math.ceil(n / d)] for a positive fraction. *)
Definition ceil_div (n : Z) (d : positive) : Z := (n + Z.pos d - 1) / Z.pos d.

Definition sanitizeTokenCount (value : raw) : Z :=
  match value with
  | Whole z => if (z <=? 0)%Z then 0 else Z.min z MAX_SAFE_INTEGER
  | Fraction n d => if (n <=? 0)%Z then 0 else Z.min (ceil_div n d) MAX_SAFE_INTEGER
  | _ => 0
  end.

Definition sanitize_optional (value : raw) : option Z :=
  if is_undefined value then None else Some (sanitizeTokenCount value).

(** One read per field: the detached copy both accounting boundaries work on. *)
Definition snapshotUsage (usage : RawUsage) : RawUsage :=
  mkRaw (r_inputTokens usage) (r_outputTokens usage) (r_cacheReadTokens usage)
    (r_cacheWriteTokens usage) (r_reasoningTokens usage) (r_cacheWrite5mTokens usage)
    (r_cacheWrite1hTokens usage).

Definition sanitizeUsageDelta (delta : RawUsage) : Usage :=
  let snapshot := snapshotUsage delta in
  mkUsage (sanitizeTokenCount (r_inputTokens snapshot)) (sanitizeTokenCount (r_outputTokens snapshot))
    (sanitizeTokenCount (r_cacheReadTokens snapshot)) (sanitizeTokenCount (r_cacheWriteTokens snapshot))
    (sanitize_optional (r_reasoningTokens snapshot)) (sanitize_optional (r_cacheWrite5mTokens snapshot))
    (sanitize_optional (r_cacheWrite1hTokens snapshot)).

Definition validShare (value : raw) : bool :=
  is_undefined value || bool_decide (is_Some (safe_count value)).

(** The share of a valid split, kept as it is. *)
Definition kept_share (value : raw) : option Z :=
  match value with Whole z => Some z | _ => None end.

Definition share_or_zero (value : raw) : Z := default 0%Z (kept_share value).

(** The TTL split of the repaired usage: absent, kept, or rebuilt. *)
Definition sanitize_split (write5m write1h : raw) (cacheWriteTokens : Z) : option Z * option Z :=
  if negb (is_undefined write5m) || negb (is_undefined write1h) then
    if validShare write5m && validShare write1h &&
       (Z.of_N (double_of_N (Z.to_N (share_or_zero write5m + share_or_zero write1h)))
        =? cacheWriteTokens)%Z
    then (kept_share write5m, kept_share write1h)
    else
      let w := Z.min (sanitizeTokenCount write1h) cacheWriteTokens in
      (Some (cacheWriteTokens - w)%Z, Some w)
  else (None, None).

Definition sanitizeUsage (usage : RawUsage) : Usage :=
  let inputTokens := sanitizeTokenCount (r_inputTokens usage) in
  let cacheReadTokens := Z.min (sanitizeTokenCount (r_cacheReadTokens usage)) inputTokens in
  let cacheWriteTokens :=
    Z.min (sanitizeTokenCount (r_cacheWriteTokens usage)) (inputTokens - cacheReadTokens) in
  let '(write5m, write1h) :=
    sanitize_split (r_cacheWrite5mTokens usage) (r_cacheWrite1hTokens usage) cacheWriteTokens in
  mkUsage inputTokens (sanitizeTokenCount (r_outputTokens usage)) cacheReadTokens cacheWriteTokens
    (sanitize_optional (r_reasoningTokens usage)) write5m write1h.

(** ** Addition *)

Definition oneH (u : Usage) : Z := default 0%Z (cacheWrite1hTokens u).
Definition fiveM (u : Usage) : Z :=
  default (Z.max 0 (cacheWriteTokens u - oneH u)) (cacheWrite5mTokens u).

Definition differentiated (u : Usage) : bool :=
  bool_decide (is_Some (cacheWrite5mTokens u)) || bool_decide (is_Some (cacheWrite1hTokens u)).

Definition sumUsage (total turn : Usage) : Usage :=
  let reasoning := (default 0 (reasoningTokens total) + default 0 (reasoningTokens turn))%Z in
  let split := differentiated total || differentiated turn in
  mkUsage (inputTokens total + inputTokens turn) (outputTokens total + outputTokens turn)
    (cacheReadTokens total + cacheReadTokens turn) (cacheWriteTokens total + cacheWriteTokens turn)
    (if (0 <? reasoning)%Z then Some reasoning else None)
    (if split then Some (fiveM total + fiveM turn)%Z else None)
    (if split then Some (oneH total + oneH turn)%Z else None).

Definition zero_usage : Usage := mkUsage 0 0 0 0 None None None.

(** ** The canonical invariant *)

Definition count_ok (z : Z) : Prop := (0 <= z)%Z.
Definition opt_ok (o : option Z) : Prop := match o with Some z => count_ok z | None => True end.

(** A usage the money folds may see. *)
Record canonical (u : Usage) : Prop := {
  cn_input : count_ok (inputTokens u);
  cn_output : count_ok (outputTokens u);
  cn_read : count_ok (cacheReadTokens u);
  cn_write : count_ok (cacheWriteTokens u);
  cn_reasoning : opt_ok (reasoningTokens u);
  cn_5m : opt_ok (cacheWrite5mTokens u);
  cn_1h : opt_ok (cacheWrite1hTokens u);
  cn_subset : (cacheReadTokens u + cacheWriteTokens u <= inputTokens u)%Z;
  cn_split : differentiated u = true →
    (default 0 (cacheWrite5mTokens u) + default 0 (cacheWrite1hTokens u))%Z = cacheWriteTokens u;
}.

(** A usage within the safe integers. *)
Definition within_safe (u : Usage) : Prop :=
  (inputTokens u <= MAX_SAFE_INTEGER ∧ outputTokens u <= MAX_SAFE_INTEGER ∧
   default 0 (reasoningTokens u) <= MAX_SAFE_INTEGER)%Z.

(** A usage as the numbers of the wire. *)
Definition raw_opt (o : option Z) : raw := match o with Some z => Whole z | None => Undefined end.

Definition to_raw (u : Usage) : RawUsage :=
  mkRaw (Whole (inputTokens u)) (Whole (outputTokens u)) (Whole (cacheReadTokens u))
    (Whole (cacheWriteTokens u)) (raw_opt (reasoningTokens u)) (raw_opt (cacheWrite5mTokens u))
    (raw_opt (cacheWrite1hTokens u)).

(** ** Lemmas *)

Lemma sanitize_range v : (0 <= sanitizeTokenCount v <= MAX_SAFE_INTEGER)%Z.
Proof.
  unfold sanitizeTokenCount, MAX_SAFE_INTEGER. destruct v as [| | | |z|n d]; try lia.
  - destruct (Z.leb_spec z 0); lia.
  - destruct (Z.leb_spec n 0) as [|Hn]; [lia|]. unfold ceil_div.
    assert (0 <= (n + Z.pos d - 1) / Z.pos d)%Z by (apply Z.div_pos; lia). lia.
Qed.

Lemma sanitize_whole z : (0 <= z <= MAX_SAFE_INTEGER)%Z → sanitizeTokenCount (Whole z) = z.
Proof. intros H. unfold sanitizeTokenCount. destruct (Z.leb_spec z 0); lia. Qed.

Lemma safe_count_Some v z : safe_count v = Some z ↔ v = Whole z ∧ (0 <= z <= MAX_SAFE_INTEGER)%Z.
Proof.
  destruct v as [| | | |w|]; cbn; try (split; [done|by intros []]).
  destruct (Z.leb_spec 0 w), (Z.leb_spec w MAX_SAFE_INTEGER); cbn; split.
  all: first [intros [= <-]; split; [done|lia] | intros [[= <-] ?]; done || lia | done].
Qed.

Lemma count_violation_None f v :
  count_violation f v = None ↔ is_Some (safe_count v) ∨ (v = Undefined ∧ OPTIONAL_COUNT_FIELDS f = true).
Proof.
  destruct v; cbn.
  - destruct (OPTIONAL_COUNT_FIELDS f); split; auto; try done. intros [[? ?]|[_ ?]]; done.
  - split; [done|]. intros [[? ?]|[? _]]; done.
  - split; [done|]. intros [[? ?]|[? _]]; done.
  - split; [done|]. intros [[? ?]|[? _]]; done.
  - destruct (Z.ltb_spec z 0), (Z.ltb_spec MAX_SAFE_INTEGER z), (Z.leb_spec 0 z),
      (Z.leb_spec z MAX_SAFE_INTEGER); cbn; try lia; split; try done; eauto; intros [[? ?]|[? _]]; done.
  - destruct (Z.ltb_spec num 0); split; try done; intros [[? ?]|[? _]]; done.
Qed.

(** Rounding a sum of safe integers never moves it across a safe integer. *)
Lemma double_sum y z :
  (0 <= y <= MAX_SAFE_INTEGER → 0 <= z <= MAX_SAFE_INTEGER →
   let s := Z.of_N (double_of_N (Z.to_N (y + z))) in
   (s = y + z ∧ y + z <= MAX_SAFE_INTEGER) ∨ (MAX_SAFE_INTEGER < s ∧ MAX_SAFE_INTEGER < y + z))%Z.
Proof.
  intros Hy Hz s. unfold MAX_SAFE_INTEGER in *.
  destruct (N.lt_ge_cases (Z.to_N (y + z)) (2 ^ 53)) as [Hlt|Hge].
  - left. unfold s. rewrite double_of_N_small by done. lia.
  - right. split; [|lia]. unfold s.
    destruct (N.lt_ge_cases (double_of_N (Z.to_N (y + z))) (2 ^ 53)) as [Hd|Hd]; [|lia].
    pose proof (double_of_N_small_inv _ Hd) as He. rewrite He in Hd. lia.
Qed.

(** ** Theorems *)

Section Theorems.
Variable garbage_ge_sum garbage_sum_eq : raw → raw → raw → bool.
Abbreviation violations := (usageViolations garbage_ge_sum garbage_sum_eq).

Lemma counts_nil u :
  omap (fun f => count_violation f (field u f)) COUNT_FIELDS = [] ↔
  ∀ f, is_Some (safe_count (field u f)) ∨ (field u f = Undefined ∧ OPTIONAL_COUNT_FIELDS f = true).
Proof.
  setoid_rewrite <- count_violation_None. split.
  - intros H f. destruct (count_violation f (field u f)) as [v|] eqn:E; [|done]. exfalso.
    assert (v ∈ omap (fun f => count_violation f (field u f)) COUNT_FIELDS) as Hv.
    { apply list_elem_of_omap. exists f. split; [|done]. destruct f; set_solver. }
    rewrite H in Hv. by apply not_elem_of_nil in Hv.
  - intros H. unfold COUNT_FIELDS. cbn [omap list_omap]. by rewrite !H.
Qed.

Lemma raw_opt_safe v :
  is_Some (safe_count v) ∨ v = Undefined → ∃ o, v = raw_opt o ∧
    match o with Some z => (0 <= z <= MAX_SAFE_INTEGER)%Z | None => True end.
Proof.
  intros [[z Hz]| ->]; [|by exists None]. apply safe_count_Some in Hz as [-> ?]. by exists (Some z).
Qed.

Lemma safe_whole z : (0 <= z <= MAX_SAFE_INTEGER)%Z → safe_count (Whole z) = Some z.
Proof. intros. by apply safe_count_Some. Qed.

Lemma ge_sum_spec x y z :
  (0 <= x <= MAX_SAFE_INTEGER → 0 <= y <= MAX_SAFE_INTEGER → 0 <= z <= MAX_SAFE_INTEGER →
   ge_sum garbage_ge_sum (Whole x) (Whole y) (Whole z) = true ↔ y + z <= x)%Z.
Proof.
  intros Hx Hy Hz. unfold ge_sum. rewrite !safe_whole by done. rewrite Z.leb_le.
  destruct (double_sum y z Hy Hz) as [[-> _]|[? ?]]; lia.
Qed.

Lemma sum_eq_spec x y z :
  (0 <= x <= MAX_SAFE_INTEGER → 0 <= y <= MAX_SAFE_INTEGER → 0 <= z <= MAX_SAFE_INTEGER →
   sum_eq garbage_sum_eq (Whole x) (Whole y) (Whole z) = true ↔ x + y = z)%Z.
Proof.
  intros Hx Hy Hz. unfold sum_eq. rewrite !safe_whole by done. rewrite Z.eqb_eq.
  destruct (double_sum x y Hx Hy) as [[-> _]|[? ?]]; lia.
Qed.

Lemma or_zero_raw o : or_zero (raw_opt o) = Whole (default 0%Z o).
Proof. by destruct o. Qed.

Lemma undefined_raw o : is_undefined (raw_opt o) = negb (bool_decide (is_Some o)).
Proof. by destruct o. Qed.

(** The split rule of an accepted usage. *)
Lemma split_rule u :
  (count_ok (cacheWriteTokens u) ∧ cacheWriteTokens u <= MAX_SAFE_INTEGER)%Z →
  opt_ok (cacheWrite5mTokens u) → opt_ok (cacheWrite1hTokens u) →
  (default 0 (cacheWrite5mTokens u) <= MAX_SAFE_INTEGER)%Z →
  (default 0 (cacheWrite1hTokens u) <= MAX_SAFE_INTEGER)%Z →
  ((if differentiated u
    then if sum_eq garbage_sum_eq (or_zero (raw_opt (cacheWrite5mTokens u)))
              (or_zero (raw_opt (cacheWrite1hTokens u))) (Whole (cacheWriteTokens u))
         then [] else [SplitRule]
    else []) = [] ↔
   (differentiated u = true →
    (default 0 (cacheWrite5mTokens u) + default 0 (cacheWrite1hTokens u))%Z = cacheWriteTokens u)).
Proof.
  intros [Hw Hws] H5 H1 H5s H1s. rewrite !or_zero_raw.
  destruct (differentiated u); [|by split].
  assert (0 <= default 0 (cacheWrite5mTokens u))%Z by (destruct (cacheWrite5mTokens u); cbn in *; done || lia).
  assert (0 <= default 0 (cacheWrite1hTokens u))%Z by (destruct (cacheWrite1hTokens u); cbn in *; done || lia).
  pose proof (sum_eq_spec (default 0%Z (cacheWrite5mTokens u)) (default 0%Z (cacheWrite1hTokens u))
    (cacheWriteTokens u)) as Hs. unfold count_ok in Hw.
  destruct (sum_eq _ _ _ _); split; try done; intros H'; [intros _; by apply Hs|].
  exfalso. assert (false = true) by (apply Hs; auto). done.
Qed.

Lemma split_bounds u :
  canonical u → within_safe u →
  (cacheReadTokens u <= MAX_SAFE_INTEGER ∧ cacheWriteTokens u <= MAX_SAFE_INTEGER ∧
   default 0 (cacheWrite5mTokens u) <= MAX_SAFE_INTEGER ∧
   default 0 (cacheWrite1hTokens u) <= MAX_SAFE_INTEGER)%Z.
Proof.
  intros [Hi _ Hr Hw _ H5 H1 Hsub Hsplit] (Hin & _ & _). unfold count_ok, opt_ok, differentiated in *.
  assert (cacheReadTokens u <= MAX_SAFE_INTEGER ∧ cacheWriteTokens u <= MAX_SAFE_INTEGER)%Z by lia.
  destruct (cacheWrite5mTokens u), (cacheWrite1hTokens u); cbn in *;
    try specialize (Hsplit eq_refl); unfold count_ok, MAX_SAFE_INTEGER in *; lia.
Qed.

Lemma violations_accept u : canonical u → within_safe u → violations (to_raw u) = [].
Proof.
  intros Hc Hs. pose proof (split_bounds u Hc Hs) as (Hrs & Hws & H5s & H1s).
  destruct Hc as [Hi Ho Hr Hw Hre H5 H1 Hsub Hsplit], Hs as (His & Hos & Hres). unfold count_ok in *.
  unfold usageViolations. rewrite (proj2 (counts_nil (to_raw u))).
  - cbn [app to_raw r_inputTokens r_cacheReadTokens r_cacheWriteTokens r_cacheWrite5mTokens r_cacheWrite1hTokens].
    rewrite (proj2 (ge_sum_spec (inputTokens u) (cacheReadTokens u) (cacheWriteTokens u) ltac:(lia) ltac:(lia) ltac:(lia))) by done. cbn [app].
    rewrite !undefined_raw, !negb_involutive. by apply split_rule.
  - assert (∀ o, opt_ok o → (default 0 o <= MAX_SAFE_INTEGER)%Z →
      is_Some (safe_count (raw_opt o)) ∨ (raw_opt o = Undefined ∧ true = true)) as Hopt.
    { intros [z|]; cbn [raw_opt opt_ok default]; [|by right]. intros ? ?. left. exists z.
      apply safe_whole. by split. }
    intros f. destruct f; cbn; try (left; eexists; apply safe_whole; lia); by apply Hopt.
Qed.

Lemma violations_inv u : violations u = [] → ∃ v, u = to_raw v ∧ canonical v ∧ within_safe v.
Proof.
  unfold usageViolations. intros [Hc [Hsub Hsplit]%app_nil]%app_nil. rewrite counts_nil in Hc.
  assert (∀ f, OPTIONAL_COUNT_FIELDS f = false → ∃ z, field u f = Whole z ∧ (0 <= z <= MAX_SAFE_INTEGER)%Z) as Hreq.
  { intros f Hf. destruct (Hc f) as [[z Hz]|[_ ?]]; [|congruence]. exists z. by apply safe_count_Some. }
  assert (∀ f, ∃ o, field u f = raw_opt o ∧
    match o with Some z => (0 <= z <= MAX_SAFE_INTEGER)%Z | None => True end) as Hopt.
  { intros f. apply raw_opt_safe. destruct (Hc f) as [|[? _]]; auto. }
  destruct (Hreq FInput eq_refl) as (i & Hi & ?), (Hreq FOutput eq_refl) as (o & Ho & ?),
    (Hreq FCacheRead eq_refl) as (r & Hr & ?), (Hreq FCacheWrite eq_refl) as (w & Hw & ?),
    (Hopt FReasoning) as (re & Hre & Bre), (Hopt FWrite5m) as (w5 & E5 & B5), (Hopt FWrite1h) as (w1 & E1 & B1).
  cbn in *. exists (mkUsage i o r w re w5 w1). split.
  { unfold to_raw. cbn. rewrite <- Hi, <- Ho, <- Hr, <- Hw, <- Hre, <- E5, <- E1. by destruct u. }
  rewrite Hi, Hr, Hw in Hsub. rewrite Hw, E5, E1, !undefined_raw, !negb_involutive in Hsplit.
  assert (∀ o, match o with Some z => (0 <= z <= MAX_SAFE_INTEGER)%Z | None => True end →
    opt_ok o ∧ (default 0 o <= MAX_SAFE_INTEGER)%Z) as Ho'.
  { intros [z|]; cbn; unfold count_ok, MAX_SAFE_INTEGER; lia. }
  destruct (Ho' re), (Ho' w5), (Ho' w1); try done.
  split; [split; cbn; unfold count_ok; try lia; try done|split_and!; cbn; try done; lia].
  - apply ge_sum_spec; [lia..|]. by destruct (ge_sum _ _ _ _).
  - by apply (split_rule (mkUsage i o r w re w5 w1)); cbn; unfold count_ok; try lia.
Qed.

Lemma sanitize_to_raw u : canonical u → within_safe u → sanitizeUsage (to_raw u) = u.
Proof.
  intros Hc Hs. pose proof (split_bounds u Hc Hs) as (Hrs & Hws & H5s & H1s).
  destruct Hc as [Hi Ho Hr Hw Hre H5 H1 Hsub Hsplit], Hs as (His & Hos & Hres). unfold count_ok in *.
  unfold sanitizeUsage. cbn [to_raw r_inputTokens r_outputTokens r_cacheReadTokens r_cacheWriteTokens
    r_reasoningTokens r_cacheWrite5mTokens r_cacheWrite1hTokens].
  rewrite !sanitize_whole by lia. rewrite !Z.min_l by lia.
  assert (sanitize_optional (raw_opt (reasoningTokens u)) = reasoningTokens u) as ->.
  { destruct (reasoningTokens u) as [z|]; [|done].
    change (sanitize_optional (raw_opt (Some z))) with (Some (sanitizeTokenCount (Whole z))).
    rewrite sanitize_whole; [done|]. cbn in *. unfold count_ok in *. lia. }
  assert (sanitize_split (raw_opt (cacheWrite5mTokens u)) (raw_opt (cacheWrite1hTokens u)) (cacheWriteTokens u)
    = (cacheWrite5mTokens u, cacheWrite1hTokens u)) as ->; [|by destruct u].
  assert (∀ o, opt_ok o → (default 0 o <= MAX_SAFE_INTEGER)%Z →
    validShare (raw_opt o) = true ∧ share_or_zero (raw_opt o) = default 0%Z o ∧ kept_share (raw_opt o) = o) as Hshare.
  { intros [z|] Hz Hzs; [|by split_and!]. split_and!; try done. unfold validShare. cbn [raw_opt is_undefined].
    rewrite safe_whole by (by split). done. }
  unfold sanitize_split. rewrite !undefined_raw, !negb_involutive. fold (differentiated u).
  destruct (Hshare _ H5 H5s) as (-> & -> & ->), (Hshare _ H1 H1s) as (-> & -> & ->).
  destruct (differentiated u) eqn:Hd.
  - specialize (Hsplit eq_refl). cbn [andb].
    rewrite double_of_N_small by (unfold MAX_SAFE_INTEGER in *; lia). rewrite Hsplit, Z2N.id by lia.
    by rewrite Z.eqb_refl.
  - unfold differentiated in Hd. by destruct (cacheWrite5mTokens u), (cacheWrite1hTokens u).
Qed.

(** The telemetry gate and the repair agree.  A reported usage raises no
    violation exactly when it is a canonical usage of safe integers (counts
    nonnegative, cache reads and writes inside the input, a present TTL split
    summing to the write total), and such a usage passes the repair
    unchanged. *)
Theorem usageViolations_spec (u : RawUsage) :
  violations u = [] ↔
  ∃ v, u = to_raw v ∧ canonical v ∧ within_safe v ∧ sanitizeUsage u = v.
Proof.
  split.
  - intros (v & -> & Hc & Hs)%violations_inv. exists v. split_and!; try done. by apply sanitize_to_raw.
  - intros (v & -> & Hc & Hs & _). by apply violations_accept.
Qed.
End Theorems.

(** ** The repair *)

(** The repaired count [c] charges at least the reported [value], up to the
    clamp. *)
Definition covers (value : raw) (c : Z) : Prop :=
  match value with
  | Whole z => (z <= MAX_SAFE_INTEGER → z <= c)%Z
  | Fraction n d => (n <= MAX_SAFE_INTEGER * Z.pos d → n <= c * Z.pos d)%Z
  | _ => True
  end.

Lemma sanitize_covers v : covers v (sanitizeTokenCount v).
Proof.
  destruct v as [| | | |z|n d]; cbn; try done.
  - intros Hz. destruct (Z.leb_spec z 0); lia.
  - intros Hn. destruct (Z.leb_spec n 0); [lia|].
    assert (n <= ceil_div n d * Z.pos d)%Z.
    { unfold ceil_div. pose proof (Z.div_mod (n + Z.pos d - 1) (Z.pos d) ltac:(lia)).
      pose proof (Z.mod_pos_bound (n + Z.pos d - 1) (Z.pos d) ltac:(lia)). lia. }
    destruct (Z.min_spec (ceil_div n d) MAX_SAFE_INTEGER) as [[_ ->]|[_ ->]]; lia.
Qed.

Lemma sanitize_optional_ok v :
  opt_ok (sanitize_optional v) ∧ (default 0 (sanitize_optional v) <= MAX_SAFE_INTEGER)%Z.
Proof.
  unfold sanitize_optional. pose proof (sanitize_range v).
  destruct (is_undefined v); cbn; unfold count_ok, MAX_SAFE_INTEGER in *; lia || done.
Qed.

Lemma sanitize_split_ok w5 w1 w :
  (0 <= w <= MAX_SAFE_INTEGER)%Z →
  let '(s5, s1) := sanitize_split w5 w1 w in
  opt_ok s5 ∧ opt_ok s1 ∧
  (bool_decide (is_Some s5) || bool_decide (is_Some s1) = true →
   (default 0 s5 + default 0 s1)%Z = w).
Proof.
  intros Hw. unfold sanitize_split.
  destruct (negb (is_undefined w5) || negb (is_undefined w1)); [|done].
  assert (∀ v, validShare v = true → (0 <= share_or_zero v <= MAX_SAFE_INTEGER)%Z ∧
    default 0%Z (kept_share v) = share_or_zero v ∧ opt_ok (kept_share v)) as Hshare.
  { intros v [Hv|Hv]%orb_prop; [by destruct v|].
    apply bool_decide_eq_true in Hv as [z Hz]. apply safe_count_Some in Hz as [-> ?]. cbn.
    unfold count_ok. split_and!; try done; lia. }
  destruct (validShare w5) eqn:V5, (validShare w1) eqn:V1; cbn [andb].
  1: destruct (Hshare w5 V5) as (B5 & D5 & O5), (Hshare w1 V1) as (B1 & D1 & O1);
     destruct (Z.eqb_spec (Z.of_N (double_of_N (Z.to_N (share_or_zero w5 + share_or_zero w1)))) w) as [He|He].
  { split_and!; [done..|]. intros _. rewrite D5, D1.
    destruct (double_sum _ _ B5 B1) as [[Hs _]|[Hs _]]; lia. }
  all: pose proof (sanitize_range w1); cbn; unfold count_ok; split_and!; lia.
Qed.

Lemma sanitizeUsage_canonical u : canonical (sanitizeUsage u) ∧ within_safe (sanitizeUsage u).
Proof.
  unfold sanitizeUsage.
  pose proof (sanitize_range (r_inputTokens u)). pose proof (sanitize_range (r_outputTokens u)).
  pose proof (sanitize_range (r_cacheReadTokens u)). pose proof (sanitize_range (r_cacheWriteTokens u)).
  destruct (sanitize_optional_ok (r_reasoningTokens u)) as [? ?].
  set (i := sanitizeTokenCount (r_inputTokens u)) in *.
  set (cr := Z.min (sanitizeTokenCount (r_cacheReadTokens u)) i) in *.
  set (cw := Z.min (sanitizeTokenCount (r_cacheWriteTokens u)) (i - cr)) in *.
  assert (0 <= cr ∧ 0 <= cw ∧ cr + cw <= i ∧ cw <= MAX_SAFE_INTEGER)%Z as (? & ? & ? & ?) by lia.
  pose proof (sanitize_split_ok (r_cacheWrite5mTokens u) (r_cacheWrite1hTokens u) cw ltac:(lia)) as Hs.
  destruct (sanitize_split _ _ cw) as [s5 s1]. destruct Hs as (? & ? & Hsplit).
  split; [|split_and!; cbn; lia].
  split; cbn; unfold count_ok; try done; lia.
Qed.

(** The repair is safe for accounting.  Whatever an adapter reports, the
    repaired usage is canonical and within the safe integers, repairing it
    again changes nothing, and it never undercharges: a finite input, output or
    reasoning count is covered up to the clamp, fractions rounded up. *)
Theorem sanitizeUsage_safe (u : RawUsage) :
  canonical (sanitizeUsage u) ∧ within_safe (sanitizeUsage u) ∧
  sanitizeUsage (to_raw (sanitizeUsage u)) = sanitizeUsage u ∧
  covers (r_inputTokens u) (inputTokens (sanitizeUsage u)) ∧
  covers (r_outputTokens u) (outputTokens (sanitizeUsage u)) ∧
  covers (r_reasoningTokens u) (default 0%Z (reasoningTokens (sanitizeUsage u))).
Proof.
  destruct (sanitizeUsage_canonical u) as [Hc Hs].
  split_and!; [done|done|by apply sanitize_to_raw|..]; unfold sanitizeUsage;
    destruct (sanitize_split _ _ _); cbn; try apply sanitize_covers.
  unfold sanitize_optional. destruct (r_reasoningTokens u); try done; apply sanitize_covers.
Qed.

(** ** The sum *)

Lemma split_total u : canonical u → (fiveM u + oneH u = cacheWriteTokens u)%Z.
Proof.
  intros [_ _ _ Hw _ H5 H1 _ Hsplit]. unfold fiveM, oneH, differentiated, count_ok, opt_ok in *.
  destruct (cacheWrite5mTokens u), (cacheWrite1hTokens u); cbn in *;
    try specialize (Hsplit eq_refl); unfold count_ok in *; lia.
Qed.

Lemma fiveM_nonneg u : canonical u → (0 <= fiveM u ∧ 0 <= oneH u)%Z.
Proof.
  intros [_ _ _ Hw _ H5 H1 _ _]. unfold fiveM, oneH, opt_ok, count_ok in *.
  destruct (cacheWrite5mTokens u), (cacheWrite1hTokens u); cbn; lia.
Qed.

Lemma sumUsage_canonical a b : canonical a → canonical b → canonical (sumUsage a b).
Proof.
  intros Ha Hb. pose proof (split_total a Ha). pose proof (split_total b Hb).
  pose proof (fiveM_nonneg a Ha). pose proof (fiveM_nonneg b Hb).
  destruct Ha as [Ai Ao Ar Aw Are _ _ As _], Hb as [Bi Bo Br Bw Bre _ _ Bs _]. unfold count_ok in *.
  split; cbn; unfold opt_ok, count_ok, differentiated; cbn; try lia.
  - destruct (Z.ltb_spec 0 (default 0 (reasoningTokens a) + default 0 (reasoningTokens b))%Z); cbn; [lia|done].
  - destruct (_ || _); cbn; [lia|done].
  - destruct (_ || _); cbn; [lia|done].
  - fold (differentiated a) (differentiated b).
    destruct (differentiated a || differentiated b); cbn; [lia|done].
Qed.

Lemma sumUsage_comm a b : sumUsage a b = sumUsage b a.
Proof.
  unfold sumUsage. rewrite (orb_comm (differentiated a)).
  f_equal; try lia; repeat case_match; try done; f_equal; lia.
Qed.

Lemma sum_reasoning_ok a b :
  canonical a → canonical b →
  default 0%Z (reasoningTokens (sumUsage a b)) =
    (default 0 (reasoningTokens a) + default 0 (reasoningTokens b))%Z.
Proof.
  intros [_ _ _ _ Ha _ _ _ _] [_ _ _ _ Hb _ _ _ _]. cbn. unfold opt_ok, count_ok in *.
  assert (0 <= default 0 (reasoningTokens a))%Z by (destruct (reasoningTokens a); cbn; lia).
  assert (0 <= default 0 (reasoningTokens b))%Z by (destruct (reasoningTokens b); cbn; lia).
  destruct (Z.ltb_spec 0 (default 0 (reasoningTokens a) + default 0 (reasoningTokens b))%Z); cbn; lia.
Qed.

Lemma sum_split a b :
  canonical a → canonical b →
  differentiated (sumUsage a b) = differentiated a || differentiated b ∧
  fiveM (sumUsage a b) = (fiveM a + fiveM b)%Z ∧ oneH (sumUsage a b) = (oneH a + oneH b)%Z.
Proof.
  intros Ha Hb. pose proof (split_total a Ha) as Ta. pose proof (split_total b Hb) as Tb.
  pose proof (fiveM_nonneg a Ha). pose proof (fiveM_nonneg b Hb).
  assert (∀ u, differentiated u = false → oneH u = 0%Z) as H1.
  { intros u. unfold differentiated, oneH. by destruct (cacheWrite5mTokens u), (cacheWrite1hTokens u). }
  unfold differentiated at 1, fiveM at 1, oneH at 1 2. cbn.
  destruct (differentiated a || differentiated b) eqn:Hd; cbn; [done|].
  apply orb_false_iff in Hd as [Da Db]. rewrite (H1 a Da), (H1 b Db) in *. split_and!; [done|lia|done].
Qed.

Lemma sumUsage_assoc a b c :
  canonical a → canonical b → canonical c →
  sumUsage (sumUsage a b) c = sumUsage a (sumUsage b c).
Proof.
  intros Ha Hb Hc. unfold sumUsage at 1 3.
  destruct (sum_split a b Ha Hb) as (-> & -> & ->), (sum_split b c Hb Hc) as (-> & -> & ->).
  rewrite !sum_reasoning_ok by done. rewrite orb_assoc. cbn.
  f_equal; try lia; repeat case_match; try done; f_equal; lia.
Qed.

(** The aggregate of a list of usages. *)
Definition sum_usages (l : list Usage) : Usage := foldl sumUsage zero_usage l.

Lemma zero_canonical : canonical zero_usage.
Proof. by split. Qed.

Lemma sum_usages_canonical l acc :
  canonical acc → Forall canonical l → canonical (foldl sumUsage acc l).
Proof.
  intros Ha Hl. revert acc Ha. induction Hl as [|u l Hu _ IH]; intros acc Ha; cbn; [done|].
  by apply IH, sumUsage_canonical.
Qed.

Lemma sum_usages_perm (l k : list Usage) :
  Forall canonical l → l ≡ₚ k → sum_usages l = sum_usages k.
Proof.
  intros Hl Hp.
  unfold sum_usages. pose proof zero_canonical as Hz. revert Hz. generalize zero_usage.
  induction Hp as [|u l k Hp IH|u v l|l k j H1 IH1 H2 IH2]; intros acc Ha; cbn; [done| | |].
  - apply Forall_cons_1 in Hl as [Hu Hl]. apply IH; [done|]. by apply sumUsage_canonical.
  - apply Forall_cons_1 in Hl as [Hu [Hv Hl]%Forall_cons_1]. f_equal.
    by rewrite !sumUsage_assoc, (sumUsage_comm u).
  - rewrite IH1 by done. apply IH2; [|done]. by rewrite <- H1.
Qed.

(** Usage addition is an order-free fold.  Over canonical usages the
    aggregate is canonical again (the cache-write TTL split still sums to the
    write total), and it does not depend on the order the usages are added
    in. *)
Theorem sum_usages_permutation (l k : list Usage) :
  Forall canonical l → l ≡ₚ k →
  canonical (sum_usages l) ∧ sum_usages l = sum_usages k.
Proof.
  intros Hl Hp. split; [apply sum_usages_canonical; [apply zero_canonical|done]|].
  by apply sum_usages_perm.
Qed.

Lemma sum_usages_permutation_witness :
  sum_usages [mkUsage 10 1 2 3 None None None; mkUsage 5 1 0 4 (Some 2%Z) None (Some 4%Z)] =
  sum_usages [mkUsage 5 1 0 4 (Some 2%Z) None (Some 4%Z); mkUsage 10 1 2 3 None None None] ∧
  cacheWrite5mTokens (sum_usages [mkUsage 10 1 2 3 None None None;
    mkUsage 5 1 0 4 (Some 2%Z) None (Some 4%Z)]) = Some 3%Z.
Proof.
  split; [|reflexivity].
  apply (sum_usages_permutation
    [mkUsage 10 1 2 3 None None None; mkUsage 5 1 0 4 (Some 2%Z) None (Some 4%Z)]).
  - by repeat constructor.
  - constructor.
Defined.
