(* ===== verification/Billing.v ===== *)
(** * Pricing folds and the ledger
    (packages/core/src/l0/entries.ts, journal/replayer.ts [foldLedger])

    What a terminal entry bills: its per-model usage slices, the decision to
    price a model per provider call, and the ledger of a run.  Amounts of money
    are abstract: the folds add them in a fixed order and test them for
    finiteness, and a price function may refuse a usage.  Token counts are added
    exactly, as binary64 does while every total stays within 2^53. *)
From S2P Require Import Prelude Json JsMap Entries Scope Identity Disposition Usage.

(** [number] amounts: what the folds use of them. *)
Class Money (amount : Type) := {
  money_zero : amount;
  money_add : amount → amount → amount;
  money_finite : amount → bool;
  money_negative : amount → bool;
}.

Definition entryUsageSlices (entry : JournalEntry) : list UsageSlice :=
  match e_usage entry with
  | None => []
  | Some usage =>
      match e_usageByModel entry with
      | Some (s :: slices) => s :: slices
      | _ => match e_servedBy entry with
             | None => []
             | Some servedBy => [mkSlice servedBy usage None]
             end
      end
  end.

(** ** Coverage *)

Inductive BillingField := BInput | BOutput | BCacheRead | BCacheWrite.

Definition BILLING_FIELDS : list BillingField := [BInput; BOutput; BCacheRead; BCacheWrite].

Definition usage_field (u : Usage) (f : BillingField) : Z :=
  match f with
  | BInput => inputTokens u
  | BOutput => outputTokens u
  | BCacheRead => cacheReadTokens u
  | BCacheWrite => cacheWriteTokens u
  end.

Definition usage_reasoning (u : Usage) : Z := default 0%Z (reasoningTokens u).

Record ModelSum := mkSum { ms_fields : BillingField → Z; ms_reasoning : Z }.

Definition zero_sum : ModelSum := mkSum (fun _ => 0%Z) 0.

Definition add_sum (s : ModelSum) (u : Usage) : ModelSum :=
  mkSum (fun f => ms_fields s f + usage_field u f)%Z (ms_reasoning s + usage_reasoning u).

Definition sumUsageByModel (items : list (string * Usage)) : jsmap string ModelSum :=
  foldl (fun sums item =>
    jm_set sums (fst item) (add_sum (default zero_sum (jm_get sums (fst item))) (snd item)))
    jm_empty items.

Definition slice_item (s : UsageSlice) : string * Usage := (sl_servedBy s, sl_usage s).
Definition call_item (c : ProviderCallRecord) : string * Usage := (pc_servedBy c, pc_usage c).

Definition sums_match (recordSum sliceSum : ModelSum) : bool :=
  forallb (fun f => (ms_fields recordSum f =? ms_fields sliceSum f)%Z) BILLING_FIELDS &&
  (ms_reasoning recordSum =? ms_reasoning sliceSum)%Z.

Definition coveredModels (slices : list UsageSlice) (records : list ProviderCallRecord)
    : gset string :=
  match slices, records with
  | [], _ | _, [] => ∅
  | _, _ =>
      let recordSums := sumUsageByModel (map call_item records) in
      let sliceSums := sumUsageByModel (map slice_item slices) in
      foldl (fun covered '(model, sliceSum) =>
        match jm_get recordSums model with
        | None => covered
        | Some recordSum =>
            if sums_match recordSum sliceSum then {[model]} ∪ covered else covered
        end) ∅ (jm_entries sliceSums)
  end.

Section Pricing.
Context {amount : Type} `{Money amount}.

(** [priceUsd(servedBy, usage, seq)]. *)
Variable priceUsd : string → Usage → N → option amount.

Inductive PriceError := FoldOverflow (seq : N) (servedBy : string).

(** A price the fold accepts. *)
Definition valid_price (servedBy : string) (usage : Usage) (seq : N) : option amount :=
  match priceUsd servedBy usage seq with
  | None => None
  | Some usd => if negb (money_finite usd) || money_negative usd then None else Some usd
  end.

(** ** Aggregate pricing *)

Record PricedUsage := mkPriced {
  pr_usd : amount;
  pr_priced : list (UsageSlice * amount);
  pr_unpriced : list UsageSlice;
}.

Definition price_slice (seq : N) (res : PricedUsage) (slice : UsageSlice)
    : result PriceError PricedUsage :=
  match valid_price (sl_servedBy slice) (sl_usage slice) seq with
  | None => Ok (mkPriced (pr_usd res) (pr_priced res) (pr_unpriced res ++ [slice]))
  | Some usd =>
      let total := money_add (pr_usd res) usd in
      if money_finite total
      then Ok (mkPriced total (pr_priced res ++ [(slice, usd)]) (pr_unpriced res))
      else Err (FoldOverflow seq (sl_servedBy slice))
  end.

Fixpoint price_slices (seq : N) (res : PricedUsage) (slices : list UsageSlice)
    : result PriceError PricedUsage :=
  match slices with
  | [] => Ok res
  | slice :: rest => res' ← price_slice seq res slice; price_slices seq res' rest
  end.

Definition priceEntryUsage (entry : JournalEntry) : result PriceError PricedUsage :=
  price_slices (e_seq entry) (mkPriced money_zero [] []) (entryUsageSlices entry).

(** ** The billing fold *)

Inductive UnitSource := FromCall (record : ProviderCallRecord) | FromSlice.

Record EntryBillingUnit := mkUnit {
  u_source : UnitSource;
  u_servedBy : string;
  u_usage : Usage;
  u_role : option string;
  u_usd : amount;
}.

Record BillingState := mkBilling {
  b_units : list EntryBillingUnit;
  b_usd : amount;
  b_unpriced : jsmap string Usage;
}.

(** [sum[field] += usage[field]], and the reasoning count. *)
Definition add_unpriced (sum usage : Usage) : Usage :=
  let reasoning := (usage_reasoning sum + usage_reasoning usage)%Z in
  mkUsage (inputTokens sum + inputTokens usage) (outputTokens sum + outputTokens usage)
    (cacheReadTokens sum + cacheReadTokens usage) (cacheWriteTokens sum + cacheWriteTokens usage)
    (if (0 <? reasoning)%Z then Some reasoning else reasoningTokens sum)
    (cacheWrite5mTokens sum) (cacheWrite1hTokens sum).

(** One candidate unit: priced, or added to the unpriced usage of its model. *)
Definition bill (seq : N) (s : BillingState) (source : UnitSource) (servedBy : string)
    (usage : Usage) (role : option string) : result PriceError BillingState :=
  match valid_price servedBy usage seq with
  | None =>
      let sum := default zero_usage (jm_get (b_unpriced s) servedBy) in
      Ok (mkBilling (b_units s) (b_usd s) (jm_set (b_unpriced s) servedBy (add_unpriced sum usage)))
  | Some price =>
      let total := money_add (b_usd s) price in
      if money_finite total
      then Ok (mkBilling (b_units s ++ [mkUnit source servedBy usage role price]) total (b_unpriced s))
      else Err (FoldOverflow seq servedBy)
  end.

Fixpoint bill_calls (seq : N) (covered : gset string) (s : BillingState)
    (records : list ProviderCallRecord) : result PriceError BillingState :=
  match records with
  | [] => Ok s
  | c :: rest =>
      s' ← (if decide (pc_servedBy c ∈ covered)
            then bill seq s (FromCall c) (pc_servedBy c) (pc_usage c) (Some (pc_role c)) else Ok s);
      bill_calls seq covered s' rest
  end.

Fixpoint bill_slices (seq : N) (covered : gset string) (s : BillingState)
    (slices : list UsageSlice) : result PriceError BillingState :=
  match slices with
  | [] => Ok s
  | slice :: rest =>
      s' ← (if decide (sl_servedBy slice ∈ covered) then Ok s
            else bill seq s FromSlice (sl_servedBy slice) (sl_usage slice) (sl_role slice));
      bill_slices seq covered s' rest
  end.

Record EntryBillingFold := mkBillingFold {
  bf_units : list EntryBillingUnit;
  bf_usd : amount;
  bf_unpriced : list (string * Usage);
  bf_fullyAttributed : bool;
  bf_coveredModels : gset string;
}.

Definition priceEntryBilling (entry : JournalEntry) : result PriceError EntryBillingFold :=
  let slices := entryUsageSlices entry in
  let records := default [] (e_providerCalls entry) in
  let covered := coveredModels slices records in
  s ← bill_calls (e_seq entry) covered (mkBilling [] money_zero jm_empty) records;
  s' ← bill_slices (e_seq entry) covered s slices;
  Ok (mkBillingFold (b_units s') (b_usd s') (jm_entries (b_unpriced s'))
        (negb (bool_decide (slices = [])) &&
         forallb (fun slice => bool_decide (sl_servedBy slice ∈ covered)) slices &&
         forallb (fun record =>
           existsb (fun slice => String.eqb (sl_servedBy slice) (pc_servedBy record)) slices) records)
        covered).

(** ** The ledger *)

Record Ledger := mkLedger {
  l_usage : Usage;
  l_usd : amount;
  l_agentsSpawned : N;
}.

(** Whether the fold skips an entry: a covered operation contributes nothing. *)
Definition skipped (is_abandoned : N → bool) (entry : JournalEntry) : bool :=
  negb (is_ref_kind (e_kind entry)) && is_abandoned (default (e_seq entry) (e_ref entry)).

(** [entry.status === "running" || entry.usage === undefined]. *)
Definition billable (entry : JournalEntry) : option Usage :=
  if decide (e_status entry = StRunning) then None else e_usage entry.

Definition is_dispatch (entry : JournalEntry) : bool :=
  bool_decide (e_kind entry = KAgent) && bool_decide (e_status entry = StRunning).

Variable priced : bool.

Definition ledger_entry (is_abandoned : N → bool) (l : Ledger) (entry : JournalEntry)
    : result PriceError Ledger :=
  if skipped is_abandoned entry then Ok l
  else
    let spawned := (l_agentsSpawned l + (if is_dispatch entry then 1 else 0))%N in
    match billable entry with
    | None => Ok (mkLedger (l_usage l) (l_usd l) spawned)
    | Some usage =>
        usd ← (if priced then (fold ← priceEntryBilling entry; Ok (money_add (l_usd l) (bf_usd fold)))
               else Ok (l_usd l));
        Ok (mkLedger (sumUsage (l_usage l) usage) usd spawned)
    end.

Fixpoint fold_ledger_from (is_abandoned : N → bool) (l : Ledger) (entries : list JournalEntry)
    : result PriceError Ledger :=
  match entries with
  | [] => Ok l
  | entry :: rest => l' ← ledger_entry is_abandoned l entry; fold_ledger_from is_abandoned l' rest
  end.

Definition foldLedger (entries : list JournalEntry) (is_abandoned : N → bool)
    : result PriceError Ledger :=
  fold_ledger_from is_abandoned (mkLedger zero_usage money_zero 0) entries.
End Pricing.

(** ** Conservation *)

(** The tokens of one kind a list of usages charges to one model. *)
Fixpoint charged (f : BillingField) (model : string) (items : list (string * Usage)) : Z :=
  match items with
  | [] => 0
  | item :: rest =>
      if decide (fst item = model) then usage_field (snd item) f + charged f model rest
      else charged f model rest
  end.

Lemma charged_app f m l k : charged f m (l ++ k) = (charged f m l + charged f m k)%Z.
Proof. induction l as [|i l IH]; cbn; [done|]. rewrite IH. case_decide; lia. Qed.

Lemma charged_absent f m l : m ∉ map fst l → charged f m l = 0%Z.
Proof. induction l as [|i l IH]; cbn; [done|]. intros Hm. case_decide; set_solver. Qed.

Lemma charged_entries f m (t : jsmap string Usage) :
  jm_wf t →
  charged f m (jm_entries t) = match jm_get t m with Some u => usage_field u f | None => 0%Z end.
Proof.
  intros [Hnd Hk].
  assert (∀ order, NoDup order →
    charged f m (omap (fun k => pair k <$> jm_map t !! k) order) =
    if decide (m ∈ order) then match jm_get t m with Some u => usage_field u f | None => 0%Z end else 0%Z) as Ho.
  { induction 1 as [|k order Hkn Hnd' IH]; [done|]. cbn [omap list_omap].
    assert (m ∈ k :: order ↔ m = k ∨ m ∈ order) as Hin by set_solver.
    unfold jm_get in *. destruct (decide (k = m)) as [->|Hne].
    - rewrite (decide_True (P := m ∈ m :: order)) by set_solver.
      destruct (jm_map t !! m) as [u|] eqn:E; cbn; rewrite IH, (decide_False (P := m ∈ order)) by done;
        [rewrite decide_True by done; lia|done].
    - transitivity (charged f m (omap (λ k, pair k <$> jm_map t !! k) order)).
      { destruct (jm_map t !! k) as [u|]; cbn; [by rewrite decide_False by done|done]. }
      rewrite IH. by destruct (decide (m ∈ order)) as [Hm|Hm];
        [rewrite (decide_True (P := m ∈ k :: order)) by set_solver
        |rewrite (decide_False (P := m ∈ k :: order)) by set_solver]. }
  unfold jm_entries. rewrite Ho by done. case_decide as Hm; [done|].
  unfold jm_get. destruct (jm_map t !! m) eqn:E; [|done]. exfalso. apply Hm, Hk. eauto.
Qed.

Lemma sumUsageByModel_spec items m :
  match jm_get (sumUsageByModel items) m with
  | Some s => ∀ f, ms_fields s f = charged f m items
  | None => m ∉ map fst items
  end.
Proof.
  unfold sumUsageByModel. induction items as [|i l IH] using rev_ind; [cbn; rewrite jm_get_empty; apply not_elem_of_nil|].
  rewrite foldl_app. cbn [foldl]. rewrite jm_get_set.
  set (t := foldl _ jm_empty l) in *. destruct (decide (i.1 = m)) as [Hi|Hi].
  - intros f. rewrite charged_app. cbn [charged]. rewrite decide_True, Hi by done. revert IH.
    destruct (jm_get t m) as [s|]; cbn; intros IH; [rewrite IH; lia|].
    rewrite charged_absent by done. lia.
  - revert IH. destruct (jm_get t m) as [s|]; intros IH.
    + intros f. rewrite charged_app, IH. cbn [charged]. rewrite decide_False by done. lia.
    + rewrite map_app. set_solver.
Qed.

Lemma sumUsageByModel_wf items : jm_wf (sumUsageByModel items).
Proof.
  unfold sumUsageByModel. induction items as [|i l IH] using rev_ind; [apply jm_wf_empty|].
  rewrite foldl_app. cbn. by apply jm_wf_set.
Qed.

(** A covered model: its call records charge exactly what its slices do. *)
Lemma coveredModels_spec slices records m :
  m ∈ coveredModels slices records →
  m ∈ map sl_servedBy slices ∧
  ∀ f, charged f m (map call_item records) = charged f m (map slice_item slices).
Proof.
  unfold coveredModels. destruct slices as [|s0 slices]; [set_solver|].
  destruct records as [|c0 records]; [set_solver|].
  set (sl := s0 :: slices). set (rc := c0 :: records).
  assert (∀ (l : list (string * ModelSum)) (acc : gset string),
    m ∈ foldl (fun covered '(model, sliceSum) =>
      match jm_get (sumUsageByModel (map call_item rc)) model with
      | None => covered
      | Some recordSum => if sums_match recordSum sliceSum then {[model]} ∪ covered else covered
      end) acc l →
    m ∈ acc ∨ ∃ sliceSum recordSum, (m, sliceSum) ∈ l ∧
      jm_get (sumUsageByModel (map call_item rc)) m = Some recordSum ∧
      sums_match recordSum sliceSum = true) as Hfold.
  { induction l as [|[model ss] l IH]; intros acc; cbn; [by left|].
    intros [Hacc|(x & y & ? & ? & ?)]%IH; [|right; exists x, y; set_solver].
    destruct (jm_get _ model) as [rs|] eqn:Hr; [|by left].
    destruct (sums_match rs ss) eqn:Hm; [|by left].
    apply elem_of_union in Hacc as [->%elem_of_singleton|?]; [|by left].
    right. exists ss, rs. set_solver. }
  intros [?|(ss & rs & Hin & Hr & Hm)]%Hfold; [set_solver|].
  apply jm_entries_spec in Hin; [|apply sumUsageByModel_wf].
  pose proof (sumUsageByModel_spec (map call_item rc) m) as H1. rewrite Hr in H1.
  pose proof (sumUsageByModel_spec (map slice_item sl) m) as H2. rewrite Hin in H2.
  split.
  - destruct (decide (m ∈ map sl_servedBy sl)) as [|Hn]; [done|]. exfalso.
    assert (jm_get (sumUsageByModel (map slice_item sl)) m = None) as Hnone; [|congruence].
    clear -Hn. unfold sumUsageByModel. induction sl as [|s l IH] using rev_ind; [apply jm_get_empty|].
    rewrite map_app, foldl_app. cbn. rewrite map_app in Hn. cbn in Hn.
    rewrite jm_get_set_ne by set_solver. apply IH. set_solver.
  - intros f. rewrite <- H1, <- H2. unfold sums_match in Hm. apply andb_prop in Hm as [Hm _].
    rewrite forallb_forall in Hm. apply Z.eqb_eq, Hm. destruct f; cbn; auto.
Qed.

Section Conservation.
Context {amount : Type} `{Money amount}.
Variable priceUsd : string → Usage → N → option amount.

(** The money type can add two amounts past the finite range. *)
Definition overflows : Prop := ∃ a b, money_finite (money_add a b) = false.

Definition unit_item (u : EntryBillingUnit (amount := amount)) : string * Usage := (u_servedBy u, u_usage u).

(** What a billing state accounts to a model: its units and its unpriced usage. *)
Definition accounted (f : BillingField) (m : string) (s : BillingState (amount := amount)) : Z :=
  (charged f m (map unit_item (b_units s)) +
   match jm_get (b_unpriced s) m with Some u => usage_field u f | None => 0 end)%Z.

Definition state_ok (s : BillingState (amount := amount)) : Prop :=
  jm_wf (b_unpriced s) ∧ b_usd s = foldl money_add money_zero (map u_usd (b_units s)).

Lemma bill_spec seq s source servedBy usage role :
  state_ok s →
  match bill priceUsd seq s source servedBy usage role with
  | Ok s' => state_ok s' ∧
      (∀ f m, accounted f m s' = accounted f m s + charged f m [(servedBy, usage)])%Z ∧
      ∃ new, b_units s' = b_units s ++ new ∧ Forall (fun u => u_servedBy u = servedBy ∧ u_source u = source) new
  | Err (FoldOverflow s' m) => s' = seq ∧ m = servedBy ∧ overflows
  end.
Proof.
  intros [Hwf Husd]. unfold bill. destruct (valid_price _ _ _ _) as [price|].
  - destruct (money_finite _) eqn:Hfin; [|split_and!; [done..|by eexists _, _]]. split_and!.
    + split; cbn; [done|]. rewrite map_app, foldl_app. cbn. by rewrite Husd.
    + intros f m. unfold accounted. cbn. rewrite map_app, charged_app. cbn. lia.
    + eexists. split; [done|]. by repeat constructor.
  - split_and!.
    + split; cbn; [by apply jm_wf_set|done].
    + intros f m. unfold accounted. cbn. rewrite jm_get_set. case_decide as Hm; [|lia].
      rewrite Hm. destruct (jm_get (b_unpriced s) m) as [u|], f; cbn; lia.
    + exists []. by rewrite app_nil_r.
Qed.

Lemma bill_calls_spec seq covered s records :
  state_ok s →
  match bill_calls priceUsd seq covered s records with
  | Ok s' => state_ok s' ∧
      (∀ f m, accounted f m s' = accounted f m s +
         if decide (m ∈ covered) then charged f m (map call_item records) else 0)%Z ∧
      ∃ new, b_units s' = b_units s ++ new ∧
        Forall (fun u => u_servedBy u ∈ covered ∧ u_source u ≠ FromSlice) new
  | Err (FoldOverflow s' m) => s' = seq ∧ overflows
  end.
Proof.
  revert s. induction records as [|c records IH]; intros s Hs; cbn.
  { split_and!; [done| |exists []; by rewrite app_nil_r]. intros f m. case_decide; lia. }
  destruct (decide (pc_servedBy c ∈ covered)) as [Hc|Hc]; cbn.
  - pose proof (bill_spec seq s (FromCall c) (pc_servedBy c) (pc_usage c) (Some (pc_role c)) Hs) as Hb.
    destruct (bill _ _ _ _ _ _ _) as [s1|[s1 m1]]; cbn; [|naive_solver].
    destruct Hb as (Hs1 & Ha1 & new1 & Hu1 & Hn1). specialize (IH s1 Hs1).
    destruct (bill_calls _ _ _ s1 _) as [s2|[s2 m2]]; [|done].
    destruct IH as (Hs2 & Ha2 & new2 & Hu2 & Hn2). split_and!; [done| |].
    + intros f m. rewrite Ha2, Ha1. cbn. repeat case_decide; try lia. subst. done.
    + exists (new1 ++ new2). rewrite Hu2, Hu1, app_assoc. split; [done|]. apply Forall_app. split; [|done].
      eapply Forall_impl; [exact Hn1|]. cbn. intros u [-> ->]. by split.
  - specialize (IH s Hs). destruct (bill_calls _ _ _ s _) as [s2|[s2 m2]]; [|done].
    destruct IH as (Hs2 & Ha2 & Hnew). split_and!; [done| |done].
    intros f m. rewrite Ha2. repeat case_decide; try lia. congruence.
Qed.

Lemma bill_slices_spec seq covered s slices :
  state_ok s →
  match bill_slices priceUsd seq covered s slices with
  | Ok s' => state_ok s' ∧
      (∀ f m, accounted f m s' = accounted f m s +
         if decide (m ∈ covered) then 0 else charged f m (map slice_item slices))%Z ∧
      ∃ new, b_units s' = b_units s ++ new ∧
        Forall (fun u => u_servedBy u ∉ covered ∧ u_source u = FromSlice) new
  | Err (FoldOverflow s' m) => s' = seq ∧ overflows
  end.
Proof.
  revert s. induction slices as [|c slices IH]; intros s Hs; cbn.
  { split_and!; [done| |exists []; by rewrite app_nil_r]. intros f m. case_decide; lia. }
  destruct (decide (sl_servedBy c ∈ covered)) as [Hc|Hc]; cbn.
  - specialize (IH s Hs). destruct (bill_slices _ _ _ s _) as [s2|[s2 m2]]; [|done].
    destruct IH as (Hs2 & Ha2 & Hnew). split_and!; [done| |done].
    intros f m. rewrite Ha2. repeat case_decide; try lia. congruence.
  - pose proof (bill_spec seq s FromSlice (sl_servedBy c) (sl_usage c) (sl_role c) Hs) as Hb.
    destruct (bill _ _ _ _ _ _ _) as [s1|[s1 m1]]; cbn; [|naive_solver].
    destruct Hb as (Hs1 & Ha1 & new1 & Hu1 & Hn1). specialize (IH s1 Hs1).
    destruct (bill_slices _ _ _ s1 _) as [s2|[s2 m2]]; [|done].
    destruct IH as (Hs2 & Ha2 & new2 & Hu2 & Hn2). split_and!; [done| |].
    + intros f m. rewrite Ha2, Ha1. cbn. repeat case_decide; try lia. subst. done.
    + exists (new1 ++ new2). rewrite Hu2, Hu1, app_assoc. split; [done|]. apply Forall_app. split; [|done].
      eapply Forall_impl; [exact Hn1|]. cbn. intros u [-> ->]. by split.
Qed.

(** C39: billing conserves tokens.  For every model and every billing counter,
    the tokens of the priced units plus the tokens reported unpriced are the
    tokens of the entry's usage slices: none is dropped, none is billed twice,
    whichever basis a model is priced on; a covered model is priced per call
    only and any other per slice only; and the total is the sum of the units in
    order.  The fold throws only when that sum leaves the finite range. *)
Theorem billing_conserves_tokens (entry : JournalEntry) :
  match priceEntryBilling priceUsd entry with
  | Ok fold =>
      (∀ f model,
        charged f model (map unit_item (bf_units fold)) + charged f model (bf_unpriced fold)
        = charged f model (map slice_item (entryUsageSlices entry)))%Z ∧
      bf_usd fold = foldl money_add money_zero (map u_usd (bf_units fold)) ∧
      Forall (fun u => u_source u = FromSlice ↔ u_servedBy u ∉ bf_coveredModels fold) (bf_units fold)
  | Err (FoldOverflow s _) => s = e_seq entry ∧ overflows
  end.
Proof.
  unfold priceEntryBilling. set (slices := entryUsageSlices entry).
  set (records := default [] (e_providerCalls entry)). set (covered := coveredModels slices records).
  assert (state_ok (mkBilling [] money_zero jm_empty)) as H0 by (split; [apply jm_wf_empty|done]).
  pose proof (bill_calls_spec (e_seq entry) covered _ records H0) as Hc.
  destruct (bill_calls _ _ _ _ _) as [s1|[s1 m1]]; cbn; [|done].
  destruct Hc as (Hs1 & Ha1 & new1 & Hu1 & Hn1).
  pose proof (bill_slices_spec (e_seq entry) covered s1 slices Hs1) as Hsl.
  destruct (bill_slices _ _ _ _ _) as [s2|[s2 m2]]; cbn; [|done].
  destruct Hsl as ([Hwf2 Husd] & Ha2 & new2 & Hu2 & Hn2). cbn in Hu1. subst new1. split_and!.
  - intros f m. transitivity (accounted f m s2).
    + unfold accounted. f_equal. by apply charged_entries.
    + rewrite Ha2, Ha1.
      assert (accounted f m (mkBilling [] money_zero jm_empty) = 0%Z) as ->
        by (unfold accounted; cbn; by rewrite jm_get_empty).
      destruct (decide (m ∈ covered)) as [Hm|Hm]; [|lia].
      destruct (coveredModels_spec _ _ _ Hm) as [_ Heq]. rewrite Heq. fold slices. lia.
  - done.
  - rewrite Hu2. apply Forall_app. split.
    + eapply Forall_impl; [exact Hn1|]. cbn. naive_solver.
    + eapply Forall_impl; [exact Hn2|]. cbn. naive_solver.
Qed.
End Conservation.

(** ** The ledger *)

Section LedgerTheorems.
Context {amount : Type} `{Money amount}.
Variable priceUsd : string → Usage → N → option amount.
Variable priced : bool.
Variable is_abandoned : N → bool.

(** The usages the ledger adds: terminal, not covered by an abandon. *)
Definition ledger_usages (entries : list JournalEntry) : list Usage :=
  omap billable (List.filter (fun e => negb (skipped is_abandoned e)) entries).

(** The agent dispatches it counts. *)
Definition ledger_dispatches (entries : list JournalEntry) : list JournalEntry :=
  List.filter (fun e => negb (skipped is_abandoned e) && is_dispatch e) entries.

Lemma ledger_from_spec l entries :
  match fold_ledger_from priceUsd priced is_abandoned l entries with
  | Ok l' =>
      l_usage l' = foldl sumUsage (l_usage l) (ledger_usages entries) ∧
      l_agentsSpawned l' = (l_agentsSpawned l + N.of_nat (length (ledger_dispatches entries)))%N
  | Err _ => priced = true ∧ overflows (amount := amount)
  end.
Proof.
  revert l. induction entries as [|e entries IH]; intros l; cbn [fold_ledger_from].
  { cbn. split; [done|lia]. }
  unfold ledger_usages, ledger_dispatches. cbn [List.filter]. unfold ledger_entry.
  destruct (skipped is_abandoned e) eqn:Hs; cbn [negb andb mbind result_bind]; [apply IH|].
  assert (∀ usage usd, match fold_ledger_from priceUsd priced is_abandoned
      (mkLedger usage usd (l_agentsSpawned l + (if is_dispatch e then 1 else 0))) entries with
    | Ok l' => l_usage l' = foldl sumUsage usage (ledger_usages entries) ∧
        l_agentsSpawned l' = (l_agentsSpawned l + N.of_nat (length
          (if is_dispatch e then e :: ledger_dispatches entries else ledger_dispatches entries)))%N
    | Err _ => priced = true ∧ overflows (amount := amount)
    end) as Hnext.
  { intros usage usd. specialize (IH (mkLedger usage usd (l_agentsSpawned l + (if is_dispatch e then 1 else 0)))).
    destruct (fold_ledger_from _ _ _ _ entries); [|done]. destruct IH as [-> ->]. cbn.
    split; [done|]. destruct (is_dispatch e); cbn [length]; lia. }
  cbn [omap list_omap]. destruct (billable e) as [usage|] eqn:Hb; [|apply Hnext].
  destruct priced eqn:Hp; [|apply Hnext].
  pose proof (billing_conserves_tokens priceUsd e) as Hbill.
  destruct (priceEntryBilling priceUsd e) as [fold|[s m]]; cbn; [apply Hnext|naive_solver].
Qed.

Lemma ledger_usages_perm l k : l ≡ₚ k → ledger_usages l ≡ₚ ledger_usages k.
Proof.
  intros Hp. unfold ledger_usages. apply omap_Permutation.
  induction Hp; cbn; repeat case_match; try done; try (by constructor); by etransitivity.
Qed.

Lemma ledger_dispatches_perm l k : l ≡ₚ k → length (ledger_dispatches l) = length (ledger_dispatches k).
Proof.
  intros Hp. unfold ledger_dispatches. apply Permutation_length.
  induction Hp; cbn; repeat case_match; try done; try (by constructor); by etransitivity.
Qed.

(** The ledger counts each terminal usage once, in any order.  Its usage is
    the sum over the terminal entries no abandon covers, its agent count the
    number of uncovered agent dispatches; over canonical usages both depend on
    the set of entries only, so a journal read back in another order folds to
    the same ledger.  Only pricing can make it throw. *)
Theorem ledger_spec (entries : list JournalEntry) :
  match foldLedger priceUsd priced entries is_abandoned with
  | Ok l =>
      l_usage l = sum_usages (ledger_usages entries) ∧
      l_agentsSpawned l = N.of_nat (length (ledger_dispatches entries)) ∧
      (Forall canonical (ledger_usages entries) → canonical (l_usage l) ∧
       ∀ k l', entries ≡ₚ k → foldLedger priceUsd priced k is_abandoned = Ok l' →
         l_usage l' = l_usage l ∧ l_agentsSpawned l' = l_agentsSpawned l)
  | Err _ => priced = true ∧ overflows (amount := amount)
  end.
Proof.
  unfold foldLedger. pose proof (ledger_from_spec (mkLedger zero_usage money_zero 0) entries) as Hl.
  destruct (fold_ledger_from _ _ _ _ entries) as [l|e]; [|done].
  destruct Hl as [-> ->]. cbn. split_and!; [done..|]. intros Hc. split.
  { by apply sum_usages_canonical; [apply zero_canonical|]. }
  intros k l' Hp Hk. pose proof (ledger_from_spec (mkLedger zero_usage money_zero 0) k) as Hl'.
  rewrite Hk in Hl'. destruct Hl' as [-> ->]. cbn.
  rewrite (ledger_dispatches_perm _ _ Hp). split; [|done]. symmetry.
  apply sum_usages_perm; [done|]. by apply ledger_usages_perm.
Qed.
End LedgerTheorems.

(** ** A nonlinear price

    Prices in cents, doubling past 100 input tokens of one request. *)

Definition cents : Money Z :=
  {| money_zero := 0%Z; money_add := Z.add; money_finite := fun _ => true;
     money_negative := fun a => (a <? 0)%Z |}.

Definition tier_price (model : string) (usage : Usage) (seq : N) : option Z :=
  if String.eqb model "unknown" then None
  else Some (if (100 <? inputTokens usage)%Z then 2 * inputTokens usage else inputTokens usage)%Z.

Definition tokens (n : Z) : Usage := mkUsage n 0 0 0 None None None.

(** Two calls of one model, one slice of an unpriced one. *)
Definition billed_entry : JournalEntry :=
  mkEntry 2 1 (Some 0%N) "" "k" 0 KAgent StOk None None (Some (tokens 170)) (Some "m")
    (Some [mkSlice "m" (tokens 160) (Some "loop"); mkSlice "unknown" (tokens 10) None])
    (Some [mkCall 1 "loop" "m" (tokens 80); mkCall 2 "loop" "m" (tokens 80)])
    None None None None None None "" "" None [].

Lemma billed_per_call :
  match priceEntryBilling (H := cents) tier_price billed_entry with
  | Ok fold => bf_usd fold = 160%Z ∧ length (bf_units fold) = 2 ∧
      bf_unpriced fold = [("unknown", tokens 10)] ∧ bf_fullyAttributed fold = false
  | Err _ => False
  end.
Proof. by split. Qed.

Definition ledger_journal : list JournalEntry :=
  [base_entry 0 "" "k" KAgent StRunning; billed_entry;
   with_usage (base_entry 2 "" "d" KDecision StOk) (tokens 5)].

Lemma ledger_spec_witness :
  match foldLedger (H := cents) tier_price true ledger_journal (fun _ => false) with
  | Ok l => canonical (l_usage l) ∧ l_usage l = tokens 175 ∧ l_agentsSpawned l = 1%N ∧ l_usd l = 160%Z
  | Err _ => False
  end.
Proof.
  pose proof (ledger_spec (H := cents) tier_price true (fun _ => false) ledger_journal) as Hl.
  destruct (foldLedger _ _ _ _) as [l|e] eqn:E; [|vm_compute in E; discriminate].
  destruct Hl as (_ & _ & Hc). split.
  - apply Hc. by repeat constructor.
  - vm_compute in E. injection E as <-. by split.
Defined.
