(* ===== verification/Termination.v ===== *)
(** * The termination account (packages/core/src/journal/termination.ts)

    The frozen limits, the debit-only account with its variant [phi], and the
    fold that replays the journaled debits.  Counters are integers; a journal
    whose admission carries a fractional ladder length leaves the model with
    [NonIntegerLadder]. *)
From S2P Require Import Prelude Json JsMap Entries Identity.

(** ** Limits *)

Record TerminationLimits := mkLimits {
  maxRevisionsPerRun : Z;
  maxTotalSpawns : Z;
  maxEscalationsPerLogicalTask : Z;
  maxDepth : Z;
  kMax : Z;
  runBudgetUsdCeiling : json;
  orchestratorCapUsd : json;
  finalizeReserveUsd : json;
}.

Definition DEFAULT_MAX_REVISIONS_PER_RUN : Z := 32.
Definition DEFAULT_MAX_TOTAL_SPAWNS : Z := 128.

Inductive LimitsError :=
  | RenamedKnob
  | BadCount (name : string)
  | BadUsd (name : string)
  | BadKMax
  | LimitsNotObject.

(** [Array.isArray(ladder.rungs) && ladder.rungs.length > 0], the length. *)
Definition declared_rungs (spec : option json) : option Z :=
  match as_array (opt_prop (asRecord (opt_prop (asRecord spec) "ladder")) "rungs") with
  | Some (r :: rungs) => Some (Z.of_nat (length (r :: rungs)))
  | _ => None
  end.

(** The profile's model, then its loop-role routing. *)
Definition ladderLengthOf (profile : json) : Z :=
  let record := asRecord (Some profile) in
  match declared_rungs (opt_prop record "model") with
  | Some n => n
  | None =>
      match declared_rungs (opt_prop (asRecord (opt_prop record "routing")) "loop") with
      | Some n => n
      | None => 1
      end
  end.

Definition kMaxOf (profiles : list (string * json)) : Z :=
  foldl (fun k p => Z.max k (ladderLengthOf (snd p))) 1%Z profiles.

(** [record[name] ?? fallback]. *)
Definition or_fallback (r : record) (name : string) (fallback : option json) : option json :=
  match prop r name with
  | None | Some JNull => fallback
  | Some v => Some v
  end.

Definition count_limit (r : record) (name : string) (fallback : Z) : result LimitsError Z :=
  match or_fallback r name (Some (JNum fallback)) with
  | Some (JNum n) => if (n <? 0)%Z then Err (BadCount name) else Ok n
  | _ => Err (BadCount name)
  end.

Definition usd_limit (r : record) (name : string) : result LimitsError json :=
  match or_fallback r name None with
  | Some (JNum n) => if (n <? 0)%Z then Err (BadUsd name) else Ok (JNum n)
  | Some (JFrac n d) => if (n <? 0)%Z then Err (BadUsd name) else Ok (JFrac n d)
  | _ => Err (BadUsd name)
  end.

(** [raw] as the object the [in] operator and the member reads are applied to. *)
Definition validateTerminationLimits (raw : json) : result LimitsError TerminationLimits :=
  match asRecord (Some raw) with
  | None => Err LimitsNotObject
  | Some r =>
      if decide (is_Some (prop r "maxEscalationsPerNode")) then Err RenamedKnob
      else
        kmax ← count_limit r "kMax" 1;
        if (kmax <? 1)%Z then Err BadKMax
        else
          revisions ← count_limit r "maxRevisionsPerRun" DEFAULT_MAX_REVISIONS_PER_RUN;
          spawns ← count_limit r "maxTotalSpawns" DEFAULT_MAX_TOTAL_SPAWNS;
          escalations ← count_limit r "maxEscalationsPerLogicalTask" 2;
          depth ← count_limit r "maxDepth" 1;
          ceiling ← usd_limit r "runBudgetUsdCeiling";
          cap ← usd_limit r "orchestratorCapUsd";
          reserve ← usd_limit r "finalizeReserveUsd";
          Ok (mkLimits revisions spawns escalations depth kmax ceiling cap reserve)
  end.

Definition lineageWeightOf (limits : TerminationLimits) : Z :=
  maxEscalationsPerLogicalTask limits + kMax limits.

Definition phiInitialOf (limits : TerminationLimits) : Z :=
  maxRevisionsPerRun limits + lineageWeightOf limits * maxTotalSpawns limits.

(** ** The account *)

Record LineageState := mkLineage {
  escalationUnitsRemaining : Z;
  rungsRemaining : Z;
  rungIndex : Z;
}.

Record TerminationAccount := mkAccount {
  limits : TerminationLimits;
  revisionUnits : Z;
  spawnUnits : Z;
  lineages : jsmap string LineageState;
}.

Definition newTerminationAccount (l : TerminationLimits) : TerminationAccount :=
  mkAccount l (maxRevisionsPerRun l) (maxTotalSpawns l) jm_empty.

Definition lineage_units (s : LineageState) : Z := escalationUnitsRemaining s + rungsRemaining s.

Definition phi (a : TerminationAccount) : Z :=
  foldl (fun p s => p + lineage_units s)%Z
    (revisionUnits a + lineageWeightOf (limits a) * spawnUnits a)%Z (jm_values (lineages a)).

Definition rungIndexOf (a : TerminationAccount) (logicalTaskId : string) : Z :=
  match jm_get (lineages a) logicalTaskId with Some s => rungIndex s | None => 0 end.

Definition spawnUnitsExhausted (a : TerminationAccount) : bool := (spawnUnits a <=? 0)%Z.

Inductive TerminationResource :=
  | ResRevisionUnits | ResSpawnUnits | ResEscalationUnits | ResRungs | ResDepth.

(** How a debit ends: with the balances after, denied on underflow, or with a
    [ConfigError]. *)
Inductive DebitResult :=
  | Debited (balanceAfter : Z)
  | RungDebited (rungIndexAfter rungsRemainingAfter : Z)
  | Underflow (resource : TerminationResource)
  | LadderExceedsFrozen (ladderLength : Z).

Record DebitLineage := mkDebitLineage {
  sp_logicalTaskId : string;
  sp_isNew : bool;
  sp_ladderLength : option Z;
}.

Definition set_lineage (a : TerminationAccount) (id : string) (s : LineageState) : TerminationAccount :=
  mkAccount (limits a) (revisionUnits a) (spawnUnits a) (jm_set (lineages a) id s).

Definition take_spawn (a : TerminationAccount) : TerminationAccount * DebitResult :=
  (mkAccount (limits a) (revisionUnits a) (spawnUnits a - 1) (lineages a),
   Debited (spawnUnits a - 1)).

Definition debitSpawn (a : TerminationAccount) (lineage : option DebitLineage)
    : TerminationAccount * DebitResult :=
  if (spawnUnits a <=? 0)%Z then (a, Underflow ResSpawnUnits)
  else
    match lineage with
    | None => take_spawn a
    | Some l =>
        let ladderLength := default 1%Z (sp_ladderLength l) in
        if (kMax (limits a) <? ladderLength)%Z then (a, LadderExceedsFrozen ladderLength)
        else if sp_isNew l && bool_decide (jm_get (lineages a) (sp_logicalTaskId l) = None) then
          take_spawn (set_lineage a (sp_logicalTaskId l)
            (mkLineage (maxEscalationsPerLogicalTask (limits a)) (ladderLength - 1) 0))
        else take_spawn a
    end.

Definition debitRevision (a : TerminationAccount) : TerminationAccount * DebitResult :=
  if (revisionUnits a <=? 0)%Z then (a, Underflow ResRevisionUnits)
  else (mkAccount (limits a) (revisionUnits a - 1) (spawnUnits a) (lineages a),
        Debited (revisionUnits a - 1)).

(** The lineage's state, allocated on first touch. *)
Definition requireLineage (a : TerminationAccount) (id : string) : TerminationAccount * LineageState :=
  match jm_get (lineages a) id with
  | Some s => (a, s)
  | None =>
      let fresh := mkLineage (maxEscalationsPerLogicalTask (limits a)) 0 0 in
      (set_lineage a id fresh, fresh)
  end.

Definition debitEscalation (a : TerminationAccount) (id : string) : TerminationAccount * DebitResult :=
  let '(a, s) := requireLineage a id in
  if (escalationUnitsRemaining s <=? 0)%Z then (a, Underflow ResEscalationUnits)
  else
    (set_lineage a id (mkLineage (escalationUnitsRemaining s - 1) (rungsRemaining s) (rungIndex s)),
     Debited (escalationUnitsRemaining s - 1)).

Definition debitRung (a : TerminationAccount) (id : string) : TerminationAccount * DebitResult :=
  let '(a, s) := requireLineage a id in
  if (rungsRemaining s <=? 0)%Z then (a, Underflow ResRungs)
  else
    (set_lineage a id (mkLineage (escalationUnitsRemaining s) (rungsRemaining s - 1) (rungIndex s + 1)),
     RungDebited (rungIndex s + 1) (rungsRemaining s - 1)).

Definition exhaustionCodeOf (resource : TerminationResource) : string :=
  match resource with
  | ResRevisionUnits => "revision_budget_exhausted"
  | ResSpawnUnits => "termination_exhausted"
  | ResEscalationUnits => "escalation_budget_exhausted"
  | ResRungs => "ladder_exhausted"
  | ResDepth => "depth"
  end.

Record TerminationAccountSnapshot := mkSnapshot {
  sn_revisionUnitsRemaining : Z;
  sn_spawnUnitsRemaining : Z;
  sn_perLineage : list (string * (Z * Z));
  sn_phi : Z;
}.

Definition snapshot (a : TerminationAccount) : TerminationAccountSnapshot :=
  mkSnapshot (revisionUnits a) (spawnUnits a)
    (map (fun '(id, s) => (id, (escalationUnitsRemaining s, rungsRemaining s)))
       (jm_entries (lineages a)))
    (phi a).

(** The value of a [termination.denied] entry. *)
Record TerminationDeniedValue := mkDenied {
  dn_resource : TerminationResource;
  dn_logicalTaskId : option string;
  dn_requestedByRef : option N;
  dn_reasonCode : string;
  dn_snapshotAfter : TerminationAccountSnapshot;
}.

(** [debit]: the denied entry is handed to the writer before the failure is
    returned; a lineage resource without a lineage, or an underflow without a
    bound writer, is a [ConfigError]. *)
Inductive UnifiedDebit :=
  | DebitOk (balanceAfter : Z)
  | DebitDenied (written : TerminationDeniedValue)
  | DebitConfigError.

Definition tryDebit (a : TerminationAccount) (resource : TerminationResource)
    (lineage : option string) : option (TerminationAccount * DebitResult) :=
  match resource, lineage with
  | ResRevisionUnits, _ => Some (debitRevision a)
  | ResSpawnUnits, _ => Some (debitSpawn a None)
  | ResEscalationUnits, Some id => Some (debitEscalation a id)
  | ResRungs, Some id => Some (debitRung a id)
  | _, _ => None
  end.

Definition debit (a : TerminationAccount) (resource : TerminationResource)
    (lineage : option string) (requestedByRef : option N) (reasonCode : option string)
    (writer_bound : bool) : TerminationAccount * UnifiedDebit :=
  match tryDebit a resource lineage with
  | None => (a, DebitConfigError)
  | Some (a', Debited balance) => (a', DebitOk balance)
  | Some (a', RungDebited _ rungsAfter) => (a', DebitOk rungsAfter)
  | Some (a', _) =>
      if writer_bound then
        (a', DebitDenied (mkDenied resource lineage requestedByRef
                            (default (exhaustionCodeOf resource) reasonCode) (snapshot a')))
      else (a', DebitConfigError)
  end.

(** Restoring from journaled balances. *)
Definition restoreLineage (a : TerminationAccount) (id : string) (units rungs : Z)
    (rungIndex : option Z) : TerminationAccount :=
  set_lineage a id (mkLineage units rungs (default 0%Z rungIndex)).

Definition restoreCounters (a : TerminationAccount) (revisions spawns : option Z)
    : TerminationAccount :=
  mkAccount (limits a) (default (revisionUnits a) revisions) (default (spawnUnits a) spawns)
    (lineages a).

(** The fields of the limits vector, as [Object.keys] lists them. *)
Definition limit_fields (l : TerminationLimits) : list (string * json) :=
  [("maxRevisionsPerRun", JNum (maxRevisionsPerRun l));
   ("maxTotalSpawns", JNum (maxTotalSpawns l));
   ("maxEscalationsPerLogicalTask", JNum (maxEscalationsPerLogicalTask l));
   ("maxDepth", JNum (maxDepth l));
   ("kMax", JNum (kMax l));
   ("runBudgetUsdCeiling", runBudgetUsdCeiling l);
   ("orchestratorCapUsd", orchestratorCapUsd l);
   ("finalizeReserveUsd", finalizeReserveUsd l)].

(** The value of a [termination.init] entry. *)
Definition buildTerminationInitValue (l : TerminationLimits) (registrySnapshotHash : string) : json :=
  JObj [("limits", JObj (limit_fields l));
        ("profileRegistrySnapshotHash", JStr registrySnapshotHash);
        ("phiInitial", JNum (phiInitialOf l))].

(** [===] on two numbers in lowest terms. *)
Definition same_number (v w : json) : bool :=
  match v, w with
  | JNum n, JNum m => (n =? m)%Z
  | JFrac n d, JFrac m e => (n =? m)%Z && (d =? e)%positive
  | _, _ => false
  end.

Definition terminationConfigDrift (frozen : TerminationLimits) (live : record)
    : list (string * json * json) :=
  omap (fun '(field, frozenValue) =>
    liveValue ← prop live field;
    if same_number liveValue frozenValue then None else Some (field, frozenValue, liveValue))
    (limit_fields frozen).

(** ** The fold *)

Inductive FoldFailure :=
  | MalformedInit (seq : N)
  | InvalidLimits (e : LimitsError)
  | Divergence (seq : N) (what : string) (embedded : json) (recomputed : Z)
  | Exhausted (seq : N) (resource : TerminationResource)
  | LadderTooLong (seq : N) (ladderLength : Z)
  | NonIntegerLadder (seq : N)
  | ReadOfNullInit (seq : N).

Record TerminationInit := mkInit { in_limits : json; in_phiInitial : json }.

(** [readTerminationInit]: [undefined] when malformed; a [null] value throws. *)
Definition readTerminationInit (entry : JournalEntry) : result FoldFailure (option TerminationInit) :=
  match e_value entry with
  | None => Ok None
  | Some JNull => Err (ReadOfNullInit (e_seq entry))
  | Some v =>
      let r := asRecord (Some v) in
      if is_number (opt_prop r "phiInitial") then
        match opt_prop r "limits" with
        | Some l => Ok (Some (mkInit l (default JNull (opt_prop r "phiInitial"))))
        | None => Ok None
        end
      else Ok None
  end.

Definition assertBalance (entry : JournalEntry) (what : string) (embedded : option json)
    (recomputed : Z) : result FoldFailure unit :=
  match embedded with
  | Some v =>
      if num_differs (Some v) recomputed then Err (Divergence (e_seq entry) what v recomputed)
      else Ok tt
  | None => Ok tt
  end.

Record FoldAdmission := mkAdmission {
  ad_logicalTaskId : option string;
  ad_isNew : bool;
  ad_ladderLength : option json;
  ad_spawnUnitsAfter : option json;
}.

Definition readSpawnAdmission (value : record) : option FoldAdmission :=
  let decision := asRecord (prop value "decision") in
  let verdict := asRecord (opt_prop decision "verdict") in
  match verdict with
  | None => None
  | Some v =>
      if is_str (prop v "kind") "reject" then None
      else
        let lineage := asRecord (prop v "lineage") in
        Some (mkAdmission (as_string (opt_prop lineage "logicalTaskId"))
                (is_true_json (opt_prop lineage "isNew"))
                (if is_number (opt_prop decision "ladderLength")
                 then opt_prop decision "ladderLength" else None)
                (prop v "spawnUnitsAfter"))
  end.

Definition readAdmissions (entry : JournalEntry) : list FoldAdmission :=
  match as_array (opt_prop (asRecord (e_value entry)) "admissions") with
  | None => []
  | Some admissions =>
      omap (fun raw => r ← asRecord (Some raw); readSpawnAdmission r) admissions
  end.

(** The integer a JSON ladder length denotes. *)
Definition ladder_integer (seq : N) (l : option json) : result FoldFailure (option Z) :=
  match l with
  | None => Ok None
  | Some (JNum n) => Ok (Some n)
  | Some _ => Err (NonIntegerLadder seq)
  end.

Definition applySpawnDebit (a : TerminationAccount) (entry : JournalEntry) (admission : FoldAdmission)
    : result FoldFailure TerminationAccount :=
  ladder ← match ad_logicalTaskId admission with
           | None => Ok None
           | Some _ => ladder_integer (e_seq entry) (ad_ladderLength admission)
           end;
  let lineage := id ← ad_logicalTaskId admission; Some (mkDebitLineage id (ad_isNew admission) ladder) in
  match debitSpawn a lineage with
  | (a', Debited after) =>
      _ ← assertBalance entry "spawnUnitsAfter" (ad_spawnUnitsAfter admission) after; Ok a'
  | (_, LadderExceedsFrozen n) => Err (LadderTooLong (e_seq entry) n)
  | (_, _) => Err (Exhausted (e_seq entry) ResSpawnUnits)
  end.

Fixpoint applySpawnDebits (a : TerminationAccount) (entry : JournalEntry)
    (admissions : list FoldAdmission) : result FoldFailure TerminationAccount :=
  match admissions with
  | [] => Ok a
  | ad :: rest => a' ← applySpawnDebit a entry ad; applySpawnDebits a' entry rest
  end.

(** One escalation debit of a decision: its lineage and embedded balance. *)
Definition foldEscalation (a : TerminationAccount) (entry : JournalEntry) (id : string)
    (embedded : option json) : result FoldFailure TerminationAccount :=
  match debitEscalation a id with
  | (a', Debited after) => _ ← assertBalance entry "escalationUnitsAfter" embedded after; Ok a'
  | _ => Err (Exhausted (e_seq entry) ResEscalationUnits)
  end.

Fixpoint foldEscalations (a : TerminationAccount) (entry : JournalEntry) (debits : list record)
    : result FoldFailure TerminationAccount :=
  match debits with
  | [] => Ok a
  | d :: rest =>
      a' ← foldEscalation a entry (default "" (readString d "logicalTaskId"))
             (prop d "escalationUnitsAfter");
      foldEscalations a' entry rest
  end.

(** The debits of an escalation decision: its own, then the class array. *)
Definition escalation_debits (value : record) : list record :=
  (if bool_decide (is_Some (readString value "logicalTaskId")) then [value] else []) ++
  match as_array (prop value "debits") with
  | None => []
  | Some raws =>
      omap (fun raw =>
        d ← asRecord (Some raw);
        if bool_decide (is_Some (readString d "logicalTaskId")) then Some d else None) raws
  end.

Record FoldState := mkFoldState {
  fs_account : TerminationAccount;
  fs_closedTargets : gset N;
  fs_denials : list (N * option json);
}.

Definition with_account (s : FoldState) (a : TerminationAccount) : FoldState :=
  mkFoldState a (fs_closedTargets s) (fs_denials s).

Definition fold_resolution (s : FoldState) (entry : JournalEntry) (ref : N)
    : result FoldFailure FoldState :=
  if decide (ref ∈ fs_closedTargets s) then Ok s
  else
    let s' := mkFoldState (fs_account s) ({[ref]} ∪ fs_closedTargets s) (fs_denials s) in
    match e_resolution entry with
    | Some payload =>
        match r_countsAgainstLimit payload, r_logicalTaskId payload with
        | Some true, Some id =>
            if decide (r_by payload = ByClassDecision) then Ok s'
            else
              match debitEscalation (fs_account s) id with
              | (a', Debited _) => Ok (with_account s' a')
              | _ => Err (Exhausted (e_seq entry) ResEscalationUnits)
              end
        | _, _ => Ok s'
        end
    | None => Ok s'
    end.

Definition fold_revision (s : FoldState) (entry : JournalEntry) : result FoldFailure FoldState :=
  match debitRevision (fs_account s) with
  | (a, Debited after) =>
      _ ← assertBalance entry "revisionUnitsAfter"
            (opt_prop (asRecord (e_value entry)) "revisionUnitsAfter") after;
      a' ← applySpawnDebits a entry (readAdmissions entry);
      Ok (with_account s a')
  | _ => Err (Exhausted (e_seq entry) ResRevisionUnits)
  end.

Definition fold_rung (s : FoldState) (entry : JournalEntry) (value : record) (id : string)
    : result FoldFailure FoldState :=
  match debitRung (fs_account s) id with
  | (a, RungDebited index rungs) =>
      _ ← assertBalance entry "rungIndexAfter" (prop value "rungIndexAfter") index;
      _ ← assertBalance entry "rungsRemainingAfter" (prop value "rungsRemainingAfter") rungs;
      a' ← applySpawnDebits a entry (readAdmissions entry);
      Ok (with_account s a')
  | _ => Err (Exhausted (e_seq entry) ResRungs)
  end.

Definition fold_decision (s : FoldState) (entry : JournalEntry) : result FoldFailure FoldState :=
  match asRecord (e_value entry) with
  | None => Ok s
  | Some value =>
      if is_str (prop value "decisionType") "spawn-admission" then
        match readSpawnAdmission value with
        | None => Ok s
        | Some admission => with_account s <$> applySpawnDebit (fs_account s) entry admission
        end
      else if is_str (prop value "decisionType") "escalation-decision"
              && is_true_json (prop value "countsAgainstLimit") then
        a ← foldEscalations (fs_account s) entry (escalation_debits value);
        with_account s <$> applySpawnDebits a entry (readAdmissions entry)
      else if is_str (prop value "decisionType") "ladder-verdict"
              && is_true_json (prop value "raisesRung") then
        match readString value "logicalTaskId" with
        | None => Ok s
        | Some id => fold_rung s entry value id
        end
      else Ok s
  end.

Definition fold_termination_entry (s : FoldState) (entry : JournalEntry)
    : result FoldFailure FoldState :=
  match e_kind entry, e_ref entry with
  | KTerminationDenied, _ =>
      Ok (mkFoldState (fs_account s) (fs_closedTargets s)
            (fs_denials s ++ [(e_seq entry, e_value entry)]))
  | KResolution, Some ref => fold_resolution s entry ref
  | KPlanRevision, _ => fold_revision s entry
  | KDecision, _ => fold_decision s entry
  | _, _ => Ok s
  end.

Fixpoint fold_termination_entries (initSeq : N) (s : FoldState) (entries : list JournalEntry)
    : result FoldFailure FoldState :=
  match entries with
  | [] => Ok s
  | entry :: rest =>
      s' ← (if (e_seq entry <=? initSeq)%N then Ok s else fold_termination_entry s entry);
      fold_termination_entries initSeq s' rest
  end.

Definition is_init (entry : JournalEntry) : bool := bool_decide (e_kind entry = KTerminationInit).

Record TerminationFold := mkTermination {
  tf_account : TerminationAccount;
  tf_initRef : N;
  tf_init : TerminationInit;
  tf_denials : list (N * option json);
}.

Definition foldTermination (entries : list JournalEntry)
    : result FoldFailure (option TerminationFold) :=
  match find_first is_init entries with
  | None => Ok None
  | Some initEntry =>
      init ← readTerminationInit initEntry;
      match init with
      | None => Err (MalformedInit (e_seq initEntry))
      | Some init =>
          match validateTerminationLimits (in_limits init) with
          | Err e => Err (InvalidLimits e)
          | Ok l =>
              s ← fold_termination_entries (e_seq initEntry)
                    (mkFoldState (newTerminationAccount l) ∅ []) entries;
              Ok (Some (mkTermination (fs_account s) (e_seq initEntry) init (fs_denials s)))
          end
      end
  end.


(** ** Reference views of the account and of the journaled debits *)

(** A debit of any resource, as live code and the fold request it. *)
Inductive DebitOp :=
  | OpRevision
  | OpSpawn (lineage : option DebitLineage)
  | OpEscalation (logicalTaskId : string)
  | OpRung (logicalTaskId : string).

Definition apply_op (a : TerminationAccount) (op : DebitOp) : TerminationAccount * DebitResult :=
  match op with
  | OpRevision => debitRevision a
  | OpSpawn l => debitSpawn a l
  | OpEscalation id => debitEscalation a id
  | OpRung id => debitRung a id
  end.

(** The balances a successful debit hands to its carrying entry. *)
Definition balances (r : DebitResult) : option (list Z) :=
  match r with
  | Debited b => Some [b]
  | RungDebited i b => Some [i; b]
  | _ => None
  end.

(** The ladder of an admission is at least the implicit rung, and escalations
    and raises are of lineages the account knows. *)
Definition op_admissible (a : TerminationAccount) (op : DebitOp) : Prop :=
  match op with
  | OpRevision | OpSpawn None => True
  | OpSpawn (Some l) => (1 ≤ default 1 (sp_ladderLength l))%Z
  | OpEscalation id | OpRung id => is_Some (jm_get (lineages a) id)
  end.

(** The accounts a run of debits goes through, and how many succeeded. *)
Fixpoint run_ops (a : TerminationAccount) (ops : list DebitOp) : TerminationAccount * Z :=
  match ops with
  | [] => (a, 0%Z)
  | op :: rest =>
      let '(a', r) := apply_op a op in
      let '(b, n) := run_ops a' rest in
      (b, match balances r with Some _ => n + 1 | None => n end)%Z
  end.

Fixpoint ops_admissible (a : TerminationAccount) (ops : list DebitOp) : Prop :=
  match ops with
  | [] => True
  | op :: rest => op_admissible a op ∧ ops_admissible (fst (apply_op a op)) rest
  end.

Definition limits_ok (l : TerminationLimits) : Prop :=
  (0 ≤ maxRevisionsPerRun l ∧ 0 ≤ maxTotalSpawns l ∧ 0 ≤ maxEscalationsPerLogicalTask l ∧
   1 ≤ kMax l)%Z.

Definition lineage_ok (s : LineageState) : Prop :=
  (0 ≤ escalationUnitsRemaining s ∧ 0 ≤ rungsRemaining s ∧ 0 ≤ rungIndex s)%Z.

(** No counter is negative. *)
Record account_ok (a : TerminationAccount) : Prop := {
  aok_limits : limits_ok (limits a);
  aok_revisions : (0 ≤ revisionUnits a)%Z;
  aok_spawns : (0 ≤ spawnUnits a)%Z;
  aok_lineages : ∀ id s, jm_get (lineages a) id = Some s → lineage_ok s;
  aok_wf : jm_wf (lineages a);
}.

(** ** The debits a journal carries

    The reading of a journal without an account: which debits its entries
    carry, in the order they are made, and the balances they embed. *)

Record CarriedDebit := mkCarried {
  cd_entry : JournalEntry;
  cd_op : DebitOp;
  cd_checks : list (string * option json);
}.

Definition admission_debit (entry : JournalEntry) (ad : FoldAdmission)
    : result FoldFailure CarriedDebit :=
  let carried l :=
    mkCarried entry (OpSpawn l) [("spawnUnitsAfter", ad_spawnUnitsAfter ad)] in
  match ad_logicalTaskId ad with
  | None => Ok (carried None)
  | Some id =>
      ladder ← ladder_integer (e_seq entry) (ad_ladderLength ad);
      Ok (carried (Some (mkDebitLineage id (ad_isNew ad) ladder)))
  end.

Definition escalation_debit (entry : JournalEntry) (d : record) : result FoldFailure CarriedDebit :=
  Ok (mkCarried entry (OpEscalation (default "" (readString d "logicalTaskId")))
        [("escalationUnitsAfter", prop d "escalationUnitsAfter")]).

Definition admission_debits (entry : JournalEntry) : list (result FoldFailure CarriedDebit) :=
  map (admission_debit entry) (readAdmissions entry).

Definition decision_debits (entry : JournalEntry) : list (result FoldFailure CarriedDebit) :=
  match asRecord (e_value entry) with
  | None => []
  | Some value =>
      if is_str (prop value "decisionType") "spawn-admission" then
        map (admission_debit entry) (option_list (readSpawnAdmission value))
      else if is_str (prop value "decisionType") "escalation-decision"
              && is_true_json (prop value "countsAgainstLimit") then
        map (escalation_debit entry) (escalation_debits value) ++ admission_debits entry
      else if is_str (prop value "decisionType") "ladder-verdict"
              && is_true_json (prop value "raisesRung") then
        match readString value "logicalTaskId" with
        | None => []
        | Some id =>
            Ok (mkCarried entry (OpRung id)
                  [("rungIndexAfter", prop value "rungIndexAfter");
                   ("rungsRemainingAfter", prop value "rungsRemainingAfter")])
            :: admission_debits entry
        end
      else []
  end.

(** A resolution debits when it is the first of its target. *)
Definition resolution_debits (entry : JournalEntry) : list (result FoldFailure CarriedDebit) :=
  match e_resolution entry with
  | Some payload =>
      match r_countsAgainstLimit payload, r_logicalTaskId payload with
      | Some true, Some id =>
          if decide (r_by payload = ByClassDecision) then []
          else [Ok (mkCarried entry (OpEscalation id) [])]
      | _, _ => []
      end
  | None => []
  end.

Definition entry_debits (closed : gset N) (entry : JournalEntry)
    : list (result FoldFailure CarriedDebit) :=
  match e_kind entry, e_ref entry with
  | KTerminationDenied, _ => []
  | KResolution, Some ref => if decide (ref ∈ closed) then [] else resolution_debits entry
  | KPlanRevision, _ =>
      Ok (mkCarried entry OpRevision
            [("revisionUnitsAfter", opt_prop (asRecord (e_value entry)) "revisionUnitsAfter")])
      :: admission_debits entry
  | KDecision, _ => decision_debits entry
  | _, _ => []
  end.

Definition closes (entry : JournalEntry) : gset N :=
  match e_kind entry, e_ref entry with KResolution, Some ref => {[ref]} | _, _ => ∅ end.

Fixpoint journal_debits (initSeq : N) (closed : gset N) (entries : list JournalEntry)
    : list (result FoldFailure CarriedDebit) :=
  match entries with
  | [] => []
  | entry :: rest =>
      if (e_seq entry <=? initSeq)%N then journal_debits initSeq closed rest
      else entry_debits closed entry ++ journal_debits initSeq (closes entry ∪ closed) rest
  end.

(** The failure a denied debit of the journal is. *)
Definition debit_failure (entry : JournalEntry) (op : DebitOp) (r : DebitResult) : FoldFailure :=
  match r, op with
  | LadderExceedsFrozen n, _ => LadderTooLong (e_seq entry) n
  | _, OpRevision => Exhausted (e_seq entry) ResRevisionUnits
  | _, OpSpawn _ => Exhausted (e_seq entry) ResSpawnUnits
  | _, OpEscalation _ => Exhausted (e_seq entry) ResEscalationUnits
  | _, OpRung _ => Exhausted (e_seq entry) ResRungs
  end.

Fixpoint check_balances (entry : JournalEntry) (checks : list (string * option json))
    (recomputed : list Z) : result FoldFailure unit :=
  match checks, recomputed with
  | (what, embedded) :: checks', z :: recomputed' =>
      _ ← assertBalance entry what embedded z; check_balances entry checks' recomputed'
  | _, _ => Ok tt
  end.

Definition replay_debit (a : TerminationAccount) (rc : result FoldFailure CarriedDebit)
    : result FoldFailure TerminationAccount :=
  cd ← rc;
  let '(a', r) := apply_op a (cd_op cd) in
  match balances r with
  | Some bs => _ ← check_balances (cd_entry cd) (cd_checks cd) bs; Ok a'
  | None => Err (debit_failure (cd_entry cd) (cd_op cd) r)
  end.

Fixpoint replay_debits (a : TerminationAccount) (debits : list (result FoldFailure CarriedDebit))
    : result FoldFailure TerminationAccount :=
  match debits with
  | [] => Ok a
  | rc :: rest => a' ← replay_debit a rc; replay_debits a' rest
  end.

(** *** The variant as a sum *)

Definition units_sum (m : jsmap string LineageState) : Z :=
  foldr (fun s n => lineage_units s + n)%Z 0%Z (jm_values m).

Lemma foldl_units p l :
  foldl (fun p s => p + lineage_units s)%Z p l = (p + foldr (fun s n => lineage_units s + n) 0 l)%Z.
Proof. revert p. induction l as [|s l IH]; intros p; cbn; [lia|]. rewrite IH. lia. Qed.

Lemma phi_sum a :
  phi a = (revisionUnits a + lineageWeightOf (limits a) * spawnUnits a + units_sum (lineages a))%Z.
Proof. unfold phi, units_sum. apply foldl_units. Qed.

Lemma foldr_units_app l k :
  foldr (fun s n => lineage_units s + n)%Z 0%Z (l ++ k) =
  (foldr (fun s n => lineage_units s + n) 0 l + foldr (fun s n => lineage_units s + n) 0 k)%Z.
Proof. induction l; cbn; lia. Qed.

(** Setting a key replaces its share of the sum. *)
Lemma units_sum_set m id s :
  jm_wf m →
  units_sum (jm_set m id s) =
  (units_sum m + lineage_units s - from_option lineage_units 0 (jm_get m id))%Z.
Proof.
  intros [Hnd Hk]. unfold units_sum, jm_values, jm_get. cbn.
  assert (∀ l : list string, id ∉ l →
    omap (M := list) (fun k => <[id:=s]> (jm_map m) !! k) l =
    omap (M := list) (fun k => jm_map m !! k) l) as Hfresh.
  { induction l as [|k l IH]; [done|]. intros [Hne Hl]%not_elem_of_cons. cbn.
    by rewrite lookup_insert_ne, IH. }
  case_decide as Hs.
  - destruct Hs as [s0 Hs0]. rewrite Hs0. cbn.
    assert (id ∈ jm_order m) as (l1 & l2 & Ho)%list_elem_of_split by (by apply Hk; eexists).
    rewrite Ho in *. apply NoDup_app in Hnd as (_ & Hd & [Hn2 _]%NoDup_cons).
    assert (id ∉ l1) as Hn1 by (intros ?; eapply Hd; [done|left]).
    rewrite !omap_app, !foldr_units_app. cbn.
    rewrite lookup_insert_eq, Hs0, !Hfresh by done. cbn. lia.
  - rewrite omap_app, foldr_units_app, Hfresh by (by rewrite Hk).
    cbn. rewrite lookup_insert_eq. cbn.
    destruct (jm_map m !! id) eqn:E; [by destruct Hs; eexists|]. cbn. lia.
Qed.

(** What a successful debit takes from the variant. *)
Definition debit_cost (a : TerminationAccount) (op : DebitOp) : Z :=
  match op with
  | OpSpawn None => lineageWeightOf (limits a)
  | OpSpawn (Some l) =>
      if sp_isNew l && bool_decide (jm_get (lineages a) (sp_logicalTaskId l) = None)
      then (kMax (limits a) - default 1 (sp_ladderLength l) + 1)%Z
      else lineageWeightOf (limits a)
  | _ => 1%Z
  end.

Lemma set_lineage_ok a id s :
  account_ok a → lineage_ok s → account_ok (set_lineage a id s).
Proof.
  intros [] Hs. constructor; cbn; auto with rulvar.
  intros id' s'. rewrite jm_get_set. case_decide; [by intros [= <-]|eauto].
Qed.

Lemma take_spawn_ok a :
  account_ok a → (0 < spawnUnits a)%Z → account_ok (fst (take_spawn a)).
Proof. intros [] Hs. constructor; cbn; auto; lia. Qed.

Lemma phi_set_lineage a id s :
  account_ok a →
  phi (set_lineage a id s) =
  (phi a + lineage_units s - from_option lineage_units 0 (jm_get (lineages a) id))%Z.
Proof.
  intros []. rewrite !phi_sum. unfold set_lineage. cbn [limits revisionUnits spawnUnits lineages].
  rewrite units_sum_set by done. lia.
Qed.

Lemma phi_take_spawn a : phi (fst (take_spawn a)) = (phi a - lineageWeightOf (limits a))%Z.
Proof. rewrite !phi_sum. cbn. lia. Qed.

Lemma requireLineage_known a id s :
  jm_get (lineages a) id = Some s → requireLineage a id = (a, s).
Proof. intros Hs. unfold requireLineage. by rewrite Hs. Qed.

Lemma units_sum_nonneg a : account_ok a → (0 ≤ units_sum (lineages a))%Z.
Proof.
  intros Ha. unfold units_sum.
  assert (∀ s, s ∈ jm_values (lineages a) → (0 ≤ lineage_units s)%Z) as Hall.
  { intros s [id Hid]%(jm_values_spec _ _ (aok_wf a Ha)).
    destruct (aok_lineages a Ha id s Hid) as (? & ? & ?). unfold lineage_units. lia. }
  induction (jm_values (lineages a)) as [|s l IH]; cbn; [done|].
  pose proof (Hall s ltac:(left)). enough (0 ≤ foldr (fun s n => lineage_units s + n) 0 l)%Z by lia.
  apply IH. intros s' Hs'. apply Hall. by right.
Qed.

Lemma phi_nonneg a : account_ok a → (0 ≤ phi a)%Z.
Proof.
  intros Ha. rewrite phi_sum. pose proof (units_sum_nonneg a Ha).
  destruct Ha as [(? & ? & ? & ?) ? ? _ _]. unfold lineageWeightOf. nia.
Qed.

Lemma debitRevision_effect a a' r :
  account_ok a → debitRevision a = (a', r) →
  account_ok a' ∧ limits a' = limits a ∧
  match balances r with Some _ => phi a' = phi a - 1 | None => a' = a end%Z.
Proof.
  intros Ha. unfold debitRevision. case_match eqn:E; intros [= <- <-]; [done|].
  apply Z.leb_gt in E. destruct Ha. split_and!; cbn; try done.
  - constructor; cbn; auto; lia.
  - rewrite !phi_sum. cbn. lia.
Qed.

Lemma debitEscalation_effect a id a' r :
  account_ok a → is_Some (jm_get (lineages a) id) → debitEscalation a id = (a', r) →
  account_ok a' ∧ limits a' = limits a ∧
  match balances r with Some _ => phi a' = phi a - 1 | None => a' = a end%Z.
Proof.
  intros Ha [s Hs]. unfold debitEscalation. rewrite (requireLineage_known a id s Hs).
  destruct (aok_lineages a Ha id s Hs) as (? & ? & ?).
  case_match eqn:E; intros [= <- <-]; [done|]. apply Z.leb_gt in E.
  split_and!; [|done|]; cbn [fst balances].
  - apply set_lineage_ok; [done|]. unfold lineage_ok. cbn. lia.
  - rewrite phi_set_lineage, Hs by done. unfold lineage_units. cbn. lia.
Qed.

Lemma debitRung_effect a id a' r :
  account_ok a → is_Some (jm_get (lineages a) id) → debitRung a id = (a', r) →
  account_ok a' ∧ limits a' = limits a ∧
  match balances r with Some _ => phi a' = phi a - 1 | None => a' = a end%Z.
Proof.
  intros Ha [s Hs]. unfold debitRung. rewrite (requireLineage_known a id s Hs).
  destruct (aok_lineages a Ha id s Hs) as (? & ? & ?).
  case_match eqn:E; intros [= <- <-]; [done|]. apply Z.leb_gt in E.
  split_and!; [|done|]; cbn [fst balances].
  - apply set_lineage_ok; [done|]. unfold lineage_ok. cbn. lia.
  - rewrite phi_set_lineage, Hs by done. unfold lineage_units. cbn. lia.
Qed.

Lemma debitSpawn_effect a l a' r :
  account_ok a → op_admissible a (OpSpawn l) → debitSpawn a l = (a', r) →
  account_ok a' ∧ limits a' = limits a ∧
  match balances r with
  | Some _ => phi a' = phi a - debit_cost a (OpSpawn l) ∧ 1 ≤ debit_cost a (OpSpawn l)
  | None => a' = a
  end%Z.
Proof.
  intros Ha Hadm. unfold debitSpawn. case_match eqn:E; [by intros [= <- <-]|].
  apply Z.leb_gt in E. destruct (aok_limits a Ha) as (? & ? & ? & ?).
  assert (1 ≤ lineageWeightOf (limits a))%Z by (unfold lineageWeightOf; lia).
  destruct l as [l|]; cbn [op_admissible debit_cost] in *.
  2: { intros [= <- <-]. pose proof (take_spawn_ok a Ha E). pose proof (phi_take_spawn a). done. }
  set (K := default 1%Z (sp_ladderLength l)) in *.
  case_match eqn:EK; [by intros [= <- <-]|]. apply Z.ltb_ge in EK.
  case_match eqn:En; intros [= <- <-].
  - apply andb_prop in En as [_ Hnone%bool_decide_eq_true].
    set (s := mkLineage _ _ _).
    assert (account_ok (set_lineage a (sp_logicalTaskId l) s)) as Hset.
    { apply set_lineage_ok; [done|]. unfold s, lineage_ok. cbn. lia. }
    split_and!; [by apply (take_spawn_ok _ Hset)|done|].
    cbn [balances]. split; [|lia]. change (mkAccount _ _ _ _) with (fst (take_spawn (set_lineage a (sp_logicalTaskId l) s))).
    rewrite phi_take_spawn, phi_set_lineage, Hnone by done.
    unfold s, lineage_units, lineageWeightOf. cbn. lia.
  - pose proof (take_spawn_ok a Ha E). pose proof (phi_take_spawn a). done.
Qed.

Lemma apply_op_effect a op a' r :
  account_ok a → op_admissible a op → apply_op a op = (a', r) →
  account_ok a' ∧ limits a' = limits a ∧
  match balances r with
  | Some _ => phi a' = phi a - debit_cost a op ∧ 1 ≤ debit_cost a op
  | None => a' = a
  end%Z.
Proof.
  intros Ha Hadm. destruct op as [|l|id|id]; cbn [apply_op op_admissible debit_cost] in *; intros Hop.
  - destruct (debitRevision_effect a a' r Ha Hop) as (? & ? & ?). split_and!; [done..|].
    by case_match.
  - by eapply debitSpawn_effect.
  - destruct (debitEscalation_effect a id a' r Ha Hadm Hop) as (? & ? & ?). split_and!; [done..|].
    by case_match.
  - destruct (debitRung_effect a id a' r Ha Hadm Hop) as (? & ? & ?). split_and!; [done..|].
    by case_match.
Qed.

Lemma new_account_ok l : limits_ok l → account_ok (newTerminationAccount l).
Proof.
  intros Hl. pose proof Hl as (? & ? & ? & ?). constructor; cbn; auto with rulvar.
  intros id s. by rewrite jm_get_empty.
Qed.

Lemma phi_new l : phi (newTerminationAccount l) = phiInitialOf l.
Proof. rewrite phi_sum. unfold phiInitialOf, units_sum. cbn. lia. Qed.

Lemma run_ops_bounded a ops :
  account_ok a → ops_admissible a ops →
  account_ok (fst (run_ops a ops)) ∧
  (0 ≤ snd (run_ops a ops) ∧ snd (run_ops a ops) + phi (fst (run_ops a ops)) ≤ phi a)%Z.
Proof.
  revert a. induction ops as [|op ops IH]; intros a Ha; cbn; [intros _; split; [done|lia]|].
  intros [Hop Hrest]. destruct (apply_op a op) as [a1 r] eqn:E. cbn in Hrest.
  destruct (apply_op_effect a op a1 r Ha Hop E) as (H1 & _ & Hphi).
  destruct (IH a1 H1 Hrest) as (H2 & Hn & Hle).
  destruct (run_ops a1 ops) as [b n]. cbn in *. split; [done|].
  destruct (balances r); [lia|]. subst. lia.
Qed.

(** Without the condition on lineages a debit raises the variant: the first
    escalation of an unknown lineage brings its allocation. *)
Lemma first_touch_raises_variant a id :
  account_ok a → jm_get (lineages a) id = None → (1 ≤ maxEscalationsPerLogicalTask (limits a))%Z →
  phi (fst (debitEscalation a id)) = (phi a + maxEscalationsPerLogicalTask (limits a) - 1)%Z.
Proof.
  intros Ha Hid HE. unfold debitEscalation, requireLineage. rewrite Hid. cbn.
  destruct (Z.leb_spec (maxEscalationsPerLogicalTask (limits a)) 0); [lia|]. cbn [fst].
  pose proof (aok_limits a Ha) as (? & ? & ? & ?).
  assert (lineage_ok (mkLineage (maxEscalationsPerLogicalTask (limits a)) 0 0)) as Hs
    by (unfold lineage_ok; cbn; lia).
  rewrite phi_set_lineage by (by apply set_lineage_ok).
  rewrite phi_set_lineage, Hid by done.
  cbn [lineages set_lineage]. rewrite jm_get_set_eq. unfold lineage_units. cbn. lia.
Qed.

(** Every successful debit strictly lowers the variant, by the amount the
    lemma of the source gives (a revision, an escalation and a raise by one, a
    spawn by its weight less the allocation it brings, which is at least one),
    a denied debit changes nothing, and no counter ever becomes negative. *)
Theorem debit_lowers_variant a op a' r :
  account_ok a → op_admissible a op → apply_op a op = (a', r) →
  account_ok a' ∧ limits a' = limits a ∧ (0 ≤ phi a')%Z ∧
  match balances r with
  | Some _ => phi a' = phi a - debit_cost a op ∧ 1 ≤ debit_cost a op
  | None => a' = a
  end%Z.
Proof.
  intros Ha Hadm Hop. destruct (apply_op_effect a op a' r Ha Hadm Hop) as (? & ? & ?).
  split_and!; try done. by apply phi_nonneg.
Qed.

(** A run makes at most [phiInitialOf] successful debits in all, revisions,
    spawns, escalations and raises together, whatever is attempted in between. *)
Theorem debits_bounded l ops :
  limits_ok l → ops_admissible (newTerminationAccount l) ops →
  let '(a, n) := run_ops (newTerminationAccount l) ops in
  (n + phi a ≤ phiInitialOf l ∧ 0 ≤ phi a)%Z.
Proof.
  intros Hl Hops. destruct (run_ops_bounded _ ops (new_account_ok l Hl) Hops) as (Ha & _ & Hle).
  rewrite phi_new in Hle. pose proof (phi_nonneg _ Ha).
  by destruct (run_ops _ ops).
Qed.

Definition limits_example : TerminationLimits := mkLimits 2 3 2 1 3 (JNum 10) (JNum 0) (JNum 0).

Definition ops_example : list DebitOp :=
  [OpSpawn (Some (mkDebitLineage "t1" true (Some 3%Z))); OpEscalation "t1"; OpRung "t1"; OpRung "t1";
   OpRung "t1"; OpRevision; OpSpawn None; OpEscalation "t1"; OpEscalation "t1"].

Lemma limits_example_ok : limits_ok limits_example.
Proof. unfold limits_ok. cbn. lia. Qed.

Lemma debit_lowers_variant_witness :
  ∃ a', account_ok a' ∧ phi a' = (phiInitialOf limits_example - 1)%Z.
Proof.
  set (op := OpSpawn (Some (mkDebitLineage "t1" true (Some 3%Z)))).
  set (a := newTerminationAccount limits_example).
  exists (fst (apply_op a op)).
  destruct (debit_lowers_variant a op (fst (apply_op a op)) (snd (apply_op a op)))
    as (Hok & _ & _ & Hphi).
  - apply new_account_ok, limits_example_ok.
  - cbn. lia.
  - by destruct (apply_op a op).
  - split; [exact Hok|]. destruct Hphi as [-> _]. by vm_compute.
Defined.

Lemma debits_bounded_witness :
  snd (run_ops (newTerminationAccount limits_example) ops_example) = 7%Z ∧
  (7 ≤ phiInitialOf limits_example)%Z.
Proof.
  assert (ops_admissible (newTerminationAccount limits_example) ops_example) as Hadm.
  { cbn [ops_example ops_admissible]. split_and!; try done; by vm_compute; eexists. }
  pose proof (debits_bounded limits_example ops_example limits_example_ok Hadm) as Hb.
  assert (snd (run_ops (newTerminationAccount limits_example) ops_example) = 7%Z) as H7
    by (by vm_compute).
  split; [exact H7|]. destruct (run_ops _ ops_example) as [a n]. cbn in H7. lia.
Defined.


(** ** The fold is the replay of the carried debits *)

Lemma replay_debits_app a l k :
  replay_debits a (l ++ k) = (a' ← replay_debits a l; replay_debits a' k).
Proof.
  revert a. induction l as [|rc l IH]; intros a; cbn [replay_debits app]; [done|].
  destruct (replay_debit a rc); [apply IH|done].
Qed.

Lemma debitSpawn_result a l :
  match debitSpawn a l with
  | (_, Debited _) | (_, LadderExceedsFrozen _) | (_, Underflow ResSpawnUnits) => True
  | _ => False
  end.
Proof. unfold debitSpawn, take_spawn. by split_matches. Qed.

Lemma debitEscalation_result a id :
  match debitEscalation a id with
  | (_, Debited _) | (_, Underflow ResEscalationUnits) => True
  | _ => False
  end.
Proof. unfold debitEscalation. by split_matches. Qed.

Lemma debitRung_result a id :
  match debitRung a id with
  | (_, RungDebited _ _) | (_, Underflow ResRungs) => True
  | _ => False
  end.
Proof. unfold debitRung. by split_matches. Qed.

Lemma debitRevision_result a :
  match debitRevision a with
  | (_, Debited _) | (_, Underflow ResRevisionUnits) => True
  | _ => False
  end.
Proof. unfold debitRevision. by split_matches. Qed.

(** One embedded balance, then success. *)
Lemma check_one {A} (m : result FoldFailure unit) (a : A) :
  (_ ← (_ ← m; Ok tt); Ok a) = (_ ← m; Ok a).
Proof. by destruct m. Qed.

Lemma applySpawnDebit_replay a entry ad :
  applySpawnDebit a entry ad = replay_debit a (admission_debit entry ad).
Proof.
  unfold applySpawnDebit, admission_debit, replay_debit.
  destruct (ad_logicalTaskId ad) as [id|]; cbn.
  - destruct (ladder_integer _ _) as [l|]; cbn; [|done].
    pose proof (debitSpawn_result a (Some (mkDebitLineage id (ad_isNew ad) l))) as Hr.
    destruct (debitSpawn _ _) as [a' []]; cbn; try done. by rewrite check_one.
  - pose proof (debitSpawn_result a None) as Hr.
    destruct (debitSpawn _ _) as [a' []]; cbn; try done. by rewrite check_one.
Qed.

Lemma applySpawnDebits_replay a entry ads :
  applySpawnDebits a entry ads = replay_debits a (map (admission_debit entry) ads).
Proof.
  revert a. induction ads as [|ad ads IH]; intros a; cbn; [done|].
  rewrite applySpawnDebit_replay. destruct (replay_debit _ _); cbn; [apply IH|done].
Qed.

Lemma foldEscalations_replay a entry ds :
  foldEscalations a entry ds = replay_debits a (map (escalation_debit entry) ds).
Proof.
  revert a. induction ds as [|d ds IH]; intros a; cbn; [done|].
  unfold foldEscalation at 1.
  pose proof (debitEscalation_result a (default "" (readString d "logicalTaskId"))) as Hr.
  destruct (debitEscalation _ _) as [a' []]; cbn; try done.
  rewrite check_one. destruct (assertBalance _ _ _ _); cbn; [apply IH|done].
Qed.

Lemma fold_rung_replay s entry value id :
  fold_rung s entry value id =
  with_account s <$> replay_debits (fs_account s)
    (Ok (mkCarried entry (OpRung id)
           [("rungIndexAfter", prop value "rungIndexAfter");
            ("rungsRemainingAfter", prop value "rungsRemainingAfter")])
     :: admission_debits entry).
Proof.
  unfold fold_rung. cbn.
  pose proof (debitRung_result (fs_account s) id) as Hr.
  destruct (debitRung _ _) as [a' []]; cbn; try done.
  rewrite applySpawnDebits_replay.
  destruct (assertBalance _ "rungIndexAfter" _ _); cbn; [|done].
  destruct (assertBalance _ "rungsRemainingAfter" _ _); cbn; [|done].
  unfold admission_debits. by destruct (replay_debits _ _).
Qed.

Lemma fold_revision_replay s entry :
  fold_revision s entry =
  with_account s <$> replay_debits (fs_account s)
    (Ok (mkCarried entry OpRevision
           [("revisionUnitsAfter", opt_prop (asRecord (e_value entry)) "revisionUnitsAfter")])
     :: admission_debits entry).
Proof.
  unfold fold_revision. cbn.
  pose proof (debitRevision_result (fs_account s)) as Hr.
  destruct (debitRevision _) as [a' []]; cbn; try done.
  rewrite applySpawnDebits_replay.
  destruct (assertBalance _ _ _ _); cbn; [|done].
  unfold admission_debits. by destruct (replay_debits _ _).
Qed.

Lemma with_account_same s : with_account s (fs_account s) = s.
Proof. by destruct s. Qed.

Lemma fold_decision_replay s entry :
  fold_decision s entry = with_account s <$> replay_debits (fs_account s) (decision_debits entry).
Proof.
  unfold fold_decision, decision_debits.
  destruct (asRecord (e_value entry)) as [value|]; [|cbn; by rewrite with_account_same].
  destruct (is_str _ "spawn-admission").
  { destruct (readSpawnAdmission value) as [ad|]; cbn; [|by rewrite with_account_same].
    rewrite applySpawnDebit_replay. by destruct (replay_debit _ _). }
  destruct (is_str _ "escalation-decision" && _).
  { rewrite foldEscalations_replay, replay_debits_app.
    destruct (replay_debits _ (map _ _)); cbn; [|done].
    by rewrite applySpawnDebits_replay. }
  destruct (is_str _ "ladder-verdict" && _); [|cbn; by rewrite with_account_same].
  destruct (readString value "logicalTaskId"); [|cbn; by rewrite with_account_same].
  apply fold_rung_replay.
Qed.

Definition denial_of (entry : JournalEntry) : list (N * option json) :=
  match e_kind entry with KTerminationDenied => [(e_seq entry, e_value entry)] | _ => [] end.

Lemma fold_entry_replay s entry :
  fold_termination_entry s entry =
  (a ← replay_debits (fs_account s) (entry_debits (fs_closedTargets s) entry);
   Ok (mkFoldState a (closes entry ∪ fs_closedTargets s) (fs_denials s ++ denial_of entry))).
Proof.
  unfold fold_termination_entry, entry_debits, closes, denial_of.
  assert (∀ s, Ok s = Ok (E := FoldFailure)
            (mkFoldState (fs_account s) (∅ ∪ fs_closedTargets s) (fs_denials s ++ []))) as Hsame.
  { intros [a c d]. cbn. by rewrite (left_id_L ∅ (∪)), app_nil_r. }
  assert (∀ (r : result FoldFailure TerminationAccount),
    with_account s <$> r =
    (a ← r; Ok (mkFoldState a (∅ ∪ fs_closedTargets s) (fs_denials s ++ [])))) as Hwith.
  { intros [a|]; cbn; [|done]. by rewrite (left_id_L ∅ (∪)), app_nil_r. }
  destruct (e_kind entry) eqn:Ek; try (apply Hsame);
    try (rewrite fold_decision_replay; apply Hwith);
    try (rewrite fold_revision_replay; apply Hwith).
  - destruct (e_ref entry) as [ref|]; [|apply Hsame].
    unfold fold_resolution, resolution_debits.
    case_decide as Hin.
    { cbn. destruct s. cbn in *. rewrite app_nil_r. by replace ({[ref]} ∪ _) with fs_closedTargets0 by set_solver. }
    destruct (e_resolution entry) as [p|]; cbn; [|by rewrite app_nil_r].
    destruct (r_countsAgainstLimit p) as [[]|]; cbn; try by rewrite app_nil_r.
    destruct (r_logicalTaskId p) as [id|]; cbn; [|by rewrite app_nil_r].
    case_decide; cbn; [by rewrite app_nil_r|].
    pose proof (debitEscalation_result (fs_account s) id) as Hr.
    destruct (debitEscalation _ _) as [a' []]; cbn; try done. by rewrite app_nil_r.
  - cbn. by rewrite (left_id_L ∅ (∪)).
Qed.

(** The denials the fold reissues. *)
Fixpoint journal_denials (initSeq : N) (entries : list JournalEntry) : list (N * option json) :=
  match entries with
  | [] => []
  | entry :: rest =>
      (if (e_seq entry <=? initSeq)%N then [] else denial_of entry) ++ journal_denials initSeq rest
  end.

Lemma fold_entries_replay initSeq s entries :
  fs_account <$> fold_termination_entries initSeq s entries =
  replay_debits (fs_account s) (journal_debits initSeq (fs_closedTargets s) entries).
Proof.
  revert s. induction entries as [|entry entries IH]; intros s; [done|].
  cbn [fold_termination_entries journal_debits].
  destruct (e_seq entry <=? initSeq)%N; [apply IH|].
  rewrite fold_entry_replay, replay_debits_app.
  destruct (replay_debits _ (entry_debits _ _)) as [a|]; cbn [mbind result_bind]; [apply IH|done].
Qed.

Lemma fold_entries_denials initSeq s s' entries :
  fold_termination_entries initSeq s entries = Ok s' →
  fs_denials s' = fs_denials s ++ journal_denials initSeq entries.
Proof.
  revert s. induction entries as [|entry entries IH]; intros s; cbn [fold_termination_entries journal_denials].
  { intros [= ->]. by rewrite app_nil_r. }
  destruct (e_seq entry <=? initSeq)%N; [apply IH|].
  rewrite fold_entry_replay.
  destruct (replay_debits _ _) as [a|]; cbn [mbind result_bind]; [|done].
  intros H. rewrite (IH _ H). cbn [fs_denials]. by rewrite <- app_assoc.
Qed.

(** The account a journal's valid init entry starts from. *)
Definition starts_account (entries : list JournalEntry) (initSeq : N) (l : TerminationLimits) : Prop :=
  ∃ initEntry init,
    find_first is_init entries = Some initEntry ∧ e_seq initEntry = initSeq ∧
    readTerminationInit initEntry = Ok (Some init) ∧
    validateTerminationLimits (in_limits init) = Ok l.

Lemma foldTermination_replay entries initSeq l :
  starts_account entries initSeq l →
  (option_map tf_account <$> foldTermination entries) =
  (Some <$> replay_debits (newTerminationAccount l) (journal_debits initSeq ∅ entries)).
Proof.
  intros (initEntry & init & Hf & <- & Hr & Hv). unfold foldTermination. rewrite Hf, Hr. cbn.
  rewrite Hv.
  pose proof (fold_entries_replay (e_seq initEntry)
                (mkFoldState (newTerminationAccount l) ∅ []) entries) as H.
  cbn [fs_account fs_closedTargets] in H. rewrite <- H.
  by destruct (fold_termination_entries _ _ _).
Qed.

Lemma foldTermination_starts entries f :
  foldTermination entries = Ok (Some f) → ∃ l, starts_account entries (tf_initRef f) l.
Proof.
  unfold foldTermination, starts_account.
  destruct (find_first is_init entries) as [initEntry|]; [|done].
  destruct (readTerminationInit initEntry) as [[init|]|] eqn:Er; cbn; try done.
  destruct (validateTerminationLimits _) as [l|] eqn:Ev; [|done].
  destruct (fold_termination_entries _ _ _); cbn; [|done].
  intros [= <-]. cbn. eauto 10.
Qed.

(** Every balance a carried debit embeds as a number is the recomputed one. *)
Definition checks_agree (checks : list (string * option json)) (recomputed : list Z) : Prop :=
  Forall (fun '((what, embedded), z) => num_differs embedded z = false) (zip checks recomputed).

(** The debits succeed one after the other with agreeing balances. *)
Fixpoint replays (a : TerminationAccount) (ds : list CarriedDebit) : Prop :=
  match ds with
  | [] => True
  | cd :: rest =>
      match balances (snd (apply_op a (cd_op cd))) with
      | Some bs => checks_agree (cd_checks cd) bs ∧ replays (fst (apply_op a (cd_op cd))) rest
      | None => False
      end
  end.

Lemma assertBalance_ok entry what embedded z :
  assertBalance entry what embedded z = Ok tt ↔ num_differs embedded z = false.
Proof. unfold assertBalance. destruct embedded as [v|]; [|done]. by destruct (num_differs _ _). Qed.

Lemma check_balances_ok entry checks bs :
  check_balances entry checks bs = Ok tt ↔ checks_agree checks bs.
Proof.
  unfold checks_agree. revert bs.
  induction checks as [|[what embedded] checks IH]; intros [|z bs];
    cbn [check_balances zip_with]; try (split; [by constructor|done]).
  rewrite Forall_cons, <- IH, <- (assertBalance_ok entry what).
  destruct (assertBalance _ _ _ _) as [[]|]; cbn; naive_solver.
Qed.

Lemma replay_debit_ok a cd a' :
  replay_debit a (Ok cd) = Ok a' ↔
  ∃ r bs, apply_op a (cd_op cd) = (a', r) ∧ balances r = Some bs ∧ checks_agree (cd_checks cd) bs.
Proof.
  unfold replay_debit. cbn [mbind result_bind].
  destruct (apply_op a (cd_op cd)) as [a1 r]. destruct (balances r) as [bs|] eqn:Eb.
  - pose proof (check_balances_ok (cd_entry cd) (cd_checks cd) bs) as Hc.
    destruct (check_balances _ _ _) as [[]|] eqn:E; cbn; split.
    + intros [= <-]. exists r, bs. by rewrite <- Hc.
    + by intros (? & ? & [= -> ->] & ? & ?).
    + done.
    + intros (? & ? & [= -> <-] & ? & ?). simplify_eq. naive_solver.
  - split; [done|]. intros (? & ? & [= -> <-] & ? & ?). congruence.
Qed.

Lemma replay_debits_ok a l a' :
  replay_debits a l = Ok a' ↔
  ∃ ds, l = map Ok ds ∧ replays a ds ∧
        run_ops a (map cd_op ds) = (a', Z.of_nat (length ds)).
Proof.
  revert a. induction l as [|rc l IH]; intros a; cbn [replay_debits].
  - split; [intros [= <-]; by exists []|]. intros ([|] & ? & ? & H); [|done]. cbn in H. congruence.
  - rewrite bind_ok. split.
    + intros (a1 & H1 & (ds & -> & Hds & Hrun)%IH).
      destruct rc as [cd|]; [|done]. exists (cd :: ds).
      apply replay_debit_ok in H1 as (r & bs & Ho & Hb & Hc). cbn. rewrite Ho, Hrun. cbn.
      rewrite Hb. split_and!; [done..|]. f_equal. lia.
    + intros ([|cd ds] & Hl & Hds & Hrun); [done|]. injection Hl as -> ->.
      cbn in Hds, Hrun. destruct (apply_op a (cd_op cd)) as [a1 r] eqn:Ho. cbn in Hds.
      destruct (balances r) as [bs|] eqn:Eb; [|done]. destruct Hds as [Hc Hds].
      exists a1. split; [apply replay_debit_ok; eauto|]. apply IH. exists ds.
      destruct (run_ops a1 (map cd_op ds)) as [b n]. split_and!; [done..|].
      injection Hrun as -> Hn. f_equal. lia.
Qed.

(** ** Frozen limits *)

Definition usd_ok (v : json) : Prop :=
  match v with JNum n | JFrac n _ => (0 ≤ n)%Z | _ => False end.

(** What validation accepts. *)
Definition limits_valid (l : TerminationLimits) : Prop :=
  limits_ok l ∧ (0 ≤ maxDepth l)%Z ∧
  usd_ok (runBudgetUsdCeiling l) ∧ usd_ok (orchestratorCapUsd l) ∧ usd_ok (finalizeReserveUsd l).

Lemma count_limit_ok r name fallback n :
  count_limit r name fallback = Ok n → (0 ≤ n)%Z.
Proof.
  unfold count_limit. repeat (case_match; try done). intros [= <-]. by apply Z.ltb_ge.
Qed.

Lemma count_limit_num r name fallback n :
  prop r name = Some (JNum n) → (0 ≤ n)%Z → count_limit r name fallback = Ok n.
Proof.
  intros Hp Hn. unfold count_limit, or_fallback. rewrite Hp. by rewrite (proj2 (Z.ltb_ge n 0)).
Qed.

Lemma usd_limit_ok r name v : usd_limit r name = Ok v → usd_ok v.
Proof.
  unfold usd_limit. repeat (case_match; try done); intros [= <-]; cbn; by apply Z.ltb_ge.
Qed.

Lemma usd_limit_num r name v : prop r name = Some v → usd_ok v → usd_limit r name = Ok v.
Proof.
  intros Hp Hv. unfold usd_limit, or_fallback. rewrite Hp.
  destruct v; cbn in Hv; try done; by rewrite (proj2 (Z.ltb_ge _ 0)).
Qed.

Lemma validate_sound raw l : validateTerminationLimits raw = Ok l → limits_valid l.
Proof.
  unfold validateTerminationLimits. destruct (asRecord _) as [r|]; [|done].
  case_decide; [done|]. intros (k & Hk & H1)%bind_ok.
  destruct (Z.ltb_spec k 1); [done|]. inv_ok.
  repeat match goal with
  | H : count_limit _ _ _ = Ok _ |- _ => apply count_limit_ok in H
  | H : usd_limit _ _ = Ok _ |- _ => apply usd_limit_ok in H
  end.
  unfold limits_valid, limits_ok. cbn. split_and!; done.
Qed.

Lemma validate_complete l :
  limits_valid l → validateTerminationLimits (JObj (limit_fields l)) = Ok l.
Proof.
  intros ((? & ? & ? & ?) & ? & ? & ? & ?). unfold validateTerminationLimits. cbn [asRecord].
  rewrite decide_False by (cbn; intros []; discriminate).
  rewrite (count_limit_num _ "kMax" _ (kMax l)) by (done || lia). cbn [mbind result_bind].
  destruct (Z.ltb_spec (kMax l) 1); [lia|].
  rewrite (count_limit_num _ "maxRevisionsPerRun" _ (maxRevisionsPerRun l)),
    (count_limit_num _ "maxTotalSpawns" _ (maxTotalSpawns l)),
    (count_limit_num _ "maxEscalationsPerLogicalTask" _ (maxEscalationsPerLogicalTask l)),
    (count_limit_num _ "maxDepth" _ (maxDepth l)) by done.
  cbn [mbind result_bind].
  rewrite (usd_limit_num _ "runBudgetUsdCeiling" (runBudgetUsdCeiling l)),
    (usd_limit_num _ "orchestratorCapUsd" (orchestratorCapUsd l)),
    (usd_limit_num _ "finalizeReserveUsd" (finalizeReserveUsd l)) by done.
  cbn. by destruct l.
Qed.

(** The init entry a run appends starts the account of its limits. *)
Lemma init_entry_starts l hash initEntry es :
  limits_valid l → e_kind initEntry = KTerminationInit →
  e_value initEntry = Some (buildTerminationInitValue l hash) →
  starts_account (initEntry :: es) (e_seq initEntry) l.
Proof.
  intros Hl Hk Hv.
  exists initEntry, (mkInit (JObj (limit_fields l)) (JNum (phiInitialOf l))).
  split_and!; [| done | | by apply validate_complete].
  - cbn. unfold is_init. by rewrite bool_decide_true.
  - unfold readTerminationInit. by rewrite Hv.
Qed.

(** ** Properties of the fold *)

(** A journal the fold accepts carries, after its init entry, a list of
    debits that replays from the frozen limits without an underflow; every
    balance an entry embeds is the one the replay reaches, the account the fold
    returns is the one the live debits left, and (with admissible debits) at
    most [phiInitialOf] of them were ever journaled. *)
Theorem accepted_journal_sound entries f :
  foldTermination entries = Ok (Some f) →
  ∃ l ds,
    starts_account entries (tf_initRef f) l ∧ limits_valid l ∧
    journal_debits (tf_initRef f) ∅ entries = map Ok ds ∧
    replays (newTerminationAccount l) ds ∧
    run_ops (newTerminationAccount l) (map cd_op ds) = (tf_account f, Z.of_nat (length ds)) ∧
    (ops_admissible (newTerminationAccount l) (map cd_op ds) →
     (Z.of_nat (length ds) + phi (tf_account f) ≤ phiInitialOf l ∧ 0 ≤ phi (tf_account f))%Z).
Proof.
  intros Hf. destruct (foldTermination_starts entries f Hf) as [l Hs].
  pose proof (foldTermination_replay entries _ l Hs) as Hr. rewrite Hf in Hr. cbn in Hr.
  destruct (replay_debits _ _) as [a|] eqn:Ea; [|done]. cbn in Hr. injection Hr as Ha. subst a.
  apply replay_debits_ok in Ea as (ds & Hd & Hds & Hrun).
  assert (limits_valid l) as Hl.
  { destruct Hs as (? & ? & _ & _ & _ & Hv). by eapply validate_sound. }
  exists l, ds. split_and!; try done. intros Hadm.
  destruct (run_ops_bounded _ _ (new_account_ok l (proj1 Hl)) Hadm) as (Hok & _ & Hle).
  rewrite Hrun, phi_new in Hle. rewrite Hrun in Hok. split; [exact Hle|]. by apply phi_nonneg.
Qed.

Lemma foldTermination_err entries initSeq l e :
  starts_account entries initSeq l →
  replay_debits (newTerminationAccount l) (journal_debits initSeq ∅ entries) = Err e →
  foldTermination entries = Err e.
Proof.
  intros Hs He. pose proof (foldTermination_replay entries initSeq l Hs) as H. rewrite He in H.
  destruct (foldTermination entries); cbn in H; congruence.
Qed.

Lemma check_balances_diverges entry checks bs i what v z :
  checks !! i = Some (what, Some v) → bs !! i = Some z → num_differs (Some v) z = true →
  (∀ j c y, j < i → checks !! j = Some c → bs !! j = Some y → num_differs (snd c) y = false) →
  check_balances entry checks bs = Err (Divergence (e_seq entry) what v z).
Proof.
  revert checks bs. induction i as [|i IH]; intros [|[w emb] checks] [|y bs]; cbn [lookup list_lookup];
    try done; intros Hc Hb Hd Hpre; cbn [check_balances].
  - simplify_eq. unfold assertBalance. by rewrite Hd.
  - rewrite (proj2 (assertBalance_ok entry w emb y)) by (apply (Hpre 0 (w, emb) y); [lia|done..]).
    cbn [mbind result_bind]. apply IH; [done..|].
    intros j c y' Hj. apply (Hpre (S j)). lia.
Qed.

(** C35: with the debits before it sound, a debit journaled without units left
    fails the fold at exactly its entry, and an entry whose first wrong balance
    is [what] fails it with a divergence naming that entry, the balance, the
    embedded value and the recomputed one. *)
Theorem divergence_is_located entries initSeq l pre cd post a :
  starts_account entries initSeq l →
  journal_debits initSeq ∅ entries = pre ++ Ok cd :: post →
  replay_debits (newTerminationAccount l) pre = Ok a →
  match balances (snd (apply_op a (cd_op cd))) with
  | None =>
      foldTermination entries =
      Err (debit_failure (cd_entry cd) (cd_op cd) (snd (apply_op a (cd_op cd))))
  | Some bs =>
      ∀ i what v z,
        cd_checks cd !! i = Some (what, Some v) → bs !! i = Some z →
        num_differs (Some v) z = true →
        (∀ j c y, j < i → cd_checks cd !! j = Some c → bs !! j = Some y →
                  num_differs (snd c) y = false) →
        foldTermination entries = Err (Divergence (e_seq (cd_entry cd)) what v z)
  end.
Proof.
  intros Hs Hd Hpre. destruct (apply_op a (cd_op cd)) as [a' r] eqn:Ho. cbn [snd].
  destruct (balances r) as [bs|] eqn:Eb; [intros i what v z Hc Hz Hne Hfirst|];
    apply (foldTermination_err entries initSeq l _ Hs);
    rewrite Hd, replay_debits_app, Hpre; cbn [mbind result_bind replay_debits];
    unfold replay_debit; cbn [mbind result_bind]; rewrite Ho, Eb.
  - by rewrite (check_balances_diverges _ _ _ i what v z).
  - done.
Qed.

(** What live code embeds: the balances the debit returned. *)
Fixpoint embeds (a : TerminationAccount) (ds : list CarriedDebit) : Prop :=
  match ds with
  | [] => True
  | cd :: rest =>
      match balances (snd (apply_op a (cd_op cd))) with
      | Some bs =>
          map snd (cd_checks cd) = map (fun z => Some (JNum z)) bs ∧
          embeds (fst (apply_op a (cd_op cd))) rest
      | None => False
      end
  end.

Lemma embedded_agree (checks : list (string * option json)) bs :
  map snd checks = map (fun z => Some (JNum z)) bs → checks_agree checks bs.
Proof.
  unfold checks_agree. revert bs.
  induction checks as [|[w e] checks IH]; intros [|z bs]; try done; cbn.
  intros [= -> H]. constructor; [|by apply IH]. cbn. by rewrite Z.eqb_refl.
Qed.

Lemma embeds_replays a ds : embeds a ds → replays a ds.
Proof.
  revert a. induction ds as [|cd ds IH]; intros a; [done|]. cbn [embeds replays].
  destruct (balances _) as [bs|]; [|done]. intros [H1 H2].
  split; [by apply embedded_agree | by apply IH].
Qed.

Lemma replays_count a ds :
  replays a ds → snd (run_ops a (map cd_op ds)) = Z.of_nat (length ds).
Proof.
  revert a. induction ds as [|cd ds IH]; intros a; [done|]. cbn [replays map run_ops].
  destruct (apply_op a (cd_op cd)) as [a1 r]. cbn [fst snd].
  destruct (balances r) as [bs|]; [|done]. intros [_ H]. specialize (IH a1 H).
  destruct (run_ops a1 (map cd_op ds)) as [b n]. cbn [snd length] in *. lia.
Qed.

(** C15: the account survives a restart.  A journal that opens with the init
    entry of a run's validated limits and then carries the debits the run made
    live, each with the balance it left, folds back to the very account the run
    held. *)
Theorem live_account_survives_reload l hash initEntry es ds :
  limits_valid l → e_kind initEntry = KTerminationInit →
  e_value initEntry = Some (buildTerminationInitValue l hash) →
  journal_debits (e_seq initEntry) ∅ (initEntry :: es) = map Ok ds →
  embeds (newTerminationAccount l) ds →
  ∃ f, foldTermination (initEntry :: es) = Ok (Some f) ∧
       tf_account f = fst (run_ops (newTerminationAccount l) (map cd_op ds)).
Proof.
  intros Hl Hk Hv Hd Hemb.
  pose proof (foldTermination_replay _ _ l (init_entry_starts l hash initEntry es Hl Hk Hv)) as Hr.
  assert (replay_debits (newTerminationAccount l) (map Ok ds) =
          Ok (fst (run_ops (newTerminationAccount l) (map cd_op ds)))) as Hrep.
  { apply replay_debits_ok. exists ds. apply embeds_replays in Hemb. split_and!; [done..|].
    rewrite <- (replays_count _ _ Hemb). by destruct (run_ops _ _). }
  rewrite Hd, Hrep in Hr. cbn in Hr.
  destruct (foldTermination _) as [[f|]|]; cbn in Hr; try done.
  exists f. split; [done|]. congruence.
Qed.

(** ** A run's journal *)

Definition admission_json (id : string) (isNew : bool) (ladder spawnsAfter : Z) : json :=
  JObj [("opIndex", JNum 0);
        ("decision", JObj [
           ("verdict", JObj [("kind", JStr "admit");
                             ("lineage", JObj [("logicalTaskId", JStr id); ("isNew", JBool isNew)]);
                             ("spawnUnitsAfter", JNum spawnsAfter)]);
           ("ladderLength", JNum ladder)])].

Definition init_entry_example : JournalEntry :=
  with_value (base_entry 0 "" "init" KTerminationInit StOk)
    (buildTerminationInitValue limits_example "hash").

Definition decision_entry (seq : N) (members : record) : JournalEntry :=
  with_value (base_entry seq "plan" "d" KDecision StOk) (JObj members).

(** A revision admits a task with a three-rung ladder, the task escalates, and
    a verdict raises it to the next rung, whose respawn is admitted. *)
Definition run_journal : list JournalEntry :=
  [with_value (base_entry 1 "plan" "r" KPlanRevision StOk)
     (JObj [("revisionUnitsAfter", JNum 1); ("admissions", JArr [admission_json "t1" true 3 2])]);
   decision_entry 2 [("decisionType", JStr "escalation-decision"); ("logicalTaskId", JStr "t1");
                     ("countsAgainstLimit", JBool true); ("escalationUnitsAfter", JNum 1)];
   decision_entry 3 [("decisionType", JStr "ladder-verdict"); ("raisesRung", JBool true);
                     ("logicalTaskId", JStr "t1"); ("rungIndexAfter", JNum 1);
                     ("rungsRemainingAfter", JNum 1);
                     ("admissions", JArr [admission_json "t1" false 3 1])]].

(** The debits the run made. *)
Definition carried_example : list CarriedDebit :=
  omap (fun rc => match rc with Ok cd => Some cd | Err _ => None end)
    (journal_debits 0 ∅ (init_entry_example :: run_journal)).

Lemma limits_example_valid : limits_valid limits_example.
Proof. split; [apply limits_example_ok|]. by cbn. Qed.

Lemma live_account_survives_reload_witness :
  map cd_op carried_example =
    [OpRevision; OpSpawn (Some (mkDebitLineage "t1" true (Some 3%Z))); OpEscalation "t1";
     OpRung "t1"; OpSpawn (Some (mkDebitLineage "t1" false (Some 3%Z)))] ∧
  ∃ f, foldTermination (init_entry_example :: run_journal) = Ok (Some f) ∧
       snapshot (tf_account f) = mkSnapshot 1 1 [("t1", (1, 1))%Z] 8.
Proof.
  split; [by vm_compute|].
  destruct (live_account_survives_reload limits_example "hash" init_entry_example run_journal
              carried_example limits_example_valid) as (f & Hf & Ha); [done|done|by vm_compute| |].
  - vm_compute. tauto.
  - exists f. split; [exact Hf|]. rewrite Ha. by vm_compute.
Defined.

Lemma accepted_journal_sound_witness :
  ∃ f l ds, foldTermination (init_entry_example :: run_journal) = Ok (Some f) ∧
    run_ops (newTerminationAccount l) (map cd_op ds) = (tf_account f, Z.of_nat (length ds)).
Proof.
  destruct (foldTermination (init_entry_example :: run_journal)) as [[f|]|] eqn:E;
    [|vm_compute in E; discriminate..].
  destruct (accepted_journal_sound _ f E) as (l & ds & _ & _ & _ & _ & Hrun & _).
  by exists f, l, ds.
Defined.

(** The escalation's embedded balance edited from 1 to 2. *)
Definition tampered_journal : list JournalEntry :=
  [base_entry 0 "" "x" KStep StOk] ++
  [with_value (base_entry 1 "" "init" KTerminationInit StOk)
     (buildTerminationInitValue limits_example "hash");
   with_value (base_entry 2 "plan" "r" KPlanRevision StOk)
     (JObj [("revisionUnitsAfter", JNum 1); ("admissions", JArr [admission_json "t1" true 3 2])]);
   decision_entry 3 [("decisionType", JStr "escalation-decision"); ("logicalTaskId", JStr "t1");
                     ("countsAgainstLimit", JBool true); ("escalationUnitsAfter", JNum 2)]].

Lemma divergence_is_located_witness :
  foldTermination tampered_journal = Err (Divergence 3 "escalationUnitsAfter" (JNum 2) 1).
Proof.
  assert (starts_account tampered_journal 1 limits_example) as Hs.
  { exists (with_value (base_entry 1 "" "init" KTerminationInit StOk)
              (buildTerminationInitValue limits_example "hash")). eexists.
    split_and!; [by vm_compute|done|by vm_compute|by vm_compute]. }
  destruct (journal_debits 1 ∅ tampered_journal) as [|d1 [|d2 [|[cd|] [|]]]] eqn:Ed;
    try (vm_compute in Ed; discriminate).
  destruct (replay_debits (newTerminationAccount limits_example) [d1; d2]) as [a|] eqn:Ea.
  - pose proof (divergence_is_located tampered_journal 1 limits_example [d1; d2] cd [] a Hs Ed Ea) as H.
    vm_compute in Ed. injection Ed as <- <- <-. vm_compute in Ea. injection Ea as <-.
    apply (H 0 "escalationUnitsAfter" (JNum 2) 1%Z); try done. intros j c y Hj. lia.
  - vm_compute in Ed. injection Ed as <- <- <-. vm_compute in Ea. discriminate.
Defined.

(** A branch under an abandoned scope: the resolution that arrives later is
    invalid for the resolution fold, and still closes its target, and debits,
    here. *)
Definition abandoned_then_resolved : list JournalEntry :=
  [init_entry_example;
   base_entry 1 "plan/a" "w" KExternal StSuspended;
   with_abandon (with_ref (base_entry 2 "plan" "ab" KAbandon StOk) 1)
     (mkAbandon 1 0 None None "cancel" None None);
   with_resolution (with_ref (base_entry 3 "plan/a" "r" KResolution StOk) 1)
     (mkResolution 1 ByTimeout JNull None (Some "t1") (Some true))].

Lemma abandoned_target_still_debits :
  ∃ f, foldTermination abandoned_then_resolved = Ok (Some f) ∧
       sn_perLineage (snapshot (tf_account f)) = [("t1", (1, 0))%Z].
Proof. eexists. split; [by vm_compute|]. by vm_compute. Qed.
