(* ===== verification/Lineage.v ===== *)
(** * Lineage (packages/core/src/journal/lineage.ts)

    The logical-task index: attempts, escalation debits and stall streaks as an
    incremental fold over journal entries.  An attempt record is shared by the
    index's maps and mutated through each of them, so records live in a heap
    ([ix_records]) and the maps hold their addresses.

    A lineage block is read from an unchecked payload.  One whose
    [logicalTaskId] or signature is not a string leaves the model with
    [IllTypedLineage]; the producers always write strings. *)
From S2P Require Import Prelude Json JsMap Entries Identity Disposition Termination.

(** ** Limits *)

Record EscalationLimits := mkEscalationLimits {
  el_maxEscalationsPerLogicalTask : Z;
  el_maxAttemptsPerLogicalTask : Z;
}.

Definition DEFAULT_ESCALATION_LIMITS : EscalationLimits := mkEscalationLimits 2 8.

Definition requireCount (value : json) (name : string) : result LimitsError Z :=
  match value with
  | JNum n => if (n <? 0)%Z then Err (BadCount name) else Ok n
  | _ => Err (BadCount name)
  end.

Definition limit_or (raw : option record) (name : string) (fallback : Z) : result LimitsError Z :=
  match opt_prop raw name with
  | Some v => requireCount v name
  | None => Ok fallback
  end.

Definition validateEscalationLimits (raw : option record) : result LimitsError EscalationLimits :=
  if decide (is_Some (opt_prop raw "maxEscalationsPerNode")) then Err RenamedKnob
  else
    escalations ← limit_or raw "maxEscalationsPerLogicalTask"
                    (el_maxEscalationsPerLogicalTask DEFAULT_ESCALATION_LIMITS);
    attempts ← limit_or raw "maxAttemptsPerLogicalTask"
                 (el_maxAttemptsPerLogicalTask DEFAULT_ESCALATION_LIMITS);
    Ok (mkEscalationLimits escalations attempts).

(** ** Outcomes *)

Inductive AttemptOutcomeClass :=
  | OutOk | OutEscalated | OutTaskError | OutTransientError | OutNoProgress
  | OutVerifyFailed | OutLimit | OutAbandoned.

#[global] Instance AttemptOutcomeClass_eq_dec : EqDecision AttemptOutcomeClass.
Proof. solve_decision. Defined.

Definition classifyAttemptOutcome (terminal : JournalEntry) : AttemptOutcomeClass :=
  match e_status terminal with
  | StOk => OutOk
  | StEscalated => OutEscalated
  | StLimit =>
      if is_str (opt_prop (asRecord (wire ← e_error terminal; w_data wire)) "abortClass") "no-progress"
      then OutNoProgress else OutLimit
  | StCancelled => OutAbandoned
  | StError =>
      match e_error terminal with
      | None => OutTaskError
      | Some wire =>
          if decide (w_code wire = "agent") then
            if decide (classifyAgentError (agentErrorFromWire wire) = ClassTask)
            then OutTaskError else OutTransientError
          else if w_retryable wire then OutTransientError else OutTaskError
      end
  | _ => OutTaskError
  end.

Definition STALLING_OUTCOMES (o : AttemptOutcomeClass) : bool :=
  match o with OutTaskError | OutNoProgress | OutVerifyFailed | OutLimit => true | _ => false end.

(** ** Signatures *)

Definition LEGACY_LTID_PREFIX : string := "legacy:".

(** The text of [spec.kind], or of a string spec. *)
Definition canonicalIsolationTag (spec : option IsolationSpec) : string :=
  match spec with
  | None | Some IsoNone => "none"
  | Some IsoReadonly => "readonly"
  | Some (IsoWorktree _) => "worktree"
  end.

Definition is_tag_char (c : ascii) : bool := char_between "a"%char "z"%char c || is_digit c.

(** [text.replace(/[^a-z0-9]+/g, "-")]; [in_run] inside a replaced run. *)
Fixpoint collapse (in_run : bool) (text : string) : string :=
  match text with
  | "" => ""
  | String c rest =>
      if is_tag_char c then String c (collapse false rest)
      else if in_run then collapse true rest
      else String "-" (collapse true rest)
  end.

(** [s.slice(0, n)]. *)
Fixpoint slice_to (n : nat) (s : string) : string :=
  match n, s with
  | S n', String c rest => String c (slice_to n' rest)
  | _, _ => ""
  end.

Record ApproachSignatureInputs := mkSigInputs {
  si_agentType : string;
  si_toolsetHash : string;
  si_schemaHash : string;
  si_isolation : string;
}.

Record SpawnLineage := mkSpawnLineage {
  sl_logicalTaskId : string;
  sl_relation : option json;
  sl_approachSig : string;
  sl_approachSigCoarse : option json;
  sl_approachTag : option json;
}.

Record AttemptRecord := mkAttempt {
  at_logicalTaskId : string;
  at_relation : option json;
  at_approachSig : string;
  at_approachSigCoarse : option json;
  at_approachTag : option json;
  at_decisionSeq : option N;
  at_childScope : option string;
  at_boundKey : option string;
  at_lastRootSeq : option N;
  at_outcome : option (AttemptOutcomeClass * N);
  at_anchorSeq : N;
}.

Inductive LineageError := IllTypedLineage (seq : N).

(** A block read as a lineage, with the member types the fold relies on. *)
Definition as_lineage (seq : N) (block : record) : result LineageError SpawnLineage :=
  match readString block "logicalTaskId", readString block "approachSig" with
  | Some id, Some sig =>
      Ok (mkSpawnLineage id (prop block "relation") sig (prop block "approachSigCoarse")
            (prop block "approachTag"))
  | _, _ => Err (IllTypedLineage seq)
  end.

(** ** The index *)

Record LineageIndex := mkIndex {
  ix_records : list AttemptRecord;
  ix_attemptsByLtid : jsmap string (list nat);
  ix_escalationsByLtid : gmap string (list N);
  ix_queueByScope : gmap string (list nat);
  ix_recordByRootSeq : gmap N nat;
  ix_closedTargets : gset N;
  ix_pendingAdmits : gmap string N;
  ix_cursor : Z;
}.

Definition newLineageIndex : LineageIndex := mkIndex [] jm_empty ∅ ∅ ∅ ∅ ∅ (-1).

Definition set_cursor (x : LineageIndex) (seq : N) : LineageIndex :=
  mkIndex (ix_records x) (ix_attemptsByLtid x) (ix_escalationsByLtid x) (ix_queueByScope x)
    (ix_recordByRootSeq x) (ix_closedTargets x) (ix_pendingAdmits x) (Z.of_N seq).

Definition set_pending (x : LineageIndex) (p : gmap string N) : LineageIndex :=
  mkIndex (ix_records x) (ix_attemptsByLtid x) (ix_escalationsByLtid x) (ix_queueByScope x)
    (ix_recordByRootSeq x) (ix_closedTargets x) p (ix_cursor x).

Definition close_target (x : LineageIndex) (target : N) : LineageIndex :=
  mkIndex (ix_records x) (ix_attemptsByLtid x) (ix_escalationsByLtid x) (ix_queueByScope x)
    (ix_recordByRootSeq x) ({[target]} ∪ ix_closedTargets x) (ix_pendingAdmits x) (ix_cursor x).

(** Mutating the record at an address. *)
Definition mutate (x : LineageIndex) (id : nat) (f : AttemptRecord → AttemptRecord) : LineageIndex :=
  mkIndex (alter f id (ix_records x)) (ix_attemptsByLtid x) (ix_escalationsByLtid x)
    (ix_queueByScope x) (ix_recordByRootSeq x) (ix_closedTargets x) (ix_pendingAdmits x) (ix_cursor x).

Definition set_outcome (o : option (AttemptOutcomeClass * N)) (r : AttemptRecord) : AttemptRecord :=
  mkAttempt (at_logicalTaskId r) (at_relation r) (at_approachSig r) (at_approachSigCoarse r)
    (at_approachTag r) (at_decisionSeq r) (at_childScope r) (at_boundKey r) (at_lastRootSeq r) o
    (at_anchorSeq r).

Definition set_root (key : string) (seq : N) (r : AttemptRecord) : AttemptRecord :=
  mkAttempt (at_logicalTaskId r) (at_relation r) (at_approachSig r) (at_approachSigCoarse r)
    (at_approachTag r) (at_decisionSeq r) (at_childScope r) (Some key) (Some seq) (at_outcome r)
    (at_anchorSeq r).

(** A new record, appended to its task's attempts and to a slot's queue. *)
Definition push_attempt (x : LineageIndex) (r : AttemptRecord) (slot : option string) : LineageIndex :=
  let id := length (ix_records x) in
  mkIndex (ix_records x ++ [r])
    (jm_set (ix_attemptsByLtid x) (at_logicalTaskId r)
       (default [] (jm_get (ix_attemptsByLtid x) (at_logicalTaskId r)) ++ [id]))
    (ix_escalationsByLtid x)
    (match slot with
     | Some scope => <[scope := default [] (ix_queueByScope x !! scope) ++ [id]]> (ix_queueByScope x)
     | None => ix_queueByScope x
     end)
    (ix_recordByRootSeq x) (ix_closedTargets x) (ix_pendingAdmits x) (ix_cursor x).

Definition noteAdmitted (x : LineageIndex) (logicalTaskId : string) : LineageIndex :=
  set_pending x
    (<[logicalTaskId := (default 0 (ix_pendingAdmits x !! logicalTaskId) + 1)%N]> (ix_pendingAdmits x)).

(** A pending admit whose decision entry landed. *)
Definition settle_pending (x : LineageIndex) (logicalTaskId : string) : LineageIndex :=
  match ix_pendingAdmits x !! logicalTaskId with
  | None => x
  | Some pending =>
      set_pending x
        (if (pending <=? 1)%N then delete logicalTaskId (ix_pendingAdmits x)
         else <[logicalTaskId := (pending - 1)%N]> (ix_pendingAdmits x))
  end.

Definition registerAttempt (x : LineageIndex) (decisionSeq : N) (lineage : SpawnLineage)
    (childScope : option string) : LineageIndex :=
  settle_pending
    (push_attempt x
       (mkAttempt (sl_logicalTaskId lineage) (sl_relation lineage) (sl_approachSig lineage)
          (sl_approachSigCoarse lineage) (sl_approachTag lineage) (Some decisionSeq) childScope
          None None None decisionSeq)
       childScope)
    (sl_logicalTaskId lineage).

Definition recordEscalation (x : LineageIndex) (logicalTaskId : string) (seq : N) : LineageIndex :=
  mkIndex (ix_records x) (ix_attemptsByLtid x)
    (<[logicalTaskId := default [] (ix_escalationsByLtid x !! logicalTaskId) ++ [seq]]>
       (ix_escalationsByLtid x))
    (ix_queueByScope x) (ix_recordByRootSeq x) (ix_closedTargets x) (ix_pendingAdmits x) (ix_cursor x).

Definition absorbResolution (x : LineageIndex) (entry : JournalEntry) (target : N) : LineageIndex :=
  if decide (target ∈ ix_closedTargets x) then x
  else
    let x := close_target x target in
    match e_resolution entry with
    | Some payload =>
        match r_countsAgainstLimit payload, r_logicalTaskId payload with
        | Some true, Some id =>
            if decide (r_by payload = ByClassDecision) then x
            else recordEscalation x id (e_seq entry)
        | _, _ => x
        end
    | None => x
    end.

Definition is_live (x : LineageIndex) (id : nat) : bool :=
  match ix_records x !! id with Some r => bool_decide (at_outcome r = None) | None => false end.

Definition absorbAbandon (x : LineageIndex) (entry : JournalEntry) : LineageIndex :=
  match e_abandon entry with
  | None => x
  | Some payload =>
      let abandon id := mutate x id (set_outcome (Some (OutAbandoned, e_seq entry))) in
      match ix_recordByRootSeq x !! a_target payload with
      | Some id => if is_live x id then abandon id else x
      | None =>
          match a_logicalTaskId payload with
          | None => x
          | Some ltid =>
              match find_first (is_live x) (default [] (jm_get (ix_attemptsByLtid x) ltid)) with
              | Some id => abandon id
              | None => x
              end
          end
      end
  end.

Section Signatures.
(** Number text and sha256 as in the identity module; [nfc_lower] is the string
    library's [normalize("NFC").toLowerCase()]. *)
Variable stringify_frac : Z → positive → string.
Variable sha256 : string → string.
Variable nfc_lower : string → string.

Definition normalizeApproachTag (raw : option string) : string :=
  let collapsed := slice_to 32 (collapse false (nfc_lower (default "" raw))) in
  if decide (collapsed = "") then "default" else collapsed.

Definition approachSigCoarse (inputs : ApproachSignatureInputs) : string :=
  sha256 (jcsSerialize stringify_frac
    (JObj [("sigVersion", JNum 1); ("agentType", JStr (si_agentType inputs));
           ("toolsetHash", JStr (si_toolsetHash inputs)); ("schemaHash", JStr (si_schemaHash inputs));
           ("isolation", JStr (si_isolation inputs))])).

Definition approachSigOf (coarse : string) (tag : option string) : string :=
  sha256 (jcsSerialize stringify_frac
    (JObj [("sigVersion", JNum 1); ("coarse", JStr coarse);
           ("approachTag", JStr (normalizeApproachTag tag))])).

(** The hashes of [true] and of [[]]. *)
Definition LEGACY_SIGNATURE_INPUTS : ApproachSignatureInputs :=
  mkSigInputs "legacy" (sha256 "[]") (sha256 "true") "none".

Definition legacy_lineage (ltid : string) (relation : string) : SpawnLineage :=
  let coarse := approachSigCoarse LEGACY_SIGNATURE_INPUTS in
  mkSpawnLineage ltid (Some (JStr relation)) (approachSigOf coarse None) (Some (JStr coarse))
    (Some (JStr "default")).

(** The lineage of a verdict without signatures: the legacy constants. *)
Definition read_verdict (decision : record) : option SpawnLineage :=
  let verdictLineage := asRecord (opt_prop (asRecord (prop decision "verdict")) "lineage") in
  ltid ← as_string (opt_prop verdictLineage "logicalTaskId");
  Some (legacy_lineage ltid
          (if is_false_json (opt_prop verdictLineage "isNew") then "respawn" else "first")).

Definition readSpawnLineage (seq : N) (decision : record) : result LineageError (option SpawnLineage) :=
  match asRecord (prop decision "lineage") with
  | Some full =>
      match readString full "approachSig" with
      | Some _ => Some <$> as_lineage seq full
      | None => Ok (read_verdict decision)
      end
  | None => Ok (read_verdict decision)
  end.

(** ** Absorbing entries *)

(** One element of an [admissions] array: its child slot and its lineage. *)
Definition readEmbeddedAdmission (entry : JournalEntry) (raw : json)
    : result LineageError (option (string * SpawnLineage)) :=
  match asRecord (Some raw) with
  | None => Ok None
  | Some rec =>
      let decision := default rec (asRecord (prop rec "decision")) in
      match asRecord (prop decision "verdict") with
      | None => Ok None
      | Some verdict =>
          if is_str (prop verdict "kind") "reject" then Ok None
          else
            lineage ← readSpawnLineage (e_seq entry) decision;
            let nodeScope := nodeId ← readString rec "nodeId"; Some (e_scope entry +:+ "/" +:+ nodeId) in
            Ok (l ← lineage;
                childScope ← match readString rec "childScope" with
                             | Some scope => Some scope
                             | None => nodeScope
                             end;
                Some (childScope, l))
      end
  end.

Fixpoint read_admissions (entry : JournalEntry) (raws : list json)
    : result LineageError (list (string * SpawnLineage)) :=
  match raws with
  | [] => Ok []
  | raw :: rest =>
      a ← readEmbeddedAdmission entry raw;
      l ← read_admissions entry rest;
      Ok (option_list a ++ l)
  end.

Definition readEmbeddedAdmissions (entry : JournalEntry)
    : result LineageError (list (string * SpawnLineage)) :=
  match as_array (opt_prop (asRecord (e_value entry)) "admissions") with
  | None => Ok []
  | Some raws => read_admissions entry raws
  end.

Definition register_admissions (x : LineageIndex) (entry : JournalEntry)
    : result LineageError LineageIndex :=
  admissions ← readEmbeddedAdmissions entry;
  Ok (foldl (fun x '(childScope, l) => registerAttempt x (e_seq entry) l (Some childScope))
        x admissions).

Definition absorb_spawn_admission (x : LineageIndex) (entry : JournalEntry) (value : record)
    : result LineageError LineageIndex :=
  if decide (is_Some (prop value "reject")) then Ok x
  else
    match asRecord (prop value "decision") with
    | Some decision =>
        match asRecord (prop decision "verdict") with
        | None => Ok x
        | Some verdict =>
            if is_str (prop verdict "kind") "reject" then Ok x
            else
              lineage ← readSpawnLineage (e_seq entry) decision;
              Ok (match lineage with
                  | Some l => registerAttempt x (e_seq entry) l (readString value "childScope")
                  | None => x
                  end)
        end
    | None =>
        match asRecord (prop value "lineage") with
        | Some direct =>
            match readString direct "approachSig" with
            | Some _ =>
                l ← as_lineage (e_seq entry) direct;
                Ok (registerAttempt x (e_seq entry) l (readString value "childScope"))
            | None => Ok x
            end
        | None => Ok x
        end
    end.

(** The record a numeric [attemptRef] names. *)
Definition judged_record (x : LineageIndex) (attemptRef : option json) : option nat :=
  match attemptRef with
  | Some (JNum n) => if (n <? 0)%Z then None else ix_recordByRootSeq x !! Z.to_N n
  | _ => None
  end.

Definition absorb_ladder_verdict (x : LineageIndex) (entry : JournalEntry) (value : record)
    : result LineageError LineageIndex :=
  let x :=
    if is_str (prop value "trigger") "verify-failed" then
      match judged_record x (prop value "attemptRef") with
      | Some id => mutate x id (set_outcome (Some (OutVerifyFailed, e_seq entry)))
      | None => x
      end
    else x in
  match asRecord (prop value "nextAttempt") with
  | None => Ok x
  | Some nextAttempt =>
      match asRecord (prop nextAttempt "lineage") with
      | None => Ok x
      | Some lineage =>
          l ← as_lineage (e_seq entry) lineage;
          Ok (registerAttempt x (e_seq entry) l (readString nextAttempt "childScope"))
      end
  end.

(** The tasks an escalation decision debits. *)
Definition escalated_ltids (value : record) : list string :=
  option_list (readString value "logicalTaskId") ++
  match as_array (prop value "debits") with
  | None => []
  | Some raws => omap (fun raw => d ← asRecord (Some raw); readString d "logicalTaskId") raws
  end.

Definition absorb_escalation (x : LineageIndex) (entry : JournalEntry) (value : record)
    : result LineageError LineageIndex :=
  if negb (is_true_json (prop value "countsAgainstLimit")) then Ok x
  else
    register_admissions
      (foldl (fun x ltid => recordEscalation x ltid (e_seq entry)) x (escalated_ltids value)) entry.

Definition absorbDecision (x : LineageIndex) (entry : JournalEntry)
    : result LineageError LineageIndex :=
  match asRecord (e_value entry) with
  | None => Ok x
  | Some value =>
      let decisionType := prop value "decisionType" in
      if is_str decisionType "spawn-admission" then absorb_spawn_admission x entry value
      else if is_str decisionType "ladder-verdict" then absorb_ladder_verdict x entry value
      else if is_str decisionType "escalation-decision" then absorb_escalation x entry value
      else Ok x
  end.

(** ** Binding dispatches *)

Definition waits_first_dispatch (x : LineageIndex) (id : nat) : bool :=
  match ix_records x !! id with Some r => bool_decide (at_lastRootSeq r = None) | None => false end.

Definition redispatchable (x : LineageIndex) (key : string) (id : nat) : bool :=
  match ix_records x !! id with
  | Some r => bool_decide (at_boundKey r = Some key) && negb (bool_decide (fst <$> at_outcome r = Some OutOk))
  | None => false
  end.

(** The queue's record for a dispatch, if any. *)
Definition bound_record (x : LineageIndex) (slotScope key : string) : option nat :=
  let queue := default [] (ix_queueByScope x !! slotScope) in
  match find_first (waits_first_dispatch x) queue with
  | Some id => Some id
  | None => find_first (redispatchable x key) queue
  end.

Definition legacy_attempt (entry : JournalEntry) : AttemptRecord :=
  let l := legacy_lineage (LEGACY_LTID_PREFIX +:+ e_key entry) "first" in
  mkAttempt (sl_logicalTaskId l) (sl_relation l) (sl_approachSig l) (sl_approachSigCoarse l)
    (sl_approachTag l) None None None None None (e_seq entry).

Definition is_running (entry : JournalEntry) : bool := bool_decide (e_status entry = StRunning).

(** [recordByRootSeq.set(seq, record)]. *)
Definition index_root (x : LineageIndex) (seq : N) (id : nat) : LineageIndex :=
  mkIndex (ix_records x) (ix_attemptsByLtid x) (ix_escalationsByLtid x) (ix_queueByScope x)
    (<[seq := id]> (ix_recordByRootSeq x)) (ix_closedTargets x) (ix_pendingAdmits x) (ix_cursor x).

Definition bindRoot (x : LineageIndex) (slotScope : string) (entry : JournalEntry)
    : LineageIndex * nat :=
  let '(x, id) :=
    match bound_record x slotScope (e_key entry) with
    | Some id => (x, id)
    | None => (push_attempt x (legacy_attempt entry) (Some slotScope), length (ix_records x))
    end in
  let bind r :=
    let r := set_root (e_key entry) (e_seq entry) r in
    if is_running entry then set_outcome None r else r in
  (index_root (mutate x id bind) (e_seq entry) id, id).

Definition slot_scope (entry : JournalEntry) : string :=
  if decide (e_kind entry = KChild)
  then default (e_scope entry) (as_string (opt_prop (asRecord (e_value entry)) "childScope"))
  else e_scope entry.

Definition absorbSpawnEntry (x : LineageIndex) (entry : JournalEntry) : LineageIndex :=
  let settle x id := mutate x id (set_outcome (Some (classifyAttemptOutcome entry, e_seq entry))) in
  match e_ref entry with
  | Some ref =>
      match ix_recordByRootSeq x !! ref with
      | Some id => settle x id
      | None => x
      end
  | None =>
      let '(x, id) := bindRoot x (slot_scope entry) entry in
      if is_running entry then x else settle x id
  end.

Definition absorbEntry (x : LineageIndex) (entry : JournalEntry) : result LineageError LineageIndex :=
  match e_kind entry, e_ref entry with
  | KDecision, _ => absorbDecision x entry
  | KPlanRevision, _ => register_admissions x entry
  | KResolution, Some target => Ok (absorbResolution x entry target)
  | KAbandon, _ => Ok (absorbAbandon x entry)
  | KAgent, _ | KChild, _ => Ok (absorbSpawnEntry x entry)
  | _, _ => Ok x
  end.

Fixpoint absorb (x : LineageIndex) (entries : list JournalEntry) : result LineageError LineageIndex :=
  match entries with
  | [] => Ok x
  | entry :: rest =>
      if (Z.of_N (e_seq entry) <=? ix_cursor x)%Z then absorb x rest
      else
        x' ← absorbEntry (set_cursor x (e_seq entry)) entry;
        absorb x' rest
  end.
End Signatures.

(** ** Reads

    [uptoSeq] is the snapshot pin; [None] is the default of no pin. *)

Definition upto (seq : N) (uptoSeq : option N) : bool :=
  match uptoSeq with Some u => (seq <=? u)%N | None => true end.

Definition attemptsOf (x : LineageIndex) (ltid : string) (uptoSeq : option N) : list AttemptRecord :=
  List.filter (fun r => upto (at_anchorSeq r) uptoSeq)
    (omap (fun id => ix_records x !! id) (default [] (jm_get (ix_attemptsByLtid x) ltid))).

Definition attemptsUsed (x : LineageIndex) (ltid : string) (uptoSeq : option N) : nat :=
  length (attemptsOf x ltid uptoSeq).

Definition escalationsUsed (x : LineageIndex) (ltid : string) (uptoSeq : option N) : nat :=
  length (List.filter (fun seq => upto seq uptoSeq) (default [] (ix_escalationsByLtid x !! ltid))).

Definition hasLiveAttempt (x : LineageIndex) (ltid : string) : bool :=
  (0 <? default 0 (ix_pendingAdmits x !! ltid))%N ||
  existsb (is_live x) (default [] (jm_get (ix_attemptsByLtid x) ltid)).

(** The outcome a pinned read sees. *)
Definition pinned_outcome (uptoSeq : option N) (r : AttemptRecord) : option AttemptOutcomeClass :=
  match at_outcome r with
  | Some (o, seq) => if upto seq uptoSeq then Some o else None
  | None => None
  end.

Definition streak_step (uptoSeq : option N) (streak : nat) (r : AttemptRecord) : nat :=
  match pinned_outcome uptoSeq r with
  | None => streak
  | Some OutOk => 0
  | Some o => if STALLING_OUTCOMES o then S streak else streak
  end.

Definition stallStreak (x : LineageIndex) (ltid : string) (uptoSeq : option N) : nat :=
  foldl (streak_step uptoSeq) 0 (attemptsOf x ltid uptoSeq).

Record ApproachGroup := mkGroup {
  gr_approachTag : option json;
  gr_attempts : nat;
  gr_lastOutcome : option AttemptOutcomeClass;
}.

Definition group_step (uptoSeq : option N) (groups : jsmap string ApproachGroup) (r : AttemptRecord)
    : jsmap string ApproachGroup :=
  let g := default (mkGroup (at_approachTag r) 0 None) (jm_get groups (at_approachSig r)) in
  jm_set groups (at_approachSig r)
    (mkGroup (gr_approachTag g) (S (gr_attempts g))
       (match pinned_outcome uptoSeq r with Some o => Some o | None => gr_lastOutcome g end)).

Record LineageStats := mkStats {
  st_attemptsUsed : nat;
  st_escalationsUsed : nat;
  st_stallStreak : nat;
  st_approaches : list (string * option json * nat * AttemptOutcomeClass);
}.

Definition statsOf (x : LineageIndex) (ltid : string) (uptoSeq : option N) : LineageStats :=
  let attempts := attemptsOf x ltid uptoSeq in
  let groups := foldl (group_step uptoSeq) jm_empty attempts in
  mkStats (length attempts) (escalationsUsed x ltid uptoSeq) (stallStreak x ltid uptoSeq)
    (omap (fun '(sig, g) =>
       o ← gr_lastOutcome g; Some (sig, gr_approachTag g, gr_attempts g, o)) (jm_entries groups)).

Definition knownLogicalTaskIds (x : LineageIndex) : list string := jm_order (ix_attemptsByLtid x).

(** ** Frames

    What an operation that is not about escalations, closed targets or the
    cursor leaves alone, and how attempts grow. *)

Record frame (x x' : LineageIndex) : Prop := {
  fr_escalations : ix_escalationsByLtid x' = ix_escalationsByLtid x;
  fr_closed : ix_closedTargets x' = ix_closedTargets x;
  fr_cursor : ix_cursor x' = ix_cursor x;
}.

#[global] Instance frame_preorder : PreOrder frame.
Proof.
  split; [by intros x|]. intros x y z [] []. constructor; congruence.
Qed.

Lemma frame_mutate x id f : frame x (mutate x id f).
Proof. done. Qed.

Lemma frame_settle_pending x ltid : frame x (settle_pending x ltid).
Proof. unfold settle_pending. by case_match. Qed.

Lemma frame_register x seq l scope : frame x (registerAttempt x seq l scope).
Proof.
  unfold registerAttempt. etrans; [|apply frame_settle_pending]. done.
Qed.

#[export] Hint Resolve frame_mutate frame_settle_pending frame_register : rulvar.

Lemma frame_foldl {A} (f : LineageIndex → A → LineageIndex) l x :
  (∀ x a, frame x (f x a)) → frame x (foldl f x l).
Proof.
  intros Hf. revert x. induction l as [|a l IH]; intros x; cbn; [reflexivity|].
  etrans; [apply Hf|apply IH].
Qed.

Lemma frame_abandon x entry : frame x (absorbAbandon x entry).
Proof. unfold absorbAbandon. repeat case_match; auto with rulvar; reflexivity. Qed.

Section FrameSignatures.
Variable stringify_frac : Z → positive → string.
Variable sha256 : string → string.
Variable nfc_lower : string → string.
Abbreviation register_admissions := (register_admissions stringify_frac sha256 nfc_lower).
Abbreviation absorbEntry := (absorbEntry stringify_frac sha256 nfc_lower).
Abbreviation absorb := (absorb stringify_frac sha256 nfc_lower).

Lemma frame_admissions x entry x' : register_admissions x entry = Ok x' → frame x x'.
Proof.
  unfold register_admissions. intros (l & _ & [= <-])%bind_ok.
  apply frame_foldl. intros ? []. auto with rulvar.
Qed.

Lemma frame_spawn_entry x entry : frame x (absorbSpawnEntry stringify_frac sha256 nfc_lower x entry).
Proof.
  unfold absorbSpawnEntry. case_match; [case_match; auto with rulvar; reflexivity|].
  unfold bindRoot. destruct (bound_record _ _ _); case_match; done.
Qed.

Lemma frame_spawn_admission x entry value x' :
  absorb_spawn_admission stringify_frac sha256 nfc_lower x entry value = Ok x' → frame x x'.
Proof.
  unfold absorb_spawn_admission. repeat (case_match; try (intros [= <-]; reflexivity)).
  all: intros (? & _ & [= <-])%bind_ok; repeat case_match; auto with rulvar; reflexivity.
Qed.

Lemma frame_ladder_verdict x entry value x' :
  absorb_ladder_verdict x entry value = Ok x' → frame x x'.
Proof.
  unfold absorb_ladder_verdict. intros H.
  etrans; [|assert (frame (if is_str (prop value "trigger") "verify-failed" then
      match judged_record x (prop value "attemptRef") with
      | Some id => mutate x id (set_outcome (Some (OutVerifyFailed, e_seq entry)))
      | None => x
      end else x) x') as Hf; [|exact Hf]].
  - by repeat case_match.
  - revert H. repeat (case_match; try (intros [= <-]; reflexivity)).
    all: intros (? & _ & [= <-])%bind_ok; auto with rulvar.
Qed.

(** *** Escalations *)

Definition escalations_of (x : LineageIndex) (id : string) : list N :=
  default [] (ix_escalationsByLtid x !! id).

Definition occurrences (id : string) (l : list string) : nat := length (List.filter (String.eqb id) l).

(** The escalations an entry records, first-closing-wins included. *)
Definition entry_ltids (closed : gset N) (entry : JournalEntry) : list string :=
  omap (fun rc => match rc with
                  | Ok cd => match cd_op cd with OpEscalation id => Some id | _ => None end
                  | Err _ => None
                  end) (entry_debits closed entry).

Lemma escalations_record x id seq id' :
  escalations_of (recordEscalation x id seq) id' =
  escalations_of x id' ++ replicate (occurrences id' [id]) seq.
Proof.
  unfold escalations_of, occurrences. cbn.
  destruct (String.eqb_spec id' id) as [->|Hne].
  - by rewrite lookup_insert_eq.
  - rewrite lookup_insert_ne by done. by rewrite app_nil_r.
Qed.

Lemma escalations_record_all x ltids seq id :
  let x' := foldl (fun x ltid => recordEscalation x ltid seq) x ltids in
  escalations_of x' id = escalations_of x id ++ replicate (occurrences id ltids) seq ∧
  ix_closedTargets x' = ix_closedTargets x ∧ ix_cursor x' = ix_cursor x.
Proof.
  cbn. revert x. induction ltids as [|t ltids IH]; intros x; cbn [foldl].
  { unfold occurrences. cbn. by rewrite app_nil_r. }
  destruct (IH (recordEscalation x t seq)) as (He & Hc & Hcur).
  rewrite He, escalations_record. split_and!; [|done..].
  rewrite <- app_assoc, <- replicate_add. f_equal. f_equal. unfold occurrences. cbn.
  by destruct (String.eqb id t).
Qed.

Definition debit_ltid (rc : result FoldFailure CarriedDebit) : option string :=
  match rc with
  | Ok cd => match cd_op cd with OpEscalation id => Some id | _ => None end
  | Err _ => None
  end.

Lemma admission_ltids entry l : omap debit_ltid (map (admission_debit entry) l) = [].
Proof.
  induction l as [|ad l IH]; [done|].
  assert (debit_ltid (admission_debit entry ad) = None) as E.
  { unfold admission_debit. destruct (ad_logicalTaskId ad); [|done].
    by destruct (ladder_integer (e_seq entry) (ad_ladderLength ad)). }
  cbn [map omap list_omap]. by rewrite E.
Qed.

Lemma escalation_ltids entry value :
  omap debit_ltid (map (escalation_debit entry) (escalation_debits value)) = escalated_ltids value.
Proof.
  assert (∀ d, omap debit_ltid (map (escalation_debit entry)
                 (if bool_decide (is_Some (readString d "logicalTaskId")) then [d] else [])) =
               option_list (readString d "logicalTaskId")) as Hone.
  { intros d. case_bool_decide as Hd.
    - destruct Hd as [id Hd]. rewrite Hd. cbn. by rewrite Hd.
    - by rewrite (proj2 (eq_None_not_Some _) Hd). }
  unfold escalation_debits, escalated_ltids. rewrite map_app, omap_app, Hone. f_equal.
  destruct (as_array (prop value "debits")) as [raws|]; [|done].
  induction raws as [|raw raws IH]; [done|]. cbn [omap list_omap].
  destruct (asRecord (Some raw)) as [d|]; cbn [mbind option_bind]; [|done].
  specialize (Hone d). case_bool_decide as Hd.
  - destruct Hd as [id Hd]. cbn [map omap list_omap]. cbn in Hone. rewrite Hd in *. cbn in Hone.
    cbn. rewrite Hd. f_equal. exact IH.
  - by rewrite (proj2 (eq_None_not_Some _) Hd).
Qed.

Lemma decision_ltids entry :
  omap debit_ltid (decision_debits entry) =
  match asRecord (e_value entry) with
  | Some value =>
      if is_str (prop value "decisionType") "escalation-decision"
         && is_true_json (prop value "countsAgainstLimit")
      then escalated_ltids value else []
  | None => []
  end.
Proof.
  unfold decision_debits. destruct (asRecord (e_value entry)) as [value|]; [|done].
  destruct (is_str _ "spawn-admission") eqn:E1.
  { apply is_str_spec in E1. rewrite E1. cbn. apply admission_ltids. }
  destruct (is_str _ "escalation-decision" && _).
  { unfold admission_debits. rewrite omap_app, admission_ltids, escalation_ltids. apply app_nil_r. }
  destruct (is_str _ "ladder-verdict" && _); [|done].
  destruct (readString value "logicalTaskId"); [|done]. unfold admission_debits. cbn.
  apply admission_ltids.
Qed.

(** What one entry does to the escalation counters. *)
Record escalation_step (entry : JournalEntry) (x x' : LineageIndex) : Prop := {
  es_escalations : ∀ id, escalations_of x' id =
    escalations_of x id ++ replicate (occurrences id (entry_ltids (ix_closedTargets x) entry)) (e_seq entry);
  es_closed : ix_closedTargets x' = closes entry ∪ ix_closedTargets x;
  es_cursor : ix_cursor x' = ix_cursor x;
}.

Lemma frame_step entry x x' :
  frame x x' → entry_ltids (ix_closedTargets x) entry = [] → closes entry = ∅ →
  escalation_step entry x x'.
Proof.
  intros [He Hc Hcur] Hl Hcl. constructor.
  - intros id. unfold escalations_of. rewrite He, Hl. unfold occurrences. cbn. by rewrite app_nil_r.
  - by rewrite Hc, Hcl, (left_id_L ∅ (∪)).
  - done.
Qed.

Lemma resolution_step entry x target :
  e_kind entry = KResolution → e_ref entry = Some target →
  escalation_step entry x (absorbResolution x entry target).
Proof.
  intros Hk Hr.
  assert (closes entry = {[target]}) as Hcl by (unfold closes; by rewrite Hk, Hr).
  assert (entry_ltids (ix_closedTargets x) entry =
    if decide (target ∈ ix_closedTargets x) then [] else omap debit_ltid (resolution_debits entry)) as Hl.
  { unfold entry_ltids, entry_debits. rewrite Hk, Hr. by case_decide. }
  unfold absorbResolution. case_decide as Hin.
  { constructor; [|rewrite Hcl; set_solver|done].
    intros id. rewrite Hl. unfold occurrences. cbn. by rewrite app_nil_r. }
  assert (omap debit_ltid (resolution_debits entry) = [] → escalation_step entry x (close_target x target))
    as Hnone.
  { intros E. constructor; [|by rewrite Hcl|done].
    intros id. rewrite Hl, E. unfold occurrences. cbn. by rewrite app_nil_r. }
  revert Hnone Hl. unfold resolution_debits.
  destruct (e_resolution entry) as [p|]; [|by auto].
  destruct (r_countsAgainstLimit p) as [[]|]; try by auto.
  destruct (r_logicalTaskId p) as [ltid|]; [|by auto].
  case_decide; [by auto|]. intros _ Hl. cbn in Hl.
  constructor; [|by rewrite Hcl|done].
  intros id. rewrite Hl. apply (escalations_record (close_target x target)).
Qed.

Lemma decision_step entry x x' :
  e_kind entry = KDecision → absorbDecision stringify_frac sha256 nfc_lower x entry = Ok x' →
  escalation_step entry x x'.
Proof.
  intros Hk.
  assert (closes entry = ∅) as Hcl by (unfold closes; by rewrite Hk).
  assert (entry_ltids (ix_closedTargets x) entry = omap debit_ltid (decision_debits entry)) as Hl.
  { unfold entry_ltids, entry_debits. by rewrite Hk. }
  rewrite decision_ltids in Hl. unfold absorbDecision.
  destruct (asRecord (e_value entry)) as [value|] eqn:Ev.
  2: { intros [= <-]. apply frame_step; [reflexivity|done..]. }
  destruct (is_str _ "spawn-admission") eqn:E1.
  { apply is_str_spec in E1. rewrite E1 in Hl. cbn in Hl. intros H%frame_spawn_admission.
    by apply frame_step. }
  destruct (is_str _ "ladder-verdict") eqn:E2.
  { apply is_str_spec in E2. rewrite E2 in Hl. cbn in Hl. intros H%frame_ladder_verdict.
    by apply frame_step. }
  destruct (is_str _ "escalation-decision").
  2: { intros [= <-]. apply frame_step; [reflexivity|done..]. }
  unfold absorb_escalation. cbn [andb] in Hl.
  destruct (is_true_json _); cbn [negb].
  2: { intros [= <-]. apply frame_step; [reflexivity|done..]. }
  intros [He Hc Hcur]%frame_admissions.
  pose proof (fun id => escalations_record_all x (escalated_ltids value) (e_seq entry) id) as Hr.
  cbn in Hr. constructor.
  - intros id. unfold escalations_of at 1. rewrite He, Hl. apply (Hr id).
  - rewrite Hc, Hcl, (left_id_L ∅ (∪)). apply (Hr "").
  - rewrite Hcur. apply (Hr "").
Qed.

Lemma absorbEntry_step entry x x' : absorbEntry x entry = Ok x' → escalation_step entry x x'.
Proof.
  unfold absorbEntry.
  assert (∀ x1, frame x x1 → entry_ltids (ix_closedTargets x) entry = [] → closes entry = ∅ →
                Ok x1 = Ok (E := LineageError) x' → escalation_step entry x x') as Hframe.
  { intros x1 Hf Hl Hcl [= <-]. by apply frame_step. }
  destruct (e_kind entry) eqn:Ek;
    try (apply Hframe; [reflexivity | unfold entry_ltids, entry_debits, closes; by rewrite Ek ..]).
  all: try (apply Hframe; [apply frame_spawn_entry | unfold entry_ltids, entry_debits, closes; by rewrite Ek ..]).
  all: try (apply Hframe; [apply frame_abandon | unfold entry_ltids, entry_debits, closes; by rewrite Ek ..]).
  - by apply decision_step.
  - intros H%frame_admissions. apply frame_step; [done| |unfold closes; by rewrite Ek].
    unfold entry_ltids, entry_debits. rewrite Ek. cbn. apply admission_ltids.
  - destruct (e_ref entry) as [target|] eqn:Er.
    + intros [= <-]. by apply resolution_step.
    + apply Hframe; [reflexivity | unfold entry_ltids, entry_debits, closes; by rewrite Ek, Er ..].
Qed.

Lemma journal_seq_order (entry : JournalEntry) es :
  StronglySorted (fun a b => e_seq a < e_seq b)%N (entry :: es) →
  StronglySorted (fun a b => e_seq a < e_seq b)%N es ∧ ∀ e, e ∈ es → (e_seq entry < e_seq e)%N.
Proof. intros [H1 H2]%StronglySorted_inv. split; [done|]. by apply Forall_forall. Qed.

Lemma occurrences_app id l k : occurrences id (l ++ k) = occurrences id l + occurrences id k.
Proof. unfold occurrences. by rewrite List.filter_app, length_app. Qed.

Lemma absorb_escalations initSeq x es x' :
  StronglySorted (fun a b => e_seq a < e_seq b)%N es →
  (∀ e, e ∈ es → (initSeq < e_seq e)%N ∧ (ix_cursor x < Z.of_N (e_seq e))%Z) →
  absorb x es = Ok x' → ∀ id,
  length (escalations_of x' id) =
  length (escalations_of x id) +
  occurrences id (omap debit_ltid (journal_debits initSeq (ix_closedTargets x) es)).
Proof.
  revert x. induction es as [|e es IH]; intros x Hs Hseq; cbn [Lineage.absorb journal_debits].
  { intros [= <-] id. cbn. lia. }
  apply journal_seq_order in Hs as [Hs Hlt].
  destruct (Hseq e ltac:(left)) as [Hi Hc].
  rewrite (proj2 (Z.leb_gt _ _)) by done. rewrite (proj2 (N.leb_gt _ _)) by done.
  intros (x1 & [He Hcl Hcur]%absorbEntry_step & Hrest)%bind_ok id.
  cbn [set_cursor ix_closedTargets ix_cursor] in *.
  rewrite (IH x1 Hs) by
    (done || (intros e' He'; rewrite Hcur; split;
       [apply Hseq; by right | specialize (Hlt e' He'); lia])).
  rewrite He, Hcl, length_app, length_replicate, omap_app, occurrences_app.
  unfold entry_ltids, escalations_of. cbn [set_cursor ix_escalationsByLtid].
  change (omap _ (entry_debits (ix_closedTargets x) e)) with
    (omap debit_ltid (entry_debits (ix_closedTargets x) e)). lia.
Qed.
End FrameSignatures.

(** *** The cap, on the account side *)

Definition escalation_id (op : DebitOp) : option string :=
  match op with OpEscalation id => Some id | _ => None end.

(** The escalation units a task still has, a task never seen having them all. *)
Definition units_left (a : TerminationAccount) (id : string) : Z :=
  match jm_get (lineages a) id with
  | Some s => escalationUnitsRemaining s
  | None => maxEscalationsPerLogicalTask (limits a)
  end.

Lemma units_left_set a id s id' :
  units_left (set_lineage a id s) id' =
  if decide (id = id') then escalationUnitsRemaining s else units_left a id'.
Proof. unfold units_left. cbn [set_lineage lineages limits]. rewrite jm_get_set. by case_decide. Qed.

Lemma requireLineage_spec a id :
  let '(a', s) := requireLineage a id in
  limits a' = limits a ∧ jm_get (lineages a') id = Some s ∧
  ∀ id', units_left a' id' = units_left a id'.
Proof.
  unfold requireLineage. destruct (jm_get (lineages a) id) as [s|] eqn:E; [done|].
  split_and!; [done|cbn [set_lineage lineages]; by rewrite jm_get_set_eq|].
  intros id'. rewrite units_left_set. case_decide as Hid; [|done]. subst.
  unfold units_left. by rewrite E.
Qed.

Lemma occurrences_cons id t l :
  occurrences id (t :: l) = (if String.eqb id t then 1 else 0) + occurrences id l.
Proof. unfold occurrences. cbn. by destruct (String.eqb id t). Qed.

(** A debit takes a unit from its own task only, and only when there is one. *)
Lemma apply_op_units a op bs :
  balances (snd (apply_op a op)) = Some bs →
  limits (fst (apply_op a op)) = limits a ∧
  ∀ id, units_left (fst (apply_op a op)) id =
        (units_left a id - Z.of_nat (occurrences id (option_list (escalation_id op))))%Z ∧
        (escalation_id op = Some id → 0 < units_left a id)%Z.
Proof.
  destruct op as [|l|ltid|ltid]; cbn [apply_op escalation_id].
  - unfold debitRevision. case_match; [done|]. intros _. split; [done|]. intros id. by rewrite Z.sub_0_r.
  - unfold debitSpawn. case_match; [done|]. destruct l as [l|].
    2: { intros _. split; [done|]. intros id. by rewrite Z.sub_0_r. }
    case_match; [done|]. case_match eqn:En; intros _; (split; [done|]); intros id; rewrite Z.sub_0_r;
      [|done].
    apply andb_prop in En as [_ Hnone%bool_decide_eq_true]. split; [|done].
    change (units_left (fst (take_spawn ?a)) id) with (units_left a id).
    rewrite units_left_set. case_decide as Hid; [|done]. subst. unfold units_left. by rewrite Hnone.
  - unfold debitEscalation. pose proof (requireLineage_spec a ltid) as Hr.
    destruct (requireLineage a ltid) as [a1 s]. destruct Hr as (Hlim & Hget & Hleft).
    destruct (Z.leb_spec (escalationUnitsRemaining s) 0) as [|Hpos]; [done|]. intros _.
    cbn [fst]. split; [done|]. intros id. rewrite units_left_set, Hleft.
    assert (units_left a ltid = escalationUnitsRemaining s) as Hu
      by (rewrite <- Hleft; unfold units_left; by rewrite Hget).
    change (option_list (Some ltid)) with [ltid]. rewrite occurrences_cons.
    change (occurrences id []) with 0.
    split; [|intros [= ->]; lia].
    destruct (String.eqb_spec id ltid) as [->|Hne].
    + rewrite decide_True by done. cbn [escalationUnitsRemaining]. lia.
    + rewrite decide_False by congruence. lia.
  - unfold debitRung. pose proof (requireLineage_spec a ltid) as Hr.
    destruct (requireLineage a ltid) as [a1 s]. destruct Hr as (Hlim & Hget & Hleft).
    case_match; [done|]. intros _. cbn [fst]. split; [done|]. intros id.
    rewrite units_left_set, Hleft, Z.sub_0_r. case_decide as Hid; [|done]. subst.
    split; [|done]. rewrite <- Hleft. unfold units_left. by rewrite Hget.
Qed.

(** Sound debits escalate a task at most as often as it has units. *)
Lemma replays_escalations ds a id :
  replays a ds → (0 ≤ units_left a id)%Z →
  (Z.of_nat (occurrences id (omap (fun cd => escalation_id (cd_op cd)) ds)) ≤ units_left a id)%Z.
Proof.
  revert a. induction ds as [|cd ds IH]; intros a; cbn [replays]; [intros _ ?; done|].
  destruct (balances _) as [bs|] eqn:Eb; [|done]. intros [_ Hds] Hpos.
  destruct (apply_op_units a (cd_op cd) bs Eb) as [_ Hu]. destruct (Hu id) as [Hleft Hlast].
  cbn [omap list_omap].
  destruct (escalation_id (cd_op cd)) as [ltid|].
  - change (option_list (Some ltid)) with [ltid] in *. rewrite occurrences_cons in *. change (occurrences id []) with 0 in Hleft.
    destruct (String.eqb_spec id ltid) as [->|Hne].
    + specialize (Hlast eq_refl). specialize (IH _ Hds ltac:(lia)). lia.
    + specialize (IH _ Hds ltac:(lia)). lia.
  - change (occurrences id (option_list None)) with 0 in Hleft. specialize (IH _ Hds ltac:(lia)). lia.
Qed.

Lemma filter_true {A} (l : list A) : List.filter (fun _ => true) l = l.
Proof. induction l as [|x l IH]; cbn; congruence. Qed.

Lemma ltids_of_debits ds :
  omap debit_ltid (map Ok ds) = omap (fun cd => escalation_id (cd_op cd)) ds.
Proof. induction ds as [|cd ds IH]; [done|]. cbn. rewrite IH. by destruct (cd_op cd). Qed.

Section Agreement.
Variable stringify_frac : Z → positive → string.
Variable sha256 : string → string.
Variable nfc_lower : string → string.
Abbreviation absorb := (absorb stringify_frac sha256 nfc_lower).

Lemma absorb_from_init initEntry es x :
  StronglySorted (fun a b => e_seq a < e_seq b)%N (initEntry :: es) → is_init initEntry = true →
  absorb newLineageIndex (initEntry :: es) = Ok x → ∀ id,
  length (escalations_of x id) =
  occurrences id (omap debit_ltid (journal_debits (e_seq initEntry) ∅ (initEntry :: es))).
Proof.
  intros [Hs Hlt]%journal_seq_order Hi%bool_decide_eq_true Hx id.
  cbn [Lineage.absorb journal_debits] in *. rewrite N.leb_refl.
  rewrite (proj2 (Z.leb_gt _ _)) in Hx by (cbn; lia).
  unfold absorbEntry in Hx. rewrite Hi in Hx. cbn [mbind result_bind] in Hx.
  rewrite (absorb_escalations _ _ _ (e_seq initEntry) _ _ _ Hs) with (2 := Hx); [done|].
  intros e He. specialize (Hlt e He). cbn. lia.
Qed.

End Agreement.


(** ** Growth of the attempts *)

Definition ltid_ids (x : LineageIndex) (ltid : string) : list nat :=
  default [] (jm_get (ix_attemptsByLtid x) ltid).

Definition anchors (x : LineageIndex) (ltid : string) : list N :=
  omap (fun id => at_anchorSeq <$> ix_records x !! id) (ltid_ids x ltid).

(** Addresses are allocated. *)
Definition index_wf (x : LineageIndex) : Prop :=
  ∀ ltid id, id ∈ ltid_ids x ltid → id < length (ix_records x).

Definition grows (seq : N) (x x' : LineageIndex) : Prop :=
  index_wf x → index_wf x' ∧ ∀ ltid, ∃ k, anchors x' ltid = anchors x ltid ++ replicate k seq.

#[global] Instance grows_preorder seq : PreOrder (grows seq).
Proof.
  split.
  - intros x Hx. split; [done|]. intros ltid. exists 0. by rewrite app_nil_r.
  - intros x y z H1 H2 Hx. destruct (H1 Hx) as [Hy Hk1]. destruct (H2 Hy) as [Hz Hk2].
    split; [done|]. intros ltid. destruct (Hk1 ltid) as [k1 E1]. destruct (Hk2 ltid) as [k2 E2].
    exists (k1 + k2). by rewrite E2, E1, <- app_assoc, replicate_add.
Qed.

(** Same attempts and the same anchors. *)
Lemma grows_same seq x x' :
  ix_attemptsByLtid x' = ix_attemptsByLtid x →
  (at_anchorSeq <$> ix_records x') = (at_anchorSeq <$> ix_records x) → grows seq x x'.
Proof.
  intros Ha Hr Hx.
  assert (∀ id : nat, at_anchorSeq <$> ix_records x' !! id = at_anchorSeq <$> ix_records x !! id) as Hl.
  { intros id. by rewrite <- !list_lookup_fmap, Hr. }
  assert (length (ix_records x') = length (ix_records x)) as Hlen.
  { rewrite <- (length_fmap at_anchorSeq), Hr. apply length_fmap. }
  unfold index_wf, ltid_ids, anchors in *. rewrite Ha, Hlen. split; [done|].
  intros ltid. exists 0. rewrite app_nil_r. unfold ltid_ids. rewrite Ha.
  induction (default [] _) as [|id l IH]; [done|]. cbn [omap list_omap]. by rewrite Hl, IH.
Qed.

Lemma grows_mutate seq x id f :
  (∀ r, at_anchorSeq (f r) = at_anchorSeq r) → grows seq x (mutate x id f).
Proof.
  intros Hf. apply grows_same; [done|]. cbn. apply list_eq. intros i.
  rewrite !list_lookup_fmap, list_lookup_alter. case_decide; [|done]. subst.
  destruct (ix_records x !! i); cbn; [by rewrite Hf|done].
Qed.

Lemma grows_push x r slot : grows (at_anchorSeq r) x (push_attempt x r slot).
Proof.
  intros Hx.
  assert (∀ l, (∀ id, id ∈ l → id < length (ix_records x)) →
    omap (fun id => at_anchorSeq <$> (ix_records x ++ [r]) !! id) l =
    omap (M := list) (fun id => at_anchorSeq <$> ix_records x !! id) l) as Hold.
  { induction l as [|id l IH]; intros Hl; [done|]. cbn [omap list_omap].
    rewrite lookup_app_l by (apply Hl; left). rewrite IH; [done|]. intros i Hi. apply Hl. by right. }
  assert (∀ ltid, ltid_ids (push_attempt x r slot) ltid =
    ltid_ids x ltid ++ if decide (at_logicalTaskId r = ltid) then [length (ix_records x)] else []) as Hids.
  { intros ltid. unfold ltid_ids. cbn [push_attempt ix_attemptsByLtid]. rewrite jm_get_set.
    case_decide; subst; [done|by rewrite app_nil_r]. }
  split.
  - intros ltid id. rewrite Hids. cbn [push_attempt ix_records]. rewrite length_app. cbn.
    intros [Hin|Hin]%elem_of_app; [specialize (Hx ltid id Hin); lia|].
    case_decide; [apply list_elem_of_singleton in Hin as ->; lia | by apply elem_of_nil in Hin].
  - intros ltid. unfold anchors. rewrite Hids, omap_app. cbn [push_attempt ix_records].
    rewrite Hold by apply Hx.
    case_decide; [exists 1 | by exists 0].
    cbn [omap list_omap]. by rewrite list_lookup_middle.
Qed.

Lemma grows_settle_pending seq x ltid : grows seq x (settle_pending x ltid).
Proof. unfold settle_pending. case_match; [by apply grows_same|reflexivity]. Qed.

Lemma grows_register x seq l scope : grows seq x (registerAttempt x seq l scope).
Proof.
  unfold registerAttempt. etrans; [|apply grows_settle_pending].
  apply (grows_push x (mkAttempt _ _ _ _ _ _ _ _ _ _ seq)).
Qed.

Lemma grows_foldl {A} seq (f : LineageIndex → A → LineageIndex) l x :
  (∀ x a, grows seq x (f x a)) → grows seq x (foldl f x l).
Proof.
  intros Hf. revert x. induction l as [|a l IH]; intros x; cbn; [reflexivity|].
  etrans; [apply Hf|apply IH].
Qed.

#[export] Hint Resolve grows_register : rulvar.

Lemma grows_outcome seq x id o : grows seq x (mutate x id (set_outcome o)).
Proof. by apply grows_mutate. Qed.

Lemma grows_abandon seq x entry : grows seq x (absorbAbandon x entry).
Proof. unfold absorbAbandon. repeat case_match; try apply grows_outcome; reflexivity. Qed.

#[export] Hint Resolve grows_outcome grows_abandon : rulvar.

Section GrowthSignatures.
Variable stringify_frac : Z → positive → string.
Variable sha256 : string → string.
Variable nfc_lower : string → string.
Abbreviation register_admissions := (register_admissions stringify_frac sha256 nfc_lower).
Abbreviation absorbEntry := (absorbEntry stringify_frac sha256 nfc_lower).
Abbreviation absorb := (absorb stringify_frac sha256 nfc_lower).

Lemma grows_admissions x entry x' : register_admissions x entry = Ok x' → grows (e_seq entry) x x'.
Proof.
  unfold register_admissions. intros (l & _ & [= <-])%bind_ok.
  apply grows_foldl. intros ? []. auto with rulvar.
Qed.

Lemma grows_spawn_entry x entry :
  grows (e_seq entry) x (absorbSpawnEntry stringify_frac sha256 nfc_lower x entry).
Proof.
  unfold absorbSpawnEntry. case_match; [case_match; auto with rulvar; reflexivity|].
  assert (∀ y id, grows (e_seq entry) y (index_root (mutate y id (fun r =>
    let r := set_root (e_key entry) (e_seq entry) r in
    if is_running entry then set_outcome None r else r)) (e_seq entry) id)) as Hbind.
  { intros y id. etrans; [apply grows_mutate|by apply grows_same].
    intros r. by destruct (is_running entry). }
  unfold bindRoot. destruct (bound_record _ _ _) as [id|].
  - etrans; [apply Hbind|]. case_match; [reflexivity|apply grows_outcome].
  - etrans; [apply (grows_push x (legacy_attempt stringify_frac sha256 nfc_lower entry))|].
    etrans; [apply Hbind|]. case_match; [reflexivity|apply grows_outcome].
Qed.

Lemma grows_decision x entry x' :
  absorbDecision stringify_frac sha256 nfc_lower x entry = Ok x' → grows (e_seq entry) x x'.
Proof.
  unfold absorbDecision. destruct (asRecord (e_value entry)) as [value|]; [|by intros [= <-]].
  destruct (is_str _ "spawn-admission").
  { unfold absorb_spawn_admission. repeat (case_match; try (intros [= <-]; reflexivity)).
    all: intros (? & _ & [= <-])%bind_ok; repeat case_match; auto with rulvar; reflexivity. }
  destruct (is_str _ "ladder-verdict").
  { unfold absorb_ladder_verdict. set (x1 := if is_str _ "verify-failed" then _ else _).
    assert (grows (e_seq entry) x x1) as H1
      by (unfold x1; repeat case_match; auto with rulvar; reflexivity).
    clearbody x1. intros H. etrans; [exact H1|]. revert H.
    repeat (case_match; try (intros [= <-]; reflexivity)).
    intros (? & _ & [= <-])%bind_ok. auto with rulvar. }
  destruct (is_str _ "escalation-decision"); [|by intros [= <-]].
  unfold absorb_escalation. case_match; [by intros [= <-]|].
  intros Hadm%grows_admissions. etrans; [|exact Hadm].
  apply grows_foldl. intros y a. by apply grows_same.
Qed.

Lemma grows_entry x entry x' : absorbEntry x entry = Ok x' → grows (e_seq entry) x x'.
Proof.
  unfold absorbEntry. destruct (e_kind entry), (e_ref entry);
    try apply grows_decision; try apply grows_admissions; intros [= <-];
    first [reflexivity | apply grows_spawn_entry | apply grows_abandon | idtac].
  all: unfold absorbResolution; repeat case_match; try reflexivity; by apply grows_same.
Qed.

Lemma absorb_cons x entry es :
  absorb x (entry :: es) =
  if (Z.of_N (e_seq entry) <=? ix_cursor x)%Z then absorb x es
  else x' ← absorbEntry (set_cursor x (e_seq entry)) entry; absorb x' es.
Proof. done. Qed.

(** Absorbing adds attempts and escalations after the cursor, and moves it. *)
Lemma absorb_grows es x x' :
  absorb x es = Ok x' → index_wf x →
  index_wf x' ∧ (ix_cursor x ≤ ix_cursor x')%Z ∧
  (∀ e, e ∈ es → (Z.of_N (e_seq e) ≤ ix_cursor x')%Z) ∧
  ∀ ltid, ∃ l k,
    anchors x' ltid = anchors x ltid ++ l ∧ escalations_of x' ltid = escalations_of x ltid ++ k ∧
    Forall (fun seq => ix_cursor x < Z.of_N seq)%Z (l ++ k).
Proof.
  revert x. induction es as [|e es IH]; intros x; [intros [= <-] Hx|rewrite absorb_cons].
  { split_and!; [done..|set_solver|]. intros ltid. exists [], []. rewrite !app_nil_r. by split_and!. }
  destruct (Z.leb_spec (Z.of_N (e_seq e)) (ix_cursor x)) as [Hle|Hlt].
  { intros H Hx. destruct (IH x H Hx) as (? & Hc & Hes & Hk). split_and!; [done..| |done].
    intros e' [->|He']%elem_of_cons; [lia|by apply Hes]. }
  intros (x1 & H1 & Hrest)%bind_ok Hx.
  pose proof (absorbEntry_step _ _ _ _ _ _ H1) as [Hesc _ Hcur]. cbn [set_cursor ix_cursor] in Hcur.
  destruct (grows_entry _ _ _ H1) as [Hwf1 Hgr]; [exact Hx|].
  destruct (IH x1 Hrest Hwf1) as (Hwf & Hc & Hes & Hk). split_and!; [done|lia| |].
  - intros e' [->|He']%elem_of_cons; [lia|by apply Hes].
  - intros ltid. destruct (Hk ltid) as (l & k & Hl & Hk2 & Hall). destruct (Hgr ltid) as [n Hn].
    eexists (replicate n (e_seq e) ++ l), (replicate _ (e_seq e) ++ k).
    rewrite Hl, Hn, Hk2, Hesc, <- !app_assoc. split_and!; [done..|].
    apply Forall_app in Hall as [Hal Hak].
    repeat (apply Forall_app; split); try (apply Forall_replicate; lia);
      eapply Forall_impl; try eassumption; cbn; intros; lia.
Qed.
End GrowthSignatures.

Lemma new_index_wf : index_wf newLineageIndex.
Proof. intros ltid id. unfold ltid_ids. cbn. by intros ?%not_elem_of_nil. Qed.

Section IndexProperties.
Variable stringify_frac : Z → positive → string.
Variable sha256 : string → string.
Variable nfc_lower : string → string.
Abbreviation absorb := (absorb stringify_frac sha256 nfc_lower).

Lemma absorb_app x p q : absorb x (p ++ q) = (x1 ← absorb x p; absorb x1 q).
Proof.
  revert x. induction p as [|e p IH]; intros x; [done|].
  change ((e :: p) ++ q) with (e :: (p ++ q)). rewrite !absorb_cons.
  case_match; [apply IH|]. destruct (absorbEntry _ _ _ _ _); [apply IH|done].
Qed.

Lemma absorb_past x es :
  (∀ e, e ∈ es → (Z.of_N (e_seq e) ≤ ix_cursor x)%Z) → absorb x es = Ok x.
Proof.
  induction es as [|e es IH]; intros Hes; [done|]. rewrite absorb_cons.
  rewrite (proj2 (Z.leb_le _ _)) by (apply Hes; left). apply IH. intros e' He'. apply Hes. by right.
Qed.

Lemma attemptsUsed_anchors x ltid u :
  attemptsUsed x ltid u = length (List.filter (fun seq => upto seq u) (anchors x ltid)).
Proof.
  unfold attemptsUsed, attemptsOf, anchors, ltid_ids.
  induction (default [] (jm_get (ix_attemptsByLtid x) ltid)) as [|id l IH]; [done|].
  cbn [omap list_omap]. destruct (ix_records x !! id) as [r|]; cbn [fmap option_fmap option_map]; [|done].
  cbn [List.filter]. by destruct (upto (at_anchorSeq r) u); cbn [length]; rewrite IH.
Qed.

Lemma filter_after l u c :
  (Z.of_N u ≤ c)%Z → Forall (fun seq => c < Z.of_N seq)%Z l →
  List.filter (fun seq => upto seq (Some u)) l = [].
Proof.
  intros Hu Hl. apply filter_none. intros seq Hin. rewrite Forall_forall in Hl.
  specialize (Hl seq Hin). cbn. apply N.leb_gt. lia.
Qed.

(** The index is an incremental fold.  Absorbing a longer snapshot of a
    journal into an index that already holds a prefix of it gives the index of
    one pass over the whole snapshot, and absorbing anything twice changes
    nothing, whatever the order of the entries. *)
Theorem absorb_incremental p q x :
  absorb newLineageIndex p = Ok x →
  absorb x (p ++ q) = absorb newLineageIndex (p ++ q) ∧
  ∀ x', absorb x q = Ok x' → absorb x' (p ++ q) = Ok x'.
Proof.
  intros Hx. destruct (absorb_grows _ _ _ p _ x Hx new_index_wf) as (Hwf & _ & Hp & _). split.
  - rewrite !absorb_app, Hx, absorb_past by done. done.
  - intros x' Hx'. destruct (absorb_grows _ _ _ q x x' Hx' Hwf) as (_ & Hc & Hq & _).
    apply absorb_past. intros e [He|He]%elem_of_app; [specialize (Hp e He); lia | by apply Hq].
Qed.

(** Pinned counts are snapshot-stable.  What a read pinned at or before the
    cursor says about the attempts and the escalations a task has used does not
    change when more entries are absorbed. *)
Theorem pinned_counts_stable p q x x' ltid u :
  absorb newLineageIndex p = Ok x → absorb x q = Ok x' → (Z.of_N u ≤ ix_cursor x)%Z →
  attemptsUsed x' ltid (Some u) = attemptsUsed x ltid (Some u) ∧
  escalationsUsed x' ltid (Some u) = escalationsUsed x ltid (Some u).
Proof.
  intros Hx Hx' Hu. destruct (absorb_grows _ _ _ p _ x Hx new_index_wf) as (Hwf & _).
  destruct (absorb_grows _ _ _ q x x' Hx' Hwf) as (_ & _ & _ & Hk).
  destruct (Hk ltid) as (l & k & Hl & Hk2 & [Hal Hak]%Forall_app).
  rewrite !attemptsUsed_anchors, Hl, List.filter_app, (filter_after l u _ Hu Hal), app_nil_r.
  split; [done|]. unfold escalationsUsed.
  change (default [] (ix_escalationsByLtid ?y !! ltid)) with (escalations_of y ltid).
  by rewrite Hk2, List.filter_app, (filter_after k u _ Hu Hak), app_nil_r.
Qed.
End IndexProperties.

(** ** A task that fails, is raised, and is judged

    The pinned stall streak reads outcomes that later entries overwrite: a
    redispatch of the slot, or a verdict on a settled attempt, takes the outcome
    a pinned read saw away. *)

Definition lineage_json (id : string) : json :=
  JObj [("logicalTaskId", JStr id); ("relation", JStr "first"); ("approachSig", JStr "sig");
        ("approachSigCoarse", JStr "coarse"); ("approachTag", JStr "default")].

Definition failing_task : list JournalEntry :=
  [decision_entry 1 [("decisionType", JStr "spawn-admission"); ("lineage", lineage_json "t1");
                     ("childScope", JStr "plan/a")];
   base_entry 2 "plan/a" "k" KAgent StRunning;
   with_error (with_ref (base_entry 3 "plan/a" "k" KAgent StError) 2)
     (mkWire "agent" "" false (Some (JObj [("kind", JStr "terminal")])))].

(** The same slot dispatched again. *)
Definition redispatch : list JournalEntry := [base_entry 4 "plan/a" "k" KAgent StRunning].

Abbreviation absorb_plain := (absorb (fun _ _ => "") (fun s => s) (fun s => s)).

Lemma pinned_stall_streak_unstable :
  ∃ x x', absorb_plain newLineageIndex failing_task = Ok x ∧ absorb_plain x redispatch = Ok x' ∧
    stallStreak x "t1" (Some 3%N) = 1 ∧ stallStreak x' "t1" (Some 3%N) = 0.
Proof. eexists _, _. split_and!; by vm_compute. Qed.

Lemma absorb_incremental_witness :
  ∃ x, absorb_plain newLineageIndex failing_task = Ok x ∧
       absorb_plain x (failing_task ++ redispatch) =
       absorb_plain newLineageIndex (failing_task ++ redispatch) ∧
       hasLiveAttempt x "t1" = false.
Proof.
  destruct (absorb_plain newLineageIndex failing_task) as [x|] eqn:E; [|vm_compute in E; discriminate].
  exists x. split; [done|]. split.
  - by apply (absorb_incremental (fun _ _ => "") (fun s => s) (fun s => s) failing_task redispatch x).
  - vm_compute in E. injection E as <-. by vm_compute.
Defined.

Lemma pinned_counts_stable_witness :
  ∃ x x', absorb_plain newLineageIndex failing_task = Ok x ∧ absorb_plain x redispatch = Ok x' ∧
    attemptsUsed x' "t1" (Some 2%N) = attemptsUsed x "t1" (Some 2%N) ∧ attemptsUsed x "t1" (Some 2%N) = 1.
Proof.
  destruct (absorb_plain newLineageIndex failing_task) as [x|] eqn:E; [|vm_compute in E; discriminate].
  destruct (absorb_plain x redispatch) as [x'|] eqn:E';
    [|vm_compute in E; injection E as <-; vm_compute in E'; discriminate].
  exists x, x'. split_and!; [done|done| |].
  - apply (pinned_counts_stable (fun _ _ => "") (fun s => s) (fun s => s) failing_task redispatch x x');
      [done|done|]. vm_compute in E. injection E as <-. by vm_compute.
  - vm_compute in E. injection E as <-. by vm_compute.
Defined.

(** ** Approach tags *)

Definition tag_shape (c : ascii) : bool := is_tag_char c || Ascii.eqb c "-"%char.

Lemma collapse_shape b s : str_forall tag_shape (collapse b s) = true.
Proof.
  revert b. induction s as [|c s IH]; intros b; cbn [collapse]; [done|].
  destruct (is_tag_char c) eqn:E; [|destruct b]; cbn [str_forall]; rewrite ?IH; [|done|done].
  unfold tag_shape. by rewrite E.
Qed.

Lemma slice_shape p n s : str_forall p s = true → str_forall p (slice_to n s) = true.
Proof.
  revert s. induction n as [|n IH]; intros [|c s]; cbn; try done.
  intros [-> Hs]%andb_prop. by apply IH.
Qed.

Lemma slice_length n s : String.length (slice_to n s) <= n.
Proof. revert s. induction n as [|n IH]; intros [|c s]; cbn; try lia. specialize (IH s). lia. Qed.

Lemma slice_short n s : String.length s <= n → slice_to n s = s.
Proof.
  revert s. induction n as [|n IH]; intros [|c s]; cbn; try done; [lia|].
  intros Hs. rewrite IH by lia. done.
Qed.

(** No two hyphens in a row, nor a leading one inside a run. *)
Fixpoint collapsed (in_run : bool) (s : string) : bool :=
  match s with
  | "" => true
  | String c rest =>
      if is_tag_char c then collapsed false rest else negb in_run && Ascii.eqb c "-"%char && collapsed true rest
  end.

Lemma collapse_collapsed b s : collapsed b (collapse b s) = true.
Proof.
  revert b. induction s as [|c s IH]; intros b; cbn [collapse]; [done|].
  destruct (is_tag_char c) eqn:E; [cbn [collapsed]; rewrite E; apply IH|].
  destruct b; [apply IH|]. cbn. apply IH.
Qed.

Lemma collapsed_slice b n s : collapsed b s = true → collapsed b (slice_to n s) = true.
Proof.
  revert b s. induction n as [|n IH]; intros b [|c s]; cbn [slice_to collapsed]; try done.
  destruct (is_tag_char c); [apply IH|]. intros [-> Hs]%andb_prop. by apply IH.
Qed.

Lemma collapse_id b s : collapsed b s = true → collapse b s = s.
Proof.
  revert b. induction s as [|c s IH]; intros b; cbn [collapse collapsed]; [done|].
  destruct (is_tag_char c); [by intros ->%IH|].
  intros [[Hb ->%Ascii.eqb_eq]%andb_prop Hs]%andb_prop. destruct b; [done|]. by rewrite (IH true Hs).
Qed.

(** A normalized approach tag is a nonempty string of at most 32 lower-case
    letters, digits and hyphens, no two hyphens adjacent, and normalizing it
    again returns it, so tags that differ in case, spacing or punctuation key
    the same lessons. *)
Theorem approach_tag_canonical (nfc_lower : string → string) (raw : option string) :
  (∀ s, str_forall tag_shape s = true → nfc_lower s = s) →
  let tag := normalizeApproachTag nfc_lower raw in
  tag ≠ "" ∧ String.length tag <= 32 ∧ str_forall tag_shape tag = true ∧ collapsed false tag = true ∧
  normalizeApproachTag nfc_lower (Some tag) = tag.
Proof.
  intros Hnfc tag.
  assert (tag ≠ "" ∧ String.length tag <= 32 ∧ str_forall tag_shape tag = true ∧
          collapsed false tag = true) as (Hne & Hlen & Hshape & Hcol).
  { unfold tag, normalizeApproachTag. case_decide as Hc; [split_and!; [done|cbn; lia|done|done]|].
    split_and!; [done|apply slice_length|apply slice_shape, collapse_shape|].
    apply collapsed_slice, collapse_collapsed. }
  split_and!; [done..|]. clearbody tag. unfold normalizeApproachTag. cbn [default from_option id].
  rewrite Hnfc, collapse_id, slice_short, decide_False by done. done.
Qed.

Lemma approach_tag_canonical_witness :
  normalizeApproachTag id (Some "use--the  cache") = "use-the-cache" ∧
  normalizeApproachTag id (Some "use-the-cache") = "use-the-cache".
Proof.
  split; [by vm_compute|].
  apply (approach_tag_canonical id (Some "use--the  cache")). done.
Defined.
