(* ===== verification/PlanState.v ===== *)
(** * The task plan (packages/plan/src/plan-state.ts)

    The plan of an adaptive run: nodes keyed by engine-minted identifiers, with
    a closed status machine, a dependency relation between nodes, the
    derivation of readiness and the cycle check of [rewire_deps].

    [plan.nodes] is an object used as a map, read here by its own members in
    insertion order.  A priority is a JSON number. *)
From S2P Require Import Prelude Json JsMap.

Inductive PlanNodeStatus :=
  | pending | ready | running | parked | escalated | done | failed | cancelled | skipped.

#[global] Instance PlanNodeStatus_eq_dec : EqDecision PlanNodeStatus.
Proof. solve_decision. Defined.

Definition status_text (s : PlanNodeStatus) : string :=
  match s with
  | pending => "pending" | ready => "ready" | running => "running"
  | parked => "parked" | escalated => "escalated" | done => "done"
  | failed => "failed" | cancelled => "cancelled" | skipped => "skipped"
  end.

Record PlanNode := mkPlanNode {
  nodeId : string;
  logicalTaskId : string;
  status : PlanNodeStatus;
  deps : list string;
  waivedDeps : list string;
  parkRequested : bool;
  cancelRequested : bool;
  priority : json;
  promptSpecHash : string;
  checkpointRef : option N;
  escalationRef : option N;
}.

(** [{ ...node, status }], [{ ...node, deps, waivedDeps }]. *)
Definition with_status (n : PlanNode) (s : PlanNodeStatus) : PlanNode :=
  mkPlanNode (nodeId n) (logicalTaskId n) s (deps n) (waivedDeps n)
    (parkRequested n) (cancelRequested n) (priority n) (promptSpecHash n)
    (checkpointRef n) (escalationRef n).

Definition with_edges (n : PlanNode) (ds ws : list string) : PlanNode :=
  mkPlanNode (nodeId n) (logicalTaskId n) (status n) ds ws
    (parkRequested n) (cancelRequested n) (priority n) (promptSpecHash n)
    (checkpointRef n) (escalationRef n).

(** [{ ...node, parkRequested, cancelRequested }]. *)
Definition with_requests (n : PlanNode) (p c : bool) : PlanNode :=
  mkPlanNode (nodeId n) (logicalTaskId n) (status n) (deps n) (waivedDeps n)
    p c (priority n) (promptSpecHash n) (checkpointRef n) (escalationRef n).

Definition with_priority (n : PlanNode) (v : json) : PlanNode :=
  mkPlanNode (nodeId n) (logicalTaskId n) (status n) (deps n) (waivedDeps n)
    (parkRequested n) (cancelRequested n) v (promptSpecHash n)
    (checkpointRef n) (escalationRef n).

Definition with_specHash (n : PlanNode) (h : string) : PlanNode :=
  mkPlanNode (nodeId n) (logicalTaskId n) (status n) (deps n) (waivedDeps n)
    (parkRequested n) (cancelRequested n) (priority n) h
    (checkpointRef n) (escalationRef n).

(** [{ ...node, checkpointRef }], where [None] is [delete node.checkpointRef],
    and [{ ...node, escalationRef }]. *)
Definition with_checkpoint (n : PlanNode) (r : option N) : PlanNode :=
  mkPlanNode (nodeId n) (logicalTaskId n) (status n) (deps n) (waivedDeps n)
    (parkRequested n) (cancelRequested n) (priority n) (promptSpecHash n)
    r (escalationRef n).

Definition with_escalation (n : PlanNode) (r : option N) : PlanNode :=
  mkPlanNode (nodeId n) (logicalTaskId n) (status n) (deps n) (waivedDeps n)
    (parkRequested n) (cancelRequested n) (priority n) (promptSpecHash n)
    (checkpointRef n) r.

Record TaskPlan := mkTaskPlan {
  nodes : jsmap string PlanNode;
  revisionCount : Z;
  droppedRevisionStreak : Z;
}.

Definition emptyPlan : TaskPlan := mkTaskPlan jm_empty 0 0.

(** [plan.nodes[id]]. *)
Definition node_at (plan : TaskPlan) (id : string) : option PlanNode :=
  jm_get (nodes plan) id.

Definition with_nodes (plan : TaskPlan) (m : jsmap string PlanNode) : TaskPlan :=
  mkTaskPlan m (revisionCount plan) (droppedRevisionStreak plan).

Definition isTerminalPlanStatus (s : PlanNodeStatus) : bool :=
  match s with done | failed | cancelled | skipped => true | _ => false end.

(** [PlanInvariantError], by the check that raises it, and
    [ReplayPlanHashMismatch].  [BoundExceeded] is no error of the source: it
    marks an exhausted bound of a loop, which never happens. *)
Inductive PlanError :=
  | LeavesTerminal (id : string) (from to : PlanNodeStatus)
  | RestatesStatus (id : string) (s : PlanNodeStatus)
  | StartsUnready (id : string) (from : PlanNodeStatus)
  | UnknownNode (id : string)
  | UnknownSpec (id : string)
  | RecordedFromDiffers (id : string) (recorded actual : PlanNodeStatus)
  | MalformedPayload
  | BoundExceeded
  | PlanHashMismatch (after : bool) (actual expected : string).

Definition assertPlanTransition (n : PlanNode) (to : PlanNodeStatus) : result PlanError unit :=
  if isTerminalPlanStatus (status n) then Err (LeavesTerminal (nodeId n) (status n) to)
  else if decide (status n = to) then Err (RestatesStatus (nodeId n) to)
  else if decide (to = running) then
    (if decide (status n = ready) then Ok () else Err (StartsUnready (nodeId n) (status n)))
  else Ok ().

(** [plan.nodes[dep]?.status === s]. *)
Definition has_status (plan : TaskPlan) (id : string) (s : PlanNodeStatus) : bool :=
  match node_at plan id with Some n => bool_decide (status n = s) | None => false end.

Definition dep_satisfied (plan : TaskPlan) (n : PlanNode) (dep : string) : bool :=
  bool_decide (dep ∈ waivedDeps n) || has_status plan dep done.

Definition depsSatisfied (plan : TaskPlan) (n : PlanNode) : bool :=
  forallb (dep_satisfied plan n) (deps n).

(** The body of the loop of [recomputePlanReadiness]. *)
Definition ready_node (plan : TaskPlan) (n : PlanNode) : PlanNode :=
  match status n with
  | pending | ready => with_status n (if depsSatisfied plan n then ready else pending)
  | _ => n
  end.

Definition recomputePlanReadiness (plan : TaskPlan) : TaskPlan :=
  with_nodes plan (jm_update (ready_node plan) (nodes plan)).

(** ** The cycle check

    A depth-first search over mutable sets [visiting] and [settled].  The
    source recurses on the call stack; [fuel] bounds its depth, and [None] is
    an exhausted bound. *)
Record dfs := mkDfs { visiting : gset string; settled : gset string }.

(** [depsOf]. *)
Definition depsOf (plan : TaskPlan) (id : string) (ds : list string) (x : string) : list string :=
  if decide (x = id) then ds
  else match node_at plan x with Some n => deps n | None => [] end.

(** The loop over the dependencies of a node. *)
Fixpoint visit_all (visit : string → dfs → option (bool * dfs)) (l : list string) (st : dfs)
    : option (bool * dfs) :=
  match l with
  | [] => Some (false, st)
  | d :: l' =>
      '(b, st') ← visit d st;
      if b : bool then Some (true, st') else visit_all visit l' st'
  end.

Fixpoint visit (succ : string → list string) (fuel : nat) (x : string) (st : dfs)
    : option (bool * dfs) :=
  match fuel with
  | O => None
  | S fuel =>
      if decide (x ∈ settled st) then Some (false, st)
      else if decide (x ∈ visiting st) then Some (true, st)
      else
        '(b, st') ← visit_all (visit succ fuel) (succ x)
                      (mkDfs ({[x]} ∪ visiting st) (settled st));
        if b : bool then Some (true, st')
        else Some (false, mkDfs (visiting st' ∖ {[x]}) ({[x]} ∪ settled st'))
  end.

(** The depth never exceeds the nodes of the plan, the rewired node and one
    leaf, which is unknown or already visited: [wouldCreateDepCycle_spec]. *)
Definition wouldCreateDepCycle (plan : TaskPlan) (id : string) (ds : list string) : option bool :=
  fst <$> visit (depsOf plan id ds) (size (jm_map (nodes plan)) + 2) id (mkDfs ∅ ∅).

(** ** The machine *)

Lemma assertPlanTransition_ok n to :
  assertPlanTransition n to = Ok () ↔
    isTerminalPlanStatus (status n) = false ∧ status n ≠ to ∧ (to = running → status n = ready).
Proof.
  unfold assertPlanTransition.
  destruct (isTerminalPlanStatus (status n)); [naive_solver|].
  repeat case_decide; naive_solver.
Qed.

Lemma node_at_with_nodes plan m id : node_at (with_nodes plan m) id = jm_get m id.
Proof. done. Qed.

Lemma node_at_recompute plan id :
  node_at (recomputePlanReadiness plan) id = ready_node plan <$> node_at plan id.
Proof. apply jm_get_update. Qed.

Lemma ready_node_done plan n : status (ready_node plan n) = done ↔ status n = done.
Proof. unfold ready_node. destruct (status n) eqn:E; try (by rewrite E); cbn; by case_match. Qed.

Lemma ready_node_terminal plan n :
  isTerminalPlanStatus (status n) = true → ready_node plan n = n.
Proof. unfold ready_node. by destruct (status n). Qed.

Lemma ready_node_fields plan n :
  nodeId (ready_node plan n) = nodeId n ∧ deps (ready_node plan n) = deps n ∧
  waivedDeps (ready_node plan n) = waivedDeps n.
Proof. unfold ready_node. by destruct (status n). Qed.

Lemma has_status_done_recompute plan id :
  has_status (recomputePlanReadiness plan) id done = has_status plan id done.
Proof.
  unfold has_status. rewrite node_at_recompute.
  destruct (node_at plan id) as [n|]; [|done]. cbn.
  apply bool_decide_ext, ready_node_done.
Qed.

Lemma depsSatisfied_ext plan plan' n n' :
  deps n = deps n' → waivedDeps n = waivedDeps n' →
  (∀ d, d ∈ deps n → has_status plan d done = has_status plan' d done) →
  depsSatisfied plan n = depsSatisfied plan' n'.
Proof.
  intros Hd Hw H. unfold depsSatisfied. rewrite <- Hd.
  apply eq_true_iff_eq. rewrite !forallb_forall.
  unfold dep_satisfied. rewrite <- Hw.
  split; intros Hs d Hin; specialize (Hs d Hin);
    apply list_elem_of_In in Hin; by rewrite ?H, <- ?H in * by done.
Qed.

Lemma depsSatisfied_recompute plan n :
  depsSatisfied (recomputePlanReadiness plan) (ready_node plan n) = depsSatisfied plan n.
Proof.
  destruct (ready_node_fields plan n) as (_ & Hd & Hw).
  apply depsSatisfied_ext; [done..|]. intros. apply has_status_done_recompute.
Qed.

(** The derived boundary: a schedulable node is ready exactly when its
    dependencies are satisfied. *)
Definition boundary (plan : TaskPlan) : Prop :=
  ∀ id n, node_at plan id = Some n → status n = pending ∨ status n = ready →
    status n = if depsSatisfied plan n then ready else pending.

Lemma recompute_boundary plan : boundary (recomputePlanReadiness plan).
Proof.
  intros id n'. rewrite node_at_recompute. intros (n & Hn & ->)%fmap_Some Hs.
  rewrite depsSatisfied_recompute. revert Hs. unfold ready_node.
  destruct (status n) eqn:E; cbn; rewrite ?E; naive_solver.
Qed.

Lemma with_status_same n : with_status n (status n) = n.
Proof. by destruct n. Qed.

Lemma ready_node_boundary plan id n :
  boundary plan → node_at plan id = Some n → ready_node plan n = n.
Proof.
  intros Hb Hn. unfold ready_node. specialize (Hb id n Hn).
  destruct (status n) eqn:E; try done; rewrite <- Hb by auto; rewrite <- E; apply with_status_same.
Qed.

Lemma jm_update_id {V} (f : V → V) (m : jsmap string V) :
  (∀ k v, jm_get m k = Some v → f v = v) → jm_update f m = m.
Proof.
  intros Hf. destruct m as [m o]. unfold jm_update; cbn. f_equal.
  apply map_eq. intros k. rewrite lookup_fmap.
  destruct (m !! k) eqn:E; cbn; [|done]. f_equal. by apply (Hf k).
Qed.

Lemma recompute_id plan : boundary plan → recomputePlanReadiness plan = plan.
Proof.
  intros Hb. unfold recomputePlanReadiness, with_nodes.
  rewrite jm_update_id; [by destruct plan|]. intros k v Hv. by eapply ready_node_boundary.
Qed.

Lemma recompute_idempotent plan :
  recomputePlanReadiness (recomputePlanReadiness plan) = recomputePlanReadiness plan.
Proof. apply recompute_id, recompute_boundary. Qed.

(** ** Correctness of the depth-first search *)

(** A set closed under a relation holds what its members reach. *)
Lemma rtc_closed {A} (R : relation A) (P : A → Prop) x y :
  (∀ a b, P a → R a b → P b) → P x → rtc R x y → P y.
Proof. intros Hc Hx Hxy. induction Hxy; eauto. Qed.

Lemma tc_step {A} (R : relation A) x y : tc R x y → ∃ z, R x z ∧ rtc R z y.
Proof. intros [z|z w H H']; eauto using rtc_refl, tc_rtc. Qed.

Lemma tc_last {A} (R : relation A) x y : tc R x y → ∃ z, R z y.
Proof. induction 1; eauto. Qed.

Section Dfs.
Variable succ : string → list string.
Variable U : gset string.
Hypothesis succ_outside : ∀ x, x ∉ U → succ x = [].

Definition edge : relation string := fun x y => y ∈ succ x.

(** A cycle is reachable from [x]. *)
Definition reaches_cycle (x : string) : Prop := ∃ y, rtc edge x y ∧ tc edge y y.

Record dfs_ok (st : dfs) : Prop := {
  settled_closed : ∀ x y, x ∈ settled st → edge x y → y ∈ settled st;
  settled_acyclic : ∀ x, x ∈ settled st → ¬ tc edge x x;
  settled_fresh : settled st ## visiting st;
}.

Record dfs_grown (st st' : dfs) : Prop := {
  grown_ok : dfs_ok st';
  grown_visiting : visiting st' = visiting st;
  grown_settled : settled st ⊆ settled st';
}.

Definition visit_post (xs : list string) (st : dfs) (r : option (bool * dfs)) : Prop :=
  ∃ b st', r = Some (b, st') ∧
    if b : bool then ∃ x, x ∈ xs ∧ reaches_cycle x
    else dfs_grown st st' ∧ ∀ x, x ∈ xs → x ∈ settled st'.

Definition visit_pre (st : dfs) (x : string) : Prop :=
  dfs_ok st ∧ ∀ v, v ∈ visiting st → tc edge v x.

Lemma grown_refl st : dfs_ok st → dfs_grown st st.
Proof. by split. Qed.

Lemma grown_trans st1 st2 st3 : dfs_grown st1 st2 → dfs_grown st2 st3 → dfs_grown st1 st3.
Proof. intros [_ Hv Hs] [Hok Hv' Hs']. split; [done|congruence|set_solver]. Qed.

Lemma visit_all_post (v : string → dfs → option (bool * dfs)) l st :
  dfs_ok st →
  (∀ d st', d ∈ l → dfs_grown st st' → visit_post [d] st' (v d st')) →
  visit_post l st (visit_all v l st).
Proof.
  revert st. induction l as [|d l IH]; intros st Hok Hv; cbn [visit_all].
  { exists false, st. split_and!; [done|by apply grown_refl|set_solver]. }
  destruct (Hv d st ltac:(left) (grown_refl _ Hok)) as (b & st1 & -> & Hb).
  cbn. destruct b.
  { destruct Hb as (x & ->%list_elem_of_singleton & Hx).
    exists true, st1. split; [done|]. exists d. split; [left|done]. }
  destruct Hb as [Hg Hd].
  destruct (IH st1 (grown_ok _ _ Hg)) as (b & st2 & -> & Hb).
  { intros d' st' Hd' Hg'. apply Hv; [by right|]. by eapply grown_trans. }
  exists b, st2. split; [done|]. destruct b.
  - destruct Hb as (x & Hx & Hc). exists x. split; [by right|done].
  - destruct Hb as [Hg' Hl]. split; [by eapply grown_trans|].
    intros x [->|Hx]%elem_of_cons; [|by apply Hl].
    apply (grown_settled _ _ Hg'), Hd. left.
Qed.

(** Entering a node that is neither settled nor being visited. *)
Lemma visit_enter st x :
  visit_pre st x → x ∉ settled st →
  dfs_ok (mkDfs ({[x]} ∪ visiting st) (settled st)).
Proof. intros [[Hc Ha Hf] _] Hx. split; cbn; [done..|set_solver]. Qed.

(** Leaving a node all of whose dependencies settled. *)
Lemma visit_leave st st' x :
  x ∉ visiting st →
  dfs_grown (mkDfs ({[x]} ∪ visiting st) (settled st)) st' →
  (∀ d, edge x d → d ∈ settled st') →
  dfs_grown st (mkDfs (visiting st' ∖ {[x]}) ({[x]} ∪ settled st')).
Proof.
  intros Hx [[Hc Ha Hf] Hv Hs] Hd. cbn in *. rewrite Hv in *.
  assert (x ∉ settled st') as Hxs by set_solver.
  split; cbn; [|set_solver..]. split; cbn.
  - intros y z [->%elem_of_singleton|Hy]%elem_of_union Hz; apply elem_of_union_r; eauto.
  - intros y [->%elem_of_singleton|Hy]%elem_of_union Ht; [|by eapply Ha].
    apply tc_step in Ht as (z & Hz & Hzx). apply Hxs.
    eapply (rtc_closed edge (.∈ settled st')); eauto.
  - set_solver.
Qed.

Lemma visit_post_holds fuel x st :
  visit_pre st x → size (U ∖ visiting st) + 1 ≤ fuel → visit_post [x] st (visit succ fuel x st).
Proof.
  revert x st. induction fuel as [|fuel IH]; intros x st Hpre Hfuel; [lia|].
  cbn [visit]. case_decide as Hs.
  { exists false, st. split_and!; [done|by apply grown_refl, Hpre|set_solver]. }
  case_decide as Hv.
  { exists true, st. split; [done|]. exists x. split; [left|].
    exists x. split; [apply rtc_refl|by apply Hpre]. }
  destruct (visit_all_post (visit succ fuel) (succ x)
              (mkDfs ({[x]} ∪ visiting st) (settled st))) as (b & st' & -> & Hb).
  { by apply visit_enter. }
  { intros d st' Hd Hg. apply IH.
    - split; [apply Hg|]. rewrite (grown_visiting _ _ Hg). cbn.
      intros v [->%elem_of_singleton|Hv']%elem_of_union; [by apply tc_once|].
      eapply tc_r; [by apply Hpre|done].
    - rewrite (grown_visiting _ _ Hg). cbn.
      assert (x ∈ U) as HxU.
      { destruct (decide (x ∈ U)) as [|Hn]; [done|]. rewrite succ_outside in Hd by done. set_solver. }
      assert (size (U ∖ ({[x]} ∪ visiting st)) < size (U ∖ visiting st)).
      { apply subset_size. set_solver. }
      lia. }
  cbn. destruct b.
  - exists true, st'. split; [done|]. exists x. split; [left|].
    destruct Hb as (d & Hd & y & Hdy & Hy). exists y. split; [|done]. by eapply rtc_l.
  - destruct Hb as [Hg Hd]. eexists false, _. split; [done|]. split.
    + by eapply visit_leave.
    + intros y ->%list_elem_of_singleton. cbn. set_solver.
Qed.

Lemma visit_correct fuel x :
  size U + 1 ≤ fuel →
  ∃ b, fst <$> visit succ fuel x (mkDfs ∅ ∅) = Some b ∧ (b = true ↔ reaches_cycle x).
Proof.
  intros Hfuel.
  destruct (visit_post_holds fuel x (mkDfs ∅ ∅)) as (b & st' & -> & Hb).
  { split; [split; set_solver|]. set_solver. }
  { cbn. replace (U ∖ ∅) with U by set_solver. done. }
  exists b. split; [done|]. destruct b.
  - destruct Hb as (y & ->%list_elem_of_singleton & Hy). done.
  - destruct Hb as [[[Hc Ha _] _ _] Hs]. split; [done|]. intros (y & Hxy & Hy).
    exfalso. eapply Ha; [|exact Hy]. eapply (rtc_closed edge (.∈ settled st')); eauto.
    apply Hs. left.
Qed.
End Dfs.

(** ** The dependency graph *)

Definition acyclic (succ : string → list string) : Prop := ∀ x, ¬ tc (edge succ) x x.

(** [plan.nodes[x]?.deps ?? []]. *)
Definition deps_at (plan : TaskPlan) (x : string) : list string :=
  match node_at plan x with Some n => deps n | None => [] end.

Definition acyclic_plan (plan : TaskPlan) : Prop := acyclic (deps_at plan).

Lemma tc_mono {A} (R R' : relation A) x y : (∀ a b, R a b → R' a b) → tc R x y → tc R' x y.
Proof. intros H Ht. induction Ht; [apply tc_once|eapply tc_l]; eauto. Qed.

Lemma acyclic_mono s s' : (∀ x y, y ∈ s x → y ∈ s' x) → acyclic s' → acyclic s.
Proof. intros Hs Ha x Ht. apply (Ha x). revert Ht. by apply tc_mono. Qed.

(** A graph whose edges lower a rank is acyclic. *)
Lemma acyclic_rank s (rank : string → nat) :
  (∀ x y, y ∈ s x → rank y < rank x) → acyclic s.
Proof.
  intros Hr x Hx. assert (∀ a b, tc (edge s) a b → rank b < rank a) as Ht.
  { intros a b Hab. induction Hab as [a b H|a c b H _ IH]; [by apply Hr|].
    apply Hr in H. lia. }
  apply Ht in Hx. lia.
Qed.

(** Where two graphs agree outside [id], a path of one is a path of the other
    or passes through [id]. *)
Lemma tc_detour s s' id x y :
  (∀ z, z ≠ id → s' z = s z) →
  tc (edge s') x y → tc (edge s) x y ∨ (rtc (edge s') x id ∧ tc (edge s') id y).
Proof.
  intros Hs Ht. induction Ht as [x y Hxy|x z y Hxz Hzy IH].
  - destruct (decide (x = id)) as [->|Hne].
    + right. split; [apply rtc_refl|by apply tc_once].
    + left. apply tc_once. unfold edge in *. by rewrite <- Hs.
  - destruct (decide (x = id)) as [->|Hne].
    { right. split; [apply rtc_refl|by eapply tc_l]. }
    destruct IH as [IH|[H1 H2]].
    + left. eapply tc_l; [|done]. unfold edge in *. by rewrite <- Hs.
    + right. split; [by eapply rtc_l|done].
Qed.

Lemma acyclic_replace s s' id :
  (∀ z, z ≠ id → s' z = s z) → acyclic s → ¬ reaches_cycle s' id → acyclic s'.
Proof.
  intros Hs Ha Hid x Hx.
  destruct (tc_detour s s' id x x Hs Hx) as [H|[H1 H2]]; [by eapply Ha|].
  apply Hid. exists id. split; [apply rtc_refl|]. by eapply tc_rtc_r.
Qed.

(** The identifiers of the nodes. *)
Definition plan_dom (plan : TaskPlan) : gset string := dom (jm_map (nodes plan)).

Lemma elem_of_plan_dom plan x : x ∈ plan_dom plan ↔ is_Some (node_at plan x).
Proof. apply elem_of_dom. Qed.

Lemma plan_dom_size plan : size (plan_dom plan) = size (jm_map (nodes plan)).
Proof. apply size_dom. Qed.

Lemma wouldCreateDepCycle_correct plan id ds :
  ∃ b, wouldCreateDepCycle plan id ds = Some b ∧
    (b = true ↔ reaches_cycle (depsOf plan id ds) id).
Proof.
  apply visit_correct with ({[id]} ∪ plan_dom plan).
  - intros x Hx. unfold depsOf. rewrite decide_False by set_solver.
    destruct (node_at plan x) eqn:E; [|done]. exfalso. apply Hx, elem_of_union_r.
    apply elem_of_plan_dom. by eexists.
  - assert (size ({[id]} ∪ plan_dom plan) <= 1 + size (jm_map (nodes plan))).
    { rewrite size_union_alt, size_singleton, <- plan_dom_size.
      apply Nat.add_le_mono_l, subseteq_size. set_solver. }
    lia.
Qed.

Lemma rewired_acyclic plan id ds :
  acyclic_plan plan → wouldCreateDepCycle plan id ds = Some false → acyclic (depsOf plan id ds).
Proof.
  intros Ha Hw. destruct (wouldCreateDepCycle_correct plan id ds) as (b & Hb & Hiff).
  apply (acyclic_replace (deps_at plan) _ id); [|done|].
  - intros z Hz. unfold depsOf. by rewrite decide_False.
  - rewrite Hw in Hb. injection Hb as <-. intros Hc. by apply Hiff in Hc.
Qed.

(** From every member of a finite set, an acyclic relation leads to a member
    none of whose successors is in the set. *)
Lemma acyclic_minimal s (X : gset string) x :
  acyclic s → x ∈ X →
  ∃ m, m ∈ X ∧ rtc (edge s) x m ∧ ∀ d, d ∈ s m → d ∉ X.
Proof.
  intros Ha. remember (size X) as k eqn:Hk.
  revert X x Hk. induction k as [k IH] using lt_wf_ind. intros X x -> Hx.
  destruct (decide (Exists (.∈ X) (s x))) as [He|Hn].
  - apply Exists_exists in He as (y & Hy & HyX).
    assert (y ≠ x) as Hne.
    { intros ->. apply (Ha x). by apply tc_once. }
    assert (size (X ∖ {[x]}) < size X) as Hlt.
    { clear -Hx. apply subset_size. set_solver. }
    destruct (IH _ Hlt (X ∖ {[x]}) y eq_refl) as (m & Hm & Hr & Hd).
    { clear -HyX Hne. set_solver. }
    exists m. split; [clear -Hm; set_solver|]. split; [by eapply rtc_l|].
    intros d Hdm HdX. destruct (decide (d = x)) as [->|]; [|apply (Hd d Hdm); set_solver].
    apply (Ha x). eapply tc_rtc_l; [|by apply tc_once].
    by eapply rtc_l.
  - exists x. split; [done|]. split; [apply rtc_refl|].
    intros d Hd HdX. apply Hn, Exists_exists. by eexists.
Qed.

Lemma deps_at_recompute plan x : deps_at (recomputePlanReadiness plan) x = deps_at plan x.
Proof.
  unfold deps_at. rewrite node_at_recompute. destruct (node_at plan x) as [n|]; [|done].
  apply ready_node_fields.
Qed.

Lemma acyclic_recompute plan : acyclic_plan (recomputePlanReadiness plan) ↔ acyclic_plan plan.
Proof.
  unfold acyclic_plan. split; apply acyclic_mono; intros x y; by rewrite deps_at_recompute.
Qed.

Lemma has_status_spec plan id s :
  has_status plan id s = true ↔ ∃ u, node_at plan id = Some u ∧ status u = s.
Proof.
  unfold has_status. destruct (node_at plan id); [|naive_solver].
  rewrite bool_decide_eq_true. naive_solver.
Qed.

Lemma depsSatisfied_spec plan n :
  depsSatisfied plan n = true ↔
    ∀ d, d ∈ deps n → d ∈ waivedDeps n ∨ ∃ u, node_at plan d = Some u ∧ status u = done.
Proof.
  unfold depsSatisfied. rewrite forallb_forall. unfold dep_satisfied.
  setoid_rewrite orb_true_iff. setoid_rewrite bool_decide_eq_true.
  setoid_rewrite has_status_spec. by setoid_rewrite list_elem_of_In.
Qed.

(** A two-node plan for the witnesses. *)
Definition example_node (id : string) (s : PlanNodeStatus) (ds ws : list string) : PlanNode :=
  mkPlanNode id id s ds ws false false (JNum 0) "h" None None.

Definition example_plan : TaskPlan :=
  mkTaskPlan
    (jm_set (jm_set jm_empty "A" (example_node "A" done [] []))
       "B" (example_node "B" pending ["A"; "Z"] ["Z"])) 0 0.

(** ** The claims on plans *)

(** The cycle check of [rewire_deps] returns for every plan, also one that
    already has a cycle or names unknown nodes, and it answers [true] exactly
    when the rewired graph has a cycle reachable from the node. *)
Theorem wouldCreateDepCycle_spec plan id ds :
  ∃ b, wouldCreateDepCycle plan id ds = Some b ∧
    (b = true ↔ ∃ y, rtc (fun a d => d ∈ depsOf plan id ds a) id y ∧
                     tc (fun a d => d ∈ depsOf plan id ds a) y y).
Proof. apply wouldCreateDepCycle_correct. Qed.

(** Recomputing readiness makes a schedulable node ready exactly when each
    of its dependencies is waived or done, changes no other status and no other
    field, and is idempotent. *)
Theorem recomputePlanReadiness_spec plan id n :
  node_at plan id = Some n →
  ∃ n', node_at (recomputePlanReadiness plan) id = Some n' ∧
    n' = with_status n (status n') ∧
    (status n ≠ pending → status n ≠ ready → status n' = status n) ∧
    (status n = pending ∨ status n = ready →
       (status n' = pending ∨ status n' = ready) ∧
       (status n' = ready ↔
          ∀ d, d ∈ deps n → d ∈ waivedDeps n ∨ ∃ u, node_at plan d = Some u ∧ status u = done)) ∧
    recomputePlanReadiness (recomputePlanReadiness plan) = recomputePlanReadiness plan.
Proof.
  intros Hn. exists (ready_node plan n). rewrite node_at_recompute, Hn.
  split_and!; [done|..|apply recompute_idempotent].
  - unfold ready_node. destruct (status n); cbn; try done; by rewrite with_status_same.
  - unfold ready_node. by destruct (status n) eqn:E; rewrite ?E.
  - intros Hs. rewrite <- depsSatisfied_spec. unfold ready_node.
    destruct (status n) eqn:E; destruct (depsSatisfied plan n); cbn; rewrite ?E; naive_solver.
Qed.

Lemma recomputePlanReadiness_spec_witness :
  ∃ n', node_at (recomputePlanReadiness example_plan) "B" = Some n' ∧ status n' = ready.
Proof.
  destruct (recomputePlanReadiness_spec example_plan "B" (example_node "B" pending ["A"; "Z"] ["Z"])
              eq_refl) as (n' & Hn' & _ & _ & Hr & _).
  exists n'. split; [exact Hn'|]. destruct Hr as [_ [_ Hr]]; [by left|]. apply Hr.
  intros d [->|[->|[]%not_elem_of_nil]%elem_of_cons]%elem_of_cons.
  - right. exists (example_node "A" done [] []). by split.
  - left. vm_compute. left.
Defined.
