(* ===== verification/PlanEntries.v ===== *)
(** * The plan fold (packages/plan/src/plan-entries.ts, plan-hash.ts, task-spec.ts)

    The payloads of plan.revision and plan.decision entries, the canonical hash
    of a plan, and the single applier: the fold of the recorded outcomes, which
    checks the hash an entry carries before and after it.

    The payload of an entry is typed data the source reads by a cast; an entry
    here carries the payload, or [None] where the readers find none.  A
    [TaskSpec] is the record of its members.  Fields the plan never reads
    (usage limits, notes, the embedded admissions beyond their verdict and its
    task) are part of that record or left out. *)
From S2P Require Import Prelude Json JsMap Identity PlanState.

(** ** Operations and outcomes *)

Abbreviation TaskSpec := record.
Abbreviation TaskSpecPatch := (list (string * option json)).

(** The members of an [add_task]; [at_lineage] is [lineage?.continues]. *)
Record AddTask := mkAddTask {
  at_spec : TaskSpec;
  at_deps : option (list string);
  at_priority : option json;
  at_lineage : option string;
  at_approach : option string;
  at_fresh : option bool;
}.

Inductive PlanOp :=
  | add_task (t : AddTask)
  | amend_task (id : string) (patch : TaskSpecPatch)
  | park_task (id : string)
  | unpark_task (id : string)
  | cancel_task (id : string) (reason : option string)
  | reprioritize (id : string) (p : json)
  | rewire_deps (id : string) (ds : list string)
  | waive_dep (id dep : string).

(** The applied forms.  A flag that is absent is [false], and an absent cascade
    is empty. *)
Inductive AppliedPlanOp :=
  | applied_add (id : string) (t : AddTask)
  | applied_amend (id : string) (patch : TaskSpecPatch)
  | applied_park (id : string) (requestOnly : bool)
  | applied_unpark (id : string) (restart : bool)
  | applied_cancel (id : string) (reason : option string) (requestOnly : bool)
      (cascade : list string)
  | applied_reprioritize (id : string) (p : json)
  | applied_rewire (id : string) (ds : list string)
  | applied_waive (id dep : string).

Inductive RebaseReasonCode :=
  | admission_denied | node_already_done | dep_already_resolved | node_escalated | node_running
  | terminal_status | dep_cycle | already_parked | not_parked | no_such_dep | already_waived
  | bad_base | lineage_exhausted | lineage_busy | plan_frozen
  | checkpoint_discarded | reuse_by_reference | resolved_escalation | immediate_satisfaction.

#[global] Instance RebaseReasonCode_eq_dec : EqDecision RebaseReasonCode.
Proof. solve_decision. Defined.

Inductive RebaseOutcome :=
  | applied (op : AppliedPlanOp)
  | transformed (requested : PlanOp) (op : AppliedPlanOp) (reason : RebaseReasonCode)
  | dropped (requested : PlanOp) (reason : RebaseReasonCode) (blockingRef : option N).

Record PlanSnapshotRef := mkSnapshotRef { digestSeq : N; ref_planHash : string }.

(** The verdict of an admission decision: a rejection with its code, or one of
    the grants ([admit], [admit_graft], [reuse_full]) with the logical task of
    its lineage. *)
Inductive AdmissionVerdict :=
  | reject (code : string)
  | grant (kind : string) (ltid : string).

(** [PlanRevisionAdmission]. *)
Record PlanRevisionAdmission := mkAdmission {
  opIndex : nat;
  ad_nodeId : option string;
  verdict : AdmissionVerdict;
}.

Record PlanRevisionValue := mkRevisionValue {
  base : PlanSnapshotRef;
  requestedOps : list PlanOp;
  outcomes : list RebaseOutcome;
  admissions : list PlanRevisionAdmission;
  rv_hashBefore : string;
  rv_hashAfter : string;
}.

Inductive EscalationDecision :=
  | retry (amendedPrompt : option string) (startTier : option Z)
  | decompose (children : list TaskSpec)
  | cancel (reason : option string)
  | accept (note : option string).

Inductive EnginePlanOp :=
  | set_node_status (id : string) (from to : PlanNodeStatus) (causeRef : N) (ckpt : option N)
  | resolve_escalation (id : string) (decision : EscalationDecision) (ref : N)
  | spawn_admitted (children : list (string * string * TaskSpec)).

Record PlanDecisionValue := mkDecisionValue {
  origin : string;
  dv_ops : list EnginePlanOp;
  dv_hashBefore : string;
  dv_hashAfter : string;
}.

Inductive PlanPayload :=
  | plan_revision (value : option PlanRevisionValue)
  | plan_decision (value : option PlanDecisionValue)
  | other_kind.

Record PlanEntry := mkPlanEntry {
  pe_seq : N;
  pe_hashVersion : N;
  pe_payload : PlanPayload;
}.

(** ** Sorting *)

(** [l.sort()] and [sort] by a key: a stable insertion sort on code units. *)
Fixpoint insert_by {A} (key : A → string) (x : A) (l : list A) : list A :=
  match l with
  | [] => [x]
  | y :: l' => if String.leb (key x) (key y) then x :: l else y :: insert_by key x l'
  end.

Definition sort_by {A} (key : A → string) (l : list A) : list A := foldr (insert_by key) [] l.

Definition sort_strings : list string → list string := sort_by id.

(** ** Specs and hashes *)

Definition opt_ref (k : string) (v : option N) : record :=
  match v with Some n => [(k, JNum (Z.of_N n))] | None => [] end.

Definition strings_json (l : list string) : json := JArr (map JStr l).

Definition canonicalNode (n : PlanNode) : record :=
  [("nodeId", JStr (nodeId n)); ("logicalTaskId", JStr (logicalTaskId n));
   ("status", JStr (status_text (status n)));
   ("deps", strings_json (sort_strings (deps n)));
   ("waivedDeps", strings_json (waivedDeps n));
   ("parkRequested", JBool (parkRequested n)); ("cancelRequested", JBool (cancelRequested n));
   ("priority", priority n); ("promptSpecHash", JStr (promptSpecHash n))]
  ++ opt_ref "checkpointRef" (checkpointRef n) ++ opt_ref "escalationRef" (escalationRef n).

Definition canonicalPlanState (plan : TaskPlan) : record :=
  [("nodes", JArr (map (fun n => JObj (canonicalNode n))
                     (sort_by nodeId (jm_values (nodes plan)))));
   ("revisionCount", JNum (revisionCount plan));
   ("droppedRevisionStreak", JNum (droppedRevisionStreak plan))].

Definition planHash (deriver : KeyDeriver) (plan : TaskPlan) : string :=
  d_deriveKey deriver (canonicalPlanState plan).

(** [merged[key] = value]: a present member keeps its place. *)
Definition put_prop (r : record) (key : string) (v : json) : record :=
  match prop r key with
  | Some _ => set_prop r key v
  | None => r ++ [(key, v)]
  end.

Definition applyTaskSpecPatch (spec : TaskSpec) (patch : TaskSpecPatch) : TaskSpec :=
  foldl (fun merged '(key, value) =>
           match value with Some v => put_prop merged key v | None => merged end) spec patch.

(** ** The working state *)

Record PlanWorking := mkWorking {
  w_plan : TaskPlan;
  w_specs : gmap string TaskSpec;
}.

Record PlanFoldState := mkFold {
  f_plan : TaskPlan;
  f_specs : gmap string TaskSpec;
  badBaseStreak : Z;
  doneRefs : gmap string N;
}.

Definition emptyPlanFold (plan : TaskPlan) : PlanFoldState := mkFold plan ∅ 0 ∅.

Definition working_of (s : PlanFoldState) : PlanWorking := mkWorking (f_plan s) (f_specs s).

Definition effectiveDroppedStreak (s : PlanFoldState) : Z :=
  (droppedRevisionStreak (f_plan s) + badBaseStreak s)%Z.

Definition nodeOf (plan : TaskPlan) (id : string) : result PlanError PlanNode :=
  match node_at plan id with Some n => Ok n | None => Err (UnknownNode id) end.

(** [withNode], without and with a spec. *)
Definition put_node (plan : TaskPlan) (n : PlanNode) : TaskPlan :=
  with_nodes plan (jm_set (nodes plan) (nodeId n) n).

Definition withNode (w : PlanWorking) (n : PlanNode) (spec : option TaskSpec) : PlanWorking :=
  mkWorking (put_node (w_plan w) n)
    (match spec with Some s => <[nodeId n := s]> (w_specs w) | None => w_specs w end).

(** [lineageOfAdmission]. *)
Definition lineageOfAdmission (l : list PlanRevisionAdmission) (i : nat) : option string :=
  a ← find_first (fun a => bool_decide (opIndex a = i)) l;
  match verdict a with reject _ => None | grant _ ltid => Some ltid end.

(** The loop of [cancel_task] over the recorded cascade. *)
Fixpoint skip_cascade (w : PlanWorking) (l : list string) : result PlanError PlanWorking :=
  match l with
  | [] => Ok w
  | id :: l' =>
      member ← nodeOf (w_plan w) id;
      skip_cascade
        (if isTerminalPlanStatus (status member) then w
         else withNode w (with_status member skipped) None) l'
  end.

(** A node as [add_task] and [spawn_admitted] create it. *)
Definition new_node (id ltid : string) (ds : list string) (p : json) (specHash : string)
    : PlanNode :=
  mkPlanNode id ltid pending ds [] false false p specHash None None.

Definition resolveEscalatedNode (n : PlanNode) (decision : EscalationDecision) (ref : N)
    : PlanNode :=
  let resolved := with_escalation n (Some ref) in
  match decision with
  | retry _ _ => with_status resolved pending
  | cancel _ => with_status resolved cancelled
  | accept _ => with_status resolved done
  | decompose _ => resolved
  end.

(** The flags and the checkpoint a status transition writes. *)
Definition land_status (n : PlanNode) (to : PlanNodeStatus) (ckpt : option N) : PlanNode :=
  let next := with_status n to in
  let next := if isTerminalPlanStatus to then with_requests next false false else next in
  if decide (to = parked) then
    let next := with_requests next false (cancelRequested next) in
    match ckpt with Some _ => with_checkpoint next ckpt | None => next end
  else next.

Section PlanFold.
Variable stringify_frac : Z → positive → string.
Variable sha256 : string → string.

Abbreviation current := (deriverV2 stringify_frac sha256).

Definition promptSpecHashOf (spec : TaskSpec) : string :=
  d_deriveKey current [("kind", JStr "plan.task-spec"); ("spec", JObj spec)].

Definition applyAppliedOp (w : PlanWorking) (op : AppliedPlanOp) (lineage : option string)
    : result PlanError PlanWorking :=
  match op with
  | applied_add id t =>
      let ltid := default (default id (at_lineage t)) lineage in
      Ok (withNode w (new_node id ltid (default [] (at_deps t)) (default (JNum 0) (at_priority t))
                        (promptSpecHashOf (at_spec t))) (Some (at_spec t)))
  | applied_amend id patch =>
      node ← nodeOf (w_plan w) id;
      match w_specs w !! id with
      | None => Err (UnknownSpec id)
      | Some current_spec =>
          let amendedSpec := applyTaskSpecPatch current_spec patch in
          let amended := with_specHash node (promptSpecHashOf amendedSpec) in
          Ok (withNode w
                (if decide (status node = parked) then with_checkpoint amended None else amended)
                (Some amendedSpec))
      end
  | applied_park id requestOnly =>
      node ← nodeOf (w_plan w) id;
      if requestOnly then Ok (withNode w (with_requests node true (cancelRequested node)) None)
      else
        _ ← assertPlanTransition node parked;
        Ok (withNode w (with_status node parked) None)
  | applied_unpark id restart =>
      node ← nodeOf (w_plan w) id;
      let next := with_status node pending in
      Ok (withNode w (if restart then with_checkpoint next None else next) None)
  | applied_cancel id _ requestOnly cascade =>
      node ← nodeOf (w_plan w) id;
      if requestOnly then Ok (withNode w (with_requests node (parkRequested node) true) None)
      else
        _ ← assertPlanTransition node cancelled;
        skip_cascade (withNode w (with_status node cancelled) None) cascade
  | applied_reprioritize id p =>
      node ← nodeOf (w_plan w) id;
      Ok (withNode w (with_priority node p) None)
  | applied_rewire id ds =>
      node ← nodeOf (w_plan w) id;
      Ok (withNode w (with_edges node ds (List.filter (fun d => bool_decide (d ∈ ds)) (waivedDeps node)))
            None)
  | applied_waive id dep =>
      node ← nodeOf (w_plan w) id;
      Ok (withNode w (with_edges node (deps node) (waivedDeps node ++ [dep])) None)
  end.

(** ** Decisions *)

Definition spawn_child (w : PlanWorking) (child : string * string * TaskSpec) : PlanWorking :=
  let '(id, ltid, spec) := child in
  withNode w (new_node id ltid [] (JNum 0) (promptSpecHashOf spec)) (Some spec).

(** The body of the loop of [applyDecisionOps]. *)
Definition applyEngineOp (w : PlanWorking) (refs : gmap string N) (op : EnginePlanOp)
    : result PlanError (PlanWorking * gmap string N) :=
  match op with
  | set_node_status id from to causeRef ckpt =>
      node ← nodeOf (w_plan w) id;
      if decide (status node = from) then
        _ ← assertPlanTransition node to;
        Ok (withNode w (land_status node to ckpt) None,
            if decide (to = done) then <[id := causeRef]> refs else refs)
      else Err (RecordedFromDiffers id from (status node))
  | resolve_escalation id decision ref =>
      node ← nodeOf (w_plan w) id;
      Ok (withNode w (resolveEscalatedNode node decision ref) None,
          match decision with accept _ => <[id := ref]> refs | _ => refs end)
  | spawn_admitted children => Ok (foldl spawn_child w children, refs)
  end.

Fixpoint apply_engine_ops (w : PlanWorking) (refs : gmap string N) (ops : list EnginePlanOp)
    : result PlanError (PlanWorking * gmap string N) :=
  match ops with
  | [] => Ok (w, refs)
  | op :: ops' =>
      '(w', refs') ← applyEngineOp w refs op;
      apply_engine_ops w' refs' ops'
  end.

(** The preview the producer computes and the fold repeats. *)
Definition applyDecisionOps (s : PlanFoldState) (ops : list EnginePlanOp)
    : result PlanError (TaskPlan * gmap string TaskSpec * gmap string N) :=
  '(w, refs) ← apply_engine_ops (working_of s) (doneRefs s) ops;
  Ok (recomputePlanReadiness (w_plan w), w_specs w, refs).

(** ** The single applier *)

Definition is_dropped (o : RebaseOutcome) : bool :=
  match o with dropped _ _ _ => true | _ => false end.

Definition is_bad_base (o : RebaseOutcome) : bool :=
  match o with dropped _ bad_base _ => true | _ => false end.

Definition applied_of (o : RebaseOutcome) : option AppliedPlanOp :=
  match o with
  | applied op | transformed _ op _ => Some op
  | dropped _ _ _ => None
  end.

(** [outcomes.length > 0 && outcomes.every(...)]. *)
Definition all_bad_base (l : list RebaseOutcome) : bool :=
  match l with [] => false | _ => forallb is_bad_base l end.

(** The loop over the outcomes, from index [i]. *)
Fixpoint apply_outcomes (ads : list PlanRevisionAdmission) (i : nat) (w : PlanWorking)
    (l : list RebaseOutcome) : result PlanError PlanWorking :=
  match l with
  | [] => Ok w
  | o :: l' =>
      w' ← match applied_of o with
           | None => Ok w
           | Some op => applyAppliedOp w op (lineageOfAdmission ads i)
           end;
      apply_outcomes ads (S i) w' l'
  end.

(** The counters and the readiness of a revision that was not a bad base. *)
Definition close_revision (plan : TaskPlan) (droppedAll : bool) : TaskPlan :=
  recomputePlanReadiness
    (mkTaskPlan (nodes plan) (revisionCount plan + 1)
       (if droppedAll then droppedRevisionStreak plan + 1 else 0)).

Variable deriverFor : N → option KeyDeriver.

Definition entry_deriver (e : PlanEntry) : KeyDeriver := default current (deriverFor (pe_hashVersion e)).

Definition verifyHash (e : PlanEntry) (after : bool) (expected : string) (plan : TaskPlan)
    : result PlanError unit :=
  let actual := planHash (entry_deriver e) plan in
  if decide (actual = expected) then Ok () else Err (PlanHashMismatch after actual expected).

Definition apply_revision (s : PlanFoldState) (e : PlanEntry) (value : PlanRevisionValue)
    : result PlanError PlanFoldState :=
  _ ← verifyHash e false (rv_hashBefore value) (f_plan s);
  if all_bad_base (outcomes value) then
    _ ← verifyHash e true (rv_hashAfter value) (f_plan s);
    Ok (mkFold (f_plan s) (f_specs s) (badBaseStreak s + 1) (doneRefs s))
  else
    w ← apply_outcomes (admissions value) 0 (working_of s) (outcomes value);
    let plan := close_revision (w_plan w) (forallb is_dropped (outcomes value)) in
    _ ← verifyHash e true (rv_hashAfter value) plan;
    Ok (mkFold plan (w_specs w) 0 (doneRefs s)).

Definition apply_decision (s : PlanFoldState) (e : PlanEntry) (value : PlanDecisionValue)
    : result PlanError PlanFoldState :=
  _ ← verifyHash e false (dv_hashBefore value) (f_plan s);
  '(plan, specs, refs) ← applyDecisionOps s (dv_ops value);
  _ ← verifyHash e true (dv_hashAfter value) plan;
  Ok (mkFold plan specs (badBaseStreak s) refs).

Definition applyPlanEntry (s : PlanFoldState) (e : PlanEntry) : result PlanError PlanFoldState :=
  match pe_payload e with
  | plan_revision None | plan_decision None => Err MalformedPayload
  | plan_revision (Some value) => apply_revision s e value
  | plan_decision (Some value) => apply_decision s e value
  | other_kind => Ok s
  end.

(** The fold of a journal's plan scope. *)
Fixpoint foldPlan (s : PlanFoldState) (l : list PlanEntry) : result PlanError PlanFoldState :=
  match l with
  | [] => Ok s
  | e :: l' => s' ← applyPlanEntry s e; foldPlan s' l'
  end.

(** [assertPlanHead]. *)
Definition assertPlanHead (plan : TaskPlan) (expected : string) : result PlanError unit :=
  if decide (planHash current plan = expected) then Ok ()
  else Err (PlanHashMismatch false (planHash current plan) expected).
End PlanFold.

(** ** Writes of nodes *)

Lemma node_at_put plan n id :
  node_at (put_node plan n) id = if decide (nodeId n = id) then Some n else node_at plan id.
Proof. apply jm_get_set. Qed.

Lemma node_at_put_eq plan n : node_at (put_node plan n) (nodeId n) = Some n.
Proof. rewrite node_at_put. by case_decide. Qed.

Lemma node_at_put_ne plan n id : nodeId n ≠ id → node_at (put_node plan n) id = node_at plan id.
Proof. intros. rewrite node_at_put. by case_decide. Qed.

Lemma w_plan_withNode w n spec : w_plan (withNode w n spec) = put_node (w_plan w) n.
Proof. done. Qed.

Lemma nodeOf_ok plan id n : nodeOf plan id = Ok n ↔ node_at plan id = Some n.
Proof. unfold nodeOf. destruct (node_at plan id); naive_solver. Qed.

Lemma nodeOf_some plan id n : node_at plan id = Some n → nodeOf plan id = Ok n.
Proof. apply nodeOf_ok. Qed.

Lemma land_status_fields n to ckpt :
  nodeId (land_status n to ckpt) = nodeId n ∧ status (land_status n to ckpt) = to ∧
  deps (land_status n to ckpt) = deps n ∧ waivedDeps (land_status n to ckpt) = waivedDeps n ∧
  promptSpecHash (land_status n to ckpt) = promptSpecHash n.
Proof. unfold land_status. by destruct to, ckpt; cbn. Qed.

Lemma resolve_fields n d ref :
  nodeId (resolveEscalatedNode n d ref) = nodeId n ∧
  deps (resolveEscalatedNode n d ref) = deps n ∧
  waivedDeps (resolveEscalatedNode n d ref) = waivedDeps n ∧
  promptSpecHash (resolveEscalatedNode n d ref) = promptSpecHash n.
Proof. by destruct d. Qed.

Section Invariant.
Variable stringify_frac : Z → positive → string.
Variable sha256 : string → string.
Abbreviation specHash := (promptSpecHashOf stringify_frac sha256).
Abbreviation apply_op := (applyAppliedOp stringify_frac sha256).
Abbreviation engine_op := (applyEngineOp stringify_frac sha256).

(** Every node is filed under its own identifier and carries the digest of its
    resolved spec. *)
Record working_wf (w : PlanWorking) : Prop := {
  wf_nodes : jm_wf (nodes (w_plan w));
  wf_key : ∀ id n, node_at (w_plan w) id = Some n → nodeId n = id;
  wf_spec : ∀ id n, node_at (w_plan w) id = Some n →
    ∃ s, w_specs w !! id = Some s ∧ promptSpecHash n = specHash s;
}.

Definition write_ok (w : PlanWorking) (n : PlanNode) (spec : option TaskSpec) : Prop :=
  match spec with
  | Some s => promptSpecHash n = specHash s
  | None => ∃ m, node_at (w_plan w) (nodeId n) = Some m ∧ promptSpecHash n = promptSpecHash m
  end.

Lemma withNode_wf w n spec : working_wf w → write_ok w n spec → working_wf (withNode w n spec).
Proof.
  intros [Hj Hk Hs] Hn. split.
  - cbn. by apply jm_wf_set.
  - intros id n'. rewrite w_plan_withNode, node_at_put. case_decide; [by intros [= <-]|apply Hk].
  - intros id n'. rewrite w_plan_withNode, node_at_put. case_decide as Hid.
    + intros [= <-]. subst id. destruct spec as [s|]; cbn in *.
      * exists s. by rewrite lookup_insert_eq.
      * destruct Hn as (m & Hm & ->). by apply Hs.
    + intros Hn'. destruct (Hs id n' Hn') as (s & H1 & H2). exists s. split; [|done].
      destruct spec; cbn; [by rewrite lookup_insert_ne|done].
Qed.

(** An update that keeps the identifier and the digest. *)
Lemma withNode_wf_update w id m n :
  working_wf w → node_at (w_plan w) id = Some m →
  nodeId n = nodeId m → promptSpecHash n = promptSpecHash m → working_wf (withNode w n None).
Proof.
  intros Hw Hm Hi Hp. apply withNode_wf; [done|]. exists m.
  by rewrite Hi, (wf_key w Hw id m Hm).
Qed.

Hint Extern 1 (working_wf (withNode _ _ None)) =>
  (eapply withNode_wf_update; [eassumption|eassumption|done|done]) : rulvar.

Lemma skip_cascade_wf l w w' : working_wf w → skip_cascade w l = Ok w' → working_wf w'.
Proof.
  revert w. induction l as [|id l IH]; intros w Hw; cbn; [by intros [= <-]|].
  intros (m & Hm%nodeOf_ok & H)%bind_ok. apply (IH _) in H; [done|].
  case_match; [done|]. by eauto with rulvar.
Qed.

Lemma apply_op_wf w op lin w' : working_wf w → apply_op w op lin = Ok w' → working_wf w'.
Proof.
  intros Hw. destruct op; cbn [applyAppliedOp].
  { intros [= <-]. by apply withNode_wf. }
  all: intros (m & Hm%nodeOf_ok & H)%bind_ok.
  - destruct (w_specs w !! id) as [s|]; simplify_eq.
    apply withNode_wf; [done|]. by case_decide.
  - case_match; inv_ok; eauto with rulvar.
  - case_match; simplify_eq; eauto with rulvar.
  - case_match; [simplify_eq; eauto with rulvar|].
    apply bind_ok in H as (? & ? & H). eapply skip_cascade_wf; [|exact H]. eauto with rulvar.
  - simplify_eq; eauto with rulvar.
  - simplify_eq; eauto with rulvar.
  - simplify_eq; eauto with rulvar.
Qed.

Lemma spawn_children_wf l w :
  working_wf w → working_wf (foldl (spawn_child stringify_frac sha256) w l).
Proof.
  revert w. induction l as [|[[id ltid] s] l IH]; intros w Hw; [done|].
  cbn. apply IH. by apply withNode_wf.
Qed.

Lemma engine_op_wf w refs op w' refs' :
  working_wf w → engine_op w refs op = Ok (w', refs') → working_wf w'.
Proof.
  intros Hw. destruct op; cbn [applyEngineOp].
  - intros (m & Hm%nodeOf_ok & H)%bind_ok. case_decide; [|done]. inv_ok.
    eapply withNode_wf_update; [done..| |]; apply land_status_fields.
  - intros (m & Hm%nodeOf_ok & H)%bind_ok. simplify_eq.
    eapply withNode_wf_update; [done..| |]; apply resolve_fields.
  - intros [= <- <-]. by apply spawn_children_wf.
Qed.

(** ** Done nodes and the entries that resolved them *)

Definition refs_ok (w : PlanWorking) (refs : gmap string N) : Prop :=
  ∀ id n, node_at (w_plan w) id = Some n → status n = done → is_Some (refs !! id).

Lemma withNode_refs w n spec refs :
  refs_ok w refs → (status n = done → is_Some (refs !! nodeId n)) → refs_ok (withNode w n spec) refs.
Proof.
  intros Hr Hn id n'. rewrite w_plan_withNode, node_at_put.
  case_decide as Hid; [by intros [= <-]; subst|]. apply Hr.
Qed.

(** An update that does not enter [done]. *)
Lemma withNode_refs_update w id m n spec refs :
  working_wf w → refs_ok w refs → node_at (w_plan w) id = Some m →
  nodeId n = nodeId m → (status n = done → status m = done) → refs_ok (withNode w n spec) refs.
Proof.
  intros Hw Hr Hm Hi Hs. apply withNode_refs; [done|]. rewrite Hi, (wf_key w Hw id m Hm). eauto.
Qed.

Hint Extern 1 (refs_ok (withNode _ _ _) _) =>
  (eapply withNode_refs_update; [eassumption|eassumption|eassumption|done|done]) : rulvar.

Lemma skip_cascade_refs l w w' refs :
  working_wf w → refs_ok w refs → skip_cascade w l = Ok w' → refs_ok w' refs.
Proof.
  revert w. induction l as [|id l IH]; intros w Hw Hr; cbn; [by intros [= <-]|].
  intros (m & Hm%nodeOf_ok & H)%bind_ok.
  apply (IH _) in H; [done|..]; case_match; eauto with rulvar.
Qed.

Lemma apply_op_refs w op lin w' refs :
  working_wf w → refs_ok w refs → apply_op w op lin = Ok w' → refs_ok w' refs.
Proof.
  intros Hw Hr. destruct op; cbn [applyAppliedOp].
  { intros [= <-]. by apply withNode_refs. }
  all: intros (m & Hm%nodeOf_ok & H)%bind_ok.
  - destruct (w_specs w !! id) as [s|]; simplify_eq. case_decide; eauto with rulvar.
  - case_match; inv_ok; eauto with rulvar.
  - case_match; simplify_eq; eauto with rulvar.
  - case_match; [simplify_eq; eauto with rulvar|].
    apply bind_ok in H as (? & ? & H). eapply skip_cascade_refs; [..|exact H]; eauto with rulvar.
  - simplify_eq; eauto with rulvar.
  - simplify_eq; eauto with rulvar.
  - simplify_eq; eauto with rulvar.
Qed.

Lemma refs_ok_insert w refs id ref : refs_ok w refs → refs_ok w (<[id := ref]> refs).
Proof. intros Hr id' n Hn Hd. rewrite lookup_insert_is_Some'. eauto. Qed.

Lemma spawn_children_refs l w refs :
  refs_ok w refs → refs_ok (foldl (spawn_child stringify_frac sha256) w l) refs.
Proof.
  revert w. induction l as [|[[id ltid] s] l IH]; intros w Hr; [done|].
  cbn. apply IH. by apply withNode_refs.
Qed.

Lemma engine_op_refs w refs op w' refs' :
  working_wf w → refs_ok w refs → engine_op w refs op = Ok (w', refs') → refs_ok w' refs'.
Proof.
  intros Hw Hr. destruct op; cbn [applyEngineOp].
  - intros (m & Hm%nodeOf_ok & H)%bind_ok. case_decide; [|done]. inv_ok.
    destruct (land_status_fields m to ckpt) as (Hi & Hs & _).
    apply withNode_refs; [case_decide; [by apply refs_ok_insert|done]|].
    rewrite Hi, Hs, (wf_key w Hw id m Hm). intros ->. rewrite decide_True by done.
    by rewrite lookup_insert_eq.
  - intros (m & Hm%nodeOf_ok & H)%bind_ok. simplify_eq.
    pose proof (wf_key w Hw id m Hm) as Hid.
    destruct decision; cbn; try (eauto with rulvar; fail).
    apply withNode_refs; [by apply refs_ok_insert|]. cbn. by rewrite Hid, lookup_insert_eq.
  - intros [= <- <-]. by apply spawn_children_refs.
Qed.

(** ** The invariant of the fold *)

Record fold_wf (s : PlanFoldState) : Prop := {
  fw_working : working_wf (working_of s);
  fw_boundary : boundary (f_plan s);
  fw_refs : refs_ok (working_of s) (doneRefs s);
}.

Lemma fold_nodes_wf s : fold_wf s → jm_wf (nodes (f_plan s)).
Proof. intros [[Hj _ _] _ _]. exact Hj. Qed.

Lemma fold_nodes_key s : fold_wf s → ∀ id n, node_at (f_plan s) id = Some n → nodeId n = id.
Proof. intros [[_ Hk _] _ _]. exact Hk. Qed.

Lemma recompute_wf w p :
  working_wf w → nodes p = nodes (w_plan w) →
  working_wf (mkWorking (recomputePlanReadiness p) (w_specs w)).
Proof.
  intros [Hj Hk Hs] Hp.
  assert (∀ id n, node_at (recomputePlanReadiness p) id = Some n →
            ∃ m, node_at (w_plan w) id = Some m ∧ n = ready_node p m) as Hat.
  { intros id n. rewrite node_at_recompute. unfold node_at at 1. rewrite Hp.
    by intros (m & ? & ->)%fmap_Some; exists m. }
  split; cbn.
  - rewrite Hp. by apply jm_wf_update.
  - intros id n (m & Hm & ->)%Hat. rewrite <- (Hk id m Hm). apply ready_node_fields.
  - intros id n (m & Hm & ->)%Hat. destruct (Hs id m Hm) as (s & ? & Hh). exists s.
    split; [done|]. trans (promptSpecHash m); [|done]. unfold ready_node. by destruct (status m).
Qed.

Lemma recompute_refs w p refs :
  refs_ok w refs → nodes p = nodes (w_plan w) →
  refs_ok (mkWorking (recomputePlanReadiness p) (w_specs w)) refs.
Proof.
  intros Hr Hp id n. cbn. rewrite node_at_recompute. unfold node_at. rewrite Hp.
  intros (m & Hm & ->)%fmap_Some Hd%ready_node_done. by eapply Hr.
Qed.

Lemma apply_outcomes_keeps (P : PlanWorking → Prop) ads i w l w' :
  (∀ w op lin w', P w → apply_op w op lin = Ok w' → P w') →
  P w → apply_outcomes stringify_frac sha256 ads i w l = Ok w' → P w'.
Proof.
  intros HP. revert i w. induction l as [|o l IH]; intros i w Hw; cbn; [by intros [= <-]|].
  intros (w1 & H1 & H2)%bind_ok. eapply IH; [|done].
  destruct (applied_of o); simplify_eq; eauto.
Qed.

Lemma apply_engine_ops_keeps (P : PlanWorking → gmap string N → Prop) w refs l w' refs' :
  (∀ w refs op w' refs', P w refs → engine_op w refs op = Ok (w', refs') → P w' refs') →
  P w refs → apply_engine_ops stringify_frac sha256 w refs l = Ok (w', refs') → P w' refs'.
Proof.
  intros HP. revert w refs. induction l as [|o l IH]; intros w refs Hw; cbn; [by intros [= <- <-]|].
  intros ([w1 r1] & H1 & H2)%bind_ok. eauto.
Qed.

Lemma decision_ops_wf s ops p specs refs b :
  fold_wf s → applyDecisionOps stringify_frac sha256 s ops = Ok (p, specs, refs) →
  fold_wf (mkFold p specs b refs).
Proof.
  intros [Hw Hb Hr]. unfold applyDecisionOps. intros ([w r] & H & [= <- <- <-])%bind_ok.
  apply (apply_engine_ops_keeps (fun w r => working_wf w ∧ refs_ok w r)) in H as [Hw' Hr'].
  - split; cbn; [by apply recompute_wf | apply recompute_boundary | by apply recompute_refs].
  - intros. destruct_and?. split; [by eapply engine_op_wf|by eapply engine_op_refs].
  - by split.
Qed.

Lemma close_revision_wf w refs b d :
  working_wf w → refs_ok w refs → fold_wf (mkFold (close_revision (w_plan w) d) (w_specs w) b refs).
Proof.
  intros Hw Hr. split; cbn; [by apply recompute_wf|apply recompute_boundary|by apply recompute_refs].
Qed.

Lemma apply_outcomes_wf s ads l w b d :
  fold_wf s → apply_outcomes stringify_frac sha256 ads 0 (working_of s) l = Ok w →
  fold_wf (mkFold (close_revision (w_plan w) d) (w_specs w) b (doneRefs s)).
Proof.
  intros [Hw _ Hr] H.
  apply (apply_outcomes_keeps (fun w => working_wf w ∧ refs_ok w (doneRefs s))) in H as [? ?].
  - by apply close_revision_wf.
  - intros. destruct_and?. split; [by eapply apply_op_wf|by eapply apply_op_refs].
  - by split.
Qed.

Section Applier.
Variable deriverFor : N → option KeyDeriver.
Abbreviation apply_entry := (applyPlanEntry stringify_frac sha256 deriverFor).
Abbreviation fold_plan := (foldPlan stringify_frac sha256 deriverFor).
Abbreviation hash_at := (fun e p => planHash (entry_deriver stringify_frac sha256 deriverFor e) p).

Lemma verifyHash_ok e after h p :
  verifyHash stringify_frac sha256 deriverFor e after h p = Ok () ↔ hash_at e p = h.
Proof. unfold verifyHash. case_decide; naive_solver. Qed.

Lemma verifyHash_err e after h p :
  hash_at e p ≠ h →
  verifyHash stringify_frac sha256 deriverFor e after h p =
    Err (PlanHashMismatch after (hash_at e p) h).
Proof. intros. unfold verifyHash. by case_decide. Qed.

Lemma apply_entry_wf s e s' : fold_wf s → apply_entry s e = Ok s' → fold_wf s'.
Proof.
  intros Hs. unfold applyPlanEntry. destruct (pe_payload e) as [[v|]|[v|]|]; [|done| |done|by intros [= <-]].
  - unfold apply_revision. intros (? & _ & H)%bind_ok. case_match.
    + apply bind_ok in H as (? & _ & [= <-]). by destruct Hs.
    + apply bind_ok in H as (w & Hw & (? & _ & [= <-])%bind_ok). by eapply apply_outcomes_wf.
  - unfold apply_decision. intros (? & _ & H)%bind_ok.
    apply bind_ok in H as ([[p specs] refs] & H & (? & _ & [= <-])%bind_ok).
    by eapply decision_ops_wf.
Qed.

Lemma fold_plan_app s l1 l2 : fold_plan s (l1 ++ l2) = s1 ← fold_plan s l1; fold_plan s1 l2.
Proof.
  revert s. induction l1 as [|e l1 IH]; intros s; [done|].
  cbn [app foldPlan]. destruct (apply_entry s e) as [s1|]; [|done]. cbn [mbind result_bind]. apply IH.
Qed.

Lemma fold_plan_wf s l s' : fold_wf s → fold_plan s l = Ok s' → fold_wf s'.
Proof.
  revert s. induction l as [|e l IH]; intros s Hs; cbn; [by intros [= <-]|].
  intros (s1 & H1 & H2)%bind_ok. eapply IH; [|done]. by eapply apply_entry_wf.
Qed.

Lemma empty_fold_wf : fold_wf (emptyPlanFold emptyPlan).
Proof.
  split; [split|..]; cbn; try (intros id n; unfold node_at; cbn; by rewrite jm_get_empty).
  apply jm_wf_empty.
Qed.

(** The hash an entry carries for the plan before it, and the one after. *)
Definition carried_hash (after : bool) (e : PlanEntry) : option string :=
  match pe_payload e with
  | plan_revision (Some v) => Some (if after then rv_hashAfter v else rv_hashBefore v)
  | plan_decision (Some v) => Some (if after then dv_hashAfter v else dv_hashBefore v)
  | _ => None
  end.

Lemma apply_entry_hashes s e s' h :
  apply_entry s e = Ok s' →
  (carried_hash false e = Some h → hash_at e (f_plan s) = h) ∧
  (carried_hash true e = Some h → hash_at e (f_plan s') = h).
Proof.
  unfold applyPlanEntry, carried_hash.
  destruct (pe_payload e) as [[v|]|[v|]|]; try done.
  - unfold apply_revision. intros ([] & Hb%verifyHash_ok & H)%bind_ok. case_match.
    + apply bind_ok in H as ([] & Ha%verifyHash_ok & [= <-]). naive_solver.
    + apply bind_ok in H as (w & _ & ([] & Ha%verifyHash_ok & [= <-])%bind_ok). naive_solver.
  - unfold apply_decision. intros ([] & Hb%verifyHash_ok & H)%bind_ok.
    apply bind_ok in H as ([[p specs] refs] & _ & ([] & Ha%verifyHash_ok & [= <-])%bind_ok).
    naive_solver.
Qed.

Lemma apply_entry_rejects s e h :
  carried_hash false e = Some h → hash_at e (f_plan s) ≠ h →
  apply_entry s e = Err (PlanHashMismatch false (hash_at e (f_plan s)) h).
Proof.
  unfold applyPlanEntry, carried_hash.
  destruct (pe_payload e) as [[v|]|[v|]|]; try done; intros [= <-] Hne.
  - unfold apply_revision. rewrite (verifyHash_err _ _ _ _ Hne). reflexivity.
  - unfold apply_decision. rewrite (verifyHash_err _ _ _ _ Hne). reflexivity.
Qed.

Lemma apply_entry_other s e : carried_hash false e = None → ∀ s', apply_entry s e = Ok s' → s' = s.
Proof.
  unfold applyPlanEntry, carried_hash. intros Hc s'.
  destruct (pe_payload e) as [[v|]|[v|]|]; try done. by intros [= <-].
Qed.

(** Entries of other kinds change nothing. *)
Lemma fold_plan_others l s s' :
  Forall (fun e => carried_hash false e = None) l → fold_plan s l = Ok s' → s' = s.
Proof.
  intros Hl. induction Hl as [|e l He Hl IH]; cbn; [by intros [= <-]|].
  intros (s1 & H1 & H2)%bind_ok. apply apply_entry_other in H1 as ->; auto.
Qed.

(** C14: In every plan a journal folds to, a node is filed under its own
    identifier, its promptSpecHash is the digest of its resolved spec, it is
    ready rather than pending exactly when its dependencies are satisfied, and
    the entry that resolved a done node is on record. *)
Theorem plan_fold_invariant l s id n :
  fold_plan (emptyPlanFold emptyPlan) l = Ok s → node_at (f_plan s) id = Some n →
  nodeId n = id ∧
  (∃ spec, f_specs s !! id = Some spec ∧ promptSpecHash n = specHash spec) ∧
  (status n = ready → depsSatisfied (f_plan s) n = true) ∧
  (status n = pending → depsSatisfied (f_plan s) n = false) ∧
  (status n = done → is_Some (doneRefs s !! id)).
Proof.
  intros [[Hj Hk Hs] Hb Hr]%(fold_plan_wf _ _ _ empty_fold_wf) Hn. specialize (Hb id n Hn).
  split_and!; [by apply Hk|by apply Hs|..|by eapply Hr];
    intros E; rewrite E in Hb; specialize (Hb ltac:(auto)); by case_match.
Qed.

(** In an accepted journal the hashes chain: a plan entry carries the hash
    its predecessor ended with, whatever foreign entries lie between them, when
    both were written under one hash version. *)
Theorem plan_hash_chain s l1 e1 l2 e2 l3 s' h1 h2 :
  fold_plan s (l1 ++ e1 :: l2 ++ e2 :: l3) = Ok s' →
  Forall (fun e => carried_hash false e = None) l2 →
  pe_hashVersion e1 = pe_hashVersion e2 →
  carried_hash true e1 = Some h1 → carried_hash false e2 = Some h2 → h1 = h2.
Proof.
  intros Hf Hl2 Hv H1 H2. rewrite fold_plan_app in Hf.
  apply bind_ok in Hf as (t & _ & Hf). cbn [foldPlan] in Hf.
  apply bind_ok in Hf as (t1 & Ht1 & Hf). rewrite fold_plan_app in Hf.
  apply bind_ok in Hf as (t2 & H2' & Hf). apply fold_plan_others in H2' as ->; [|done].
  cbn [foldPlan] in Hf.
  apply bind_ok in Hf as (t3 & Ht3 & _).
  apply (apply_entry_hashes _ _ _ h1) in Ht1 as [_ Ht1]. specialize (Ht1 H1).
  apply (apply_entry_hashes _ _ _ h2) in Ht3 as [Ht3 _]. specialize (Ht3 H2).
  rewrite <- Ht1, <- Ht3. unfold entry_deriver. by rewrite Hv.
Qed.

(** An entry that does not carry the hash of the plan it was written
    against stops the fold there, with the recomputed and the carried hash, and
    nothing after it is read. *)
Theorem plan_fold_rejects s l1 e l2 t h :
  fold_plan s l1 = Ok t → carried_hash false e = Some h → hash_at e (f_plan t) ≠ h →
  fold_plan s (l1 ++ e :: l2) = Err (PlanHashMismatch false (hash_at e (f_plan t)) h).
Proof.
  intros Hf Hc Hne. rewrite fold_plan_app, Hf. cbn [mbind result_bind foldPlan].
  by rewrite (apply_entry_rejects _ _ _ Hc Hne).
Qed.

(** The entry a producer writes from its preview of a decision folds to the
    previewed plan, specs and references. *)
Theorem decision_preview_replays s ops p specs refs seq v orig :
  applyDecisionOps stringify_frac sha256 s ops = Ok (p, specs, refs) →
  let d := default (deriverV2 stringify_frac sha256) (deriverFor v) in
  apply_entry s (mkPlanEntry seq v (plan_decision (Some
      (mkDecisionValue orig ops (planHash d (f_plan s)) (planHash d p))))) =
    Ok (mkFold p specs (badBaseStreak s) refs).
Proof.
  intros Hp d. unfold applyPlanEntry, apply_decision.
  cbn [pe_payload dv_hashBefore dv_hashAfter dv_ops].
  rewrite (proj2 (verifyHash_ok _ _ _ _)) by done. cbn [mbind result_bind].
  rewrite Hp. cbn [mbind result_bind].
  by rewrite (proj2 (verifyHash_ok _ _ _ _)) by done.
Qed.
End Applier.
End Invariant.

(** ** Witnesses

    A revision adds a task, a foreign entry follows, and a decision spawns a
    second one.  The digest is the identity. *)
Definition demo_frac : Z → positive → string := fun _ _ => "".
Definition demo_sha : string → string := fun s => s.
Definition demo_spec : TaskSpec := [("agentType", JStr "coder"); ("prompt", JStr "p")].
Definition demo_add : AddTask := mkAddTask demo_spec None None None None None.
Definition demo_outcomes : list RebaseOutcome :=
  [applied (applied_add "N1" demo_add); dropped (unpark_task "N7") no_such_dep None].
Definition demo_start : PlanFoldState := emptyPlanFold emptyPlan.
Definition demo_hash (p : TaskPlan) : string := planHash (deriverV2 demo_frac demo_sha) p.

Definition ok_or {E A} (d : A) (r : result E A) : A := match r with Ok a => a | Err _ => d end.

Definition demo_plan1 : TaskPlan :=
  close_revision
    (w_plan (ok_or (working_of demo_start)
       (apply_outcomes demo_frac demo_sha [] 0 (working_of demo_start) demo_outcomes))) false.

Definition demo_entry1 : PlanEntry :=
  mkPlanEntry 3 2 (plan_revision (Some
    (mkRevisionValue (mkSnapshotRef 1 "x") [add_task demo_add; unpark_task "N7"] demo_outcomes []
       (demo_hash emptyPlan) (demo_hash demo_plan1)))).

Definition demo_foreign : PlanEntry := mkPlanEntry 4 2 other_kind.
Definition demo_ops : list EnginePlanOp :=
  [set_node_status "N1" ready running 5 None; spawn_admitted [("N2", "N2", demo_spec)]].

Definition demo_fold (l : list PlanEntry) : result PlanError PlanFoldState :=
  foldPlan demo_frac demo_sha (fun _ => None) demo_start l.
Definition demo_state1 : PlanFoldState := ok_or demo_start (demo_fold [demo_entry1]).

Definition demo_preview : TaskPlan * gmap string TaskSpec * gmap string N :=
  ok_or (emptyPlan, ∅, ∅) (applyDecisionOps demo_frac demo_sha demo_state1 demo_ops).

Definition demo_entry2 (before : string) : PlanEntry :=
  mkPlanEntry 6 2 (plan_decision (Some
    (mkDecisionValue "child-result" demo_ops before (demo_hash (fst (fst demo_preview)))))).

Definition demo_journal : list PlanEntry :=
  [demo_entry1; demo_foreign; demo_entry2 (demo_hash demo_plan1)].
Definition demo_state : PlanFoldState := ok_or demo_start (demo_fold demo_journal).

Lemma plan_fold_invariant_witness :
  ∃ n, node_at (f_plan demo_state) "N2" = Some n ∧ status n = ready ∧
    depsSatisfied (f_plan demo_state) n = true.
Proof.
  eexists. split; [vm_compute; reflexivity|]. split; [reflexivity|].
  eapply (plan_fold_invariant demo_frac demo_sha (fun _ => None) demo_journal demo_state "N2");
    [vm_compute; reflexivity|vm_compute; reflexivity|reflexivity].
Defined.

Lemma plan_hash_chain_witness : demo_hash demo_plan1 = demo_hash (f_plan demo_state1).
Proof.
  apply (plan_hash_chain demo_frac demo_sha (fun _ => None) demo_start [] demo_entry1
           [demo_foreign] (demo_entry2 (demo_hash (f_plan demo_state1))) [] demo_state).
  - vm_compute. reflexivity.
  - by repeat constructor.
  - reflexivity.
  - reflexivity.
  - reflexivity.
Defined.

Lemma plan_fold_rejects_witness :
  demo_fold [demo_entry1; demo_entry2 "tampered"; demo_foreign] =
    Err (PlanHashMismatch false (demo_hash demo_plan1) "tampered").
Proof.
  replace (demo_hash demo_plan1) with (demo_hash (f_plan demo_state1)) by (vm_compute; reflexivity).
  apply (plan_fold_rejects demo_frac demo_sha (fun _ => None) demo_start [demo_entry1]
           (demo_entry2 "tampered") [demo_foreign] demo_state1).
  - vm_compute. reflexivity.
  - reflexivity.
  - vm_compute. discriminate.
Defined.

Lemma decision_preview_replays_witness :
  ∃ e s, applyPlanEntry demo_frac demo_sha (fun _ => None) demo_state1 e = Ok s ∧
    map fst (jm_entries (nodes (f_plan s))) = ["N1"; "N2"].
Proof.
  eexists _, _. split.
  - apply (decision_preview_replays demo_frac demo_sha (fun _ => None) demo_state1 demo_ops
             (fst (fst demo_preview)) (snd (fst demo_preview)) (snd demo_preview) 6 2 "child-result").
    vm_compute. reflexivity.
  - vm_compute. reflexivity.
Defined.
