(* ===== verification/PlanProgress.v ===== *)
(** * Progress of a plan (packages/plan/src/plan-state.ts, plan-entries.ts)

    The engine moves a plan by decisions: a ready node is dispatched, a running
    one settles.  When no child fails, every way of scheduling the nodes of an
    acyclic plan ends, and it ends with every node done. *)
From S2P Require Import Prelude Json JsMap Identity PlanState PlanEntries.

Section Progress.
Variable stringify_frac : Z → positive → string.
Variable sha256 : string → string.
Abbreviation decide_ops := (applyDecisionOps stringify_frac sha256).

(** One plan.decision of the scheduler, folded: the dispatch of a ready node,
    or the settlement of a running one. *)
Inductive plan_step (s : PlanFoldState) : PlanFoldState → Prop :=
  | dispatch_step id ref p specs refs :
      decide_ops s [set_node_status id ready running ref None] = Ok (p, specs, refs) →
      plan_step s (mkFold p specs (badBaseStreak s) refs)
  | settle_step id ref p specs refs :
      decide_ops s [set_node_status id running done ref None] = Ok (p, specs, refs) →
      plan_step s (mkFold p specs (badBaseStreak s) refs).

Definition all_done (plan : TaskPlan) : Prop :=
  ∀ id n, node_at plan id = Some n → status n = done.

(** A plan the scheduler can finish: acyclic, every dependency of a node is a
    node or waived, and no node is parked, escalated or closed unsuccessfully. *)
Record schedulable (plan : TaskPlan) : Prop := {
  sc_acyclic : acyclic_plan plan;
  sc_deps : ∀ id n d, node_at plan id = Some n → d ∈ deps n →
    d ∈ waivedDeps n ∨ is_Some (node_at plan d);
  sc_status : ∀ id n, node_at plan id = Some n →
    status n = pending ∨ status n = ready ∨ status n = running ∨ status n = done;
}.

(** ** One transition *)

Definition moved (plan : TaskPlan) (n : PlanNode) (to : PlanNodeStatus) : TaskPlan :=
  recomputePlanReadiness (put_node plan (land_status n to None)).

Lemma decide_set_status s id from to ref p specs refs :
  decide_ops s [set_node_status id from to ref None] = Ok (p, specs, refs) ↔
  ∃ n, node_at (f_plan s) id = Some n ∧ status n = from ∧
    assertPlanTransition n to = Ok () ∧ p = moved (f_plan s) n to ∧ specs = f_specs s ∧
    refs = if decide (to = done) then <[id := ref]> (doneRefs s) else doneRefs s.
Proof.
  unfold applyDecisionOps. cbn [apply_engine_ops applyEngineOp working_of w_plan].
  unfold nodeOf. destruct (node_at (f_plan s) id) as [n|]; cbn [mbind result_bind].
  2: { split; [done|]. by intros (n & ? & _). }
  case_decide as Hf.
  2: { split; [done|]. by intros (n' & [= <-] & ? & _). }
  destruct (assertPlanTransition n to) as [[]|] eqn:Ht; cbn [mbind result_bind].
  2: { split; [done|]. intros (n' & [= <-] & _ & H & _). by rewrite Ht in H. }
  split; [intros [= <- <- <-]; by exists n|].
  by intros (n' & [= <-] & _ & _ & -> & -> & ->).
Qed.

Lemma set_status_step s id n from to ref :
  node_at (f_plan s) id = Some n → status n = from → assertPlanTransition n to = Ok () →
  ∃ refs, decide_ops s [set_node_status id from to ref None] =
    Ok (moved (f_plan s) n to, f_specs s, refs).
Proof. intros. eexists. apply decide_set_status. eauto 10. Qed.

Lemma node_at_moved plan n to id :
  node_at (moved plan n to) id =
    ready_node (put_node plan (land_status n to None)) <$>
      (if decide (nodeId n = id) then Some (land_status n to None) else node_at plan id).
Proof.
  unfold moved. rewrite node_at_recompute, node_at_put.
  by destruct (land_status_fields n to None) as (-> & _).
Qed.

(** The statuses that readiness does not tell apart. *)
Definition phase (s : PlanNodeStatus) : PlanNodeStatus :=
  match s with ready => pending | _ => s end.

Lemma phase_ready_node plan n : phase (status (ready_node plan n)) = phase (status n).
Proof.
  unfold ready_node. destruct (status n) eqn:E; rewrite ?E; try done; cbn; by case_match.
Qed.

Definition phase_at (plan : TaskPlan) (id : string) : option PlanNodeStatus :=
  (fun n => phase (status n)) <$> node_at plan id.

Lemma phase_at_moved plan n to id :
  phase_at (moved plan n to) id =
    if decide (nodeId n = id) then Some (phase to) else phase_at plan id.
Proof.
  unfold phase_at. rewrite node_at_moved, <- option_fmap_compose.
  destruct (land_status_fields n to None) as (_ & Hs & _).
  case_decide; cbn; [by rewrite phase_ready_node, Hs|].
  destruct (node_at plan id); cbn; [by rewrite phase_ready_node|done].
Qed.

(** ** The measure *)

Definition in_phase (plan : TaskPlan) (P : PlanNodeStatus → bool) : gset string :=
  filter (fun id => from_option P false (phase_at plan id) = true) (plan_dom plan).

Lemma elem_of_in_phase plan P id :
  id ∈ in_phase plan P ↔ ∃ s, phase_at plan id = Some s ∧ P s = true.
Proof.
  unfold in_phase. rewrite elem_of_filter, elem_of_plan_dom. unfold phase_at.
  destruct (node_at plan id) as [n|]; cbn; naive_solver.
Qed.

(** Nodes to dispatch, and nodes to settle. *)
Definition unstarted (s : PlanNodeStatus) : bool := bool_decide (s = pending).
Definition unfinished (s : PlanNodeStatus) : bool := negb (bool_decide (s = done)).

Definition work_left (plan : TaskPlan) : nat :=
  size (in_phase plan unstarted) + size (in_phase plan unfinished).

Lemma in_phase_moved plan n to P :
  node_at plan (nodeId n) = Some n →
  in_phase (moved plan n to) P =
    if P (phase to) then {[nodeId n]} ∪ in_phase plan P else in_phase plan P ∖ {[nodeId n]}.
Proof.
  intros Hn. apply set_eq. intros id. rewrite elem_of_in_phase, phase_at_moved.
  destruct (P (phase to)) eqn:HP; case_decide as Hid.
  - subst id. split; [set_solver|]. eauto.
  - rewrite <- elem_of_in_phase. set_solver.
  - subst id. split; [|set_solver]. intros (s & [= <-] & ?). congruence.
  - rewrite <- elem_of_in_phase. set_solver.
Qed.

Lemma in_phase_self plan n P :
  node_at plan (nodeId n) = Some n → P (phase (status n)) = true → nodeId n ∈ in_phase plan P.
Proof. intros Hn HP. apply elem_of_in_phase. unfold phase_at. rewrite Hn. eauto. Qed.

Lemma size_remove (X : gset string) x : x ∈ X → size X = S (size (X ∖ {[x]})).
Proof.
  intros Hx. rewrite size_difference by set_solver. rewrite size_singleton.
  assert (size X ≠ 0); [|lia]. intros H%size_empty_inv. set_solver.
Qed.

(** A dispatch and a settlement each do one unit of work. *)
Lemma moved_work plan n from to :
  node_at plan (nodeId n) = Some n → status n = from →
  (from = ready ∧ to = running) ∨ (from = running ∧ to = done) →
  work_left plan = S (work_left (moved plan n to)).
Proof.
  intros Hn Hs Hft. unfold work_left. rewrite !in_phase_moved by done.
  destruct Hft as [[-> ->]|[-> ->]].
  - rewrite (size_remove (in_phase plan unstarted) (nodeId n)) by (by apply in_phase_self; rewrite ?Hs).
    assert (nodeId n ∈ in_phase plan unfinished) by (by apply in_phase_self; rewrite ?Hs).
    change (unstarted (phase running)) with false. change (unfinished (phase running)) with true.
    replace ({[nodeId n]} ∪ in_phase plan unfinished) with (in_phase plan unfinished) by set_solver.
    done.
  - rewrite (size_remove (in_phase plan unfinished) (nodeId n)) by (by apply in_phase_self; rewrite ?Hs).
    assert (nodeId n ∉ in_phase plan unstarted).
    { rewrite elem_of_in_phase. unfold phase_at. rewrite Hn. cbn. rewrite Hs. naive_solver. }
    change (unstarted (phase done)) with false. change (unfinished (phase done)) with false.
    cbv iota.
    replace (in_phase plan unstarted ∖ {[nodeId n]}) with (in_phase plan unstarted) by set_solver.
    lia.
Qed.

(** ** Steps *)

Lemma step_moved s s' :
  fold_wf stringify_frac sha256 s → plan_step s s' →
  ∃ n to, node_at (f_plan s) (nodeId n) = Some n ∧ f_plan s' = moved (f_plan s) n to ∧
    ((status n = ready ∧ to = running) ∨ (status n = running ∧ to = done)).
Proof.
  intros Hwf Hstep. pose proof (wf_key _ _ _ (fw_working _ _ _ Hwf)) as Hk. cbn in Hk.
  destruct Hstep as [id ref p specs refs H|id ref p specs refs H];
    apply decide_set_status in H as (n & Hn & Hs & _ & -> & _);
    rewrite <- (Hk id n Hn) in Hn; eauto 10.
Qed.

Lemma step_wf s s' :
  fold_wf stringify_frac sha256 s → plan_step s s' → fold_wf stringify_frac sha256 s'.
Proof. intros Hwf []; by eapply decision_ops_wf. Qed.

Lemma moved_schedulable plan n to :
  schedulable plan → node_at plan (nodeId n) = Some n → to = running ∨ to = done →
  schedulable (moved plan n to).
Proof.
  intros [Ha Hd Hs] Hn Hto.
  destruct (land_status_fields n to None) as (Hl1 & Hl2 & Hl3 & Hl4 & _).
  assert (∀ id m, node_at (moved plan n to) id = Some m → ∃ m0, node_at plan id = Some m0 ∧
            deps m = deps m0 ∧ waivedDeps m = waivedDeps m0 ∧
            (phase (status m) = phase to ∨ phase (status m) = phase (status m0))) as Hat.
  { intros id m. rewrite node_at_moved. case_decide as Hid; intros (m0 & Hm0 & ->)%fmap_Some.
    - injection Hm0 as <-. subst id. exists n. split; [done|].
      destruct (ready_node_fields (put_node plan (land_status n to None))
                  (land_status n to None)) as (_ & -> & ->).
      split_and!; [done..|]. left. by rewrite phase_ready_node, Hl2.
    - exists m0. split; [done|].
      destruct (ready_node_fields (put_node plan (land_status n to None)) m0) as (_ & -> & ->).
      split_and!; [done..|]. right. by rewrite phase_ready_node. }
  assert (∀ id, is_Some (node_at plan id) → is_Some (node_at (moved plan n to) id)) as Hkeep.
  { intros id Hid. rewrite node_at_moved, fmap_is_Some. by case_decide. }
  split.
  - revert Ha. apply acyclic_mono. intros x y. unfold deps_at.
    destruct (node_at (moved plan n to) x) as [m|] eqn:E; [|set_solver].
    apply Hat in E as (m0 & -> & -> & _). done.
  - intros id m d (m0 & Hm0 & -> & -> & _)%Hat Hin. destruct (Hd id m0 d Hm0 Hin); auto.
  - intros id m (m0 & Hm0 & _ & _ & Hph)%Hat. specialize (Hs id m0 Hm0).
    destruct Hto as [-> | ->], (status m); cbn in Hph; try (by auto); exfalso;
      destruct Hph as [Hph|Hph], (status m0); cbn in Hph; intuition congruence.
Qed.

Lemma step_schedulable s s' :
  fold_wf stringify_frac sha256 s → schedulable (f_plan s) → plan_step s s' →
  schedulable (f_plan s') ∧ work_left (f_plan s) = S (work_left (f_plan s')).
Proof.
  intros Hwf Hsc Hst. destruct (step_moved s s' Hwf Hst) as (n & to & Hn & -> & Hto).
  split.
  - apply moved_schedulable; [done..|]. by destruct Hto as [[_ ->]|[_ ->]]; auto.
  - by eapply moved_work.
Qed.

(** An unfinished schedulable plan has a running node to settle or a ready one
    to dispatch. *)
Lemma schedulable_progress s :
  fold_wf stringify_frac sha256 s → schedulable (f_plan s) →
  all_done (f_plan s) ∨ ∃ s', plan_step s s'.
Proof.
  intros Hwf [Ha Hd Hs]. set (plan := f_plan s).
  assert (∀ id n to (ref : N), node_at plan id = Some n → assertPlanTransition n to = Ok () →
            (status n = ready ∧ to = running) ∨ (status n = running ∧ to = done) →
            ∃ s', plan_step s s') as Hgo.
  { intros id n to ref Hn Ht Hc.
    destruct (set_status_step s id n (status n) to ref Hn eq_refl Ht) as (refs & H).
    destruct Hc as [[Hr ->]|[Hr ->]]; rewrite Hr in H; eexists;
      [by eapply dispatch_step|by eapply settle_step]. }
  destruct (set_choose_or_empty (in_phase plan unfinished)) as [[x Hx]|Hemp].
  - right.
    destruct (acyclic_minimal (deps_at plan) _ x Ha Hx) as (m & Hm & _ & Hmin).
    apply elem_of_in_phase in Hm as (ph & Hm & Hph). unfold phase_at in Hm.
    apply fmap_Some in Hm as (n & Hn & ->).
    pose proof (Hs m n Hn) as Hst. pose proof (fw_boundary _ _ _ Hwf m n Hn) as Hb.
    assert (depsSatisfied plan n = true) as Hsat.
    { apply depsSatisfied_spec. intros d Hdn.
      destruct (Hd m n d Hn Hdn) as [|[u Hu]]; [by left|right]. exists u. split; [done|].
      assert (d ∉ in_phase plan unfinished) as Hdone.
      { apply Hmin. unfold deps_at. by rewrite Hn. }
      rewrite elem_of_in_phase in Hdone. unfold phase_at in Hdone. fold plan in Hu. rewrite Hu in Hdone.
      destruct (decide (status u = done)) as [|Hne]; [done|]. exfalso. apply Hdone.
      eexists. split; [done|]. by destruct (status u). }
    unfold plan in Hsat. rewrite Hsat in Hb.
    destruct (status n) eqn:E; try (by exfalso; clear -Hst; intuition congruence); try done.
    + by specialize (Hb ltac:(auto)).
    + eapply (Hgo m n running 0%N Hn); [|by left]. apply assertPlanTransition_ok. by rewrite E.
    + eapply (Hgo m n done 0%N Hn); [|by right]. apply assertPlanTransition_ok. by rewrite E.
  - left. intros id n Hn. destruct (decide (status n = done)) as [|Hne]; [done|].
    exfalso. apply (not_elem_of_empty (C := gset string) id). rewrite <- Hemp.
    apply elem_of_in_phase. unfold phase_at. fold plan in Hn. rewrite Hn. eexists. split; [done|].
    by destruct (status n).
Qed.

(** ** The claim *)

(** C32: A schedulable plan is finished by every scheduler: along any sequence of
    dispatches and settlements a next step exists until every node is done, and
    no sequence is longer than two steps per node. *)
Theorem plan_runs_to_completion s k s' :
  fold_wf stringify_frac sha256 s → schedulable (f_plan s) → nsteps plan_step k s s' →
  (all_done (f_plan s') ∨ ∃ s'', plan_step s' s'') ∧
  k ≤ 2 * size (jm_map (nodes (f_plan s))).
Proof.
  intros Hwf Hsc Hk.
  assert (fold_wf stringify_frac sha256 s' ∧ schedulable (f_plan s') ∧
          k + work_left (f_plan s') = work_left (f_plan s)) as (Hwf' & Hsc' & Hw).
  { induction Hk as [s|k s s1 s' Hst Hk IH]; [done|].
    destruct (step_schedulable s s1 Hwf Hsc Hst) as [Hsc1 Hw].
    destruct (IH (step_wf _ _ Hwf Hst) Hsc1) as (? & ? & ?). split_and!; [done..|lia]. }
  split; [by apply schedulable_progress|].
  assert (∀ P, size (in_phase (f_plan s) P) ≤ size (jm_map (nodes (f_plan s)))) as Hle.
  { intros P. rewrite <- plan_dom_size. apply subseteq_size. unfold in_phase. set_solver. }
  pose proof (Hle unstarted). pose proof (Hle unfinished). unfold work_left in Hw. lia.
Qed.
End Progress.

(** ** Witness: a task and one that depends on it *)
Definition pair_outcomes : list RebaseOutcome :=
  [applied (applied_add "N1" demo_add);
   applied (applied_add "N2" (mkAddTask demo_spec (Some ["N1"]) None None None None))].

Definition pair_plan : TaskPlan :=
  close_revision
    (w_plan (ok_or (working_of demo_start)
       (apply_outcomes demo_frac demo_sha [] 0 (working_of demo_start) pair_outcomes))) false.

Definition pair_entry : PlanEntry :=
  mkPlanEntry 3 2 (plan_revision (Some
    (mkRevisionValue (mkSnapshotRef 1 "x") [] pair_outcomes [] (demo_hash emptyPlan)
       (demo_hash pair_plan)))).

Definition pair_state : PlanFoldState := ok_or demo_start (demo_fold [pair_entry]).

Lemma pair_state_wf : fold_wf demo_frac demo_sha pair_state.
Proof.
  apply (fold_plan_wf demo_frac demo_sha (fun _ => None) demo_start [pair_entry]).
  - apply empty_fold_wf.
  - vm_compute. reflexivity.
Qed.

(** A plan of the two nodes. *)
Record pair_shape (plan : TaskPlan) : Prop := {
  ps_wf : jm_wf (nodes plan);
  ps_order : jm_order (nodes plan) = ["N1"; "N2"];
  ps_first : (fun n => (deps n, status n)) <$> node_at plan "N1" = Some ([], ready);
  ps_second : (fun n => (deps n, status n)) <$> node_at plan "N2" = Some (["N1"], pending);
}.

Lemma pair_nodes plan id n :
  pair_shape plan → node_at plan id = Some n →
  (id = "N1" ∧ deps n = [] ∧ status n = ready) ∨ (id = "N2" ∧ deps n = ["N1"] ∧ status n = pending).
Proof.
  intros [Hw Ho H1 H2] H.
  assert (id ∈ jm_order (nodes plan)) as Hin by (apply Hw; by exists n).
  rewrite Ho in Hin. apply elem_of_cons in Hin as [->| ->%list_elem_of_singleton].
  - left. rewrite H in H1. by injection H1 as -> ->.
  - right. rewrite H in H2. by injection H2 as -> ->.
Qed.

Lemma pair_schedulable plan : pair_shape plan → schedulable plan.
Proof.
  intros Hp. split.
  - apply (acyclic_rank _ (fun id => if decide (id = "N2") then 1 else 0)).
    intros x y. unfold deps_at. destruct (node_at plan x) as [n|] eqn:E; [|set_solver].
    destruct (pair_nodes plan x n Hp E) as [(-> & -> & _)|(-> & -> & _)]; [set_solver|].
    intros ->%list_elem_of_singleton. vm_compute. lia.
  - intros id n d H Hd. right.
    destruct (pair_nodes plan id n Hp H) as [(-> & Hds & _)|(-> & Hds & _)];
      rewrite Hds in Hd; [set_solver|].
    apply list_elem_of_singleton in Hd as ->.
    destruct Hp as [_ _ H1 _]. apply fmap_Some in H1 as (m & Hm & _). by exists m.
  - intros id n H. destruct (pair_nodes plan id n Hp H) as [(_ & _ & ->)|(_ & _ & ->)]; auto.
Qed.

Lemma pair_state_shape : pair_shape (f_plan pair_state).
Proof.
  split; [exact (fold_nodes_wf _ _ _ pair_state_wf)|vm_compute; reflexivity..].
Qed.

Lemma plan_runs_to_completion_witness :
  ∃ s', nsteps (plan_step demo_frac demo_sha) 1 pair_state s' ∧
    (all_done (f_plan s') ∨ ∃ s'', plan_step demo_frac demo_sha s' s'').
Proof.
  eexists. assert (nsteps (plan_step demo_frac demo_sha) 1 pair_state
                     (mkFold (f_plan (mkFold
                        (moved (f_plan pair_state) (default (example_node "" done [] [])
                           (node_at (f_plan pair_state) "N1")) running) ∅ 0 ∅))
                        (f_specs pair_state) (badBaseStreak pair_state) ∅)) as Hk.
  { apply nsteps_once. apply (dispatch_step _ _ _ "N1" 7%N). vm_compute. reflexivity. }
  split; [exact Hk|].
  apply (plan_runs_to_completion demo_frac demo_sha pair_state 1 _ pair_state_wf
           (pair_schedulable _ pair_state_shape) Hk).
Defined.
