(* ===== verification/Cascade.v ===== *)
(** * The cancel cascade (packages/plan/src/rebase.ts)

    What a cancelled task takes with it: the nodes its cancellation blocks,
    computed by repeated passes over the plan until one severs nothing. *)
From S2P Require Import Prelude Json JsMap PlanState PlanEntries.

(** The state of the loop: [severed], [cascade] and [grew]. *)
Record Cascade := mkCascade { severed : gset string; cascade : list string; grew : bool }.

(** [node.deps.some((dep) => severed.has(dep) && !waived.has(dep))]. *)
Definition blocked_by (sv : gset string) (n : PlanNode) : bool :=
  existsb (fun dep => bool_decide (dep ∈ sv) && negb (bool_decide (dep ∈ waivedDeps n))) (deps n).

(** The body of the inner loop. *)
Definition cascade_node (st : Cascade) (n : PlanNode) : Cascade :=
  if bool_decide (nodeId n ∈ severed st) || isTerminalPlanStatus (status n) then st
  else if decide (status n = running) then st
  else if blocked_by (severed st) n then
    mkCascade ({[nodeId n]} ∪ severed st) (cascade st ++ [nodeId n]) true
  else st.

(** One turn of the outer loop. *)
Definition cascade_pass (l : list PlanNode) (st : Cascade) : Cascade :=
  foldl cascade_node (mkCascade (severed st) (cascade st) false) l.

Fixpoint cascade_loop (fuel : nat) (l : list PlanNode) (st : Cascade) : option (list string) :=
  match fuel with
  | O => None
  | S fuel =>
      let st' := cascade_pass l st in
      if grew st' then cascade_loop fuel l st' else Some (cascade st')
  end.

(** Every turn but the last severs a node, so one turn more than there are
    nodes is enough: [cascadeOf_spec]. *)
Definition cascadeOf (plan : TaskPlan) (root : string) : option (list string) :=
  sort_strings <$>
    cascade_loop (S (length (jm_values (nodes plan)))) (jm_values (nodes plan))
      (mkCascade {[root]} [] true).

(** ** Sorting *)

Lemma insert_by_perm {A} (key : A → string) x l : insert_by key x l ≡ₚ x :: l.
Proof.
  induction l as [|y l IH]; cbn; [done|]. case_match; [done|].
  rewrite IH. by rewrite Permutation_swap.
Qed.

Lemma sort_by_perm {A} (key : A → string) (l : list A) : sort_by key l ≡ₚ l.
Proof. induction l as [|x l IH]; cbn; [done|]. by rewrite insert_by_perm, IH. Qed.

(** ** The relation the cascade closes *)

Definition cascades (n : PlanNode) : bool :=
  negb (isTerminalPlanStatus (status n)) && negb (bool_decide (status n = running)).

(** [b] is blocked by the loss of [a]: a node still to run that depends on it
    without a waiver. *)
Definition severs (plan : TaskPlan) (a b : string) : Prop :=
  ∃ n, node_at plan b = Some n ∧ cascades n = true ∧ a ∈ deps n ∧ a ∉ waivedDeps n.

Lemma blocked_by_spec sv n :
  blocked_by sv n = true ↔ ∃ d, d ∈ deps n ∧ d ∈ sv ∧ d ∉ waivedDeps n.
Proof.
  unfold blocked_by. rewrite existsb_elem_of. split.
  - intros (d & Hd & [H1%bool_decide_eq_true H2%negb_true_iff%bool_decide_eq_false]%andb_prop). eauto.
  - intros (d & Hd & H1 & H2). exists d. split; [done|].
    apply andb_true_iff. rewrite negb_true_iff, bool_decide_eq_true, bool_decide_eq_false. done.
Qed.

Lemma cascade_node_eq st n :
  cascade_node st n =
    if negb (bool_decide (nodeId n ∈ severed st)) && (cascades n && blocked_by (severed st) n)
    then mkCascade ({[nodeId n]} ∪ severed st) (cascade st ++ [nodeId n]) true else st.
Proof.
  unfold cascade_node, cascades.
  destruct (bool_decide (nodeId n ∈ severed st)), (isTerminalPlanStatus (status n)); cbn; try done.
  by case_decide; [rewrite bool_decide_true by done|rewrite bool_decide_false by done].
Qed.

Section Cascade.
Variable plan : TaskPlan.
Variable root : string.
Hypothesis plan_wf : jm_wf (nodes plan).
Hypothesis plan_key : ∀ id n, node_at plan id = Some n → nodeId n = id.

Abbreviation values := (jm_values (nodes plan)).

Lemma value_at n : n ∈ values → node_at plan (nodeId n) = Some n.
Proof. intros (id & Hn)%jm_values_spec; [|done]. by rewrite (plan_key id n Hn). Qed.

(** What every state of the loop satisfies. *)
Record cascade_ok (st : Cascade) : Prop := {
  co_severed : ∀ x, x ∈ severed st ↔ x = root ∨ x ∈ cascade st;
  co_root : root ∉ cascade st;
  co_nodup : NoDup (cascade st);
  co_reach : ∀ x, x ∈ cascade st → tc (severs plan) root x;
  co_values : ∀ x, x ∈ cascade st → x ∈ map nodeId values;
}.

Lemma cascade_node_ok st n : cascade_ok st → n ∈ values → cascade_ok (cascade_node st n).
Proof.
  intros Hok Hn. rewrite cascade_node_eq. case_match eqn:E; [|done].
  apply andb_prop in E as [Hnew%negb_true_iff%bool_decide_eq_false [Hc Hb]%andb_prop].
  apply blocked_by_spec in Hb as (d & Hd & Hsv & Hw).
  destruct Hok as [Hs Hr Hnd Hre Hv]. rewrite Hs in Hnew.
  split; cbn.
  - intros x. rewrite elem_of_union, elem_of_singleton, Hs, elem_of_app, list_elem_of_singleton. tauto.
  - rewrite elem_of_app, list_elem_of_singleton. naive_solver.
  - apply NoDup_app. split_and!; [done| |apply NoDup_singleton].
    intros x Hx ->%list_elem_of_singleton. tauto.
  - intros x [Hx| ->%list_elem_of_singleton]%elem_of_app; [by apply Hre|].
    assert (severs plan d (nodeId n)) as Hdn by (exists n; by rewrite value_at).
    apply Hs in Hsv as [->|Hsv]; [by apply tc_once|]. eapply tc_r; [by apply Hre|done].
  - intros x [Hx| ->%list_elem_of_singleton]%elem_of_app; [by apply Hv|].
    apply list_elem_of_fmap. by exists n.
Qed.

(** A node the cascade does not need to take. *)
Definition quiet (sv : gset string) (n : PlanNode) : Prop :=
  nodeId n ∈ sv ∨ cascades n = false ∨ blocked_by sv n = false.

(** A pass grows the cascade, or leaves it alone and finds every node quiet. *)
Lemma cascade_fold l st :
  cascade_ok st → (∀ n, n ∈ l → n ∈ values) →
  cascade_ok (foldl cascade_node st l) ∧
  length (cascade st) ≤ length (cascade (foldl cascade_node st l)) ∧
  (grew st = false →
     (grew (foldl cascade_node st l) = true ∧
        length (cascade st) < length (cascade (foldl cascade_node st l))) ∨
     (foldl cascade_node st l = st ∧ ∀ n, n ∈ l → quiet (severed st) n)).
Proof.
  revert st. induction l as [|n l IH]; intros st Hok Hl; cbn [foldl].
  { split_and!; [done..|]. intros _. right. split; [done|set_solver]. }
  destruct (IH (cascade_node st n)) as (Hok' & Hlen & Hgrew).
  { apply cascade_node_ok; [done|]. apply Hl. left. }
  { intros m Hm. apply Hl. by right. }
  rewrite cascade_node_eq in *. case_match eqn:E.
  - cbn in Hlen. rewrite length_app in Hlen. cbn in Hlen. split_and!; [done|lia|].
    intros _. left. split; [|lia].
    clear -E. set (st' := mkCascade _ _ true). assert (grew st' = true) as Hg by done.
    clearbody st'. revert st' Hg. induction l as [|m l IH]; intros st' Hg; [done|].
    cbn. apply IH. rewrite cascade_node_eq. by case_match.
  - split_and!; [done..|]. intros Hg. destruct (Hgrew Hg) as [?|[He Hq]]; [by left|right].
    split; [done|]. intros m [->|Hm]%elem_of_cons; [|by apply Hq].
    unfold quiet. destruct (decide (nodeId n ∈ severed st)); [by left|right].
    rewrite bool_decide_false in E by done. cbn in E. by apply andb_false_iff in E.
Qed.

Lemma cascade_bound st : cascade_ok st → length (cascade st) ≤ length values.
Proof.
  intros Hok. rewrite <- (length_map nodeId values).
  apply submseteq_length, NoDup_submseteq; [by apply Hok|]. intros x. apply Hok.
Qed.

Lemma cascade_loop_ok fuel st :
  cascade_ok st → length values < fuel + length (cascade st) →
  ∃ c, cascade_loop fuel values st = Some (cascade c) ∧ cascade_ok c ∧
    ∀ n, n ∈ values → quiet (severed c) n.
Proof.
  revert st. induction fuel as [|fuel IH]; intros st Hok Hf.
  { pose proof (cascade_bound st Hok). lia. }
  cbn [cascade_loop]. unfold cascade_pass.
  set (st0 := mkCascade (severed st) (cascade st) false).
  destruct (cascade_fold values st0) as (Hok' & Hlen & Hgrew); [by destruct Hok|done|].
  destruct (Hgrew eq_refl) as [[Hg Hlt]|[He Hq]].
  - rewrite Hg. apply IH; [done|]. change (cascade st0) with (cascade st) in Hlt. lia.
  - rewrite He. cbn. exists st0. split_and!; [done| |done]. by destruct Hok.
Qed.

(** The cascade is computed, lists each node once, and holds exactly the nodes
    the loss of the root blocks, directly or through others. *)
Lemma cascadeOf_correct :
  ∃ c, cascadeOf plan root = Some c ∧ NoDup c ∧
    ∀ x, x ∈ c ↔ x ≠ root ∧ tc (severs plan) root x.
Proof.
  destruct (cascade_loop_ok (S (length values)) (mkCascade {[root]} [] true))
    as (st & He & [Hs Hr Hnd Hre Hv] & Hq).
  { split; cbn; set_solver || apply NoDup_nil_2. }
  { cbn. lia. }
  unfold cascadeOf. rewrite He. eexists. split; [done|].
  unfold sort_strings. split; [by rewrite sort_by_perm|].
  intros x. rewrite sort_by_perm. split.
  - intros Hx. split; [by intros ->|by apply Hre].
  - intros [Hne Ht]. assert (x ∈ severed st) as Hx; [|apply Hs in Hx as [|]; by auto].
    apply (rtc_closed (severs plan) (.∈ severed st) root); [|apply Hs; by left|by apply tc_rtc].
    intros a b Ha (n & Hn & Hc & Hd & Hw).
    pose proof (plan_key b n Hn) as Hb.
    destruct (Hq n) as [?|[?|Hb']]; [apply jm_values_spec; [done|by exists b]|congruence|congruence|].
    exfalso. assert (blocked_by (severed st) n = true); [|congruence].
    apply blocked_by_spec. eauto.
Qed.
End Cascade.
