(* ===== verification/Rebase.v ===== *)
(** * The rebase of a plan revision (packages/plan/src/rebase.ts)

    A revision is evaluated against the head of the plan fold: every requested
    operation is applied, transformed or dropped, each against the plan the
    earlier ones left, and the outcomes are journaled.

    The hooks of [RebaseContext] (minting, admission, lineage and reuse) are
    closures over engine state; here they thread a state [W].  A hook that is
    absent is [None]. *)
From S2P Require Import Prelude Json JsMap Identity PlanState PlanEntries Cascade.

Inductive LineageCheck := lineage_ok | check_busy | check_exhausted.

Record ReuseTransform := mkReuse {
  ru_applied : AppliedPlanOp;
  ru_admission : AdmissionVerdict;
  ru_nodeId : string;
}.

Record RebaseContext (W : Type) := mkContext {
  c_state : PlanFoldState;
  c_digestPlanHashFor : N → option string;
  c_mintNodeId : W → string * W;
  c_frozen : bool;
  c_admitAdd : option (W → AddTask → string → nat → AdmissionVerdict * W);
  c_admitUnpark : option (W → string → PlanNode → nat → AdmissionVerdict * W);
  c_lineageCheck : option (W → string → LineageCheck);
  c_dedup : option (W → AddTask → nat → option ReuseTransform * W);
}.
Arguments c_state {W} _.
Arguments c_digestPlanHashFor {W} _.
Arguments c_mintNodeId {W} _.
Arguments c_frozen {W} _.
Arguments c_admitAdd {W} _.
Arguments c_admitUnpark {W} _.
Arguments c_lineageCheck {W} _.
Arguments c_dedup {W} _.

Record PlanReviseRequest := mkRequest {
  rq_base : PlanSnapshotRef;
  rq_ops : list PlanOp;
}.

(** The arrays an evaluation fills, and the state of the hooks. *)
Record Evaluating (W : Type) := mkEvaluating {
  ev_admissions : list PlanRevisionAdmission;
  ev_assigned : list (nat * string);
  ev_world : W;
}.
Arguments mkEvaluating {W} _ _ _.
Arguments ev_admissions {W} _.
Arguments ev_assigned {W} _.
Arguments ev_world {W} _.

Record RebaseEvaluation := mkEvaluation {
  re_outcomes : list RebaseOutcome;
  re_assigned : list (nat * string);
  re_admissions : list PlanRevisionAdmission;
  re_hashBefore : string;
  re_hashAfter : string;
  re_droppedAll : bool;
  re_badBase : bool;
  re_working : PlanWorking;
}.

(** ** The conflict table *)

Definition drop_op (requested : PlanOp) (reason : RebaseReasonCode) : RebaseOutcome :=
  dropped requested reason None.

(** The verdict is a rejection. *)
Definition is_reject (v : AdmissionVerdict) : bool :=
  match v with reject _ => true | grant _ _ => false end.

Section Rebase.
Context {W : Type}.
Variable context : RebaseContext W.
Implicit Types (ev : Evaluating W).

Definition push_admission ev (i : nat) (id : string) (v : AdmissionVerdict) : Evaluating W :=
  mkEvaluating (ev_admissions ev ++ [mkAdmission i (Some id) v]) (ev_assigned ev) (ev_world ev).

Definition assign ev (i : nat) (id : string) : Evaluating W :=
  mkEvaluating (ev_admissions ev) (ev_assigned ev ++ [(i, id)]) (ev_world ev).

Definition in_world ev (w : W) : Evaluating W :=
  mkEvaluating (ev_admissions ev) (ev_assigned ev) w.

(** [add_task], by the three stages of the source: the lineage at the head,
    reuse by reference, then a fresh node under admission. *)
Definition lineage_drop ev (t : AddTask) : option RebaseReasonCode :=
  continues ← at_lineage t;
  check ← c_lineageCheck context;
  match check (ev_world ev) continues with
  | lineage_ok => None
  | check_busy => Some lineage_busy
  | check_exhausted => Some lineage_exhausted
  end.

Definition try_reuse ev (t : AddTask) (i : nat) : option ReuseTransform * Evaluating W :=
  if decide (at_fresh t = Some true) then (None, ev)
  else
    match c_dedup context with
    | None => (None, ev)
    | Some dedup =>
        let '(r, w) := dedup (ev_world ev) t i in
        match r with
        | None => (None, in_world ev w)
        | Some reuse =>
            (Some reuse,
             assign (push_admission (in_world ev w) i (ru_nodeId reuse) (ru_admission reuse)) i
               (ru_nodeId reuse))
        end
    end.

Definition admit_fresh ev (t : AddTask) (i : nat) : RebaseOutcome * Evaluating W :=
  let '(id, w) := c_mintNodeId context (ev_world ev) in
  let ev := in_world ev w in
  match c_admitAdd context with
  | None => (applied (applied_add id t), assign ev i id)
  | Some admitAdd =>
      let '(v, w) := admitAdd (ev_world ev) t id i in
      let ev := push_admission (in_world ev w) i id v in
      if is_reject v then (drop_op (add_task t) admission_denied, ev)
      else (applied (applied_add id t), assign ev i id)
  end.

Definition evaluate_add ev (t : AddTask) (i : nat) : RebaseOutcome * Evaluating W :=
  match lineage_drop ev t with
  | Some code => (drop_op (add_task t) code, ev)
  | None =>
      let '(r, ev) := try_reuse ev t i in
      match r with
      | Some reuse => (transformed (add_task t) (ru_applied reuse) reuse_by_reference, ev)
      | None => admit_fresh ev t i
      end
  end.

Definition evaluate_amend (op : PlanOp) (id : string) (patch : TaskSpecPatch) (n : PlanNode)
    : RebaseOutcome :=
  match status n with
  | pending | ready => applied (applied_amend id patch)
  | parked => transformed op (applied_amend id patch) checkpoint_discarded
  | running => drop_op op node_running
  | escalated => drop_op op node_escalated
  | _ => drop_op op terminal_status
  end.

Definition evaluate_park (op : PlanOp) (id : string) (n : PlanNode) : RebaseOutcome :=
  match status n with
  | pending | ready => applied (applied_park id false)
  | running => applied (applied_park id true)
  | escalated => drop_op op node_escalated
  | parked => drop_op op already_parked
  | _ => drop_op op terminal_status
  end.

Definition evaluate_unpark ev (op : PlanOp) (id : string) (n : PlanNode) (i : nat)
    : RebaseOutcome * Evaluating W :=
  if decide (status n = parked) then
    let unpark := applied (applied_unpark id (bool_decide (checkpointRef n = None))) in
    match c_admitUnpark context with
    | None => (unpark, ev)
    | Some admitUnpark =>
        let '(v, w) := admitUnpark (ev_world ev) id n i in
        let ev := push_admission (in_world ev w) i id v in
        if is_reject v then (drop_op op admission_denied, ev) else (unpark, ev)
    end
  else (drop_op op (if isTerminalPlanStatus (status n) then terminal_status else not_parked), ev).

Definition evaluate_cancel (plan : TaskPlan) (op : PlanOp) (id : string) (reason : option string)
    (n : PlanNode) : option RebaseOutcome :=
  match status n with
  | done => Some (drop_op op node_already_done)
  | failed | cancelled | skipped => Some (drop_op op terminal_status)
  | running => Some (applied (applied_cancel id reason true []))
  | escalated => Some (transformed op (applied_cancel id reason true []) resolved_escalation)
  | pending | ready | parked =>
      (fun c => applied (applied_cancel id reason false c)) <$> cascadeOf plan id
  end.

Definition evaluate_reprioritize (op : PlanOp) (id : string) (p : json) (n : PlanNode)
    : RebaseOutcome :=
  if isTerminalPlanStatus (status n) then drop_op op terminal_status
  else applied (applied_reprioritize id p).

Definition evaluate_rewire (plan : TaskPlan) (op : PlanOp) (id : string) (ds : list string)
    (n : PlanNode) : option RebaseOutcome :=
  cyclic ← wouldCreateDepCycle plan id ds;
  Some
    (if cyclic : bool then drop_op op dep_cycle
     else if decide (status n = running) then drop_op op node_running
     else
       let ontoDone := List.filter (fun dep => has_status plan dep done) ds in
       match ontoDone with
       | [] => applied (applied_rewire id ds)
       | _ =>
           transformed op
             (applied_rewire id (List.filter (fun dep => negb (bool_decide (dep ∈ ontoDone))) ds))
             immediate_satisfaction
       end).

Definition evaluate_waive (plan : TaskPlan) (op : PlanOp) (id dep : string) (n : PlanNode)
    : RebaseOutcome :=
  if negb (bool_decide (dep ∈ deps n)) then drop_op op no_such_dep
  else if bool_decide (dep ∈ waivedDeps n) then drop_op op already_waived
  else if has_status plan dep done then
    dropped op dep_already_resolved (doneRefs (c_state context) !! dep)
  else applied (applied_waive id dep).

(** The target of an operation on an existing node. *)
Definition target_of (op : PlanOp) : string :=
  match op with
  | add_task _ => ""
  | amend_task id _ | park_task id | unpark_task id | cancel_task id _
  | reprioritize id _ | rewire_deps id _ | waive_dep id _ => id
  end.

(** The switch on an operation against node [n]. *)
Definition evaluate_on (plan : TaskPlan) ev (op : PlanOp) (n : PlanNode) (i : nat)
    : option (RebaseOutcome * Evaluating W) :=
  match op with
  | add_task t => Some (evaluate_add ev t i)
  | amend_task id patch => Some (evaluate_amend op id patch n, ev)
  | park_task id => Some (evaluate_park op id n, ev)
  | unpark_task id => Some (evaluate_unpark ev op id n i)
  | cancel_task id reason => (fun o => (o, ev)) <$> evaluate_cancel plan op id reason n
  | reprioritize id p => Some (evaluate_reprioritize op id p n, ev)
  | rewire_deps id ds => (fun o => (o, ev)) <$> evaluate_rewire plan op id ds n
  | waive_dep id dep => Some (evaluate_waive plan op id dep n, ev)
  end.

Definition evaluateOp (plan : TaskPlan) ev (op : PlanOp) (i : nat)
    : option (RebaseOutcome * Evaluating W) :=
  if c_frozen context then Some (drop_op op plan_frozen, ev)
  else
    match op with
    | add_task t => Some (evaluate_add ev t i)
    | _ =>
        match node_at plan (target_of op) with
        | None => Some (drop_op op no_such_dep, ev)
        | Some n => evaluate_on plan ev op n i
        end
    end.

Variable stringify_frac : Z → positive → string.
Variable sha256 : string → string.

(** The loop of [rebasePlanRevision], from operation [i]. *)
Fixpoint rebase_ops (w : PlanWorking) ev (i : nat) (ops : list PlanOp)
    : result PlanError (PlanWorking * Evaluating W * list RebaseOutcome) :=
  match ops with
  | [] => Ok (w, ev, [])
  | op :: ops' =>
      match evaluateOp (w_plan w) ev op i with
      | None => Err BoundExceeded
      | Some (outcome, ev') =>
          w' ← match applied_of outcome with
               | None => Ok w
               | Some a =>
                   applyAppliedOp stringify_frac sha256 w a
                     (lineageOfAdmission (ev_admissions ev') i)
               end;
          '(w'', ev'', outcomes) ← rebase_ops w' ev' (S i) ops';
          Ok (w'', ev'', outcome :: outcomes)
      end
  end.

Definition current_hash (plan : TaskPlan) : string :=
  planHash (deriverV2 stringify_frac sha256) plan.

Definition rebasePlanRevision (request : PlanReviseRequest) (world : W)
    : result PlanError (RebaseEvaluation * W) :=
  let state := c_state context in
  let planHashBefore := current_hash (f_plan state) in
  if decide (c_digestPlanHashFor context (digestSeq (rq_base request)) =
             Some (ref_planHash (rq_base request)))
  then
    '(w, ev, outcomes) ← rebase_ops (working_of state) (mkEvaluating [] [] world) 0 (rq_ops request);
    let droppedAll := forallb is_dropped outcomes in
    let plan := close_revision (w_plan w) droppedAll in
    Ok (mkEvaluation outcomes (ev_assigned ev) (ev_admissions ev) planHashBefore
          (current_hash plan) droppedAll false (mkWorking plan (w_specs w)), ev_world ev)
  else
    Ok (mkEvaluation (map (fun op => drop_op op bad_base) (rq_ops request)) [] []
          planHashBefore planHashBefore true true (working_of state), world).
End Rebase.

(** ** What an evaluation records *)

Section Evaluation.
Context {W : Type}.
Variable context : RebaseContext W.
Implicit Types (ev : Evaluating W).

(** No outcome of the table is a bad base, and a waiver refused because the
    dependency is done reads the entry that resolved it. *)
Definition table_outcome (plan : TaskPlan) (o : RebaseOutcome) : Prop :=
  match o with
  | dropped _ bad_base _ => False
  | dropped _ dep_already_resolved r =>
      ∃ dep, has_status plan dep done = true ∧ r = doneRefs (c_state context) !! dep
  | _ => True
  end.

(** The admissions of operation [i] are pushed while it is evaluated. *)
Definition records (plan : TaskPlan) ev ev' (i : nat) (o : RebaseOutcome) : Prop :=
  (∃ more, ev_admissions ev' = ev_admissions ev ++ more ∧ ∀ a, a ∈ more → opIndex a = i) ∧
  table_outcome plan o.

Lemma records_push plan ev ev' i id v o :
  ev_admissions ev' = ev_admissions ev ++ [mkAdmission i id v] → table_outcome plan o →
  records plan ev ev' i o.
Proof.
  intros He Ho. split; [|done]. eexists. split; [exact He|]. by intros a ->%list_elem_of_singleton.
Qed.

Lemma records_same plan ev ev' i o :
  ev_admissions ev' = ev_admissions ev → table_outcome plan o → records plan ev ev' i o.
Proof.
  intros He Ho. split; [|done]. exists []. rewrite app_nil_r. split; [done|set_solver].
Qed.

Hint Extern 2 (table_outcome _ _) => exact I : rulvar.
Hint Resolve records_push records_same : rulvar.

Lemma evaluate_add_records plan ev t i o ev' :
  evaluate_add context ev t i = (o, ev') → records plan ev ev' i o.
Proof.
  unfold evaluate_add, lineage_drop.
  destruct (at_lineage t ≫= _) as [code|] eqn:El.
  { intros [= <- <-]. apply records_same; [done|].
    destruct (at_lineage t); [|done]. cbn in El. destruct (c_lineageCheck context); [|done].
    cbn in El. by case_match; simplify_eq. }
  clear El. unfold try_reuse, admit_fresh.
  repeat case_match; intros; simplify_eq; eauto with rulvar.
Qed.

Lemma evaluate_waive_table plan op id dep n : table_outcome plan (evaluate_waive context plan op id dep n).
Proof. unfold evaluate_waive. repeat case_match; try exact I. by exists dep. Qed.

Lemma evaluateOp_records plan ev op i o ev' :
  evaluateOp context plan ev op i = Some (o, ev') → records plan ev ev' i o.
Proof.
  unfold evaluateOp. destruct (c_frozen context); [by intros [= <- <-]; auto with rulvar|].
  assert (∀ n, evaluate_on context plan ev op n i = Some (o, ev') → records plan ev ev' i o) as Hon.
  { intros n. destruct op; cbn [evaluate_on].
    - intros [= H]. by eapply evaluate_add_records.
    - intros [= <- <-]. apply records_same; [done|]. unfold evaluate_amend. by case_match.
    - intros [= <- <-]. apply records_same; [done|]. unfold evaluate_park. by case_match.
    - unfold evaluate_unpark. repeat case_match; intros; simplify_eq; eauto with rulvar.
    - intros (o' & Ho & [= <- <-])%fmap_Some. apply records_same; [done|]. revert Ho.
      unfold evaluate_cancel. destruct (status n), (cascadeOf plan id); intros; by simplify_eq/=.
    - intros [= <- <-]. apply records_same; [done|]. unfold evaluate_reprioritize. by case_match.
    - intros (o' & Ho & [= <- <-])%fmap_Some. apply records_same; [done|]. revert Ho.
      unfold evaluate_rewire. destruct (wouldCreateDepCycle plan id ds) as [[]|]; cbn;
        repeat case_match; intros; by simplify_eq.
    - intros [= <- <-]. apply records_same; [done|]. apply evaluate_waive_table. }
  destruct op; try (destruct (node_at plan _); [apply Hon|by intros [= <- <-]; auto with rulvar]).
  intros [= H]. by eapply evaluate_add_records.
Qed.

(** Admissions of later operations do not change what an earlier one reads. *)
Lemma lineage_prefix l more i :
  (∀ a, a ∈ more → opIndex a ≠ i) → lineageOfAdmission (l ++ more) i = lineageOfAdmission l i.
Proof.
  intros Hm. unfold lineageOfAdmission. rewrite find_first_app.
  destruct (find_first _ l); [done|].
  rewrite (proj2 (find_first_None _ more)); [done|].
  intros a Ha. apply bool_decide_eq_false. auto.
Qed.

Variable stringify_frac : Z → positive → string.
Variable sha256 : string → string.

Lemma rebase_ops_replays ops w ev i w' ev' outs :
  rebase_ops context stringify_frac sha256 w ev i ops = Ok (w', ev', outs) →
  (∃ more, ev_admissions ev' = ev_admissions ev ++ more ∧ ∀ a, a ∈ more → i ≤ opIndex a) ∧
  apply_outcomes stringify_frac sha256 (ev_admissions ev') i w outs = Ok w' ∧
  (∀ o, o ∈ outs → ∃ w1, (∀ P : PlanWorking → Prop, P w →
     (∀ w2 a lin w3, P w2 → applyAppliedOp stringify_frac sha256 w2 a lin = Ok w3 → P w3) → P w1) ∧
     table_outcome (w_plan w1) o) ∧ length outs = length ops.
Proof.
  revert w ev i w' ev' outs. induction ops as [|op ops IH]; intros w ev i w' ev' outs; cbn.
  { intros [= <- <- <-]. split_and!; [|done|set_solver|done].
    exists []. rewrite app_nil_r. split; [done|set_solver]. }
  destruct (evaluateOp context (w_plan w) ev op i) as [[o ev1]|] eqn:Eo; [|done].
  apply evaluateOp_records in Eo as [(m1 & Hm1 & Hi1) Hto].
  intros (w1 & Hw1 & H)%bind_ok. apply bind_ok in H as ([[w2 ev2] outs2] & H2 & [= <- <- <-]).
  destruct (IH _ _ _ _ _ _ H2) as ((m2 & Hm2 & Hi2) & Happ & Hto2 & Hlen).
  split_and!; [| | |cbn; by rewrite Hlen].
  - exists (m1 ++ m2). rewrite app_assoc, <- Hm1. split; [done|].
    intros a [Ha|Ha]%elem_of_app; [by rewrite (Hi1 a Ha)|]. apply Hi2 in Ha. lia.
  - cbn. rewrite Hm2, lineage_prefix.
    2: { intros a Ha. apply Hi2 in Ha. lia. }
    rewrite Hw1. cbn [mbind result_bind]. by rewrite <- Hm2.
  - intros o' [->|Ho]%elem_of_cons; [by exists w; auto|].
    destruct (Hto2 o' Ho) as (w3 & Hreach & Ht). exists w3. split; [|done].
    intros P Hw HP. apply Hreach; [|done].
    destruct (applied_of o); simplify_eq; eauto.
Qed.

Lemma table_not_bad_base plan o : table_outcome plan o → is_bad_base o = false.
Proof. by destruct o as [| |? []]. Qed.
End Evaluation.

(** ** A revision replays as it was evaluated *)

Section Replay.
Context {W : Type}.
Variable context : RebaseContext W.
Variable stringify_frac : Z → positive → string.
Variable sha256 : string → string.
Variable deriverFor : N → option KeyDeriver.
Abbreviation rebase := (rebasePlanRevision context stringify_frac sha256).

(** The plan.revision entry the caller appends. *)
Definition revision_entry (request : PlanReviseRequest) (re : RebaseEvaluation) (seq v : N)
    : PlanEntry :=
  mkPlanEntry seq v (plan_revision (Some
    (mkRevisionValue (rq_base request) (rq_ops request) (re_outcomes re) (re_admissions re)
       (re_hashBefore re) (re_hashAfter re)))).

(** The fold state the evaluation announces. *)
Definition announced (re : RebaseEvaluation) : PlanFoldState :=
  mkFold (w_plan (re_working re)) (w_specs (re_working re))
    (if re_badBase re then badBaseStreak (c_state context) + 1 else 0)
    (doneRefs (c_state context)).

Lemma all_bad_base_none l :
  (∀ o, o ∈ l → is_bad_base o = false) → all_bad_base l = false.
Proof.
  destruct l as [|o l]; [done|]. intros H. cbn. by rewrite (H o) by left.
Qed.

Lemma all_bad_base_ops ops :
  ops ≠ [] → all_bad_base (map (fun op => drop_op op bad_base) ops) = true.
Proof.
  destruct ops as [|op ops]; [done|]. intros _. cbn. induction ops; cbn; auto.
Qed.

(** C10: The entry a revision is journaled as folds to exactly the plan, the
    specs and the guard streak its live evaluation announced, whatever the
    admission, lineage and reuse hooks answered; replay consults none of them. *)
Theorem rebase_replays request world re world' seq v :
  rebase request world = Ok (re, world') →
  rq_ops request ≠ [] →
  default (deriverV2 stringify_frac sha256) (deriverFor v) = deriverV2 stringify_frac sha256 →
  applyPlanEntry stringify_frac sha256 deriverFor (c_state context)
    (revision_entry request re seq v) = Ok (announced re).
Proof.
  intros Hr Hops Hd. unfold rebasePlanRevision in Hr.
  assert (∀ e after p, pe_hashVersion e = v →
            verifyHash stringify_frac sha256 deriverFor e after
              (current_hash stringify_frac sha256 p) p = Ok ()) as Hv.
  { intros e after p <-. apply verifyHash_ok. unfold entry_deriver. by rewrite Hd. }
  unfold revision_entry, applyPlanEntry, apply_revision. cbn [pe_payload].
  case_decide as Hbase.
  - apply bind_ok in Hr as ([[w ev] outs] & Hr & [= <- <-]).
    apply rebase_ops_replays in Hr as (_ & Happ & Hto & _).
    cbn [re_outcomes re_admissions re_hashBefore re_hashAfter rv_hashBefore rv_hashAfter outcomes
         admissions].
    rewrite Hv by done. cbn [mbind result_bind].
    rewrite all_bad_base_none, Happ.
    2: { intros o Ho. destruct (Hto o Ho) as (w1 & _ & Ht). by eapply table_not_bad_base. }
    cbn [mbind result_bind]. by rewrite Hv.
  - injection Hr as <- <-.
    cbn [re_outcomes re_admissions re_hashBefore re_hashAfter rv_hashBefore rv_hashAfter outcomes].
    rewrite Hv by done. cbn [mbind result_bind]. rewrite all_bad_base_ops by done.
    by rewrite Hv.
Qed.
End Replay.

(** ** What a legal operation keeps *)

(** The statuses a revision never changes. *)
Definition fixed_status (s : PlanNodeStatus) : bool :=
  isTerminalPlanStatus s || bool_decide (s = running).

Definition status_kept (plan plan' : TaskPlan) : Prop :=
  ∀ id n, node_at plan id = Some n → fixed_status (status n) = true →
    ∃ n', node_at plan' id = Some n' ∧ status n' = status n.

(** The identifiers a plan mentions, as nodes or as dependencies. *)
Definition mentions (plan : TaskPlan) (x : string) : Prop :=
  is_Some (node_at plan x) ∨ ∃ id, x ∈ deps_at plan id.

Lemma status_kept_refl plan : status_kept plan plan.
Proof. intros id n Hn _. eauto. Qed.

Lemma status_kept_trans p1 p2 p3 : status_kept p1 p2 → status_kept p2 p3 → status_kept p1 p3.
Proof.
  intros H12 H23 id n Hn Hf. destruct (H12 id n Hn Hf) as (n2 & Hn2 & Hs).
  rewrite <- Hs in *. eauto.
Qed.

(** A plan with the same nodes and edges, and no fixed status changed. *)
Record keeps (plan plan' : TaskPlan) : Prop := {
  k_deps : ∀ x, deps_at plan' x = deps_at plan x;
  k_dom : ∀ x, is_Some (node_at plan' x) ↔ is_Some (node_at plan x);
  k_status : status_kept plan plan';
}.

Lemma keeps_refl plan : keeps plan plan.
Proof. split; [done..|apply status_kept_refl]. Qed.

Lemma keeps_trans p1 p2 p3 : keeps p1 p2 → keeps p2 p3 → keeps p1 p3.
Proof.
  intros [Hd Hk Hs] [Hd' Hk' Hs']. split.
  - intros x. by rewrite Hd', Hd.
  - intros x. by rewrite Hk', Hk.
  - by eapply status_kept_trans.
Qed.

Lemma keeps_acyclic plan plan' : keeps plan plan' → acyclic_plan plan → acyclic_plan plan'.
Proof. intros Hk. apply acyclic_mono. intros x y. by rewrite (k_deps _ _ Hk). Qed.

Lemma keeps_mentions plan plan' x : keeps plan plan' → mentions plan' x → mentions plan x.
Proof.
  intros Hk [Hx|[id Hx]]; [left; by apply (k_dom _ _ Hk)|right]. exists id.
  by rewrite <- (k_deps _ _ Hk).
Qed.

Lemma put_status_kept plan n m :
  node_at plan (nodeId n) = Some m → (fixed_status (status m) = true → status n = status m) →
  status_kept plan (put_node plan n).
Proof.
  intros Hm Hs id k Hk Hf. rewrite node_at_put. case_decide as Hid; [|by eauto].
  subst id. rewrite Hm in Hk. injection Hk as <-. eauto.
Qed.

Lemma put_keeps plan n m :
  node_at plan (nodeId n) = Some m → deps n = deps m →
  (fixed_status (status m) = true → status n = status m) → keeps plan (put_node plan n).
Proof.
  intros Hm Hd Hs. split; [| |by eapply put_status_kept].
  - intros x. unfold deps_at. rewrite node_at_put. case_decide; [|done]. subst x. by rewrite Hm.
  - intros x. rewrite node_at_put. case_decide; [|done]. subst x. rewrite Hm.
    split; intros; by eexists.
Qed.

Lemma ready_status_kept plan : status_kept plan (recomputePlanReadiness plan).
Proof.
  intros id n Hn Hf. exists (ready_node plan n). rewrite node_at_recompute, Hn. split; [done|].
  unfold ready_node. by destruct (status n) eqn:E; rewrite ?E.
Qed.

Section Legal.
Variable stringify_frac : Z → positive → string.
Variable sha256 : string → string.
Abbreviation apply_op := (applyAppliedOp stringify_frac sha256).
Abbreviation wf := (working_wf stringify_frac sha256).

(** What the conflict table has established when an operation is applied. *)
Definition legal_op (plan : TaskPlan) (op : AppliedPlanOp) : Prop :=
  match op with
  | applied_add id t => ¬ mentions plan id ∧ id ∉ default [] (at_deps t)
  | applied_amend id _ => is_Some (node_at plan id)
  | applied_park id requestOnly =>
      ∃ n, node_at plan id = Some n ∧
        (requestOnly = false → status n = pending ∨ status n = ready)
  | applied_unpark id _ => ∃ n, node_at plan id = Some n ∧ status n = parked
  | applied_cancel id _ requestOnly cascade =>
      ∃ n, node_at plan id = Some n ∧
        (requestOnly = false →
           (status n = pending ∨ status n = ready ∨ status n = parked) ∧
           ∀ x, x ∈ cascade → ∃ m, node_at plan x = Some m ∧ fixed_status (status m) = false)
  | applied_reprioritize id _ => is_Some (node_at plan id)
  | applied_rewire id ds => is_Some (node_at plan id) ∧ acyclic (depsOf plan id ds)
  | applied_waive id _ => is_Some (node_at plan id)
  end.

(** What applying it yields. *)
Definition op_result (plan : TaskPlan) (op : AppliedPlanOp) (plan' : TaskPlan) : Prop :=
  acyclic_plan plan' ∧ status_kept plan plan' ∧
  ∀ x, mentions plan' x → mentions plan x ∨
    match op with
    | applied_add id t => x = id ∨ x ∈ default [] (at_deps t)
    | applied_rewire _ ds => x ∈ ds
    | _ => False
    end.

Lemma keeps_result plan op plan' :
  acyclic_plan plan → keeps plan plan' → op_result plan op plan'.
Proof.
  intros Ha Hk. split_and!; [by eapply keeps_acyclic|by apply k_status|].
  intros x Hx. left. by eapply keeps_mentions.
Qed.

(** An update in place. *)
Lemma update_result w id m n op spec :
  wf w → acyclic_plan (w_plan w) → node_at (w_plan w) id = Some m → nodeId n = nodeId m →
  deps n = deps m → (fixed_status (status m) = true → status n = status m) →
  ∃ w', Ok (E := PlanError) (withNode w n spec) = Ok w' ∧ op_result (w_plan w) op (w_plan w').
Proof.
  intros Hw Ha Hm Hi Hd Hs. eexists. split; [done|]. apply keeps_result; [done|].
  apply put_keeps with m; [|done..]. by rewrite Hi, (wf_key _ _ w Hw id m Hm).
Qed.

Lemma skip_cascade_keeps l w :
  wf w → (∀ x, x ∈ l → ∃ m, node_at (w_plan w) x = Some m ∧
            (isTerminalPlanStatus (status m) = true ∨ fixed_status (status m) = false)) →
  ∃ w', skip_cascade w l = Ok w' ∧ keeps (w_plan w) (w_plan w').
Proof.
  revert w. induction l as [|x l IH]; intros w Hw Hl; cbn [skip_cascade].
  { exists w. split; [done|apply keeps_refl]. }
  destruct (Hl x ltac:(left)) as (m & Hm & Hsm).
  rewrite (nodeOf_some _ _ _ Hm). cbn [mbind result_bind].
  pose proof (wf_key _ _ w Hw x m Hm) as Hx.
  destruct (isTerminalPlanStatus (status m)) eqn:Et.
  { apply IH; [done|]. intros y Hy. apply Hl. by right. }
  destruct Hsm as [|Hfm]; [done|].
  assert (keeps (w_plan w) (put_node (w_plan w) (with_status m skipped))) as Hk.
  { apply put_keeps with m; cbn; [by rewrite Hx|done|congruence]. }
  destruct (IH (withNode w (with_status m skipped) None)) as (w' & Hw' & Hk').
  - eapply withNode_wf_update; done.
  - intros y Hy. destruct (Hl y ltac:(by right)) as (k & Hkn & Hkf).
    rewrite w_plan_withNode, node_at_put. case_decide; [|by eauto].
    eexists. split; [done|]. by left.
  - exists w'. split; [done|]. by eapply keeps_trans.
Qed.

Lemma fixed_parts s : fixed_status s = false → isTerminalPlanStatus s = false ∧ s ≠ running.
Proof. unfold fixed_status. rewrite orb_false_iff, bool_decide_eq_false. done. Qed.

Lemma transition_allowed n to :
  fixed_status (status n) = false → status n ≠ to → to ≠ running →
  assertPlanTransition n to = Ok ().
Proof. intros [? ?]%fixed_parts ? ?. by apply assertPlanTransition_ok. Qed.

Lemma add_result plan n :
  acyclic_plan plan → ¬ mentions plan (nodeId n) → nodeId n ∉ deps n →
  acyclic_plan (put_node plan n) ∧ status_kept plan (put_node plan n) ∧
  ∀ x, mentions (put_node plan n) x → mentions plan x ∨ x = nodeId n ∨ x ∈ deps n.
Proof.
  intros Ha Hf Hself.
  assert (∀ x, deps_at (put_node plan n) x = if decide (nodeId n = x) then deps n else deps_at plan x)
    as Hd.
  { intros x. unfold deps_at. rewrite node_at_put. by case_decide. }
  split_and!.
  - unfold acyclic_plan. intros x Hx.
    assert (∀ a b, tc (edge (deps_at (put_node plan n))) a b → b ≠ nodeId n) as Hne.
    { intros a b Hab. induction Hab as [a b Hab|]; [|done].
      unfold edge in Hab. rewrite Hd in Hab. intros ->. case_decide; [done|].
      apply Hf. right. by exists a. }
    destruct (tc_detour (deps_at plan) (deps_at (put_node plan n)) (nodeId n) x x) as [H|[H _]];
      [|done|by eapply Ha|].
    + intros z Hz. rewrite Hd. by case_decide.
    + apply rtc_tc in H as [->|H]; by eapply Hne.
  - intros id m Hm _. exists m. rewrite node_at_put. case_decide; [|done]. subst id.
    exfalso. apply Hf. left. by exists m.
  - intros x [Hx|[id Hx]].
    + rewrite node_at_put in Hx. case_decide; [by auto|]. left. by left.
    + rewrite Hd in Hx. case_decide; [by auto|]. left. right. by exists id.
Qed.

(** A legal operation applies, and keeps the plan acyclic and the fixed
    statuses. *)
Lemma legal_applies w op lin :
  wf w → acyclic_plan (w_plan w) → legal_op (w_plan w) op →
  ∃ w', apply_op w op lin = Ok w' ∧ op_result (w_plan w) op (w_plan w').
Proof.
  intros Hw Ha. destruct op; cbn [legal_op applyAppliedOp].
  - intros [Hf Hself]. eexists. split; [done|]. by apply add_result.
  - intros [n Hn]. rewrite (nodeOf_some _ _ _ Hn). cbn [mbind result_bind].
    destruct (wf_spec _ _ w Hw id n Hn) as (spec & -> & _).
    eapply update_result; try done; by case_decide.
  - intros (n & Hn & Hs). rewrite (nodeOf_some _ _ _ Hn). cbn [mbind result_bind].
    destruct requestOnly; [by eapply update_result|].
    assert (fixed_status (status n) = false) as Hfx by (by destruct (Hs eq_refl) as [-> | ->]).
    rewrite transition_allowed; [|done|by destruct (Hs eq_refl) as [-> | ->]|done].
    eapply update_result; try done. congruence.
  - intros (n & Hn & Hs). rewrite (nodeOf_some _ _ _ Hn). cbn [mbind result_bind].
    eapply update_result; try done; case_match; try done; cbn; by rewrite Hs.
  - intros (n & Hn & Hs). rewrite (nodeOf_some _ _ _ Hn). cbn [mbind result_bind].
    destruct requestOnly; [by eapply update_result|].
    destruct (Hs eq_refl) as [Hst Hc].
    assert (fixed_status (status n) = false) as Hfx by (by destruct Hst as [->|[->| ->]]).
    rewrite transition_allowed; [|done|by destruct Hst as [->|[->| ->]]|done].
    cbn [mbind result_bind]. pose proof (wf_key _ _ w Hw id n Hn) as Hid.
    destruct (skip_cascade_keeps cascade (withNode w (with_status n cancelled) None))
      as (w' & Hw' & Hk).
    + eapply withNode_wf_update; done.
    + intros x Hx. destruct (Hc x Hx) as (m & Hm & Hmf).
      rewrite w_plan_withNode, node_at_put. case_decide; eexists; (split; [done|]); [by left|by right].
    + exists w'. split; [done|]. apply keeps_result; [done|]. eapply keeps_trans; [|exact Hk].
      apply put_keeps with n; cbn; [by rewrite Hid|done|congruence].
  - intros [n Hn]. rewrite (nodeOf_some _ _ _ Hn). by eapply update_result.
  - intros [[n Hn] Hac]. rewrite (nodeOf_some _ _ _ Hn). cbn [mbind result_bind].
    eexists. split; [done|]. pose proof (wf_key _ _ w Hw id n Hn) as Hid.
    set (n' := with_edges n ds _).
    assert (∀ x, deps_at (put_node (w_plan w) n') x = depsOf (w_plan w) id ds x) as Hd.
    { intros x. unfold deps_at, depsOf. rewrite node_at_put.
      change (nodeId n') with (nodeId n). rewrite Hid.
      destruct (decide (id = x)), (decide (x = id)); done || congruence. }
    split_and!.
    + revert Hac. apply acyclic_mono. intros x y. by rewrite <- Hd.
    + apply put_status_kept with n; [cbn; by rewrite Hid|done].
    + intros x [Hx|[a Hx]].
      * left. left. rewrite w_plan_withNode, node_at_put in Hx. cbn in Hx.
        case_decide; [|done]. subst x. rewrite Hid. by exists n.
      * rewrite w_plan_withNode, Hd in Hx. unfold depsOf in Hx.
        case_decide; [by right|]. left. right. by exists a.
  - intros [n Hn]. rewrite (nodeOf_some _ _ _ Hn). by eapply update_result.
Qed.
End Legal.

(** ** The hooks *)

(** What a revision relies on in its hooks: [used w] holds of the identifiers
    known when the hooks are in state [w]; a minted identifier is a new one, and
    reuse by reference adds the requested task under a new identifier. *)
Class HookLaws {W : Type} (context : RebaseContext W) := {
  used : W → string → Prop;
  mint_fresh w id w' :
    c_mintNodeId context w = (id, w') →
    ¬ used w id ∧ used w' id ∧ ∀ x, used w x → used w' x;
  admitAdd_used f w t id i v w' :
    c_admitAdd context = Some f → f w t id i = (v, w') → ∀ x, used w x → used w' x;
  admitUnpark_used f w id n i v w' :
    c_admitUnpark context = Some f → f w id n i = (v, w') → ∀ x, used w x → used w' x;
  dedup_used f w t i r w' :
    c_dedup context = Some f → f w t i = (r, w') → ∀ x, used w x → used w' x;
  dedup_adds f w t i reuse w' :
    c_dedup context = Some f → f w t i = (Some reuse, w') →
    ∃ t', ru_applied reuse = applied_add (ru_nodeId reuse) t' ∧ at_deps t' = at_deps t ∧
      ¬ used w (ru_nodeId reuse) ∧ used w' (ru_nodeId reuse);
}.

(** The identifiers an operation names as dependencies. *)
Definition op_deps (op : PlanOp) : list string :=
  match op with
  | add_task t => default [] (at_deps t)
  | rewire_deps _ ds => ds
  | _ => []
  end.

Section Total.
Context {W : Type} (context : RebaseContext W) `{Laws : !HookLaws context}.
Implicit Types (ev : Evaluating W).

Definition grows ev ev' : Prop := ∀ x, used (ev_world ev) x → used (ev_world ev') x.

(** What the evaluation of an operation establishes. *)
Definition evaluated (plan : TaskPlan) ev (op : PlanOp) (o : RebaseOutcome) ev' : Prop :=
  grows ev ev' ∧
  ∀ a, applied_of o = Some a →
    legal_op plan a ∧
    match a with
    | applied_add id t => used (ev_world ev') id ∧ default [] (at_deps t) = op_deps op
    | applied_rewire _ ds => ∀ x, x ∈ ds → x ∈ op_deps op
    | _ => True
    end.

Lemma evaluated_drop plan ev op o ev' :
  grows ev ev' → applied_of o = None → evaluated plan ev op o ev'.
Proof. intros Hg Ho. split; [done|]. by rewrite Ho. Qed.

Lemma grows_refl ev : grows ev ev.
Proof. by intros x. Qed.

Hint Resolve evaluated_drop grows_refl : rulvar.

Lemma fresh_legal plan w id t :
  (∀ x, mentions plan x → used w x) → (∀ x, x ∈ default [] (at_deps t) → used w x) →
  ¬ used w id → legal_op plan (applied_add id t).
Proof. intros Hp Ht Hid. split; intros H; apply Hid; auto. Qed.

Lemma admit_fresh_evaluated plan ev t i o ev' :
  (∀ x, mentions plan x → used (ev_world ev) x) →
  (∀ x, x ∈ default [] (at_deps t) → used (ev_world ev) x) →
  admit_fresh context ev t i = (o, ev') → evaluated plan ev (add_task t) o ev'.
Proof.
  intros Hp Ht. unfold admit_fresh.
  destruct (c_mintNodeId context (ev_world ev)) as [id w] eqn:Em.
  destruct (mint_fresh _ _ _ Em) as (Hf & Hu & Hg).
  assert (∀ ev2, ev_world ev2 = w ∨ (∀ x, used w x → used (ev_world ev2) x) →
            evaluated plan ev (add_task t) (applied (applied_add id t)) ev2) as Happ.
  { intros ev2 Hw2. split; [destruct Hw2 as [Hw2|Hw2]; unfold grows; rewrite ?Hw2; auto|].
    intros a [= <-]. split; [by eapply fresh_legal|].
    split; [destruct Hw2 as [-> |Hw2]; auto|done]. }
  destruct (c_admitAdd context) as [f|] eqn:Ef.
  2: { intros [= <- <-]. apply Happ. by left. }
  destruct (f _ t id i) as [v w2] eqn:Ev. cbn in Ev.
  pose proof (admitAdd_used _ _ _ _ _ _ _ Ef Ev) as Hg2.
  case_match; intros [= <- <-]; [|by apply Happ; right].
  apply evaluated_drop; [|done]. intros x Hx. cbn. auto.
Qed.

Lemma evaluate_add_evaluated plan ev t i o ev' :
  (∀ x, mentions plan x → used (ev_world ev) x) →
  (∀ x, x ∈ default [] (at_deps t) → used (ev_world ev) x) →
  evaluate_add context ev t i = (o, ev') → evaluated plan ev (add_task t) o ev'.
Proof.
  intros Hp Ht. unfold evaluate_add.
  case_match; [intros [= <- <-]; eauto with rulvar|].
  unfold try_reuse. case_decide; [by apply admit_fresh_evaluated|].
  destruct (c_dedup context) as [f|] eqn:Ef; [|by apply admit_fresh_evaluated].
  destruct (f (ev_world ev) t i) as [[reuse|] w] eqn:Er;
    pose proof (dedup_used _ _ _ _ _ _ Ef Er) as Hg.
  - destruct (dedup_adds _ _ _ _ _ _ Ef Er) as (t' & Ha & Hd & Hf & Hu).
    intros [= <- <-]. split; [done|]. cbn. rewrite Ha. intros a [= <-].
    split; [eapply fresh_legal; rewrite ?Hd; done|]. by rewrite Hd.
  - intros Hadm. apply (admit_fresh_evaluated plan (in_world ev w)) in Hadm as [Hg2 Hadm]; cbn; auto.
    split; [|done]. intros x Hx. by apply Hg2, Hg.
Qed.

Variable stringify_frac : Z → positive → string.
Variable sha256 : string → string.
Abbreviation wf := (working_wf stringify_frac sha256).

Lemma cascade_members_open plan id c x :
  jm_wf (nodes plan) → (∀ id n, node_at plan id = Some n → nodeId n = id) →
  cascadeOf plan id = Some c → x ∈ c →
  ∃ m, node_at plan x = Some m ∧ fixed_status (status m) = false.
Proof.
  intros Hj Hk Hc Hx. destruct (cascadeOf_correct plan id Hj Hk) as (c' & Hc' & _ & Hin).
  rewrite Hc in Hc'. injection Hc' as <-. apply Hin in Hx as [_ Ht].
  apply tc_last in Ht as (y & m & Hm & Hcs & _). exists m. split; [done|].
  unfold cascades in Hcs. unfold fixed_status.
  by destruct (isTerminalPlanStatus (status m)), (bool_decide (status m = running)).
Qed.

(** An outcome that leaves the hooks alone and applies, at most, [a]. *)
Lemma evaluated_applies plan ev op o a :
  applied_of o = Some a → legal_op plan a →
  match a with
  | applied_add _ _ => False
  | applied_rewire _ ds => ∀ x, x ∈ ds → x ∈ op_deps op
  | _ => True
  end → evaluated plan ev op o ev.
Proof.
  intros Ho Hl Ha. split; [apply grows_refl|]. rewrite Ho. intros ? [= <-]. split; [done|].
  by destruct a.
Qed.

Lemma unpark_evaluated plan ev op id n i o ev' :
  node_at plan id = Some n → evaluate_unpark context ev op id n i = (o, ev') →
  evaluated plan ev op o ev'.
Proof.
  intros Hn. unfold evaluate_unpark. case_decide as Hs; [|intros [= <- <-]; by eauto with rulvar].
  assert (∀ b, legal_op plan (applied_unpark id b)) as Hl by (intros b; by exists n).
  destruct (c_admitUnpark context) as [f|] eqn:Ef.
  2: { intros [= <- <-]. by eapply evaluated_applies. }
  destruct (f _ id n i) as [v w2] eqn:Ev.
  pose proof (admitUnpark_used _ _ _ _ _ _ _ Ef Ev) as Hg.
  case_match; intros [= <- <-]; split; [exact Hg|done|exact Hg|].
  intros a [= <-]. by split.
Qed.

Lemma evaluate_on_evaluated w ev op n i :
  wf w → acyclic_plan (w_plan w) →
  (∀ x, mentions (w_plan w) x → used (ev_world ev) x) →
  (∀ x, x ∈ op_deps op → used (ev_world ev) x) →
  node_at (w_plan w) (target_of op) = Some n →
  ∃ o ev', evaluate_on context (w_plan w) ev op n i = Some (o, ev') ∧
    evaluated (w_plan w) ev op o ev'.
Proof.
  intros Hw Ha Hm Hd Hn.
  destruct op as [t|id patch|id|id|id reason|id p|id ds|id dep]; cbn [evaluate_on target_of] in *.
  - destruct (evaluate_add context ev t i) as [o ev'] eqn:E. eexists _, _. split; [done|].
    by eapply evaluate_add_evaluated.
  - eexists _, _. split; [done|]. unfold evaluate_amend.
    destruct (status n); solve [by eauto with rulvar | eapply evaluated_applies; [done|by eexists|done]].
  - eexists _, _. split; [done|]. unfold evaluate_park.
    destruct (status n) eqn:E; solve [by eauto with rulvar |
      eapply evaluated_applies; [done|exists n; rewrite E; by auto|done]].
  - destruct (evaluate_unpark context ev (unpark_task id) id n i) as [o ev'] eqn:E.
    eexists _, _. split; [done|]. by eapply unpark_evaluated.
  - unfold evaluate_cancel.
    destruct (cascadeOf_correct (w_plan w) id (wf_nodes _ _ w Hw) (wf_key _ _ w Hw)) as (c & Hc & _).
    rewrite Hc. pose proof (fun x => cascade_members_open (w_plan w) id c x (wf_nodes _ _ w Hw)
                              (wf_key _ _ w Hw) Hc) as Hopen.
    destruct (status n) eqn:E; cbn; eexists _, _; (split; [done|]);
      first [by eauto with rulvar
            |eapply evaluated_applies; [done|exists n; rewrite E; split; [done|]|done];
             first [done|by auto]].
  - eexists _, _. split; [done|]. unfold evaluate_reprioritize. case_match; [by eauto with rulvar|].
    eapply evaluated_applies; [done|by eexists|done].
  - destruct (wouldCreateDepCycle_correct (w_plan w) id ds) as (b & Hb & Hiff).
    unfold evaluate_rewire. rewrite Hb. cbn. eexists _, _. split; [done|].
    destruct b; [by eauto with rulvar|]. case_decide; [by eauto with rulvar|].
    pose proof (rewired_acyclic _ id ds Ha Hb) as Hac.
    set (onto := List.filter _ ds). clearbody onto.
    destruct onto as [|u onto].
    { eapply evaluated_applies; [done|split; [by eexists|done]|by intros x]. }
    eapply evaluated_applies; [done|split; [by eexists|]|].
    + revert Hac. apply acyclic_mono. intros x y. unfold depsOf. case_decide; [|done].
      rewrite !list_elem_of_In, filter_In. tauto.
    + intros x. rewrite !list_elem_of_In, filter_In. tauto.
  - eexists _, _. split; [done|]. unfold evaluate_waive.
    repeat case_match; try (by eauto with rulvar).
    eapply evaluated_applies; [done|by eexists|done].
Qed.

Lemma evaluateOp_evaluated w ev op i :
  wf w → acyclic_plan (w_plan w) →
  (∀ x, mentions (w_plan w) x → used (ev_world ev) x) →
  (∀ x, x ∈ op_deps op → used (ev_world ev) x) →
  ∃ o ev', evaluateOp context (w_plan w) ev op i = Some (o, ev') ∧
    evaluated (w_plan w) ev op o ev'.
Proof.
  intros Hw Ha Hm Hd. unfold evaluateOp.
  destruct (c_frozen context); [eexists _, _; split; [done|]; by eauto with rulvar|].
  assert (∀ t, op = add_task t → ∃ o ev', Some (evaluate_add context ev t i) = Some (o, ev') ∧
            evaluated (w_plan w) ev op o ev') as Hadd.
  { intros t ->. destruct (evaluate_add context ev t i) as [o ev'] eqn:E. eexists _, _.
    split; [done|]. by eapply evaluate_add_evaluated. }
  destruct op as [t| | | | | | |]; [by apply Hadd|..];
    (destruct (node_at (w_plan w) (target_of _)) as [n|] eqn:Hn;
     [by apply evaluate_on_evaluated|eexists _, _; split; [done|]; by eauto with rulvar]).
Qed.

(** The loop ends without an error, in a well-formed acyclic state. *)
Lemma rebase_ops_total ops w ev i :
  wf w → acyclic_plan (w_plan w) →
  (∀ x, mentions (w_plan w) x → used (ev_world ev) x) →
  (∀ op x, op ∈ ops → x ∈ op_deps op → used (ev_world ev) x) →
  ∃ w' ev' outs, rebase_ops context stringify_frac sha256 w ev i ops = Ok (w', ev', outs) ∧
    wf w' ∧ acyclic_plan (w_plan w') ∧ status_kept (w_plan w) (w_plan w').
Proof.
  revert w ev i. induction ops as [|op ops IH]; intros w ev i Hw Ha Hm Hd; cbn [rebase_ops].
  { eexists _, _, _. split_and!; [done..|apply status_kept_refl]. }
  destruct (evaluateOp_evaluated w ev op i Hw Ha Hm) as (o & ev1 & -> & Hg & Hop).
  { intros x. apply Hd. left. }
  assert (∃ w1, match applied_of o with
                | None => Ok w
                | Some a => applyAppliedOp stringify_frac sha256 w a
                              (lineageOfAdmission (ev_admissions ev1) i)
                end = Ok w1 ∧ wf w1 ∧ acyclic_plan (w_plan w1) ∧
            status_kept (w_plan w) (w_plan w1) ∧
            ∀ x, mentions (w_plan w1) x → used (ev_world ev1) x) as (w1 & -> & Hw1 & Ha1 & Hk1 & Hm1).
  { destruct (applied_of o) as [a|].
    2: { exists w. split_and!; [done..|apply status_kept_refl|]. intros x Hx. by apply Hg, Hm. }
    destruct (Hop a eq_refl) as [Hl Hu].
    destruct (legal_applies stringify_frac sha256 w a
                (lineageOfAdmission (ev_admissions ev1) i) Hw Ha Hl) as (w1 & Hw1 & Ha1 & Hk1 & Hm1).
    exists w1. split_and!; [done|by eapply apply_op_wf|done..|].
    intros x [Hx|Hx]%Hm1; [by apply Hg, Hm|].
    assert (∀ y, y ∈ op_deps op → used (ev_world ev1) y) as Hds.
    { intros y Hy. apply Hg, (Hd op); [left|done]. }
    destruct a; try done.
    - destruct Hu as [Hid Hu]. rewrite Hu in Hx. destruct Hx as [->|]; auto.
    - auto. }
  cbn [mbind result_bind].
  destruct (IH w1 ev1 (S i) Hw1 Ha1 Hm1) as (w2 & ev2 & outs & -> & Hw2 & Ha2 & Hk2).
  { intros op' x Hin Hx. apply Hg, (Hd op'); [by right|done]. }
  eexists _, _, _. split_and!; [done..|]. by eapply status_kept_trans.
Qed.

End Total.

(** The cascade of a cancellation is computed within its bound and lists,
    once each, exactly the nodes the cancellation blocks: those still to run
    that reach the cancelled node through dependencies that are not waived. *)
Theorem cascadeOf_spec plan root :
  jm_wf (nodes plan) → (∀ id n, node_at plan id = Some n → nodeId n = id) →
  ∃ c, cascadeOf plan root = Some c ∧ NoDup c ∧
    ∀ x, x ∈ c ↔ x ≠ root ∧ tc (severs plan) root x.
Proof. apply cascadeOf_correct. Qed.

Section Table.
Context {W : Type} (context : RebaseContext W).
Variable stringify_frac : Z → positive → string.
Variable sha256 : string → string.

Lemma frozen_ops ops w ev i :
  c_frozen context = true →
  rebase_ops context stringify_frac sha256 w ev i ops =
    Ok (w, ev, map (fun op => drop_op op plan_frozen) ops).
Proof.
  intros Hf. revert i. induction ops as [|op ops IH]; intros i; [done|].
  cbn [rebase_ops]. unfold evaluateOp. rewrite Hf. cbn [applied_of mbind result_bind drop_op].
  by rewrite IH.
Qed.

(** Once the orchestrator's cap froze the plan, every operation is dropped and
    no node changes; the revision and the dropped streak are counted. *)
Lemma rebase_frozen request world re world' :
  c_frozen context = true → boundary (f_plan (c_state context)) →
  rebasePlanRevision context stringify_frac sha256 request world = Ok (re, world') →
  re_badBase re = false →
  re_outcomes re = map (fun op => drop_op op plan_frozen) (rq_ops request) ∧
  nodes (w_plan (re_working re)) = nodes (f_plan (c_state context)) ∧
  droppedRevisionStreak (w_plan (re_working re)) =
    (droppedRevisionStreak (f_plan (c_state context)) + 1)%Z ∧ world' = world.
Proof.
  intros Hf Hb. unfold rebasePlanRevision. case_decide; [|by intros [= <- <-]].
  rewrite frozen_ops by done. cbn [mbind result_bind]. intros [= <- <-] _. cbn.
  assert (∀ l : list PlanOp, forallb is_dropped (map (fun op => drop_op op plan_frozen) l) = true)
    as -> by (induction l; cbn; auto).
  split_and!; [done| |done|done].
  apply jm_update_id. intros k v Hv. by apply (ready_node_boundary (f_plan (c_state context)) k).
Qed.

(** A waiver dropped because the dependency is done points at the entry that
    resolved it. *)
Lemma resolved_dep_ref request world re world' op r :
  fold_wf stringify_frac sha256 (c_state context) →
  rebasePlanRevision context stringify_frac sha256 request world = Ok (re, world') →
  dropped op dep_already_resolved r ∈ re_outcomes re → is_Some r.
Proof.
  intros Hwf. unfold rebasePlanRevision. case_decide.
  2: { intros [= <- <-] (? & ? & _)%list_elem_of_fmap. done. }
  intros ([[w ev] outs] & Hr & [= <- <-])%bind_ok Hin. cbn in Hin.
  apply rebase_ops_replays in Hr as (_ & _ & Hto & _).
  destruct (Hto _ Hin) as (w1 & Hreach & dep & Hd & ->).
  destruct (Hreach (fun w => working_wf stringify_frac sha256 w ∧
                             refs_ok w (doneRefs (c_state context)))) as [_ Hr].
  - split; apply Hwf.
  - intros w2 a lin w3 [Hw2 Hr2] Ha. split; [by eapply apply_op_wf|by eapply apply_op_refs].
  - apply has_status_spec in Hd as (u & Hu & Hs). by eapply Hr.
Qed.
End Table.

(** ** Witnesses

    On the plan of [PlanEntries.demo_journal], where N1 runs and N2 is ready, a
    revision adds a task after N2, cancels N2, asks to cancel N1 and names an
    unknown node.  The hooks mint "M0", "M1", ... and grant every addition. *)
Definition demo_mint (w : N) : string * N := ("M" +:+ dec_of_N w, (w + 1)%N).

Definition demo_context : RebaseContext N :=
  mkContext N demo_state (fun _ => Some "head") demo_mint false
    (Some (fun w t id i => (grant "admit" id, w))) None None None.

#[local] Instance demo_laws : HookLaws demo_context.
Proof.
  refine {| used := fun w x => x ∈ ["N1"; "N2"] ∨ ∃ k, (k < w)%N ∧ x = "M" +:+ dec_of_N k |}; cbn.
  - intros w id w' [= <- <-]. split_and!.
    + intros [H|(k & Hk & [= H%dec_of_N_inj])]; [|lia].
      apply elem_of_cons in H as [?|?%list_elem_of_singleton]; done.
    + right. exists w. split; [lia|done].
    + intros x [?|(k & ? & ?)]; [by left|right]. exists k. split; [lia|done].
  - intros f w t id i v w' [= <-] [= _ <-]. done.
  - done.
  - done.
  - done.
Defined.

Definition demo_request : PlanReviseRequest :=
  mkRequest (mkSnapshotRef 1 "head")
    [add_task (mkAddTask demo_spec (Some ["N2"]) None None None None); cancel_task "N2" None;
     cancel_task "N1" None; unpark_task "N9"].

Definition demo_rebase : result PlanError (RebaseEvaluation * N) :=
  rebasePlanRevision demo_context demo_frac demo_sha demo_request 0%N.

Definition empty_evaluation : RebaseEvaluation :=
  mkEvaluation [] [] [] "" "" false false (mkWorking emptyPlan ∅).
Definition demo_evaluation : RebaseEvaluation := fst (ok_or (empty_evaluation, 0%N) demo_rebase).

Example demo_outcomes_of :
  re_outcomes demo_evaluation =
    [applied (applied_add "M0" (mkAddTask demo_spec (Some ["N2"]) None None None None));
     applied (applied_cancel "N2" None false ["M0"]);
     applied (applied_cancel "N1" None true []);
     dropped (unpark_task "N9") no_such_dep None].
Proof. vm_compute. reflexivity. Qed.

Lemma rebase_replays_witness :
  is_ok (applyPlanEntry demo_frac demo_sha (fun _ => None) (c_state demo_context)
           (revision_entry demo_request demo_evaluation 9 2)) = true.
Proof.
  rewrite (rebase_replays demo_context demo_frac demo_sha (fun _ => None) demo_request 0%N
             demo_evaluation 1%N 9 2).
  - reflexivity.
  - vm_compute. reflexivity.
  - discriminate.
  - reflexivity.
Defined.

Lemma demo_state_wf : fold_wf demo_frac demo_sha demo_state.
Proof.
  apply (fold_plan_wf demo_frac demo_sha (fun _ => None) demo_start demo_journal).
  - apply empty_fold_wf.
  - vm_compute. reflexivity.
Qed.

(** Neither node of the plan depends on anything. *)
Lemma demo_order : jm_order (nodes (f_plan demo_state)) = ["N1"; "N2"].
Proof. vm_compute. reflexivity. Qed.

Lemma demo_deps :
  deps_at (f_plan demo_state) "N1" = [] ∧ deps_at (f_plan demo_state) "N2" = [].
Proof. split; vm_compute; reflexivity. Qed.

Lemma no_deps plan ids :
  jm_wf (nodes plan) → jm_order (nodes plan) = ids → (∀ x, x ∈ ids → deps_at plan x = []) →
  (∀ x, deps_at plan x = []) ∧ ∀ x, mentions plan x → x ∈ ids.
Proof.
  intros Hw <- Hd.
  assert (∀ x, is_Some (node_at plan x) → x ∈ jm_order (nodes plan)) as Hin by (intros x; apply Hw).
  assert (∀ x, deps_at plan x = []) as Hall.
  { intros x. destruct (node_at plan x) eqn:E; [apply Hd, Hin; by rewrite E|].
    unfold deps_at. by rewrite E. }
  split; [done|]. intros x [Hx|[id Hx]]; [by apply Hin|]. rewrite Hall in Hx. set_solver.
Qed.

Lemma demo_no_deps :
  (∀ x, deps_at (f_plan demo_state) x = []) ∧ ∀ x, mentions (f_plan demo_state) x → x ∈ ["N1"; "N2"].
Proof.
  apply no_deps; [exact (fold_nodes_wf _ _ _ demo_state_wf)|exact demo_order|].
  intros x [->| ->%list_elem_of_singleton]%elem_of_cons; apply demo_deps.
Qed.

Lemma no_deps_acyclic plan : (∀ x, deps_at plan x = []) → acyclic_plan plan.
Proof. intros Hd. apply (acyclic_rank _ (fun _ => 0)). intros x y. rewrite Hd. set_solver. Qed.

Lemma demo_head : c_state demo_context = demo_state.
Proof. reflexivity. Qed.


Lemma cascadeOf_spec_witness :
  ∃ c, cascadeOf (f_plan demo_state) "N2" = Some c ∧ NoDup c.
Proof.
  destruct (cascadeOf_spec (f_plan demo_state) "N2") as (c & Hc & Hn & _).
  - exact (fold_nodes_wf _ _ _ demo_state_wf).
  - exact (fold_nodes_key _ _ _ demo_state_wf).
  - exists c. split; [exact Hc|exact Hn].
Defined.
