(* ===== verification/PlanGuards.v ===== *)
(** * Revision guards, ladder and park (packages/plan/src/guards.ts, ladder.ts, park.ts)

    The guards that end a thrashing plan without a human: a streak of revisions
    dropped whole, a task cancelled and added again, stalls.  Their verdicts are
    journaled and absorbed on resume.  Then the model ladder's arithmetic, and
    the worktree pins that decide what a parked task keeps.

    A signature is the text [approachSigCoarse] gives; the guards only compare
    it. *)
From S2P Require Import Prelude Json JsMap Entries Identity PlanState PlanEntries.

(** ** Configuration *)

Inductive GuardFallback := reject_revision | finish_with_partial | fail_run.

#[global] Instance GuardFallback_eq_dec : EqDecision GuardFallback.
Proof. solve_decision. Defined.

(** Numeric options are JSON numbers, unchecked. *)
Record RevisionGuardsOptions := mkGuardsOptions {
  go_fallback : option GuardFallback;
  go_droppedRevisionLimit : option json;
  go_maxOscillationsPerKey : option json;
  go_stallReplanCap : option json;
  go_maxAbandonedNetUsdFraction : option json;
}.

Inductive GuardsConfigError :=
  | NotACount (site : string) (min : Z)
  | NotAFraction (site : string).

Definition DEFAULT_MAX_OSCILLATIONS_PER_KEY : Z := 2.
Definition DEFAULT_STALL_REPLAN_CAP : Z := 4.
Definition DEFAULT_DROPPED_REVISION_LIMIT : Z := 3.

Definition requireCount (value : json) (site : string) (min : Z) : result GuardsConfigError Z :=
  match value with
  | JNum n => if (n <? min)%Z then Err (NotACount site min) else Ok n
  | _ => Err (NotACount site min)
  end.

Definition requireGuardFraction (value : json) (site : string) : result GuardsConfigError unit :=
  match value with
  | JNum n => if (n <=? 0)%Z || (1 <? n)%Z then Err (NotAFraction site) else Ok tt
  | JFrac num den =>
      if (num <=? 0)%Z || (Zpos den <? num)%Z then Err (NotAFraction site) else Ok tt
  | _ => Err (NotAFraction site)
  end.

(** A count, or its default when absent. *)
Definition count_or (value : option json) (site : string) (min fallback : Z)
    : result GuardsConfigError Z :=
  match value with Some v => requireCount v site min | None => Ok fallback end.

(** ** State *)

Record RevisionGuards := mkGuards {
  g_fallback : GuardFallback;
  g_droppedRevisionLimit : Z;
  g_maxOscillationsPerKey : Z;
  g_stallReplanCap : Z;
  engaged : option GuardFallback;
  severedSignatures : gmap string Z;
  oscillations : gmap string Z;
  frozen : gset string;
  stallReplans : Z;
}.

(** The constructor: the limits are checked in the order the source checks
    them, before any default applies. *)
Definition newRevisionGuards (o : RevisionGuardsOptions)
    : result GuardsConfigError RevisionGuards :=
  limit ← count_or (go_droppedRevisionLimit o) "RevisionGuards droppedRevisionLimit" 1
            DEFAULT_DROPPED_REVISION_LIMIT;
  osc ← count_or (go_maxOscillationsPerKey o) "RevisionGuards maxOscillationsPerKey" 1
          DEFAULT_MAX_OSCILLATIONS_PER_KEY;
  cap ← count_or (go_stallReplanCap o) "RevisionGuards stallReplanCap" 0
          DEFAULT_STALL_REPLAN_CAP;
  _ ← match go_maxAbandonedNetUsdFraction o with
      | Some v => requireGuardFraction v "RevisionGuards maxAbandonedNetUsdFraction"
      | None => Ok tt
      end;
  Ok (mkGuards (default finish_with_partial (go_fallback o)) limit osc cap None ∅ ∅ ∅ 0).

Definition with_engaged (g : RevisionGuards) (e : option GuardFallback) : RevisionGuards :=
  mkGuards (g_fallback g) (g_droppedRevisionLimit g) (g_maxOscillationsPerKey g)
    (g_stallReplanCap g) e (severedSignatures g) (oscillations g) (frozen g) (stallReplans g).

Definition with_severed (g : RevisionGuards) (m : gmap string Z) : RevisionGuards :=
  mkGuards (g_fallback g) (g_droppedRevisionLimit g) (g_maxOscillationsPerKey g)
    (g_stallReplanCap g) (engaged g) m (oscillations g) (frozen g) (stallReplans g).

Definition with_oscillations (g : RevisionGuards) (m : gmap string Z) (f : gset string)
    : RevisionGuards :=
  mkGuards (g_fallback g) (g_droppedRevisionLimit g) (g_maxOscillationsPerKey g)
    (g_stallReplanCap g) (engaged g) (severedSignatures g) m f (stallReplans g).

Definition with_stalls (g : RevisionGuards) (n : Z) : RevisionGuards :=
  mkGuards (g_fallback g) (g_droppedRevisionLimit g) (g_maxOscillationsPerKey g)
    (g_stallReplanCap g) (engaged g) (severedSignatures g) (oscillations g) (frozen g) n.

(** [GuardVerdictValue], by the guard that fired; a streak and a stall verdict
    carry their fallback, a freeze carries [freeze-key]. *)
Inductive GuardVerdict :=
  | DroppedStreak (fallback : GuardFallback) (streak : Z)
  | OscillationFreeze (sig : string) (count : option Z)
  | StallReplanCap (fallback : GuardFallback) (stalls : Z).

(** ** Operations *)

Definition planFrozen (g : RevisionGuards) : bool :=
  bool_decide (engaged g = Some finish_with_partial) || bool_decide (engaged g = Some fail_run).

Definition revisionsRejected (g : RevisionGuards) : bool := bool_decide (engaged g ≠ None).

Definition onRevisionLanded (g : RevisionGuards) (streak : Z)
    : option GuardVerdict * RevisionGuards :=
  if bool_decide (engaged g ≠ None) || (streak <? g_droppedRevisionLimit g)%Z then (None, g)
  else (Some (DroppedStreak (g_fallback g) streak), with_engaged g (Some (g_fallback g))).

Definition onSevered (g : RevisionGuards) (sig : string) : RevisionGuards :=
  with_severed g (<[sig := (default 0 (severedSignatures g !! sig) + 1)%Z]> (severedSignatures g)).

Definition oscillationCountOf (g : RevisionGuards) (sig : string) : Z :=
  default 0%Z (oscillations g !! sig).

Definition onReAdd (g : RevisionGuards) (sig : string) : option GuardVerdict * RevisionGuards :=
  if (default 0 (severedSignatures g !! sig) =? 0)%Z then (None, g)
  else
    let count := (oscillationCountOf g sig + 1)%Z in
    let counted := <[sig := count]> (oscillations g) in
    if (count <? g_maxOscillationsPerKey g)%Z || bool_decide (sig ∈ frozen g)
    then (None, with_oscillations g counted (frozen g))
    else (Some (OscillationFreeze sig (Some count)),
          with_oscillations g counted ({[sig]} ∪ frozen g)).

Definition isFrozenSignature (g : RevisionGuards) (sig : string) : bool :=
  bool_decide (sig ∈ frozen g).

Definition onStallReplan (g : RevisionGuards) : option GuardVerdict * RevisionGuards :=
  let g := with_stalls g (stallReplans g + 1) in
  if (stallReplans g =? g_stallReplanCap g + 1)%Z
  then (Some (StallReplanCap (g_fallback g) (stallReplans g - 1)), g)
  else (None, g).

Definition stallReplanExhausted (g : RevisionGuards) : bool :=
  (g_stallReplanCap g <? stallReplans g)%Z.

Definition absorbVerdict (g : RevisionGuards) (v : GuardVerdict) : RevisionGuards :=
  match v with
  | DroppedStreak fallback _ | StallReplanCap fallback _ => with_engaged g (Some fallback)
  | OscillationFreeze sig count =>
      with_oscillations g
        (match count with Some c => <[sig := c]> (oscillations g) | None => oscillations g end)
        ({[sig]} ∪ frozen g)
  end.

(** ** The feed of a landed revision (plan-runner.ts, [feedGuards]) *)

Inductive GuardEvent :=
  | Severed (sig : string)
  | ReAdded (sig : string)
  | Landed (streak : Z).

Definition guard_step (g : RevisionGuards) (e : GuardEvent) : list GuardVerdict * RevisionGuards :=
  match e with
  | Severed sig => ([], onSevered g sig)
  | ReAdded sig => let '(v, g') := onReAdd g sig in (option_list v, g')
  | Landed streak => let '(v, g') := onRevisionLanded g streak in (option_list v, g')
  end.

Fixpoint guard_run (g : RevisionGuards) (l : list GuardEvent) : list GuardVerdict * RevisionGuards :=
  match l with
  | [] => ([], g)
  | e :: l' =>
      let '(vs, g1) := guard_step g e in
      let '(vs', g2) := guard_run g1 l' in (vs ++ vs', g2)
  end.

Section Feed.
Variable coarseOf : TaskSpec → string.

Definition severed_events (specs : gmap string TaskSpec) (ids : list string) : list GuardEvent :=
  omap (M := list) (fun id => Severed ∘ coarseOf <$> specs !! id) ids.

(** The events of one recorded outcome. *)
Definition outcome_events (specs : gmap string TaskSpec) (o : RebaseOutcome) : list GuardEvent :=
  match applied_of o with
  | Some (applied_cancel id _ false cascade) => severed_events specs (id :: cascade)
  | Some (applied_add _ t) => [ReAdded (coarseOf (at_spec t))]
  | _ => []
  end.

(** [feedGuards], after the fold [f] has landed the entry. *)
Definition feedGuards (f : PlanFoldState) (g : RevisionGuards) (value : PlanRevisionValue)
    : list GuardVerdict * RevisionGuards :=
  guard_run g
    (List.flat_map (outcome_events (f_specs f)) (outcomes value) ++ [Landed (effectiveDroppedStreak f)]).
End Feed.

(** ** The ladder *)

(** What the arithmetic reads of a [CanonicalLadderSpec]. *)
Record LadderSpec := mkLadder { rung_count : Z; startTier : Z }.

(** The hint is a JSON number; a fraction is no hint. *)
Definition clampStartTier (ladder : LadderSpec) (hint : option json) : Z :=
  match hint with
  | Some (JNum h) => Z.min (Z.max h 0) (rung_count ladder - 1)
  | _ => startTier ladder
  end.

Definition executingRungOf (ladder : LadderSpec) (start raises : Z) : Z :=
  Z.min (start + raises) (rung_count ladder - 1).

Inductive TriggerClass := trigger_schema_exhausted | trigger_error | trigger_no_progress | trigger_limit.

(** The trigger of a settled attempt, from its status, its error kind and its
    abort class. *)
Definition ladderTriggerOf (status : EntryStatus) (errorKind abortClass : option string)
    : option TriggerClass :=
  match status with
  | StError =>
      Some (if decide (errorKind = Some "schema-mismatch") then trigger_schema_exhausted
            else trigger_error)
  | StLimit =>
      Some (if decide (abortClass = Some "no-progress") then trigger_no_progress else trigger_limit)
  | _ => None
  end.

(** ** Park *)

Definition DEFAULT_MAX_PINNED_WORKTREES : nat := 4.

Record PinLedger := mkPins { pinnedTargets : gset N; byNode : gmap string N }.

Definition pin_entry (ledger : PinLedger) (entry : JournalEntry) : PinLedger :=
  match e_kind entry, e_abandon entry with
  | KAbandon, Some a =>
      if decide (a_retainWorktree a = Some true) then
        mkPins ({[a_target a]} ∪ pinnedTargets ledger)
          (match a_nodeId a with
           | Some id => <[id := a_target a]> (byNode ledger)
           | None => byNode ledger
           end)
      else ledger
  | _, _ => ledger
  end.

(** [PinLedger.fold]. *)
Definition foldPins (entries : list JournalEntry) : PinLedger :=
  foldl pin_entry (mkPins ∅ ∅) entries.

Definition pin_count (p : PinLedger) : nat := size (pinnedTargets p).
Definition hasCapacity (p : PinLedger) (max : nat) : bool := bool_decide (pin_count p < max).
Definition isPinnedNode (p : PinLedger) (id : string) : bool := bool_decide (is_Some (byNode p !! id)).

Definition is_worktree (isolation : option IsolationSpec) : bool :=
  match isolation with Some (IsoWorktree _) => true | _ => false end.

(** [retainCheckpoint] is always true; the worktree is kept under the cap. *)
Record ParkDisposition := mkPark { retainCheckpoint : bool; retainWorktree : bool }.

Definition parkDispositionOf (isolation : option IsolationSpec) (pins : PinLedger) (max : nat)
    : ParkDisposition :=
  mkPark true (is_worktree isolation && hasCapacity pins max).

Record UnparkPlacement := mkUnpark { restart : bool; bootCheckpointRef : option string }.

Definition unparkPlacementOf (ckpt : option N) (transcriptRef : option string)
    (isolation : option IsolationSpec) (worktreePinned : bool) : UnparkPlacement :=
  match ckpt, transcriptRef with
  | Some _, Some ref =>
      if is_worktree isolation && negb worktreePinned then mkUnpark true None
      else mkUnpark false (Some ref)
  | _, _ => mkUnpark true None
  end.

(** ** What a run of events does *)

Lemma option_list_none {A} : option_list (@None A) = [].
Proof. done. Qed.
Lemma option_list_some {A} (x : A) : option_list (Some x) = [x].
Proof. done. Qed.

(** Additions of a signature that come after it was severed. *)
Fixpoint readds (sig : string) (sv : bool) (l : list GuardEvent) : Z :=
  match l with
  | [] => 0
  | Severed s :: l' => readds sig (sv || bool_decide (s = sig)) l'
  | ReAdded s :: l' => (if sv && bool_decide (s = sig) then 1 else 0) + readds sig sv l'
  | Landed _ :: l' => readds sig sv l'
  end%Z.

Lemma readds_nonneg sig sv l : (0 <= readds sig sv l)%Z.
Proof. revert sv. induction l as [|[] l IH]; intros sv; cbn; [lia|..]; try apply IH. specialize (IH sv). case_match; lia. Qed.

(** Some revision reached the streak limit. *)
Definition streak_reached (limit : Z) (l : list GuardEvent) : bool :=
  existsb (fun e => match e with Landed s => (limit <=? s)%Z | _ => false end) l.

Definition was_severed (g : RevisionGuards) (sig : string) : bool :=
  negb (default 0 (severedSignatures g !! sig) =? 0)%Z.

(** The limits never change, and sever counts never go negative. *)
Definition guards_ok (g : RevisionGuards) : Prop :=
  ∀ sig n, severedSignatures g !! sig = Some n → (0 <= n)%Z.

Lemma sever_ok g sig : guards_ok g → guards_ok (onSevered g sig).
Proof.
  intros Hg s n. cbn. rewrite lookup_insert. case_decide; [|apply Hg].
  intros [= <-]. destruct (severedSignatures g !! sig) eqn:E; cbn; [apply Hg in E; lia|lia].
Qed.

Lemma was_severed_sever g sig s :
  guards_ok g → was_severed (onSevered g sig) s = was_severed g s || bool_decide (sig = s).
Proof.
  intros Hg. unfold was_severed. cbn. rewrite lookup_insert. case_decide as Hs.
  - subst s. rewrite (bool_decide_true (sig = sig)) by done. rewrite orb_true_r.
    apply negb_true_iff, Z.eqb_neq. cbn.
    destruct (severedSignatures g !! sig) eqn:E; cbn; [apply Hg in E; lia|lia].
  - by rewrite bool_decide_false, orb_false_r by done.
Qed.

(** The state after a re-addition, without the verdict. *)
Lemma readd_state g sig :
  snd (onReAdd g sig) =
    if was_severed g sig then
      with_oscillations g (<[sig := (oscillationCountOf g sig + 1)%Z]> (oscillations g))
        (if (oscillationCountOf g sig + 1 <? g_maxOscillationsPerKey g)%Z then frozen g
         else {[sig]} ∪ frozen g)
    else g.
Proof.
  unfold onReAdd, was_severed. destruct (_ =? 0)%Z; [done|]. cbn.
  destruct (_ <? _)%Z; [done|]. cbn. case_bool_decide; [|done]. cbn.
  f_equal. set_solver.
Qed.

Lemma oscillationCount_insert g sig s n f :
  oscillationCountOf (with_oscillations g (<[sig := n]> (oscillations g)) f) s =
    if decide (sig = s) then n else oscillationCountOf g s.
Proof. unfold oscillationCountOf. cbn. rewrite lookup_insert. by case_decide. Qed.

Record run_result (g : RevisionGuards) (l : list GuardEvent) (g' : RevisionGuards) : Prop := {
  rr_fallback : g_fallback g' = g_fallback g;
  rr_engaged : engaged g' =
    match engaged g with
    | Some e => Some e
    | None => if streak_reached (g_droppedRevisionLimit g) l then Some (g_fallback g) else None
    end;
  rr_count sig : oscillationCountOf g' sig = (oscillationCountOf g sig + readds sig (was_severed g sig) l)%Z;
  rr_frozen sig : sig ∈ frozen g' ↔ sig ∈ frozen g ∨
    (0 < readds sig (was_severed g sig) l ∧
     g_maxOscillationsPerKey g <= oscillationCountOf g sig + readds sig (was_severed g sig) l)%Z;
}.

Lemma landed_state g n :
  snd (onRevisionLanded g n) =
    if (g_droppedRevisionLimit g <=? n)%Z
    then with_engaged g (Some (default (g_fallback g) (engaged g))) else g.
Proof.
  unfold onRevisionLanded. rewrite Z.ltb_antisym.
  destruct (engaged g) eqn:E; cbn.
  - destruct (_ <=? _)%Z; [|done]. rewrite <- E. by destruct g.
  - by destruct (_ <=? _)%Z.
Qed.

Lemma guard_run_spec l g : guards_ok g → run_result g l (snd (guard_run g l)).
Proof.
  revert g. induction l as [|e l IH]; intros g Hg.
  { split; cbn; [done|by destruct (engaged g)|intros; lia|]. intros sig. split; [by left|].
    intros [?|?]; [done|lia]. }
  destruct e as [sig|sig|n]; cbn [guard_run guard_step].
  - destruct (guard_run (onSevered g sig) l) as [vs g2] eqn:E.
    specialize (IH (onSevered g sig) (sever_ok g sig Hg)). rewrite E in IH. cbn in *.
    destruct IH as [H1 H2 H3 H4]. split; cbn; [done|done|..]; intros s;
      rewrite <- (was_severed_sever g sig s Hg); auto.
  - pose proof (readd_state g sig) as Hst. destruct (onReAdd g sig) as [v g1]. cbn in Hst.
    destruct (guard_run g1 l) as [vs g2] eqn:E.
    assert (guards_ok g1) as Hg1 by (rewrite Hst; by case_match).
    specialize (IH g1 Hg1). rewrite E in IH. cbn in *.
    assert (∀ s, was_severed g1 s = was_severed g s) as Hws by (intros s; rewrite Hst; by case_match).
    destruct IH as [H1 H2 H3 H4]. split; cbn.
    + rewrite H1, Hst. by case_match.
    + rewrite H2, Hst. by case_match.
    + intros s. rewrite H3, Hws, Hst. destruct (was_severed g sig) eqn:Es.
      * rewrite oscillationCount_insert. case_decide as Hs.
        -- subst s. rewrite Es, bool_decide_true by done. cbn. lia.
        -- rewrite (bool_decide_false (sig = s)), andb_false_r by done. lia.
      * assert (was_severed g s && bool_decide (sig = s) = false) as ->; [|lia].
        destruct (decide (sig = s)) as [<-|]; [by rewrite Es|]. by rewrite bool_decide_false, andb_false_r.
    + intros s. rewrite H4, Hws, Hst. pose proof (readds_nonneg s (was_severed g s) l) as Hnn.
      destruct (was_severed g sig) eqn:Es.
      * rewrite oscillationCount_insert. cbn. case_decide as Hs.
        -- subst s. rewrite Es, (bool_decide_true (sig = sig)) in * by done. cbn.
           destruct (Z.ltb_spec (oscillationCountOf g sig + 1) (g_maxOscillationsPerKey g)).
           ++ split; (intros [?|?]; [by left|right; lia]).
           ++ rewrite elem_of_union, elem_of_singleton.
              split; [|by auto]. intros _. right. lia.
        -- rewrite (bool_decide_false (sig = s)), andb_false_r by done. cbn.
           assert (s ∈ (if (oscillationCountOf g sig + 1 <? g_maxOscillationsPerKey g)%Z
                        then frozen g else {[sig]} ∪ frozen g) ↔ s ∈ frozen g) as ->; [|done].
           case_match; set_solver.
      * assert (was_severed g s && bool_decide (sig = s) = false) as ->; [|done].
        destruct (decide (sig = s)) as [<-|]; [by rewrite Es|]. by rewrite bool_decide_false, andb_false_r.
  - pose proof (landed_state g n) as Hst. destruct (onRevisionLanded g n) as [v g1]. cbn in Hst.
    destruct (guard_run g1 l) as [vs g2] eqn:E.
    assert (guards_ok g1) as Hg1 by (rewrite Hst; by case_match).
    specialize (IH g1 Hg1). rewrite E in IH. cbn in *. destruct IH as [H1 H2 H3 H4].
    rewrite Hst in *. destruct (g_droppedRevisionLimit g <=? n)%Z eqn:En; split; cbn in *; try done;
      rewrite H2, ?En; [by destruct (engaged g)|done].
Qed.

Lemma new_guards_inv o g :
  newRevisionGuards o = Ok g →
  engaged g = None ∧ severedSignatures g = ∅ ∧ oscillations g = ∅ ∧ frozen g = ∅ ∧
  (1 <= g_droppedRevisionLimit g)%Z ∧ (1 <= g_maxOscillationsPerKey g)%Z ∧ (0 <= g_stallReplanCap g)%Z.
Proof.
  assert (∀ v site m f n, count_or v site m f = Ok n → (m <= f)%Z → (m <= n)%Z) as Hc.
  { intros v site m f n. unfold count_or, requireCount.
    destruct v as [[]|]; try done; [|by intros [= <-]]. case_match eqn:E; [done|].
    intros [= <-] _. apply Z.ltb_ge in E. done. }
  unfold newRevisionGuards. intros H. inv_ok.
  split_and!; try done; eapply Hc; try eassumption; done.
Qed.

(** The guards engage the configured fallback exactly when some landed
    revision's streak reaches the limit, and freeze a signature exactly when it
    was added again, after being severed, as often as the limit allows. *)
Theorem guards_spec o g l :
  newRevisionGuards o = Ok g →
  let g' := snd (guard_run g l) in
  engaged g' = (if streak_reached (g_droppedRevisionLimit g) l then Some (g_fallback g) else None) ∧
  ∀ sig, oscillationCountOf g' sig = readds sig false l ∧
    (isFrozenSignature g' sig = true ↔ (g_maxOscillationsPerKey g <= readds sig false l)%Z).
Proof.
  intros (He & Hs & Ho & Hf & _ & Hmax & _)%new_guards_inv g'.
  assert (guards_ok g) as Hg by (intros sig n; rewrite Hs; by rewrite lookup_empty).
  assert (∀ sig, was_severed g sig = false) as Hws.
  { intros sig. unfold was_severed. by rewrite Hs, lookup_empty. }
  assert (∀ sig, oscillationCountOf g sig = 0%Z) as Hoc.
  { intros sig. unfold oscillationCountOf. by rewrite Ho, lookup_empty. }
  destruct (guard_run_spec l g Hg) as [_ H2 H3 H4]. fold g' in H2, H3, H4.
  split; [by rewrite H2, He|]. intros sig. rewrite H3, Hws, Hoc. split; [lia|].
  unfold isFrozenSignature. rewrite bool_decide_eq_true, H4, Hws, Hoc, Hf.
  split; [intros [?|?]; [set_solver|lia]|]. intros ?. right. lia.
Qed.

(** ** Resume

    A resumed run absorbs the journaled verdicts into fresh guards and feeds
    them the same revisions again. *)

(** What makes two verdicts the same journal entry: [guardVerdictKey] over the
    guard and the signature it froze. *)
Inductive VerdictKey := KeyStreak | KeyFreeze (sig : string) | KeyStall.

#[global] Instance VerdictKey_eq_dec : EqDecision VerdictKey.
Proof. solve_decision. Defined.

Definition verdict_key (v : GuardVerdict) : VerdictKey :=
  match v with
  | DroppedStreak _ _ => KeyStreak
  | OscillationFreeze sig _ => KeyFreeze sig
  | StallReplanCap _ _ => KeyStall
  end.

Definition journaled (js : list GuardVerdict) (k : VerdictKey) : bool :=
  bool_decide (k ∈ map verdict_key js).

(** The verdicts a replay still has to journal. *)
Definition missing (js vs : list GuardVerdict) : list GuardVerdict :=
  List.filter (fun v => negb (journaled js (verdict_key v))) vs.

Section Resume.
Variable js : list GuardVerdict.

(** The resumed guards [g'] beside the live ones [g], after the same events. *)
Record resumed (g g' : RevisionGuards) : Prop := {
  rs_fallback : g_fallback g' = g_fallback g;
  rs_limit : g_droppedRevisionLimit g' = g_droppedRevisionLimit g;
  rs_max : g_maxOscillationsPerKey g' = g_maxOscillationsPerKey g;
  rs_severed : severedSignatures g' = severedSignatures g;
  rs_engaged : engaged g' = if journaled js KeyStreak then Some (g_fallback g) else engaged g;
  rs_frozen sig : sig ∈ frozen g' ↔ sig ∈ frozen g ∨ journaled js (KeyFreeze sig) = true;
  rs_counts sig : journaled js (KeyFreeze sig) = false →
    oscillations g' !! sig = oscillations g !! sig;
}.

Lemma missing_app vs ws : missing js (vs ++ ws) = missing js vs ++ missing js ws.
Proof. apply List.filter_app. Qed.

Lemma resumed_sever g g' sig : resumed g g' → resumed (onSevered g sig) (onSevered g' sig).
Proof. intros [H1 H2 H3 H4 H5 H6 H7]. split; cbn; auto. by rewrite H4. Qed.

Lemma resumed_readd g g' sig :
  resumed g g' →
  option_list (fst (onReAdd g' sig)) = missing js (option_list (fst (onReAdd g sig))) ∧
  resumed (snd (onReAdd g sig)) (snd (onReAdd g' sig)).
Proof.
  intros Hr. pose proof Hr as [H1 H2 H3 H4 H5 H6 H7]. unfold onReAdd. rewrite H4, H3.
  destruct (default 0 _ =? 0)%Z; [done|].
  assert (∀ m m' f f', (∀ s, s ∈ f' ↔ s ∈ f ∨ journaled js (KeyFreeze s) = true) →
            (∀ s, journaled js (KeyFreeze s) = false → m' !! s = m !! s) →
            resumed (with_oscillations g m f) (with_oscillations g' m' f')) as Hw by done.
  assert (∀ n n', (journaled js (KeyFreeze sig) = false → n' = n) →
            ∀ s, journaled js (KeyFreeze s) = false →
              (<[sig := n']> (oscillations g') : gmap string Z) !! s =
              (<[sig := n]> (oscillations g) : gmap string Z) !! s) as Hins.
  { intros n n' Hn s Hs. rewrite !lookup_insert. case_decide; [|by apply H7]. subst. by rewrite Hn. }
  destruct (journaled js (KeyFreeze sig)) eqn:Ej.
  - rewrite (bool_decide_true (sig ∈ frozen g')) by (apply H6; by right).
    rewrite orb_true_r. cbn [fst snd]. split.
    + destruct (_ || _); [done|]. cbn [fst]. rewrite option_list_some. cbn. by rewrite Ej.
    + destruct (_ || _); cbn [snd]; apply Hw; try (by apply Hins); intros s; rewrite H6; [done|].
      rewrite elem_of_union, elem_of_singleton. split; [tauto|].
      intros [[->|?]|?]; auto.
  - assert (oscillationCountOf g' sig = oscillationCountOf g sig) as ->.
    { unfold oscillationCountOf. by rewrite H7. }
    assert (bool_decide (sig ∈ frozen g') = bool_decide (sig ∈ frozen g)) as ->.
    { apply bool_decide_ext. rewrite H6, Ej. intuition congruence. }
    destruct (_ || _); cbn [fst snd]; split.
    + done.
    + apply Hw; [done|by apply Hins].
    + rewrite !option_list_some. cbn. by rewrite Ej.
    + apply Hw; [|by apply Hins]. intros s. rewrite !elem_of_union, H6. tauto.
Qed.

Lemma resumed_landed g g' n :
  resumed g g' →
  option_list (fst (onRevisionLanded g' n)) = missing js (option_list (fst (onRevisionLanded g n))) ∧
  resumed (snd (onRevisionLanded g n)) (snd (onRevisionLanded g' n)).
Proof.
  intros Hr. pose proof Hr as [H1 H2 H3 H4 H5 H6 H7]. unfold onRevisionLanded. rewrite H1, H2, H5.
  destruct (journaled js KeyStreak) eqn:Ej.
  - rewrite (bool_decide_true (Some _ ≠ None)) by done. cbn [orb fst snd]. split.
    + destruct (_ || _); [done|]. cbn [fst]. rewrite option_list_some. cbn. by rewrite Ej.
    + destruct (_ || _); [done|]. cbn [snd]. split; cbn; auto. by rewrite Ej.
  - destruct (_ || _); cbn [fst snd]; split; try done.
    + rewrite !option_list_some. cbn. by rewrite Ej.
    + split; cbn; auto. by rewrite Ej.
Qed.

Lemma resumed_run l g g' :
  resumed g g' →
  fst (guard_run g' l) = missing js (fst (guard_run g l)) ∧
  resumed (snd (guard_run g l)) (snd (guard_run g' l)).
Proof.
  revert g g'. induction l as [|e l IH]; intros g g' Hr; [done|]. cbn [guard_run].
  assert (fst (guard_step g' e) = missing js (fst (guard_step g e)) ∧
          resumed (snd (guard_step g e)) (snd (guard_step g' e))) as [Hv Hs].
  { destruct e; cbn [guard_step].
    - split; [done|]. by apply resumed_sever.
    - pose proof (resumed_readd g g' sig Hr). by destruct (onReAdd g sig), (onReAdd g' sig).
    - pose proof (resumed_landed g g' streak Hr).
      by destruct (onRevisionLanded g streak), (onRevisionLanded g' streak). }
  destruct (guard_step g e) as [v1 g1], (guard_step g' e) as [v1' g1']. cbn [fst snd] in Hv, Hs.
  destruct (IH g1 g1' Hs) as [Hv2 Hs2].
  destruct (guard_run g1 l) as [v2 g2], (guard_run g1' l) as [v2' g2']. cbn [fst snd] in *.
  split; [|done]. by rewrite missing_app, Hv, Hv2.
Qed.
End Resume.

(** A verdict in force: what absorbing it establishes. *)
Definition in_force (g : RevisionGuards) (v : GuardVerdict) : Prop :=
  match v with
  | DroppedStreak fb _ => fb = g_fallback g ∧ engaged g = Some fb
  | OscillationFreeze sig count => sig ∈ frozen g ∧ is_Some count
  | StallReplanCap _ _ => False
  end.

Lemma in_force_step g e v : in_force g v → in_force (snd (guard_step g e)) v.
Proof.
  assert (∀ sig, in_force g v → in_force (snd (onReAdd g sig)) v) as Hre.
  { intros sig. rewrite readd_state. case_match; [|done]. destruct v; cbn; [done| |done].
    case_match; set_solver. }
  assert (∀ n, in_force g v → in_force (snd (onRevisionLanded g n)) v) as Hla.
  { intros n. rewrite landed_state. case_match; [|done]. destruct v; cbn; [|done|done].
    by intros [-> ->]. }
  destruct e; cbn [guard_step]; intros Hv.
  - by destruct v.
  - specialize (Hre sig Hv). by destruct (onReAdd g sig).
  - specialize (Hla streak Hv). by destruct (onRevisionLanded g streak).
Qed.

Lemma in_force_emitted g e v : v ∈ fst (guard_step g e) → in_force (snd (guard_step g e)) v.
Proof.
  destruct e; cbn [guard_step].
  - set_solver.
  - unfold onReAdd. repeat case_match; cbn; simplify_eq; try set_solver.
    intros ->%list_elem_of_singleton. cbn. split; [set_solver|by eexists].
  - unfold onRevisionLanded. repeat case_match; cbn; simplify_eq; set_solver.
Qed.

Lemma in_force_run l g v :
  in_force g v ∨ v ∈ fst (guard_run g l) → in_force (snd (guard_run g l)) v.
Proof.
  revert g. induction l as [|e l IH]; intros g; [intros [?|?]; [done|set_solver]|].
  pose proof (in_force_step g e v) as Hs. pose proof (in_force_emitted g e v) as He.
  cbn [guard_run]. destruct (guard_step g e) as [v1 g1]. cbn in Hs, He.
  specialize (IH g1). destruct (guard_run g1 l) as [v2 g2]. cbn in *.
  rewrite elem_of_app. tauto.
Qed.

(** The verdicts a run journaled, absorbed into the guards it started from. *)
Lemma absorb_resumed js g :
  (∀ v, v ∈ js → ∃ g1, g_fallback g1 = g_fallback g ∧ in_force g1 v) →
  engaged g = None → resumed js g (foldl absorbVerdict g js).
Proof.
  intros Hjs He.
  assert (∀ ks done, (∀ v, v ∈ ks → ∃ g1, g_fallback g1 = g_fallback g ∧ in_force g1 v) →
            ∀ g', resumed done g g' → resumed (done ++ ks) g (foldl absorbVerdict g' ks)) as Hgo.
  { induction ks as [|v ks IH]; intros dn Hks g' Hr; [by rewrite app_nil_r|].
    cbn [foldl]. replace (dn ++ v :: ks) with ((dn ++ [v]) ++ ks) by (by rewrite <- app_assoc).
    apply IH; [intros w Hw; apply Hks; by right|].
    destruct (Hks v ltac:(left)) as (g1 & Hg1 & Hf). destruct Hr as [H1 H2 H3 H4 H5 H6 H7].
    assert (∀ k, journaled (dn ++ [v]) k = journaled dn k || bool_decide (k = verdict_key v)) as Hj.
    { intros k. unfold journaled. rewrite map_app. cbn.
      apply eq_true_iff_eq. rewrite orb_true_iff, !bool_decide_eq_true, elem_of_app.
      by rewrite list_elem_of_singleton. }
    destruct v as [fb n|sig count|]; cbn in Hf; [| |done].
    - destruct Hf as [-> _]. split; cbn; auto.
      + by rewrite Hj, bool_decide_true, orb_true_r, Hg1 by done.
      + intros s. rewrite H6, Hj. cbn. by rewrite orb_false_r.
      + intros s. rewrite Hj. cbn. rewrite orb_false_r. apply H7.
    - destruct Hf as [_ [c ->]]. split; cbn; auto.
      + rewrite Hj. cbn. by rewrite orb_false_r.
      + intros s. rewrite elem_of_union, elem_of_singleton, H6, Hj, orb_true_iff, bool_decide_eq_true.
        cbn. naive_solver.
      + intros s. rewrite Hj, orb_false_iff, bool_decide_eq_false. intros [Hs1 Hs2].
        rewrite lookup_insert_ne; [by apply H7|]. intros ->. by apply Hs2. }
  specialize (Hgo js [] Hjs g). apply Hgo. split; try done.
  intros sig. unfold journaled. cbn. split; [by left|]. by intros [?|?].
Qed.

Lemma guard_run_fallback g l : g_fallback (snd (guard_run g l)) = g_fallback g.
Proof.
  revert g. induction l as [|e l IH]; intros g; [done|]. cbn [guard_run].
  assert (g_fallback (snd (guard_step g e)) = g_fallback g) as Hs.
  { destruct e; cbn [guard_step]; [done| |].
    - pose proof (readd_state g sig) as H. destruct (onReAdd g sig). cbn in *. subst. by case_match.
    - pose proof (landed_state g streak) as H. destruct (onRevisionLanded g streak). cbn in *.
      subst. by case_match. }
  destruct (guard_step g e) as [v1 g1]. cbn in Hs. specialize (IH g1).
  destruct (guard_run g1 l) as [v2 g2]. cbn in *. congruence.
Qed.

(** A crash between firing a verdict and journaling it loses nothing: guards
    that absorb any part of the streak and freeze verdicts of a run and see its
    revisions again fire exactly the verdicts that were not journaled, and end
    with the same fallback engaged and the same signatures frozen. *)
Theorem guards_resume o g l js :
  newRevisionGuards o = Ok g →
  (∀ v, v ∈ js → v ∈ fst (guard_run g l)) →
  let live := guard_run g l in
  let again := guard_run (foldl absorbVerdict g js) l in
  fst again = missing js (fst live) ∧
  engaged (snd again) = engaged (snd live) ∧
  frozen (snd again) = frozen (snd live).
Proof.
  intros Hnew Hjs live again. pose proof (new_guards_inv o g Hnew) as (He & _).
  assert (∀ v, v ∈ js → in_force (snd live) v) as Hforce.
  { intros v Hv. apply in_force_run. right. by apply Hjs. }
  destruct (resumed_run js l g (foldl absorbVerdict g js)) as [Hv [H1 H2 H3 H4 H5 H6 H7]].
  { apply absorb_resumed; [|done]. intros v Hv. exists (snd live). split; [|by apply Hforce].
    apply guard_run_fallback. }
  fold live again in Hv, H5, H6. split_and!; [done| |].
  - rewrite H5. destruct (journaled js KeyStreak) eqn:Ej; [|done].
    unfold journaled in Ej. apply bool_decide_eq_true, list_elem_of_fmap in Ej as ([] & ? & Hin); try done.
    destruct (Hforce _ Hin) as [-> ->]. done.
  - apply set_eq. intros sig. rewrite H6. split; [|by left]. intros [?|Ej]; [done|].
    unfold journaled in Ej. apply bool_decide_eq_true, list_elem_of_fmap in Ej as ([] & ? & Hin); try done.
    simplify_eq/=. by destruct (Hforce _ Hin).
Qed.

(** ** Where live and resumed guards part *)

(** The stall verdict names the fallback, and only a resume engages it: the
    live guards go on accepting revisions. *)
Lemma stall_cap_engages_on_resume_only g v g' :
  engaged g = None → onStallReplan g = (Some v, g') →
  revisionsRejected g' = false ∧ revisionsRejected (absorbVerdict g v) = true.
Proof.
  intros He. unfold onStallReplan. case_match; [|done]. intros [= <- <-].
  unfold revisionsRejected. cbn. rewrite He. done.
Qed.

Definition demo_guards : RevisionGuards :=
  ok_or (mkGuards fail_run 0 0 0 None ∅ ∅ ∅ 0)
    (newRevisionGuards (mkGuardsOptions None None None None None)).

Definition demo_events : list GuardEvent :=
  [Severed "s"; ReAdded "s"; Landed 1; Severed "s"; ReAdded "s"; Landed 3; ReAdded "t"].

(** The count behind a freeze is fed on top of the absorbed one. *)
Example resumed_oscillation_count_doubles :
  let live := guard_run demo_guards demo_events in
  oscillationCountOf (snd live) "s" = 2%Z ∧
  oscillationCountOf (snd (guard_run (foldl absorbVerdict demo_guards (fst live)) demo_events)) "s" = 4%Z.
Proof. split; vm_compute; reflexivity. Qed.

Lemma guards_spec_witness :
  isFrozenSignature (snd (guard_run demo_guards demo_events)) "s" = true ∧
  engaged (snd (guard_run demo_guards demo_events)) = Some finish_with_partial.
Proof.
  destruct (guards_spec (mkGuardsOptions None None None None None) demo_guards demo_events)
    as [He Hf]; [vm_compute; reflexivity|].
  split; [apply (proj2 (proj2 (Hf "s"))); vm_compute; discriminate|exact He].
Defined.

Lemma guards_resume_witness :
  fst (guard_run (foldl absorbVerdict demo_guards [OscillationFreeze "s" (Some 2%Z)]) demo_events)
    = [DroppedStreak finish_with_partial 3].
Proof.
  destruct (guards_resume (mkGuardsOptions None None None None None) demo_guards demo_events
              [OscillationFreeze "s" (Some 2%Z)]) as [H _].
  - vm_compute. reflexivity.
  - intros v ->%list_elem_of_singleton. vm_compute. left.
  - rewrite H. vm_compute. reflexivity.
Defined.

(** ** Ladder and park *)

Lemma executingRung_bounds ladder hint raises :
  (0 < rung_count ladder)%Z → (0 <= startTier ladder < rung_count ladder)%Z → (0 <= raises)%Z →
  (0 <= executingRungOf ladder (clampStartTier ladder hint) raises < rung_count ladder)%Z.
Proof. intros. unfold executingRungOf, clampStartTier. destruct hint as [[]|]; cbv iota; lia. Qed.

(** Raises move up one rung at a time until the top. *)
Lemma executingRung_monotone ladder start r1 r2 :
  (r1 <= r2)%Z → (executingRungOf ladder start r1 <= executingRungOf ladder start r2)%Z.
Proof. intros. unfold executingRungOf. lia. Qed.

(** The pins never exceed the cap when every retained worktree was granted. *)
Definition grants_retention (p : PinLedger) (max : nat) (entry : JournalEntry) : Prop :=
  ∀ a, e_kind entry = KAbandon → e_abandon entry = Some a → a_retainWorktree a = Some true →
    hasCapacity p max = true.

Lemma pin_count_bounded max l :
  (∀ l1 e l2, l = l1 ++ e :: l2 → grants_retention (foldPins l1) max e) →
  pin_count (foldPins l) ≤ max.
Proof.
  induction l as [|e l IH] using rev_ind; intros Hl.
  { unfold pin_count, foldPins. cbn [foldl pinnedTargets]. rewrite size_empty. lia. }
  assert (pin_count (foldPins l) ≤ max) as Hle.
  { apply IH. intros l1 e' l2 ->. apply (Hl l1 e' (l2 ++ [e])). by rewrite <- app_assoc. }
  specialize (Hl l e [] eq_refl). unfold foldPins in *. rewrite foldl_app. cbn [foldl].
  unfold pin_entry at 1. destruct (e_kind e) eqn:Ek; try done.
  destruct (e_abandon e) as [a|] eqn:Ea; [|done]. case_decide as Hr; [|done].
  specialize (Hl a Ek Ea Hr). unfold hasCapacity in Hl. apply bool_decide_eq_true in Hl.
  unfold pin_count in *. cbn.
  assert (size ({[a_target a]} ∪ pinnedTargets (foldl pin_entry (mkPins ∅ ∅) l)) ≤
          1 + size (pinnedTargets (foldl pin_entry (mkPins ∅ ∅) l))); [|lia].
  rewrite size_union_alt, size_singleton. apply Nat.add_le_mono_l, subseteq_size. set_solver.
Qed.
