(* ===== verification/EffectTypes.v ===== *)
(** * Effect lane entries (packages/core/src/effects/types.ts)

    An effect is a send to an outside provider that must happen once.  Its facts
    are journaled as decision entries with a [decisionType]; this file reads
    them, fail closed: a lane entry whose payload does not validate is malformed
    and takes part in nothing.

    Members the reader does not validate stay unchecked JSON. *)
From S2P Require Import Prelude Json Entries.

Inductive EffectCapabilityRow := row_idempotency_key | row_lookup | row_neither.
Inductive EffectClass := monetary | signing | case_.
Inductive EffectTerminalState :=
  | confirmed | quarantined | cancelled_before_dispatch | compensated | refused.
Inductive AttemptOutcome := accepted | failed | unknown.
Inductive Verification := verified | unverified.
Inductive ProbeKind := probe_lookup | probe_close_acceptance.

#[global] Instance EffectTerminalState_eq_dec : EqDecision EffectTerminalState.
Proof. solve_decision. Defined.
#[global] Instance AttemptOutcome_eq_dec : EqDecision AttemptOutcome.
Proof. solve_decision. Defined.
#[global] Instance Verification_eq_dec : EqDecision Verification.
Proof. solve_decision. Defined.

Record EffectBudgets := mkBudgets {
  b_attempts : Z;
  b_lookups : Z;
  b_receiptWaitMs : json;
  b_authorizationWaitMs : option json;
  b_reconcileBy : string;
}.

Record IntentDecision := mkIntent {
  i_logicalKey : string;
  i_approvalRef : N;
  i_epochRef : N;
  i_effectClass : EffectClass;
  i_capabilityRow : EffectCapabilityRow;
  i_lookupQualification : option json;
  i_argumentsHash : string;
  i_artifactHash : option json;
  i_configFingerprint : option json;
  i_budgets : EffectBudgets;
  i_compensates : option N;
  i_successorOf : option N;
}.

Record ReceiptDecision := mkReceiptDecision {
  rc_verification : Verification;
  rc_transferId : option json;
  rc_amount : option json;
  rc_currency : option json;
  rc_documentHash : option json;
  rc_providerRef : option json;
  rc_timestamp : option json;
}.

(** [EffectLaneDecision], after [opId]. *)
Inductive EffectLaneDecision :=
  | effect_epoch (generation : string) (restorationGeneration : option Z)
  | effect_declared (logicalKey : string) (cls : EffectClass) (row : EffectCapabilityRow)
      (argumentsHash : string)
  | effect_intent (i : IntentDecision)
  | effect_attempt (intentRef : N) (ordinal : Z) (notAfter : string)
      (idempotencyKey transport : option json)
  | effect_outcome (intentRef attemptRef : N) (outcome : AttemptOutcome)
  | effect_receipt (intentRef : N) (r : ReceiptDecision)
  | effect_terminal (intentRef : option N) (logicalKey : option json)
      (terminal : EffectTerminalState) (reason causalRef : option json)
  | effect_incident (intentRef : N) (incident : string) (causalRef detail : option json)
  | effect_disposition (intentRef : N) (principal reason disposition : string)
      (causalRef : option json)
  | effect_probe (intentRef : N) (probe : ProbeKind) (found : bool) (acceptanceClosed : option json)
  | effect_reconciliation_complete (epochRef : N).

Inductive EffectLaneRead :=
  | NotLane
  | Lane (opId : string) (d : EffectLaneDecision)
  | Malformed (why : string).

(** ** Tests on unchecked members *)

(** [isNonEmptyString], [isSeq], [isPositiveInt], as partial reads. *)
Definition nonEmptyString (v : option json) : option string :=
  match v with Some (JStr s) => if decide (s = "") then None else Some s | _ => None end.

Definition readSeq (v : option json) : option N :=
  match v with Some (JNum n) => if (n <? 0)%Z then None else Some (Z.to_N n) | _ => None end.

Definition positiveInt (v : option json) : option Z :=
  match v with Some (JNum n) => if (0 <? n)%Z then Some n else None | _ => None end.

(** [Number.isInteger(v) && v >= 0]. *)
Definition nonNegativeInt (v : option json) : option Z :=
  match v with Some (JNum n) => if (n <? 0)%Z then None else Some n | _ => None end.

(** [typeof v === "number" && v >= 0]. *)
Definition nonNegativeNumber (v : option json) : option json :=
  match v with
  | Some (JNum n) => if (n <? 0)%Z then None else Some (JNum n)
  | Some (JFrac num den) => if (num <? 0)%Z then None else Some (JFrac num den)
  | _ => None
  end.

(** An optional member under a test: [None] of the outer option refuses. *)
Definition optional {A} (read : option json → option A) (v : option json) : option (option A) :=
  match v with None => Some None | Some _ => Some <$> read v end.

Definition isCapabilityRow (v : option json) : option EffectCapabilityRow :=
  if is_str v "idempotency-key" then Some row_idempotency_key
  else if is_str v "lookup" then Some row_lookup
  else if is_str v "neither" then Some row_neither else None.

Definition isEffectClass (v : option json) : option EffectClass :=
  if is_str v "monetary" then Some monetary
  else if is_str v "signing" then Some signing
  else if is_str v "case" then Some case_ else None.

Definition isTerminalState (v : option json) : option EffectTerminalState :=
  if is_str v "confirmed" then Some confirmed
  else if is_str v "quarantined" then Some quarantined
  else if is_str v "cancelled-before-dispatch" then Some cancelled_before_dispatch
  else if is_str v "compensated" then Some compensated
  else if is_str v "refused" then Some refused else None.

Definition readOutcome (v : option json) : option AttemptOutcome :=
  if is_str v "accepted" then Some accepted
  else if is_str v "failed" then Some failed
  else if is_str v "unknown" then Some unknown else None.

Definition readVerification (v : option json) : option Verification :=
  if is_str v "verified" then Some verified
  else if is_str v "unverified" then Some unverified else None.

Definition readProbe (v : option json) : option ProbeKind :=
  if is_str v "lookup" then Some probe_lookup
  else if is_str v "close-acceptance" then Some probe_close_acceptance else None.

Definition readBool (v : option json) : option bool :=
  match v with Some (JBool b) => Some b | _ => None end.

Definition isBudgets (v : option json) : option EffectBudgets :=
  r ← asRecord v;
  attempts ← positiveInt (prop r "attempts");
  lookups ← nonNegativeInt (prop r "lookups");
  receiptWait ← nonNegativeNumber (prop r "receiptWaitMs");
  authorizationWait ← optional nonNegativeNumber (prop r "authorizationWaitMs");
  reconcileBy ← nonEmptyString (prop r "reconcileBy");
  Some (mkBudgets attempts lookups receiptWait authorizationWait reconcileBy).

(** ** The payloads, one reader per [decisionType] *)

Definition malformed_if {A} (o : option A) (why : string) : result string A :=
  match o with Some a => Ok a | None => Err why end.

Definition read_epoch (r : record) : result string EffectLaneDecision :=
  generation ← malformed_if (nonEmptyString (prop r "generation"))
                 "effect_epoch requires a generation token";
  restoration ← malformed_if
                  (optional (fun v => match v with Some (JNum n) => Some n | _ => None end)
                     (prop r "restorationGeneration"))
                  "restorationGeneration must be an integer";
  Ok (effect_epoch generation restoration).

Definition read_declared (r : record) : result string EffectLaneDecision :=
  malformed_if
    (key ← nonEmptyString (prop r "logicalKey");
     cls ← isEffectClass (prop r "effectClass");
     row ← isCapabilityRow (prop r "capabilityRow");
     hash ← nonEmptyString (prop r "argumentsHash");
     Some (effect_declared key cls row hash))
    "effect_declared payload incomplete".

(** The [lookup] row names what earns it. *)
Definition qualified (row : EffectCapabilityRow) (q : option json) : bool :=
  match row with
  | row_lookup => is_str q "acceptance-closing" || is_str q "conditional-create"
  | _ => true
  end.

Definition read_intent (r : record) : result string EffectLaneDecision :=
  '(key, approvalRef, epochRef, cls, row, hash, budgets) ←
    malformed_if
      (key ← nonEmptyString (prop r "logicalKey");
       approvalRef ← readSeq (prop r "approvalRef");
       epochRef ← readSeq (prop r "epochRef");
       cls ← isEffectClass (prop r "effectClass");
       row ← isCapabilityRow (prop r "capabilityRow");
       hash ← nonEmptyString (prop r "argumentsHash");
       budgets ← isBudgets (prop r "budgets");
       Some (key, approvalRef, epochRef, cls, row, hash, budgets))
      "effect_intent payload incomplete";
  if negb (qualified row (prop r "lookupQualification")) then
    Err "the 'lookup' row requires a recorded qualification (RFC section 6)"
  else
    compensates ← malformed_if (optional readSeq (prop r "compensates")) "compensates must be a seq";
    successorOf ← malformed_if (optional readSeq (prop r "successorOf")) "successorOf must be a seq";
    Ok (effect_intent
          (mkIntent key approvalRef epochRef cls row (prop r "lookupQualification") hash
             (prop r "artifactHash") (prop r "configFingerprint") budgets compensates successorOf)).

Definition read_attempt (r : record) : result string EffectLaneDecision :=
  malformed_if
    (intentRef ← readSeq (prop r "intentRef");
     ordinal ← positiveInt (prop r "ordinal");
     notAfter ← nonEmptyString (prop r "notAfter");
     Some (effect_attempt intentRef ordinal notAfter (prop r "idempotencyKey") (prop r "transport")))
    "effect_attempt payload incomplete".

Definition read_outcome (r : record) : result string EffectLaneDecision :=
  malformed_if
    (intentRef ← readSeq (prop r "intentRef");
     attemptRef ← readSeq (prop r "attemptRef");
     outcome ← readOutcome (prop r "outcome");
     Some (effect_outcome intentRef attemptRef outcome))
    "effect_outcome payload incomplete".

Definition read_receipt (r : record) : result string EffectLaneDecision :=
  malformed_if
    (intentRef ← readSeq (prop r "intentRef");
     verification ← readVerification (prop r "verification");
     Some (effect_receipt intentRef
             (mkReceiptDecision verification (prop r "transferId") (prop r "amount")
                (prop r "currency") (prop r "documentHash") (prop r "providerRef")
                (prop r "timestamp"))))
    "effect_receipt payload incomplete".

(** A terminal without an intent is a standalone refusal or quarantine. *)
Definition standalone_terminal (terminal : EffectTerminalState) (key : option json) : bool :=
  match terminal with
  | refused | quarantined => bool_decide (is_Some (nonEmptyString key))
  | _ => false
  end.

Definition standalone_text : string :=
  "a terminal without intentRef must be a 'refused' or 'quarantined' record " +:+
  "naming logicalKey (the standalone give-up and the unreconstructable sweep row)".

Definition read_terminal (r : record) : result string EffectLaneDecision :=
  terminal ← malformed_if (isTerminalState (prop r "terminal"))
               "effect_terminal requires a terminal state";
  let made intentRef :=
    effect_terminal intentRef (prop r "logicalKey") terminal (prop r "reason") (prop r "causalRef") in
  match prop r "intentRef" with
  | None =>
      if standalone_terminal terminal (prop r "logicalKey") then Ok (made None)
      else Err standalone_text
  | Some _ =>
      intentRef ← malformed_if (readSeq (prop r "intentRef")) "intentRef must be a seq";
      Ok (made (Some intentRef))
  end.

Definition read_incident (r : record) : result string EffectLaneDecision :=
  malformed_if
    (intentRef ← readSeq (prop r "intentRef");
     incident ← nonEmptyString (prop r "incident");
     Some (effect_incident intentRef incident (prop r "causalRef") (prop r "detail")))
    "effect_incident payload incomplete".

Definition read_probe (r : record) : result string EffectLaneDecision :=
  malformed_if
    (intentRef ← readSeq (prop r "intentRef");
     probe ← readProbe (prop r "probe");
     found ← readBool (prop r "found");
     Some (effect_probe intentRef probe found (prop r "acceptanceClosed")))
    "effect_probe payload incomplete".

Definition read_reconciliation (r : record) : result string EffectLaneDecision :=
  malformed_if
    (epochRef ← readSeq (prop r "epochRef"); Some (effect_reconciliation_complete epochRef))
    "effect_reconciliation_complete requires epochRef".

Definition read_disposition (r : record) : result string EffectLaneDecision :=
  malformed_if
    (intentRef ← readSeq (prop r "intentRef");
     principal ← nonEmptyString (prop r "principal");
     reason ← nonEmptyString (prop r "reason");
     disposition ← nonEmptyString (prop r "disposition");
     Some (effect_disposition intentRef principal reason disposition (prop r "causalRef")))
    "effect_disposition payload incomplete".

(** [EFFECT_LANE_DECISION_TYPES], with the reader of each. *)
Definition lane_readers : list (string * (record → result string EffectLaneDecision)) :=
  [("effect_epoch", read_epoch); ("effect_declared", read_declared);
   ("effect_intent", read_intent); ("effect_attempt", read_attempt);
   ("effect_outcome", read_outcome); ("effect_receipt", read_receipt);
   ("effect_terminal", read_terminal); ("effect_incident", read_incident);
   ("effect_disposition", read_disposition); ("effect_probe", read_probe);
   ("effect_reconciliation_complete", read_reconciliation)].

Definition readEffectLaneDecision (entry : JournalEntry) : EffectLaneRead :=
  if decide (e_kind entry = KDecision) then
    let value := default [] (asRecord (e_value entry)) in
    match find_first (fun '(name, _) => is_str (prop value "decisionType") name) lane_readers with
    | None => NotLane
    | Some (_, reader) =>
        match nonEmptyString (prop value "opId") with
        | None => Malformed "missing opId"
        | Some opId => match reader value with Ok d => Lane opId d | Err why => Malformed why end
        end
    end
  else NotLane.

(** [readApprovalExpired] and [readApprovalRevoked], down to the target. *)
Definition readApprovalExpired (entry : JournalEntry) : option N :=
  if decide (e_kind entry = KDecision) then
    let value := default [] (asRecord (e_value entry)) in
    if is_str (prop value "decisionType") "approval_expired" then
      targetRef ← readSeq (prop value "targetRef");
      _ ← nonEmptyString (prop value "expiresAt");
      Some targetRef
    else None
  else None.

Definition readApprovalRevoked (entry : JournalEntry) : option N :=
  if decide (e_kind entry = KDecision) then
    let value := default [] (asRecord (e_value entry)) in
    if is_str (prop value "decisionType") "approval_revoked" then readSeq (prop value "targetRef")
    else None
  else None.

(** The key an approval licenses, from its own payload. *)
Definition approvalLicensedKey (entry : JournalEntry) : option string :=
  nonEmptyString (opt_prop (asRecord (e_value entry)) "effectLogicalKey").

(** [a === b] on unchecked members: equal primitives, or both absent; two
    objects of a journal are never the same object. *)
Definition strict_equal (a b : option json) : bool :=
  match a, b with
  | None, None => true
  | Some JNull, Some JNull => true
  | Some (JBool x), Some (JBool y) => Bool.eqb x y
  | Some (JNum x), Some (JNum y) => (x =? y)%Z
  | Some (JFrac x p), Some (JFrac y q) => (x * Zpos q =? y * Zpos p)%Z
  | Some (JStr x), Some (JStr y) => bool_decide (x = y)
  | _, _ => false
  end.
