(* ===== verification/EffectFold.v ===== *)
(** * The effect lane fold (packages/core/src/effects/fold.ts)

    What the effect entries of a journal mean: which intents consumed their
    approval, where each effect's machine stands, and how every lane entry is
    classified.  One pass in journal order over a context computed from the whole
    journal ([bySeq], the revocation and expiry indexes, the suspensions).

    The machines live in a [Map] and are only reached through it, so mutating a
    machine is setting it at its sequence number. *)
From S2P Require Import Prelude Json JsMap Entries Disposition Resolution EffectTypes.

Inductive EffectVoidReason :=
  | no_epoch | stale_epoch | no_such_approval | approval_not_allowed | approval_revoked
  | approval_expired | approval_names_no_key | approval_key_mismatch | duplicate_logical_key
  | compensation_depth | bad_causal_ref.

Inductive CloserKind := revoked | expired.

Record PostIntentCloser := mkCloser { c_seq : N; c_kind : CloserKind }.

(** What the text of an [invalid] classification says. *)
Inductive InvalidWhy :=
  | no_intent_at (intentRef : N)
  | intent_is_void (intentRef : N)
  | redispatch_disabled (c : PostIntentCloser)
  | attempt_is_open
  | no_attempt_at (attemptRef : N)
  | attempt_already_closed (attemptRef : N)
  | cancel_not_proved
  | confirm_without_receipt
  | compensation_not_confirmed
  | no_epoch_at (epochRef : N).

Inductive EffectLaneClassification :=
  | lane_applied
  | lane_replay (firstSeq : N)
  | lane_void (reason : EffectVoidReason)
  | lane_superseded (supersededBy : N)
  | lane_incident (intentRef : N)
  | lane_invalid (why : InvalidWhy)
  | lane_malformed (why : string).

Inductive EffectMachineState :=
  | m_intent | m_dispatching | m_awaiting_receipt | m_unknown
  | m_terminal_state (t : EffectTerminalState).

Record EffectAttemptState := mkAttempt {
  at_seq : N;
  at_ordinal : Z;
  at_notAfter : string;
  at_idempotencyKey : option json;
  at_transport : option json;
  at_open : bool;
  at_outcome : option AttemptOutcome;
  at_outcomeSeq : option N;
  at_at : string;
  at_outcomeAt : option string;
}.

Record EffectReceiptState := mkReceipt {
  rs_seq : N;
  rs_at : string;
  rs_decision : ReceiptDecision;
  rs_benignDuplicateOf : option N;
  rs_conflictWith : option N;
}.

Record EffectIncidentState := mkIncident {
  in_seq : N;
  in_incident : string;
  in_causalRef : option json;
  in_detail : option json;
}.

Record EffectDispositionState := mkDispositionState {
  di_seq : N;
  di_principal : string;
  di_reason : string;
  di_disposition : string;
  di_causalRef : option json;
}.

Record EffectProbeState := mkProbe {
  pr_seq : N;
  pr_probe : ProbeKind;
  pr_found : bool;
  pr_acceptanceClosed : option json;
}.

Record TerminalRecord := mkTerminal {
  te_seq : N;
  te_terminal : EffectTerminalState;
  te_reason : option json;
  te_causalRef : option json;
}.

(** [EffectMachine]; the members copied from the intent are [m_decision]. *)
Record EffectMachine := mkMachine {
  m_intentSeq : N;
  m_at : string;
  m_opId : string;
  m_decision : IntentDecision;
  m_consumed : bool;
  m_voidReason : option EffectVoidReason;
  m_state : EffectMachineState;
  m_attempts : list EffectAttemptState;
  m_receipts : list EffectReceiptState;
  m_incidents : list EffectIncidentState;
  m_dispositions : list EffectDispositionState;
  m_probes : list EffectProbeState;
  m_terminal : option TerminalRecord;
  m_pendingConflict : option N;
  m_postIntentCloser : option PostIntentCloser;
  m_compensatedBy : option N;
}.

Record EffectEpochState := mkEpoch {
  ep_seq : N;
  ep_generation : string;
  ep_restorationGeneration : option Z;
  ep_needsReconciliation : bool;
  ep_reconciled : bool;
}.

Record EffectDeclarationState := mkDeclaration {
  dc_seq : N;
  dc_logicalKey : string;
  dc_effectClass : EffectClass;
  dc_capabilityRow : EffectCapabilityRow;
  dc_argumentsHash : string;
}.

(** [StandaloneRefusal] and [StandaloneQuarantine]. *)
Record StandaloneRecord := mkStandalone {
  sa_seq : N;
  sa_logicalKey : json;
  sa_reason : option json;
}.

Record EffectLaneFold := mkLane {
  machinesByIntent : jsmap N EffectMachine;
  canonicalByEpochKey : gmap string N;
  laneClasses : gmap N EffectLaneClassification;
  opIds : gmap string N;
  epochList : list EffectEpochState;
  declarationList : list EffectDeclarationState;
  refusalList : list StandaloneRecord;
  quarantineList : list StandaloneRecord;
}.

Definition empty_lane : EffectLaneFold := mkLane jm_empty ∅ ∅ ∅ [] [] [] [].

(** ** Setters *)

Definition set_machines (f : EffectLaneFold) (ms : jsmap N EffectMachine) : EffectLaneFold :=
  mkLane ms (canonicalByEpochKey f) (laneClasses f) (opIds f) (epochList f) (declarationList f)
    (refusalList f) (quarantineList f).

Definition set_machine (f : EffectLaneFold) (m : EffectMachine) : EffectLaneFold :=
  set_machines f (jm_set (machinesByIntent f) (m_intentSeq m) m).

Definition set_canonical (f : EffectLaneFold) (key : string) (seq : N) : EffectLaneFold :=
  mkLane (machinesByIntent f) (<[key := seq]> (canonicalByEpochKey f)) (laneClasses f) (opIds f)
    (epochList f) (declarationList f) (refusalList f) (quarantineList f).

Definition classify_lane (f : EffectLaneFold) (seq : N) (c : EffectLaneClassification)
    : EffectLaneFold :=
  mkLane (machinesByIntent f) (canonicalByEpochKey f) (<[seq := c]> (laneClasses f)) (opIds f)
    (epochList f) (declarationList f) (refusalList f) (quarantineList f).

Definition set_opId (f : EffectLaneFold) (opId : string) (seq : N) : EffectLaneFold :=
  mkLane (machinesByIntent f) (canonicalByEpochKey f) (laneClasses f) (<[opId := seq]> (opIds f))
    (epochList f) (declarationList f) (refusalList f) (quarantineList f).

Definition set_epochs (f : EffectLaneFold) (es : list EffectEpochState) : EffectLaneFold :=
  mkLane (machinesByIntent f) (canonicalByEpochKey f) (laneClasses f) (opIds f) es
    (declarationList f) (refusalList f) (quarantineList f).

Definition push_declaration (f : EffectLaneFold) (d : EffectDeclarationState) : EffectLaneFold :=
  mkLane (machinesByIntent f) (canonicalByEpochKey f) (laneClasses f) (opIds f) (epochList f)
    (declarationList f ++ [d]) (refusalList f) (quarantineList f).

Definition push_refusal (f : EffectLaneFold) (r : StandaloneRecord) : EffectLaneFold :=
  mkLane (machinesByIntent f) (canonicalByEpochKey f) (laneClasses f) (opIds f) (epochList f)
    (declarationList f) (refusalList f ++ [r]) (quarantineList f).

Definition push_quarantine (f : EffectLaneFold) (r : StandaloneRecord) : EffectLaneFold :=
  mkLane (machinesByIntent f) (canonicalByEpochKey f) (laneClasses f) (opIds f) (epochList f)
    (declarationList f) (refusalList f) (quarantineList f ++ [r]).

(** The mutable members of a machine. *)
Definition set_body (m : EffectMachine) (state : EffectMachineState)
    (attempts : list EffectAttemptState) (receipts : list EffectReceiptState)
    (incidents : list EffectIncidentState) (terminal : option TerminalRecord)
    (pending : option N) : EffectMachine :=
  mkMachine (m_intentSeq m) (m_at m) (m_opId m) (m_decision m) (m_consumed m) (m_voidReason m)
    state attempts receipts incidents (m_dispositions m) (m_probes m) terminal pending
    (m_postIntentCloser m) (m_compensatedBy m).

Definition set_verdict (m : EffectMachine) (consumed : bool) (reason : option EffectVoidReason)
    (state : EffectMachineState) : EffectMachine :=
  mkMachine (m_intentSeq m) (m_at m) (m_opId m) (m_decision m) consumed reason
    state (m_attempts m) (m_receipts m) (m_incidents m) (m_dispositions m) (m_probes m)
    (m_terminal m) (m_pendingConflict m) (m_postIntentCloser m) (m_compensatedBy m).

Definition open_attempt_record (m : EffectMachine) (a : EffectAttemptState) : EffectMachine :=
  set_body m m_dispatching (m_attempts m ++ [a]) (m_receipts m) (m_incidents m) (m_terminal m)
    (m_pendingConflict m).

Definition set_attempts (m : EffectMachine) (l : list EffectAttemptState) : EffectMachine :=
  set_body m (m_state m) l (m_receipts m) (m_incidents m) (m_terminal m) (m_pendingConflict m).

Definition set_state (m : EffectMachine) (s : EffectMachineState) : EffectMachine :=
  set_body m s (m_attempts m) (m_receipts m) (m_incidents m) (m_terminal m) (m_pendingConflict m).

Definition push_receipt (m : EffectMachine) (r : EffectReceiptState) : EffectMachine :=
  set_body m (m_state m) (m_attempts m) (m_receipts m ++ [r]) (m_incidents m) (m_terminal m)
    (m_pendingConflict m).

Definition push_incident (m : EffectMachine) (i : EffectIncidentState) : EffectMachine :=
  set_body m (m_state m) (m_attempts m) (m_receipts m) (m_incidents m ++ [i]) (m_terminal m)
    (m_pendingConflict m).

Definition set_terminal (m : EffectMachine) (t : TerminalRecord) : EffectMachine :=
  set_body m (m_terminal_state (te_terminal t)) (m_attempts m) (m_receipts m) (m_incidents m)
    (Some t) (m_pendingConflict m).

Definition mark_conflict (m : EffectMachine) (seq : N) : EffectMachine :=
  set_body m (m_state m) (m_attempts m) (m_receipts m) (m_incidents m) (m_terminal m) (Some seq).

Definition push_probe (m : EffectMachine) (p : EffectProbeState) : EffectMachine :=
  mkMachine (m_intentSeq m) (m_at m) (m_opId m) (m_decision m) (m_consumed m) (m_voidReason m)
    (m_state m) (m_attempts m) (m_receipts m) (m_incidents m) (m_dispositions m)
    (m_probes m ++ [p]) (m_terminal m) (m_pendingConflict m) (m_postIntentCloser m)
    (m_compensatedBy m).

Definition push_disposition (m : EffectMachine) (d : EffectDispositionState) : EffectMachine :=
  mkMachine (m_intentSeq m) (m_at m) (m_opId m) (m_decision m) (m_consumed m) (m_voidReason m)
    (m_state m) (m_attempts m) (m_receipts m) (m_incidents m) (m_dispositions m ++ [d])
    (m_probes m) (m_terminal m) (m_pendingConflict m) (m_postIntentCloser m) (m_compensatedBy m).

Definition set_closer (m : EffectMachine) (c : option PostIntentCloser) : EffectMachine :=
  mkMachine (m_intentSeq m) (m_at m) (m_opId m) (m_decision m) (m_consumed m) (m_voidReason m)
    (m_state m) (m_attempts m) (m_receipts m) (m_incidents m) (m_dispositions m) (m_probes m)
    (m_terminal m) (m_pendingConflict m) c (m_compensatedBy m).

Definition set_compensatedBy (m : EffectMachine) (seq : N) : EffectMachine :=
  mkMachine (m_intentSeq m) (m_at m) (m_opId m) (m_decision m) (m_consumed m) (m_voidReason m)
    (m_state m) (m_attempts m) (m_receipts m) (m_incidents m) (m_dispositions m) (m_probes m)
    (m_terminal m) (m_pendingConflict m) (m_postIntentCloser m) (Some seq).

(** ** The context the fold reads *)

Record LaneContext := mkContext {
  lx_bySeq : gmap N JournalEntry;
  lx_revoked : gmap N (list N);
  lx_expired : gmap N (list N);
  lx_resolutions : ResolutionFold;
}.

(** Appending a sequence number to the list of its target. *)
Definition index_add (idx : gmap N (list N)) (target : option N) (seq : N) : gmap N (list N) :=
  match target with
  | None => idx
  | Some t => <[t := default [] (idx !! t) ++ [seq]]> idx
  end.

Definition index_closers (x : LaneContext) (entry : JournalEntry) : LaneContext :=
  mkContext (<[e_seq entry := entry]> (lx_bySeq x))
    (index_add (lx_revoked x) (readApprovalRevoked entry) (e_seq entry))
    (index_add (lx_expired x) (readApprovalExpired entry) (e_seq entry))
    (lx_resolutions x).

Definition lane_context (resolutions : ResolutionFold) (entries : list JournalEntry) : LaneContext :=
  foldl index_closers (mkContext ∅ ∅ ∅ resolutions) entries.

Definition firstAtOrBelow (l : option (list N)) (position : N) : option N :=
  l ≫= find_first (fun seq => (seq <? position)%N).

Definition firstAbove (l : option (list N)) (position : N) : option N :=
  l ≫= find_first (fun seq => (position <? seq)%N).

Definition latestEpochBefore (f : EffectLaneFold) (position : N) : option EffectEpochState :=
  foldl (fun latest epoch => if (ep_seq epoch <? position)%N then Some epoch else latest)
    None (epochList f).

Definition closerAfterIntent (x : LaneContext) (m : EffectMachine) : option PostIntentCloser :=
  let ref := i_approvalRef (m_decision m) in
  match firstAbove (lx_revoked x !! ref) (m_intentSeq m),
        firstAbove (lx_expired x !! ref) (m_intentSeq m) with
  | None, None => None
  | Some r, None => Some (mkCloser r revoked)
  | None, Some e => Some (mkCloser e expired)
  | Some r, Some e => if (r <=? e)%N then Some (mkCloser r revoked) else Some (mkCloser e expired)
  end.

(** ** Consumption *)

Definition or_void {A} (reason : EffectVoidReason) (o : option A) : result EffectVoidReason A :=
  match o with Some a => Ok a | None => Err reason end.

Definition void_unless (reason : EffectVoidReason) (b : bool) : result EffectVoidReason unit :=
  if b then Ok tt else Err reason.

(** The approval had resolved ['allow'] before [position]. *)
Definition allowed_before (resolutions : ResolutionFold) (approvalRef position : N) : bool :=
  match suspensionState resolutions approvalRef with
  | Resolved by_ value =>
      (by_ <? position)%N && is_str (opt_prop (asRecord (Some value)) "decision") "allow"
  | _ => false
  end.

Definition consumed_at (f : EffectLaneFold) (seq : N) : option EffectMachine :=
  m ← jm_get (machinesByIntent f) seq; if m_consumed m then Some m else None.

Definition causal_refs (f : EffectLaneFold) (i : IntentDecision) : result EffectVoidReason unit :=
  _ ← match i_compensates i with
      | None => Ok tt
      | Some ref =>
          target ← or_void bad_causal_ref (consumed_at f ref);
          void_unless compensation_depth (bool_decide (i_compensates (m_decision target) = None))
      end;
  match i_successorOf i with
  | None => Ok tt
  | Some ref => _ ← or_void bad_causal_ref (consumed_at f ref); Ok tt
  end.

Definition canonicalKey (epoch : N) (logicalKey : string) : string :=
  dec_of_N epoch +:+ ":" +:+ logicalKey.

(** The checks of [applyIntent] in their order; the canonical key when they
    all hold. *)
Definition intent_verdict (x : LaneContext) (f : EffectLaneFold) (seq : N) (i : IntentDecision)
    : result EffectVoidReason string :=
  epoch ← or_void no_epoch (latestEpochBefore f seq);
  _ ← void_unless stale_epoch (ep_seq epoch =? i_epochRef i)%N;
  approval ← or_void no_such_approval (lx_bySeq x !! i_approvalRef i);
  _ ← void_unless no_such_approval (bool_decide (e_kind approval = KApproval));
  _ ← void_unless approval_not_allowed (allowed_before (lx_resolutions x) (i_approvalRef i) seq);
  _ ← void_unless approval_revoked
        (bool_decide (firstAtOrBelow (lx_revoked x !! i_approvalRef i) seq = None));
  _ ← void_unless approval_expired
        (bool_decide (firstAtOrBelow (lx_expired x !! i_approvalRef i) seq = None));
  licensed ← or_void approval_names_no_key (approvalLicensedKey approval);
  _ ← void_unless approval_key_mismatch (bool_decide (licensed = i_logicalKey i));
  _ ← causal_refs f i;
  let key := canonicalKey (ep_seq epoch) (i_logicalKey i) in
  _ ← void_unless duplicate_logical_key (bool_decide (canonicalByEpochKey f !! key = None));
  Ok key.

Definition fresh_machine (entry : JournalEntry) (opId : string) (i : IntentDecision)
    : EffectMachine :=
  mkMachine (e_seq entry) (e_startedAt entry) opId i false None (m_terminal_state refused)
    [] [] [] [] [] None None None None.

Definition applyIntent (x : LaneContext) (f : EffectLaneFold) (entry : JournalEntry)
    (opId : string) (i : IntentDecision) : EffectLaneFold :=
  let machine := fresh_machine entry opId i in
  let f := set_machine f machine in
  match intent_verdict x f (e_seq entry) i with
  | Err reason =>
      classify_lane (set_machine f (set_verdict machine false (Some reason) (m_state machine)))
        (e_seq entry) (lane_void reason)
  | Ok key =>
      classify_lane
        (set_machine (set_canonical f key (e_seq entry)) (set_verdict machine true None m_intent))
        (e_seq entry) lane_applied
  end.

(** ** The machine's transitions *)

(** [liveMachine], in continuation style. *)
Definition liveMachine (f : EffectLaneFold) (seq intentRef : N)
    (k : EffectMachine → EffectLaneFold) : EffectLaneFold :=
  match jm_get (machinesByIntent f) intentRef with
  | None => classify_lane f seq (lane_invalid (no_intent_at intentRef))
  | Some m =>
      if m_consumed m then k m
      else classify_lane f seq (lane_invalid (intent_is_void intentRef))
  end.

Definition applyAttempt (x : LaneContext) (f : EffectLaneFold) (entry : JournalEntry)
    (m : EffectMachine) (ordinal : Z) (notAfter : string) (idempotencyKey transport : option json)
    : EffectLaneFold :=
  let seq := e_seq entry in
  match m_terminal m with
  | Some t => classify_lane f seq (lane_superseded (te_seq t))
  | None =>
      let push :=
        if existsb at_open (m_attempts m) then classify_lane f seq (lane_invalid attempt_is_open)
        else
          classify_lane
            (set_machine f (open_attempt_record m
               (mkAttempt seq ordinal notAfter idempotencyKey transport true None None
                  (e_startedAt entry) None)))
            seq lane_applied in
      match closerAfterIntent x m with
      | Some c =>
          if (c_seq c <? seq)%N then classify_lane f seq (lane_invalid (redispatch_disabled c))
          else push
      | None => push
      end
  end.

Definition close_attempt (a : EffectAttemptState) (outcome : AttemptOutcome) (entry : JournalEntry)
    : EffectAttemptState :=
  mkAttempt (at_seq a) (at_ordinal a) (at_notAfter a) (at_idempotencyKey a) (at_transport a) false
    (Some outcome) (Some (e_seq entry)) (at_at a) (Some (e_startedAt entry)).

(** Mutating the attempt [find] returned. *)
Fixpoint update_attempt (ref : N) (g : EffectAttemptState → EffectAttemptState)
    (l : list EffectAttemptState) : list EffectAttemptState :=
  match l with
  | [] => []
  | a :: rest => if (at_seq a =? ref)%N then g a :: rest else a :: update_attempt ref g rest
  end.

Definition state_after_outcome (outcome : AttemptOutcome) : EffectMachineState :=
  match outcome with accepted => m_awaiting_receipt | failed => m_intent | unknown => m_unknown end.

Definition applyOutcome (f : EffectLaneFold) (entry : JournalEntry) (m : EffectMachine)
    (attemptRef : N) (outcome : AttemptOutcome) : EffectLaneFold :=
  let seq := e_seq entry in
  match find_first (fun a => (at_seq a =? attemptRef)%N) (m_attempts m) with
  | None => classify_lane f seq (lane_invalid (no_attempt_at attemptRef))
  | Some a =>
      if negb (at_open a) then
        classify_lane f seq (lane_invalid (attempt_already_closed attemptRef))
      else
        let m := set_attempts m
                   (update_attempt attemptRef (fun a => close_attempt a outcome entry) (m_attempts m)) in
        match m_terminal m with
        | Some _ =>
            classify_lane
              (set_machine f (push_incident m
                 (mkIncident seq "post-terminal-outcome" (Some (JNum (Z.of_N attemptRef))) None)))
              seq (lane_incident (m_intentSeq m))
        | None =>
            classify_lane (set_machine f (set_state m (state_after_outcome outcome))) seq lane_applied
        end
  end.

(** The earlier verified receipt. *)
Definition verified_receipt (m : EffectMachine) : option EffectReceiptState :=
  find_first (fun r => bool_decide (rc_verification (rs_decision r) = verified)) (m_receipts m).

Definition same_receipt (a b : ReceiptDecision) : bool :=
  strict_equal (rc_transferId a) (rc_transferId b)
  && strict_equal (rc_amount a) (rc_amount b)
  && strict_equal (rc_documentHash a) (rc_documentHash b).

Definition after_terminal (f : EffectLaneFold) (seq : N) (m : EffectMachine) (incident : string)
    (causalRef : N) (detail : option json) : EffectLaneFold :=
  classify_lane
    (set_machine f (push_incident m
       (mkIncident seq incident (Some (JNum (Z.of_N causalRef))) detail)))
    seq (lane_incident (m_intentSeq m)).

Definition conflict_detail : option json :=
  Some (JStr "same logical key, different provider identity or amount, after the terminal").

Definition applyReceipt (f : EffectLaneFold) (seq : N) (startedAt : string) (m : EffectMachine)
    (d : ReceiptDecision) : EffectLaneFold :=
  let receipt := mkReceipt seq startedAt d in
  match rc_verification d with
  | unverified =>
      let m' := push_receipt m (receipt None None) in
      match m_terminal m with
      | None => classify_lane (set_machine f (set_state m' m_unknown)) seq lane_applied
      | Some _ => after_terminal f seq m' "receipt-after-terminal" seq None
      end
  | verified =>
      match verified_receipt m with
      | Some prior =>
          if same_receipt (rs_decision prior) d then
            classify_lane (set_machine f (push_receipt m (receipt (Some (rs_seq prior)) None)))
              seq lane_applied
          else
            let m' := push_receipt m (receipt None (Some (rs_seq prior))) in
            match m_terminal m with
            | Some _ => after_terminal f seq m' "conflicting-duplicate" (rs_seq prior) conflict_detail
            | None => classify_lane (set_machine f (mark_conflict m' seq)) seq lane_applied
            end
      | None =>
          let m' := push_receipt m (receipt None None) in
          match m_terminal m with
          | Some _ => after_terminal f seq m' "receipt-after-terminal" seq None
          | None => classify_lane (set_machine f m') seq lane_applied
          end
      end
  end.

(** The machine a [causalRef] names, through [Map.get] on an unchecked value. *)
Definition causal_machine (f : EffectLaneFold) (causalRef : option json) : option EffectMachine :=
  ref ← readSeq causalRef; jm_get (machinesByIntent f) ref.

Definition compensation_confirmed (f : EffectLaneFold) (seq : N) (m : EffectMachine)
    (causalRef : option json) : bool :=
  match causal_machine f causalRef with
  | None => false
  | Some c =>
      m_consumed c
      && bool_decide (i_compensates (m_decision c) = Some (m_intentSeq m))
      && match m_terminal c with
         | Some t => bool_decide (te_terminal t = confirmed) && (te_seq t <? seq)%N
         | None => false
         end
  end.

(** An attempt that proves nothing about the effect. *)
Definition attempt_unproved (a : EffectAttemptState) : bool :=
  at_open a || negb (bool_decide (at_outcome a = Some failed)).

Definition terminalIllegality (f : EffectLaneFold) (seq : N) (m : EffectMachine)
    (terminal : EffectTerminalState) (causalRef : option json) : option InvalidWhy :=
  match terminal with
  | cancelled_before_dispatch =>
      if existsb attempt_unproved (m_attempts m) then Some cancel_not_proved else None
  | confirmed => if verified_receipt m is Some _ then None else Some confirm_without_receipt
  | compensated =>
      if compensation_confirmed f seq m causalRef then None else Some compensation_not_confirmed
  | _ => None
  end.

Definition applyTerminal (f : EffectLaneFold) (seq : N) (m : EffectMachine)
    (terminal : EffectTerminalState) (reason causalRef : option json) : EffectLaneFold :=
  match m_terminal m with
  | Some t => classify_lane f seq (lane_superseded (te_seq t))
  | None =>
      match terminalIllegality f seq m terminal causalRef with
      | Some why => classify_lane f seq (lane_invalid why)
      | None =>
          classify_lane (set_machine f (set_terminal m (mkTerminal seq terminal reason causalRef)))
            seq lane_applied
      end
  end.

Definition standalone (f : EffectLaneFold) (seq : N) (terminal : EffectTerminalState)
    (logicalKey reason : option json) : EffectLaneFold :=
  let key := match logicalKey with None | Some JNull => JStr "" | Some k => k end in
  let record := mkStandalone seq key reason in
  classify_lane
    (if decide (terminal = quarantined) then push_quarantine f record else push_refusal f record)
    seq lane_applied.

Definition new_epoch (f : EffectLaneFold) (seq : N) (generation : string)
    (restoration : option Z) : EffectEpochState :=
  mkEpoch seq generation restoration
    match last (epochList f) with
    | None => false
    | Some previous =>
        negb (default 0 (ep_restorationGeneration previous) =? default 0 restoration)%Z
    end
    false.

(** Mutating the epoch [find] returned. *)
Fixpoint reconcile_epoch (ref : N) (l : list EffectEpochState) : list EffectEpochState :=
  match l with
  | [] => []
  | e :: rest =>
      if (ep_seq e =? ref)%N then
        mkEpoch (ep_seq e) (ep_generation e) (ep_restorationGeneration e)
          (ep_needsReconciliation e) true :: rest
      else e :: reconcile_epoch ref rest
  end.

Definition applyDecision (x : LaneContext) (f : EffectLaneFold) (entry : JournalEntry)
    (opId : string) (d : EffectLaneDecision) : EffectLaneFold :=
  let seq := e_seq entry in
  let applied f := classify_lane f seq lane_applied in
  match d with
  | effect_epoch generation restoration =>
      applied (set_epochs f (epochList f ++ [new_epoch f seq generation restoration]))
  | effect_declared key cls row hash =>
      applied (push_declaration f (mkDeclaration seq key cls row hash))
  | effect_intent i => applyIntent x f entry opId i
  | effect_attempt intentRef ordinal notAfter idempotencyKey transport =>
      liveMachine f seq intentRef
        (fun m => applyAttempt x f entry m ordinal notAfter idempotencyKey transport)
  | effect_outcome intentRef attemptRef outcome =>
      liveMachine f seq intentRef (fun m => applyOutcome f entry m attemptRef outcome)
  | effect_receipt intentRef r =>
      liveMachine f seq intentRef (fun m => applyReceipt f seq (e_startedAt entry) m r)
  | effect_terminal None logicalKey terminal reason _ =>
      standalone f seq terminal logicalKey reason
  | effect_terminal (Some intentRef) _ terminal reason causalRef =>
      liveMachine f seq intentRef (fun m => applyTerminal f seq m terminal reason causalRef)
  | effect_incident intentRef incident causalRef detail =>
      liveMachine f seq intentRef
        (fun m => applied (set_machine f (push_incident m (mkIncident seq incident causalRef detail))))
  | effect_disposition intentRef principal reason disposition causalRef =>
      liveMachine f seq intentRef
        (fun m => applied (set_machine f (push_disposition m
                    (mkDispositionState seq principal reason disposition causalRef))))
  | effect_probe intentRef probe found acceptanceClosed =>
      liveMachine f seq intentRef
        (fun m => applied (set_machine f (push_probe m (mkProbe seq probe found acceptanceClosed))))
  | effect_reconciliation_complete epochRef =>
      if existsb (fun e => (ep_seq e =? epochRef)%N) (epochList f) then
        applied (set_epochs f (reconcile_epoch epochRef (epochList f)))
      else classify_lane f seq (lane_invalid (no_epoch_at epochRef))
  end.

Definition applyEntry (x : LaneContext) (f : EffectLaneFold) (entry : JournalEntry)
    : EffectLaneFold :=
  match readEffectLaneDecision entry with
  | NotLane => f
  | Malformed why => classify_lane f (e_seq entry) (lane_malformed why)
  | Lane opId d =>
      match opIds f !! opId with
      | Some firstSeq => classify_lane f (e_seq entry) (lane_replay firstSeq)
      | None => applyDecision x (set_opId f opId (e_seq entry)) entry opId d
      end
  end.

(** ** Finalization, construction and reading *)

Definition is_confirmed (m : EffectMachine) : bool :=
  match m_terminal m with Some t => bool_decide (te_terminal t = confirmed) | None => false end.

(** The two halves of the loop body of [finalize]. *)
Definition close_after_intent (x : LaneContext) (f : EffectLaneFold) (m : EffectMachine)
    : EffectLaneFold :=
  match closerAfterIntent x m with
  | None => f
  | Some c => set_machine f (set_closer m (Some c))
  end.

Definition link_compensation (f : EffectLaneFold) (m : EffectMachine) : EffectLaneFold :=
  match i_compensates (m_decision m) with
  | None => f
  | Some ref =>
      if is_confirmed m then
        match jm_get (machinesByIntent f) ref with
        | Some original =>
            if is_confirmed original then set_machine f (set_compensatedBy original (m_intentSeq m))
            else f
        | None => f
        end
      else f
  end.

Definition finalize_machine (x : LaneContext) (f : EffectLaneFold) (seq : N) : EffectLaneFold :=
  match jm_get (machinesByIntent f) seq with
  | None => f
  | Some m => if m_consumed m then link_compensation (close_after_intent x f m) m else f
  end.

Definition finalize (x : LaneContext) (f : EffectLaneFold) : EffectLaneFold :=
  foldl (finalize_machine x) f (jm_order (machinesByIntent f)).

(** The state after the entry loop, before [finalize]. *)
Definition lane_entries (x : LaneContext) (entries : list JournalEntry) : EffectLaneFold :=
  foldl (applyEntry x) empty_lane entries.

Section Construct.
Variable validate : json → json → bool * option string.

Definition newEffectLaneFold (entries : list JournalEntry) : result FoldError EffectLaneFold :=
  resolutions ← newResolutionFold validate entries;
  let x := lane_context resolutions entries in
  Ok (finalize x (lane_entries x entries)).
End Construct.

Definition effectiveEffectState (m : EffectMachine) : EffectMachineState :=
  match m_state m, m_compensatedBy m with
  | m_terminal_state confirmed, Some _ => m_terminal_state compensated
  | s, _ => s
  end.

Definition machines (f : EffectLaneFold) : list EffectMachine := jm_values (machinesByIntent f).
Definition machineAt (f : EffectLaneFold) (seq : N) : option EffectMachine :=
  jm_get (machinesByIntent f) seq.
Definition currentEpoch (f : EffectLaneFold) : option EffectEpochState := last (epochList f).

Definition canonicalIntent (f : EffectLaneFold) (logicalKey : string) : option EffectMachine :=
  epoch ← currentEpoch f;
  seq ← canonicalByEpochKey f !! canonicalKey (ep_seq epoch) logicalKey;
  machineAt f seq.

Definition openMachines (f : EffectLaneFold) : list EffectMachine :=
  List.filter (fun m => m_consumed m && bool_decide (m_terminal m = None)) (machines f).

(** ** A journal of effects

    A payment approved, sent, confirmed and compensated; its approval is revoked
    at the end. *)
Definition lane_entry (seq : N) (decisionType opId : string) (fields : record) : JournalEntry :=
  with_value (base_entry seq "effects" opId KDecision StOk)
    (JObj (("decisionType", JStr decisionType) :: ("opId", JStr opId) :: fields)).

Definition approval_entry (seq : N) (logicalKey : string) : JournalEntry :=
  with_deadline
    (with_value (base_entry seq "" "approve" KApproval StSuspended)
       (JObj [("effectLogicalKey", JStr logicalKey)])) "2030-01-01".

Definition num (n : N) : json := JNum (Z.of_N n).

Definition intent_fields (key : string) (approvalRef epochRef : N) (more : record) : record :=
  ("logicalKey", JStr key) :: ("approvalRef", num approvalRef) :: ("epochRef", num epochRef)
  :: ("effectClass", JStr "monetary") :: ("capabilityRow", JStr "idempotency-key")
  :: ("argumentsHash", JStr "h")
  :: ("budgets", JObj [("attempts", num 2); ("lookups", num 1); ("receiptWaitMs", num 10);
                       ("reconcileBy", JStr "2030-02-01")])
  :: more.

Definition allow_entry (seq approvalRef : N) : JournalEntry :=
  resolution_of seq approvalRef (JObj [("decision", JStr "allow")]).

Definition demo_receipt (seq intentRef : N) : JournalEntry :=
  lane_entry seq "effect_receipt" ("receipt-" +:+ dec_of_N seq)
    [("intentRef", num intentRef); ("verification", JStr "verified"); ("transferId", JStr "t")].

Definition demo_terminal (seq intentRef : N) (terminal : string) : JournalEntry :=
  lane_entry seq "effect_terminal" ("close-" +:+ dec_of_N seq)
    [("intentRef", num intentRef); ("terminal", JStr terminal)].

Definition demo_send (seq intentRef ordinal : N) : JournalEntry :=
  lane_entry seq "effect_attempt" ("send-" +:+ dec_of_N seq)
    [("intentRef", num intentRef); ("ordinal", num ordinal); ("notAfter", JStr "2030-01-02")].

Definition demo_payment : list JournalEntry :=
  [lane_entry 0 "effect_epoch" "epoch" [("generation", JStr "g1")];
   approval_entry 1 "pay-1"; allow_entry 2 1;
   lane_entry 3 "effect_intent" "intent" (intent_fields "pay-1" 1 0 []);
   demo_send 4 3 1;
   lane_entry 5 "effect_outcome" "outcome"
     [("intentRef", num 3); ("attemptRef", num 4); ("outcome", JStr "accepted")];
   demo_receipt 6 3; demo_terminal 7 3 "confirmed"].

Definition demo_refund : list JournalEntry :=
  [approval_entry 8 "refund-1"; allow_entry 9 8;
   lane_entry 10 "effect_intent" "refund" (intent_fields "refund-1" 8 0 [("compensates", num 3)]);
   demo_receipt 11 10; demo_terminal 12 10 "confirmed";
   with_value (base_entry 13 "effects" "revoke" KDecision StOk)
     (JObj [("decisionType", JStr "approval_revoked"); ("targetRef", num 1)])].

Definition demo_effects : list JournalEntry := demo_payment ++ demo_refund.

(** The fold of a journal that folds. *)
Definition lane_of (entries : list JournalEntry) : EffectLaneFold :=
  match newEffectLaneFold any_schema entries with Ok f => f | Err _ => empty_lane end.

Definition machine_of (entries : list JournalEntry) (seq : N) : EffectMachine :=
  default (fresh_machine (base_entry 0 "" "" KDecision StOk) ""
             (mkIntent "" 0 0 monetary row_neither None "" None None
                (mkBudgets 1 0 JNull None "") None None))
    (machineAt (lane_of entries) seq).
