(* ===== verification/EffectLaws.v ===== *)
(** * The laws of the effect lane (packages/core/src/effects/fold.ts)

    One entry as a step on the fold's state ([lane_step]), the invariant every
    folded journal satisfies ([lane_inv]), and the properties it carries: what a
    consumed intent proves, one canonical intent per key and epoch, when attempts
    and terminals are legal. *)
From S2P Require Import Prelude Json JsMap Entries Disposition Resolution EffectTypes EffectFold.

#[local] Open Scope N_scope.

(** ** One entry as a step *)

(** What an applied sub-record does to its machine. *)
Inductive machine_step (x : LaneContext) (f : EffectLaneFold) (e : JournalEntry)
    : EffectMachine → EffectMachine → Prop :=
  | ms_attempt m a :
      m_terminal m = None → existsb at_open (m_attempts m) = false →
      (∀ c, closerAfterIntent x m = Some c → e_seq e <= c_seq c) →
      at_seq a = e_seq e → at_outcome a = None →
      machine_step x f e m (open_attempt_record m a)
  | ms_outcome m ref outcome a state incidents :
      find_first (fun a => at_seq a =? ref) (m_attempts m) = Some a → at_open a = true →
      (m_terminal m ≠ None → state = m_state m) →
      machine_step x f e m
        (set_body m state (update_attempt ref (fun a => close_attempt a outcome e) (m_attempts m))
           (m_receipts m) incidents (m_terminal m) (m_pendingConflict m))
  | ms_receipt m r state incidents pending :
      rs_seq r = e_seq e → (m_terminal m ≠ None → state = m_state m) →
      machine_step x f e m
        (set_body m state (m_attempts m) (m_receipts m ++ [r]) incidents (m_terminal m) pending)
  | ms_terminal m t :
      m_terminal m = None → te_seq t = e_seq e →
      terminalIllegality f (e_seq e) m (te_terminal t) (te_causalRef t) = None →
      machine_step x f e m (set_terminal m t)
  | ms_incident m i : machine_step x f e m (push_incident m i)
  | ms_probe m p : machine_step x f e m (push_probe m p)
  | ms_disposition m d : machine_step x f e m (push_disposition m d).

(** What an entry does to the list of epochs. *)
Definition epochs_grow (e : JournalEntry) (l l' : list EffectEpochState) : Prop :=
  map ep_seq l' = map ep_seq l ∨ map ep_seq l' = map ep_seq l ++ [e_seq e].

Inductive lane_step (x : LaneContext) (f : EffectLaneFold) (e : JournalEntry)
    (f' : EffectLaneFold) : Prop :=
  | lane_quiet :
      machinesByIntent f' = machinesByIntent f →
      canonicalByEpochKey f' = canonicalByEpochKey f →
      epochs_grow e (epochList f) (epochList f') → lane_step x f e f'
  | lane_intent opId i :
      readEffectLaneDecision e = Lane opId (effect_intent i) → opIds f !! opId = None →
      f' = applyIntent x (set_opId f opId (e_seq e)) e opId i → lane_step x f e f'
  | lane_machine ref m m' :
      jm_get (machinesByIntent f) ref = Some m → m_consumed m = true →
      machine_step x f e m m' →
      machinesByIntent f' = jm_set (machinesByIntent f) (m_intentSeq m) m' →
      canonicalByEpochKey f' = canonicalByEpochKey f → epochList f' = epochList f →
      lane_step x f e f'.

Lemma map_reconcile ref l : map ep_seq (reconcile_epoch ref l) = map ep_seq l.
Proof. induction l as [|e l IH]; cbn; [done|]. case_match; cbn; [done|]. by rewrite IH. Qed.

(** The classification and the operation id an entry leaves do not matter. *)
Lemma quiet_refl x f e c opId :
  lane_step x f e (classify_lane f (e_seq e) c) ∧
  lane_step x f e (classify_lane (set_opId f opId (e_seq e)) (e_seq e) c).
Proof. split; (apply lane_quiet; [done|done|by left]). Qed.

Lemma liveMachine_step x f opId e ref k :
  (∀ m, jm_get (machinesByIntent f) ref = Some m → m_consumed m = true →
     lane_step x f e (k m)) →
  lane_step x f e (liveMachine (set_opId f opId (e_seq e)) (e_seq e) ref k).
Proof.
  intros Hk. unfold liveMachine. cbn [set_opId machinesByIntent].
  destruct (jm_get (machinesByIntent f) ref) as [m|] eqn:Hm; [|apply quiet_refl].
  destruct (m_consumed m) eqn:Hc; [|apply quiet_refl]. by apply Hk.
Qed.

(** An update of the machine a sub-record addresses. *)
Lemma machine_update x f opId e ref m m' c :
  jm_get (machinesByIntent f) ref = Some m → m_consumed m = true → machine_step x f e m m' →
  m_intentSeq m' = m_intentSeq m →
  lane_step x f e (classify_lane (set_machine (set_opId f opId (e_seq e)) m') (e_seq e) c).
Proof. intros Hm Hc Hs Hi. eapply lane_machine; [done..| |done|done]. cbn. by rewrite Hi. Qed.

Lemma attempt_step x f opId e ref m ord na ik tr :
  jm_get (machinesByIntent f) ref = Some m → m_consumed m = true →
  lane_step x f e (applyAttempt x (set_opId f opId (e_seq e)) e m ord na ik tr).
Proof.
  intros Hm Hc. unfold applyAttempt. destruct (m_terminal m) eqn:Ht; [apply quiet_refl|].
  destruct (closerAfterIntent x m) as [c|] eqn:Hcl; [destruct (N.ltb_spec (c_seq c) (e_seq e))|];
    [apply quiet_refl|..];
    (destruct (existsb at_open (m_attempts m)) eqn:Ho; [apply quiet_refl|]);
    (eapply machine_update; [done..| |done]); constructor; cbn; auto; intros c'; rewrite Hcl;
    [by intros [= <-]|done].
Qed.

Lemma outcome_step x f opId e ref m at_ outcome :
  jm_get (machinesByIntent f) ref = Some m → m_consumed m = true →
  lane_step x f e (applyOutcome (set_opId f opId (e_seq e)) e m at_ outcome).
Proof.
  intros Hm Hc. unfold applyOutcome.
  destruct (find_first _ (m_attempts m)) as [a|] eqn:Ha; [|apply quiet_refl].
  destruct (at_open a) eqn:Ho; [|apply quiet_refl]. cbn [negb].
  destruct (m_terminal (set_attempts m _)) eqn:Ht; cbn in Ht;
    (eapply machine_update; [done..| |done]);
    unfold push_incident, set_state, set_attempts, set_body; cbn;
    eapply (ms_outcome x f e m); [done|done|done|done|done|]. by rewrite Ht.
Qed.

Lemma receipt_step x f opId e ref m d :
  jm_get (machinesByIntent f) ref = Some m → m_consumed m = true →
  lane_step x f e (applyReceipt (set_opId f opId (e_seq e)) (e_seq e) (e_startedAt e) m d).
Proof.
  intros Hm Hc. unfold applyReceipt, after_terminal.
  repeat case_match; (eapply machine_update; [done..| |done]);
    by apply (ms_receipt x f e m); cbn; congruence || auto.
Qed.

Lemma terminal_step x f opId e ref m t reason cause :
  jm_get (machinesByIntent f) ref = Some m → m_consumed m = true →
  lane_step x f e (applyTerminal (set_opId f opId (e_seq e)) (e_seq e) m t reason cause).
Proof.
  intros Hm Hc. unfold applyTerminal. destruct (m_terminal m) eqn:Ht; [apply quiet_refl|].
  destruct (terminalIllegality _ _ _ _ _) eqn:Hl; [apply quiet_refl|].
  eapply machine_update; [done..| |done]. by constructor.
Qed.

(** Every entry is a step. *)
Lemma applyEntry_step x f e : lane_step x f e (applyEntry x f e).
Proof.
  unfold applyEntry. destruct (readEffectLaneDecision e) as [|opId d|why] eqn:Hr;
    [apply lane_quiet; [done|done|by left]| |apply (quiet_refl _ _ _ _ "")].
  destruct (opIds f !! opId) eqn:Ho; [apply (quiet_refl _ _ _ _ "")|].
  destruct d as [g r|k c r h|i|ref ord na ik tr|ref at_ oc|ref r|[ref|] k t re ca|ref i ca de
                |ref p re di ca|ref p fo ac|ref]; cbn [applyDecision].
  - apply lane_quiet; [done..|]. right. cbn. by rewrite map_app.
  - apply lane_quiet; [done|done|by left].
  - by eapply lane_intent.
  - apply liveMachine_step. intros m Hm Hc. by eapply attempt_step.
  - apply liveMachine_step. intros m Hm Hc. by eapply outcome_step.
  - apply liveMachine_step. intros m Hm Hc. by eapply receipt_step.
  - apply liveMachine_step. intros m Hm Hc. by eapply terminal_step.
  - unfold standalone. case_decide; (apply lane_quiet; [done|done|by left]).
  - apply liveMachine_step. intros m Hm Hc. eapply machine_update; [done..| |done]. constructor.
  - apply liveMachine_step. intros m Hm Hc. eapply machine_update; [done..| |done]. constructor.
  - apply liveMachine_step. intros m Hm Hc. eapply machine_update; [done..| |done]. constructor.
  - destruct (existsb _ _); [|apply quiet_refl]. apply lane_quiet; [done..|]. left. cbn.
    apply map_reconcile.
Qed.

(** ** What machines keep

    The intent, the verdict and the first terminal never change; attempts and
    receipts only grow. *)
Definition evolves (m m' : EffectMachine) : Prop :=
  m_intentSeq m' = m_intentSeq m ∧ m_opId m' = m_opId m ∧ m_decision m' = m_decision m ∧
  m_consumed m' = m_consumed m ∧
  (∀ t, m_terminal m = Some t → m_terminal m' = Some t ∧ m_state m' = m_state m) ∧
  map at_seq (m_attempts m) `prefix_of` map at_seq (m_attempts m') ∧
  m_receipts m `prefix_of` m_receipts m'.

#[global] Instance evolves_preorder : PreOrder evolves.
Proof.
  split.
  - intros m. split_and!; auto.
  - intros a b c (H1 & H2 & H3 & H4 & H5 & H6 & H7) (K1 & K2 & K3 & K4 & K5 & K6 & K7).
    split_and!; try congruence; try (by etrans).
    intros t Ht. destruct (H5 t Ht) as [Ha Hs]. destruct (K5 t Ha). split; congruence.
Qed.

Lemma map_update_attempt ref g l :
  (∀ a, at_seq (g a) = at_seq a) → map at_seq (update_attempt ref g l) = map at_seq l.
Proof. intros Hg. induction l as [|a l IH]; cbn; [done|]. case_match; cbn; by rewrite ?Hg, ?IH. Qed.

Lemma machine_step_evolves x f e m m' : machine_step x f e m m' → evolves m m'.
Proof.
  destruct 1; repeat split; cbn; auto using prefix_app_r;
    try (rewrite map_app; by apply prefix_app_r); try congruence.
  all: try match goal with H : m_terminal ?m ≠ None → _ |- _ = m_state ?m => apply H; congruence end.
  by rewrite map_update_attempt.
Qed.

#[export] Hint Resolve machine_step_evolves : rulvar.

Definition keyed (f : EffectLaneFold) : Prop :=
  ∀ s m, jm_get (machinesByIntent f) s = Some m → m_intentSeq m = s.

(** The machine an intent leaves. *)
Lemma applyIntent_machine x f e opId i :
  machinesByIntent (applyIntent x f e opId i) =
    let m := fresh_machine e opId i in
    jm_set (jm_set (machinesByIntent f) (e_seq e) m) (e_seq e)
      (match intent_verdict x (set_machine f m) (e_seq e) i with
       | Ok _ => set_verdict m true None m_intent
       | Err reason => set_verdict m false (Some reason) (m_terminal_state refused)
       end).
Proof. unfold applyIntent. by destruct (intent_verdict _ _ _ _). Qed.

Lemma applyIntent_get x f e opId i s :
  jm_get (machinesByIntent (applyIntent x f e opId i)) s =
    if decide (e_seq e = s) then
      Some (match intent_verdict x (set_machine f (fresh_machine e opId i)) (e_seq e) i with
            | Ok _ => set_verdict (fresh_machine e opId i) true None m_intent
            | Err reason => set_verdict (fresh_machine e opId i) false (Some reason)
                              (m_terminal_state refused)
            end)
    else jm_get (machinesByIntent f) s.
Proof. rewrite applyIntent_machine. cbn zeta. rewrite !jm_get_set. by case_decide. Qed.

Lemma applyEntry_keyed x f e : keyed f → keyed (applyEntry x f e).
Proof.
  intros Hk s m. destruct (applyEntry_step x f e) as [Hm _ _|opId i _ _ ->|ref m0 m' Hg _ Hst Hm _ _].
  - rewrite Hm. apply Hk.
  - rewrite applyIntent_get. case_decide; [|apply Hk]. intros [= <-]. by case_match.
  - rewrite Hm, jm_get_set. case_decide as Hs; [|apply Hk]. intros [= <-]. rewrite <- Hs.
    by apply machine_step_evolves in Hst as (-> & _).
Qed.

(** An entry at or after [pos] leaves the machines before [pos], and they evolve. *)
Lemma applyEntry_evolves x f e s :
  keyed f → s < e_seq e →
  option_Forall2 evolves (jm_get (machinesByIntent f) s)
    (jm_get (machinesByIntent (applyEntry x f e)) s).
Proof.
  intros Hk Hs.
  destruct (applyEntry_step x f e) as [Hm _ _|opId i _ _ ->|ref m0 m' Hg _ Hst Hm _ _].
  - rewrite Hm. reflexivity.
  - rewrite applyIntent_get, decide_False by lia. cbn. reflexivity.
  - rewrite Hm, jm_get_set. case_decide as Hd; [|reflexivity].
    rewrite (Hk _ _ Hg) in Hd. subst. rewrite Hg. constructor. eauto with rulvar.
Qed.

Lemma entries_keyed x f es : keyed f → keyed (foldl (applyEntry x) f es).
Proof. revert f. induction es as [|e es IH]; intros f Hk; [done|]. by apply IH, applyEntry_keyed. Qed.

Lemma entries_evolve x f es s :
  keyed f → (∀ e, e ∈ es → s < e_seq e) →
  option_Forall2 evolves (jm_get (machinesByIntent f) s)
    (jm_get (machinesByIntent (foldl (applyEntry x) f es)) s).
Proof.
  revert f. induction es as [|e es IH]; intros f Hk Hs; cbn; [reflexivity|].
  etrans; [apply (applyEntry_evolves x f e); [done|apply Hs; by left]|].
  apply IH; [by apply applyEntry_keyed|]. intros; apply Hs; by right.
Qed.

Lemma empty_keyed : keyed empty_lane.
Proof. intros s m. cbn. unfold jm_get. cbn. by rewrite lookup_empty. Qed.

(** ** Positions *)

(** The entries of a journal in journal order. *)
Abbreviation ordered es := (StronglySorted (fun a b => e_seq a < e_seq b)%N es).

Lemma ordered_app p q :
  ordered (p ++ q) → ordered p ∧ ordered q ∧ ∀ a b, a ∈ p → b ∈ q → e_seq a < e_seq b.
Proof.
  induction p as [|x p IH]; cbn; intros Hs; [split_and!; [constructor|done|set_solver]|].
  apply StronglySorted_inv in Hs as [Hs Hall]. destruct (IH Hs) as (Hp & Hq & Hlt).
  apply Forall_app in Hall as [Hxp Hxq]. rewrite Forall_forall in Hxq. split_and!.
  - by constructor.
  - done.
  - intros a b [->|Ha]%elem_of_cons Hb; auto.
Qed.

Lemma ordered_inj es a b : ordered es → a ∈ es → b ∈ es → e_seq a = e_seq b → a = b.
Proof.
  induction 1 as [|x es Hs IH Hall]; [set_solver|]. rewrite Forall_forall in Hall.
  intros [->|Ha]%elem_of_cons [->|Hb]%elem_of_cons Heq; auto.
  - specialize (Hall b Hb). lia.
  - specialize (Hall a Ha). lia.
Qed.

(** ** The invariant of a machine *)

(** What a recorded terminal proves. *)
Definition terminal_ok (m : EffectMachine) (t : TerminalRecord) : Prop :=
  m_state m = m_terminal_state (te_terminal t) ∧
  Forall (fun a => at_seq a < te_seq t) (m_attempts m) ∧
  (te_terminal t = confirmed →
   ∃ r, r ∈ m_receipts m ∧ rc_verification (rs_decision r) = verified ∧ rs_seq r < te_seq t) ∧
  (te_terminal t = cancelled_before_dispatch →
   Forall (fun a => at_open a = false ∧ at_outcome a = Some failed) (m_attempts m)).

(** A machine after the entries before [pos]. *)
Record machine_ok (x : LaneContext) (pos : N) (m : EffectMachine) : Prop := {
  mk_attempts : Forall (fun a => m_intentSeq m < at_seq a < pos ∧
      ∀ c, closerAfterIntent x m = Some c → at_seq a <= c_seq c) (m_attempts m);
  mk_open : (length (List.filter at_open (m_attempts m)) <= 1)%nat;
  mk_receipts : Forall (fun r => rs_seq r < pos) (m_receipts m);
  mk_terminal : ∀ t, m_terminal m = Some t → te_seq t < pos ∧ terminal_ok m t;
  mk_void : m_consumed m = false →
    m_state m = m_terminal_state refused ∧ m_voidReason m ≠ None ∧ m_attempts m = [] ∧
    m_terminal m = None;
}.

Lemma machine_ok_mono x pos pos' m : machine_ok x pos m → pos <= pos' → machine_ok x pos' m.
Proof.
  intros [Ha Ho Hr Ht Hv] Hp. split; [| |..|done].
  - eapply Forall_impl; [exact Ha|]. cbn. intros a [Hs Hc]. split; [lia|done].
  - done.
  - eapply Forall_impl; [exact Hr|]. cbn. lia.
  - intros t Htt. destruct (Ht t Htt). split; [lia|done].
Qed.

Lemma closer_evolves x m m' : evolves m m' → closerAfterIntent x m' = closerAfterIntent x m.
Proof. intros (Hs & _ & Hd & _). unfold closerAfterIntent. by rewrite Hs, Hd. Qed.

Lemma Forall_update_attempt (P Q : EffectAttemptState → Prop) ref g l :
  Forall P l → (∀ a, P a → Q a) → (∀ a, P a → Q (g a)) → Forall Q (update_attempt ref g l).
Proof.
  intros Hl HQ Hg. induction Hl as [|a l Ha Hl IH]; cbn; [constructor|].
  case_match; constructor; auto. eapply Forall_impl; [exact Hl|auto].
Qed.

Lemma open_update_attempt ref g l :
  (∀ a, at_open (g a) = false) →
  (length (List.filter at_open (update_attempt ref g l)) <= length (List.filter at_open l))%nat.
Proof.
  intros Hg. induction l as [|a l IH]; cbn; [lia|].
  destruct (at_seq a =? ref); cbn; [rewrite Hg|]; destruct (at_open a); cbn; lia.
Qed.

(** An attempt found open is not a closed failure. *)
Lemma find_open_not_failed ref l a :
  find_first (fun a => at_seq a =? ref) l = Some a → at_open a = true →
  ¬ Forall (fun a => at_open a = false ∧ at_outcome a = Some failed) l.
Proof.
  intros (Hin & _)%find_first_Some Ho Hall. rewrite Forall_forall in Hall.
  destruct (Hall a Hin). congruence.
Qed.

Lemma unproved_false l :
  existsb attempt_unproved l = false →
  Forall (fun a => at_open a = false ∧ at_outcome a = Some failed) l.
Proof.
  rewrite existsb_false_elem_of. intros Hl. apply Forall_forall. intros a Ha.
  specialize (Hl a Ha). unfold attempt_unproved in Hl.
  apply orb_false_iff in Hl as [-> Hl%negb_false_iff]. by apply bool_decide_eq_true in Hl.
Qed.

Lemma no_open l : existsb at_open l = false → List.filter at_open l = [].
Proof.
  induction l as [|a l IH]; cbn; [done|]. intros [-> ?]%orb_false_iff. by apply IH.
Qed.

(** The legality check of a terminal, as a proof. *)
Lemma legal_terminal_ok x f e m t :
  machine_ok x (e_seq e) m → te_seq t = e_seq e →
  terminalIllegality f (e_seq e) m (te_terminal t) (te_causalRef t) = None →
  terminal_ok (set_terminal m t) t.
Proof.
  intros Hok Hs Hl. split_and!; cbn; [done|..].
  - eapply Forall_impl; [apply Hok|]. cbn. intros a [? _]. lia.
  - intros Ht. rewrite Ht in Hl. cbn in Hl. unfold verified_receipt in Hl.
    destruct (find_first _ _) as [r|] eqn:Hr; [|done].
    apply find_first_Some in Hr as (Hin & Hv). apply bool_decide_eq_true in Hv.
    exists r. split_and!; [done..|]. rewrite Hs.
    pose proof (mk_receipts _ _ _ Hok) as Hb. rewrite Forall_forall in Hb. by apply Hb.
  - intros Ht. rewrite Ht in Hl. cbn in Hl. apply unproved_false. by destruct (existsb _ _).
Qed.

(** A terminal stays proved when the machine only grows. *)
Lemma terminal_ok_keep m t st l rs inc pd :
  terminal_ok m t → st = m_state m → map at_seq l = map at_seq (m_attempts m) →
  m_receipts m `prefix_of` rs →
  (te_terminal t = cancelled_before_dispatch → l = m_attempts m) →
  terminal_ok (set_body m st l rs inc (m_terminal m) pd) t.
Proof.
  intros (Hst & Ha & Hc & Hx) -> Hl [k ->] Hcan. split_and!; cbn; [done|..].
  - apply (List.Forall_map at_seq (fun s => s < te_seq t)). rewrite Hl. by apply List.Forall_map.
  - intros (r & Hin & Hv)%Hc. exists r. rewrite elem_of_app. naive_solver.
  - intros Ht. rewrite Hcan by done. by apply Hx.
Qed.

Lemma machine_step_ok x f e m m' :
  m_intentSeq m < e_seq e → m_consumed m = true →
  machine_step x f e m m' → machine_ok x (e_seq e) m → machine_ok x (e_seq e + 1) m'.
Proof.
  intros Hpos Hcons Hs Hok. pose proof (machine_step_evolves _ _ _ _ _ Hs) as Hev.
  pose proof (closer_evolves x _ _ Hev) as Hcl.
  assert (m_consumed m' = true) as Hc' by (destruct Hev as (_ & _ & _ & -> & _); done).
  destruct (machine_ok_mono _ _ (e_seq e + 1) _ Hok ltac:(lia)) as [Ha Ho Hr Ht _].
  destruct Hs as [m a Hnt Hno Hc Has Hao|m ref oc a st inc Hf Hao Hst|m r st inc pd Hrs Hst
                 |m t Hnt Hts Hl|m i|m p|m d].
  - split; rewrite ?Hcl; cbn [open_attempt_record set_body m_attempts m_intentSeq m_receipts m_terminal m_consumed];
      [|..|congruence].
    + apply Forall_app. split; [done|]. apply Forall_singleton. split; [lia|]. rewrite Has. done.
    + rewrite List.filter_app, (no_open _ Hno). cbn. destruct (at_open a); cbn; lia.
    + done.
    + congruence.
  - split; rewrite ?Hcl; cbn [set_body m_attempts m_intentSeq m_receipts m_terminal m_consumed];
      [|..|congruence].
    + eapply Forall_update_attempt; [exact Ha|auto|]. intros b. auto.
    + etrans; [by apply open_update_attempt|done].
    + done.
    + intros t Htt. destruct (Ht t Htt) as [Hlt Hk]. split; [done|].
      apply terminal_ok_keep; [done|apply Hst; congruence|by apply map_update_attempt|done|].
      intros Hcan. exfalso. eapply find_open_not_failed; [done..|]. by apply Hk.
  - split; rewrite ?Hcl; cbn [set_body m_attempts m_intentSeq m_receipts m_terminal m_consumed];
      [done|done|..|congruence].
    + apply Forall_app. split; [done|]. apply Forall_singleton. lia.
    + intros t Htt. destruct (Ht t Htt) as [Hlt Hk]. split; [done|].
      apply terminal_ok_keep; [done|apply Hst; congruence|done|by apply prefix_app_r|done].
  - split; rewrite ?Hcl; cbn [set_terminal set_body m_attempts m_intentSeq m_receipts m_terminal m_consumed];
      [done|done|done|..|congruence].
    intros t' [= <-]. split; [lia|]. by eapply legal_terminal_ok.
  - split; rewrite ?Hcl; cbn [push_incident set_body m_attempts m_intentSeq m_receipts m_terminal m_consumed];
      [done|done|done|..|congruence].
    intros t Htt. destruct (Ht t Htt) as [Hlt Hk]. split; [done|].
    by apply terminal_ok_keep.
  - split; [done..|cbn; congruence].
  - split; [done..|cbn; congruence].
Qed.

Lemma fresh_machine_ok x e opId i (r : result EffectVoidReason string) :
  machine_ok x (e_seq e + 1)
    (match r with
     | Ok _ => set_verdict (fresh_machine e opId i) true None m_intent
     | Err reason => set_verdict (fresh_machine e opId i) false (Some reason)
                       (m_terminal_state refused)
     end).
Proof. destruct r; split; cbn; try done; try (constructor || lia); done. Qed.

(** ** The invariant of the fold *)

Definition key_of (m : EffectMachine) : string :=
  canonicalKey (i_epochRef (m_decision m)) (i_logicalKey (m_decision m)).

(** A recorded [compensated] terminal cites a confirmed compensation. *)
Definition compensation_ok (f : EffectLaneFold) (m : EffectMachine) : Prop :=
  ∀ t, m_terminal m = Some t → te_terminal t = compensated →
  ∃ s c tc, jm_get (machinesByIntent f) s = Some c ∧ m_consumed c = true ∧
    i_compensates (m_decision c) = Some (m_intentSeq m) ∧
    m_terminal c = Some tc ∧ te_terminal tc = confirmed ∧ te_seq tc < te_seq t.

(** The state after the entries [p], which all come before [pos]. *)
Record lane_inv (x : LaneContext) (p : list JournalEntry) (pos : N) (f : EffectLaneFold) : Prop := {
  li_keyed : keyed f;
  li_source : ∀ s m, jm_get (machinesByIntent f) s = Some m →
    ∃ e, e ∈ p ∧ e_seq e = s ∧ readEffectLaneDecision e = Lane (m_opId m) (effect_intent (m_decision m));
  li_machines : ∀ s m, jm_get (machinesByIntent f) s = Some m → machine_ok x pos m;
  li_canonical : ∀ s m, jm_get (machinesByIntent f) s = Some m → m_consumed m = true →
    canonicalByEpochKey f !! key_of m = Some s;
  li_holders : ∀ k s, canonicalByEpochKey f !! k = Some s →
    ∃ m, jm_get (machinesByIntent f) s = Some m ∧ m_consumed m = true ∧ k = key_of m;
  li_epochs : Sorted N.lt (map ep_seq (epochList f)) ∧ Forall (fun s => s < pos) (map ep_seq (epochList f));
  li_compensated : ∀ s m, jm_get (machinesByIntent f) s = Some m → compensation_ok f m;
}.

Lemma canonicalKey_inj a k b l : canonicalKey a k = canonicalKey b l → a = b ∧ k = l.
Proof.
  unfold canonicalKey. intros Heq.
  assert (∀ n s, split_on ":"%char (dec_of_N n +:+ ":" +:+ s) = dec_of_N n :: split_on ":"%char s) as Hs.
  { intros n s. change (":" +:+ s) with (String ":"%char s). rewrite (split_on_app ":"%char (dec_of_N n) s).
    rewrite split_lacks; [done|]. apply digits_lack; [done|]. apply dec_of_N_digits. }
  pose proof (f_equal (split_on ":"%char) Heq) as Hsp. rewrite !Hs in Hsp.
  injection Hsp as Hd Ht. split; [by apply dec_of_N_inj|].
  rewrite <- (join_split ":"%char k), <- (join_split ":"%char l). by rewrite Ht.
Qed.

Lemma verdict_inv x f seq i k :
  intent_verdict x f seq i = Ok k →
  k = canonicalKey (i_epochRef i) (i_logicalKey i) ∧ canonicalByEpochKey f !! k = None.
Proof.
  unfold intent_verdict. intros Hv.
  repeat (let H := fresh in apply bind_ok in Hv as (? & H & Hv); unfold or_void, void_unless in H).
  simplify_eq. repeat case_match; simplify_eq.
  repeat match goal with H : bool_decide _ = true |- _ => apply bool_decide_eq_true in H end.
  match goal with H : (_ =? _) = true |- _ => apply N.eqb_eq in H; rewrite H in * end. done.
Qed.

Lemma source_before x p pos f s m :
  lane_inv x p pos f → (∀ e, e ∈ p → e_seq e < pos) →
  jm_get (machinesByIntent f) s = Some m → s < pos.
Proof. intros Hi Hp Hm. destruct (li_source _ _ _ _ Hi s m Hm) as (e & He & <- & _). auto. Qed.

(** [compensation_ok] survives whatever keeps the machines evolving. *)
Lemma compensation_keep (f f' : EffectLaneFold) m :
  (∀ s c, jm_get (machinesByIntent f) s = Some c → m_terminal c ≠ None →
     ∃ c', jm_get (machinesByIntent f') s = Some c' ∧ evolves c c') →
  compensation_ok f m → compensation_ok f' m.
Proof.
  intros Hk Hm t Ht Hc. destruct (Hm t Ht Hc) as (s & c & tc & Hg & Hcon & Hcomp & Htc & Hcf & Hlt).
  destruct (Hk s c Hg) as (c' & Hg' & _ & _ & Hd & Hcon' & Hter & _); [congruence|].
  exists s, c', tc. destruct (Hter tc Htc). rewrite Hd, Hcon'. split_and!; auto.
Qed.

Lemma compensation_terminal f m e t :
  terminalIllegality f (e_seq e) m (te_terminal t) (te_causalRef t) = None →
  te_seq t = e_seq e → compensation_ok f (set_terminal m t).
Proof.
  intros Hl Hs t' [= <-] Ht. rewrite Ht in Hl. cbn in Hl.
  destruct (compensation_confirmed f (e_seq e) m (te_causalRef t)) eqn:Hc; [|done].
  unfold compensation_confirmed, causal_machine in Hc.
  destruct (readSeq (te_causalRef t)) as [s|]; cbn in Hc; [|done].
  destruct (jm_get (machinesByIntent f) s) as [c|] eqn:Hg; [|done].
  apply andb_true_iff in Hc as [[Hcon Hco]%andb_true_iff Hter].
  destruct (m_terminal c) as [tc|] eqn:Htc; [|done].
  apply andb_true_iff in Hter as [Hcf Hlt%N.ltb_lt]. apply bool_decide_eq_true in Hco, Hcf.
  exists s, c, tc. rewrite Hs. done.
Qed.

(** A step keeps [compensation_ok] of the machine it changes. *)
Lemma machine_step_compensation x f e m m' :
  machine_step x f e m m' → compensation_ok f m → compensation_ok f m'.
Proof.
  intros Hs Hm. destruct Hs as [| | |m t Hnt Hts Hl| | |]; try exact Hm.
  by eapply compensation_terminal.
Qed.

Lemma sorted_snoc (l : list N) n :
  Sorted N.lt l → Forall (fun s => s < n) l → Sorted N.lt (l ++ [n]).
Proof.
  induction 1 as [|a l Hs IH Hh]; cbn; intros Hb; [repeat constructor|].
  apply Forall_cons in Hb as [Ha Hb]. constructor; [by apply IH|].
  destruct l; cbn; constructor; [done|]. by inversion Hh.
Qed.

Lemma epochs_grow_ok e pos (l l' : list EffectEpochState) :
  epochs_grow e l l' → pos <= e_seq e →
  Sorted N.lt (map ep_seq l) ∧ Forall (fun s => s < pos) (map ep_seq l) →
  Sorted N.lt (map ep_seq l') ∧ Forall (fun s => s < e_seq e + 1) (map ep_seq l').
Proof.
  intros Hg Hp [Hs Hb].
  assert (Forall (fun s => s < e_seq e) (map ep_seq l)) as Hb' by (eapply Forall_impl; [exact Hb|cbn; lia]).
  assert (Forall (fun s => s < e_seq e + 1) (map ep_seq l)) as Hb1 by (eapply Forall_impl; [exact Hb|cbn; lia]).
  destruct Hg as [->| ->]; [done|]. split; [by apply sorted_snoc|].
  apply Forall_app. split; [done|]. apply Forall_singleton. lia.
Qed.

Section Invariant.
Variables (x : LaneContext) (p : list JournalEntry) (pos : N) (f : EffectLaneFold) (e : JournalEntry).
Hypothesis Hinv : lane_inv x p pos f.
Hypothesis Hp : ∀ a, a ∈ p → e_seq a < pos.
Hypothesis Hpos : pos <= e_seq e.

Lemma no_machine_yet : jm_get (machinesByIntent f) (e_seq e) = None.
Proof.
  destruct (jm_get _ _) eqn:E; [|done]. pose proof (source_before _ _ _ _ _ _ Hinv Hp E). lia.
Qed.

Lemma step_evolves s c :
  jm_get (machinesByIntent f) s = Some c →
  ∃ c', jm_get (machinesByIntent (applyEntry x f e)) s = Some c' ∧ evolves c c'.
Proof.
  intros Hc. pose proof (source_before _ _ _ _ _ _ Hinv Hp Hc).
  pose proof (applyEntry_evolves x f e s (li_keyed _ _ _ _ Hinv) ltac:(lia)) as Hev.
  rewrite Hc in Hev. inversion Hev; eauto.
Qed.

(** The clauses about one machine, for an unchanged, a fresh and a stepped one. *)
Lemma machine_cases s m' :
  jm_get (machinesByIntent (applyEntry x f e)) s = Some m' →
  (jm_get (machinesByIntent f) s = Some m') ∨
  (∃ opId i, s = e_seq e ∧ readEffectLaneDecision e = Lane opId (effect_intent i) ∧
     m' = match intent_verdict x (set_machine (set_opId f opId (e_seq e)) (fresh_machine e opId i)) (e_seq e) i with
          | Ok _ => set_verdict (fresh_machine e opId i) true None m_intent
          | Err reason => set_verdict (fresh_machine e opId i) false (Some reason) (m_terminal_state refused)
          end ∧ applyEntry x f e = applyIntent x (set_opId f opId (e_seq e)) e opId i) ∨
  (∃ m, jm_get (machinesByIntent f) s = Some m ∧ m_consumed m = true ∧ machine_step x f e m m').
Proof.
  destruct (applyEntry_step x f e) as [Hm _ _|opId i Hr _ Hf|ref m m0 Hg Hc Hst Hm _ _].
  - rewrite Hm. auto.
  - rewrite Hf, applyIntent_get. case_decide as Hd; [|auto]. intros [= <-]. right. left.
    rewrite <- Hf. by exists opId, i.
  - rewrite Hm, jm_get_set. case_decide as Hd; [|auto]. intros [= <-]. right. right. exists m.
    rewrite (li_keyed _ _ _ _ Hinv _ _ Hg) in Hd. by rewrite <- Hd.
Qed.

Lemma keep_source s m :
  jm_get (machinesByIntent (applyEntry x f e)) s = Some m →
  ∃ a, a ∈ p ++ [e] ∧ e_seq a = s ∧
    readEffectLaneDecision a = Lane (m_opId m) (effect_intent (m_decision m)).
Proof.
  intros [Hm|[(opId & i & -> & Hr & -> & _)|(m0 & Hm & _ & Hst)]]%machine_cases.
  - destruct (li_source _ _ _ _ Hinv _ _ Hm) as (a & Ha & Hx). exists a. set_solver.
  - exists e. rewrite elem_of_app, list_elem_of_singleton. split_and!; auto. by case_match.
  - destruct (li_source _ _ _ _ Hinv _ _ Hm) as (a & Ha & Hs & Hr). exists a.
    destruct (machine_step_evolves _ _ _ _ _ Hst) as (_ & Hop & Hd & _). rewrite Hop, Hd.
    rewrite elem_of_app. auto.
Qed.

Lemma keep_machines s m :
  jm_get (machinesByIntent (applyEntry x f e)) s = Some m → machine_ok x (e_seq e + 1) m.
Proof.
  intros [Hm|[(opId & i & -> & Hr & -> & _)|(m0 & Hm & Hc & Hst)]]%machine_cases.
  - eapply machine_ok_mono; [by eapply li_machines|lia].
  - apply fresh_machine_ok.
  - eapply machine_step_ok; [|done..|].
    + rewrite (li_keyed _ _ _ _ Hinv _ _ Hm). pose proof (source_before _ _ _ _ _ _ Hinv Hp Hm). lia.
    + eapply machine_ok_mono; [by eapply li_machines|done].
Qed.

Lemma keep_compensated s m :
  jm_get (machinesByIntent (applyEntry x f e)) s = Some m → compensation_ok (applyEntry x f e) m.
Proof.
  intros Hm. apply (compensation_keep f). { intros s' c Hc _. by apply step_evolves. }
  apply machine_cases in Hm as [Hm|[(opId & i & -> & Hr & -> & _)|(m0 & Hm & Hc & Hst)]].
  - by eapply li_compensated.
  - intros t Ht. by case_match.
  - eapply machine_step_compensation; [done|]. by eapply li_compensated.
Qed.

Lemma key_evolves m m' : evolves m m' → key_of m' = key_of m.
Proof. intros (_ & _ & Hd & _). unfold key_of. by rewrite Hd. Qed.

(** The canonical index after a step. *)
Lemma canonical_cases :
  canonicalByEpochKey (applyEntry x f e) = canonicalByEpochKey f ∨
  ∃ m, jm_get (machinesByIntent (applyEntry x f e)) (e_seq e) = Some m ∧ m_consumed m = true ∧
    canonicalByEpochKey f !! key_of m = None ∧
    canonicalByEpochKey (applyEntry x f e) = <[key_of m := e_seq e]> (canonicalByEpochKey f).
Proof.
  destruct (applyEntry_step x f e) as [_ Hc _|opId i Hr _ Hf|ref m m0 _ _ _ _ Hc _]; [by left| |by left].
  pose proof (applyIntent_get x (set_opId f opId (e_seq e)) e opId i (e_seq e)) as Hg.
  rewrite Hf. case_decide; [|done]. unfold applyIntent in *.
  destruct (intent_verdict _ _ _ _) as [k|] eqn:Hv; [|by left]. right.
  eexists. split; [exact Hg|]. apply verdict_inv in Hv as [-> Hn]. by split_and!.
Qed.

(** An intent's machine is consumed together with its canonical key. *)
Lemma intent_canonical opId i :
  applyEntry x f e = applyIntent x (set_opId f opId (e_seq e)) e opId i →
  ∀ m, jm_get (machinesByIntent (applyEntry x f e)) (e_seq e) = Some m → m_consumed m = true →
  canonicalByEpochKey (applyEntry x f e) !! key_of m = Some (e_seq e).
Proof.
  intros -> m. rewrite applyIntent_get. case_decide; [|done]. intros [= <-].
  unfold applyIntent. destruct (intent_verdict _ _ _ _) as [k|] eqn:Hv; [|done]. intros _.
  apply verdict_inv in Hv as [-> Hn]. cbn. by rewrite lookup_insert_eq.
Qed.

Lemma canonical_mono k s :
  canonicalByEpochKey f !! k = Some s → canonicalByEpochKey (applyEntry x f e) !! k = Some s.
Proof.
  destruct canonical_cases as [->|(m & _ & _ & Hn & ->)]; [done|].
  intros Hk. rewrite lookup_insert_ne; [done|]. congruence.
Qed.

Lemma keep_canonical s m :
  jm_get (machinesByIntent (applyEntry x f e)) s = Some m → m_consumed m = true →
  canonicalByEpochKey (applyEntry x f e) !! key_of m = Some s.
Proof.
  intros Hm Hc. pose proof Hm as [Hf|[(opId & i & -> & Hr & _ & Hi)|(m0 & Hf & Hc0 & Hst)]]%machine_cases.
  - apply canonical_mono. by eapply li_canonical.
  - by eapply intent_canonical.
  - rewrite (key_evolves m0 m) by eauto with rulvar. apply canonical_mono. by eapply li_canonical.
Qed.

Lemma keep_holders k s :
  canonicalByEpochKey (applyEntry x f e) !! k = Some s →
  ∃ m, jm_get (machinesByIntent (applyEntry x f e)) s = Some m ∧ m_consumed m = true ∧ k = key_of m.
Proof.
  assert (canonicalByEpochKey f !! k = Some s →
    ∃ m, jm_get (machinesByIntent (applyEntry x f e)) s = Some m ∧ m_consumed m = true ∧ k = key_of m) as Hold.
  { intros (m & Hm & Hc & ->)%(li_holders _ _ _ _ Hinv). destruct (step_evolves _ _ Hm) as (m' & Hm' & Hev).
    exists m'. rewrite (key_evolves _ _ Hev). destruct Hev as (_ & _ & _ & -> & _). done. }
  destruct canonical_cases as [->|(m & Hm & Hc & Hn & ->)]; [done|].
  rewrite lookup_insert_Some. intros [[<- <-]|[_ ?]]; eauto.
Qed.

Lemma applyIntent_epochs g a opId i : epochList (applyIntent x g a opId i) = epochList g.
Proof. unfold applyIntent. by destruct (intent_verdict _ _ _ _). Qed.

Lemma step_epochs : epochs_grow e (epochList f) (epochList (applyEntry x f e)).
Proof.
  destruct (applyEntry_step x f e) as [_ _ He|opId i _ _ ->|ref m m0 _ _ _ _ _ ->]; [done|left|by left].
  by rewrite applyIntent_epochs.
Qed.

Lemma applyEntry_inv : lane_inv x (p ++ [e]) (e_seq e + 1) (applyEntry x f e).
Proof.
  split; [apply applyEntry_keyed, Hinv|apply keep_source|apply keep_machines|apply keep_canonical
         |apply keep_holders| |apply keep_compensated].
  eapply epochs_grow_ok; [apply step_epochs|exact Hpos|apply Hinv].
Qed.
End Invariant.

Lemma empty_inv x : lane_inv x [] 0 empty_lane.
Proof.
  split; [apply empty_keyed|..]; cbn; unfold jm_get; cbn; try (intros ??; by rewrite lookup_empty).
  split; constructor.
Qed.

Lemma lane_inv_mono x p pos pos' f : lane_inv x p pos f → pos <= pos' → lane_inv x p pos' f.
Proof.
  intros [Hk Hs Hm Hc Hh [He Hb] Hx] Hle. split; [done..| |done|done|split; [done|]|done].
  - intros s m Hg. eapply machine_ok_mono; eauto.
  - eapply Forall_impl; [exact Hb|cbn; lia].
Qed.

(** One past the last position of a journal. *)
Definition end_of (p : list JournalEntry) : N :=
  match last p with Some e => e_seq e + 1 | None => 0 end.

Lemma end_of_snoc p e : end_of (p ++ [e]) = e_seq e + 1.
Proof. unfold end_of. by rewrite last_snoc. Qed.

Lemma end_of_bound p a : ordered p → a ∈ p → e_seq a < end_of p.
Proof.
  induction p as [|e p _] using rev_ind; [set_solver|]. intros Ho.
  rewrite end_of_snoc. intros [Ha| ->%list_elem_of_singleton]%elem_of_app; [|lia].
  apply ordered_app in Ho as (_ & _ & Hlt). specialize (Hlt a e Ha ltac:(set_solver)). lia.
Qed.

Lemma end_of_next p e q : ordered (p ++ e :: q) → end_of p <= e_seq e.
Proof.
  intros (Hp & _ & Hlt)%ordered_app. destruct (last p) as [a|] eqn:Hl; unfold end_of; rewrite Hl; [|lia].
  apply last_Some in Hl as [l ->]. specialize (Hlt a e ltac:(set_solver) ltac:(set_solver)). lia.
Qed.

(** The invariant of every folded journal, at every prefix. *)
Lemma lane_entries_inv x p q :
  ordered (p ++ q) → lane_inv x p (end_of p) (lane_entries x p).
Proof.
  revert q. induction p as [|e p IH] using rev_ind; intros q Ho; [apply empty_inv|].
  rewrite <- app_assoc in Ho. cbn in Ho. rewrite end_of_snoc. unfold lane_entries.
  rewrite foldl_app. cbn. eapply applyEntry_inv; [by eapply IH| |by eapply end_of_next].
  intros a Ha. apply end_of_bound; [|done]. by apply ordered_app in Ho as (? & _).
Qed.

(** ** Finalization *)

(** A machine without what [finalize] adds. *)
Definition erase (m : EffectMachine) : EffectMachine :=
  mkMachine (m_intentSeq m) (m_at m) (m_opId m) (m_decision m) (m_consumed m) (m_voidReason m)
    (m_state m) (m_attempts m) (m_receipts m) (m_incidents m) (m_dispositions m) (m_probes m)
    (m_terminal m) (m_pendingConflict m) None None.

Definition finalized (f f' : EffectLaneFold) : Prop :=
  (∀ s, erase <$> jm_get (machinesByIntent f') s = erase <$> jm_get (machinesByIntent f) s) ∧
  canonicalByEpochKey f' = canonicalByEpochKey f ∧ laneClasses f' = laneClasses f ∧
  epochList f' = epochList f ∧ opIds f' = opIds f.

#[global] Instance finalized_preorder : PreOrder finalized.
Proof.
  split.
  - intros f. by split_and!.
  - intros f g h (H1 & H2 & H3 & H4 & H5) (K1 & K2 & K3 & K4 & K5).
    split_and!; [intros s; by rewrite K1|congruence..].
Qed.

(** Setting a machine to one that differs in what [finalize] adds. *)
Lemma set_finalized f s m m' :
  jm_get (machinesByIntent f) s = Some m → m_intentSeq m' = s → erase m' = erase m →
  finalized f (set_machine f m').
Proof.
  intros Hm Hs He. split_and!; [|done..]. intros t. cbn. rewrite jm_get_set, Hs.
  case_decide; [|done]. subst t. rewrite Hm. cbn. by rewrite He.
Qed.

Lemma erase_fields m m' :
  erase m' = erase m →
  m_intentSeq m' = m_intentSeq m ∧ m_opId m' = m_opId m ∧ m_decision m' = m_decision m ∧
  m_consumed m' = m_consumed m ∧ m_voidReason m' = m_voidReason m ∧ m_state m' = m_state m ∧
  m_attempts m' = m_attempts m ∧ m_receipts m' = m_receipts m ∧ m_terminal m' = m_terminal m.
Proof. destruct m, m'. unfold erase. cbn. intros [=]. subst. by split_and!. Qed.

Lemma erase_evolves m m' : erase m' = erase m → evolves m m'.
Proof.
  intros (H1 & H2 & H3 & H4 & _ & H5 & H6 & H7 & H8)%erase_fields.
  split_and!; [done..|intros; split; congruence|by rewrite H6|by rewrite H7].
Qed.

Lemma finalized_get f f' s m' :
  finalized f f' → jm_get (machinesByIntent f') s = Some m' →
  ∃ m, jm_get (machinesByIntent f) s = Some m ∧ erase m' = erase m.
Proof.
  intros (He & _) Hm. specialize (He s). rewrite Hm in He.
  destruct (jm_get (machinesByIntent f) s) as [m|]; [|done]. exists m. split; [done|].
  by apply (inj Some) in He.
Qed.

Lemma finalized_sym f f' : finalized f f' → finalized f' f.
Proof. intros (H1 & H2 & H3 & H4 & H5). split_and!; [intros s; by rewrite H1|done..]. Qed.

Lemma finalized_get_inv f f' s m :
  finalized f f' → jm_get (machinesByIntent f) s = Some m →
  ∃ m', jm_get (machinesByIntent f') s = Some m' ∧ erase m' = erase m.
Proof. intros Hf%finalized_sym (m' & ? & ?)%(finalized_get _ _ _ _ Hf). eauto. Qed.

Lemma finalized_keyed f f' : keyed f → finalized f f' → keyed f'.
Proof.
  intros Hk Hf s m' Hm. destruct (finalized_get _ _ _ _ Hf Hm) as (m & Hg & He%erase_evolves).
  destruct He as (-> & _). by apply Hk.
Qed.

Lemma close_finalized x f s m :
  keyed f → jm_get (machinesByIntent f) s = Some m → finalized f (close_after_intent x f m).
Proof.
  intros Hk Hm. unfold close_after_intent. destruct (closerAfterIntent x m); [|reflexivity].
  apply (set_finalized f s m); [done|exact (Hk s m Hm)|done].
Qed.

Lemma link_finalized f m : keyed f → finalized f (link_compensation f m).
Proof.
  intros Hk. unfold link_compensation. destruct (i_compensates _) as [ref|]; [|reflexivity].
  destruct (is_confirmed m); [|reflexivity].
  destruct (jm_get (machinesByIntent f) ref) as [o|] eqn:Ho; [|reflexivity].
  destruct (is_confirmed o); [|reflexivity].
  apply (set_finalized f ref o); [done|exact (Hk ref o Ho)|done].
Qed.

Lemma finalize_machine_finalized x f s : keyed f → finalized f (finalize_machine x f s).
Proof.
  intros Hk. unfold finalize_machine. destruct (jm_get _ s) as [m|] eqn:Hm; [|reflexivity].
  destruct (m_consumed m); [|reflexivity].
  pose proof (close_finalized x f s m Hk Hm) as Hc. etrans; [exact Hc|].
  apply link_finalized. by eapply finalized_keyed.
Qed.

Lemma foldl_finalized x f l : keyed f → finalized f (foldl (finalize_machine x) f l).
Proof.
  revert f. induction l as [|s l IH]; intros f Hk; cbn; [reflexivity|].
  pose proof (finalize_machine_finalized x f s Hk). etrans; [done|]. apply IH. by eapply finalized_keyed.
Qed.

(** Finalization only adds the closer and the overlay. *)
Lemma finalize_finalized x f : keyed f → finalized f (finalize x f).
Proof. apply foldl_finalized. Qed.

(** The invariant does not look at what finalization adds. *)
Lemma lane_inv_finalized x p pos f f' : lane_inv x p pos f → finalized f f' → lane_inv x p pos f'.
Proof.
  intros Hi Hf. pose proof (finalized_get f f') as Hget.
  assert (∀ m m', erase m' = erase m → machine_ok x pos m → machine_ok x pos m') as Hok.
  { intros m m' He. pose proof (closer_evolves x _ _ (erase_evolves _ _ He)) as Hcl.
    apply erase_fields in He as (H1 & H2 & H3 & H4 & H5 & H6 & H7 & H8 & H9).
    intros []. unfold terminal_ok in *. split; unfold terminal_ok; rewrite ?Hcl, ?H1, ?H4, ?H5, ?H6, ?H7, ?H8, ?H9; done. }
  split.
  - eapply finalized_keyed; [apply Hi|done].
  - intros s m' (m & Hm & He%erase_evolves)%Hget; [|done]. destruct He as (_ & -> & -> & _).
    by eapply li_source.
  - intros s m' (m & Hm & He)%Hget; [|done]. eapply Hok; [done|]. by eapply li_machines.
  - intros s m' (m & Hm & He%erase_evolves)%Hget Hc; [|done]. rewrite (key_evolves _ _ He).
    destruct He as (_ & _ & _ & Hcc & _). destruct Hf as (_ & -> & _). eapply li_canonical; [done..|congruence].
  - intros k s Hk. pose proof Hf as (_ & Hcan & _). rewrite Hcan in Hk.
    destruct (li_holders _ _ _ _ Hi _ _ Hk) as (m & Hm & Hc & ->).
    destruct (finalized_get_inv f f' s m) as (m' & Hm' & He%erase_evolves); [done..|].
    exists m'. rewrite (key_evolves _ _ He). destruct He as (_ & _ & _ & -> & _). done.
  - destruct Hf as (_ & _ & _ & -> & _). apply Hi.
  - intros s m' Hm'. pose proof Hm' as (m & Hm & He)%Hget; [|done].
    apply (compensation_keep f).
    + intros s0 c Hc _. destruct (finalized_get_inv _ _ _ _ Hf Hc) as (c' & ? & ?).
      exists c'. split; [done|]. by apply erase_evolves.
    + pose proof (li_compensated _ _ _ _ Hi _ _ Hm) as Hc. unfold compensation_ok in *.
      apply erase_fields in He as (-> & _ & _ & _ & _ & _ & _ & _ & ->). done.
Qed.

(** ** The example journal *)

Lemma demo_effects_wf : journal_wf demo_effects.
Proof. split; repeat constructor; done. Qed.

Lemma lane_of_ok es F : newEffectLaneFold any_schema es = Ok F → lane_of es = F.
Proof. unfold lane_of. by intros ->. Qed.

Lemma demo_effects_folds : newEffectLaneFold any_schema demo_effects = Ok (lane_of demo_effects).
Proof. vm_compute. reflexivity. Qed.
