(* ===== verification/EffectConsume.v ===== *)
(** * Consumption of approvals (packages/core/src/effects/fold.ts)

    What the fold's indexes hold, and the theorems about intents, attempts and
    terminals of a folded journal, stated on the journal's entries. *)
From S2P Require Import Prelude Json JsMap Entries Disposition Resolution EffectTypes EffectFold.
From S2P Require Import EffectLaws.

#[local] Open Scope N_scope.

(** ** The indexes of the context *)

Lemma lane_context_resolutions r es : lx_resolutions (lane_context r es) = r.
Proof.
  unfold lane_context. induction es as [|e es IH] using rev_ind; [done|].
  rewrite foldl_app. cbn. exact IH.
Qed.

Lemma context_bySeq r es s a :
  lx_bySeq (lane_context r es) !! s = Some a → a ∈ es ∧ e_seq a = s.
Proof.
  unfold lane_context. revert a. induction es as [|e es IH] using rev_ind; intros a; [done|].
  rewrite foldl_app. cbn. rewrite lookup_insert_Some, elem_of_app, list_elem_of_singleton.
  intros [[<- <-]|[_ Ha]]; [auto|]. destruct (IH a Ha). auto.
Qed.

Lemma context_bySeq_ordered r es a :
  ordered es → a ∈ es → lx_bySeq (lane_context r es) !! e_seq a = Some a.
Proof.
  intros Ho Ha. destruct (lx_bySeq (lane_context r es) !! e_seq a) as [b|] eqn:E.
  - apply context_bySeq in E as [Hb Hs]. by rewrite (ordered_inj es b a).
  - exfalso. revert Ha E. unfold lane_context. clear Ho. induction es as [|e es IH] using rev_ind; [set_solver|].
    rewrite foldl_app. cbn. rewrite elem_of_app, list_elem_of_singleton, lookup_insert_None. naive_solver.
Qed.

(** The positions a closing decision of [read] takes against [target]. *)
Definition closing_seqs (read : JournalEntry → option N) (es : list JournalEntry) (target : N) : list N :=
  map e_seq (List.filter (fun e => bool_decide (read e = Some target)) es).

Lemma index_add_get idx o s t :
  default [] (index_add idx o s !! t) = default [] (idx !! t) ++ (if decide (o = Some t) then [s] else []).
Proof.
  destruct o as [u|]; cbn; [|by rewrite app_nil_r]. destruct (decide (u = t)) as [->|Hne].
  - rewrite lookup_insert_eq. cbn. by rewrite decide_True.
  - rewrite lookup_insert_ne by done. rewrite decide_False by congruence. by rewrite app_nil_r.
Qed.

Lemma context_closers r es t :
  default [] (lx_revoked (lane_context r es) !! t) = closing_seqs readApprovalRevoked es t ∧
  default [] (lx_expired (lane_context r es) !! t) = closing_seqs readApprovalExpired es t.
Proof.
  unfold lane_context, closing_seqs. induction es as [|e es [IHr IHe]] using rev_ind; [done|].
  rewrite foldl_app, !List.filter_app, !map_app. cbn. rewrite !index_add_get, IHr, IHe.
  repeat case_bool_decide; repeat case_decide; done.
Qed.

Lemma closing_spec read es t s :
  s ∈ closing_seqs read es t ↔ ∃ a, a ∈ es ∧ e_seq a = s ∧ read a = Some t.
Proof.
  unfold closing_seqs. rewrite list_elem_of_fmap. setoid_rewrite list_elem_of_In.
  setoid_rewrite List.filter_In. setoid_rewrite bool_decide_eq_true. naive_solver.
Qed.

Lemma firstAtOrBelow_none l pos :
  firstAtOrBelow l pos = None ↔ ∀ s, s ∈ default [] l → pos <= s.
Proof.
  destruct l as [l|]; cbn; [|set_solver]. rewrite find_first_None.
  setoid_rewrite N.ltb_ge. done.
Qed.

Lemma firstAbove_none l pos :
  firstAbove l pos = None ↔ ∀ s, s ∈ default [] l → s <= pos.
Proof.
  destruct l as [l|]; cbn; [|set_solver]. rewrite find_first_None.
  setoid_rewrite N.ltb_ge. done.
Qed.

Lemma closing_sorted read es t : ordered es → StronglySorted N.lt (closing_seqs read es t).
Proof.
  unfold closing_seqs. induction 1 as [|a es Hs IH Hall]; cbn; [constructor|].
  destruct (bool_decide _); cbn; [|done]. constructor; [done|].
  rewrite Forall_forall in Hall. apply Forall_forall. intros s (b & -> & Hb)%list_elem_of_fmap. apply Hall.
  apply list_elem_of_In. by apply list_elem_of_In, List.filter_In in Hb as [].
Qed.

(** [firstAbove] of an ascending list is the least element above. *)
Lemma firstAbove_some l pos s :
  StronglySorted N.lt (default [] l) → firstAbove l pos = Some s →
  s ∈ default [] l ∧ pos < s ∧ ∀ s', s' ∈ default [] l → pos < s' → s <= s'.
Proof.
  destruct l as [l|]; cbn; [|done]. induction 1 as [|a l Hs IH Hall]; cbn; [done|].
  destruct (N.ltb_spec pos a).
  - intros [= <-]. split_and!; [set_solver|done|]. rewrite Forall_forall in Hall.
    intros s' [->|Hin]%elem_of_cons _; [lia|]. specialize (Hall s' Hin). lia.
  - intros (Hin & Hlt & Hmin)%IH. split_and!; [set_solver|done|].
    intros s' [->|?]%elem_of_cons; [lia|auto].
Qed.

(** A decision that closes the approval [ref]. *)
Definition closes_approval (ref : N) (a : JournalEntry) : Prop :=
  readApprovalRevoked a = Some ref ∨ readApprovalExpired a = Some ref.

Lemma closes_in r es ref a :
  a ∈ es → closes_approval ref a →
  e_seq a ∈ default [] (lx_revoked (lane_context r es) !! ref) ∨
  e_seq a ∈ default [] (lx_expired (lane_context r es) !! ref).
Proof.
  destruct (context_closers r es ref) as [-> ->]. rewrite !closing_spec.
  intros Ha [Hc|Hc]; [left|right]; eauto.
Qed.

Lemma in_closes r es ref s :
  s ∈ default [] (lx_revoked (lane_context r es) !! ref) ∨
  s ∈ default [] (lx_expired (lane_context r es) !! ref) →
  ∃ a, a ∈ es ∧ e_seq a = s ∧ closes_approval ref a.
Proof.
  destruct (context_closers r es ref) as [-> ->]. rewrite !closing_spec.
  unfold closes_approval. intros [(a & ? & ? & ?)|(a & ? & ? & ?)]; eauto 6.
Qed.

Lemma closer_first r es m :
  ordered es →
  let closing s := ∃ a, a ∈ es ∧ e_seq a = s ∧ closes_approval (i_approvalRef (m_decision m)) a in
  match closerAfterIntent (lane_context r es) m with
  | None => ∀ s, closing s → s <= m_intentSeq m
  | Some c => closing (c_seq c) ∧ m_intentSeq m < c_seq c ∧
              ∀ s, closing s → m_intentSeq m < s → c_seq c <= s
  end.
Proof.
  intros Ho closing. unfold closerAfterIntent. set (ref := i_approvalRef (m_decision m)) in *.
  assert (∀ s, closing s → s ∈ default [] (lx_revoked (lane_context r es) !! ref) ∨
    s ∈ default [] (lx_expired (lane_context r es) !! ref)) as Hin.
  { intros s (a & Ha & <- & Hc). by apply closes_in. }
  assert (∀ s, s ∈ default [] (lx_revoked (lane_context r es) !! ref) ∨
    s ∈ default [] (lx_expired (lane_context r es) !! ref) → closing s) as Hout by apply in_closes.
  destruct (context_closers r es ref) as [Hr He].
  pose proof (closing_sorted readApprovalRevoked es ref Ho) as Hsr. rewrite <- Hr in Hsr.
  pose proof (closing_sorted readApprovalExpired es ref Ho) as Hse. rewrite <- He in Hse.
  set (lr := lx_revoked (lane_context r es) !! ref) in *. set (le := lx_expired (lane_context r es) !! ref) in *.
  clearbody closing lr le. clear Hr He.
  pose proof (firstAbove_some lr (m_intentSeq m)) as Hfr. pose proof (firstAbove_some le (m_intentSeq m)) as Hfe.
  pose proof (firstAbove_none lr (m_intentSeq m)) as Hnr. pose proof (firstAbove_none le (m_intentSeq m)) as Hne.
  destruct (firstAbove lr _) as [a|]; [destruct (Hfr a Hsr eq_refl) as (Ha1 & Ha2 & Ha3)|pose proof (proj1 Hnr eq_refl) as Hn1];
    (destruct (firstAbove le _) as [b|]; [destruct (Hfe b Hse eq_refl) as (Hb1 & Hb2 & Hb3)|pose proof (proj1 Hne eq_refl) as Hn2]).
  - destruct (N.leb_spec a b); cbn [c_seq]; (split; [auto|]); (split; [done|]);
      intros s Hs Hlt; apply Hin in Hs as [Hs|Hs]; auto.
    + specialize (Hb3 s Hs Hlt). lia.
    + specialize (Ha3 s Hs Hlt). lia.
  - cbn [c_seq]. split; [auto|]. split; [done|]. intros s Hs Hlt. apply Hin in Hs as [Hs|Hs]; [auto|]. specialize (Hn2 s Hs). lia.
  - cbn [c_seq]. split; [auto|]. split; [done|]. intros s Hs Hlt. apply Hin in Hs as [Hs|Hs]; [|auto]. specialize (Hn1 s Hs). lia.
  - intros s Hs. apply Hin in Hs as [Hs|Hs]; auto.
Qed.

(** ** A journal and its prefixes *)

Lemma lane_fold_inv validate es F :
  ordered es → newEffectLaneFold validate es = Ok F →
  ∃ r, newResolutionFold validate es = Ok r ∧
    let x := lane_context r es in
    F = finalize x (lane_entries x es) ∧ lane_inv x es (end_of es) F ∧
    finalized (lane_entries x es) F.
Proof.
  intros Ho (r & Hr & [= <-])%bind_ok. exists r. split; [done|]. cbn zeta. split; [done|].
  set (x := lane_context r es).
  pose proof (lane_entries_inv x es [] ltac:(by rewrite app_nil_r)) as Hi.
  assert (finalized (lane_entries x es) (finalize x (lane_entries x es))) as Hf
    by apply finalize_finalized, Hi.
  split; [by eapply lane_inv_finalized|done].
Qed.

Lemma lane_entries_app x p q : lane_entries x (p ++ q) = foldl (applyEntry x) (lane_entries x p) q.
Proof. apply foldl_app. Qed.

Lemma lane_entries_keyed x p : keyed (lane_entries x p).
Proof. apply entries_keyed, empty_keyed. Qed.

Lemma finalized_evolves f f' s :
  finalized f f' →
  option_Forall2 evolves (jm_get (machinesByIntent f) s) (jm_get (machinesByIntent f') s).
Proof.
  intros Hf. destruct (jm_get (machinesByIntent f) s) as [m|] eqn:Hm.
  - destruct (finalized_get_inv _ _ _ _ Hf Hm) as (m' & -> & He). constructor. by apply erase_evolves.
  - destruct (jm_get (machinesByIntent f') s) as [m'|] eqn:Hm'; [|constructor].
    destruct (finalized_get _ _ _ _ Hf Hm') as (m & Hg & _). congruence.
Qed.

(** The machines at positions before the rest of the journal. *)
Lemma prefix_machines x p q F s :
  finalized (lane_entries x (p ++ q)) F → (∀ e, e ∈ q → s < e_seq e) →
  option_Forall2 evolves (jm_get (machinesByIntent (lane_entries x p)) s)
    (jm_get (machinesByIntent F) s).
Proof.
  intros Hf Hs. etrans; [|by apply finalized_evolves]. rewrite lane_entries_app.
  apply entries_evolve; [apply lane_entries_keyed|done].
Qed.

Lemma entries_epochs x f q :
  ∃ l, map ep_seq (epochList (foldl (applyEntry x) f q)) = map ep_seq (epochList f) ++ l ∧
    ∀ s, s ∈ l → ∃ e, e ∈ q ∧ e_seq e = s.
Proof.
  revert f. induction q as [|e q IH]; intros f; cbn; [exists []; by rewrite app_nil_r; split; [|set_solver]|].
  destruct (IH (applyEntry x f e)) as (l & -> & Hl).
  destruct (step_epochs x f e) as [->| ->].
  - exists l. split; [done|]. intros s (a & ? & ?)%Hl. exists a. set_solver.
  - exists (e_seq e :: l). rewrite <- app_assoc. split; [done|].
    intros s [->|Hs]%elem_of_cons; [exists e; set_solver|]. destruct (Hl s Hs) as (a & ? & ?). exists a. set_solver.
Qed.

(** ** The verdict, condition by condition *)

Lemma causal_refs_ok f i :
  causal_refs f i = Ok tt ↔
  (∀ c, i_compensates i = Some c → ∃ m, jm_get (machinesByIntent f) c = Some m ∧
     m_consumed m = true ∧ i_compensates (m_decision m) = None) ∧
  (∀ c, i_successorOf i = Some c → ∃ m, jm_get (machinesByIntent f) c = Some m ∧ m_consumed m = true).
Proof.
  assert (∀ c m, consumed_at f c = Some m ↔ jm_get (machinesByIntent f) c = Some m ∧ m_consumed m = true) as Hc.
  { intros c m. unfold consumed_at. destruct (jm_get _ c) as [m'|]; cbn; [|by split; [|intros []]].
    destruct (m_consumed m') eqn:E; split.
    - intros [= <-]. done.
    - by intros [[= <-] _].
    - done.
    - intros [[= <-] Hm]. congruence. }
  unfold causal_refs. rewrite bind_ok. split.
  - intros ([] & H1 & H2). split.
    + intros c Hi. rewrite Hi in H1. apply bind_ok in H1 as (m & Hm & Hv). unfold or_void in Hm.
      destruct (consumed_at f c) as [m'|] eqn:E; [|done]. injection Hm as ->. apply Hc in E as [E1 E2].
      unfold void_unless in Hv. case_bool_decide; [|done]. eauto.
    + intros c Hi. rewrite Hi in H2. apply bind_ok in H2 as (m & Hm & _). unfold or_void in Hm.
      destruct (consumed_at f c) as [m'|] eqn:E; [|done]. injection Hm as ->. apply Hc in E. eauto.
  - intros [H1 H2]. exists tt. split.
    + destruct (i_compensates i) as [c|]; [|done]. destruct (H1 c eq_refl) as (m & Hm & Hcon & Hn).
      rewrite (proj2 (Hc c m)) by done. cbn. by rewrite bool_decide_eq_true_2.
    + destruct (i_successorOf i) as [c|]; [|done]. destruct (H2 c eq_refl) as (m & Hm & Hcon).
      by rewrite (proj2 (Hc c m)).
Qed.

Lemma verdict_ok x f seq i :
  is_ok (intent_verdict x f seq i) = true ↔
  (∃ ep, latestEpochBefore f seq = Some ep ∧ ep_seq ep = i_epochRef i) ∧
  (∃ a, lx_bySeq x !! i_approvalRef i = Some a ∧ e_kind a = KApproval ∧
        approvalLicensedKey a = Some (i_logicalKey i)) ∧
  allowed_before (lx_resolutions x) (i_approvalRef i) seq = true ∧
  firstAtOrBelow (lx_revoked x !! i_approvalRef i) seq = None ∧
  firstAtOrBelow (lx_expired x !! i_approvalRef i) seq = None ∧
  causal_refs f i = Ok tt ∧
  canonicalByEpochKey f !! canonicalKey (i_epochRef i) (i_logicalKey i) = None.
Proof.
  unfold intent_verdict, or_void, void_unless. split.
  - destruct (latestEpochBefore f seq) as [ep|]; cbn; [|done].
    destruct (N.eqb_spec (ep_seq ep) (i_epochRef i)) as [He|]; cbn; [|done].
    destruct (lx_bySeq x !! i_approvalRef i) as [a|]; cbn; [|done].
    destruct (bool_decide_reflect (e_kind a = KApproval)); cbn; [|done].
    destruct (allowed_before _ _ _); cbn; [|done].
    destruct (bool_decide_reflect (firstAtOrBelow (lx_revoked x !! i_approvalRef i) seq = None)); cbn; [|done].
    destruct (bool_decide_reflect (firstAtOrBelow (lx_expired x !! i_approvalRef i) seq = None)); cbn; [|done].
    destruct (approvalLicensedKey a) as [k|] eqn:Hk; cbn; [|done].
    destruct (bool_decide_reflect (k = i_logicalKey i)); cbn; [|done].
    destruct (causal_refs f i) as [[]|]; cbn; [|done]. rewrite He.
    destruct (bool_decide_reflect (canonicalByEpochKey f !! canonicalKey (i_epochRef i) (i_logicalKey i) = None));
      cbn; [|done].
    intros _. subst. split_and!; eauto.
  - intros ((ep & -> & He) & (a & -> & Hk & Hl) & -> & -> & -> & -> & Hc). cbn.
    rewrite He, N.eqb_refl. cbn. rewrite (bool_decide_eq_true_2 _ Hk). cbn. rewrite Hl. cbn.
    rewrite (bool_decide_eq_true_2 (i_logicalKey i = i_logicalKey i)) by done. cbn.
    rewrite (bool_decide_eq_true_2 _ Hc). done.
Qed.

Lemma latest_is_last (f : EffectLaneFold) seq :
  Forall (fun s => s < seq) (map ep_seq (epochList f)) → latestEpochBefore f seq = last (epochList f).
Proof.
  unfold latestEpochBefore. induction (epochList f) as [|e l IH] using rev_ind; [done|].
  rewrite map_app, foldl_app, last_snoc. cbn. intros [_ Hb]%Forall_app. apply Forall_inv in Hb.
  by rewrite (proj2 (N.ltb_lt _ _) Hb).
Qed.

Lemma sorted_last (l : list N) n :
  Sorted N.lt l → (last l = Some n ↔ n ∈ l ∧ ∀ s, s ∈ l → s <= n).
Proof.
  intros Hs. apply Sorted_StronglySorted in Hs; [|intros a b c; apply N.lt_trans].
  induction Hs as [|a l Hs IH Hall]; [set_solver|]. rewrite Forall_forall in Hall.
  destruct l as [|b l]; [cbn; split|].
  - intros [= <-]. split; [set_solver|]. intros s ->%list_elem_of_singleton. lia.
  - intros [->%list_elem_of_singleton _]. done.
  - cbn [last] in *. rewrite IH. split.
    + intros [Hin Hmax]. split; [set_solver|]. intros s [->|?]%elem_of_cons; [|auto].
      specialize (Hall n Hin). lia.
    + intros [[->|Hin]%elem_of_cons Hmax]; [|split; [done|]; intros; apply Hmax; set_solver].
      specialize (Hall b ltac:(left)). specialize (Hmax b ltac:(set_solver)). lia.
Qed.

(** The epoch an intent must cite, among the epochs of the whole journal. *)
Definition latest_epoch (F : EffectLaneFold) (pos n : N) : Prop :=
  n < pos ∧ n ∈ map ep_seq (epochList F) ∧
  ∀ s, s ∈ map ep_seq (epochList F) → s < pos → s <= n.

Lemma latest_epoch_prefix (f F : EffectLaneFold) pos n l :
  Sorted N.lt (map ep_seq (epochList f)) → Forall (fun s => s < pos) (map ep_seq (epochList f)) →
  map ep_seq (epochList F) = map ep_seq (epochList f) ++ l → (∀ s, s ∈ l → pos <= s) →
  (∃ ep, latestEpochBefore f pos = Some ep ∧ ep_seq ep = n) ↔ latest_epoch F pos n.
Proof.
  intros Hs Hb HF Hl. rewrite latest_is_last by done. rewrite Forall_forall in Hb.
  transitivity (last (map ep_seq (epochList f)) = Some n).
  { change (map ep_seq (epochList f)) with (ep_seq <$> epochList f). rewrite fmap_last, fmap_Some.
    split; intros (ep & ? & ?); eauto. }
  rewrite sorted_last by done. unfold latest_epoch. rewrite HF. setoid_rewrite elem_of_app. split.
  - intros [Hin Hmax]. split_and!; [auto..|]. intros s [?|Hsl] Hlt; [auto|]. specialize (Hl s Hsl). lia.
  - intros (Hlt & [Hin|Hin] & Hmax); [|specialize (Hl n Hin); lia]. split; [done|]. auto.
Qed.

(** ** The licence of an intent

    Everything the fold asks of an intent entry [e], said on the journal [es] and
    on the final fold [F]. *)
Record licensed (r : ResolutionFold) (es : list JournalEntry) (F : EffectLaneFold)
    (e : JournalEntry) (i : IntentDecision) : Prop := {
  lc_epoch : latest_epoch F (e_seq e) (i_epochRef i);
  lc_approval : ∃ a, a ∈ es ∧ e_seq a = i_approvalRef i ∧ e_kind a = KApproval ∧
    approvalLicensedKey a = Some (i_logicalKey i);
  lc_allow : ∃ by_ v, suspensionState r (i_approvalRef i) = Resolved by_ v ∧ by_ < e_seq e ∧
    opt_prop (asRecord (Some v)) "decision" = Some (JStr "allow");
  lc_open : ∀ a, a ∈ es → closes_approval (i_approvalRef i) a → e_seq e <= e_seq a;
  lc_compensates : ∀ c, i_compensates i = Some c → c < e_seq e ∧
    ∃ m, machineAt F c = Some m ∧ m_consumed m = true ∧ i_compensates (m_decision m) = None;
  lc_successor : ∀ c, i_successorOf i = Some c → c < e_seq e ∧
    ∃ m, machineAt F c = Some m ∧ m_consumed m = true;
  lc_first : ∀ s m, machineAt F s = Some m → s < e_seq e → m_consumed m = true →
    i_epochRef (m_decision m) = i_epochRef i → i_logicalKey (m_decision m) ≠ i_logicalKey i;
}.

Lemma allowed_spec r ref pos :
  allowed_before r ref pos = true ↔
  ∃ by_ v, suspensionState r ref = Resolved by_ v ∧ by_ < pos ∧
    opt_prop (asRecord (Some v)) "decision" = Some (JStr "allow").
Proof.
  unfold allowed_before. destruct (suspensionState r ref) as [|by_ v|]; split; try done.
  - intros (? & ? & ? & _). done.
  - intros [Hlt%N.ltb_lt Hs%is_str_spec]%andb_true_iff. eauto.
  - intros (? & ? & [= <- <-] & Hlt%N.ltb_lt & Hs%is_str_spec). by rewrite Hlt, Hs.
  - intros (? & ? & ? & _). done.
Qed.

Lemma liveMachine_opIds f seq ref k :
  (∀ m, opIds (k m) = opIds f) → opIds (liveMachine f seq ref k) = opIds f.
Proof. intros Hk. unfold liveMachine. by repeat case_match. Qed.

Lemma applyDecision_opIds x f e opId d : opIds (applyDecision x f e opId d) = opIds f.
Proof.
  destruct d as [g r|k c r h|i|ref ord na ik tr|ref at_ oc|ref r|[ref|] k t re ca|ref i ca de
                |ref p re di ca|ref p fo ac|ref]; cbn [applyDecision]; try done.
  - unfold applyIntent. by destruct (intent_verdict _ _ _ _).
  - apply liveMachine_opIds. intros m. unfold applyAttempt. by repeat case_match.
  - apply liveMachine_opIds. intros m. unfold applyOutcome. by repeat case_match.
  - apply liveMachine_opIds. intros m. unfold applyReceipt. by repeat case_match.
  - apply liveMachine_opIds. intros m. unfold applyTerminal. by repeat case_match.
  - unfold standalone. by repeat case_match.
  - by apply liveMachine_opIds.
  - by apply liveMachine_opIds.
  - by apply liveMachine_opIds.
  - by repeat case_match.
Qed.

(** The operation ids a fold knows are those of its entries. *)
Lemma opIds_known x p op s :
  opIds (lane_entries x p) !! op = Some s →
  ∃ a d, a ∈ p ∧ e_seq a = s ∧ readEffectLaneDecision a = Lane op d.
Proof.
  revert s. induction p as [|e p IH] using rev_ind; intros s; [done|].
  rewrite lane_entries_app. cbn.
  assert (opIds (lane_entries x p) !! op = Some s →
    ∃ a d, a ∈ p ++ [e] ∧ e_seq a = s ∧ readEffectLaneDecision a = Lane op d) as Hold.
  { intros (a & d & ? & ?)%IH. exists a, d. rewrite elem_of_app. auto. }
  unfold applyEntry. destruct (readEffectLaneDecision e) as [|op' d|] eqn:Hr; [done| |done].
  destruct (opIds _ !! op') eqn:Ho; [done|]. rewrite applyDecision_opIds. cbn.
  rewrite lookup_insert_Some. intros [[<- <-]|[_ ?]]; [|auto].
  exists e, d. rewrite elem_of_app, list_elem_of_singleton. auto.
Qed.

Section Consumption.
Variables (validate : json → json → bool * option string) (es : list JournalEntry)
  (F : EffectLaneFold) (r : ResolutionFold) (p q : list JournalEntry) (e : JournalEntry)
  (opId : string) (i : IntentDecision).
Let x := lane_context r es.
Let f := lane_entries x p.
Hypothesis Hes : es = p ++ e :: q.
Hypothesis Ho : ordered es.
Hypothesis HF : finalized (lane_entries x es) F.
Hypothesis Hinv : lane_inv x es (end_of es) F.

Lemma before_e a : a ∈ p → e_seq a < e_seq e.
Proof. intros Ha. rewrite Hes in Ho. apply ordered_app in Ho as (_ & _ & Hlt). apply Hlt; set_solver. Qed.

Lemma after_e a : a ∈ q → e_seq e < e_seq a.
Proof.
  intros Ha. rewrite Hes in Ho. apply ordered_app in Ho as (_ & Hq & _).
  apply StronglySorted_inv in Hq as [_ Hall]. rewrite Forall_forall in Hall. auto.
Qed.

Lemma f_inv : lane_inv x p (end_of p) f.
Proof. apply (lane_entries_inv x p (e :: q)). by rewrite <- Hes. Qed.

Lemma earlier_machines s : s < e_seq e →
  option_Forall2 evolves (jm_get (machinesByIntent f) s) (jm_get (machinesByIntent F) s).
Proof.
  intros Hs. apply (prefix_machines x p (e :: q)); [by rewrite <- Hes|].
  intros a [->|Ha]%elem_of_cons; [done|]. pose proof (after_e a Ha). lia.
Qed.

Lemma f_before s m : jm_get (machinesByIntent f) s = Some m → s < e_seq e.
Proof. intros (a & Ha & <- & _)%(li_source _ _ _ _ f_inv). by apply before_e. Qed.

(** A machine of the prefix, from the final fold and back. *)
Lemma machine_back s m' :
  s < e_seq e → machineAt F s = Some m' →
  ∃ m, jm_get (machinesByIntent f) s = Some m ∧ evolves m m'.
Proof.
  intros Hs Hm. pose proof (earlier_machines s Hs) as Hev. unfold machineAt in Hm. rewrite Hm in Hev.
  inversion Hev; subst. eauto.
Qed.

Lemma machine_forth s m :
  jm_get (machinesByIntent f) s = Some m → s < e_seq e ∧ ∃ m', machineAt F s = Some m' ∧ evolves m m'.
Proof.
  intros Hm. pose proof (f_before _ _ Hm) as Hs. split; [done|].
  pose proof (earlier_machines s Hs) as Hev. rewrite Hm in Hev. inversion Hev; subst. eauto.
Qed.

(** The machines the verdict looks at: the prefix's, and the fresh one, which is
    not consumed. *)
Let g := set_machine (set_opId f opId (e_seq e)) (fresh_machine e opId i).

Lemma fresh_get s :
  jm_get (machinesByIntent g) s =
    if decide (e_seq e = s) then Some (fresh_machine e opId i) else jm_get (machinesByIntent f) s.
Proof. apply jm_get_set. Qed.

Lemma consumed_in_prefix c (P : EffectMachine → Prop) :
  (∀ m m', evolves m m' → P m' ↔ P m) →
  (∃ m, jm_get (machinesByIntent g) c = Some m ∧ m_consumed m = true ∧ P m) ↔
  c < e_seq e ∧ ∃ m, machineAt F c = Some m ∧ m_consumed m = true ∧ P m.
Proof.
  intros HP. split.
  - intros (m & Hm & Hc & Hpm). rewrite fresh_get in Hm. case_decide; [by simplify_eq|].
    destruct (machine_forth _ _ Hm) as (Hs & m' & Hm' & Hev). split; [done|]. exists m'.
    rewrite HP by done. destruct Hev as (_ & _ & _ & -> & _). done.
  - intros (Hs & m' & Hm' & Hc & Hpm). destruct (machine_back _ _ Hs Hm') as (m & Hm & Hev).
    exists m. rewrite fresh_get, decide_False by lia. rewrite <- (HP m m') by done.
    destruct Hev as (_ & _ & _ & <- & _). done.
Qed.

Lemma no_holder_iff :
  canonicalByEpochKey g !! canonicalKey (i_epochRef i) (i_logicalKey i) = None ↔
  ∀ s m, machineAt F s = Some m → s < e_seq e → m_consumed m = true →
    i_epochRef (m_decision m) = i_epochRef i → i_logicalKey (m_decision m) ≠ i_logicalKey i.
Proof.
  change (canonicalByEpochKey g) with (canonicalByEpochKey f). split.
  - intros Hn s m' Hm' Hs Hc He Hk. destruct (machine_back _ _ Hs Hm') as (m & Hm & Hev).
    destruct Hev as (_ & _ & Hd & Hcon & _).
    pose proof (li_canonical _ _ _ _ f_inv s m Hm ltac:(congruence)) as Hkey. unfold key_of in Hkey.
    rewrite <- Hd, He, Hk in Hkey. congruence.
  - intros Hno. destruct (canonicalByEpochKey f !! _) as [s|] eqn:Hh; [|done]. exfalso.
    destruct (li_holders _ _ _ _ f_inv _ _ Hh) as (m & Hm & Hc & [He Hk]%canonicalKey_inj).
    destruct (machine_forth _ _ Hm) as (Hs & m' & Hm' & Hev). destruct Hev as (_ & _ & Hd & Hcon & _).
    eapply (Hno s m' Hm' Hs); congruence.
Qed.

Lemma epoch_iff :
  (∃ ep, latestEpochBefore g (e_seq e) = Some ep ∧ ep_seq ep = i_epochRef i) ↔
  latest_epoch F (e_seq e) (i_epochRef i).
Proof.
  destruct (li_epochs _ _ _ _ f_inv) as [Hs Hb].
  destruct (entries_epochs x (applyEntry x f e) q) as (l & Hl & Hlq).
  assert (∃ l', map ep_seq (epochList F) = map ep_seq (epochList f) ++ l' ∧ ∀ s, s ∈ l' → e_seq e <= s)
    as (l' & HFl & Hl').
  { destruct HF as (_ & _ & _ & -> & _). rewrite Hes, lane_entries_app. cbn. fold f. rewrite Hl.
    assert (∀ s, s ∈ l → e_seq e <= s) as Hge.
    { intros s (a & Ha & <-)%Hlq. pose proof (after_e a Ha). lia. }
    destruct (step_epochs x f e) as [->| ->]; [eauto|]. exists (e_seq e :: l). rewrite <- app_assoc.
    split; [done|]. intros s [->|?]%elem_of_cons; [lia|auto]. }
  eapply (latest_epoch_prefix g F); [exact Hs| |exact HFl|done].
  eapply Forall_impl; [exact Hb|]. cbn. intros s Hlt.
  assert (end_of p <= e_seq e) by (apply (end_of_next p e q); by rewrite <- Hes). lia.
Qed.

Lemma licensed_iff :
  is_ok (intent_verdict x g (e_seq e) i) = true ↔ licensed r es F e i.
Proof.
  rewrite verdict_ok, epoch_iff, no_holder_iff, causal_refs_ok.
  change (lx_resolutions x) with (lx_resolutions (lane_context r es)).
  rewrite lane_context_resolutions, allowed_spec, !firstAtOrBelow_none.
  destruct (context_closers r es (i_approvalRef i)) as [Hr Hx]. fold x in Hr, Hx. rewrite Hr, Hx.
  setoid_rewrite closing_spec.
  assert (∀ c, (∃ m, jm_get (machinesByIntent g) c = Some m ∧ m_consumed m = true) ↔
    c < e_seq e ∧ ∃ m, machineAt F c = Some m ∧ m_consumed m = true) as Hsucc.
  { intros c. pose proof (consumed_in_prefix c (fun _ => True) ltac:(done)). naive_solver. }
  assert (∀ c, (∃ m, jm_get (machinesByIntent g) c = Some m ∧ m_consumed m = true ∧ i_compensates (m_decision m) = None) ↔
    c < e_seq e ∧ ∃ m, machineAt F c = Some m ∧ m_consumed m = true ∧ i_compensates (m_decision m) = None) as Hcomp.
  { intros c. apply (consumed_in_prefix c (fun m => i_compensates (m_decision m) = None)).
    intros m m' (_ & _ & -> & _). done. }
  setoid_rewrite Hsucc. setoid_rewrite Hcomp. split.
  - intros (He & (a & Ha & Hk & Hl) & Hal & Hnr & Hnx & [Hc Hs] & Hf).
    apply context_bySeq in Ha as [Hin Hseq]. split; eauto 8.
    intros b Hb [Hc'|Hc']; eauto.
  - intros [He (a & Ha & Hseq & Hk & Hl) Hal Hop Hc Hs Hf]. split_and!; auto.
    + exists a. rewrite <- Hseq. split_and!; [by apply context_bySeq_ordered|done|done].
    + intros s (b & Hb & <- & Hcl). apply Hop; [done|by left].
    + intros s (b & Hb & <- & Hcl). apply Hop; [done|by right].
Qed.
End Consumption.

(** C3: when an intent consumes its approval.  The first intent entry under its
    operation id has a machine, and that machine is consumed exactly when: it
    cites the latest epoch before it; the approval it cites exists, licenses its
    logical key, and had resolved ['allow'] before it; no revocation or expiry of
    that approval precedes it; what it compensates or succeeds is an earlier
    consumed intent, and the compensated one is no compensation itself; and no
    earlier consumed intent holds the key in that epoch. *)
Theorem consumption_is_licence validate (es : list JournalEntry) (F : EffectLaneFold) e opId i :
  ordered es → newEffectLaneFold validate es = Ok F → e ∈ es →
  readEffectLaneDecision e = Lane opId (effect_intent i) →
  (∀ a d, a ∈ es → e_seq a < e_seq e → readEffectLaneDecision a ≠ Lane opId d) →
  ∃ r m, newResolutionFold validate es = Ok r ∧ machineAt F (e_seq e) = Some m ∧
    m_opId m = opId ∧ m_decision m = i ∧ (m_consumed m = true ↔ licensed r es F e i).
Proof.
  intros Ho HF (p & q & Hes)%list_elem_of_split Hr Hfirst.
  destruct (lane_fold_inv _ _ _ Ho HF) as (r & Hres & _ & Hinv & Hfin). exists r.
  set (x := lane_context r es). set (f := lane_entries x p).
  assert (∀ a, a ∈ p → e_seq a < e_seq e) as Hlt.
  { intros a Ha. rewrite Hes in Ho. apply ordered_app in Ho as (_ & _ & Hlt). apply Hlt; set_solver. }
  assert (opIds f !! opId = None) as Hop.
  { destruct (opIds f !! opId) as [s|] eqn:E; [|done].
    apply opIds_known in E as (a & d & Ha & _ & Hra). exfalso. eapply (Hfirst a d); [set_solver|auto|done]. }
  assert (∃ m, machineAt F (e_seq e) = Some m ∧
    evolves (match intent_verdict x (set_machine (set_opId f opId (e_seq e)) (fresh_machine e opId i)) (e_seq e) i with
       | Ok _ => set_verdict (fresh_machine e opId i) true None m_intent
       | Err reason => set_verdict (fresh_machine e opId i) false (Some reason) (m_terminal_state refused)
       end) m) as (m & Hm & Hev).
  { pose proof (prefix_machines x (p ++ [e]) q F (e_seq e)) as Hpm.
    rewrite <- app_assoc in Hpm. change ([e] ++ q) with (e :: q) in Hpm.
    rewrite <- Hes in Hpm. specialize (Hpm Hfin).
    rewrite lane_entries_app in Hpm. cbn in Hpm. fold f in Hpm. unfold applyEntry in Hpm.
    rewrite Hr, Hop in Hpm. cbn in Hpm. rewrite applyIntent_get, decide_True in Hpm by done.
    assert (∀ a, a ∈ q → e_seq e < e_seq a) as Hq.
    { intros a Ha. rewrite Hes in Ho. apply ordered_app in Ho as (_ & Ho2 & _).
      apply StronglySorted_inv in Ho2 as [_ Hall]. rewrite Forall_forall in Hall. auto. }
    specialize (Hpm Hq). inversion Hpm; subst. eauto. }
  exists m. pose proof (licensed_iff es F r p q e opId i Hes Ho Hfin Hinv) as Hiff.
  cbv zeta in Hiff. rewrite <- Hiff. clear Hiff.
  destruct Hev as (_ & Hop' & Hd & Hc & _). fold x. fold f.
  destruct (intent_verdict _ _ _ _) as [k|reason]; cbn in Hop', Hd, Hc; rewrite Hop', Hd, Hc; done.
Qed.

(** One effect is sent under one intent.  Two consumed intents of a journal
    never share their logical key and their epoch, and [canonicalIntent] finds
    exactly the consumed intent holding a key in the current epoch. *)
Theorem one_canonical_intent validate (es : list JournalEntry) (F : EffectLaneFold) :
  ordered es → newEffectLaneFold validate es = Ok F →
  (∀ s1 s2 m1 m2, machineAt F s1 = Some m1 → machineAt F s2 = Some m2 →
     m_consumed m1 = true → m_consumed m2 = true →
     i_epochRef (m_decision m1) = i_epochRef (m_decision m2) →
     i_logicalKey (m_decision m1) = i_logicalKey (m_decision m2) → s1 = s2) ∧
  (∀ epoch key m, currentEpoch F = Some epoch →
     canonicalIntent F key = Some m ↔
     machineAt F (m_intentSeq m) = Some m ∧ m_consumed m = true ∧
     i_epochRef (m_decision m) = ep_seq epoch ∧ i_logicalKey (m_decision m) = key).
Proof.
  intros Ho HF. destruct (lane_fold_inv _ _ _ Ho HF) as (r & _ & _ & Hinv & _). split.
  - intros s1 s2 m1 m2 H1 H2 C1 C2 He Hk.
    pose proof (li_canonical _ _ _ _ Hinv _ _ H1 C1) as K1.
    pose proof (li_canonical _ _ _ _ Hinv _ _ H2 C2) as K2. unfold key_of in *. congruence.
  - intros epoch key m Hep. unfold canonicalIntent. rewrite Hep. cbn. split.
    + intros (s & Hs & Hm)%bind_Some.
      destruct (li_holders _ _ _ _ Hinv _ _ Hs) as (m' & Hm' & Hc & [He Hk]%canonicalKey_inj).
      unfold machineAt in *. assert (m' = m) as -> by congruence.
      rewrite (li_keyed _ _ _ _ Hinv _ _ Hm). auto.
    + intros (Hm & Hc & He & Hk). pose proof (li_canonical _ _ _ _ Hinv _ _ Hm Hc) as Hkey.
      unfold key_of in Hkey. rewrite He, Hk in Hkey. by rewrite Hkey.
Qed.

(** C31: dispatch dies at revocation.  A machine never has two open attempts; its
    attempts belong to a consumed intent, follow it, and precede its terminal; and
    no revocation or expiry of the approval it consumed precedes any of them. *)
Theorem attempts_precede_revocation validate (es : list JournalEntry) (F : EffectLaneFold) s m :
  ordered es → newEffectLaneFold validate es = Ok F → machineAt F s = Some m →
  (length (List.filter at_open (m_attempts m)) <= 1)%nat ∧
  ∀ a, a ∈ m_attempts m →
    m_consumed m = true ∧ s < at_seq a ∧
    (∀ t, m_terminal m = Some t → at_seq a < te_seq t) ∧
    (∀ c, c ∈ es → closes_approval (i_approvalRef (m_decision m)) c → s < e_seq c → at_seq a <= e_seq c).
Proof.
  intros Ho HF Hm. destruct (lane_fold_inv _ _ _ Ho HF) as (r & _ & _ & Hinv & _).
  pose proof (li_machines _ _ _ _ Hinv _ _ Hm) as Hok. pose proof (li_keyed _ _ _ _ Hinv _ _ Hm) as Hs.
  split; [apply Hok|]. intros a Ha.
  assert (m_consumed m = true) as Hc.
  { destruct (m_consumed m) eqn:E; [done|]. destruct (mk_void _ _ _ Hok E) as (_ & _ & Hn & _).
    rewrite Hn in Ha. by apply not_elem_of_nil in Ha. }
  pose proof (mk_attempts _ _ _ Hok) as Hat. rewrite Forall_forall in Hat.
  destruct (Hat a Ha) as [[Hpos _] Hcl]. rewrite Hs in Hpos. split_and!; [done|done|..].
  - intros t Ht. destruct (mk_terminal _ _ _ Hok t Ht) as (_ & _ & Hb & _).
    rewrite Forall_forall in Hb. by apply Hb.
  - intros c Hin Hcc Hsc. pose proof (closer_first r es m Ho) as Hfirst. cbv zeta in Hfirst.
    pose proof (ex_intro (fun b => b ∈ es ∧ e_seq b = e_seq c ∧ closes_approval (i_approvalRef (m_decision m)) b)
                  c (conj Hin (conj eq_refl Hcc))) as Hex.
    destruct (closerAfterIntent (lane_context r es) m) as [c0|] eqn:E.
    + destruct Hfirst as (_ & _ & Hmin). specialize (Hcl c0 eq_refl).
      specialize (Hmin (e_seq c) Hex ltac:(rewrite Hs; done)). lia.
    + specialize (Hfirst (e_seq c) Hex). rewrite Hs in Hfirst. lia.
Qed.

(** What a recorded terminal proves.  Only a consumed intent has one, and its
    state is that terminal; [confirmed] has a verified receipt before it;
    [cancelled-before-dispatch] has only attempts closed as failed; [compensated]
    has a consumed compensation of this intent that was confirmed before it. *)
Theorem terminals_are_proved validate (es : list JournalEntry) (F : EffectLaneFold) s m t :
  ordered es → newEffectLaneFold validate es = Ok F → machineAt F s = Some m →
  m_terminal m = Some t →
  m_consumed m = true ∧ m_state m = m_terminal_state (te_terminal t) ∧
  (te_terminal t = confirmed →
   ∃ rc, rc ∈ m_receipts m ∧ rc_verification (rs_decision rc) = verified ∧ rs_seq rc < te_seq t) ∧
  (te_terminal t = cancelled_before_dispatch →
   Forall (fun a => at_open a = false ∧ at_outcome a = Some failed) (m_attempts m)) ∧
  (te_terminal t = compensated →
   ∃ k c tc, machineAt F k = Some c ∧ m_consumed c = true ∧ i_compensates (m_decision c) = Some s ∧
     m_terminal c = Some tc ∧ te_terminal tc = confirmed ∧ te_seq tc < te_seq t).
Proof.
  intros Ho HF Hm Ht. destruct (lane_fold_inv _ _ _ Ho HF) as (r & _ & _ & Hinv & _).
  pose proof (li_machines _ _ _ _ Hinv _ _ Hm) as Hok. pose proof (li_keyed _ _ _ _ Hinv _ _ Hm) as Hs.
  destruct (mk_terminal _ _ _ Hok t Ht) as (_ & Hst & _ & Hcf & Hcan). split_and!; [|done..|].
  - destruct (m_consumed m) eqn:E; [done|]. destruct (mk_void _ _ _ Hok E) as (_ & _ & _ & Hn). congruence.
  - intros Hcm. destruct (li_compensated _ _ _ _ Hinv _ _ Hm t Ht Hcm) as (k & c & tc & H).
    rewrite Hs in H. eauto.
Qed.

(** ** Witnesses *)

Definition demo_refund_intent : JournalEntry :=
  lane_entry 10 "effect_intent" "refund" (intent_fields "refund-1" 8 0 [("compensates", num 3)]).

Definition demo_refund_decision : IntentDecision :=
  mkIntent "refund-1" 8 0 monetary row_idempotency_key None "h" None None
    (mkBudgets 2 1 (JNum 10) None "2030-02-01") (Some 3) None.

Lemma consumption_is_licence_witness :
  m_consumed (machine_of demo_effects 10) = true ∧
  ∃ r m, newResolutionFold any_schema demo_effects = Ok r ∧
    machineAt (lane_of demo_effects) (e_seq demo_refund_intent) = Some m ∧
    m_opId m = "refund" ∧ m_decision m = demo_refund_decision ∧
    (m_consumed m = true ↔ licensed r demo_effects (lane_of demo_effects) demo_refund_intent demo_refund_decision).
Proof.
  split; [vm_compute; reflexivity|].
  apply (consumption_is_licence any_schema).
  - apply demo_effects_wf.
  - apply demo_effects_folds.
  - apply list_elem_of_In. vm_compute. tauto.
  - vm_compute. reflexivity.
  - intros a d Ha Hlt. unfold demo_effects, demo_payment, demo_refund in Ha. cbn [app] in Ha.
    repeat (apply elem_of_cons in Ha as [->|Ha]; [try (exfalso; revert Hlt; apply N.le_ngt, N.leb_le; reflexivity); vm_compute; intros [=]|]).
    by apply not_elem_of_nil in Ha.
Defined.

Lemma one_canonical_intent_witness :
  (∀ s1 s2 m1 m2, machineAt (lane_of demo_effects) s1 = Some m1 →
     machineAt (lane_of demo_effects) s2 = Some m2 →
     m_consumed m1 = true → m_consumed m2 = true →
     i_epochRef (m_decision m1) = i_epochRef (m_decision m2) →
     i_logicalKey (m_decision m1) = i_logicalKey (m_decision m2) → s1 = s2) ∧
  canonicalIntent (lane_of demo_effects) "pay-1" = Some (machine_of demo_effects 3).
Proof.
  split; [|vm_compute; reflexivity].
  apply (one_canonical_intent any_schema demo_effects); [apply demo_effects_wf|apply demo_effects_folds].
Defined.

Lemma attempts_precede_revocation_witness :
  map at_seq (m_attempts (machine_of demo_effects 3)) = [4] ∧
  (length (List.filter at_open (m_attempts (machine_of demo_effects 3))) <= 1)%nat ∧
  ∀ a, a ∈ m_attempts (machine_of demo_effects 3) →
    m_consumed (machine_of demo_effects 3) = true ∧ 3 < at_seq a ∧
    (∀ t, m_terminal (machine_of demo_effects 3) = Some t → at_seq a < te_seq t) ∧
    (∀ c, c ∈ demo_effects → closes_approval (i_approvalRef (m_decision (machine_of demo_effects 3))) c →
       3 < e_seq c → at_seq a <= e_seq c).
Proof.
  split; [vm_compute; reflexivity|].
  apply (attempts_precede_revocation any_schema demo_effects (lane_of demo_effects));
    [apply demo_effects_wf|apply demo_effects_folds|vm_compute; reflexivity].
Defined.

Lemma terminals_are_proved_witness :
  m_consumed (machine_of demo_effects 3) = true ∧
  ∃ rc, rc ∈ m_receipts (machine_of demo_effects 3) ∧
    rc_verification (rs_decision rc) = verified ∧ rs_seq rc < 7.
Proof.
  pose proof (terminals_are_proved any_schema demo_effects (lane_of demo_effects) 3
                (machine_of demo_effects 3) (mkTerminal 7 confirmed None None)) as H.
  destruct H as (H1 & _ & H3 & _); [apply demo_effects_wf|apply demo_effects_folds|vm_compute; reflexivity..|].
  split; [exact H1|]. apply H3. reflexivity.
Defined.

(** An approval spent in one epoch is spent again by an intent of the next. *)
Definition two_epochs : list JournalEntry :=
  [lane_entry 0 "effect_epoch" "epoch" [("generation", JStr "g1")];
   approval_entry 1 "pay-1"; allow_entry 2 1;
   lane_entry 3 "effect_intent" "intent" (intent_fields "pay-1" 1 0 []);
   lane_entry 4 "effect_epoch" "epoch-2" [("generation", JStr "g2")];
   lane_entry 5 "effect_intent" "intent-2" (intent_fields "pay-1" 1 4 [])].

Example approval_spent_in_two_epochs :
  map (fun m => (m_intentSeq m, i_approvalRef (m_decision m), m_consumed m)) (machines (lane_of two_epochs))
  = [(3, 1, true); (5, 1, true)].
Proof. vm_compute. reflexivity. Qed.
