(* ===== verification/EffectStable.v ===== *)
(** * Verdicts are stable (packages/core/src/effects/fold.ts)

    The fold of a journal and the fold of a longer one.  The writer decides on the
    fold of what it has loaded; this file proves that later entries change none of
    it: machines only evolve, and classifications stay. *)
From S2P Require Import Prelude Json JsMap Entries Disposition Resolution EffectTypes EffectFold.
From S2P Require Import EffectLaws EffectConsume.

#[local] Open Scope N_scope.

(** ** Suspensions under extension *)

Section Suspensions.
Variable validate : json → json → bool * option string.
Implicit Types (f g : ResolutionFold).

(** A target after one more entry: closed targets stay, and an open one is closed
    by that entry or stays open. *)
Lemma fold_entry_target f e f' s :
  fold_entry validate f e = Ok f' →
  match jm_get (targets f) s, jm_get (targets f') s with
  | None, None => True
  | Some st, Some st' =>
      if decide (closedBy st = None) then closedBy st' = None ∨ closedBy st' = Some (e_seq e)
      else st' = st
  | _, _ => False
  end.
Proof.
  intros [[_ ->]|(_ & g & c & Hg & ->)]%fold_entry_inv.
  { destruct (jm_get (targets f) s); [|done]. case_decide; auto. }
  cbn [classify targets]. pose proof (applyRef_closed validate f e s) as Hc.
  pose proof (applyRef_frame validate f e) as (_ & _ & _ & Hfr). specialize (Hfr s). rewrite Hg in *. cbn [fst] in *.
  destruct (jm_get (targets f) s) as [st|] eqn:Hf, (jm_get (targets g) s) as [st'|] eqn:Hgs; try done.
  case_decide as Ho; [|by specialize (Hc st eq_refl Ho) as [= ->]].
  clear Hc Hfr. unfold applyRef, applyResolution, applyAbandon in Hg.
  repeat case_match; simplify_eq/=; try (by left).
  - rewrite jm_get_set in Hgs. case_decide; simplify_eq; [by right|by left].
  - rewrite jm_get_update, Hf in Hgs. cbn in Hgs. simplify_eq. unfold close_if_covered.
    case_match; cbn; auto.
Qed.

(** The resolutions before [pos] are those of the entries before [pos]. *)
Lemma allowed_fold f q f' ref pos :
  fold_entries validate f q = Ok f' → (∀ e, e ∈ q → pos <= e_seq e) →
  allowed_before f' ref pos = allowed_before f ref pos.
Proof.
  revert f. induction q as [|e q IH]; intros f; cbn; [by intros [= ->]|].
  intros (f1 & He & Hq)%bind_ok Hpos. rewrite (IH f1 Hq) by (intros; apply Hpos; by right).
  pose proof (fold_entry_target _ _ _ ref He) as Ht. specialize (Hpos e ltac:(by left)).
  unfold allowed_before, suspensionState.
  destruct (jm_get (targets f) ref) as [st|], (jm_get (targets f1) ref) as [st'|]; try done.
  destruct (closedBy st) as [b|] eqn:Hb; case_decide as Hd; try done; [by rewrite Ht, Hb|].
  destruct Ht as [->| ->]; [done|]. case_decide; [done|].
  by rewrite (proj2 (N.ltb_ge _ _) Hpos).
Qed.

Lemma allowed_rel (b l : ResolutionFold) ref pos :
  fold_rel b l → allowed_before b ref pos = allowed_before l ref pos.
Proof.
  intros Hrel. pose proof (fr_targets _ _ Hrel ref) as Ht. unfold allowed_before, suspensionState.
  destruct (jm_get (targets b) ref) as [tb|], (jm_get (targets l) ref) as [tl|]; inversion Ht as [? ? Hr|]; [|done].
  subst. destruct Hr as [->|(_ & _ & Hcb & Hk & Hl)]; [done|].
  destruct (closedBy tb); [|done]. rewrite decide_True by done.
  destruct (closedBy tl); [|done]. destruct Hl as [?|?]; [done|]. by rewrite decide_True.
Qed.

Lemma fold_entries_frame f q f' s :
  fold_entries validate f q = Ok f' →
  is_Some (jm_get (targets f') s) ↔ is_Some (jm_get (targets f) s).
Proof.
  revert f. induction q as [|e q IH]; intros f; cbn; [by intros [= ->]|].
  intros (f1 & He & Hq)%bind_ok. rewrite (IH f1 Hq).
  pose proof (fold_entry_target _ _ _ s He) as Ht.
  destruct (jm_get (targets f) s), (jm_get (targets f1) s); try done; split; by intros [].
Qed.

(** A target of a fold is one of its entries. *)
Lemma target_known p r ref :
  newResolutionFold validate p = Ok r → is_Some (jm_get (targets r) ref) →
  ∃ a, a ∈ p ∧ e_seq a = ref.
Proof.
  intros Hr. rewrite (fold_entries_frame _ _ _ _ Hr). intros [t Ht].
  apply fresh_inv in Ht as (a & ? & ? & _). eauto.
Qed.

Lemma allowed_known p r ref pos :
  newResolutionFold validate p = Ok r → allowed_before r ref pos = true → ∃ a, a ∈ p ∧ e_seq a = ref.
Proof.
  intros Hr Ha. apply (target_known p r ref Hr). unfold allowed_before, suspensionState in Ha.
  by destruct (jm_get (targets r) ref); [|done].
Qed.

Lemma journal_wf_seqs es : journal_wf es → ordered es.
Proof. by intros []. Qed.

(** The two folds agree on what had been allowed at a position of the prefix. *)
Lemma allowed_stable p q r :
  journal_wf (p ++ q) → newResolutionFold validate (p ++ q) = Ok r →
  ∃ r0, newResolutionFold validate p = Ok r0 ∧
    ∀ ref pos, (∀ e, e ∈ q → pos <= e_seq e) → allowed_before r ref pos = allowed_before r0 ref pos.
Proof.
  intros Hwf Hr. pose proof (journal_wf_indexed _ Hwf) as Hix.
  pose proof (journal_wf_seqs _ Hwf) as (Hp & Hq & Hlt)%ordered_app.
  unfold newResolutionFold in Hr. rewrite foldl_app in Hr, Hix. rewrite fold_entries_app in Hr.
  apply bind_ok in Hr as (b0 & Hb0 & Hr).
  pose proof (prefix_agrees validate _ (foldl preload empty_fold p) p q (fold_rel_refl _) Hix Hlt) as Hag.
  rewrite Hb0 in Hag. unfold newResolutionFold.
  destruct (fold_entries validate (foldl preload empty_fold p) p) as [r0|] eqn:Hr0; [|done].
  destruct Hag as [Hrel _]. exists r0. split; [done|]. intros ref pos Hpos.
  rewrite (allowed_fold _ _ _ _ _ Hr Hpos), (allowed_rel _ _ ref pos Hrel).
  unfold allowed_before, suspensionState. rewrite preload_get_gen.
  destruct (fresh q ref) as [t|] eqn:Hf; [|done].
  apply fresh_inv in Hf as (a & Ha & Hs & ->). cbn.
  destruct (jm_get (targets r0) ref) as [t|] eqn:Ht; [|done]. exfalso.
  destruct (target_known p r0 ref Hr0) as (a' & Ha' & Hs'); [by eexists|].
  specialize (Hlt a' a Ha' Ha). lia.
Qed.
End Suspensions.

(** ** Two states that differ in the wording of a void verdict *)

(** A void machine without its reason. *)
Definition unvoid (m : EffectMachine) : EffectMachine :=
  set_verdict m (m_consumed m) None (m_state m).

Definition machine_agree (m m' : EffectMachine) : Prop :=
  m = m' ∨ (m_consumed m = false ∧ unvoid m = unvoid m').

Definition class_agree (c c' : EffectLaneClassification) : Prop :=
  c = c' ∨ ∃ r r', c = lane_void r ∧ c' = lane_void r'.

Record lane_agree (f g : EffectLaneFold) : Prop := {
  la_machines : ∀ s, option_Forall2 machine_agree
    (jm_get (machinesByIntent f) s) (jm_get (machinesByIntent g) s);
  la_classes : ∀ s, option_Forall2 class_agree (laneClasses f !! s) (laneClasses g !! s);
  la_canonical : canonicalByEpochKey f = canonicalByEpochKey g;
  la_opIds : opIds f = opIds g;
  la_epochs : epochList f = epochList g;
  la_declarations : declarationList f = declarationList g;
  la_refusals : refusalList f = refusalList g;
  la_quarantines : quarantineList f = quarantineList g;
}.

Lemma machine_agree_consumed m m' : machine_agree m m' → m_consumed m' = m_consumed m.
Proof. intros [->|[_ Hu]]; [done|]. by apply (f_equal m_consumed) in Hu. Qed.

Lemma machine_agree_eq m m' : machine_agree m m' → m_consumed m = true → m' = m.
Proof. intros [->|[Hf _]]; congruence. Qed.

Lemma lane_agree_refl f : lane_agree f f.
Proof.
  split; try done; intros s.
  - destruct (jm_get _ s); constructor. by left.
  - destruct (laneClasses f !! s); constructor. by left.
Qed.

Section Closure.
Variables f g : EffectLaneFold.
Hypothesis Hag : lane_agree f g.

Lemma agree_classify s c c' : class_agree c c' → lane_agree (classify_lane f s c) (classify_lane g s c').
Proof.
  intros Hc. destruct Hag. split; cbn; try done. intros t. rewrite !lookup_insert.
  by case_decide; [constructor|].
Qed.

Lemma agree_set m m' : machine_agree m m' → lane_agree (set_machine f m) (set_machine g m').
Proof.
  intros Hm. destruct Hag. split; cbn; try done. intros t. rewrite !jm_get_set.
  assert (m_intentSeq m' = m_intentSeq m) as ->.
  { destruct Hm as [->|[_ Hu]]; [done|]. by apply (f_equal m_intentSeq) in Hu. }
  by case_decide; [constructor|].
Qed.

Lemma agree_opId o s : lane_agree (set_opId f o s) (set_opId g o s).
Proof. destruct Hag. split; cbn; try done. by rewrite la_opIds0. Qed.

Lemma agree_consumed c :
  consumed_at f c = consumed_at g c.
Proof.
  unfold consumed_at. pose proof (la_machines _ _ Hag c) as Hm.
  inversion Hm as [m m' Hma|]; subst; [|done]. cbn.
  rewrite (machine_agree_consumed _ _ Hma). destruct (m_consumed m) eqn:E; [|done].
  by rewrite (machine_agree_eq _ _ Hma E).
Qed.

Lemma agree_causal i : causal_refs f i = causal_refs g i.
Proof. unfold causal_refs. destruct (i_compensates i), (i_successorOf i); by rewrite ?agree_consumed. Qed.

Lemma agree_live s ref k k' :
  (∀ m, m_consumed m = true → jm_get (machinesByIntent f) ref = Some m → lane_agree (k m) (k' m)) →
  lane_agree (liveMachine f s ref k) (liveMachine g s ref k').
Proof.
  intros Hk. unfold liveMachine. pose proof (la_machines _ _ Hag ref) as Hm.
  inversion Hm as [m m' Hma Hx Hy|]; subst; [|apply agree_classify; by left].
  rewrite (machine_agree_consumed _ _ Hma). destruct (m_consumed m) eqn:E.
  - rewrite (machine_agree_eq _ _ Hma E). by apply Hk.
  - apply agree_classify. by left.
Qed.

Lemma agree_update s m c : lane_agree (classify_lane (set_machine f m) s c) (classify_lane (set_machine g m) s c).
Proof.
  assert (lane_agree (set_machine f m) (set_machine g m)) as H by (apply agree_set; by left).
  destruct H. split; cbn; try done. intros t. rewrite !lookup_insert.
  case_decide; [constructor; by left|]. apply la_classes0.
Qed.

Lemma agree_compensation seq m cause :
  compensation_confirmed f seq m cause = compensation_confirmed g seq m cause.
Proof.
  unfold compensation_confirmed, causal_machine. destruct (readSeq cause) as [s|]; cbn; [|done].
  pose proof (la_machines _ _ Hag s) as Hm. inversion Hm as [c c' Hma|]; subst; [|done].
  rewrite (machine_agree_consumed _ _ Hma). destruct (m_consumed c) eqn:E; [|done].
  by rewrite (machine_agree_eq _ _ Hma E).
Qed.

Lemma agree_illegality seq m t cause :
  terminalIllegality f seq m t cause = terminalIllegality g seq m t cause.
Proof. unfold terminalIllegality. destruct t; [done..| |done]. by rewrite agree_compensation. Qed.
End Closure.

(** ** The contexts of the two folds *)

(** [x] knows the prefix of a journal, [y] the whole; [pos] is the position of an
    entry of the prefix. *)
Record context_agree (pos : N) (x y : LaneContext) : Prop := {
  ca_allowed : ∀ ref, allowed_before (lx_resolutions y) ref pos = allowed_before (lx_resolutions x) ref pos;
  ca_approval : ∀ ref, allowed_before (lx_resolutions x) ref pos = true →
    lx_bySeq y !! ref = lx_bySeq x !! ref;
  ca_revoked : ∀ ref, ∃ l, default [] (lx_revoked y !! ref) = default [] (lx_revoked x !! ref) ++ l ∧
    ∀ s, s ∈ l → pos < s;
  ca_expired : ∀ ref, ∃ l, default [] (lx_expired y !! ref) = default [] (lx_expired x !! ref) ++ l ∧
    ∀ s, s ∈ l → pos < s;
}.

Lemma firstAtOrBelow_more l l' k pos :
  default [] l' = default [] l ++ k → (∀ s, s ∈ k → pos < s) →
  firstAtOrBelow l' pos = None ↔ firstAtOrBelow l pos = None.
Proof.
  intros He Hk. rewrite !firstAtOrBelow_none, He. setoid_rewrite elem_of_app. split; [auto|].
  intros Hl s [?|Hs]; [auto|]. specialize (Hk s Hs). lia.
Qed.

Lemma firstAbove_default l pos :
  firstAbove l pos = find_first (fun s => pos <? s) (default [] l).
Proof. by destruct l. Qed.

Lemma firstAbove_more l l' k pos n :
  default [] l' = default [] l ++ k → (∀ s, s ∈ k → n < s) →
  firstAbove l' pos = firstAbove l pos ∨
  (firstAbove l pos = None ∧ ∃ s, firstAbove l' pos = Some s ∧ n < s).
Proof.
  intros He Hk. rewrite !firstAbove_default, He, find_first_app.
  destruct (find_first _ (default [] l)); [by left|].
  destruct (find_first _ k) as [s|] eqn:E; [|by left]. right. split; [done|].
  apply find_first_Some in E as [Hin _]. eauto.
Qed.

(** An attempt at [pos] sees the same closer. *)
Lemma closer_agree pos x y m :
  context_agree pos x y →
  match closerAfterIntent x m, closerAfterIntent y m with
  | Some c, Some c' => c = c' ∨ (pos < c_seq c ∧ pos < c_seq c')
  | None, Some c' => pos < c_seq c'
  | Some c, None => False
  | None, None => True
  end.
Proof.
  intros Hca. set (ref := i_approvalRef (m_decision m)).
  destruct (ca_revoked _ _ _ Hca ref) as (lr & Hr & Hlr), (ca_expired _ _ _ Hca ref) as (le & He & Hle).
  pose proof (firstAbove_more _ _ _ (m_intentSeq m) _ Hr Hlr) as Ha.
  pose proof (firstAbove_more _ _ _ (m_intentSeq m) _ He Hle) as Hb.
  unfold closerAfterIntent. fold ref.
  destruct (firstAbove (lx_revoked x !! ref) _) as [a|], (firstAbove (lx_expired x !! ref) _) as [b|];
    destruct Ha as [->|[Hn (a' & -> & Hla)]], Hb as [->|[Hn' (b' & -> & Hlb)]]; try done;
    repeat (case_match; simplify_eq); cbn [c_seq]; try match goal with H : (_ <=? _) = false |- _ => apply N.leb_gt in H
                    | H : (_ <=? _) = true |- _ => apply N.leb_le in H end;
    first [done|by left|right; lia|lia].
Qed.

Lemma verdict_agree x y f g seq i :
  context_agree seq x y → lane_agree f g →
  is_ok (intent_verdict x f seq i) = true ↔ is_ok (intent_verdict y g seq i) = true.
Proof.
  intros Hca Hag. rewrite !verdict_ok.
  destruct (ca_revoked _ _ _ Hca (i_approvalRef i)) as (lr & Hr & Hlr).
  destruct (ca_expired _ _ _ Hca (i_approvalRef i)) as (le & He & Hle).
  rewrite (firstAtOrBelow_more _ _ _ seq Hr Hlr), (firstAtOrBelow_more _ _ _ seq He Hle).
  rewrite (ca_allowed _ _ _ Hca), (agree_causal _ _ Hag), (la_canonical _ _ Hag).
  unfold latestEpochBefore. rewrite (la_epochs _ _ Hag).
  pose proof (ca_approval _ _ _ Hca (i_approvalRef i)) as Hap.
  split; intros (H1 & H2 & H3 & H4); specialize (Hap H3); rewrite Hap in *; done.
Qed.

(** An entry of the prefix does the same to both states. *)
Lemma applyIntent_agree x y f g e opId i :
  context_agree (e_seq e) x y → lane_agree f g →
  lane_agree (applyIntent x f e opId i) (applyIntent y g e opId i).
Proof.
  intros Hca Hag. unfold applyIntent.
  assert (lane_agree (set_machine f (fresh_machine e opId i)) (set_machine g (fresh_machine e opId i)))
    as Hs by (apply agree_set; [done|by left]).
  pose proof (verdict_agree _ _ _ _ (e_seq e) i Hca Hs) as Hv.
  destruct (intent_verdict x _ _ i) as [k|w] eqn:Ek, (intent_verdict y _ _ i) as [k'|w'] eqn:Ek'; cbn in Hv.
  - apply verdict_inv in Ek as [-> _], Ek' as [-> _]. apply agree_update.
    destruct Hs. split; cbn; try done. cbn in *. congruence.
  - by destruct Hv as [Hv _]; specialize (Hv eq_refl).
  - by destruct Hv as [_ Hv]; specialize (Hv eq_refl).
  - apply agree_classify; [|right; eauto]. apply agree_set; [done|]. right. done.
Qed.

Lemma applyEntry_agree x y f g e :
  context_agree (e_seq e) x y → lane_agree f g → lane_agree (applyEntry x f e) (applyEntry y g e).
Proof.
  intros Hca Hag. unfold applyEntry. rewrite (la_opIds _ _ Hag).
  destruct (readEffectLaneDecision e) as [|op d|]; [done| |apply agree_classify; [done|by left]].
  destruct (opIds g !! op); [apply agree_classify; [done|by left]|].
  pose proof (agree_opId _ _ Hag op (e_seq e)) as Ho. set (f' := set_opId f op (e_seq e)) in *.
  set (g' := set_opId g op (e_seq e)) in *. clearbody f' g'.
  destruct d as [gn r|k c r h|i|ref ord na ik tr|ref at_ oc|ref r|[ref|] k t re ca|ref i ca de
                |ref p re di ca|ref p fo ac|ref]; cbn [applyDecision].
  - apply agree_classify; [|by left]. destruct Ho. split; cbn; try done. unfold new_epoch. by rewrite la_epochs0.
  - apply agree_classify; [|by left]. destruct Ho. split; cbn; try done. by rewrite la_declarations0.
  - by apply applyIntent_agree.
  - apply agree_live; [done|]. intros m _ _. unfold applyAttempt.
    destruct (m_terminal m); [apply agree_classify; [done|by left]|].
    assert (∀ a, lane_agree
      (if existsb at_open (m_attempts m) then classify_lane f' (e_seq e) (lane_invalid attempt_is_open)
       else classify_lane (set_machine f' a) (e_seq e) lane_applied)
      (if existsb at_open (m_attempts m) then classify_lane g' (e_seq e) (lane_invalid attempt_is_open)
       else classify_lane (set_machine g' a) (e_seq e) lane_applied)) as Hpush.
    { intros a. destruct (existsb _ _); [apply agree_classify; [done|by left]|by apply agree_update]. }
    pose proof (closer_agree _ _ _ m Hca) as Hcl.
    destruct (closerAfterIntent x m) as [c|], (closerAfterIntent y m) as [c'|]; try done.
    + destruct Hcl as [->|[H1 H2]].
      * destruct (c_seq c' <? e_seq e); [apply agree_classify; [done|by left]|apply Hpush].
      * rewrite !(proj2 (N.ltb_ge _ _)) by lia. apply Hpush.
    + rewrite (proj2 (N.ltb_ge _ _)) by lia. apply Hpush.
  - apply agree_live; [done|]. intros m _ _. unfold applyOutcome.
    repeat case_match; (apply agree_classify; [done|by left]) || by apply agree_update.
  - apply agree_live; [done|]. intros m _ _. unfold applyReceipt, after_terminal.
    repeat case_match; by apply agree_update.
  - apply agree_live; [done|]. intros m _ _. unfold applyTerminal. rewrite (agree_illegality _ _ Ho).
    repeat case_match; (apply agree_classify; [done|by left]) || by apply agree_update.
  - unfold standalone. apply agree_classify; [|by left]. destruct Ho.
    case_decide; split; cbn; try done; congruence.
  - apply agree_live; [done|]. intros m _ _. by apply agree_update.
  - apply agree_live; [done|]. intros m _ _. by apply agree_update.
  - apply agree_live; [done|]. intros m _ _. by apply agree_update.
  - rewrite (la_epochs _ _ Ho). destruct (existsb _ _); (apply agree_classify; [|by left]); [|done].
    destruct Ho. by split.
Qed.

Lemma closing_app read p q t : closing_seqs read (p ++ q) t = closing_seqs read p t ++ closing_seqs read q t.
Proof. unfold closing_seqs. by rewrite List.filter_app, map_app. Qed.

Lemma prefix_context validate p q r r0 e :
  journal_wf (p ++ q) → newResolutionFold validate p = Ok r0 →
  (∀ ref pos, (∀ a, a ∈ q → pos <= e_seq a) → allowed_before r ref pos = allowed_before r0 ref pos) →
  e ∈ p → context_agree (e_seq e) (lane_context r0 p) (lane_context r (p ++ q)).
Proof.
  intros Hwf Hr0 Hal He. pose proof (journal_wf_seqs _ Hwf) as Ho.
  pose proof Ho as (Hp & Hq & Hlt)%ordered_app.
  assert (∀ read t s, s ∈ closing_seqs read q t → e_seq e < s) as Hlater.
  { intros read t s (a & Ha & <- & _)%closing_spec. auto. }
  split; rewrite ?lane_context_resolutions.
  - intros ref. apply Hal. intros a Ha. specialize (Hlt e a He Ha). lia.
  - intros ref Hr. destruct (allowed_known _ _ _ _ _ Hr0 Hr) as (a & Ha & <-).
    rewrite !context_bySeq_ordered; [done|done|done|done|set_solver].
  - intros ref. destruct (context_closers r (p ++ q) ref) as [-> _], (context_closers r0 p ref) as [-> _].
    rewrite closing_app. eauto.
  - intros ref. destruct (context_closers r (p ++ q) ref) as [_ ->], (context_closers r0 p ref) as [_ ->].
    rewrite closing_app. eauto.
Qed.

Lemma entries_agree x y f g es :
  (∀ e, e ∈ es → context_agree (e_seq e) x y) → lane_agree f g →
  lane_agree (foldl (applyEntry x) f es) (foldl (applyEntry y) g es).
Proof.
  revert f g. induction es as [|e es IH]; intros f g Hca Hag; [done|]. cbn.
  apply IH; [intros; apply Hca; by right|]. apply applyEntry_agree; [apply Hca; by left|done].
Qed.

(** ** Classifications are final *)

Lemma liveMachine_classes f seq ref k s :
  (∀ m, laneClasses (k m) !! s = laneClasses f !! s) → seq ≠ s →
  laneClasses (liveMachine f seq ref k) !! s = laneClasses f !! s.
Proof. intros Hk Hs. unfold liveMachine. repeat case_match; [done|by cbn; rewrite lookup_insert_ne..]. Qed.

Lemma classify_ne f seq c s : seq ≠ s → laneClasses (classify_lane f seq c) !! s = laneClasses f !! s.
Proof. intros Hs. cbn. by rewrite lookup_insert_ne. Qed.

Lemma applyDecision_classes x f e op d s :
  e_seq e ≠ s → laneClasses (applyDecision x f e op d) !! s = laneClasses f !! s.
Proof.
  intros Hs. destruct d as [g r|k c r h|i|ref ord na ik tr|ref at_ oc|ref r|[ref|] k t re ca|ref i ca de
                |ref p re di ca|ref p fo ac|ref]; cbn [applyDecision]; try (by rewrite classify_ne).
  - unfold applyIntent. by destruct (intent_verdict _ _ _ _); rewrite classify_ne.
  - apply liveMachine_classes; [|done]. intros m. unfold applyAttempt. by repeat case_match; rewrite classify_ne.
  - apply liveMachine_classes; [|done]. intros m. unfold applyOutcome. by repeat case_match; rewrite classify_ne.
  - apply liveMachine_classes; [|done]. intros m. unfold applyReceipt, after_terminal.
    by repeat case_match; rewrite classify_ne.
  - apply liveMachine_classes; [|done]. intros m. unfold applyTerminal. by repeat case_match; rewrite classify_ne.
  - unfold standalone. by rewrite classify_ne by done; case_decide.
  - apply liveMachine_classes; [|done]. intros m. by rewrite classify_ne.
  - apply liveMachine_classes; [|done]. intros m. by rewrite classify_ne.
  - apply liveMachine_classes; [|done]. intros m. by rewrite classify_ne.
  - by case_match; rewrite classify_ne.
Qed.

Lemma entries_classes x f q s :
  (∀ e, e ∈ q → e_seq e ≠ s) →
  laneClasses (foldl (applyEntry x) f q) !! s = laneClasses f !! s.
Proof.
  revert f. induction q as [|e q IH]; intros f Hq; [done|]. cbn. rewrite IH by (intros; apply Hq; by right).
  specialize (Hq e ltac:(by left)). unfold applyEntry.
  destruct (readEffectLaneDecision e) as [|op d|]; [done| |by rewrite classify_ne].
  destruct (opIds f !! op); [by rewrite classify_ne|]. by rewrite applyDecision_classes.
Qed.

Lemma agree_evolves m m' : machine_agree m m' → evolves m m'.
Proof.
  intros [->|[Hc Hu]]; [reflexivity|]. unfold unvoid, set_verdict in Hu. injection Hu as H1 H2 H3 H4 H5 H6 H7 H8 H9 H10 H11 H12 H13 H14 H15.
  split_and!; try congruence.
  - intros t Ht. split; congruence.
  - by rewrite H7.
  - by rewrite H8.
Qed.

(** The two folds of a journal and its prefix. *)
Lemma verdicts_stable_core validate (p q : list JournalEntry) (F : EffectLaneFold) :
  journal_wf (p ++ q) → newEffectLaneFold validate (p ++ q) = Ok F →
  ∃ F0, newEffectLaneFold validate p = Ok F0 ∧
    (∀ s m0, machineAt F0 s = Some m0 → ∃ m, machineAt F s = Some m ∧ evolves m0 m) ∧
    (∀ e, e ∈ p → option_Forall2 class_agree (laneClasses F0 !! e_seq e) (laneClasses F !! e_seq e)).
Proof.
  intros Hwf HF. pose proof (journal_wf_seqs _ Hwf) as Ho.
  destruct (lane_fold_inv _ _ _ Ho HF) as (r & Hr & _ & _ & Hfin).
  destruct (allowed_stable validate p q r Hwf Hr) as (r0 & Hr0 & Hal).
  pose proof Ho as (Hp & Hq & Hlt)%ordered_app.
  set (y := lane_context r (p ++ q)) in *. set (x := lane_context r0 p).
  exists (finalize x (lane_entries x p)). split; [unfold newEffectLaneFold; by rewrite Hr0|].
  assert (newEffectLaneFold validate p = Ok (finalize x (lane_entries x p))) as HF0
    by (unfold newEffectLaneFold; by rewrite Hr0).
  destruct (lane_fold_inv _ _ _ Hp HF0) as (r1 & Hr1 & _ & Hinv0 & Hfin0).
  rewrite Hr0 in Hr1. injection Hr1 as <-. fold x in Hinv0, Hfin0.
  assert (lane_agree (lane_entries x p) (lane_entries y p)) as Hag.
  { apply entries_agree; [|apply lane_agree_refl]. intros e He. by eapply prefix_context. }
  split.
  - intros s m0 Hm0. destruct (li_source _ _ _ _ Hinv0 s m0 Hm0) as (a & Ha & <- & _).
    destruct (finalized_get _ _ _ _ Hfin0 Hm0) as (m1 & Hm1 & He1).
    pose proof (la_machines _ _ Hag (e_seq a)) as Hma. rewrite Hm1 in Hma. inversion Hma as [? m2 Hag2 Hx Hm2|]. subst.
    pose proof (prefix_machines y p q F (e_seq a) Hfin ltac:(auto)) as Hev. rewrite <- Hm2 in Hev.
    inversion Hev as [? m Hev2 Hy Hm|]. subst. exists m. split; [done|].
    etrans; [|exact Hev2]. etrans; [|by apply agree_evolves]. apply erase_evolves. done.
  - intros e He. pose proof (la_classes _ _ Hag (e_seq e)) as Hc.
    destruct Hfin0 as (_ & _ & -> & _). destruct Hfin as (_ & _ & -> & _).
    rewrite lane_entries_app, entries_classes; [done|]. intros a Ha. specialize (Hlt e a He Ha). lia.
Qed.

(** C16: verdicts are stable.  Whatever a journal grows into, every machine of its
    fold is still there with the same intent, the same verdict and, if it had one,
    the same terminal and state, its attempts and receipts only extended; and every
    entry keeps its classification, but for the reason a void intent is given. *)
Theorem verdicts_are_stable validate (p q : list JournalEntry) (F : EffectLaneFold) :
  journal_wf (p ++ q) → newEffectLaneFold validate (p ++ q) = Ok F →
  ∃ F0, newEffectLaneFold validate p = Ok F0 ∧
    (∀ s m0, machineAt F0 s = Some m0 → ∃ m, machineAt F s = Some m ∧ evolves m0 m) ∧
    (∀ e, e ∈ p → option_Forall2 class_agree (laneClasses F0 !! e_seq e) (laneClasses F !! e_seq e)).
Proof. apply verdicts_stable_core. Qed.

Lemma verdicts_are_stable_witness :
  m_state (machine_of demo_payment 3) = m_terminal_state confirmed ∧
  ∃ m, machineAt (lane_of demo_effects) 3 = Some m ∧ evolves (machine_of demo_payment 3) m.
Proof.
  split; [vm_compute; reflexivity|].
  destruct (verdicts_are_stable any_schema demo_payment demo_refund (lane_of demo_effects))
    as (F0 & HF0 & Hm & _); [apply demo_effects_wf|vm_compute; reflexivity|].
  apply Hm. rewrite <- (lane_of_ok demo_payment F0 HF0). vm_compute. reflexivity.
Defined.
