(* ===== verification/EffectReplay.v ===== *)
(** * Replayed appends and the compensated overlay (packages/core/src/effects/fold.ts)

    An entry whose operation id the journal already holds changes nothing but its
    own classification, and [compensated] is derived from the machines. *)
From S2P Require Import Prelude Json JsMap Entries Disposition Resolution EffectTypes EffectFold.
From S2P Require Import EffectLaws EffectConsume EffectStable.

#[local] Open Scope N_scope.

(** ** Finalization and classification *)

Lemma finalize_machine_classify x f k s c :
  finalize_machine x (classify_lane f s c) k = classify_lane (finalize_machine x f k) s c.
Proof.
  unfold finalize_machine. cbn [classify_lane machinesByIntent].
  destruct (jm_get (machinesByIntent f) k) as [m|]; [|done]. destruct (m_consumed m); [|done].
  assert (close_after_intent x (classify_lane f s c) m = classify_lane (close_after_intent x f m) s c) as ->.
  { unfold close_after_intent. by destruct (closerAfterIntent x m). }
  unfold link_compensation. destruct (i_compensates _); [|done]. destruct (is_confirmed m); [|done].
  cbn [classify_lane machinesByIntent].
  destruct (jm_get _ _) as [o|]; [|done]. by destruct (is_confirmed o).
Qed.

Lemma finalize_classify x f s c : finalize x (classify_lane f s c) = classify_lane (finalize x f) s c.
Proof.
  unfold finalize. cbn [classify_lane machinesByIntent]. generalize (jm_order (machinesByIntent f)).
  intros l. revert f. induction l as [|k l IH]; intros f; [done|]. cbn [foldl].
  rewrite finalize_machine_classify. apply IH.
Qed.

(** ** Contexts that answer alike *)

Record context_same (pos : N) (x y : LaneContext) : Prop := {
  cs_verdict : ∀ f i, intent_verdict y f pos i = intent_verdict x f pos i;
  cs_closer : ∀ m, closerAfterIntent y m = closerAfterIntent x m;
}.

Lemma applyEntry_same x y f e :
  context_same (e_seq e) x y → applyEntry y f e = applyEntry x f e.
Proof.
  intros [Hv Hc]. unfold applyEntry. destruct (readEffectLaneDecision e) as [|op d|]; [done| |done].
  destruct (opIds f !! op); [done|]. destruct d; try done; cbn [applyDecision].
  - unfold applyIntent. by rewrite Hv.
  - unfold liveMachine. destruct (jm_get _ _) as [m|]; [|done]. destruct (m_consumed m); [|done].
    unfold applyAttempt. by rewrite Hc.
Qed.

Lemma finalize_same x y f : (∀ m, closerAfterIntent y m = closerAfterIntent x m) → finalize y f = finalize x f.
Proof.
  intros Hc. unfold finalize. generalize (jm_order (machinesByIntent f)). intros l. revert f.
  induction l as [|k l IH]; intros f; [done|]. cbn [foldl]. rewrite IH. f_equal.
  unfold finalize_machine, close_after_intent. destruct (jm_get _ k) as [m|]; [|done]. by rewrite Hc.
Qed.

(** A lane entry is neither a revocation nor an expiry. *)
Lemma lane_not_closing e op d :
  readEffectLaneDecision e = Lane op d → e_kind e = KDecision ∧
  readApprovalRevoked e = None ∧ readApprovalExpired e = None.
Proof.
  unfold readEffectLaneDecision, readApprovalRevoked, readApprovalExpired.
  destruct (decide (e_kind e = KDecision)) as [Hk|]; [|done].
  set (v := default [] (asRecord (e_value e))).
  destruct (find_first _ lane_readers) as [[name rd]|] eqn:Hf; [|done]. intros _.
  apply find_first_Some in Hf as [Hin Hn%is_str_spec]. split; [done|]. rewrite Hn.
  apply list_elem_of_In in Hin. cbn in Hin.
  repeat (destruct Hin as [[= <- <-]|Hin]; [done|]). done.
Qed.

(** The context of a journal with one lane entry more. *)
Lemma snoc_context validate es e r r0 op d a :
  journal_wf (es ++ [e]) → newResolutionFold validate es = Ok r0 →
  (∀ ref pos, (∀ b, b ∈ [e] → pos <= e_seq b) → allowed_before r ref pos = allowed_before r0 ref pos) →
  readEffectLaneDecision e = Lane op d → a ∈ es →
  context_same (e_seq a) (lane_context r0 es) (lane_context r (es ++ [e])).
Proof.
  intros Hwf Hr0 Hal He Ha. destruct (lane_not_closing _ _ _ He) as (Hk & Hrev & Hexp).
  pose proof (journal_wf_seqs _ Hwf) as (_ & _ & Hlt)%ordered_app.
  assert (e_seq a < e_seq e) as Hae by (apply Hlt; set_solver).
  assert (∀ r, lane_context r (es ++ [e]) = index_closers (lane_context r es) e) as Hsn.
  { intros r'. unfold lane_context. by rewrite foldl_app. }
  assert (∀ r, mkContext (lx_bySeq (lane_context r es)) (lx_revoked (lane_context r es))
     (lx_expired (lane_context r es)) r0 = lane_context r0 es) as Hcx.
  { intros r'. unfold lane_context. clear. induction es as [|b es IH] using rev_ind; [done|].
    rewrite !foldl_app. cbn. rewrite <- IH. done. }
  specialize (Hcx r). rewrite <- Hcx, Hsn. unfold index_closers. rewrite Hrev, Hexp. cbn [index_add].
  rewrite lane_context_resolutions. split; [|done]. intros f i. unfold intent_verdict. cbn.
  rewrite Hal by (intros b ->%list_elem_of_singleton; lia).
  destruct (latestEpochBefore f (e_seq a)) as [ep|]; [|done]. cbn.
  destruct (void_unless stale_epoch _); [|done]. cbn.
  rewrite lookup_insert. case_decide as Hd; [|done]. cbn. rewrite Hk. cbn.
  assert (lx_bySeq (lane_context r es) !! i_approvalRef i = None) as ->; [|done].
  destruct (_ !! _) eqn:E; [|done]. apply context_bySeq in E as [Hin Hs].
  specialize (Hlt _ e Hin ltac:(set_solver)). lia.
Qed.

Lemma classes_opId x es op s : opIds (lane_entries x es) !! op = Some s →
  ∀ e, opIds (lane_entries x (es ++ [e])) !! op = Some s.
Proof.
  intros Ho e. rewrite lane_entries_app. cbn. unfold applyEntry.
  destruct (readEffectLaneDecision e) as [|op' d|]; [done| |done].
  destruct (opIds _ !! op') eqn:E; [done|]. rewrite applyDecision_opIds. cbn.
  rewrite lookup_insert_ne; [done|]. congruence.
Qed.

Lemma opIds_first x es op : (∃ a d, a ∈ es ∧ readEffectLaneDecision a = Lane op d) →
  is_Some (opIds (lane_entries x es) !! op).
Proof.
  induction es as [|e es IH] using rev_ind; [intros (? & ? & ?%not_elem_of_nil & _); done|].
  intros (a & d & Ha & Hr). destruct (opIds (lane_entries x es) !! op) as [s|] eqn:E.
  { exists s. by apply classes_opId. }
  apply elem_of_app in Ha as [Ha| ->%list_elem_of_singleton].
  { destruct (IH ltac:(eauto)). congruence. }
  rewrite lane_entries_app. cbn. unfold applyEntry. rewrite Hr, E, applyDecision_opIds. cbn.
  rewrite lookup_insert_eq. eauto.
Qed.

(** A retried append is idempotent.  When the journal already holds an entry
    with the operation id of a new lane entry, the longer journal folds to the same
    fold: the new entry is classified as the replay of an earlier entry with that
    operation id, and nothing else changes. *)
Theorem retried_append_changes_nothing validate es e F op d :
  journal_wf (es ++ [e]) → newEffectLaneFold validate es = Ok F →
  readEffectLaneDecision e = Lane op d →
  (∃ a d', a ∈ es ∧ readEffectLaneDecision a = Lane op d') →
  ∃ first, newEffectLaneFold validate (es ++ [e]) = Ok (classify_lane F (e_seq e) (lane_replay first)) ∧
    ∃ a d', a ∈ es ∧ e_seq a = first ∧ readEffectLaneDecision a = Lane op d'.
Proof.
  intros Hwf HF He Hold. destruct (lane_not_closing _ _ _ He) as (Hk & _).
  pose proof (journal_wf_seqs _ Hwf) as (Hp & _ & Hlt)%ordered_app.
  apply bind_ok in HF as (r0 & Hr0 & [= <-]).
  assert (∃ r, newResolutionFold validate (es ++ [e]) = Ok r) as (r & Hr).
  { unfold newResolutionFold in *. pose proof (journal_wf_indexed _ Hwf) as Hix. rewrite foldl_app in Hix.
    rewrite foldl_app, fold_entries_app.
    pose proof (prefix_agrees validate _ (foldl preload empty_fold es) es [e] (fold_rel_refl _) Hix Hlt) as Hag.
    rewrite Hr0 in Hag. cbn [foldl] in *.
    destruct (fold_entries validate (preload (foldl preload empty_fold es) e) es) as [b|]; [|done].
    exists b. cbn. unfold fold_entry. by rewrite Hk. }
  destruct (allowed_stable validate es [e] r Hwf Hr) as (r1 & Hr1 & Hal). rewrite Hr0 in Hr1. injection Hr1 as <-.
  set (x := lane_context r0 es). set (y := lane_context r (es ++ [e])).
  assert (∀ a, a ∈ es → context_same (e_seq a) x y) as Hsame by (intros a Ha; by eapply snoc_context).
  assert (lane_entries y es = lane_entries x es) as Hen.
  { unfold lane_entries. generalize empty_lane. clear -Hsame. clearbody x y. induction es as [|a es IH]; intros f; [done|]. cbn.
    rewrite (applyEntry_same x y) by (apply Hsame; by left). apply IH. intros; apply Hsame; by right. }
  destruct (opIds_first x es op Hold) as [first Hf]. exists first. split; [|by eapply opIds_known].
  unfold newEffectLaneFold. rewrite Hr. cbn. fold y. rewrite lane_entries_app, Hen. cbn.
  unfold applyEntry. rewrite He, Hf, finalize_classify. f_equal. f_equal. apply finalize_same.
  destruct Hold as (a & _ & Ha & _). apply (cs_closer _ _ _ (Hsame a Ha)).
Qed.

(** ** The compensated overlay *)

(** The machine at [k] is a confirmed compensation of a confirmed one at [s]. *)
Definition links (f : EffectLaneFold) (k s : N) : bool :=
  match jm_get (machinesByIntent f) k, jm_get (machinesByIntent f) s with
  | Some c, Some m =>
      m_consumed c && is_confirmed c && bool_decide (i_compensates (m_decision c) = Some s)
      && is_confirmed m
  | _, _ => false
  end.

Lemma erase_confirmed m m' : erase m' = erase m → is_confirmed m' = is_confirmed m.
Proof. intros He%erase_fields. unfold is_confirmed. by destruct He as (_ & _ & _ & _ & _ & _ & _ & _ & ->). Qed.

Lemma links_finalized f f' k s : finalized f f' → links f' k s = links f k s.
Proof.
  intros Hf. unfold links. pose proof (fun m => finalized_get_inv f f' k m Hf) as Hk.
  pose proof (fun m => finalized_get_inv f f' s m Hf) as Hs.
  destruct (jm_get (machinesByIntent f) k) as [c|] eqn:Ec.
  - destruct (Hk c eq_refl) as (c' & -> & Hc).
    destruct (jm_get (machinesByIntent f) s) as [m|] eqn:Em.
    + destruct (Hs m eq_refl) as (m' & -> & Hm). rewrite (erase_confirmed _ _ Hc), (erase_confirmed _ _ Hm).
      apply erase_fields in Hc as (_ & _ & -> & -> & _). done.
    + destruct (jm_get (machinesByIntent f') s) eqn:Em'; [|done].
      destruct (finalized_get _ _ _ _ Hf Em') as (? & ? & _). congruence.
  - destruct (jm_get (machinesByIntent f') k) eqn:Ec'; [|done].
    destruct (finalized_get _ _ _ _ Hf Ec') as (? & ? & _). congruence.
Qed.

Definition overlay (f : EffectLaneFold) (s : N) : option (option N) :=
  m_compensatedBy <$> jm_get (machinesByIntent f) s.

Lemma overlay_set f m s :
  overlay (set_machine f m) s = if decide (m_intentSeq m = s) then Some (m_compensatedBy m) else overlay f s.
Proof. unfold overlay. cbn. rewrite jm_get_set. by case_decide. Qed.

(** One machine of the loop sets the overlay of what it compensates. *)
Lemma overlay_machine x f k s :
  keyed f →
  overlay (finalize_machine x f k) s = (fun o => if links f k s then Some k else o) <$> overlay f s.
Proof.
  intros Hk. unfold finalize_machine.
  assert (∀ o : option (option N), o = (fun o => o) <$> o) as Hid by (intros []; done).
  destruct (jm_get (machinesByIntent f) k) as [c|] eqn:Hc.
  2:{ unfold links. rewrite Hc. apply Hid. }
  destruct (m_consumed c) eqn:Hcon.
  2:{ unfold links. rewrite Hc, Hcon. cbn. destruct (jm_get (machinesByIntent f) s); apply Hid. }
  pose proof (close_finalized x f k c Hk Hc) as Hfin. set (g := close_after_intent x f c) in *.
  assert (∀ t, overlay g t = overlay f t) as Hg.
  { intros t. unfold g, close_after_intent. destruct (closerAfterIntent x c); [|done].
    rewrite overlay_set. cbn. rewrite (Hk _ _ Hc). case_decide; [|done]. subst. unfold overlay. by rewrite Hc. }
  rewrite <- (Hg s), <- (links_finalized f g k s Hfin).
  assert (∃ c', jm_get (machinesByIntent g) k = Some c' ∧ erase c' = erase c) as (c' & Hc' & He)
    by (by eapply finalized_get_inv).
  pose proof (finalized_keyed _ _ Hk Hfin) as Hkg. clearbody g. unfold links. rewrite Hc'.
  rewrite (erase_confirmed _ _ He). apply erase_fields in He as (_ & _ & -> & -> & _). rewrite Hcon. cbn.
  unfold link_compensation. rewrite (Hk _ _ Hc).
  destruct (i_compensates (m_decision c)) as [ref|]; [|destruct (is_confirmed c), (jm_get _ s); apply Hid].
  destruct (is_confirmed c); [|destruct (jm_get _ s); apply Hid]. cbn.
  destruct (jm_get (machinesByIntent g) ref) as [o|] eqn:Hr.
  - destruct (is_confirmed o) eqn:Ho.
    + rewrite overlay_set. cbn. rewrite (Hkg _ _ Hr). case_decide as Hd.
      * subst s. unfold overlay. rewrite Hr. cbn. by rewrite bool_decide_eq_true_2, Ho.
      * destruct (jm_get (machinesByIntent g) s); [|apply Hid].
        rewrite bool_decide_eq_false_2 by congruence. apply Hid.
    + destruct (jm_get (machinesByIntent g) s) as [m|] eqn:Hs; [|apply Hid].
      case_bool_decide; [|apply Hid]. simplify_eq. rewrite Ho. apply Hid.
  - destruct (jm_get (machinesByIntent g) s) as [m|] eqn:Hs; [|apply Hid].
    case_bool_decide; [|apply Hid]. simplify_eq.
Qed.

(** The whole loop: an overlay that was absent is there exactly when some machine
    of the loop links to it. *)
Lemma overlay_loop x f l s :
  keyed f → overlay f s = Some None →
  ∃ o, overlay (foldl (finalize_machine x) f l) s = Some o ∧
    (is_Some o ↔ ∃ k, k ∈ l ∧ links f k s = true) ∧ (∀ k, o = Some k → links f k s = true).
Proof.
  intros Hk Hs. induction l as [|k l (o & Ho & Hiff & Hlink)] using rev_ind.
  { exists None. split_and!; [done| |done]. split; [by intros []|by intros (? & ?%not_elem_of_nil & _)]. }
  rewrite foldl_app. cbn. pose proof (foldl_finalized x f l Hk) as Hfin.
  rewrite overlay_machine by (by eapply finalized_keyed). rewrite Ho, (links_finalized f) by done. cbn.
  eexists. split; [done|]. setoid_rewrite elem_of_app. setoid_rewrite list_elem_of_singleton.
  destruct (links f k s) eqn:E.
  - split; [|by intros k' [= <-]]. split; [|by eexists]. intros _. exists k. auto.
  - rewrite Hiff. split; [|done]. split.
    + intros (k' & ? & ?). eauto.
    + intros (k' & [Hin| ->] & Hl); [eauto|congruence].
Qed.

(** ** Before finalization nothing is added, and every machine is in the order *)

Definition pristine (f : EffectLaneFold) : Prop :=
  jm_wf (machinesByIntent f) ∧
  ∀ s m, jm_get (machinesByIntent f) s = Some m → m_compensatedBy m = None.

Lemma applyEntry_pristine x f e : pristine f → pristine (applyEntry x f e).
Proof.
  intros [Hwf Hc]. destruct (applyEntry_step x f e) as [Hm _ _|opId i _ _ ->|ref m m' Hg _ Hst Hm _ _].
  - unfold pristine. by rewrite Hm.
  - split.
    + rewrite applyIntent_machine. cbn zeta. auto with rulvar.
    + intros s m. rewrite applyIntent_get. case_decide; [|apply Hc]. intros [= <-]. by case_match.
  - split; rewrite Hm; [auto with rulvar|]. intros s m0. rewrite jm_get_set. case_decide; [|apply Hc].
    intros [= <-]. specialize (Hc _ _ Hg). by destruct Hst.
Qed.

Lemma lane_entries_pristine x es : pristine (lane_entries x es).
Proof.
  unfold lane_entries. assert (pristine empty_lane) as H.
  { split; [apply jm_wf_empty|]. intros s m. cbn. unfold jm_get. cbn. by rewrite lookup_empty. }
  revert H. generalize empty_lane. induction es as [|e es IH]; intros f Hf; [done|].
  by apply IH, applyEntry_pristine.
Qed.

(** When an effect counts as compensated.  The state a reader sees is the
    machine's own, but for one confirmed machine: it reads as compensated exactly
    when a consumed intent that names it as the one it compensates was confirmed. *)
Theorem compensated_overlay validate es F s m :
  ordered es → newEffectLaneFold validate es = Ok F → machineAt F s = Some m →
  (m_state m ≠ m_terminal_state confirmed → effectiveEffectState m = m_state m) ∧
  (is_confirmed m = true →
   effectiveEffectState m = m_terminal_state compensated ↔
   ∃ k c, machineAt F k = Some c ∧ m_consumed c = true ∧ is_confirmed c = true ∧
     i_compensates (m_decision c) = Some s).
Proof.
  intros Ho HF Hm. split.
  { intros Hne. unfold effectiveEffectState. destruct (m_state m) as [| | | |[]]; try done;
      by destruct (m_compensatedBy m). }
  intros Hcf. destruct (lane_fold_inv _ _ _ Ho HF) as (r & _ & HFx & Hinv & Hfin).
  assert (m_state m = m_terminal_state confirmed) as Hst.
  { unfold is_confirmed in Hcf. destruct (m_terminal m) as [t|] eqn:Ht; [|done].
    apply bool_decide_eq_true in Hcf. rewrite <- Hcf.
    apply (mk_terminal _ _ _ (li_machines _ _ _ _ Hinv _ _ Hm) t Ht). }
  set (f := lane_entries _ es) in *.
  pose proof (lane_entries_keyed (lane_context r es) es) as Hkf. fold f in Hkf.
  destruct (lane_entries_pristine (lane_context r es) es) as [Hwf Hnone]. fold f in Hwf, Hnone.
  destruct (finalized_get _ _ _ _ Hfin Hm) as (m0 & Hm0 & He).
  assert (overlay f s = Some None) as Hov by (unfold overlay; rewrite Hm0; cbn; f_equal; eauto).
  destruct (overlay_loop (lane_context r es) f (jm_order (machinesByIntent f)) s Hkf Hov) as (o & Hof & Hiff & _).
  change (foldl _ f _) with (finalize (lane_context r es) f) in Hof. rewrite <- HFx in Hof.
  unfold overlay in Hof. unfold machineAt in Hm. rewrite Hm in Hof. injection Hof as Hof.
  unfold effectiveEffectState. rewrite Hst, Hof.
  transitivity (is_Some o); [by destruct o; split; [eauto|done|done|intros []]|]. rewrite Hiff.
  setoid_rewrite <- (links_finalized f F _ s Hfin). unfold links, machineAt. rewrite Hm. split.
  - intros (k & _ & Hl). destruct (jm_get (machinesByIntent F) k) as [c|] eqn:Hc; [|done].
    apply andb_true_iff in Hl as [[[H1 H2]%andb_true_iff H3]%andb_true_iff _].
    apply bool_decide_eq_true in H3. eauto 6.
  - intros (k & c & Hc & H1 & H2 & H3). exists k. split.
    + apply Hwf. destruct (finalized_get _ _ _ _ Hfin Hc) as (c0 & Hc0 & _). by exists c0.
    + rewrite Hc, H1, H2, bool_decide_eq_true_2 by done. done.
Qed.

(** ** Witnesses *)

(** The receipt appended once more, by a writer that lost the acknowledgement. *)
Definition retried_receipt : JournalEntry :=
  lane_entry 14 "effect_receipt" "receipt-11" [("intentRef", num 10); ("verification", JStr "verified")].

Lemma retried_append_changes_nothing_witness :
  ∃ first, newEffectLaneFold any_schema (demo_effects ++ [retried_receipt]) =
      Ok (classify_lane (lane_of demo_effects) (e_seq retried_receipt) (lane_replay first)) ∧
    ∃ a d', a ∈ demo_effects ∧ e_seq a = first ∧ readEffectLaneDecision a = Lane "receipt-11" d'.
Proof.
  apply (retried_append_changes_nothing any_schema demo_effects retried_receipt (lane_of demo_effects)
           "receipt-11" (effect_receipt 10 (mkReceiptDecision verified None None None None None None))).
  - split; repeat constructor; done.
  - apply demo_effects_folds.
  - vm_compute. reflexivity.
  - exists (demo_receipt 11 10), (effect_receipt 10 (mkReceiptDecision verified (Some (JStr "t")) None None None None None)).
    split; [|vm_compute; reflexivity]. apply list_elem_of_In. vm_compute. tauto.
Defined.

Lemma compensated_overlay_witness :
  m_state (machine_of demo_effects 3) = m_terminal_state confirmed ∧
  (effectiveEffectState (machine_of demo_effects 3) = m_terminal_state compensated ↔
   ∃ k c, machineAt (lane_of demo_effects) k = Some c ∧ m_consumed c = true ∧ is_confirmed c = true ∧
     i_compensates (m_decision c) = Some 3).
Proof.
  split; [vm_compute; reflexivity|].
  apply (compensated_overlay any_schema demo_effects (lane_of demo_effects) 3);
    [apply demo_effects_wf|apply demo_effects_folds|vm_compute; reflexivity..].
Defined.
