(* ===== verification/EffectWriter.v ===== *)
(** * The effect lane writer (packages/core/src/effects/writer.ts)

    The append surface of the lane, as computations on a state: the store's
    journal, the writer's loaded view of it and its fold.  The store and the other
    holders of the lane are an oracle: one [Round] per append says what others
    appended before and after it, and whether the append was committed and
    acknowledged.  An append committed at a position that is taken would break the
    order of the journal, so the store's obligation is that it stays ordered. *)
From S2P Require Import Prelude Json JsMap Entries Disposition Resolution EffectTypes EffectFold.

(** ** The store and its answers *)

Inductive Thrown := LeaseHeldError | journal_order_violation | OtherError.

Inductive StoreReply := Acked | Threw (t : Thrown) (committed : bool).

Record Round := mkRound {
  rd_before : list JournalEntry;
  rd_reply : StoreReply;
  rd_after : list JournalEntry;
}.

Inductive LaneError :=
  | ConfigError
  | EffectLaneRefused (rule : string)
  | StoreThrew (t : Thrown)
  | FoldThrew (e : FoldError).

Record Writer := mkWriter {
  w_journal : list JournalEntry;
  w_entries : list JournalEntry;
  w_fold : EffectLaneFold;
  w_closed : bool;
  w_rounds : list Round;
}.

(** A computation of the writer; a thrown error keeps the state. *)
Definition M (A : Type) : Type := Writer → Writer * result LaneError A.

#[global] Instance M_ret : MRet M := fun A a w => (w, Ok a).
#[global] Instance M_bind : MBind M :=
  fun A B f m w => match m w with (w', Ok a) => f a w' | (w', Err e) => (w', Err e) end.

Definition throw {A} (e : LaneError) : M A := fun w => (w, Err e).
Definition refuse {A} (rule : string) : M A := throw (EffectLaneRefused rule).
Definition gets {A} (g : Writer → A) : M A := fun w => (w, Ok (g w)).
Definition unless (b : bool) (rule : string) : M unit := if b then mret tt else refuse rule.

Definition set_view (w : Writer) (entries : list JournalEntry) (f : EffectLaneFold) : Writer :=
  mkWriter (w_journal w) entries f (w_closed w) (w_rounds w).

(** One append at the store. *)
Definition committed (r : StoreReply) : bool :=
  match r with Acked => true | Threw _ c => c end.

Definition next_round (w : Writer) : Round :=
  match w_rounds w with [] => mkRound [] Acked [] | r :: _ => r end.

Definition store_append (w : Writer) (entry : JournalEntry) : Writer :=
  let r := next_round w in
  mkWriter
    (w_journal w ++ rd_before r ++ (if committed (rd_reply r) then [entry] else []) ++ rd_after r)
    (w_entries w) (w_fold w) (w_closed w) (tl (w_rounds w)).

(** ** What a caller asks for *)

Record EffectIntentSpec := mkIntentSpec {
  s_opId : string;
  s_logicalKey : string;
  s_approvalRef : N;
  s_effectClass : EffectClass;
  s_capabilityRow : EffectCapabilityRow;
  s_lookupQualification : option string;
  s_argumentsHash : string;
  s_artifactHash : option string;
  s_configFingerprint : option string;
  s_budgets : EffectBudgets;
  s_compensates : option N;
  s_successorOf : option N;
}.

Record EffectConsumeResult := mkConsumeResult {
  cr_intentSeq : N;
  cr_machine : EffectMachine;
  cr_replayed : bool;
}.

Record EffectAppendResult := mkAppendResult { ar_seq : N; ar_replayed : bool }.

Inductive AttemptResult :=
  | attempt_cancelled (terminalSeq : N)
  | attempt_opened (attemptSeq : N) (replayed : bool).

Definition APPEND_RETRIES : nat := 8.

(** ** Payloads *)

(** [String(n)] of an integer. *)
Definition dec_of_Z (n : Z) : string :=
  if (n <? 0)%Z then "-" +:+ dec_of_N (Z.abs_N n) else dec_of_N (Z.to_N n).

Definition seq_json (n : N) : json := JNum (Z.of_N n).

(** [...(v === undefined ? {} : { key: v })]. *)
Definition given {A} (key : string) (to : A → json) (v : option A) : record :=
  match v with None => [] | Some a => [(key, to a)] end.

Definition class_text (c : EffectClass) : string :=
  match c with monetary => "monetary" | signing => "signing" | case_ => "case" end.

Definition row_text (r : EffectCapabilityRow) : string :=
  match r with
  | row_idempotency_key => "idempotency-key" | row_lookup => "lookup" | row_neither => "neither"
  end.

Definition terminal_text (t : EffectTerminalState) : string :=
  match t with
  | confirmed => "confirmed" | quarantined => "quarantined"
  | cancelled_before_dispatch => "cancelled-before-dispatch"
  | compensated => "compensated" | refused => "refused"
  end.

Definition outcome_text (o : AttemptOutcome) : string :=
  match o with accepted => "accepted" | failed => "failed" | unknown => "unknown" end.

Definition verification_text (v : Verification) : string :=
  match v with verified => "verified" | unverified => "unverified" end.

Definition probe_text (p : ProbeKind) : string :=
  match p with probe_lookup => "lookup" | probe_close_acceptance => "close-acceptance" end.

Definition budgets_json (b : EffectBudgets) : json :=
  JObj (("attempts", JNum (b_attempts b)) :: ("lookups", JNum (b_lookups b))
        :: ("receiptWaitMs", b_receiptWaitMs b)
        :: given "authorizationWaitMs" (fun v => v) (b_authorizationWaitMs b)
        ++ [("reconcileBy", JStr (b_reconcileBy b))]).

Definition decision_payload (decisionType opId : string) (fields : record) : json :=
  JObj (("decisionType", JStr decisionType) :: ("opId", JStr opId) :: fields).

Definition intent_payload (spec : EffectIntentSpec) (epochRef : json) : json :=
  decision_payload "effect_intent" (s_opId spec)
    (("logicalKey", JStr (s_logicalKey spec)) :: ("approvalRef", seq_json (s_approvalRef spec))
     :: ("epochRef", epochRef) :: ("effectClass", JStr (class_text (s_effectClass spec)))
     :: ("capabilityRow", JStr (row_text (s_capabilityRow spec)))
     :: given "lookupQualification" JStr (s_lookupQualification spec)
     ++ ("argumentsHash", JStr (s_argumentsHash spec))
     :: given "artifactHash" JStr (s_artifactHash spec)
     ++ given "configFingerprint" JStr (s_configFingerprint spec)
     ++ ("budgets", budgets_json (s_budgets spec))
     :: given "compensates" seq_json (s_compensates spec)
     ++ given "successorOf" seq_json (s_successorOf spec)).

Definition terminal_payload (opId : string) (intentRef : option N) (terminal : EffectTerminalState)
    (logicalKey : option string) (reason : option string) (causalRef : option N) : json :=
  decision_payload "effect_terminal" opId
    (given "intentRef" seq_json intentRef ++ ("terminal", JStr (terminal_text terminal))
     :: given "logicalKey" JStr logicalKey ++ given "reason" JStr reason
     ++ given "causalRef" seq_json causalRef).

(** ** The view *)

(** [tail() + 1]: the next position; [tail] is -1 on an empty view. *)
Definition next_seq (entries : list JournalEntry) : N :=
  foldl (fun max e => N.max max (e_seq e + 1)) 0%N entries.

Definition has_opId (opId : string) (entry : JournalEntry) : bool :=
  bool_decide (e_kind entry = KDecision)
  && is_str (opt_prop (asRecord (e_value entry)) "opId") opId.

Definition findOpId (entries : list JournalEntry) (opId : string) : option N :=
  e_seq <$> find_first (has_opId opId) entries.

(** The constructor's check of the store: [singleProcess] admits any. *)
Definition accept_store (singleProcess leasable fencedWrites : bool) : result LaneError unit :=
  if singleProcess || (leasable && fencedWrites) then Ok tt else Err ConfigError.

Definition closeLane : M unit := fun w =>
  (mkWriter (w_journal w) (w_entries w) (w_fold w) true (w_rounds w), Ok tt).

Section Writer.
(** The schema validator, the clock, the store's restoration generation where it
    has one, this holder's name, and the text of an error. *)
Variable validate : json → json → bool * option string.
Variable now : string.
Variable restorationGeneration : option Z.
Variable owner : string.
Variable message : LaneError → string.

Definition template (seq : N) (opId : string) (value : json) : JournalEntry :=
  mkEntry CURRENT_HASH_VERSION seq None "effects" opId 0 KDecision StOk (Some value) None None None
    None None None None None None None None "effects" now None [].

Definition reload : M unit := fun w =>
  match newEffectLaneFold validate (w_journal w) with
  | Ok f => (set_view w (w_journal w) f, Ok tt)
  | Err e => (set_view w (w_journal w) (w_fold w), Err (FoldThrew e))
  end.

Definition assertRestorationCurrent : M unit := fun w =>
  match restorationGeneration, currentEpoch (w_fold w) with
  | Some store, Some epoch =>
      if (default 0 (ep_restorationGeneration epoch) =? store)%Z then (w, Ok tt)
      else refuse "restoration-generation-stale" w
  | _, _ => (w, Ok tt)
  end.

(** The [catch] of the append: what the loop does with the thrown error. *)
Inductive Caught := caught_return (r : EffectAppendResult) | caught_loop.

(** [thrown.code === "journal_order_violation"]: the store's, or the fold's own
    complaint about the order of the entries. *)
Definition is_contention (t : LaneError) : bool :=
  match t with
  | StoreThrew journal_order_violation => true
  | FoldThrew (OrderForward _) | FoldThrew (OrderMissing _ _) => true
  | _ => false
  end.

Definition after_throw (opId : string) (t : LaneError) : M Caught :=
  match t with
  | StoreThrew LeaseHeldError => throw t
  | _ =>
      _ ← reload;
      landed ← gets (fun w => findOpId (w_entries w) opId);
      match landed with
      | Some seq => mret (caught_return (mkAppendResult seq false))
      | None =>
          if is_contention t then mret caught_loop else throw t
      end
  end.

(** The [try]: an append at the tail, and the new view. *)
Definition try_append (opId : string) (payload : json) : M (LaneError + EffectAppendResult) :=
  fun w =>
    let entry := template (next_seq (w_entries w)) opId payload in
    let w' := store_append w entry in
    match rd_reply (next_round w) with
    | Threw t _ => (w', Ok (inl (StoreThrew t)))
    | Acked =>
        let entries := w_entries w ++ [entry] in
        match newEffectLaneFold validate entries with
        | Ok f => (set_view w' entries f, Ok (inr (mkAppendResult (e_seq entry) false)))
        | Err e => (set_view w' entries (w_fold w'), Ok (inl (FoldThrew e)))
        end
    end.

(** [laneAppend].  [verdict] evaluates the caller's precondition on the view; it
    throws to refuse and returns the payload to append. *)
Fixpoint lane_append_loop (attempts : nat) (opId : string) (verdict : M json)
    : M EffectAppendResult :=
  match attempts with
  | O => refuse "append-contention"
  | S attempts =>
      existing ← gets (fun w => findOpId (w_entries w) opId);
      match existing with
      | Some seq => mret (mkAppendResult seq true)
      | None =>
          payload ← verdict;
          tried ← try_append opId payload;
          match tried with
          | inr r => mret r
          | inl t =>
              caught ← after_throw opId t;
              match caught with
              | caught_return r => mret r
              | caught_loop => lane_append_loop attempts opId verdict
              end
          end
      end
  end.

Definition laneAppend (opId : string) (verdict : M json) : M EffectAppendResult :=
  closed ← gets w_closed;
  if closed : bool then throw ConfigError else lane_append_loop APPEND_RETRIES opId verdict.

Definition append_payload (opId : string) (payload : json) : M EffectAppendResult :=
  laneAppend opId (mret payload).

Definition requireMachine (intentSeq : N) : M EffectMachine :=
  f ← gets w_fold;
  match machineAt f intentSeq with
  | Some m => if m_consumed m then mret m else refuse "no-such-intent"
  | None => refuse "no-such-intent"
  end.

(** ** Epochs *)

Definition ensureEpoch (generation : string) : M EffectAppendResult :=
  _ ← reload;
  f ← gets w_fold;
  let opId := "effect-epoch:" +:+ generation +:+ ":"
              +:+ dec_of_Z (default 0%Z restorationGeneration) in
  let fresh :=
    append_payload opId
      (decision_payload "effect_epoch" opId
         (("generation", JStr generation) :: given "restorationGeneration" JNum restorationGeneration)) in
  match currentEpoch f with
  | Some epoch =>
      if bool_decide (ep_generation epoch = generation)
         && (default 0 (ep_restorationGeneration epoch) =? default 0 restorationGeneration)%Z
      then mret (mkAppendResult (ep_seq epoch) true)
      else fresh
  | None => fresh
  end.

(** ** Consumption *)

Definition allowValueOf (entries : list JournalEntry) (approvalRef : N) : option json :=
  e ← find_first (fun e => bool_decide (e_kind e = KResolution)
                           && match e_resolution e with
                              | Some r => (r_target r =? approvalRef)%N
                              | None => false
                              end) entries;
  r_value <$> e_resolution e.

(** The materialized expiry: appended once, and the intent is refused. *)
Definition materialize_expiry (spec : EffectIntentSpec) (expiresAt : string) : M unit :=
  known ← gets (fun w => existsb (fun e => bool_decide (readApprovalExpired e = Some (s_approvalRef spec)))
                           (w_entries w));
  _ ← (if known : bool then mret tt
       else
         let opId := "approval-expired:" +:+ dec_of_N (s_approvalRef spec) in
         _ ← append_payload opId
               (decision_payload "approval_expired" opId
                  [("targetRef", seq_json (s_approvalRef spec)); ("expiresAt", JStr expiresAt);
                   ("observer", JStr owner)]);
         mret tt);
  refuse "approval-expired".

Definition intakeApproval (spec : EffectIntentSpec) : M unit :=
  entries ← gets w_entries;
  match find_first (fun e => (e_seq e =? s_approvalRef spec)%N) entries with
  | None => refuse "no-such-approval"
  | Some approval =>
      _ ← unless (bool_decide (e_kind approval = KApproval)) "no-such-approval";
      _ ← unless (bool_decide (is_Some (e_deadlineAt approval))) "approval-deadline-required";
      _ ← unless (bool_decide (approvalLicensedKey approval = Some (s_logicalKey spec)))
            "approval-key-mismatch";
      let value := asRecord (allowValueOf entries (s_approvalRef spec)) in
      match as_string (opt_prop value "expiresAt") with
      | Some expiresAt =>
          if String.ltb expiresAt now then materialize_expiry spec expiresAt else mret tt
      | None => mret tt
      end
  end.

(** The verdict of an intent: the fold of the view with the candidate. *)
Definition intent_candidate (spec : EffectIntentSpec) : M json := fun w =>
  match currentEpoch (w_fold w) with
  | None => refuse "verdict-refused" w
  | Some epoch =>
      let payload := intent_payload spec (seq_json (ep_seq epoch)) in
      let seq := next_seq (w_entries w) in
      match newEffectLaneFold validate (w_entries w ++ [template seq (s_opId spec) payload]) with
      | Err e => (w, Err (FoldThrew e))
      | Ok folded =>
          match laneClasses folded !! seq with
          | Some lane_applied => (w, Ok payload)
          | _ => refuse "verdict-refused" w
          end
      end
  end.

Definition landed_machine (landed : EffectAppendResult) : M EffectConsumeResult :=
  f ← gets w_fold;
  match machineAt f (ar_seq landed) with
  | Some m =>
      if m_consumed m then mret (mkConsumeResult (ar_seq landed) m (ar_replayed landed))
      else refuse "intent-folded-void"
  | None => refuse "intent-folded-void"
  end.

(** The durable refusal of a give-up, then the error again. *)
Definition refuse_durably {A} (spec : EffectIntentSpec) (e : LaneError) : M A :=
  match e with
  | EffectLaneRefused rule =>
      if bool_decide (rule = "append-contention") || bool_decide (rule = "verdict-refused") then
        let opId := "effect-refused:" +:+ s_opId spec in
        _ ← append_payload opId
              (terminal_payload opId None refused (Some (s_logicalKey spec)) (Some (message e)) None);
        throw e
      else throw e
  | _ => throw e
  end.

Definition catching {A} (m : M A) (handler : LaneError → M A) : M A := fun w =>
  match m w with (w', Err e) => handler e w' | ok => ok end.

Definition consumeApprovalAndRecordIntent (spec : EffectIntentSpec) : M EffectConsumeResult :=
  _ ← reload;
  _ ← assertRestorationCurrent;
  w ← gets (fun w => w);
  match findOpId (w_entries w) (s_opId spec) with
  | Some existing =>
      match machineAt (w_fold w) existing with
      | Some m => mret (mkConsumeResult existing m true)
      | None => refuse "operation-id-collision"
      end
  | None =>
      _ ← intakeApproval spec;
      catching
        (landed ← laneAppend (s_opId spec) (intent_candidate spec); landed_machine landed)
        (refuse_durably spec)
  end.

(** ** Attempts, outcomes, receipts, terminals *)

Record AttemptSpec := mkAttemptSpec {
  sp_opId : string;
  sp_notAfter : string;
  sp_idempotencyKey : option string;
  sp_transport : option string;
}.

Definition reconciliation_pending (f : EffectLaneFold) : bool :=
  match currentEpoch f with
  | Some epoch => ep_needsReconciliation epoch && negb (ep_reconciled epoch)
  | None => false
  end.

Definition closer_text (k : CloserKind) : string :=
  match k with revoked => "revoked" | expired => "expired" end.

Definition cancel_reason (c : PostIntentCloser) : string :=
  "the approval was " +:+ closer_text (c_kind c) +:+ " at seq " +:+ dec_of_N (c_seq c)
  +:+ " with zero attempt records; the journal proves no conforming send ever happened".

Definition openAttempt (intentSeq : N) (spec : AttemptSpec) : M AttemptResult :=
  _ ← reload;
  _ ← assertRestorationCurrent;
  w ← gets (fun w => w);
  _ ← unless (negb (reconciliation_pending (w_fold w))) "reconciliation-pending";
  m ← requireMachine intentSeq;
  match findOpId (w_entries w) (sp_opId spec) with
  | Some existing => mret (attempt_opened existing true)
  | None =>
      _ ← unless (bool_decide (m_terminal m = None)) "machine-closed";
      match m_postIntentCloser m with
      | Some c =>
          if bool_decide (m_attempts m = []) then
            let opId := "effect-cancel:" +:+ dec_of_N intentSeq +:+ ":" +:+ dec_of_N (c_seq c) in
            landed ← append_payload opId
              (terminal_payload opId (Some intentSeq) cancelled_before_dispatch None
                 (Some (cancel_reason c)) (Some (c_seq c)));
            mret (attempt_cancelled (ar_seq landed))
          else refuse "reconcile-only"
      | None =>
          let used := Z.of_nat (length (m_attempts m)) in
          _ ← unless (used <? b_attempts (i_budgets (m_decision m)))%Z "attempts-exhausted";
          landed ← append_payload (sp_opId spec)
            (decision_payload "effect_attempt" (sp_opId spec)
               (("intentRef", seq_json intentSeq) :: ("ordinal", JNum (used + 1))
                :: ("notAfter", JStr (sp_notAfter spec))
                :: given "idempotencyKey" JStr (sp_idempotencyKey spec)
                ++ given "transport" JStr (sp_transport spec)));
          mret (attempt_opened (ar_seq landed) (ar_replayed landed))
      end
  end.

(** The appends that only ask for the machine. *)
Definition append_to_machine (intentSeq : N) (decisionType opId : string) (fields : record)
    : M EffectAppendResult :=
  _ ← reload;
  _ ← requireMachine intentSeq;
  append_payload opId (decision_payload decisionType opId (("intentRef", seq_json intentSeq) :: fields)).

Definition appendOutcome (intentSeq attemptSeq : N) (opId : string) (outcome : AttemptOutcome)
    (detail : option string) : M EffectAppendResult :=
  append_to_machine intentSeq "effect_outcome" opId
    (("attemptRef", seq_json attemptSeq) :: ("outcome", JStr (outcome_text outcome))
     :: given "detail" JStr detail).

(** [rest] holds the optional members of the receipt. *)
Definition appendReceipt (intentSeq : N) (opId : string) (verification : Verification) (rest : record)
    : M EffectAppendResult :=
  append_to_machine intentSeq "effect_receipt" opId
    (("verification", JStr (verification_text verification)) :: rest).

Definition appendIncident (intentSeq : N) (opId incident : string) (causalRef : option N)
    (detail : option string) : M EffectAppendResult :=
  append_to_machine intentSeq "effect_incident" opId
    (("incident", JStr incident) :: given "causalRef" seq_json causalRef ++ given "detail" JStr detail).

Definition appendDisposition (intentSeq : N) (opId principal reason disposition : string)
    (causalRef : option N) : M EffectAppendResult :=
  append_to_machine intentSeq "effect_disposition" opId
    (("principal", JStr principal) :: ("reason", JStr reason) :: ("disposition", JStr disposition)
     :: given "causalRef" seq_json causalRef).

Definition appendTerminal (intentSeq : N) (opId : string) (terminal : EffectTerminalState)
    (reason : option string) (causalRef : option N) : M EffectAppendResult :=
  _ ← reload;
  _ ← requireMachine intentSeq;
  landed ← append_payload opId (terminal_payload opId (Some intentSeq) terminal None reason causalRef);
  f ← gets w_fold;
  match laneClasses f !! ar_seq landed with
  | Some (lane_invalid _) => refuse "terminal-invalid"
  | _ => mret landed
  end.

Definition appendStandalone (terminal : EffectTerminalState) (opId logicalKey reason : string)
    : M EffectAppendResult :=
  _ ← reload;
  append_payload opId (terminal_payload opId None terminal (Some logicalKey) (Some reason) None).

Definition appendStandaloneRefusal : string → string → string → M EffectAppendResult :=
  appendStandalone refused.
Definition appendStandaloneQuarantine : string → string → string → M EffectAppendResult :=
  appendStandalone quarantined.

Definition appendProbe (intentSeq : N) (given_opId : option string) (probe : ProbeKind) (found : bool)
    (acceptanceClosed : option bool) : M EffectAppendResult :=
  _ ← reload;
  m ← requireMachine intentSeq;
  let used := Z.of_nat (length (m_probes m)) in
  _ ← unless (used <? b_lookups (i_budgets (m_decision m)))%Z "lookups-exhausted";
  let opId := default ("probe:" +:+ dec_of_N intentSeq +:+ ":"
                       +:+ dec_of_N (N.of_nat (length (m_probes m) + 1))) given_opId in
  append_payload opId
    (decision_payload "effect_probe" opId
       (("intentRef", seq_json intentSeq) :: ("probe", JStr (probe_text probe))
        :: ("found", JBool found) :: given "acceptanceClosed" JBool acceptanceClosed)).

Definition appendReconciliationComplete (opId : string) (epochRef : N) (swept : Z)
    : M EffectAppendResult :=
  _ ← reload;
  append_payload opId
    (decision_payload "effect_reconciliation_complete" opId
       [("epochRef", seq_json epochRef); ("swept", JNum swept)]).
End Writer.
