(* ===== verification/EffectAppend.v ===== *)
(** * The laws of the lane writer (packages/core/src/effects/writer.ts)

    Appending under lost acknowledgements and contention: an operation id lands at
    most once, and what the writer decided on its view holds in every journal the
    store can grow into. *)
From S2P Require Import Prelude Json JsMap Entries Disposition Resolution EffectTypes EffectFold.
From S2P Require Import EffectLaws EffectConsume EffectStable EffectWriter.

#[local] Open Scope N_scope.

(** ** Positions *)

Lemma next_seq_snoc es e : next_seq (es ++ [e]) = N.max (next_seq es) (e_seq e + 1).
Proof. unfold next_seq. by rewrite foldl_app. Qed.

Lemma next_seq_bound es a : a ∈ es → e_seq a < next_seq es.
Proof.
  induction es as [|e es IH] using rev_ind; [by intros ?%not_elem_of_nil|].
  rewrite next_seq_snoc. intros [Ha%IH| ->%list_elem_of_singleton]%elem_of_app; lia.
Qed.

Lemma next_seq_end es : ordered es → next_seq es = end_of es.
Proof.
  induction es as [|e es _] using rev_ind; [done|]. intros Ho. rewrite next_seq_snoc, end_of_snoc.
  assert (next_seq es <= e_seq e); [|lia]. apply ordered_app in Ho as (_ & _ & Hlt).
  assert (∀ a, a ∈ es → e_seq a < e_seq e) as Hb by (intros a Ha; apply Hlt; set_solver).
  clear Hlt. induction es as [|b es IH] using rev_ind; [cbn; lia|]. rewrite next_seq_snoc.
  pose proof (Hb b ltac:(set_solver)). specialize (IH ltac:(set_solver)). lia.
Qed.

(** In an ordered journal nothing fits between a view and its next position. *)
Lemma tail_is_free es before e rest :
  ordered (es ++ before ++ e :: rest) → e_seq e = next_seq es → before = [].
Proof.
  intros Ho He. destruct before as [|b before]; [done|exfalso].
  pose proof (ordered_app _ _ Ho) as (Hp & Hq & Hlt).
  assert (e_seq b < e_seq e) as Hbe.
  { cbn in Hq. apply StronglySorted_inv in Hq as [_ Hall]. rewrite Forall_forall in Hall. apply Hall. set_solver. }
  rewrite He, next_seq_end in Hbe by done. cbn in Ho. apply end_of_next in Ho. lia.
Qed.

Definition count_op (opId : string) (es : list JournalEntry) : nat :=
  length (List.filter (has_opId opId) es).

Lemma count_app opId a b : count_op opId (a ++ b) = (count_op opId a + count_op opId b)%nat.
Proof. unfold count_op. by rewrite List.filter_app, length_app. Qed.

Lemma count_none opId es : (∀ e, e ∈ es → has_opId opId e = false) → count_op opId es = 0%nat.
Proof.
  unfold count_op. induction es as [|e es IH]; intros He; [done|]. cbn.
  rewrite (He e) by (by left). apply IH. intros; apply He; by right.
Qed.

Lemma count_one opId e : (count_op opId [e] <= 1)%nat.
Proof. unfold count_op. cbn. destruct (has_opId opId e); cbn; lia. Qed.

Lemma findOpId_none es opId : findOpId es opId = None → count_op opId es = 0%nat.
Proof.
  unfold findOpId. destruct (find_first _ es) eqn:E; [done|]. intros _.
  apply count_none. by apply find_first_None.
Qed.

Lemma findOpId_some es opId s :
  findOpId es opId = Some s → ∃ e, e ∈ es ∧ has_opId opId e = true ∧ e_seq e = s.
Proof.
  unfold findOpId. destruct (find_first _ es) as [e|] eqn:E; [|done]. intros [= <-].
  apply find_first_Some in E as []. eauto.
Qed.

Section Laws.
Variables (validate : json → json → bool * option string) (now : string).
Implicit Types (w : Writer) (m : EffectMachine).

(** The writer has just loaded the journal. *)
Definition synced w : Prop :=
  w_entries w = w_journal w ∧ newEffectLaneFold validate (w_entries w) = Ok (w_fold w).

(** The writer's view is a prefix of the journal, and folded. *)
Definition view_ok w : Prop :=
  w_entries w `prefix_of` w_journal w ∧ newEffectLaneFold validate (w_entries w) = Ok (w_fold w).

Lemma synced_view w : synced w → view_ok w.
Proof. intros [He Hf]. split; [by rewrite He|done]. Qed.

(** The other holders never append under [opId]. *)
Definition foreign (opId : string) w : Prop :=
  ∀ r, r ∈ w_rounds w → ∀ e, e ∈ rd_before r ++ rd_after r → has_opId opId e = false.

Lemma foreign_round opId w e :
  foreign opId w → e ∈ rd_before (next_round w) ++ rd_after (next_round w) → has_opId opId e = false.
Proof.
  intros Hf. unfold next_round. destruct (w_rounds w) as [|r l] eqn:E.
  - cbn. by intros ?%not_elem_of_nil.
  - apply Hf. rewrite E. by left.
Qed.

Lemma foreign_append opId w entry : foreign opId w → foreign opId (store_append w entry).
Proof.
  intros Hf r Hr. apply Hf. cbn in Hr. destruct (w_rounds w); [done|]. by right.
Qed.

Lemma store_append_count opId w entry :
  foreign opId w →
  count_op opId (w_journal (store_append w entry)) =
    (count_op opId (w_journal w) + (if committed (rd_reply (next_round w)) then count_op opId [entry] else 0))%nat.
Proof.
  intros Hf. unfold store_append. cbn [w_journal]. rewrite !count_app, (count_none opId (rd_before _)), (count_none opId (rd_after _)).
  - destruct (committed _); cbn [count_op List.filter length]; lia.
  - intros e He. eapply foreign_round; [done|]. set_solver.
  - intros e He. eapply foreign_round; [done|]. set_solver.
Qed.

Lemma reload_spec w w' r :
  reload validate w = (w', r) →
  w_journal w' = w_journal w ∧ w_rounds w' = w_rounds w ∧ w_closed w' = w_closed w ∧
  w_entries w' = w_journal w' ∧ (r = Ok tt → synced w') ∧ (∀ a, r = Ok a → synced w').
Proof.
  unfold reload. destruct (newEffectLaneFold _ _) eqn:E; intros [= <- <-]; split_and!; done.
Qed.

(** A verdict looks and does not write; what it returns carries the operation id. *)
Record verdict_ok (opId : string) (verdict : M json) : Prop := {
  vd_pure : ∀ w, (verdict w).1 = w;
  vd_opId : ∀ w payload, (verdict w).2 = Ok payload →
    is_str (opt_prop (asRecord (Some payload)) "opId") opId = true;
}.

Lemma template_opId seq opId payload :
  is_str (opt_prop (asRecord (Some payload)) "opId") opId = true →
  has_opId opId (template now seq opId payload) = true.
Proof. intros H. unfold has_opId. cbn [template e_kind e_value]. rewrite bool_decide_eq_true_2 by done. exact H. Qed.

(** What an append leaves. *)
Record lands (opId : string) w w' (r : result LaneError EffectAppendResult) : Prop := {
  ld_grows : w_journal w `prefix_of` w_journal w';
  ld_once : (count_op opId (w_journal w') <= Nat.max 1 (count_op opId (w_journal w)))%nat;
  ld_result : ∀ a, r = Ok a → view_ok w' ∧
    ∃ e, e ∈ w_entries w' ∧ has_opId opId e = true ∧ e_seq e = ar_seq a;
}.

Lemma store_append_grows w entry : w_journal w `prefix_of` w_journal (store_append w entry).
Proof. unfold store_append. cbn [w_journal]. by apply prefix_app_r. Qed.

(** The [try]: acknowledged, the view is the old one with the entry. *)
Lemma try_append_spec opId payload w w' t :
  synced w → foreign opId w →
  is_str (opt_prop (asRecord (Some payload)) "opId") opId = true →
  findOpId (w_entries w) opId = None →
  try_append validate now opId payload w = (w', Ok t) → journal_wf (w_journal w') →
  w_journal w `prefix_of` w_journal w' ∧ foreign opId w' ∧
  (count_op opId (w_journal w') <= 1)%nat ∧
  (∀ a, t = inr a → view_ok w' ∧ ∃ e, e ∈ w_entries w' ∧ has_opId opId e = true ∧ e_seq e = ar_seq a).
Proof.
  intros [Hs Hfold] Hf Hop Hnone Htry Hwf. unfold try_append in Htry.
  set (entry := template now (next_seq (w_entries w)) opId payload) in *.
  assert (count_op opId (w_journal w) = 0%nat) as H0 by (rewrite <- Hs; by apply findOpId_none).
  assert (w_journal w' = w_journal (store_append w entry) ∧ w_rounds w' = w_rounds (store_append w entry))
    as [Hj Hr] by (by repeat case_match; simplify_eq).
  rewrite Hj. split_and!.
  - apply store_append_grows.
  - intros r Hin. rewrite Hr in Hin. by apply (foreign_append opId w entry Hf).
  - rewrite store_append_count, H0 by done. pose proof (count_one opId entry).
    destruct (committed _); lia.
  - intros a ->. destruct (rd_reply (next_round w)) as [|th c] eqn:Hrep; [|done].
    destruct (newEffectLaneFold validate (w_entries w ++ [entry])) as [f|] eqn:Hnew; [|done].
    injection Htry as <- <-. cbn [set_view w_entries w_journal w_fold ar_seq]. split.
    + split; [|exact Hnew]. rewrite Hj in Hwf. unfold store_append in Hwf |- *. cbn [w_journal] in *.
      rewrite Hrep in *. cbn [committed] in *.
      pose proof (journal_wf_seqs _ Hwf) as Ho. apply tail_is_free in Ho; [|by rewrite <- Hs].
      rewrite Ho, Hs. cbn [app]. exists (rd_after (next_round w)).
      cbn [set_view store_append w_journal w_entries app]. rewrite <- app_assoc. done.
    + exists entry. split_and!; [set_solver|by apply template_opId|done].
Qed.

Lemma after_throw_spec opId t w w' r :
  after_throw validate opId t w = (w', r) →
  w_journal w' = w_journal w ∧ w_rounds w' = w_rounds w ∧
  match r with
  | Ok (caught_return a) => synced w' ∧ ∃ e, e ∈ w_entries w' ∧ has_opId opId e = true ∧ e_seq e = ar_seq a
  | Ok caught_loop => synced w' ∧ findOpId (w_entries w') opId = None
  | Err _ => True
  end.
Proof.
  assert (∀ (g : M Caught) , (reload validate ≫= (fun _ => gets (fun w => findOpId (w_entries w) opId) ≫=
     (fun landed => match landed with Some seq => mret (caught_return (mkAppendResult seq false))
                    | None => if is_contention t then mret caught_loop else throw t end))) w = (w', r) →
    w_journal w' = w_journal w ∧ w_rounds w' = w_rounds w ∧
    match r with
    | Ok (caught_return a) => synced w' ∧ ∃ e, e ∈ w_entries w' ∧ has_opId opId e = true ∧ e_seq e = ar_seq a
    | Ok caught_loop => synced w' ∧ findOpId (w_entries w') opId = None
    | Err _ => True
    end) as Hgen.
  { intros _. unfold mbind, M_bind. destruct (reload validate w) as [w1 r1] eqn:Hr.
    destruct (reload_spec _ _ _ Hr) as (Hj & Hro & _ & _ & _ & Hsync).
    destruct r1 as [u|]; [|by intros [= <- <-]]. specialize (Hsync u eq_refl). unfold gets.
    destruct (findOpId (w_entries w1) opId) as [s|] eqn:Hfind.
    - intros [= <- <-]. split_and!; try done. by apply findOpId_some in Hfind.
    - destruct (is_contention t); intros [= <- <-]; done. }
  specialize (Hgen (mret caught_loop)). unfold after_throw. destruct t as [| |[]|]; try exact Hgen.
  by intros [= <- <-].
Qed.

Lemma journal_wf_prefix (a b : list JournalEntry) : a `prefix_of` b → journal_wf b → journal_wf a.
Proof.
  intros [k ->] [Hs Hr]. apply ordered_app in Hs as (Hs & _). apply Forall_app in Hr as [Hr _]. by split.
Qed.

Lemma try_append_grows opId payload w w' t :
  try_append validate now opId payload w = (w', t) → w_journal w `prefix_of` w_journal w'.
Proof.
  unfold try_append. set (entry := template now _ _ _).
  intros Ht. assert (w_journal w' = w_journal (store_append w entry)) as ->
    by (by repeat case_match; simplify_eq). apply store_append_grows.
Qed.

Lemma lane_loop_grows n opId verdict w w' r :
  verdict_ok opId verdict →
  lane_append_loop validate now n opId verdict w = (w', r) → w_journal w `prefix_of` w_journal w'.
Proof.
  intros Hv. revert w. induction n as [|n IH]; intros w; cbn; [by intros [= <- _]|].
  unfold mbind, M_bind, gets. destruct (findOpId (w_entries w) opId); [by intros [= <- _]|].
  pose proof (vd_pure _ _ Hv w) as Hp. destruct (verdict w) as [w0 [payload|er]]; cbn in Hp; subst w0;
    [|by intros [= <- _]].
  destruct (try_append validate now opId payload w) as [w1 t] eqn:Htry. apply try_append_grows in Htry.
  destruct t as [[t|a]|]; [|by intros [= <- _]..].
  destruct (after_throw validate opId t w1) as [w2 r2] eqn:Hth.
  destruct (after_throw_spec _ _ _ _ _ Hth) as (Hj & _ & _). rewrite <- Hj in Htry.
  destruct r2 as [[a|]|]; [by intros [= <- _]| |by intros [= <- _]].
  intros Hl%IH. by etrans.
Qed.

Lemma lane_loop_lands n opId verdict w w' r :
  verdict_ok opId verdict → synced w → foreign opId w → (count_op opId (w_journal w) <= 1)%nat →
  lane_append_loop validate now n opId verdict w = (w', r) → journal_wf (w_journal w') →
  lands opId w w' r.
Proof.
  intros Hv. revert w. induction n as [|n IH]; intros w Hs Hf Hcount; cbn.
  { intros [= <- <-] _. split; [done|lia|done]. }
  unfold mbind, M_bind, gets. destruct (findOpId (w_entries w) opId) as [s|] eqn:Hfind.
  { intros [= <- <-] _. split; [done|lia|]. intros a [= <-]. split; [by apply synced_view|].
    by apply findOpId_some in Hfind. }
  destruct (verdict w) as [w0 [payload|er]] eqn:Hvd.
  2:{ intros [= <- <-] _. pose proof (vd_pure _ _ Hv w) as Hp. rewrite Hvd in Hp. cbn in Hp. subst.
      split; [done|lia|done]. }
  pose proof (vd_pure _ _ Hv w) as Hp. rewrite Hvd in Hp. cbn in Hp. subst w0.
  pose proof (vd_opId _ _ Hv w payload) as Hop. rewrite Hvd in Hop. specialize (Hop eq_refl).
  destruct (try_append validate now opId payload w) as [w1 [t|er]] eqn:Htry.
  2:{ exfalso. revert Htry. unfold try_append. by repeat case_match. }
  pose proof (try_append_spec opId payload w w1 t Hs Hf Hop Hfind Htry) as Hspec.
  destruct t as [t|a].
  - destruct (after_throw validate opId t w1) as [w2 r2] eqn:Hth.
    destruct (after_throw_spec _ _ _ _ _ Hth) as (Hj & Hro & Hr2). intros Hrest Hwf.
    assert (w_journal w2 `prefix_of` w_journal w') as Hpre.
    { destruct r2 as [[a|]|]; cbn in Hrest; [by injection Hrest as -> _| |by injection Hrest as -> _].
      by eapply lane_loop_grows. }
    assert (journal_wf (w_journal w1)) as Hwf1.
    { rewrite <- Hj. eapply journal_wf_prefix; done. }
    destruct (Hspec Hwf1) as (Hg & Hf1 & Hc & _).
    destruct r2 as [[a|]|er]; cbn in Hrest.
    + injection Hrest as <- <-. destruct Hr2 as [Hsy He]. split; rewrite ?Hj; [done|lia|].
      intros a' [= <-]. split; [by apply synced_view|done].
    + destruct Hr2 as [Hsy Hn]. assert (lands opId w2 w' r) as [Hg2 Ho2 Hr3].
      { apply IH; [done| |by rewrite Hj|done|done]. intros q Hq. rewrite Hro in Hq. by apply Hf1. }
      split; [etrans; [exact Hg|]; by rewrite <- Hj| |done]. rewrite Hj in Ho2. lia.
    + injection Hrest as <- <-. split; rewrite ?Hj; [done|lia|done].
  - intros [= <- <-] Hwf. destruct (Hspec Hwf) as (Hg & _ & Hc & Hr). split; [done|lia|].
    intros a' [= <-]. by apply Hr.
Qed.

Lemma payload_opId decisionType opId fields :
  is_str (opt_prop (asRecord (Some (decision_payload decisionType opId fields))) "opId") opId = true.
Proof. apply is_str_spec. reflexivity. Qed.

Lemma fixed_verdict_ok decisionType opId fields :
  verdict_ok opId (mret (decision_payload decisionType opId fields)).
Proof. split; [done|]. intros w payload [= <-]. apply payload_opId. Qed.

Lemma intent_verdict_ok spec : verdict_ok (s_opId spec) (intent_candidate validate now spec).
Proof.
  split.
  - intros w. unfold intent_candidate. by repeat case_match.
  - intros w payload. unfold intent_candidate. repeat case_match; try done. intros [= <-]. apply payload_opId.
Qed.

Lemma laneAppend_lands opId verdict w w' r :
  verdict_ok opId verdict → synced w → foreign opId w → (count_op opId (w_journal w) <= 1)%nat →
  laneAppend validate now opId verdict w = (w', r) → journal_wf (w_journal w') → lands opId w w' r.
Proof.
  intros Hv Hs Hf Hc. unfold laneAppend, mbind, M_bind, gets. destruct (w_closed w).
  - intros [= <- <-] _. split; [done|lia|done].
  - by apply lane_loop_lands.
Qed.

Lemma has_count opId es e : e ∈ es → has_opId opId e = true → (1 <= count_op opId es)%nat.
Proof.
  intros (a & b & ->)%list_elem_of_split He. rewrite count_app. unfold count_op at 2. cbn. rewrite He. cbn. lia.
Qed.

Lemma view_in_journal w e : view_ok w → e ∈ w_entries w → e ∈ w_journal w.
Proof. intros [[k ->] _] He. set_solver. Qed.

(** What the writer's view says of a machine, every later journal says. *)
Lemma view_is_final w q F s m :
  view_ok w → journal_wf (w_journal w ++ q) → newEffectLaneFold validate (w_journal w ++ q) = Ok F →
  machineAt (w_fold w) s = Some m → ∃ m', machineAt F s = Some m' ∧ evolves m m'.
Proof.
  intros [[k Hk] Hf] Hwf HF Hm. rewrite Hk, <- app_assoc in Hwf, HF.
  destruct (verdicts_stable_core validate (w_entries w) (k ++ q) F Hwf HF) as (F0 & HF0 & Hst & _).
  rewrite Hf in HF0. injection HF0 as <-. by apply Hst.
Qed.
End Laws.


Section Consume.
Variables (validate : json → json → bool * option string) (now : string)
  (restorationGeneration : option Z) (owner : string) (message : LaneError → string).

Abbreviation intake := (intakeApproval validate now owner).

Lemma bind_M_ok {A B} (m : M A) (k : A → M B) w w' b :
  (m ≫= k) w = (w', Ok b) → ∃ a w1, m w = (w1, Ok a) ∧ k a w1 = (w', Ok b).
Proof. unfold mbind, M_bind. destruct (m w) as [w1 [a|]]; [eauto|done]. Qed.

Lemma bind_refuse {A B} (m : M A) rule w w' (b : B) : (m ≫= (fun _ => refuse rule)) w = (w', Ok b) → False.
Proof. by intros (a & w1 & _ & ?)%bind_M_ok. Qed.

(** Intake either refuses, or leaves the state and has seen an approval with a
    deadline that licenses the key. *)
Lemma intake_ok spec w w' :
  intake spec w = (w', Ok tt) →
  w' = w ∧ ∃ a, a ∈ w_entries w ∧ e_seq a = s_approvalRef spec ∧ e_kind a = KApproval ∧
    e_deadlineAt a ≠ None ∧ approvalLicensedKey a = Some (s_logicalKey spec).
Proof.
  unfold intakeApproval, mbind, M_bind, gets, unless.
  destruct (find_first _ (w_entries w)) as [a|] eqn:Ha; [|done].
  apply find_first_Some in Ha as [Hin Hs%N.eqb_eq].
  destruct (bool_decide_reflect (e_kind a = KApproval)); [|done]. cbn.
  destruct (bool_decide_reflect (is_Some (e_deadlineAt a))) as [Hd|]; [|done]. cbn.
  destruct (bool_decide_reflect (approvalLicensedKey a = Some (s_logicalKey spec))); [|done]. cbn.
  intros Hrest. assert (w' = w) as ->.
  { revert Hrest. destruct (as_string _) as [x|]; [|by intros [= <-]].
    destruct (String.ltb x now); [|by intros [= <-]]. unfold materialize_expiry.
    intros (known & w1 & _ & Hrest)%bind_M_ok. by apply bind_refuse in Hrest. }
  split; [done|]. exists a. split_and!; try done. intros Hn. rewrite Hn in Hd. by destruct Hd.
Qed.

Lemma restoration_pure w w' r : assertRestorationCurrent restorationGeneration w = (w', r) → w' = w.
Proof. unfold assertRestorationCurrent. repeat case_match; by intros [= <- _]. Qed.

(** The successful path of a consumption that was not a replay. *)
Lemma consume_path spec w w' res :
  consumeApprovalAndRecordIntent validate now restorationGeneration owner message spec w = (w', Ok res) →
  cr_replayed res = false →
  ∃ w1 landed, synced validate w1 ∧ w_journal w1 = w_journal w ∧ w_rounds w1 = w_rounds w ∧
    findOpId (w_entries w1) (s_opId spec) = None ∧ intake spec w1 = (w1, Ok tt) ∧
    laneAppend validate now (s_opId spec) (intent_candidate validate now spec) w1 = (w', Ok landed) ∧
    ar_seq landed = cr_intentSeq res ∧
    machineAt (w_fold w') (cr_intentSeq res) = Some (cr_machine res) ∧ m_consumed (cr_machine res) = true.
Proof.
  unfold consumeApprovalAndRecordIntent. unfold mbind, M_bind at 1.
  destruct (reload validate w) as [w1 r1] eqn:Hr. destruct (reload_spec _ _ _ _ Hr) as (Hj & Hro & _ & _ & _ & Hsy).
  destruct r1 as [u|]; [|done]. specialize (Hsy u eq_refl). unfold M_bind at 1.
  destruct (assertRestorationCurrent _ w1) as [w2 [u2|]] eqn:Ha; [|done].
  pose proof (restoration_pure _ _ _ Ha) as ->. unfold M_bind, gets.
  destruct (findOpId (w_entries w1) (s_opId spec)) as [s|] eqn:Hfind.
  { destruct (machineAt (w_fold w1) s); [|done]. intros [= _ <-]. done. }
  destruct (intake spec w1) as [w3 [[]|]] eqn:Hin; [|done].
  pose proof (intake_ok _ _ _ Hin) as [-> _]. unfold catching.
  destruct (laneAppend validate now (s_opId spec) (intent_candidate validate now spec) w1) as [w4 [landed|er]] eqn:Hl.
  - unfold landed_machine, mbind, M_bind, gets.
    destruct (machineAt (w_fold w4) (ar_seq landed)) as [m|] eqn:Hm.
    + destruct (m_consumed m) eqn:Hc.
      * intros [= <- <-] _. exists w1, landed. cbn. split_and!; done.
      * unfold refuse_durably. cbn. done.
    + unfold refuse_durably. cbn. done.
  - unfold refuse_durably, mbind, M_bind. intros Hbad. exfalso. revert Hbad.
    destruct er; try done. destruct (_ || _); [|done].
    destruct (append_payload _ _ _ _ _) as [w5 [?|]]; done.
Qed.

End Consume.

(** C11: a consumption the caller was told of is final.  When
    [consumeApprovalAndRecordIntent] returns an intent it appended, the store's
    journal holds exactly one entry with its operation id, the approval it cites
    carries a deadline and licenses the key, and in every journal the store can
    grow into the machine at the returned position is consumed, with the intent
    and the terminal (if any) the caller was shown. *)
Theorem consumed_intent_is_final validate now generation owner message spec (w w' : Writer) res :
  consumeApprovalAndRecordIntent validate now generation owner message spec w = (w', Ok res) →
  cr_replayed res = false → foreign (s_opId spec) w → journal_wf (w_journal w') →
  count_op (s_opId spec) (w_journal w') = 1%nat ∧
  (∃ a, a ∈ w_journal w' ∧ e_seq a = s_approvalRef spec ∧ e_deadlineAt a ≠ None ∧
     approvalLicensedKey a = Some (s_logicalKey spec)) ∧
  ∀ q F, journal_wf (w_journal w' ++ q) → newEffectLaneFold validate (w_journal w' ++ q) = Ok F →
    ∃ m, machineAt F (cr_intentSeq res) = Some m ∧ m_consumed m = true ∧ evolves (cr_machine res) m.
Proof.
  intros Hc Hr Hf Hwf.
  destruct (consume_path _ _ _ _ _ _ _ _ _ Hc Hr)
    as (w1 & landed & Hsy & Hj & Hro & Hfind & Hin & Hl & Hseq & Hm & Hcon).
  assert (foreign (s_opId spec) w1) as Hf1 by (intros q Hq; rewrite Hro in Hq; by apply Hf).
  assert (count_op (s_opId spec) (w_journal w1) = 0%nat) as H0.
  { destruct Hsy as [He _]. rewrite <- He. by apply findOpId_none. }
  pose proof (laneAppend_lands validate now _ _ _ _ _ (intent_verdict_ok validate now spec) Hsy Hf1
                ltac:(lia) Hl Hwf) as [Hg Ho Hres].
  destruct (Hres landed eq_refl) as (Hview & e & He & Hop & _).
  pose proof (has_count _ _ _ (view_in_journal _ _ _ Hview He) Hop). split_and!; [lia|..].
  - destruct (intake_ok _ _ _ _ _ _ Hin) as (_ & a & Ha & Hs & _ & Hd & Hk). exists a.
    split_and!; [|done..]. destruct Hsy as [Hes _]. rewrite Hes in Ha. destruct Hg as [k ->]. set_solver.
  - intros q F Hwf' HF. destruct (view_is_final _ _ _ _ _ _ Hview Hwf' HF Hm) as (m & Hm' & Hev).
    exists m. split_and!; [done| |done]. destruct Hev as (_ & _ & _ & -> & _). done.
Qed.

(** ** The intent payload reads back *)

Definition decision_of (spec : EffectIntentSpec) (epochRef : N) : IntentDecision :=
  mkIntent (s_logicalKey spec) (s_approvalRef spec) epochRef (s_effectClass spec)
    (s_capabilityRow spec) (JStr <$> s_lookupQualification spec) (s_argumentsHash spec)
    (JStr <$> s_artifactHash spec) (JStr <$> s_configFingerprint spec) (s_budgets spec)
    (s_compensates spec) (s_successorOf spec).

(** What the types of [EffectIntentSpec] do not say and the reader checks. *)
Record spec_ok (spec : EffectIntentSpec) : Prop := {
  so_opId : s_opId spec ≠ "";
  so_key : s_logicalKey spec ≠ "";
  so_hash : s_argumentsHash spec ≠ "";
  so_attempts : (0 < b_attempts (s_budgets spec))%Z;
  so_lookups : (0 <= b_lookups (s_budgets spec))%Z;
  so_receiptWait : nonNegativeNumber (Some (b_receiptWaitMs (s_budgets spec))) =
    Some (b_receiptWaitMs (s_budgets spec));
  so_authorizationWait : ∀ v, b_authorizationWaitMs (s_budgets spec) = Some v →
    nonNegativeNumber (Some v) = Some v;
  so_reconcileBy : b_reconcileBy (s_budgets spec) ≠ "";
  so_row : qualified (s_capabilityRow spec) (JStr <$> s_lookupQualification spec) = true;
}.

Lemma nonEmptyString_of s : s ≠ "" → nonEmptyString (Some (JStr s)) = Some s.
Proof. intros Hs. cbn. by rewrite decide_False. Qed.

Lemma readSeq_of n : readSeq (Some (seq_json n)) = Some n.
Proof.
  unfold seq_json. cbn. destruct (Z.ltb_spec (Z.of_N n) 0); [lia|]. by rewrite N2Z.id.
Qed.

Lemma class_of c : isEffectClass (Some (JStr (class_text c))) = Some c.
Proof. by destruct c. Qed.
Lemma row_of r : isCapabilityRow (Some (JStr (row_text r))) = Some r.
Proof. by destruct r. Qed.

Lemma budgets_of spec : spec_ok spec → isBudgets (Some (budgets_json (s_budgets spec))) = Some (s_budgets spec).
Proof.
  intros [_ _ _ Ha Hl Hr Hw Hb _]. destruct (s_budgets spec) as [a l rw aw rb].
  cbn [b_attempts b_lookups b_receiptWaitMs b_authorizationWaitMs b_reconcileBy] in *.
  unfold isBudgets, budgets_json. cbn [asRecord b_attempts b_lookups b_receiptWaitMs b_authorizationWaitMs b_reconcileBy].
  set (r := _ :: _).
  change (Some r ≫= ?k) with (k r). cbv beta.
  change (prop r "attempts") with (Some (JNum a)). change (prop r "lookups") with (Some (JNum l)).
  change (prop r "receiptWaitMs") with (Some rw).
  assert (prop r "authorizationWaitMs" = aw ∧ prop r "reconcileBy" = Some (JStr rb)) as [-> ->]
    by (by subst r; destruct aw).
  assert (positiveInt (Some (JNum a)) = Some a) as Hpa
    by (unfold positiveInt; by rewrite (proj2 (Z.ltb_lt 0 a))).
  assert (nonNegativeInt (Some (JNum l)) = Some l) as Hnl
    by (unfold nonNegativeInt; by rewrite (proj2 (Z.ltb_ge l 0))).
  pose proof (nonEmptyString_of rb Hb) as Hrb.
  rewrite Hpa, Hnl, Hr, Hrb. destruct aw as [v|]; [|done].
  unfold optional. by rewrite (Hw v eq_refl).
Qed.

(** An intent reads back as it was asked for.  The entry the writer appends
    for an intent is read by the fold as that intent: every member of the
    specification, the epoch the writer cites, and the operation id. *)
Theorem intent_entry_reads_back now seq spec epochRef :
  spec_ok spec →
  readEffectLaneDecision (template now seq (s_opId spec) (intent_payload spec (seq_json epochRef))) =
    Lane (s_opId spec) (effect_intent (decision_of spec epochRef)).
Proof.
  intros Hok. pose proof (budgets_of spec Hok) as Hb. destruct Hok as [Ho Hk Hh _ _ _ _ _ Hq].
  unfold readEffectLaneDecision. cbn [template e_kind e_value]. rewrite decide_True by done.
  set (r := default [] (asRecord (Some (intent_payload spec (seq_json epochRef))))).
  change (find_first _ lane_readers) with (Some ("effect_intent", read_intent)). cbn [fst snd].
  change (prop r "opId") with (Some (JStr (s_opId spec))). rewrite nonEmptyString_of by done.
  unfold read_intent.
  change (prop r "logicalKey") with (Some (JStr (s_logicalKey spec))).
  change (prop r "approvalRef") with (Some (seq_json (s_approvalRef spec))).
  change (prop r "epochRef") with (Some (seq_json epochRef)).
  change (prop r "effectClass") with (Some (JStr (class_text (s_effectClass spec)))).
  change (prop r "capabilityRow") with (Some (JStr (row_text (s_capabilityRow spec)))).
  assert (prop r "lookupQualification" = JStr <$> s_lookupQualification spec ∧
    prop r "argumentsHash" = Some (JStr (s_argumentsHash spec)) ∧
    prop r "artifactHash" = JStr <$> s_artifactHash spec ∧
    prop r "configFingerprint" = JStr <$> s_configFingerprint spec ∧
    prop r "budgets" = Some (budgets_json (s_budgets spec)) ∧
    prop r "compensates" = seq_json <$> s_compensates spec ∧
    prop r "successorOf" = seq_json <$> s_successorOf spec) as (-> & -> & -> & -> & -> & -> & ->).
  { subst r. unfold intent_payload, decision_payload. cbn [asRecord default from_option].
    destruct (s_lookupQualification spec), (s_artifactHash spec), (s_configFingerprint spec),
      (s_compensates spec), (s_successorOf spec); done. }
  rewrite !nonEmptyString_of, !readSeq_of, class_of, row_of, Hb by done. cbn -[qualified readSeq optional].
  rewrite Hq. cbn -[readSeq optional].
  assert (∀ o, optional readSeq (seq_json <$> o) = Some o) as Hopt.
  { intros [n|]; [|done]. cbn -[readSeq]. by rewrite readSeq_of. }
  by rewrite !Hopt.
Qed.

(** ** Witnesses *)

(** A writer that has loaded [entries], with the store's answers to come. *)
Definition demo_writer (entries : list JournalEntry) (rounds : list Round) : Writer :=
  mkWriter entries entries (lane_of entries) false rounds.

Definition paid_intent : list JournalEntry := take 4 demo_payment.
Definition approved : list JournalEntry := take 3 demo_payment.

Definition an_attempt (opId : string) : json :=
  decision_payload "effect_attempt" opId
    [("intentRef", num 3); ("ordinal", num 1); ("notAfter", JStr "2030-01-02")].

Definition demo_attempt_spec (opId : string) : AttemptSpec := mkAttemptSpec opId "2030-01-02" None None.

Definition demo_intent_spec : EffectIntentSpec :=
  mkIntentSpec "intent" "pay-1" 1 monetary row_idempotency_key None "h" None None
    (mkBudgets 2 1 (JNum 10) None "2030-02-01") None None.

(** A holder appends elsewhere first; then the acknowledgement is lost. *)
Definition rough_store : list Round :=
  [mkRound [lane_entry 3 "effect_declared" "other"
              [("logicalKey", JStr "k"); ("effectClass", JStr "case"); ("capabilityRow", JStr "neither");
               ("argumentsHash", JStr "h")]] (Threw journal_order_violation false) [];
   mkRound [] (Threw OtherError true) []].

Definition a_writer_error (e : LaneError) : string := "refused".

Definition run_consume (w : Writer) :=
  consumeApprovalAndRecordIntent any_schema "2029-01-01" None "holder" a_writer_error demo_intent_spec w.

Lemma demo_wf (es : list JournalEntry) :
  forallb (fun '(a, b) => e_seq a <? e_seq b) (zip es (tl es)) = true →
  forallb (fun e => negb (is_ref_kind (e_kind e)) || negb (bool_decide (e_status e = StSuspended))) es = true →
  journal_wf es.
Proof.
  intros Hs Hr. split.
  - apply Sorted_StronglySorted; [intros a b c; apply N.lt_trans|]. clear Hr.
    induction es as [|a es IH]; [constructor|]. destruct es as [|b es]; [repeat constructor|].
    cbn in Hs. apply andb_true_iff in Hs as [Hab Hs]. constructor; [by apply IH|].
    constructor. by apply N.ltb_lt.
  - apply Forall_forall. intros e He Hk Hst. rewrite forallb_forall in Hr.
    specialize (Hr e (proj1 (list_elem_of_In _ _) He)). rewrite Hk, bool_decide_eq_true_2 in Hr by done. done.
Qed.


Definition consumed_run : Writer * result LaneError EffectConsumeResult :=
  run_consume (demo_writer approved rough_store).

Definition consumed_result : EffectConsumeResult :=
  match consumed_run.2 with Ok r => r | Err _ => mkConsumeResult 0 (machine_of [] 0) true end.

Lemma consumed_intent_is_final_witness :
  cr_intentSeq consumed_result = 4 ∧
  count_op "intent" (w_journal consumed_run.1) = 1%nat ∧
  ∀ q F, journal_wf (w_journal consumed_run.1 ++ q) →
    newEffectLaneFold any_schema (w_journal consumed_run.1 ++ q) = Ok F →
    ∃ m, machineAt F (cr_intentSeq consumed_result) = Some m ∧ m_consumed m = true ∧
      evolves (cr_machine consumed_result) m.
Proof.
  split; [vm_compute; reflexivity|].
  destruct (consumed_intent_is_final any_schema "2029-01-01" None "holder" a_writer_error demo_intent_spec
              (demo_writer approved rough_store) consumed_run.1 consumed_result) as (Hc & _ & Hq).
  - vm_compute. reflexivity.
  - vm_compute. reflexivity.
  - intros r [->|[->|Hr%not_elem_of_nil]%elem_of_cons]%elem_of_cons e He; [| |done].
    + apply list_elem_of_singleton in He as ->. vm_compute. reflexivity.
    + by apply not_elem_of_nil in He.
  - apply demo_wf; vm_compute; reflexivity.
  - split; [exact Hc|exact Hq].
Defined.

Lemma intent_entry_reads_back_witness :
  spec_ok demo_intent_spec ∧
  readEffectLaneDecision (template "now" 4 "intent" (intent_payload demo_intent_spec (seq_json 0))) =
    Lane "intent" (effect_intent (decision_of demo_intent_spec 0)).
Proof.
  assert (spec_ok demo_intent_spec) as H by (split; try done; cbn; lia).
  split; [exact H|]. apply (intent_entry_reads_back "now" 4 demo_intent_spec 0 H).
Defined.

(** ** What [openAttempt] does not check

    The attempt is appended without a verdict and its classification is not read:
    a second attempt is reported open while the first is, and so is one that lost
    the tail to a revocation of its approval; the fold calls both invalid. *)
Definition two_attempts :=
  (a ← openAttempt any_schema "now" None 3 (demo_attempt_spec "send-1");
   b ← openAttempt any_schema "now" None 3 (demo_attempt_spec "send-2");
   mret (a, b)) (demo_writer paid_intent []).

Example second_open_attempt_reported_sent :
  two_attempts.2 = Ok (attempt_opened 4 false, attempt_opened 5 false) ∧
  laneClasses (w_fold two_attempts.1) !! 5 = Some (lane_invalid attempt_is_open).
Proof. split; vm_compute; reflexivity. Qed.

Definition revocation_of (seq target : N) : JournalEntry :=
  with_value (base_entry seq "effects" "revoke" KDecision StOk)
    (JObj [("decisionType", JStr "approval_revoked"); ("targetRef", num target)]).

Definition raced_attempt :=
  openAttempt any_schema "now" None 3 (demo_attempt_spec "send-1")
    (demo_writer paid_intent [mkRound [revocation_of 4 1] (Threw journal_order_violation false) []]).

Example revoked_attempt_reported_sent :
  raced_attempt.2 = Ok (attempt_opened 5 false) ∧
  laneClasses (w_fold raced_attempt.1) !! 5 = Some (lane_invalid (redispatch_disabled (mkCloser 4 revoked))).
Proof. split; vm_compute; reflexivity. Qed.
