(* ===== verification/EffectReceipts.v ===== *)
(** * Receipt verification (packages/effects/src/receipts.ts, adapter.ts)

    The adapter seam's data, and the check of a receipt against the trust envelope
    of its provider: who may sign, what a receipt of its class must bind, and which
    keys verify inside which windows.  Timestamps are compared as the strings they
    are. *)
From S2P Require Import Prelude Json EffectTypes EffectFold EffectWriter.

(** ** The adapter seam *)

Inductive EffectLookupQualification := acceptance_closing | conditional_create.

#[global] Instance EffectLookupQualification_eq_dec : EqDecision EffectLookupQualification.
Proof. solve_decision. Defined.

Record EffectProviderDescriptor := mkDescriptor {
  pd_provider : string;
  pd_capabilityRow : EffectCapabilityRow;
  pd_lookupQualification : option EffectLookupQualification;
}.

(** [amount] is a number, as JSON prints it. *)
Record EffectReceiptObservation := mkObservation {
  ob_transferId : option string;
  ob_amount : option json;
  ob_currency : option string;
  ob_documentHash : option string;
  ob_providerRef : option string;
  ob_timestamp : option string;
  ob_issuer : option string;
  ob_keyId : option string;
  ob_signature : option string;
}.

Record EffectDispatchRequest := mkDispatchRequest {
  dr_runId : string;
  dr_intent : EffectMachine;
  dr_attemptSeq : N;
  dr_ordinal : N;
  dr_idempotencyKey : option string;
  dr_notAfter : string;
}.

Inductive EffectDispatchResult :=
  | res_accepted (providerRef : option string) (receipt : option EffectReceiptObservation)
  | res_failed (detail : string)
  | res_unknown (detail : option string).

Record EffectLookupRequest := mkLookupRequest {
  lr_runId : string;
  lr_intent : EffectMachine;
  lr_idempotencyKey : option string;
  lr_attemptSeq : option N;
}.

Inductive EffectLookupAnswer :=
  | answer_found (receipt : EffectReceiptObservation)
  | answer_absent (acceptanceClosed : bool).

Definition effectIdempotencyKey (intent : EffectMachine) : string :=
  i_logicalKey (m_decision intent) +:+ "#epoch" +:+ dec_of_N (i_epochRef (m_decision intent)).

(** ** The trust envelope *)

Record EffectTrustKey := mkTrustKey {
  k_keyId : string;
  k_validFrom : option string;
  k_validTo : option string;
  k_revokedAt : option string;
}.

Record EffectTrustEnvelope := mkEnvelope {
  en_issuers : list string;
  en_keys : list EffectTrustKey;
  en_verifySignature : option (EffectReceiptObservation → EffectTrustKey → bool);
}.

Inductive ReceiptVerification := rv_verified | rv_unverified (reason : string).

Definition need {A} (name : string) (value : option A) : list string :=
  match value with None => [name] | Some _ => [] end.

Definition missingBindings (cls : EffectClass) (o : EffectReceiptObservation) : list string :=
  need "timestamp" (ob_timestamp o)
  ++ match cls with
     | monetary =>
         need "transferId" (ob_transferId o) ++ need "amount" (ob_amount o)
         ++ need "currency" (ob_currency o)
     | signing => need "documentHash" (ob_documentHash o)
     | case_ => need "providerRef" (ob_providerRef o)
     end.

(** [v !== undefined && test(v)]. *)
Definition given_and (v : option string) (test : string → bool) : bool :=
  match v with Some s => test s | None => false end.

(** The windows of a key at the receipt's timestamp, in the order they are tried. *)
Definition outside_window (key : EffectTrustKey) (at_ : string) : option string :=
  if given_and (k_validFrom key) (fun from => String.ltb at_ from) then
    Some ("the receipt predates key '" +:+ k_keyId key +:+ "' validity ("
          +:+ default "" (k_validFrom key) +:+ ")")
  else if given_and (k_validTo key) (fun to => String.ltb to at_) then
    Some ("the receipt postdates key '" +:+ k_keyId key +:+ "' validity ("
          +:+ default "" (k_validTo key) +:+ ")")
  else if given_and (k_revokedAt key) (fun revoked => negb (String.ltb at_ revoked)) then
    Some ("key '" +:+ k_keyId key +:+ "' is revoked from " +:+ default "" (k_revokedAt key)
          +:+ " forward; old receipts inside their window still verify, this one does not")
  else None.

Definition issuer_trusted (o : EffectReceiptObservation) (env : EffectTrustEnvelope) : bool :=
  given_and (ob_issuer o) (fun issuer => bool_decide (issuer ∈ en_issuers env)).

Definition resolve_key (o : EffectReceiptObservation) (env : EffectTrustEnvelope)
    : option EffectTrustKey :=
  find_first (fun k => bool_decide (Some (k_keyId k) = ob_keyId o)) (en_keys env).

Definition signature_ok (o : EffectReceiptObservation) (env : EffectTrustEnvelope)
    (key : EffectTrustKey) : bool :=
  match en_verifySignature env with Some verify => verify o key | None => true end.

Definition verifyReceiptObservation (o : EffectReceiptObservation) (cls : EffectClass)
    (env : EffectTrustEnvelope) : ReceiptVerification :=
  if negb (issuer_trusted o env) then
    rv_unverified ("issuer '" +:+ default "<none>" (ob_issuer o) +:+ "' is not in the trust envelope")
  else
    match missingBindings cls o with
    | _ :: _ =>
        rv_unverified ("the receipt binds fewer fields than the '" +:+ class_text cls
                       +:+ "' class requires: missing " +:+ String.concat ", " (missingBindings cls o))
    | [] =>
        match resolve_key o env with
        | None =>
            rv_unverified ("key '" +:+ default "<none>" (ob_keyId o)
                           +:+ "' does not resolve in the key set")
        | Some key =>
            match outside_window key (default "" (ob_timestamp o)) with
            | Some reason => rv_unverified reason
            | None =>
                if bool_decide (ob_signature o = None) then
                  rv_unverified "the receipt carries no signature"
                else if negb (signature_ok o env key) then
                  rv_unverified "the signature failed verification"
                else rv_verified
            end
        end
    end.

Definition envelopeVerifier (cls : EffectClass) (env : EffectTrustEnvelope)
    (o : EffectReceiptObservation) : Verification :=
  match verifyReceiptObservation o cls env with rv_verified => verified | rv_unverified _ => unverified end.

(** ** What a verified receipt proves *)

(** The members a receipt of the class must bind. *)
Definition binds (cls : EffectClass) (o : EffectReceiptObservation) : Prop :=
  is_Some (ob_timestamp o) ∧
  match cls with
  | monetary => is_Some (ob_transferId o) ∧ is_Some (ob_amount o) ∧ is_Some (ob_currency o)
  | signing => is_Some (ob_documentHash o)
  | case_ => is_Some (ob_providerRef o)
  end.

(** The key verifies at the instant: begun, not over, not revoked. *)
Definition key_valid_at (key : EffectTrustKey) (at_ : string) : Prop :=
  (∀ from, k_validFrom key = Some from → String.ltb at_ from = false) ∧
  (∀ to, k_validTo key = Some to → String.ltb to at_ = false) ∧
  (∀ revoked, k_revokedAt key = Some revoked → String.ltb at_ revoked = true).

Lemma need_nil {A} name (v : option A) : need name v = [] ↔ is_Some v.
Proof. by destruct v; cbn; split. Qed.

Lemma missing_nil cls o : missingBindings cls o = [] ↔ binds cls o.
Proof.
  unfold missingBindings, binds. rewrite app_nil, need_nil.
  destruct cls; rewrite ?app_nil, ?need_nil; done.
Qed.

Lemma given_and_false v test : given_and v test = false ↔ ∀ s, v = Some s → test s = false.
Proof. destruct v as [s|]; cbn; naive_solver. Qed.

Lemma outside_window_none key at_ : outside_window key at_ = None ↔ key_valid_at key at_.
Proof.
  unfold outside_window, key_valid_at.
  destruct (given_and (k_validFrom key) _) eqn:Hf.
  { split; [done|]. intros (H & _). destruct (k_validFrom key); [|done]. cbn in Hf. by rewrite H in Hf. }
  destruct (given_and (k_validTo key) _) eqn:Ht.
  { split; [done|]. intros (_ & H & _). destruct (k_validTo key); [|done]. cbn in Ht. by rewrite H in Ht. }
  rewrite given_and_false in Hf, Ht.
  destruct (given_and (k_revokedAt key) _) eqn:Hr; split; try done.
  - intros (_ & _ & H).
    enough (given_and (k_revokedAt key) (fun revoked => negb (String.ltb at_ revoked)) = false)
      by congruence.
    apply given_and_false. intros s Hs. by rewrite H.
  - intros _. rewrite given_and_false in Hr. split_and!; [done..|].
    intros s Hs. by apply negb_false_iff, Hr.
Qed.

(** A receipt verifies exactly when an issuer of the envelope signed it, it binds
    every member its class requires, the first key of its identifier is inside its
    window and not revoked at the receipt's timestamp, and it carries a signature
    the host's check (if any) accepts.  Every other receipt is unverified. *)
Theorem receipt_verified_iff o cls env :
  verifyReceiptObservation o cls env = rv_verified ↔
  ∃ issuer key at_,
    ob_issuer o = Some issuer ∧ issuer ∈ en_issuers env ∧ binds cls o ∧
    resolve_key o env = Some key ∧ ob_timestamp o = Some at_ ∧ key_valid_at key at_ ∧
    is_Some (ob_signature o) ∧ signature_ok o env key = true.
Proof.
  unfold verifyReceiptObservation. split.
  - destruct (issuer_trusted o env) eqn:Hi; cbn [negb]; [|done].
    destruct (missingBindings cls o) eqn:Hm; [|done]. apply missing_nil in Hm.
    destruct (resolve_key o env) as [key|]; [|done].
    destruct (outside_window _ _) eqn:Hw; [done|]. apply outside_window_none in Hw.
    destruct (bool_decide_reflect (ob_signature o = None)) as [|Hs]; [done|].
    destruct (signature_ok o env key) eqn:Hv; [|done]. intros _.
    unfold issuer_trusted in Hi. destruct (ob_issuer o) as [issuer|]; [|done].
    apply bool_decide_eq_true_1 in Hi. pose proof Hm as [[at_ Hat] _]. rewrite Hat in Hw.
    exists issuer, key, at_. split_and!; try done. by apply not_eq_None_Some.
  - intros (issuer & key & at_ & Hi & Hin & Hb & Hk & Hat & Hw & [sg Hs] & Hv).
    unfold issuer_trusted. rewrite Hi. cbn [given_and]. rewrite bool_decide_eq_true_2 by done.
    apply missing_nil in Hb. rewrite Hb, Hk, Hat. cbn [negb default].
    apply outside_window_none in Hw. cbn. by rewrite Hw, Hs, Hv.
Qed.
