(* ===== verification/EffectDispatch.v ===== *)
(** * The effect dispatcher (packages/effects/src/dispatcher.ts)

    The crash-window recovery engine over the lane writer and the provider seam.
    The provider is an oracle: each of its answers may depend on every contact it
    had before.  Contacts are logged, a send with the journal as it stood when it
    left, so that the theorems can say what had been recorded by then.  Between two
    uses of the writer other holders may append: [wd_env] holds what they do. *)
From S2P Require Import Prelude Json Entries EffectTypes EffectFold EffectWriter EffectReceipts.

(** ** The provider and the world *)

Inductive Call :=
  | call_dispatch (request : EffectDispatchRequest) (journal : list JournalEntry)
  | call_truth (probe : ProbeKind) (request : EffectLookupRequest)
      (answer : EffectLookupAnswer + string).

(** An adapter that throws answers [inr] of the text of what it threw. *)
Record EffectAdapter := mkAdapter {
  ad_descriptor : EffectProviderDescriptor;
  ad_dispatch : list Call → EffectDispatchRequest → EffectDispatchResult + string;
  ad_lookup : option (list Call → EffectLookupRequest → EffectLookupAnswer + string);
  ad_closeAcceptance : option (list Call → EffectLookupRequest → EffectLookupAnswer + string);
}.

Record World := mkWorld {
  wd_writer : Writer;
  wd_env : list (list JournalEntry);
  wd_calls : list Call;
}.

Inductive DError :=
  | lane_threw (e : LaneError)
  | adapter_threw (text : string)
  | range_error.

Definition D (A : Type) : Type := World → World * result DError A.

#[global] Instance D_ret : MRet D := fun A a w => (w, Ok a).
#[global] Instance D_bind : MBind D :=
  fun A B f m w => match m w with (w', Ok a) => f a w' | (w', Err e) => (w', Err e) end.

Definition raise {A} (e : DError) : D A := fun w => (w, Err e).

(** What other holders append before the writer is used again. *)
Definition env_step (w : World) : World :=
  let wr := wd_writer w in
  mkWorld
    (mkWriter (w_journal wr ++ default [] (head (wd_env w))) (w_entries wr) (w_fold wr)
       (w_closed wr) (w_rounds wr))
    (tl (wd_env w)) (wd_calls w).

(** A use of the writer. *)
Definition lane {A} (m : M A) : D A := fun w =>
  let w := env_step w in
  let (wr, r) := m (wd_writer w) in
  (mkWorld wr (wd_env w) (wd_calls w),
   match r with Ok a => Ok a | Err e => Err (lane_threw e) end).

(** ** Reports *)

Inductive EffectDispatchReport :=
  | rep_cancelled (terminalSeq : N)
  | rep_confirmed (receiptSeq terminalSeq : N)
  | rep_awaiting_receipt (attemptSeq : N)
  | rep_receipt_unverified (attemptSeq : Z) (receiptSeq : N)
  | rep_failed (attemptSeq : N) (detail : string)
  | rep_unknown (attemptSeq : N) (detail : option string).

Inductive EffectRecoveryReport :=
  | rec_noop (reason : string)
  | rec_cancelled (terminalSeq : N)
  | rec_confirmed (receiptSeq terminalSeq : N)
  | rec_quarantined (terminalSeq : N) (reason : string)
  | rec_redispatched (report : EffectDispatchReport)
  | rec_waiting (reason : string)
  | rec_receipt_unverified (receiptSeq : N).

(** What [recordReceipt] returns, a report of either kind. *)
Inductive ReceiptReport :=
  | receipt_confirmed (receiptSeq terminalSeq : N)
  | receipt_unverified (attemptSeq : Z) (receiptSeq : N).

Definition as_dispatch (r : ReceiptReport) : EffectDispatchReport :=
  match r with
  | receipt_confirmed a b => rep_confirmed a b
  | receipt_unverified a b => rep_receipt_unverified a b
  end.

Definition as_recovery (r : ReceiptReport) : EffectRecoveryReport :=
  match r with
  | receipt_confirmed a b => rec_confirmed a b
  | receipt_unverified _ b => rec_receipt_unverified b
  end.

(** ** Operation identifiers *)

Definition op_of (tag : string) (seq : N) : string := tag +:+ ":" +:+ dec_of_N seq.

Definition attempt_opId (intentSeq ordinal : N) : string :=
  "attempt:" +:+ dec_of_N intentSeq +:+ ":" +:+ dec_of_N ordinal.

Definition outcome_of (r : EffectDispatchResult) : AttemptOutcome :=
  match r with res_accepted _ _ => accepted | res_failed _ => failed | res_unknown _ => unknown end.

Definition detail_of (r : EffectDispatchResult) : option string :=
  match r with res_accepted _ _ => None | res_failed d => Some d | res_unknown d => d end.

(** The members of a receipt the journal keeps. *)
Definition receipt_fields (o : EffectReceiptObservation) : record :=
  given "transferId" JStr (ob_transferId o) ++ given "amount" (fun v => v) (ob_amount o)
  ++ given "currency" JStr (ob_currency o) ++ given "documentHash" JStr (ob_documentHash o)
  ++ given "providerRef" JStr (ob_providerRef o) ++ given "timestamp" JStr (ob_timestamp o).

Definition open_attempt (m : EffectMachine) : option EffectAttemptState :=
  find_first at_open (m_attempts m).

Definition state_text (s : EffectMachineState) : string :=
  match s with
  | m_intent => "intent" | m_dispatching => "dispatching"
  | m_awaiting_receipt => "awaiting-receipt" | m_unknown => "unknown"
  | m_terminal_state t => terminal_text t
  end.

Section Dispatcher.
(** The writer's parameters, the clock functions of the language, the text of a
    thrown lane error, and the dispatcher's options. *)
Variable validate : json → json → bool * option string.
Variable writer_now : string.
Variable restorationGeneration : option Z.
Variable date_parse : string → option Z.
Variable iso_string : Z → option string.
Variable message : LaneError → string.
Variable adapter : EffectAdapter.
Variable runId : string.
Variable verifyReceipt : EffectReceiptObservation → Verification.
Variable now : string.
Variable attemptTtlMs : Z.

(** [new Date(...).toISOString()] throws on an invalid date. *)
Definition notAfter : D string :=
  match date_parse now ≫= (fun t => iso_string (t + attemptTtlMs)%Z) with
  | Some text => mret text
  | None => raise range_error
  end.

Definition refresh : M EffectLaneFold := _ ← reload validate; gets w_fold.

Definition machine (intentSeq : N) : D EffectMachine :=
  fold ← lane refresh;
  match machineAt fold intentSeq with
  | Some m => if m_consumed m then mret m else raise (lane_threw (EffectLaneRefused "no-such-intent"))
  | None => raise (lane_threw (EffectLaneRefused "no-such-intent"))
  end.

Definition row : EffectCapabilityRow := pd_capabilityRow (ad_descriptor adapter).
Definition qualification : option EffectLookupQualification :=
  pd_lookupQualification (ad_descriptor adapter).

Definition idempotencyKey_for (m : EffectMachine) : option string :=
  match row with row_idempotency_key => Some (effectIdempotencyKey m) | _ => None end.

(** The send; a transport that throws is an unknown outcome. *)
Definition send (request : EffectDispatchRequest) : D EffectDispatchResult := fun w =>
  let w' := mkWorld (wd_writer w) (wd_env w)
              (wd_calls w ++ [call_dispatch request (w_journal (wd_writer w))]) in
  (w', Ok match ad_dispatch adapter (wd_calls w) request with
          | inl r => r
          | inr text => res_unknown (Some ("the transport threw: " +:+ text))
          end).

(** ** Receipts *)

Definition closer_detail : string :=
  "the effect executed before the revocation landed; the incident opens the " +:+
  "compensation decision path and the causal chain records both".

Definition settleCloserAfterConfirm (intentSeq : N) : D unit :=
  m ← machine intentSeq;
  match m_postIntentCloser m with
  | Some (mkCloser seq revoked) =>
      _ ← lane (appendIncident validate writer_now intentSeq (op_of "incident:closer" intentSeq)
                  "revocation-after-confirmation" (Some seq) (Some closer_detail));
      mret tt
  | _ => mret tt
  end.

Definition recordReceipt (intentSeq : N) (tag : string) (o : EffectReceiptObservation)
    (attemptSeq : option N) : D ReceiptReport :=
  let verification := verifyReceipt o in
  receipt ← lane (appendReceipt validate writer_now intentSeq ("receipt:" +:+ tag) verification
                    (receipt_fields o));
  match verification with
  | unverified =>
      mret (receipt_unverified (from_option Z.of_N (-1)%Z attemptSeq) (ar_seq receipt))
  | verified =>
      terminal ← lane (appendTerminal validate writer_now intentSeq (op_of "confirm" intentSeq)
                         confirmed None (Some (ar_seq receipt)));
      _ ← settleCloserAfterConfirm intentSeq;
      mret (receipt_confirmed (ar_seq receipt) (ar_seq terminal))
  end.

(** ** The normal path *)

Definition after_send (intentSeq attemptSeq : N) (r : EffectDispatchResult) : D EffectDispatchReport :=
  match r with
  | res_accepted _ (Some receipt) =>
      recorded ← recordReceipt intentSeq (op_of "attempt" attemptSeq) receipt (Some attemptSeq);
      mret (as_dispatch recorded)
  | res_accepted _ None => mret (rep_awaiting_receipt attemptSeq)
  | res_failed detail => mret (rep_failed attemptSeq detail)
  | res_unknown detail => mret (rep_unknown attemptSeq detail)
  end.

Definition dispatch (intentSeq : N) : D EffectDispatchReport :=
  m ← machine intentSeq;
  let ordinal := (N.of_nat (length (m_attempts m)) + 1)%N in
  let key := idempotencyKey_for m in
  deadline ← notAfter;
  opened ← lane (openAttempt validate writer_now restorationGeneration intentSeq
                   (mkAttemptSpec (attempt_opId intentSeq ordinal) deadline key None));
  match opened with
  | attempt_cancelled terminalSeq => mret (rep_cancelled terminalSeq)
  | attempt_opened attemptSeq _ =>
      r ← send (mkDispatchRequest runId m attemptSeq ordinal key deadline);
      _ ← lane (appendOutcome validate writer_now intentSeq attemptSeq (op_of "outcome" attemptSeq)
                  (outcome_of r) (detail_of r));
      after_send intentSeq attemptSeq r
  end.

(** ** The provider's truth *)

Definition closes_acceptance : bool :=
  bool_decide (qualification = Some acceptance_closing)
  && bool_decide (is_Some (ad_closeAcceptance adapter)).

Definition ask (probe : ProbeKind)
    (query : list Call → EffectLookupRequest → EffectLookupAnswer + string)
    (request : EffectLookupRequest) : D (option EffectLookupAnswer) := fun w =>
  let reply := query (wd_calls w) request in
  (mkWorld (wd_writer w) (wd_env w) (wd_calls w ++ [call_truth probe request reply]),
   match reply with inl a => Ok (Some a) | inr text => Err (adapter_threw text) end).

Definition providerTruth (m : EffectMachine) (attemptSeq : option N) : D (option EffectLookupAnswer) :=
  let request := mkLookupRequest runId m (idempotencyKey_for m) attemptSeq in
  match ad_closeAcceptance adapter, ad_lookup adapter with
  | Some close, other =>
      if bool_decide (qualification = Some acceptance_closing)
      then ask probe_close_acceptance close request
      else match other with Some query => ask probe_lookup query request | None => mret None end
  | None, Some query => ask probe_lookup query request
  | None, None => mret None
  end.

Definition probedTruth (m : EffectMachine) (attemptSeq : option N) : D (option EffectLookupAnswer) :=
  answer ← providerTruth m attemptSeq;
  match answer with
  | None => mret None
  | Some a =>
      _ ← lane (appendProbe validate writer_now (m_intentSeq m) None
                  (if closes_acceptance then probe_close_acceptance else probe_lookup)
                  match a with answer_found _ => true | answer_absent _ => false end
                  match a with answer_found _ => None | answer_absent closed => Some closed end);
      mret (Some a)
  end.

(** ** Recovery *)

Definition quarantine (intentSeq : N) (reason : string) : D EffectRecoveryReport :=
  terminal ← lane (appendTerminal validate writer_now intentSeq (op_of "quarantine" intentSeq)
                     quarantined (Some reason) None);
  mret (rec_quarantined (ar_seq terminal) reason).

Definition redispatch (intentSeq : N) : D EffectRecoveryReport :=
  report ← dispatch intentSeq; mret (rec_redispatched report).

Definition close_open (intentSeq attemptSeq : N) (outcome : AttemptOutcome) (detail : string) : D unit :=
  _ ← lane (appendOutcome validate writer_now intentSeq attemptSeq (op_of "outcome" attemptSeq)
              outcome (Some detail));
  mret tt.

Definition recovered_receipt (intentSeq n : N) (o : EffectReceiptObservation) (attemptSeq : option N)
    : D EffectRecoveryReport :=
  recorded ← recordReceipt intentSeq (op_of "recovered" n) o attemptSeq;
  mret (as_recovery recorded).

Definition next_receipt (m : EffectMachine) : N := N.of_nat (length (m_receipts m)) + 1.

Definition unclosable : string :=
  "the closure primitive could not close acceptance; the negative proves nothing".

Definition unfenced_open : string :=
  "an attempt is open on a provider with no fencing (no idempotency key, no " +:+
  "acceptance closure): re-dispatch is forbidden, a stale send may still land " +:+
  "later, and the disposition happens with that fact on the table".

Definition unfenced_unknown : string :=
  "the outcome is unknown on a provider with no fencing: re-dispatch is " +:+
  "forbidden and a stale effect may still surface; manual disposition only".

(** Kill points 4, 5, 6, 8, 17: an attempt is open. *)
Definition recover_open (intentSeq : N) (m : EffectMachine) (open : EffectAttemptState)
    : D EffectRecoveryReport :=
  match row with
  | row_neither => quarantine intentSeq unfenced_open
  | row_lookup =>
      answer ← probedTruth m (Some (at_seq open));
      match answer with
      | None => quarantine intentSeq "the row claims lookup but the adapter offers no primitive"
      | Some (answer_found receipt) =>
          _ ← close_open intentSeq (at_seq open) accepted "recovered: the provider holds the effect";
          recovered_receipt intentSeq (at_seq open) receipt (Some (at_seq open))
      | Some (answer_absent closed) =>
          if bool_decide (qualification = Some acceptance_closing) then
            if negb closed then quarantine intentSeq unclosable
            else
              _ ← close_open intentSeq (at_seq open) failed "recovered: acceptance closed with no effect";
              redispatch intentSeq
          else
            _ ← close_open intentSeq (at_seq open) unknown
                  "recovered: the unique natural key arbitrates the re-dispatch";
            redispatch intentSeq
      end
  | row_idempotency_key =>
      _ ← close_open intentSeq (at_seq open) unknown
            "recovered: the crash window is ambiguous; the provider fence arbitrates";
      redispatch intentSeq
  end.

Definition recover_awaiting (intentSeq : N) (m : EffectMachine) : D EffectRecoveryReport :=
  answer ← probedTruth m None;
  match answer with
  | Some (answer_found receipt) => recovered_receipt intentSeq (next_receipt m) receipt None
  | _ => mret (rec_waiting "the provider accepted; a receipt is expected")
  end.

(** An answer that does not close acceptance. *)
Definition leaves_open (answer : option EffectLookupAnswer) : bool :=
  match answer with Some (answer_absent closed) => negb closed | _ => true end.

Definition recover_unknown (intentSeq : N) (m : EffectMachine) : D EffectRecoveryReport :=
  match row with
  | row_neither => quarantine intentSeq unfenced_unknown
  | row_lookup =>
      answer ← probedTruth m (at_seq <$> last (m_attempts m));
      match answer with
      | Some (answer_found receipt) => recovered_receipt intentSeq (next_receipt m) receipt None
      | _ =>
          if bool_decide (qualification = Some acceptance_closing) && leaves_open answer
          then quarantine intentSeq unclosable
          else redispatch intentSeq
      end
  | row_idempotency_key => redispatch intentSeq
  end.

(** ** Recovery under a closer *)

Definition closer_name (c : PostIntentCloser) : string :=
  match c_kind c with expired => "expiry" | revoked => "revocation" end.

Definition provably_no_effect (m : EffectMachine) : bool :=
  forallb (fun a => negb (at_open a) && bool_decide (at_outcome a = Some failed)) (m_attempts m).

Definition cancelled_reason (c : PostIntentCloser) : string :=
  "the " +:+ closer_name c +:+ " at seq " +:+ dec_of_N (c_seq c) +:+ " plus an acceptance " +:+
  "closing negative: every attempt provably failed, so the journal proves no effect".

Definition unresolved_reason (c : PostIntentCloser) : string :=
  "recovery under the " +:+ closer_name c +:+ " at seq " +:+ dec_of_N (c_seq c) +:+ " is reconcile "
  +:+ "only, and the provider could neither prove the effect nor close acceptance; "
  +:+ "manual disposition with the closer on the record".

Definition close_if_open (intentSeq : N) (open : option EffectAttemptState) (outcome : AttemptOutcome)
    (detail : string) : D unit :=
  match open with Some a => close_open intentSeq (at_seq a) outcome detail | None => mret tt end.

Definition reconcileUnderCloser (intentSeq : N) (m : EffectMachine) (c : PostIntentCloser)
    : D EffectRecoveryReport :=
  if bool_decide (m_attempts m = []) then
    deadline ← notAfter;
    opened ← lane (openAttempt validate writer_now restorationGeneration intentSeq
                     (mkAttemptSpec (op_of "cancel-probe" intentSeq) deadline None None));
    match opened with
    | attempt_cancelled terminalSeq => mret (rec_cancelled terminalSeq)
    | attempt_opened _ _ => raise (lane_threw (EffectLaneRefused "reconcile-only"))
    end
  else
    let open := open_attempt m in
    let asked := match open with Some a => Some (at_seq a) | None => at_seq <$> last (m_attempts m) end in
    truth ← probedTruth m asked;
    match truth with
    | Some (answer_found receipt) =>
        _ ← close_if_open intentSeq open accepted
              ("recovered under the " +:+ closer_name c +:+ ": the provider holds the effect");
        recovered_receipt intentSeq (from_option at_seq (next_receipt m) open) receipt None
    | Some (answer_absent true) =>
        _ ← close_if_open intentSeq open failed
              ("recovered under the " +:+ closer_name c +:+ ": acceptance closed with no effect");
        fresh ← machine intentSeq;
        if provably_no_effect fresh then
          terminal ← lane (appendTerminal validate writer_now intentSeq (op_of "cancel" intentSeq)
                             cancelled_before_dispatch (Some (cancelled_reason c)) (Some (c_seq c)));
          mret (rec_cancelled (ar_seq terminal))
        else quarantine intentSeq (unresolved_reason c)
    | _ => quarantine intentSeq (unresolved_reason c)
    end.

Definition recoverInner (intentSeq : N) : D EffectRecoveryReport :=
  m ← machine intentSeq;
  match m_terminal m with
  | Some t => mret (rec_noop ("already closed '" +:+ terminal_text (te_terminal t) +:+ "'"))
  | None =>
      match m_postIntentCloser m, open_attempt m, m_state m with
      | Some c, _, _ => reconcileUnderCloser intentSeq m c
      | None, Some open, _ => recover_open intentSeq m open
      | None, None, m_intent => redispatch intentSeq
      | None, None, m_awaiting_receipt => recover_awaiting intentSeq m
      | None, None, m_unknown => recover_unknown intentSeq m
      | None, None, s => mret (rec_noop ("state '" +:+ state_text s +:+ "' needs no recovery"))
      end
  end.

(** Exhausted lookups end in the quarantine, whoever threw them. *)
Definition recover (intentSeq : N) : D EffectRecoveryReport := fun w =>
  match recoverInner intentSeq w with
  | (w', Err (lane_threw (EffectLaneRefused rule))) =>
      if bool_decide (rule = "lookups-exhausted")
      then quarantine intentSeq (message (EffectLaneRefused rule)) w'
      else (w', Err (lane_threw (EffectLaneRefused rule)))
  | other => other
  end.
End Dispatcher.
