(* ===== verification/EffectRecover.v ===== *)
(** * The laws of the dispatcher (packages/effects/src/dispatcher.ts)

    What the provider is contacted for, and what the journal holds by then: a send
    follows its attempt record, and a recovery sends only where the provider's
    fence or a proof of no effect licenses it. *)
From S2P Require Import Prelude Json JsMap Entries Disposition Resolution EffectTypes EffectFold EffectLaws EffectWriter EffectAppend.
From S2P Require Import EffectReceipts EffectDispatch.

#[local] Open Scope N_scope.

(** ** Appends are recorded *)

Section Recorded.
Variables (validate : json → json → bool * option string) (now : string).
Implicit Types (w : Writer).

(** The journal holds an entry of the operation at the position. *)
Definition recorded (opId : string) (seq : N) (journal : list JournalEntry) : Prop :=
  ∃ e, e ∈ journal ∧ has_opId opId e = true ∧ e_seq e = seq.

Lemma recorded_prefix opId seq (a b : list JournalEntry) :
  a `prefix_of` b → recorded opId seq a → recorded opId seq b.
Proof. intros [k ->] (e & He & Hrest). exists e. split; [set_solver|done]. Qed.

Lemma findOpId_recorded w opId seq :
  w_entries w = w_journal w → findOpId (w_entries w) opId = Some seq → recorded opId seq (w_journal w).
Proof. intros <- H%findOpId_some. exact H. Qed.

Lemma try_append_recorded opId payload w w' a :
  is_str (opt_prop (asRecord (Some payload)) "opId") opId = true →
  try_append validate now opId payload w = (w', Ok (inr a)) → recorded opId (ar_seq a) (w_journal w').
Proof.
  intros Hop. unfold try_append. set (entry := template now _ opId payload).
  destruct (rd_reply (next_round w)) as [|t c] eqn:Hr; [|done].
  destruct (newEffectLaneFold validate _); [|done]. intros [= <- <-]. exists entry.
  split_and!; [|by apply template_opId|done]. cbn. rewrite Hr. cbn. set_solver.
Qed.

Lemma lane_loop_recorded n opId verdict w w' a :
  verdict_ok opId verdict → w_entries w = w_journal w →
  lane_append_loop validate now n opId verdict w = (w', Ok a) → recorded opId (ar_seq a) (w_journal w').
Proof.
  intros Hv. revert w. induction n as [|n IH]; intros w Hs; cbn; [done|].
  unfold mbind, M_bind, gets. destruct (findOpId (w_entries w) opId) as [s|] eqn:Hfind.
  { intros [= <- <-]. by apply findOpId_recorded. }
  pose proof (vd_pure _ _ Hv w) as Hp. pose proof (vd_opId _ _ Hv w) as Hop.
  destruct (verdict w) as [w0 [payload|er]]; cbn in Hp, Hop; subst w0; [|done].
  specialize (Hop payload eq_refl).
  destruct (try_append validate now opId payload w) as [w1 [[t|b]|er]] eqn:Htry; [| |done].
  - destruct (after_throw validate opId t w1) as [w2 r2] eqn:Hth.
    destruct (after_throw_spec _ _ _ _ _ _ Hth) as (_ & _ & Hr2).
    destruct r2 as [[b|]|er]; [| |done].
    + intros [= <- <-]. destruct Hr2 as [[Hs2 _] Hrec]. unfold recorded. by rewrite <- Hs2.
    + destruct Hr2 as [[Hs2 _] _]. by apply IH.
  - intros [= <- <-]. by eapply try_append_recorded.
Qed.

Lemma append_payload_recorded opId decisionType fields w w' a :
  w_entries w = w_journal w →
  append_payload validate now opId (decision_payload decisionType opId fields) w = (w', Ok a) →
  recorded opId (ar_seq a) (w_journal w').
Proof.
  unfold append_payload, laneAppend, mbind, M_bind, gets. intros Hs. destruct (w_closed w); [done|].
  apply lane_loop_recorded; [apply fixed_verdict_ok|done].
Qed.

Lemma M_bind_inv {A B} (m : M A) (k : A → M B) w w' r :
  (m ≫= k) w = (w', r) →
  ∃ w1 r1, m w = (w1, r1) ∧
    match r1 with Ok a => k a w1 = (w', r) | Err e => w' = w1 ∧ r = Err e end.
Proof.
  unfold mbind, M_bind. destruct (m w) as [w1 [a|e]] eqn:E; intros H; exists w1; eexists; split; try done.
  by injection H as <- <-.
Qed.

Lemma reload_entries w w' r : reload validate w = (w', r) → w_entries w' = w_journal w'.
Proof. intros H. by destruct (reload_spec _ _ _ _ H) as (_ & _ & _ & He & _). Qed.
End Recorded.

Lemma unless_inv b rule w w' (u : unit) : unless b rule w = (w', Ok u) → w' = w ∧ b = true.
Proof. unfold unless. destruct b; [by intros [= <- _]|done]. Qed.

(** A reported attempt is recorded under its operation id. *)
Lemma openAttempt_recorded validate now generation intentSeq spec w w' seq b :
  openAttempt validate now generation intentSeq spec w = (w', Ok (attempt_opened seq b)) →
  recorded (sp_opId spec) seq (w_journal w').
Proof.
  unfold openAttempt. intros H.
  apply M_bind_inv in H as (w1 & [u|e] & Hr & H); [|by destruct H]. apply reload_entries in Hr.
  apply M_bind_inv in H as (w2 & [[]|e] & Ha & H); [|by destruct H].
  apply restoration_pure in Ha as ->.
  apply M_bind_inv in H as (w3 & [v|e] & Hg & H); [|by destruct H]. injection Hg as <- <-.
  apply M_bind_inv in H as (w4 & [[]|e] & Hu & H); [|by destruct H]. apply unless_inv in Hu as [-> _].
  apply M_bind_inv in H as (w5 & [m|e] & Hm & H); [|by destruct H].
  assert (w5 = w1) as ->.
  { unfold requireMachine, mbind, M_bind, gets in Hm. destruct (machineAt _ _) as [m'|]; [|done].
    destruct (m_consumed m'); [by injection Hm as ->|done]. }
  destruct (findOpId (w_entries w1) (sp_opId spec)) as [s|] eqn:Hfind.
  { injection H as <- <- <-. by apply findOpId_recorded. }
  apply M_bind_inv in H as (w6 & [[]|e] & Hu & H); [|by destruct H]. apply unless_inv in Hu as [-> _].
  destruct (m_postIntentCloser m) as [c|].
  - destruct (bool_decide _); [|done].
    apply M_bind_inv in H as (w7 & [a|e] & _ & H); [|by destruct H]. done.
  - apply M_bind_inv in H as (w6 & [[]|e] & Hu & H); [|by destruct H]. apply unless_inv in Hu as [-> _].
    apply M_bind_inv in H as (w7 & [a|e] & Happ & H); [|by destruct H].
    injection H as <- <- <-. by eapply append_payload_recorded.
Qed.

(** ** Contacts with the provider *)

Definition is_truth (c : Call) : Prop := match c with call_truth _ _ _ => True | _ => False end.

(** The computation does not contact the provider. *)
Definition quiet {A} (m : D A) : Prop := ∀ w w' r, m w = (w', r) → wd_calls w' = wd_calls w.

(** A contact trace with at most one send, the last contact, whose attempt was
    recorded when it left; [L] holds of the contacts before it and of its request. *)
Definition sends_last_trace (intentSeq : N) (L : list Call → EffectDispatchRequest → Prop)
    (new : list Call) : Prop :=
  Forall is_truth new ∨
  ∃ pre req j, new = pre ++ [call_dispatch req j] ∧ Forall is_truth pre ∧
    recorded (attempt_opId intentSeq (dr_ordinal req)) (dr_attemptSeq req) j ∧ L pre req.

Definition sends_last {A} (intentSeq : N) (L : list Call → EffectDispatchRequest → Prop) (m : D A) : Prop :=
  ∀ w w' r, m w = (w', r) → ∃ new, wd_calls w' = wd_calls w ++ new ∧ sends_last_trace intentSeq L new.

Lemma D_bind_inv {A B} (m : D A) (k : A → D B) w w' r :
  (m ≫= k) w = (w', r) →
  ∃ w1 r1, m w = (w1, r1) ∧
    match r1 with Ok a => k a w1 = (w', r) | Err e => w' = w1 ∧ r = Err e end.
Proof.
  unfold mbind, D_bind. destruct (m w) as [w1 [a|e]] eqn:E; intros H; exists w1; eexists; split; try done.
  by injection H as <- <-.
Qed.

Lemma quiet_ret {A} (a : A) : quiet (mret a).
Proof. by intros w w' r [= <- _]. Qed.

Lemma quiet_raise {A} e : quiet (@raise A e).
Proof. by intros w w' r [= <- _]. Qed.

Lemma quiet_lane {A} (m : M A) : quiet (lane m).
Proof. intros w w' r. unfold lane. destruct (m _) as [wr [a|e]]; by intros [= <- _]. Qed.

Lemma quiet_bind {A B} (m : D A) (k : A → D B) : quiet m → (∀ a, quiet (k a)) → quiet (m ≫= k).
Proof.
  intros Hm Hk w w' r (w1 & [a|e] & H1 & H2)%D_bind_inv.
  - rewrite (Hk _ _ _ _ H2). by eapply Hm.
  - destruct H2 as [-> _]. by eapply Hm.
Qed.

Create HintDb contacts.
#[export] Hint Resolve quiet_ret quiet_raise quiet_lane quiet_bind : contacts.

(** Silence, following the branches of the code. *)
Ltac quiet_tac :=
  repeat first
    [ apply quiet_ret | apply quiet_raise | apply quiet_lane
    | apply quiet_bind; [|intros ?]
    | match goal with |- quiet (match ?x with _ => _ end) => destruct x end
    | solve [auto with contacts] ].

Section Contacts.
Context (validate : json → json → bool * option string) (writer_now : string)
  (restorationGeneration : option Z) (date_parse : string → option Z) (iso_string : Z → option string)
  (message : LaneError → string) (adapter : EffectAdapter) (runId : string)
  (verifyReceipt : EffectReceiptObservation → Verification) (now : string) (attemptTtlMs : Z)
  (intentSeq : N).

Abbreviation Dispatch := (dispatch validate writer_now restorationGeneration date_parse iso_string
  adapter runId verifyReceipt now attemptTtlMs intentSeq).
Abbreviation Probed := (probedTruth validate writer_now adapter runId).
Implicit Types (L : list Call → EffectDispatchRequest → Prop).

Lemma quiet_notAfter : quiet (notAfter date_parse iso_string now attemptTtlMs).
Proof. unfold notAfter. quiet_tac. Qed.

Lemma quiet_machine : quiet (machine validate intentSeq).
Proof. unfold machine. quiet_tac. Qed.
#[local] Hint Resolve quiet_machine quiet_notAfter : contacts.

Lemma quiet_settle : quiet (settleCloserAfterConfirm validate writer_now intentSeq).
Proof. unfold settleCloserAfterConfirm. quiet_tac. Qed.
#[local] Hint Resolve quiet_settle : contacts.

Lemma quiet_receipt tag o a : quiet (recordReceipt validate writer_now verifyReceipt intentSeq tag o a).
Proof. unfold recordReceipt. quiet_tac. Qed.
#[local] Hint Resolve quiet_receipt : contacts.

Lemma quiet_after_send a r : quiet (after_send validate writer_now verifyReceipt intentSeq a r).
Proof. unfold after_send. quiet_tac. Qed.
#[local] Hint Resolve quiet_after_send : contacts.

Lemma quiet_quarantine reason : quiet (quarantine validate writer_now intentSeq reason).
Proof. unfold quarantine. quiet_tac. Qed.

Lemma quiet_close_open s o d : quiet (close_open validate writer_now intentSeq s o d).
Proof. unfold close_open. quiet_tac. Qed.
#[local] Hint Resolve quiet_quarantine quiet_close_open : contacts.

Lemma quiet_close_if_open s o d : quiet (close_if_open validate writer_now intentSeq s o d).
Proof. unfold close_if_open. quiet_tac. Qed.

Lemma quiet_recovered n o a : quiet (recovered_receipt validate writer_now verifyReceipt intentSeq n o a).
Proof. unfold recovered_receipt. quiet_tac. Qed.
#[local] Hint Resolve quiet_close_if_open quiet_recovered : contacts.

Lemma quiet_sends {A} L (m : D A) : quiet m → sends_last intentSeq L m.
Proof. intros Hm w w' r H%Hm. exists []. rewrite app_nil_r. split; [done|]. by left. Qed.

Lemma sends_mono {A} L L' (m : D A) :
  (∀ pre req, L pre req → L' pre req) → sends_last intentSeq L m → sends_last intentSeq L' m.
Proof.
  intros HL Hm w w' r H. destruct (Hm _ _ _ H) as (new & Hc & Ht). exists new. split; [done|].
  destruct Ht as [Ht|(pre & req & j & ? & ? & ? & ?)]; [by left|right]. naive_solver.
Qed.

Lemma sends_after_quiet {A B} L (m : D A) (k : A → D B) :
  quiet m → (∀ a, sends_last intentSeq L (k a)) → sends_last intentSeq L (m ≫= k).
Proof.
  intros Hm Hk w w' r (w1 & [a|e] & H1 & H2)%D_bind_inv.
  - rewrite <- (Hm _ _ _ H1). by eapply Hk.
  - destruct H2 as [-> _]. exists []. rewrite app_nil_r. split; [by eapply Hm|by left].
Qed.

Lemma sends_then_quiet {A B} L (m : D A) (k : A → D B) :
  sends_last intentSeq L m → (∀ a, quiet (k a)) → sends_last intentSeq L (m ≫= k).
Proof.
  intros Hm Hk w w' r (w1 & [a|e] & H1 & H2)%D_bind_inv.
  - rewrite (Hk _ _ _ _ H2). by eapply Hm.
  - destruct H2 as [-> _]. by eapply Hm.
Qed.

(** The dispatcher's own sends: one, after its attempt, under the row's key. *)
Definition own_send (pre : list Call) (req : EffectDispatchRequest) : Prop :=
  pre = [] ∧ dr_idempotencyKey req = idempotencyKey_for adapter (dr_intent req).

Lemma dispatch_sends : sends_last intentSeq own_send Dispatch.
Proof.
  unfold dispatch. apply sends_after_quiet; [auto with contacts|]. intros m.
  apply sends_after_quiet; [auto with contacts|]. intros deadline w w' r H.
  apply D_bind_inv in H as (w1 & [o|e] & H1 & H2).
  2:{ destruct H2 as [-> _]. exists []. rewrite app_nil_r. split; [by eapply quiet_lane|by left]. }
  pose proof (quiet_lane _ _ _ _ H1) as Hc. destruct o as [t|seq b].
  { injection H2 as <- _. exists []. rewrite app_nil_r. split; [done|by left]. }
  assert (recorded (attempt_opId intentSeq (N.of_nat (length (m_attempts m)) + 1)) seq
            (w_journal (wd_writer w1))) as Hrec.
  { unfold lane in H1. destruct (openAttempt _ _ _ _ _ _) as [wr [x|e]] eqn:Ho; [|done].
    injection H1 as <- ->. apply openAttempt_recorded in Ho. exact Ho. }
  apply D_bind_inv in H2 as (w2 & r2 & Hs & H2). injection Hs as <- <-.
  apply (quiet_bind _ _ (quiet_lane _)) in H2; [|intros ?; apply quiet_after_send].
  rewrite H2. cbn [wd_calls]. rewrite Hc. eexists. split; [done|]. right.
  eexists [], _, _. split_and!; [done|constructor| |by split]. exact Hrec.
Qed.

(** A probe contacts the provider at most once, and returns what it was told. *)
Lemma probed_contact m s w w' r :
  Probed m s w = (w', r) →
  (wd_calls w' = wd_calls w ∧ r = Ok None) ∨
  ∃ p q a, wd_calls w' = wd_calls w ++ [call_truth p q a] ∧
    ∀ x, r = Ok x → ∃ y, x = Some y ∧ a = inl y.
Proof.
  intros (w1 & r1 & H1 & H2)%D_bind_inv.
  assert ((wd_calls w1 = wd_calls w ∧ r1 = Ok None) ∨
    ∃ p q a, wd_calls w1 = wd_calls w ++ [call_truth p q a] ∧
      r1 = match a with inl a => Ok (Some a) | inr t => Err (adapter_threw t) end) as Ht.
  { unfold providerTruth in H1.
    destruct (ad_closeAcceptance adapter) as [cl|], (ad_lookup adapter) as [lk|];
      try destruct (bool_decide _); try (injection H1 as <- <-; by left);
      injection H1 as <- <-; right; eauto 10. }
  destruct Ht as [[Hc ->]|(p & q & [a|t] & Hc & ->)].
  - injection H2 as <- <-. by left.
  - right. exists p, q, (inl a). split.
    + rewrite <- Hc. revert H2. apply quiet_bind; [apply quiet_lane|intros ?; apply quiet_ret].
    + apply D_bind_inv in H2 as (w2 & [x|e] & _ & H2).
      * injection H2 as _ <-. intros y [= <-]. eauto.
      * destruct H2 as [_ ->]. done.
  - destruct H2 as [-> ->]. right. by exists p, q, (inr t).
Qed.

Lemma sends_after_probe {B} L m s (k : option EffectLookupAnswer → D B) :
  sends_last intentSeq L (k None) →
  (∀ y p q, sends_last intentSeq (fun pre req => L (call_truth p q (inl y) :: pre) req) (k (Some y))) →
  sends_last intentSeq L (Probed m s ≫= k).
Proof.
  intros Hn Hs w w' r (w1 & r1 & H1 & H2)%D_bind_inv.
  destruct (probed_contact _ _ _ _ _ H1) as [[Hc ->]|(p & q & a & Hc & Ha)].
  - rewrite <- Hc. by eapply Hn.
  - destruct r1 as [x|e].
    + destruct (Ha x eq_refl) as (y & -> & ->).
      destruct (Hs y p q _ _ _ H2) as (new & Hnew & Ht). rewrite Hnew, Hc, <- app_assoc.
      eexists. split; [done|]. destruct Ht as [Ht|(pre & req & j & -> & Hp & Hr & HL)].
      * left. by constructor.
      * right. exists (call_truth p q (inl y) :: pre), req, j. split_and!; try done. by constructor.
    + destruct H2 as [-> _]. rewrite Hc. eexists. split; [done|]. left. by repeat constructor.
Qed.

(** A provider's denial. *)
Definition denies (c : Call) : Prop :=
  match c with call_truth _ _ (inl (answer_absent _)) => True | _ => False end.

(** What licenses a send after the contacts [pre], on the machine a recovery
    started from: nothing was ever ambiguous, or the provider deduplicates by the
    key the request carries, or the lookup row's fence holds. *)
Definition fenced (m : EffectMachine) (pre : list Call) (req : EffectDispatchRequest) : Prop :=
  (open_attempt m = None ∧ m_state m = m_intent ∧ pre = []) ∨
  (row adapter = row_idempotency_key ∧
   dr_idempotencyKey req = Some (effectIdempotencyKey (dr_intent req))) ∨
  (row adapter = row_lookup ∧ Forall denies pre ∧
   (qualification adapter ≠ Some acceptance_closing ∨
    ∃ p q, pre = [call_truth p q (inl (answer_absent true))])).

Abbreviation Redispatch := (redispatch validate writer_now restorationGeneration date_parse iso_string
  adapter runId verifyReceipt now attemptTtlMs intentSeq).

Lemma redispatch_sends : sends_last intentSeq own_send Redispatch.
Proof. unfold redispatch. apply sends_then_quiet; [apply dispatch_sends|intros ?; apply quiet_ret]. Qed.

(** A re-dispatch of a keyed provider carries the key. *)
Lemma keyed_sends m :
  row adapter = row_idempotency_key → sends_last intentSeq (fenced m) Redispatch.
Proof.
  intros Hrow. eapply sends_mono; [|apply redispatch_sends]. intros pre req [-> Hk].
  right. left. split; [done|]. rewrite Hk. unfold idempotencyKey_for. by rewrite Hrow.
Qed.

(** A re-dispatch after a denial of the lookup row. *)
Lemma denied_sends m p q closed :
  row adapter = row_lookup → (qualification adapter ≠ Some acceptance_closing ∨ closed = true) →
  sends_last intentSeq
    (fun pre req => fenced m (call_truth p q (inl (answer_absent closed)) :: pre) req) Redispatch.
Proof.
  intros Hrow Hq. eapply sends_mono; [|apply redispatch_sends]. intros pre req [-> Hk].
  right. right. split; [done|]. split; [by repeat constructor|].
  destruct Hq as [Hq| ->]; [by left|right; by exists p, q].
Qed.

#[local] Hint Resolve quiet_quarantine quiet_close_open quiet_close_if_open quiet_recovered
  quiet_machine quiet_notAfter : contacts.

Ltac silent := apply quiet_sends; quiet_tac.

Lemma recover_open_sends m open :
  sends_last intentSeq (fenced m)
    (recover_open validate writer_now restorationGeneration date_parse iso_string adapter runId
       verifyReceipt now attemptTtlMs intentSeq m open).
Proof.
  unfold recover_open. destruct (row adapter) eqn:Hrow.
  - apply sends_after_quiet; [auto with contacts|intros []]. by apply keyed_sends.
  - apply sends_after_probe; [silent|]. intros [receipt|closed] p q; [silent|].
    destruct (bool_decide_reflect (qualification adapter = Some acceptance_closing)) as [Hq|Hq].
    + destruct closed; cbn [negb]; [|silent].
      apply sends_after_quiet; [auto with contacts|intros []]. apply denied_sends; auto.
    + apply sends_after_quiet; [auto with contacts|intros []]. apply denied_sends; auto.
  - silent.
Qed.

Lemma recover_unknown_sends m :
  sends_last intentSeq (fenced m)
    (recover_unknown validate writer_now restorationGeneration date_parse iso_string adapter runId
       verifyReceipt now attemptTtlMs intentSeq m).
Proof.
  unfold recover_unknown. destruct (row adapter) eqn:Hrow; [by apply keyed_sends| |silent].
  apply sends_after_probe.
  - destruct (bool_decide_reflect (qualification adapter = Some acceptance_closing)) as [Hq|Hq];
      cbn [leaves_open andb]; [silent|].
    eapply sends_mono; [|apply redispatch_sends]. intros pre req [-> _].
    right. right. split_and!; [done|constructor|by left].
  - intros [receipt|closed] p q; [silent|].
    destruct (bool_decide_reflect (qualification adapter = Some acceptance_closing)) as [Hq|Hq];
      [|apply denied_sends; auto].
    destruct closed; cbn [leaves_open negb andb]; [apply denied_sends; auto|silent].
Qed.

Lemma under_closer_sends m c :
  sends_last intentSeq (fun _ _ => False)
    (reconcileUnderCloser validate writer_now restorationGeneration date_parse iso_string adapter runId
       verifyReceipt now attemptTtlMs intentSeq m c).
Proof.
  unfold reconcileUnderCloser. destruct (bool_decide _); [silent|].
  apply sends_after_probe; [silent|]. intros [receipt|[]] p q; silent.
Qed.

(** What the machine of a refreshed fold is. *)
Lemma machine_inv w w' m :
  machine validate intentSeq w = (w', Ok m) →
  ∃ F, newEffectLaneFold validate (w_journal (wd_writer (env_step w))) = Ok F ∧
    machineAt F intentSeq = Some m ∧ m_consumed m = true.
Proof.
  intros (w1 & [F|e] & H1 & H2)%D_bind_inv; [|by destruct H2].
  unfold lane, refresh, mbind, M_bind, reload, gets in H1.
  destruct (newEffectLaneFold _ _) as [F'|e]; [|done]. injection H1 as <- <-. exists F'.
  split; [done|]. cbn in H2. destruct (machineAt F' intentSeq) as [m'|]; [|done].
  destruct (m_consumed m') eqn:Hc; [|done]. by injection H2 as _ ->.
Qed.

Lemma recoverInner_sends w w' r :
  recoverInner validate writer_now restorationGeneration date_parse iso_string adapter runId
    verifyReceipt now attemptTtlMs intentSeq w = (w', r) →
  ∃ new, wd_calls w' = wd_calls w ++ new ∧
    sends_last_trace intentSeq
      (fun pre req => ∃ F m,
         newEffectLaneFold validate (w_journal (wd_writer (env_step w))) = Ok F ∧
         machineAt F intentSeq = Some m ∧ m_consumed m = true ∧
         m_terminal m = None ∧ m_postIntentCloser m = None ∧ fenced m pre req) new.
Proof.
  intros (w1 & [m|e] & H1 & H2)%D_bind_inv.
  2:{ destruct H2 as [-> _]. exists []. rewrite app_nil_r. split; [by eapply quiet_machine|by left]. }
  rewrite <- (quiet_machine _ _ _ H1). destruct (machine_inv _ _ _ H1) as (F & HF & Hm & Hc).
  destruct (m_terminal m) as [t|] eqn:Ht.
  { exists []. rewrite app_nil_r. split; [by eapply quiet_ret|by left]. }
  assert (∀ A (k : D A) r, sends_last intentSeq (fenced m) k → m_postIntentCloser m = None →
    k w1 = (w', r) → ∃ new, wd_calls w' = wd_calls w1 ++ new ∧ sends_last_trace intentSeq
      (fun pre req => ∃ F m, newEffectLaneFold validate (w_journal (wd_writer (env_step w))) = Ok F ∧
         machineAt F intentSeq = Some m ∧ m_consumed m = true ∧
         m_terminal m = None ∧ m_postIntentCloser m = None ∧ fenced m pre req) new) as Hgen.
  { intros A k r0 Hk Hcl Hrun.
    eapply (sends_mono (fenced m)) in Hk; [by eapply Hk|]. intros pre req Hf. by exists F, m. }
  destruct (m_postIntentCloser m) as [c|] eqn:Hcl.
  - eapply (sends_mono (fun _ _ => False)) in H2; [exact H2| |apply under_closer_sends]. done.
  - destruct (open_attempt m) as [open|] eqn:Hop; [eapply Hgen; [apply recover_open_sends|done..]|].
    destruct (m_state m) eqn:Hst; try (eapply Hgen; [|done|exact H2]).
    + eapply sends_mono; [|apply redispatch_sends]. intros pre req [-> _]. by left.
    + silent.
    + apply sends_after_probe; [silent|]. intros [] p q; silent.
    + apply recover_unknown_sends.
    + silent.
Qed.
End Contacts.


(** ** Closed machines *)

(** A recovery of a closed effect contacts nobody and appends nothing. *)
Lemma closed_machine_is_left_alone validate writer_now generation date_parse iso_string message adapter
    runId verifyReceipt now ttl intentSeq w F m t :
  newEffectLaneFold validate (w_journal (wd_writer (env_step w))) = Ok F →
  machineAt F intentSeq = Some m → m_consumed m = true → m_terminal m = Some t →
  let out := recover validate writer_now generation date_parse iso_string message adapter runId
               verifyReceipt now ttl intentSeq w in
  out.2 = Ok (rec_noop ("already closed '" +:+ terminal_text (te_terminal t) +:+ "'")) ∧
  wd_calls out.1 = wd_calls w ∧
  w_journal (wd_writer out.1) = w_journal (wd_writer (env_step w)).
Proof.
  intros HF Hm Hc Ht out. subst out. unfold recover, recoverInner, machine, lane, refresh, mbind, D_bind, M_bind, gets, reload.
  rewrite HF. cbn. rewrite Hm, Hc. cbn. by rewrite Ht.
Qed.

(** ** Runs of a demonstration provider *)

Definition demo_clock (text : string) : option Z := Some 0%Z.
Definition demo_iso (t : Z) : option string := Some "2030-01-02".

(** A provider of the row that takes every send and gives no receipt. *)
Definition taking_provider (r : EffectCapabilityRow) : EffectAdapter :=
  mkAdapter (mkDescriptor "p" r None) (fun _ _ => inl (res_accepted None None)) None None.

Definition demo_world (entries : list JournalEntry) (rounds : list Round) : World :=
  mkWorld (demo_writer entries rounds) [] [].

Definition demo_dispatch (r : EffectCapabilityRow) : D EffectDispatchReport :=
  dispatch any_schema "now" None demo_clock demo_iso (taking_provider r) "run"
    (fun _ => unverified) "now" 60000 3.

Definition demo_recover (r : EffectCapabilityRow) : D EffectRecoveryReport :=
  recover any_schema "now" None demo_clock demo_iso a_writer_error (taking_provider r) "run"
    (fun _ => unverified) "now" 60000 3.

(** The sends of a run, as attempt positions. *)
Definition sent_attempts (w : World) : list N :=
  omap (fun c => match c with call_dispatch req _ => Some (dr_attemptSeq req) | _ => None end) (wd_calls w).

(** A crash left an attempt open; the key deduplicates, so recovery sends again. *)
Definition crashed : World := demo_world (take 5 demo_payment) [].

Definition recovered_run : World * result DError EffectRecoveryReport :=
  demo_recover row_idempotency_key crashed.


(** ** A send the journal forgets

    The attempt loses the tail to a revocation: the fold calls it invalid, the
    dispatcher sends on it, and the recovery that follows cancels the effect as one
    never sent.  A second dispatch finds the operation id and sends again, on a
    provider without any fence. *)
Definition raced_dispatch : World * result DError EffectDispatchReport :=
  demo_dispatch row_neither
    (demo_world paid_intent [mkRound [revocation_of 4 1] (Threw journal_order_violation false) []]).

Example sent_effect_is_cancelled :
  raced_dispatch.2 = Ok (rep_awaiting_receipt 5) ∧ sent_attempts raced_dispatch.1 = [5] ∧
  (demo_recover row_neither raced_dispatch.1).2 = Ok (rec_cancelled 7) ∧
  (demo_dispatch row_neither raced_dispatch.1).2 = Ok (rep_awaiting_receipt 5) ∧
  sent_attempts (demo_dispatch row_neither raced_dispatch.1).1 = [5; 5].
Proof. split_and!; vm_compute; reflexivity. Qed.
