(* ===== verification/EffectReconcile.v ===== *)
(** * The effect reconciler (packages/effects/src/reconciler.ts)

    The sweep that bounds every open effect: a machine past one of its journaled
    budgets is quarantined, the others are handed to the dispatcher's recovery; and
    the reconciliation that releases a restored epoch.  The dispatcher is a
    parameter, met through the interface [Recoverer]. *)
From S2P Require Import Prelude Json JsMap Entries EffectTypes EffectFold EffectWriter EffectReceipts EffectDispatch.

Record EffectSweepReport := mkSweep {
  sw_swept : N;
  sw_quarantined : list (N * string);
  sw_recovered : list (N * EffectRecoveryReport);
  sw_waiting : N;
  sw_authorizationTimeouts : N;
}.

Record RestorationReport := mkRestoration {
  rr_unreconstructable : list string;
  rr_rangeQuarantined : bool;
  rr_sweep : EffectSweepReport;
  rr_completionSeq : N;
}.

(** The counters and lists of the report under construction. *)
Definition count_swept (r : EffectSweepReport) : EffectSweepReport :=
  mkSweep (sw_swept r + 1) (sw_quarantined r) (sw_recovered r) (sw_waiting r)
    (sw_authorizationTimeouts r).
Definition count_waiting (r : EffectSweepReport) : EffectSweepReport :=
  mkSweep (sw_swept r) (sw_quarantined r) (sw_recovered r) (sw_waiting r + 1)
    (sw_authorizationTimeouts r).
Definition push_quarantined (r : EffectSweepReport) (q : N * string) : EffectSweepReport :=
  mkSweep (sw_swept r) (sw_quarantined r ++ [q]) (sw_recovered r) (sw_waiting r)
    (sw_authorizationTimeouts r).
Definition push_recovered (r : EffectSweepReport) (q : N * EffectRecoveryReport) : EffectSweepReport :=
  mkSweep (sw_swept r) (sw_quarantined r) (sw_recovered r ++ [q]) (sw_waiting r)
    (sw_authorizationTimeouts r).

(** [n > v] for an integer [n] and a number [v] of the journal. *)
Definition exceeds (n : Z) (v : json) : bool :=
  match v with
  | JNum m => (m <? n)%Z
  | JFrac num den => (num <? n * Zpos den)%Z
  | _ => false
  end.

Definition quarantine_opId (tag : string) (intentSeq : N) : string :=
  "quarantine:" +:+ tag +:+ ":" +:+ dec_of_N intentSeq.

Section Reconciler.
(** The writer's parameters, [Date.parse], the text of a number of the journal, the
    dispatcher if one is given, and the clock. *)
Variable validate : json → json → bool * option string.
Variable writer_now : string.
Variable date_parse : string → option Z.
Variable number_text : json → string.
Variable dispatcher : option (N → D EffectRecoveryReport).
Variable now : string.

Definition quarantine (intentSeq : N) (opTag reason : string) : D unit :=
  _ ← lane (appendTerminal validate writer_now intentSeq (quarantine_opId opTag intentSeq)
              quarantined (Some reason) None);
  mret tt.

(** ** Exhausted budgets *)

Definition past_deadline (m : EffectMachine) : option (string * string) :=
  let by_ := b_reconcileBy (i_budgets (m_decision m)) in
  if String.ltb by_ now then
    Some ("reconcile-by",
          "reconcileBy " +:+ by_ +:+ " crossed in state '" +:+ state_text (m_state m) +:+ "'; "
          +:+ "the machine cannot loiter in a non-terminal state past its overall deadline")
  else None.

Definition in_conflict (m : EffectMachine) : option (string * string) :=
  match m_pendingConflict m with
  | Some _ =>
      Some ("conflict",
            "a conflicting duplicate receipt (same logical key, different provider identity "
            +:+ "or amount) arrived before any terminal; human disposition decides which is real")
  | None => None
  end.

(** When the provider accepted. *)
Definition accepted_at (m : EffectMachine) : option string :=
  find_first (fun a => bool_decide (at_outcome a = Some accepted)) (m_attempts m) ≫= at_outcomeAt.

Definition waited_longer (since : string) (wait : json) : bool :=
  match date_parse now, date_parse since with
  | Some t, Some s => exceeds (t - s) wait
  | _, _ => false
  end.

Definition receipt_overdue (m : EffectMachine) : option (string * string) :=
  let wait := b_receiptWaitMs (i_budgets (m_decision m)) in
  match m_state m, accepted_at m with
  | m_awaiting_receipt, Some since =>
      if waited_longer since wait then
        Some ("receipt-wait",
              "the provider accepted at " +:+ since +:+ " and no verifiable receipt arrived within "
              +:+ number_text wait +:+ " ms")
      else None
  | _, _ => None
  end.

Definition attempts_spent (m : EffectMachine) : option (string * string) :=
  let limit := b_attempts (i_budgets (m_decision m)) in
  match m_state m with
  | m_intent =>
      if (limit <=? Z.of_nat (length (m_attempts m)))%Z then
        Some ("attempts", "the attempt budget (" +:+ dec_of_Z limit +:+ ") is exhausted")
      else None
  | _ => None
  end.

Definition lookups_spent (m : EffectMachine) : option (string * string) :=
  let limit := b_lookups (i_budgets (m_decision m)) in
  match m_state m with
  | m_unknown =>
      if (limit <=? Z.of_nat (length (m_probes m)))%Z then
        Some ("lookups", "the lookup budget (" +:+ dec_of_Z limit +:+ ") is exhausted with "
                         +:+ "the outcome still unknown")
      else None
  | _ => None
  end.

(** The first exhausted budget, in the order the code asks. *)
Fixpoint first_of {A} (l : list (option A)) : option A :=
  match l with [] => None | Some a :: _ => Some a | None :: l => first_of l end.

Definition exhaustion (m : EffectMachine) : option (string * string) :=
  first_of [past_deadline m; in_conflict m; receipt_overdue m; attempts_spent m; lookups_spent m].

(** ** Authorizations that can no longer arrive *)

Definition has_resolution (entries : list JournalEntry) (seq : N) : bool :=
  existsb (fun e => bool_decide (e_kind e = KResolution)
                    && match e_resolution e with Some r => (r_target r =? seq)%N | None => false end)
    entries.

Definition timeout_reason (seq : N) (deadlineAt : string) : string :=
  "the effect authorization at seq " +:+ dec_of_N seq +:+ " crossed its deadline " +:+ deadlineAt
  +:+ " unresolved; the wait for authorization is bounded " +:+ "(RFC section 3.1, item 1)".

(** The key an overdue, unresolved effect authorization licenses. *)
Definition overdue_authorization (entries : list JournalEntry) (entry : JournalEntry)
    : option (string * string) :=
  match e_deadlineAt entry with
  | Some deadlineAt =>
      if bool_decide (e_kind entry = KApproval) && String.ltb deadlineAt now
         && negb (has_resolution entries (e_seq entry))
      then licensed ← approvalLicensedKey entry; Some (licensed, deadlineAt)
      else None
  | None => None
  end.

Fixpoint refuse_overdue (entries todo : list JournalEntry) (appended : N) : D N :=
  match todo with
  | [] => mret appended
  | entry :: todo =>
      match overdue_authorization entries entry with
      | None => refuse_overdue entries todo appended
      | Some (licensed, deadlineAt) =>
          landed ← lane (appendStandaloneRefusal validate writer_now
                           (op_of "authz-timeout" (e_seq entry)) licensed
                           (timeout_reason (e_seq entry) deadlineAt));
          refuse_overdue entries todo (if ar_replayed landed then appended else appended + 1)%N
      end
  end.

Definition refuseTimedOutAuthorizations (entries : list JournalEntry) : D N :=
  refuse_overdue entries entries 0.

(** ** The sweep *)

Definition entriesSnapshot : M (list JournalEntry) := _ ← reload validate; gets w_entries.

(** A recovery; a dispatch a restored epoch still disables counts as waiting. *)
Definition recover_machine (recover : N → D EffectRecoveryReport) (m : EffectMachine)
    (report : EffectSweepReport) : D EffectSweepReport := fun w =>
  match recover (m_intentSeq m) w with
  | (w', Ok (rec_waiting _)) => (w', Ok (count_waiting report))
  | (w', Ok (rec_noop _)) => (w', Ok report)
  | (w', Ok recovery) => (w', Ok (push_recovered report (m_intentSeq m, recovery)))
  | (w', Err (lane_threw (EffectLaneRefused rule))) =>
      if bool_decide (rule = "reconciliation-pending")
      then (w', Ok (count_waiting report))
      else (w', Err (lane_threw (EffectLaneRefused rule)))
  | (w', Err e) => (w', Err e)
  end.

Definition sweep_machine (recover : bool) (m : EffectMachine) (report : EffectSweepReport)
    : D EffectSweepReport :=
  let report := count_swept report in
  match exhaustion m with
  | Some (tag, reason) =>
      _ ← quarantine (m_intentSeq m) tag reason;
      mret (push_quarantined report (m_intentSeq m, reason))
  | None =>
      match dispatcher with
      | Some f => if recover then recover_machine f m report else mret (count_waiting report)
      | None => mret (count_waiting report)
      end
  end.

Fixpoint sweep_machines (recover : bool) (ms : list EffectMachine) (report : EffectSweepReport)
    : D EffectSweepReport :=
  match ms with
  | [] => mret report
  | m :: ms =>
      if negb (m_consumed m) || bool_decide (is_Some (m_terminal m))
      then sweep_machines recover ms report
      else report ← sweep_machine recover m report; sweep_machines recover ms report
  end.

Definition sweep (recover : bool) : D EffectSweepReport :=
  fold ← lane (refresh validate);
  entries ← lane entriesSnapshot;
  timeouts ← refuseTimedOutAuthorizations entries;
  sweep_machines recover (machines fold) (mkSweep 0 [] [] 0 timeouts).

(** ** After a restore *)

Definition unreconstructable_reason : string :=
  "a provider effect exists with no journaled intent after the restore; the " +:+
  "journal cannot reconstruct who licensed it, so it parks for disposition".

Definition range_reason : string :=
  "the provider offers no authoritative enumeration: the whole affected range " +:+
  "quarantines and automatic recovery inside it is forbidden".

Definition consumedKeys (fold : EffectLaneFold) : list string :=
  map (fun m => i_logicalKey (m_decision m)) (List.filter m_consumed (machines fold)).

(** The provider's effects, by logical key, that no consumed intent explains. *)
Fixpoint park_unknown (known effects : list string) (parked : list string) : D (list string) :=
  match effects with
  | [] => mret parked
  | key :: effects =>
      if bool_decide (key ∈ known) then park_unknown known effects parked
      else
        _ ← lane (appendStandaloneQuarantine validate writer_now ("unreconstructable:" +:+ key) key
                    unreconstructable_reason);
        park_unknown known effects (parked ++ [key])
  end.

(** What the host's [enumerate] answers: the logical keys, or what it threw. *)
Definition enumerated (answer : list string + string) : D (list string) :=
  match answer with inl keys => mret keys | inr text => raise (adapter_threw text) end.

Definition reconcileRestoration (enumerate : option (list string + string)) : D RestorationReport :=
  fold ← lane (refresh validate);
  match currentEpoch fold with
  | Some epoch =>
      if negb (ep_needsReconciliation epoch) || ep_reconciled epoch
      then raise (lane_threw (EffectLaneRefused "no-restoration-pending"))
      else
        '(parked, range) ←
          match enumerate with
          | Some answer =>
              effects ← enumerated answer;
              parked ← park_unknown (consumedKeys fold) effects [];
              mret (parked, false)
          | None =>
              _ ← lane (appendStandaloneQuarantine validate writer_now
                          (op_of "restoration-range" (ep_seq epoch)) (op_of "epoch" (ep_seq epoch))
                          range_reason);
              mret ([], true)
          end;
        swept ← sweep false;
        completion ← lane (appendReconciliationComplete validate writer_now
                             (op_of "reconciliation-complete" (ep_seq epoch)) (ep_seq epoch)
                             (Z.of_N (sw_swept swept)));
        mret (mkRestoration parked range swept (ar_seq completion))
  | None => raise (lane_threw (EffectLaneRefused "no-restoration-pending"))
  end.
End Reconciler.
