(* ===== verification/EffectSweep.v ===== *)
(** * The laws of the sweep (packages/effects/src/reconciler.ts)

    No exhausted effect stays open: a completed sweep closed every machine that was
    past one of its budgets, whatever the dispatcher and the other holders did in
    the meantime. *)
From S2P Require Import Prelude Json JsMap Entries Disposition Resolution EffectTypes EffectFold EffectLaws EffectConsume EffectStable EffectReplay EffectWriter EffectAppend.
From S2P Require Import EffectReceipts EffectDispatch EffectRecover EffectReconcile.

#[local] Open Scope N_scope.

(** ** Journals only grow *)

Definition grows {A} (m : M A) : Prop :=
  ∀ w w' r, m w = (w', r) → w_journal w `prefix_of` w_journal w'.

Definition journal (w : World) : list JournalEntry := w_journal (wd_writer w).

Definition Dgrows {A} (m : D A) : Prop :=
  ∀ w w' r, m w = (w', r) → journal w `prefix_of` journal w'.

(** What the reconciler asks of a dispatcher: recovering an effect only appends. *)
Class Recoverer (f : N → D EffectRecoveryReport) : Prop := {
  recoverer_grows : ∀ intentSeq, Dgrows (f intentSeq);
}.

Lemma grows_bind {A B} (m : M A) (k : A → M B) : grows m → (∀ a, grows (k a)) → grows (m ≫= k).
Proof.
  intros Hm Hk w w' r (w1 & [a|e] & H1 & H2)%M_bind_inv.
  - etrans; [by eapply Hm|by eapply Hk].
  - destruct H2 as [-> _]. by eapply Hm.
Qed.

Lemma grows_ret {A} (a : A) : grows (mret a).
Proof. by intros w w' r [= <- _]. Qed.

Lemma grows_throw {A} e : grows (@throw A e).
Proof. by intros w w' r [= <- _]. Qed.

Lemma grows_refuse {A} rule : grows (@refuse A rule).
Proof. apply grows_throw. Qed.

Lemma grows_gets {A} (g : Writer → A) : grows (gets g).
Proof. by intros w w' r [= <- _]. Qed.

Lemma grows_unless b rule : grows (unless b rule).
Proof. destruct b; [apply grows_ret|apply grows_throw]. Qed.

Lemma Dgrows_bind {A B} (m : D A) (k : A → D B) : Dgrows m → (∀ a, Dgrows (k a)) → Dgrows (m ≫= k).
Proof.
  intros Hm Hk w w' r (w1 & [a|e] & H1 & H2)%D_bind_inv.
  - etrans; [by eapply Hm|by eapply Hk].
  - destruct H2 as [-> _]. by eapply Hm.
Qed.

Lemma Dgrows_ret {A} (a : A) : Dgrows (mret a).
Proof. by intros w w' r [= <- _]. Qed.

Lemma Dgrows_raise {A} e : Dgrows (@raise A e).
Proof. by intros w w' r [= <- _]. Qed.

Lemma env_step_grows w : journal w `prefix_of` journal (env_step w).
Proof. by apply prefix_app_r. Qed.

(** A use of the writer that grows its journal. *)
Lemma lane_grows {A} (m : M A) w w' r :
  grows m → lane m w = (w', r) → journal (env_step w) `prefix_of` journal w'.
Proof.
  intros Hm. unfold lane. destruct (m (wd_writer (env_step w))) as [wr ra] eqn:E.
  intros [= <- _]. apply (Hm _ _ _ E).
Qed.

Lemma Dgrows_lane {A} (m : M A) : grows m → Dgrows (lane m).
Proof. intros Hm w w' r H%lane_grows; [|done]. etrans; [apply env_step_grows|exact H]. Qed.

Create HintDb growing.
#[export] Hint Resolve grows_ret grows_throw grows_refuse grows_gets grows_unless Dgrows_ret Dgrows_raise : growing.

Ltac growing :=
  repeat first
    [ solve [auto with growing]
    | apply grows_bind; [|intros ?] | apply Dgrows_bind; [|intros ?] | apply Dgrows_lane
    | match goal with
      | |- grows (match ?x with _ => _ end) => destruct x
      | |- Dgrows (match ?x with _ => _ end) => destruct x
      end ].

Section Growing.
Context (validate : json → json → bool * option string) (writer_now : string)
  (restorationGeneration : option Z).

Lemma grows_reload : grows (reload validate).
Proof. intros w w' r H. by destruct (reload_spec _ _ _ _ H) as (-> & _). Qed.

Lemma grows_laneAppend opId verdict :
  verdict_ok opId verdict → grows (laneAppend validate writer_now opId verdict).
Proof.
  intros Hv w w' r. unfold laneAppend, mbind, M_bind, gets.
  destruct (w_closed w); [by intros [= <- _]|by apply lane_loop_grows].
Qed.

Lemma grows_payload opId decisionType fields :
  grows (append_payload validate writer_now opId (decision_payload decisionType opId fields)).
Proof. apply grows_laneAppend, fixed_verdict_ok. Qed.

Lemma grows_terminal opId ref t key reason cause :
  grows (append_payload validate writer_now opId (terminal_payload opId ref t key reason cause)).
Proof. apply grows_payload. Qed.

Lemma grows_restoration : grows (assertRestorationCurrent restorationGeneration).
Proof. intros w w' r ->%restoration_pure. done. Qed.

Lemma grows_requireMachine s : grows (requireMachine s).
Proof. unfold requireMachine. growing. Qed.
#[local] Hint Resolve grows_reload grows_payload grows_terminal grows_restoration grows_requireMachine : growing.

Lemma grows_refresh : grows (refresh validate).
Proof. unfold refresh. growing. Qed.

Lemma grows_entriesSnapshot : grows (entriesSnapshot validate).
Proof. unfold entriesSnapshot. growing. Qed.

Lemma grows_openAttempt s spec : grows (openAttempt validate writer_now restorationGeneration s spec).
Proof. unfold openAttempt. growing. Qed.

Lemma grows_append_to_machine s ty op fields :
  grows (append_to_machine validate writer_now s ty op fields).
Proof. unfold append_to_machine. growing. Qed.

Lemma grows_appendTerminal s op t reason cause :
  grows (appendTerminal validate writer_now s op t reason cause).
Proof. unfold appendTerminal. growing. Qed.

Lemma grows_appendProbe s op p found closed :
  grows (appendProbe validate writer_now s op p found closed).
Proof. unfold appendProbe. growing. Qed.

Lemma grows_appendStandalone t op key reason :
  grows (appendStandalone validate writer_now t op key reason).
Proof. unfold appendStandalone. growing. Qed.
End Growing.

#[export] Hint Resolve grows_refresh grows_entriesSnapshot grows_openAttempt grows_append_to_machine
  grows_appendTerminal grows_appendProbe grows_appendStandalone : growing.

(** ** The dispatcher is a recoverer *)

Section DispatcherGrows.
Context (validate : json → json → bool * option string) (writer_now : string)
  (restorationGeneration : option Z) (date_parse : string → option Z) (iso_string : Z → option string)
  (message : LaneError → string) (adapter : EffectAdapter) (runId : string)
  (verifyReceipt : EffectReceiptObservation → Verification) (now : string) (attemptTtlMs : Z).

Lemma machine_grows s : Dgrows (machine validate s).
Proof. unfold machine. growing. Qed.

Lemma notAfter_grows : Dgrows (notAfter date_parse iso_string now attemptTtlMs).
Proof. unfold notAfter. growing. Qed.

Lemma send_grows req : Dgrows (send adapter req).
Proof. by intros w w' r [= <- _]. Qed.

Lemma ask_grows p q req : Dgrows (ask p q req).
Proof. by intros w w' r [= <- _]. Qed.
#[local] Hint Resolve machine_grows notAfter_grows send_grows ask_grows : growing.

Lemma receipt_grows s tag o a : Dgrows (recordReceipt validate writer_now verifyReceipt s tag o a).
Proof.
  unfold recordReceipt, appendReceipt, settleCloserAfterConfirm, appendIncident.
  growing.
Qed.
#[local] Hint Resolve receipt_grows : growing.

Lemma dispatch_grows s :
  Dgrows (dispatch validate writer_now restorationGeneration date_parse iso_string adapter runId
            verifyReceipt now attemptTtlMs s).
Proof. unfold dispatch, appendOutcome, after_send. growing. Qed.

Lemma probed_grows m s : Dgrows (probedTruth validate writer_now adapter runId m s).
Proof. unfold probedTruth, providerTruth. growing. Qed.

Lemma quarantine_grows s reason : Dgrows (EffectDispatch.quarantine validate writer_now s reason).
Proof. unfold EffectDispatch.quarantine. growing. Qed.

Lemma close_open_grows s a o d : Dgrows (close_open validate writer_now s a o d).
Proof. unfold close_open, appendOutcome. growing. Qed.
#[local] Hint Resolve dispatch_grows probed_grows quarantine_grows close_open_grows : growing.

Lemma recoverInner_grows s :
  Dgrows (recoverInner validate writer_now restorationGeneration date_parse iso_string adapter runId
            verifyReceipt now attemptTtlMs s).
Proof.
  unfold recoverInner, reconcileUnderCloser, recover_open, recover_awaiting, recover_unknown, redispatch,
    recovered_receipt, close_if_open.
  growing.
Qed.

#[export] Instance recover_recoverer :
  Recoverer (recover validate writer_now restorationGeneration date_parse iso_string message adapter runId
               verifyReceipt now attemptTtlMs).
Proof.
  split. intros s w w' r. unfold recover. destruct (recoverInner _ _ _ _ _ _ _ _ _ _ s w) as [w1 r1] eqn:H1.
  apply recoverInner_grows in H1.
  destruct r1 as [a|[[]| |]]; try by intros [= <- _].
  destruct (bool_decide _); [|by intros [= <- _]]. intros H2%quarantine_grows. by etrans.
Qed.
End DispatcherGrows.

(** ** A quarantine closes its machine *)

Lemma lane_read_opId a op d : readEffectLaneDecision a = Lane op d → has_opId op a = true.
Proof.
  unfold readEffectLaneDecision, has_opId. case_decide as Hk; [|done].
  rewrite bool_decide_eq_true_2 by done. cbn [andb].
  destruct (asRecord (e_value a)) as [m|]; cbn [default opt_prop mbind option_bind]; [|by cbn].
  unfold id.
  match goal with |- context [find_first ?p lane_readers] =>
    destruct (find_first p lane_readers) as [[n rd]|] end; [|done].
  unfold nonEmptyString. destruct (prop m "opId") as [[| | | |s| |]|]; try done.
  destruct (decide (s = "")); [done|].
  destruct (rd m); [|done]. intros [= -> _]. by apply bool_decide_eq_true_2.
Qed.

(** A journal's first entry under an operation id. *)
Lemma first_under x es op :
  (∃ a d, a ∈ es ∧ readEffectLaneDecision a = Lane op d) →
  ∃ p a q d, es = p ++ a :: q ∧ readEffectLaneDecision a = Lane op d ∧
    opIds (lane_entries x p) !! op = None.
Proof.
  induction es as [|e es IH] using rev_ind; [by intros (? & ? & ?%not_elem_of_nil & _)|].
  intros (a & d & Ha & Hr). destruct (opIds (lane_entries x es) !! op) as [s|] eqn:E.
  - apply opIds_known in E as (b & d' & Hb & _ & Hrb).
    destruct IH as (p & c & q & d2 & -> & ?); [eauto|]. exists p, c, (q ++ [e]), d2.
    by rewrite <- app_assoc.
  - apply elem_of_app in Ha as [Ha| ->%list_elem_of_singleton].
    + exfalso. destruct (opIds_first x es op ltac:(eauto)). congruence.
    + by exists es, e, [], d.
Qed.

(** Every entry under [op] is a quarantine of the intent, recorded after it. *)
Definition quarantines_of (op : string) (s : N) (es : list JournalEntry) : Prop :=
  ∀ e, e ∈ es → has_opId op e = true →
    s < e_seq e ∧ ∃ reason, e_value e = Some (terminal_payload op (Some s) quarantined None (Some reason) None).

Lemma quarantine_reads op s reason e :
  op ≠ "" → has_opId op e = true →
  e_value e = Some (terminal_payload op (Some s) quarantined None (Some reason) None) →
  readEffectLaneDecision e = Lane op (effect_terminal (Some s) None quarantined (Some (JStr reason)) None).
Proof.
  intros Hop Hid Hv. unfold has_opId in Hid. apply andb_true_iff in Hid as [Hk _].
  apply bool_decide_eq_true_1 in Hk. unfold readEffectLaneDecision. rewrite decide_True by done. rewrite Hv.
  destruct op as [|c op]; [done|]. by destruct s.
Qed.

Lemma quarantine_closes validate es F op s m :
  journal_wf es → newEffectLaneFold validate es = Ok F → op ≠ "" →
  (∃ e, e ∈ es ∧ has_opId op e = true) → quarantines_of op s es →
  machineAt F s = Some m → m_consumed m = true → is_Some (m_terminal m).
Proof.
  intros Hwf HF Hop (e0 & He0 & Hid0) Hq Hm Hc.
  pose proof (journal_wf_seqs _ Hwf) as Ho.
  destruct (lane_fold_inv _ _ _ Ho HF) as (r & Hr & HFeq & Hinv & Hfin).
  set (x := lane_context r es) in *.
  destruct (first_under x es op) as (p & e & q & d & Hes & Hrd & Hnone).
  { destruct (Hq e0 He0 Hid0) as (_ & reason & Hv). eauto using quarantine_reads. }
  pose proof (lane_read_opId _ _ _ Hrd) as Hid.
  assert (e ∈ es) as Hin by (rewrite Hes; set_solver).
  destruct (Hq e Hin Hid) as (Hlt & reason & Hv).
  rewrite (quarantine_reads _ _ _ _ Hop Hid Hv) in Hrd. injection Hrd as <-.
  destruct (machine_back es F r p q e Hes Ho Hfin Hinv s m Hlt Hm) as (m0 & Hm0 & Hev).
  assert (option_Forall2 evolves (jm_get (machinesByIntent (lane_entries x (p ++ [e]))) s)
            (jm_get (machinesByIntent F) s)) as Hafter.
  { apply (prefix_machines x (p ++ [e]) q).
    { replace ((p ++ [e]) ++ q) with es by (by rewrite Hes, <- app_assoc). exact Hfin. }
    intros a Ha. pose proof (after_e es p q e Hes Ho a Ha). lia. }
  unfold machineAt in Hm. rewrite Hm in Hafter. rewrite lane_entries_app in Hafter. cbn in Hafter.
  unfold applyEntry in Hafter. rewrite (quarantine_reads _ _ _ _ Hop Hid Hv), Hnone in Hafter.
  cbn in Hafter. unfold liveMachine in Hafter. cbn in Hafter. fold x in Hm0. rewrite Hm0 in Hafter.
  pose proof Hev as (Hseq & _ & _ & Hcon & Hterm & _). rewrite <- Hcon, Hc in Hafter.
  unfold applyTerminal in Hafter. destruct (m_terminal m0) as [t|] eqn:Ht.
  { destruct (Hterm t eq_refl). eauto. }
  cbn in Hafter. rewrite jm_get_set in Hafter. cbn in Hafter.
  assert (m_intentSeq m0 = s) as Hs0.
  { exact (lane_entries_keyed x p s m0 Hm0). }
  rewrite Hs0, decide_True in Hafter by done. inversion Hafter as [a b (_ & _ & _ & _ & Ht' & _)|]; subst.
  destruct (Ht' _ eq_refl). eauto.
Qed.

(** ** The loop *)

Section Sweep.
Context (validate : json → json → bool * option string) (writer_now : string)
  (date_parse : string → option Z) (number_text : json → string)
  (dispatcher : option (N → D EffectRecoveryReport)) (now : string).
Hypothesis recoverer : ∀ f, dispatcher = Some f → Recoverer f.

Abbreviation exhausted := (exhaustion date_parse number_text now).

(** The quarantine the report lists for a machine, if any. *)
Definition quarantined_of (m : EffectMachine) : option (N * string) :=
  (fun why => (m_intentSeq m, why.2)) <$> exhausted m.

Definition open_of (ms : list EffectMachine) : list EffectMachine :=
  List.filter (fun m => m_consumed m && bool_decide (m_terminal m = None)) ms.

Lemma appendTerminal_recorded s op t reason cause w w' a :
  appendTerminal validate writer_now s op t reason cause w = (w', Ok a) →
  recorded op (ar_seq a) (w_journal w').
Proof.
  unfold appendTerminal. intros H.
  apply M_bind_inv in H as (w1 & [u|e] & Hr & H); [|by destruct H]. apply reload_entries in Hr.
  apply M_bind_inv in H as (w2 & [m|e] & Hm & H); [|by destruct H].
  assert (w2 = w1) as ->.
  { unfold requireMachine, mbind, M_bind, gets in Hm. destruct (machineAt _ _) as [m'|]; [|done].
    destruct (m_consumed m'); [by injection Hm as ->|done]. }
  apply M_bind_inv in H as (w3 & [b|e] & Ha & H); [|by destruct H].
  unfold terminal_payload in Ha. apply append_payload_recorded in Ha; [|done].
  unfold mbind, M_bind, gets in H. destruct (laneClasses _ !! _) as [[]|]; try done; by injection H as <- <-.
Qed.

Lemma quarantine_recorded s tag reason w w' u :
  quarantine validate writer_now s tag reason w = (w', Ok u) →
  journal w `prefix_of` journal w' ∧ ∃ n, recorded (quarantine_opId tag s) n (journal w').
Proof.
  intros H. split.
  { revert H. apply Dgrows_bind; [apply Dgrows_lane; auto with growing|intros ?; apply Dgrows_ret]. }
  apply D_bind_inv in H as (w1 & [b0|e] & H & Hret); [|by destruct Hret]. injection Hret as <- _.
  unfold lane in H. destruct (appendTerminal _ _ _ _ _ _ _ _) as [wr [b|e]] eqn:Ha; [|done].
  injection H as <- <-. exists (ar_seq b). by eapply appendTerminal_recorded.
Qed.

Lemma recover_machine_spec f m rep w w' rep' :
  Recoverer f → recover_machine f m rep w = (w', Ok rep') →
  journal w `prefix_of` journal w' ∧ sw_swept rep' = sw_swept rep ∧
  sw_quarantined rep' = sw_quarantined rep.
Proof.
  intros Hf. unfold recover_machine. destruct (f (m_intentSeq m) w) as [w1 r1] eqn:E.
  apply recoverer_grows in E.
  destruct r1 as [[]|[[]| |]]; try (by intros [= <- <-]); try done.
  destruct (bool_decide _); [|done]. by intros [= <- <-].
Qed.

(** What one machine adds to the report and to the journal. *)
Lemma sweep_machine_spec recover m rep w w' rep' :
  sweep_machine validate writer_now date_parse number_text dispatcher now recover m rep w = (w', Ok rep') →
  journal w `prefix_of` journal w' ∧ sw_swept rep' = sw_swept rep + 1 ∧
  sw_quarantined rep' = sw_quarantined rep ++ option_list (quarantined_of m) ∧
  ∀ tag reason, exhausted m = Some (tag, reason) →
    ∃ n, recorded (quarantine_opId tag (m_intentSeq m)) n (journal w').
Proof.
  unfold sweep_machine, quarantined_of. destruct (exhausted m) as [[tag reason]|]; cbn [fmap option_fmap option_map].
  - intros (w1 & [u|e] & H1 & H2)%D_bind_inv; [|by destruct H2]. injection H2 as <- <-.
    apply quarantine_recorded in H1 as [Hg Hrec]. split_and!; [done..|]. by intros ? ? [= <- <-].
  - intros H. cbn. rewrite app_nil_r.
    assert (journal w `prefix_of` journal w' ∧ sw_swept rep' = sw_swept (count_swept rep) ∧
      sw_quarantined rep' = sw_quarantined (count_swept rep)) as (Hg & -> & ->); [|done].
    destruct dispatcher as [f|]; [|by injection H as <- <-].
    destruct recover; [|by injection H as <- <-]. by eapply recover_machine_spec; [apply recoverer|].
Qed.

Lemma sweep_machines_spec recover ms rep w w' rep' :
  sweep_machines validate writer_now date_parse number_text dispatcher now recover ms rep w = (w', Ok rep') →
  journal w `prefix_of` journal w' ∧
  sw_swept rep' = sw_swept rep + N.of_nat (length (open_of ms)) ∧
  sw_quarantined rep' = sw_quarantined rep ++ omap quarantined_of (open_of ms) ∧
  ∀ m tag reason, m ∈ open_of ms → exhausted m = Some (tag, reason) →
    ∃ n, recorded (quarantine_opId tag (m_intentSeq m)) n (journal w').
Proof.
  revert rep w. induction ms as [|m ms IH]; intros rep w; cbn [sweep_machines open_of List.filter].
  { intros [= <- <-]. cbn. rewrite app_nil_r. split_and!; [done|lia|done|].
    by intros ? ? ? ?%not_elem_of_nil. }
  fold (open_of ms).
  assert (negb (m_consumed m) || bool_decide (is_Some (m_terminal m)) =
          negb (m_consumed m && bool_decide (m_terminal m = None))) as ->.
  { destruct (m_consumed m), (m_terminal m); cbn; try done; by rewrite bool_decide_eq_true_2. }
  destruct (m_consumed m && _); cbn [negb]; [|by intros H%IH].
  intros (w1 & [rep1|e] & H1 & H2)%D_bind_inv; [|by destruct H2].
  apply sweep_machine_spec in H1 as (Hg1 & Hs1 & Hq1 & Hr1). apply IH in H2 as (Hg2 & Hs2 & Hq2 & Hr2).
  split_and!.
  - by etrans.
  - rewrite Hs2, Hs1. cbn [length]. lia.
  - rewrite Hq2, Hq1, <- app_assoc. f_equal. cbn [omap list_omap]. by destruct (quarantined_of m).
  - intros m' tag reason [->|Hm]%elem_of_cons; [|by eauto].
    intros Hex. destruct (Hr1 _ _ Hex) as [n Hn]. exists n. by eapply recorded_prefix.
Qed.

Lemma refuse_overdue_grows entries todo n :
  Dgrows (refuse_overdue validate writer_now now entries todo n).
Proof.
  revert n. induction todo as [|e todo IH]; intros n; cbn; [apply Dgrows_ret|].
  destruct (overdue_authorization now entries e) as [[]|]; [|apply IH].
  apply Dgrows_bind; [|intros; apply IH]. apply Dgrows_lane. unfold appendStandaloneRefusal.
  auto with growing.
Qed.
End Sweep.

Lemma refresh_inv validate w w' F :
  lane (refresh validate) w = (w', Ok F) →
  newEffectLaneFold validate (journal (env_step w)) = Ok F ∧ journal w' = journal (env_step w).
Proof.
  unfold lane, refresh, mbind, M_bind, reload, gets. fold (journal (env_step w)).
  destruct (newEffectLaneFold validate (journal (env_step w))) as [F'|e]; [|done]. by intros [= <- <-].
Qed.

Lemma open_machine validate es F m :
  ordered es → newEffectLaneFold validate es = Ok F → m ∈ openMachines F →
  machineAt F (m_intentSeq m) = Some m ∧ m_consumed m = true.
Proof.
  intros Ho HF Hm. destruct (lane_fold_inv _ _ _ Ho HF) as (r & _ & _ & _ & Hfin).
  pose proof (finalized_keyed _ _ (lane_entries_keyed _ _) Hfin) as Hkey.
  unfold openMachines in Hm. apply list_elem_of_In, filter_In in Hm as [Hm Hb].
  apply andb_true_iff in Hb as [Hc _]. apply list_elem_of_In, list_elem_of_omap in Hm as (k & _ & Hk).
  unfold machineAt. by rewrite (Hkey k m Hk).
Qed.


(** ** After a restore *)

Section Restoration.
Context (validate : json → json → bool * option string) (writer_now : string)
  (date_parse : string → option Z) (number_text : json → string)
  (dispatcher : option (N → D EffectRecoveryReport)) (now : string).

Lemma refuse_overdue_quiet entries todo n :
  quiet (refuse_overdue validate writer_now now entries todo n).
Proof.
  revert n. induction todo as [|e todo IH]; intros n; cbn; [apply quiet_ret|].
  destruct (overdue_authorization now entries e) as [[]|]; [|apply IH].
  apply quiet_bind; [apply quiet_lane|intros; apply IH].
Qed.

Lemma sweep_machines_quiet ms rep :
  quiet (sweep_machines validate writer_now date_parse number_text dispatcher now false ms rep).
Proof.
  revert rep. induction ms as [|m ms IH]; intros rep; cbn; [apply quiet_ret|].
  destruct (_ || _); [apply IH|]. apply quiet_bind; [|intros; apply IH].
  unfold sweep_machine, quarantine. destruct (exhaustion _ _ _ m) as [[]|]; [|destruct dispatcher; apply quiet_ret].
  repeat (apply quiet_bind; [|intros ?]); auto with contacts.
Qed.

Lemma sweep_quiet : quiet (sweep validate writer_now date_parse number_text dispatcher now false).
Proof.
  unfold sweep. repeat (apply quiet_bind; [|intros ?]); auto with contacts.
  - apply refuse_overdue_quiet.
  - apply sweep_machines_quiet.
Qed.

Lemma park_unknown_spec known effects parked w w' out :
  park_unknown validate writer_now known effects parked w = (w', Ok out) →
  wd_calls w' = wd_calls w ∧
  out = parked ++ List.filter (fun key => negb (bool_decide (key ∈ known))) effects.
Proof.
  revert parked w. induction effects as [|key effects IH]; intros parked w; cbn.
  { intros [= <- <-]. by rewrite app_nil_r. }
  destruct (bool_decide (key ∈ known)); cbn [negb]; [apply IH|].
  intros (w1 & [a|e] & H1 & H2)%D_bind_inv; [|by destruct H2].
  apply quiet_lane in H1. apply IH in H2 as [-> ->]. by rewrite H1, <- app_assoc.
Qed.
End Restoration.

(** The release of a restored epoch contacts no provider: it parks exactly the
    enumerated effects no consumed intent of the journal explains, or the whole
    range when there is nothing to enumerate, and only sweeps budgets. *)
Lemma restoration_parks_unexplained validate writer_now date_parse number_text dispatcher now enumerate
    w w' rep :
  reconcileRestoration validate writer_now date_parse number_text dispatcher now enumerate w = (w', Ok rep) →
  wd_calls w' = wd_calls w ∧
  ∃ F epoch, newEffectLaneFold validate (journal (env_step w)) = Ok F ∧ currentEpoch F = Some epoch ∧
    ep_needsReconciliation epoch = true ∧ ep_reconciled epoch = false ∧
    match enumerate with
    | Some answer => ∃ keys, answer = inl keys ∧ rr_rangeQuarantined rep = false ∧
        rr_unreconstructable rep =
          List.filter (fun key => negb (bool_decide (key ∈ consumedKeys F))) keys
    | None => rr_unreconstructable rep = [] ∧ rr_rangeQuarantined rep = true
    end.
Proof.
  intros (w1 & [F|e] & H1 & H)%D_bind_inv; [|by destruct H].
  pose proof (quiet_lane _ _ _ _ H1) as Hc1. apply refresh_inv in H1 as [HF _].
  destruct (currentEpoch F) as [epoch|] eqn:He; [|done].
  destruct (ep_needsReconciliation epoch) eqn:Hn; [|done]. destruct (ep_reconciled epoch) eqn:Hd; [done|].
  cbn [negb orb] in H. apply D_bind_inv in H as (w2 & [[parked range]|e] & H2 & H); [|by destruct H].
  apply D_bind_inv in H as (w3 & [swept|e] & H3 & H); [|by destruct H]. apply sweep_quiet in H3.
  apply D_bind_inv in H as (w4 & [c|e] & H4 & H); [|by destruct H]. apply quiet_lane in H4.
  injection H as <- <-. rewrite H4, H3.
  assert (wd_calls w2 = wd_calls w1 ∧ match enumerate with
    | Some answer => ∃ keys, answer = inl keys ∧ range = false ∧
        parked = List.filter (fun key => negb (bool_decide (key ∈ consumedKeys F))) keys
    | None => parked = [] ∧ range = true end) as [-> Hout].
  { destruct enumerate as [answer|].
    - apply D_bind_inv in H2 as (w5 & [keys|e] & H5 & H2); [|by destruct H2].
      apply D_bind_inv in H2 as (w6 & [out|e] & H6 & H2); [|by destruct H2]. injection H2 as <- <- <-.
      destruct answer as [keys'|]; [|done]. injection H5 as <- ->.
      apply park_unknown_spec in H6 as [-> ->]. eauto.
    - apply D_bind_inv in H2 as (w5 & [a|e] & H5 & H2); [|by destruct H2]. injection H2 as <- <- <-.
      by apply quiet_lane in H5. }
  split; [done|]. by exists F, epoch.
Qed.

(** ** Witnesses *)

Definition demo_number (v : json) : string := "n".

(** The dispatcher of the demonstration provider, as a recoverer. *)
Definition demo_dispatcher : option (N → D EffectRecoveryReport) :=
  Some (recover any_schema "now" None demo_clock demo_iso a_writer_error
          (taking_provider row_idempotency_key) "run" (fun _ => unverified) "now" 60000).

Lemma demo_dispatcher_recovers f : demo_dispatcher = Some f → Recoverer f.
Proof. intros [= <-]. apply recover_recoverer. Qed.

Definition demo_sweep (now : string) (w : World) : World * result DError EffectSweepReport :=
  sweep any_schema "now" demo_clock demo_number demo_dispatcher now true w.

(** Another holder appends, and the acknowledgement of the quarantine is lost. *)
Definition overdue_world : World :=
  demo_world (take 5 demo_payment)
    [mkRound [lane_entry 5 "effect_declared" "other"
                [("logicalKey", JStr "k"); ("effectClass", JStr "case"); ("capabilityRow", JStr "neither");
                 ("argumentsHash", JStr "h")]] (Threw journal_order_violation false) [];
     mkRound [] (Threw OtherError true) []].

Definition overdue_sweep : World * result DError EffectSweepReport := demo_sweep "2031-01-01" overdue_world.

Definition overdue_report : EffectSweepReport :=
  match overdue_sweep.2 with Ok r => r | Err _ => mkSweep 0 [] [] 0 0 end.

Definition overdue_machine : EffectMachine := machine_of (take 5 demo_payment) 3.

(** A decidable form of [quarantines_of]. *)
Definition quarantine_entry (op : string) (s : N) (reason : string) (e : JournalEntry) : bool :=
  negb (has_opId op e) ||
  ((s <? e_seq e) &&
   match e_value e with
   | Some (JObj [("decisionType", JStr a); ("opId", JStr b); ("intentRef", JNum n);
                 ("terminal", JStr t); ("reason", JStr r)]) =>
       bool_decide (a = "effect_terminal") && bool_decide (b = op) && (n =? Z.of_N s)%Z
       && bool_decide (t = "quarantined") && bool_decide (r = reason)
   | _ => false
   end).

Lemma quarantine_entries op s reason es :
  forallb (quarantine_entry op s reason) es = true → quarantines_of op s es.
Proof.
  intros Hall e He Hid. rewrite forallb_forall in Hall.
  specialize (Hall e (proj1 (list_elem_of_In _ _) He)). unfold quarantine_entry in Hall.
  rewrite Hid in Hall. cbn [negb orb] in Hall. apply andb_true_iff in Hall as [Hlt Hv].
  apply N.ltb_lt in Hlt. split; [done|]. exists reason.
  repeat case_match; try done. subst.
  rewrite !andb_true_iff, !bool_decide_eq_true, Z.eqb_eq in Hv. naive_solver.
Qed.


(** ** A sweep that stops

    Two unknown outcomes spent the attempts of the first effect.  Its state is not
    one the attempt budget is checked in, so the sweep recovers it; the re-dispatch
    is refused, the refusal leaves the sweep, and the second effect, past its
    deadline, is never reached. *)
Definition unknown_outcome (seq attemptRef : N) : JournalEntry :=
  lane_entry seq "effect_outcome" ("outcome-" +:+ dec_of_N seq)
    [("intentRef", num 3); ("attemptRef", num attemptRef); ("outcome", JStr "unknown")].

Definition spent_attempts : list JournalEntry :=
  take 5 demo_payment ++
  [unknown_outcome 5 4; demo_send 6 3 2; unknown_outcome 7 6; approval_entry 8 "late"; allow_entry 9 8;
   lane_entry 10 "effect_intent" "late"
     [("logicalKey", JStr "late"); ("approvalRef", num 8); ("epochRef", num 0);
      ("effectClass", JStr "monetary"); ("capabilityRow", JStr "idempotency-key");
      ("argumentsHash", JStr "h");
      ("budgets", JObj [("attempts", num 2); ("lookups", num 1); ("receiptWaitMs", num 10);
                        ("reconcileBy", JStr "2020-01-01")])]].

Example spent_attempts_stop_the_sweep :
  map (fun m => (m_intentSeq m, m_state m)) (openMachines (lane_of spent_attempts))
    = [(3, m_unknown); (10, m_intent)] ∧
  is_Some (exhaustion demo_clock demo_number "2029-01-01" (machine_of spent_attempts 10)) ∧
  demo_sweep "2029-01-01" (demo_world spent_attempts []) =
    (demo_world spent_attempts [], Err (lane_threw (EffectLaneRefused "attempts-exhausted"))).
Proof. split_and!; vm_compute; [reflexivity|by eexists|reflexivity]. Qed.
