(* ===== verification/Num.v ===== *)
(** * Numbers the code computes with

    Money, tags, caps and tokens are JavaScript numbers.  The definitions use the
    interface [Num]: the operations the code applies.  Theorems that hold under
    rounding need only the order laws [NumLaws]; theorems about sums need exact
    arithmetic, [ExactNum].  The rationals are an instance of both. *)
From Stdlib Require Import QArith Qround Lqa.
From S2P Require Import Prelude.

#[local] Open Scope Q_scope.

Class Num (T : Type) := {
  num_of_Z : Z → T;
  num_add : T → T → T;
  num_sub : T → T → T;
  num_mul : T → T → T;
  num_div : T → T → T;
  num_leb : T → T → bool;
  num_floor : T → Z;
}.

(** What the theorems need of the order, which doubles satisfy. *)
Class NumLaws (T : Type) `{Num T} := {
  num_leb_total : ∀ a b, num_leb a b = true ∨ num_leb b a = true;
  num_leb_trans : ∀ a b c, num_leb a b = true → num_leb b c = true → num_leb a c = true;
  num_leb_of_Z : ∀ a b, num_leb (num_of_Z a) (num_of_Z b) = (a <=? b)%Z;
  num_sub_le : ∀ a n, (0 <= n)%Z → num_leb (num_sub a (num_of_Z n)) a = true;
}.

(** Exact arithmetic: every operation is the one of the rationals. *)
Class ExactNum (T : Type) `{Num T} := {
  val : T → Q;
  val_of_Z : ∀ n, val (num_of_Z n) == inject_Z n;
  val_add : ∀ a b, val (num_add a b) == val a + val b;
  val_sub : ∀ a b, val (num_sub a b) == val a - val b;
  val_mul : ∀ a b, val (num_mul a b) == val a * val b;
  val_div : ∀ a b, ¬ val b == 0 → val (num_div a b) == val a / val b;
  val_leb : ∀ a b, num_leb a b = Qle_bool (val a) (val b);
  val_floor : ∀ a, num_floor a = Qfloor (val a);
}.

Section Order.
Context {T : Type} `{Num T}.
Definition num_ltb (a b : T) : bool := negb (num_leb b a).
Definition num_eqb (a b : T) : bool := num_leb a b && num_leb b a.
Definition num_max (a b : T) : T := if num_leb a b then b else a.
Definition num_min (a b : T) : T := if num_leb a b then a else b.
Definition num_zero : T := num_of_Z 0.
End Order.

(** A number a caller passes: finite, or NaN or an infinity. *)
Inductive jsnum (T : Type) := Finite (x : T) | NonFinite.
Arguments Finite {T} x.
Arguments NonFinite {T}.

Section Exact.
Context {T : Type} `{Num T, !ExactNum T}.
Implicit Types a b : T.

Lemma leb_true a b : num_leb a b = true ↔ val a <= val b.
Proof. by rewrite val_leb, Qle_bool_iff. Qed.

Lemma leb_false a b : num_leb a b = false ↔ val b < val a.
Proof. rewrite <- not_true_iff_false, leb_true. split; [apply Qnot_le_lt|apply Qlt_not_le]. Qed.

Lemma ltb_true a b : num_ltb a b = true ↔ val a < val b.
Proof. unfold num_ltb. by rewrite negb_true_iff, leb_false. Qed.

Lemma ltb_false a b : num_ltb a b = false ↔ val b <= val a.
Proof. unfold num_ltb. by rewrite negb_false_iff, leb_true. Qed.

Lemma val_zero : val (num_of_Z 0) == 0.
Proof. apply val_of_Z. Qed.

(** What is known of a maximum and a minimum, for [lra]. *)
Lemma max_cases a b :
  (val (num_max a b) == val a ∧ val b <= val a) ∨ (val (num_max a b) == val b ∧ val a <= val b).
Proof.
  unfold num_max. destruct (num_leb a b) eqn:E; [right; apply leb_true in E|left; apply leb_false in E].
  - split; [reflexivity|lra].
  - split; [reflexivity|lra].
Qed.

Lemma min_cases a b :
  (val (num_min a b) == val a ∧ val a <= val b) ∨ (val (num_min a b) == val b ∧ val b <= val a).
Proof.
  unfold num_min. destruct (num_leb a b) eqn:E; [left; apply leb_true in E|right; apply leb_false in E].
  - split; [reflexivity|lra].
  - split; [reflexivity|lra].
Qed.
End Exact.

(** Linear goals over exact numbers: the comparisons become inequalities of values,
    and the value of every sum, difference and extremum is made known to [lra]. *)
Ltac num_bools :=
  repeat match goal with
  | E : num_leb _ _ = true |- _ => apply leb_true in E
  | E : num_leb _ _ = false |- _ => apply leb_false in E
  | E : num_ltb _ _ = true |- _ => apply ltb_true in E
  | E : num_ltb _ _ = false |- _ => apply ltb_false in E
  | |- num_leb _ _ = true => apply leb_true
  | |- num_leb _ _ = false => apply leb_false
  | |- num_ltb _ _ = true => apply ltb_true
  | |- num_ltb _ _ = false => apply ltb_false
  end.

Ltac learn_val t :=
  lazymatch t with
  | num_add ?a ?b =>
      lazymatch goal with E : val (num_add a b) == val a + val b |- _ => fail | _ => pose proof (val_add a b) end
  | num_sub ?a ?b =>
      lazymatch goal with E : val (num_sub a b) == val a - val b |- _ => fail | _ => pose proof (val_sub a b) end
  | num_max ?a ?b =>
      lazymatch goal with E : val (num_max a b) == _ |- _ => fail
      | _ => destruct (max_cases a b) as [[? ?]|[? ?]] end
  | num_min ?a ?b =>
      lazymatch goal with E : val (num_min a b) == _ |- _ => fail
      | _ => destruct (min_cases a b) as [[? ?]|[? ?]] end
  | num_of_Z ?n =>
      lazymatch goal with E : val (num_of_Z n) == n # 1 |- _ => fail
      | _ => let E := fresh in pose proof (val_of_Z n) as E; unfold inject_Z in E end
  end.

Ltac num_lra :=
  num_bools; unfold num_zero in *;
  repeat match goal with
  | |- context [val ?t] => learn_val t
  | _ : context [val ?t] |- _ => learn_val t
  end; lra.

(** ** The rationals *)

#[global] Instance Q_num : Num Q := {
  num_of_Z := inject_Z;
  num_add a b := Qred (a + b);
  num_sub a b := Qred (a - b);
  num_mul a b := Qred (a * b);
  num_div a b := Qred (a / b);
  num_leb := Qle_bool;
  num_floor := Qfloor;
}.

#[global] Instance Q_laws : NumLaws Q.
Proof.
  split; cbn [num_leb num_of_Z num_sub Q_num].
  - intros a b. rewrite !Qle_bool_iff. destruct (Qlt_le_dec a b); [left; by apply Qlt_le_weak|by right].
  - intros a b c. rewrite !Qle_bool_iff. apply Qle_trans.
  - intros a b. apply eq_true_iff_eq. rewrite Qle_bool_iff, <- Zle_Qle. lia.
  - intros a n Hn. rewrite Qle_bool_iff, Qred_correct.
    destruct a as [p q]. unfold Qle, Qminus, Qplus, Qopp, inject_Z. cbn. nia.
Qed.

#[global] Program Instance Q_exact : ExactNum Q := {| val := fun q => q |}.
Solve All Obligations with intros; cbn; by rewrite ?Qred_correct.

Example num_lra_works {T} `{Num T, !ExactNum T} (a b : T) :
  num_leb num_zero a = true → num_leb b (num_max b (num_add a b)) = true.
Proof. intros. num_lra. Qed.
