(* ===== verification/AdmissionAlgo.v ===== *)
(** * Admission algorithms (packages/core/src/admission/algorithms.ts)

    The pure arithmetic of the admission scheduler: start-time fair queuing, the
    sliding window, the token bucket, the bucket keys of a request and the
    reservation helpers.  Wires are integers.  Tags, caps and tokens are JavaScript
    numbers: the interface [Num] has the operations the code uses on them, and
    [NumLaws] what the theorems need, which doubles satisfy. *)
From S2P Require Import Prelude Num Json Identity.

(** ** Start-time fair queuing *)

Section Algorithms.
Context {T : Type} `{Num T}.

Record FairQueueState := mkFairQueue {
  virtualTime : T;
  finishTags : gmap string T;
}.

Definition emptyFairQueue : FairQueueState := mkFairQueue (num_of_Z 0) ∅.

Definition sfqTagsOnArrival (state : FairQueueState) (memberKey : string) (costWires : Z) (weight : T)
    : T * T :=
  let startTag := num_max (default (num_of_Z 0) (finishTags state !! memberKey)) (virtualTime state) in
  (startTag, num_add startTag (num_div (num_of_Z costWires) weight)).

Definition sfqRecordArrival (state : FairQueueState) (memberKey : string) (finishTag : T)
    : FairQueueState :=
  mkFairQueue (virtualTime state) (<[memberKey := finishTag]> (finishTags state)).

Definition sfqRecordGrant (state : FairQueueState) (startTag : T) : FairQueueState :=
  mkFairQueue (num_max (virtualTime state) startTag) (finishTags state).

(** [compare(a, b) <= 0]: the smaller start tag, ties by arrival. *)
Definition tag_before (a b : T * N) : bool :=
  if num_eqb a.1 b.1 then (a.2 <=? b.2)%N else num_ltb a.1 b.1.

Fixpoint insert_row {A} (tags : A → T * N) (x : A) (l : list A) : list A :=
  match l with
  | [] => [x]
  | y :: l' => if tag_before (tags x) (tags y) then x :: l else y :: insert_row tags x l'
  end.

(** The stable sort of the queued rows. *)
Definition sfqGrantOrder {A} (tags : A → T * N) (queued : list A) : list A :=
  foldr (insert_row tags) [] queued.

(** ** The sliding window *)

Record SlidingWindowState := mkWindow { slots : list Z; headSlot : Z }.

Definition emptySlidingWindow (slotCount : nat) : SlidingWindowState :=
  mkWindow (repeat 0%Z slotCount) 0.

Definition windowAdvance (state : SlidingWindowState) (nowSlot : Z) : SlidingWindowState :=
  let advanceBy := Z.to_nat (Z.max 0 (nowSlot - headSlot state)) in
  if (advanceBy =? 0)%nat then state
  else
    let len := length (slots state) in
    mkWindow
      (if (len <=? advanceBy)%nat then repeat 0%Z len
       else drop advanceBy (slots state) ++ repeat 0%Z advanceBy)
      nowSlot.

Definition sum_Z (l : list Z) : Z := foldr Z.add 0%Z l.
Definition windowSum (state : SlidingWindowState) : Z := sum_Z (slots state).

Definition windowAdmits (state : SlidingWindowState) (cap : T) (amount : Z) : bool :=
  num_leb (num_of_Z (windowSum state + amount)) cap.

(** [slots[slots.length - 1] += amount]. *)
Fixpoint add_last (amount : Z) (l : list Z) : list Z :=
  match l with
  | [] => []
  | [x] => [(x + amount)%Z]
  | x :: l' => x :: add_last amount l'
  end.

Definition windowConsume (state : SlidingWindowState) (amount : Z) : SlidingWindowState :=
  mkWindow (add_last amount (slots state)) (headSlot state).

(** The refund loop, newest slot first. *)
Fixpoint refund_slots (newest_first : list Z) (remaining : Z) : list Z :=
  match newest_first with
  | [] => []
  | slot :: older =>
      if (0 <? remaining)%Z then
        let take := Z.min slot remaining in
        (slot - take)%Z :: refund_slots older (remaining - take)
      else newest_first
  end.

Definition windowRefund (state : SlidingWindowState) (amount : Z) : SlidingWindowState :=
  mkWindow (rev (refund_slots (rev (slots state)) amount)) (headSlot state).

(** ** The token bucket *)

Record TokenBucketState := mkBucket { tokens : T; lastMs : Z }.

Definition bucketAdvance (state : TokenBucketState) (nowMs : Z) (ratePerSecond burst : T)
    : TokenBucketState :=
  let elapsed := Z.max 0 (nowMs - lastMs state) in
  mkBucket
    (num_min burst
       (num_add (tokens state)
          (num_mul (num_div (num_of_Z elapsed) (num_of_Z 1000)) ratePerSecond)))
    (Z.max (lastMs state) nowMs).

Definition bucketAdmits (state : TokenBucketState) (amount : Z) : bool :=
  num_leb (num_of_Z amount) (tokens state).

Definition bucketConsume (state : TokenBucketState) (amount : Z) : TokenBucketState :=
  mkBucket (num_sub (tokens state) (num_of_Z amount)) (lastMs state).

Definition bucketRefund (state : TokenBucketState) (amount : Z) (burst : T) : TokenBucketState :=
  mkBucket (num_min burst (num_add (tokens state) (num_of_Z amount))) (lastMs state).

(** ** Reservations *)

Record AdmissionReservation := mkReservation {
  wires : Z;
  inputTokens : option T;
  usd : option T;
  exposureUsd : option T;
}.

Definition wires_only (n : Z) : AdmissionReservation := mkReservation n None None None.

Definition minus_measure (a b : option T) : option T :=
  (fun x => num_max (num_of_Z 0) (num_sub x (default (num_of_Z 0) b))) <$> a.

(** [b] is always given where the code calls it. *)
Definition reservationMinus (a b : AdmissionReservation) : AdmissionReservation :=
  mkReservation (Z.max 0 (wires a - wires b))
    (minus_measure (inputTokens a) (inputTokens b))
    (minus_measure (usd a) (usd b))
    (minus_measure (exposureUsd a) (exposureUsd b)).

Definition merge_measure (current next : option T) : option T :=
  match current, next with
  | None, None => None
  | _, _ => Some (num_max (default (num_of_Z 0) current) (default (num_of_Z 0) next))
  end.

Definition coverMerge (current : option AdmissionReservation) (next : AdmissionReservation)
    : AdmissionReservation :=
  let c := default (wires_only 0) current in
  mkReservation (Z.max (wires c) (wires next))
    (merge_measure (inputTokens c) (inputTokens next))
    (merge_measure (usd c) (usd next))
    (merge_measure (exposureUsd c) (exposureUsd next)).
End Algorithms.

Arguments FairQueueState T : clear implicits.
Arguments TokenBucketState T : clear implicits.
Arguments AdmissionReservation T : clear implicits.

(** ** Bucket keys *)

Inductive LevelName := l_tenant | l_providerAccount | l_scope.

#[global] Instance LevelName_eq_dec : EqDecision LevelName.
Proof. solve_decision. Defined.

Definition LEVELS : list LevelName := [l_tenant; l_providerAccount; l_scope].

(** The members a scope object has. *)
Definition AdmissionScopeDimensions : Type := list (string * string).

Definition scope_member (scope : option AdmissionScopeDimensions) (name : string) : option string :=
  snd <$> (scope ≫= find_first (fun m => bool_decide (m.1 = name))).

Record AdmissionLevelKeys := mkLevelKeys {
  lk_tenant : option string;
  lk_providerAccount : option string;
  lk_scope : option string;
}.

Definition level_key (keys : AdmissionLevelKeys) (level : LevelName) : option string :=
  match level with
  | l_tenant => lk_tenant keys
  | l_providerAccount => lk_providerAccount keys
  | l_scope => lk_scope keys
  end.

Section Keys.
(** The text of a non-integer number, which no scope holds. *)
Variable stringify_frac : Z → positive → string.

Definition jcs_members (members : list (string * string)) : string :=
  jcsSerialize stringify_frac (JObj (map (fun '(k, v) => (k, JStr v)) members)).

Definition admissionLevelKeys (resolvedTenant : option string)
    (scope : option AdmissionScopeDimensions) : AdmissionLevelKeys :=
  mkLevelKeys
    ((fun tenant => jcs_members [("tenant", tenant)]) <$> resolvedTenant)
    match resolvedTenant, scope_member scope "providerAccount" with
    | Some tenant, Some account => Some (jcs_members [("providerAccount", account); ("tenant", tenant)])
    | _, _ => None
    end
    match scope with
    | Some (m :: members) => Some (jcs_members (m :: members))
    | _ => None
    end.
End Keys.
