(* ===== verification/Admission.v ===== *)
(** * The admission scheduler (packages/core/src/admission/memory.ts)

    [MemoryAdmissionScheduler] as a state machine.  A method that awaits is the
    sequence of its synchronous segments: [enqueue] mints and then pumps, [cancel]
    arbitrates and then releases, and other calls may run in between.  A ticket
    object is its row of the map; the clock is read once per segment. *)
From S2P Require Import Prelude Num Json JsMap AdmissionAlgo.

(** ** Configuration and requests *)

Inductive Algorithm := sliding_window | token_bucket.

#[global] Instance Algorithm_eq_dec : EqDecision Algorithm.
Proof. solve_decision. Defined.

Inductive AdmissionTicketState := st_queued | st_granted | st_released | st_refunded | st_expired | st_denied.

#[global] Instance AdmissionTicketState_eq_dec : EqDecision AdmissionTicketState.
Proof. solve_decision. Defined.

Inductive AdmissionError :=
  | bad_capacity (level : LevelName)
  | no_wires
  | tenant_disagrees (resolved scoped : string)
  | bad_weight
  | cover_needs_grant
  | cover_fenced.

(** Why a request is denied. *)
Inductive DenyReason :=
  | level_unkeyed (level : LevelName)
  | never_fits (level : LevelName)
  | already_settled (state : AdmissionTicketState)
  | rebind_needs_grant
  | rebind_unkeyed (level : LevelName)
  | rebind_refused
  | denied_plain.

Section Types.
Context {T : Type} `{Num T}.

Record AdmissionLevelConfig := mkLevelConfig {
  algorithm : Algorithm;
  capWires : T;
  windowMs : option Z;
  cfg_slots : option nat;
  refillWiresPerSecond : option T;
  concurrency : option Z;
  emergencyReserveFraction : option T;
}.

Record MemoryAdmissionOptions := mkOptions {
  opt_tenant : option AdmissionLevelConfig;
  opt_providerAccount : option AdmissionLevelConfig;
  opt_scope : option AdmissionLevelConfig;
  opt_weights : gmap string T;
  leaseTtlMs : Z;
  debtAgeMs : option Z;
}.

Record AdmissionRequest := mkRequest {
  rq_unitId : string;
  rq_generation : string;
  rq_resolvedTenant : option string;
  rq_tenantFromScope : bool;
  rq_scope : option AdmissionScopeDimensions;
  rq_weight : option T;
  rq_reservation : AdmissionReservation T;
  rq_emergency : bool;
}.

Record AdmissionTicket := mkTicket {
  tk_unitId : string;
  tk_generation : string;
  tk_state : AdmissionTicketState;
  tk_resolvedTenant : option string;
  tk_scope : option AdmissionScopeDimensions;
  tk_reservation : AdmissionReservation T;
  tk_weight : T;
  tk_arrivalSeq : N;
  tk_startTag : T;
  tk_finishTag : T;
  tk_enqueuedAtMs : Z;
  tk_grantedAtMs : option Z;
  tk_leaseExpiresAtMs : option Z;
  tk_cover : option (AdmissionReservation T);
  tk_deniedReason : option DenyReason;
}.

Record BucketState := mkBucketState {
  bs_window : option SlidingWindowState;
  bs_bucket : option (TokenBucketState T);
  bs_debts : list (Z * Z);
  bs_held : Z;
  bs_parked : Z;
}.

Record InternalTicket := mkInternal {
  it_ticket : AdmissionTicket;
  it_request : AdmissionRequest;
  it_keys : AdmissionLevelKeys;
  it_accountStartTag : T;
  it_accountFinishTag : T;
  it_appliedOps : gset string;
  it_slotParked : bool;
}.

Record Scheduler := mkScheduler {
  sc_tickets : jsmap string InternalTicket;
  sc_buckets : gmap string BucketState;
  sc_tenantQueue : FairQueueState T;
  sc_accountQueues : gmap string (FairQueueState T);
  sc_arrivalCounter : N;
}.

Inductive AdmissionTicketDecision :=
  | dec_granted (ticket : AdmissionTicket)
  | dec_queued (ticket : AdmissionTicket) (position : nat)
  | dec_denied (reason : DenyReason).

Inductive AdmissionRecovery :=
  | recovered_granted (ticket : AdmissionTicket)
  | recovered_queued (ticket : AdmissionTicket) (position : nat)
  | recovered_unknown.

(** ** Setters *)

Definition set_ticket_state (t : AdmissionTicket) (st : AdmissionTicketState) : AdmissionTicket :=
  mkTicket (tk_unitId t) (tk_generation t) st (tk_resolvedTenant t) (tk_scope t) (tk_reservation t)
    (tk_weight t) (tk_arrivalSeq t) (tk_startTag t) (tk_finishTag t) (tk_enqueuedAtMs t)
    (tk_grantedAtMs t) (tk_leaseExpiresAtMs t) (tk_cover t) (tk_deniedReason t).

Definition set_lease (t : AdmissionTicket) (granted lease : option Z) : AdmissionTicket :=
  mkTicket (tk_unitId t) (tk_generation t) (tk_state t) (tk_resolvedTenant t) (tk_scope t)
    (tk_reservation t) (tk_weight t) (tk_arrivalSeq t) (tk_startTag t) (tk_finishTag t)
    (tk_enqueuedAtMs t) granted lease (tk_cover t) (tk_deniedReason t).

Definition set_cover (t : AdmissionTicket) (cover : AdmissionReservation T) : AdmissionTicket :=
  mkTicket (tk_unitId t) (tk_generation t) (tk_state t) (tk_resolvedTenant t) (tk_scope t)
    (tk_reservation t) (tk_weight t) (tk_arrivalSeq t) (tk_startTag t) (tk_finishTag t)
    (tk_enqueuedAtMs t) (tk_grantedAtMs t) (tk_leaseExpiresAtMs t) (Some cover) (tk_deniedReason t).

Definition set_denied (t : AdmissionTicket) (reason : DenyReason) : AdmissionTicket :=
  mkTicket (tk_unitId t) (tk_generation t) (tk_state t) (tk_resolvedTenant t) (tk_scope t)
    (tk_reservation t) (tk_weight t) (tk_arrivalSeq t) (tk_startTag t) (tk_finishTag t)
    (tk_enqueuedAtMs t) (tk_grantedAtMs t) (tk_leaseExpiresAtMs t) (tk_cover t) (Some reason).

Definition set_scope (t : AdmissionTicket) (scope : AdmissionScopeDimensions) : AdmissionTicket :=
  mkTicket (tk_unitId t) (tk_generation t) (tk_state t) (tk_resolvedTenant t) (Some scope)
    (tk_reservation t) (tk_weight t) (tk_arrivalSeq t) (tk_startTag t) (tk_finishTag t)
    (tk_enqueuedAtMs t) (tk_grantedAtMs t) (tk_leaseExpiresAtMs t) (tk_cover t) (tk_deniedReason t).

Definition with_ticket (i : InternalTicket) (t : AdmissionTicket) : InternalTicket :=
  mkInternal t (it_request i) (it_keys i) (it_accountStartTag i) (it_accountFinishTag i)
    (it_appliedOps i) (it_slotParked i).

Definition set_parked (i : InternalTicket) (parked : bool) : InternalTicket :=
  mkInternal (it_ticket i) (it_request i) (it_keys i) (it_accountStartTag i)
    (it_accountFinishTag i) (it_appliedOps i) parked.

Definition add_op (i : InternalTicket) (opId : string) : InternalTicket :=
  mkInternal (it_ticket i) (it_request i) (it_keys i) (it_accountStartTag i)
    (it_accountFinishTag i) ({[opId]} ∪ it_appliedOps i) (it_slotParked i).

Definition set_tickets (s : Scheduler) (ts : jsmap string InternalTicket) : Scheduler :=
  mkScheduler ts (sc_buckets s) (sc_tenantQueue s) (sc_accountQueues s) (sc_arrivalCounter s).

Definition set_buckets (s : Scheduler) (bs : gmap string BucketState) : Scheduler :=
  mkScheduler (sc_tickets s) bs (sc_tenantQueue s) (sc_accountQueues s) (sc_arrivalCounter s).

(** [key]. *)
Definition unit_key (unitId generation : string) : string := unitId +:+ "#" +:+ generation.

Definition ticket_key (i : InternalTicket) : string :=
  unit_key (tk_unitId (it_ticket i)) (tk_generation (it_ticket i)).

(** The row of a ticket object. *)
Definition put_ticket (s : Scheduler) (i : InternalTicket) : Scheduler :=
  set_tickets s (jm_set (sc_tickets s) (ticket_key i) i).

Definition get_ticket (s : Scheduler) (unitId generation : string) : option InternalTicket :=
  jm_get (sc_tickets s) (unit_key unitId generation).

Definition empty_scheduler : Scheduler := mkScheduler jm_empty ∅ emptyFairQueue ∅ 0.
End Types.

Arguments AdmissionLevelConfig T : clear implicits.
Arguments MemoryAdmissionOptions T : clear implicits.
Arguments AdmissionRequest T : clear implicits.
Arguments AdmissionTicket T : clear implicits.
Arguments BucketState T : clear implicits.
Arguments InternalTicket T : clear implicits.
Arguments Scheduler T : clear implicits.
Arguments AdmissionTicketDecision T : clear implicits.
Arguments AdmissionRecovery T : clear implicits.

Definition level_text (level : LevelName) : string :=
  match level with
  | l_tenant => "tenant" | l_providerAccount => "providerAccount" | l_scope => "scope"
  end.

Definition bucket_id (level : LevelName) (bucketKey : string) : string :=
  level_text level +:+ ":" +:+ bucketKey.

Section MemoryAdmissionScheduler.
Context {T : Type} `{Num T}.
Variable options : MemoryAdmissionOptions T.
Variable stringify_frac : Z → positive → string.
Implicit Types (s : Scheduler T) (i : InternalTicket T) (b : BucketState T).

Definition levelConfig (level : LevelName) : option (AdmissionLevelConfig T) :=
  match level with
  | l_tenant => opt_tenant options
  | l_providerAccount => opt_providerAccount options
  | l_scope => opt_scope options
  end.

Definition bad_level (level : LevelName) : bool :=
  match levelConfig level with
  | Some config => num_leb (capWires config) (num_of_Z 0)
  | None => false
  end.

Definition newScheduler : result AdmissionError (Scheduler T) :=
  match find_first bad_level LEVELS with
  | Some level => Err (bad_capacity level)
  | None => Ok empty_scheduler
  end.

(** ** Buckets *)

Definition fresh_bucket (level : LevelName) (nowMs : Z) : BucketState T :=
  match levelConfig level with
  | Some config =>
      match algorithm config with
      | sliding_window =>
          mkBucketState (Some (emptySlidingWindow (default 6%nat (cfg_slots config)))) None [] 0 0
      | token_bucket => mkBucketState None (Some (mkBucket (capWires config) nowMs)) [] 0 0
      end
  | None => mkBucketState None None [] 0 0
  end.

(** The bucket, made on first use. *)
Definition bucketFor s (level : LevelName) (bucketKey : string) (nowMs : Z) : BucketState T :=
  default (fresh_bucket level nowMs) (sc_buckets s !! bucket_id level bucketKey).

Definition put_bucket s (level : LevelName) (bucketKey : string) b : Scheduler T :=
  set_buckets s (<[bucket_id level bucketKey := b]> (sc_buckets s)).

Definition default_window : Z := 60000.

Definition slotOf (config : AdmissionLevelConfig T) (nowMs : Z) : Z :=
  num_floor (num_div (num_of_Z nowMs)
               (num_div (num_of_Z (default default_window (windowMs config)))
                  (num_of_Z (Z.of_nat (default 6%nat (cfg_slots config)))))).

Definition debt_horizon : Z :=
  match debtAgeMs options with
  | Some age => age
  | None => default default_window (opt_tenant options ≫= windowMs)
  end.

(** [effectiveDebt]: the debts that are left, and their sum. *)
Definition live_debts b (nowMs : Z) : list (Z * Z) :=
  List.filter (fun debt => (nowMs - debt.2 <? debt_horizon)%Z) (bs_debts b).

Definition debt_sum (debts : list (Z * Z)) : Z := sum_Z (map fst debts).

Definition admissibleCap (config : AdmissionLevelConfig T) (emergency : bool) : T :=
  let reserve := if emergency then num_of_Z 0
                 else default (num_of_Z 0) (emergencyReserveFraction config) in
  num_mul (capWires config) (num_sub (num_of_Z 1) reserve).

Definition set_window b (w : SlidingWindowState) : BucketState T :=
  mkBucketState (Some w) (bs_bucket b) (bs_debts b) (bs_held b) (bs_parked b).
Definition set_tokens b (t : TokenBucketState T) : BucketState T :=
  mkBucketState (bs_window b) (Some t) (bs_debts b) (bs_held b) (bs_parked b).
Definition set_debts b (debts : list (Z * Z)) : BucketState T :=
  mkBucketState (bs_window b) (bs_bucket b) debts (bs_held b) (bs_parked b).
Definition set_slots b (held parked : Z) : BucketState T :=
  mkBucketState (bs_window b) (bs_bucket b) (bs_debts b) held parked.

(** The capacity half of [levelAdmits]: the advanced bucket, and its verdict. *)
Definition capacity_admits (config : AdmissionLevelConfig T) (cap : T) b (need nowMs : Z)
    : BucketState T * bool :=
  match algorithm config, bs_window b, bs_bucket b with
  | sliding_window, Some w, _ =>
      let w := windowAdvance w (slotOf config nowMs) in
      (set_window b w, windowAdmits w cap need)
  | token_bucket, _, Some t =>
      let t := bucketAdvance t nowMs (default (capWires config) (refillWiresPerSecond config)) cap in
      (set_tokens b t, bucketAdmits t need)
  | _, _, _ => (b, true)
  end.

Definition semaphore_admits (config : AdmissionLevelConfig T) b : bool :=
  match concurrency config with Some c => negb (c <=? bs_held b)%Z | None => true end.

Definition levelAdmits s (level : LevelName) (bucketKey : string) (need : Z) (emergency : bool)
    (nowMs : Z) : Scheduler T * bool :=
  match levelConfig level with
  | None => (s, true)
  | Some config =>
      let b := bucketFor s level bucketKey nowMs in
      let debts := live_debts b nowMs in
      let cap := num_sub (admissibleCap config emergency) (num_of_Z (debt_sum debts)) in
      let (b, fits) := capacity_admits config cap (set_debts b debts) need nowMs in
      (put_bucket s level bucketKey b, fits && semaphore_admits config b)
  end.

(** The levels of a ticket, tried in order; the first that refuses. *)
Fixpoint refusing_level s i (nowMs : Z) (levels : list LevelName) : Scheduler T * option LevelName :=
  match levels with
  | [] => (s, None)
  | level :: levels =>
      match level_key (it_keys i) level, levelConfig level with
      | Some bucketKey, Some _ =>
          let (s, admits) := levelAdmits s level bucketKey (wires (tk_reservation (it_ticket i)))
                               (rq_emergency (it_request i)) nowMs in
          if admits then refusing_level s i nowMs levels else (s, Some level)
      | _, _ => refusing_level s i nowMs levels
      end
  end.

Definition firstRefusingLevel s i (nowMs : Z) : Scheduler T * option LevelName :=
  refusing_level s i nowMs LEVELS.

(** A change of every configured bucket of the keys; [None] leaves it alone. *)
Definition at_level (keys : AdmissionLevelKeys) (nowMs : Z)
    (change : AdmissionLevelConfig T → option (BucketState T → BucketState T))
    s (level : LevelName) : Scheduler T :=
  match level_key keys level, levelConfig level with
  | Some bucketKey, Some config =>
      match change config with
      | Some f => put_bucket s level bucketKey (f (bucketFor s level bucketKey nowMs))
      | None => s
      end
  | _, _ => s
  end.

Definition for_levels s (keys : AdmissionLevelKeys) (nowMs : Z)
    (change : AdmissionLevelConfig T → option (BucketState T → BucketState T)) : Scheduler T :=
  foldl (at_level keys nowMs change) s LEVELS.

Definition counted (config : AdmissionLevelConfig T) : bool :=
  match concurrency config with Some _ => true | None => false end.

Definition consume_bucket (need nowMs : Z) (config : AdmissionLevelConfig T) b : BucketState T :=
  let b :=
    match algorithm config, bs_window b, bs_bucket b with
    | sliding_window, Some w, _ =>
        set_window b (windowConsume (windowAdvance w (slotOf config nowMs)) need)
    | token_bucket, _, Some t => set_tokens b (bucketConsume t need)
    | _, _, _ => b
    end in
  if counted config then set_slots b (bs_held b + 1) (bs_parked b) else b.

Definition consumeLevels s i (nowMs : Z) : Scheduler T :=
  for_levels s (it_keys i) nowMs
    (fun config => Some (consume_bucket (wires (tk_reservation (it_ticket i))) nowMs config)).

Definition refund_bucket (back : Z) (restoreSlot : bool) (config : AdmissionLevelConfig T) b
    : BucketState T :=
  let b :=
    if (0 <? back)%Z then
      match algorithm config, bs_window b, bs_bucket b with
      | sliding_window, Some w, _ => set_window b (windowRefund w back)
      | token_bucket, _, Some t => set_tokens b (bucketRefund t back (capWires config))
      | _, _, _ => b
      end
    else b in
  if counted config && restoreSlot then set_slots b (Z.max 0 (bs_held b - 1)) (bs_parked b) else b.

Definition refundLevels s (keys : AdmissionLevelKeys) (back : Z) (restoreSlot : bool) (nowMs : Z)
    : Scheduler T :=
  for_levels s keys nowMs (fun config => Some (refund_bucket back restoreSlot config)).

(** A change of the buckets with a semaphore. *)
Definition for_semaphores s (keys : AdmissionLevelKeys) (nowMs : Z)
    (f : BucketState T → BucketState T) : Scheduler T :=
  for_levels s keys nowMs (fun config => if counted config then Some f else None).

Definition has_semaphore (keys : AdmissionLevelKeys) (level : LevelName) : bool :=
  match level_key keys level, levelConfig level with
  | Some _, Some config => counted config
  | _, _ => false
  end.

Definition parkSlots s i (nowMs : Z) : Scheduler T * InternalTicket T :=
  (for_semaphores s (it_keys i) nowMs (fun b => set_slots b (bs_held b) (bs_parked b + 1)),
   set_parked i (existsb (has_semaphore (it_keys i)) LEVELS)).

Definition unparkSlots s i (nowMs : Z) : Scheduler T * InternalTicket T :=
  if it_slotParked i then
    (for_semaphores s (it_keys i) nowMs
       (fun b => set_slots b (Z.max 0 (bs_held b - 1)) (Z.max 0 (bs_parked b - 1))),
     set_parked i false)
  else (s, i).

Definition recordDebt s i (over nowMs : Z) : Scheduler T :=
  if (over <=? 0)%Z then s
  else for_levels s (it_keys i) nowMs
         (fun _ => Some (fun b => set_debts b (bs_debts b ++ [(over, nowMs)]))).

(** [applied]: whether the operation ran before; it has now. *)
Definition applied i (opId : string) : InternalTicket T * bool :=
  if bool_decide (opId ∈ it_appliedOps i) then (i, true) else (add_op i opId, false).

(** ** The queue *)

Definition start_tags i : T * N := (tk_startTag (it_ticket i), tk_arrivalSeq (it_ticket i)).

Definition is_queued i : bool := bool_decide (tk_state (it_ticket i) = st_queued).

Definition queuedInGrantOrder s : list (InternalTicket T) :=
  sfqGrantOrder start_tags (List.filter is_queued (jm_values (sc_tickets s))).

Fixpoint index_of (p : InternalTicket T → bool) (l : list (InternalTicket T)) : option nat :=
  match l with
  | [] => None
  | i :: l => if p i then Some O else S <$> index_of p l
  end.

(** The place of a row, [Math.max(0, findIndex)]. *)
Definition position s i : nat :=
  default O (index_of (fun j => bool_decide (ticket_key j = ticket_key i)) (queuedInGrantOrder s)).

Definition decisionOf s i : AdmissionTicketDecision T :=
  let t := it_ticket i in
  match tk_state t with
  | st_granted => dec_granted t
  | st_queued => dec_queued t (position s i)
  | st_denied => dec_denied (default denied_plain (tk_deniedReason t))
  | state => dec_denied (already_settled state)
  end.

(** ** Minting *)

Definition account_queue_id (tenantMember : string) : string := "accounts:" +:+ tenantMember.

Definition mint_weight (request : AdmissionRequest T) : T :=
  match rq_weight request with
  | Some w => w
  | None => default (num_of_Z 1) (opt_weights options !! default "" (rq_resolvedTenant request))
  end.

Definition mintTicket s (request : AdmissionRequest T) (keys : AdmissionLevelKeys) (nowMs : Z)
    (state : AdmissionTicketState) (denied : option DenyReason)
    : Scheduler T * result AdmissionError (InternalTicket T) :=
  let weight := mint_weight request in
  if negb (num_ltb (num_of_Z 0) weight) then (s, Err bad_weight)
  else
    let cost := wires (rq_reservation request) in
    let arrival := (sc_arrivalCounter s + 1)%N in
    let tenantMember := default "-" (rq_resolvedTenant request) in
    let tenantTags := sfqTagsOnArrival (sc_tenantQueue s) tenantMember cost weight in
    let accountQueueId := account_queue_id tenantMember in
    let accountQueue := default emptyFairQueue (sc_accountQueues s !! accountQueueId) in
    let accountMember := default "-" (scope_member (rq_scope request) "providerAccount") in
    let accountTags := sfqTagsOnArrival accountQueue accountMember cost weight in
    let ticket := mkTicket (rq_unitId request) (rq_generation request) state
                    (rq_resolvedTenant request) (rq_scope request) (rq_reservation request) weight
                    arrival tenantTags.1 tenantTags.2 nowMs None None None denied in
    let i := mkInternal ticket request keys accountTags.1 accountTags.2 ∅ false in
    (put_ticket
       (mkScheduler (sc_tickets s) (sc_buckets s)
          (sfqRecordArrival (sc_tenantQueue s) tenantMember tenantTags.2)
          (<[accountQueueId := sfqRecordArrival accountQueue accountMember accountTags.2]>
             (sc_accountQueues s))
          arrival) i,
     Ok i).

Definition settled_before (state : AdmissionTicketState) : bool :=
  match state with st_released | st_refunded | st_expired => true | _ => false end.

(** A settled unit that comes back: its parked slots return, its row goes. *)
Definition forget s i (nowMs : Z) : Scheduler T :=
  let (s, i) := unparkSlots s i nowMs in
  set_tickets s (jm_delete (sc_tickets s) (ticket_key i)).

Definition tenants_disagree (request : AdmissionRequest T) : option (string * string) :=
  match rq_resolvedTenant request, scope_member (rq_scope request) "tenant" with
  | Some resolved, Some scoped =>
      if negb (bool_decide (resolved = scoped)) && negb (rq_tenantFromScope request)
      then Some (resolved, scoped) else None
  | _, _ => None
  end.

Definition unkeyed (keys : AdmissionLevelKeys) (level : LevelName) : bool :=
  match levelConfig level, level_key keys level with Some _, None => true | _, _ => false end.

Definition cannot_fit (request : AdmissionRequest T) (keys : AdmissionLevelKeys) (level : LevelName)
    : bool :=
  match levelConfig level, level_key keys level with
  | Some config, Some _ =>
      num_ltb (admissibleCap config (rq_emergency request)) (num_of_Z (wires (rq_reservation request)))
  | _, _ => false
  end.

(** The verdict of a request no live ticket answers. *)
Definition admit_request s (request : AdmissionRequest T) (nowMs : Z)
    : Scheduler T * result AdmissionError (AdmissionTicketDecision T + InternalTicket T) :=
  if (wires (rq_reservation request) <? 1)%Z then (s, Err no_wires)
  else
    match tenants_disagree request with
    | Some (resolved, scoped) => (s, Err (tenant_disagrees resolved scoped))
    | None =>
        let keys := admissionLevelKeys stringify_frac (rq_resolvedTenant request) (rq_scope request) in
        match find_first (unkeyed keys) LEVELS with
        | Some level => (s, Ok (inl (dec_denied (level_unkeyed level))))
        | None =>
            match find_first (cannot_fit request keys) LEVELS with
            | Some level =>
                match mintTicket s request keys nowMs st_denied (Some (never_fits level)) with
                | (s, Ok _) => (s, Ok (inl (dec_denied (never_fits level))))
                | (s, Err e) => (s, Err e)
                end
            | None =>
                match mintTicket s request keys nowMs st_queued None with
                | (s, Ok i) => (s, Ok (inr i))
                | (s, Err e) => (s, Err e)
                end
            end
        end
    end.

(** [enqueue] up to its pump: a decision, or the ticket to pump for. *)
Definition enqueue_mint s (request : AdmissionRequest T) (nowMs : Z)
    : Scheduler T * result AdmissionError (AdmissionTicketDecision T + InternalTicket T) :=
  match get_ticket s (rq_unitId request) (rq_generation request) with
  | Some existing =>
      if settled_before (tk_state (it_ticket existing))
      then admit_request (forget s existing nowMs) request nowMs
      else (s, Ok (inl (decisionOf s existing)))
  | None => admit_request s request nowMs
  end.

(** ** The pump *)

Definition lease_over (t : AdmissionTicket T) (nowMs : Z) : bool :=
  match tk_leaseExpiresAtMs t with Some at_ => (at_ <=? nowMs)%Z | None => false end.

(** The conservative settlement of a stale lease. *)
Definition expire_ticket (nowMs : Z) s (id : string) : Scheduler T :=
  match jm_get (sc_tickets s) id with
  | None => s
  | Some i =>
      let t := it_ticket i in
      if bool_decide (tk_state t = st_granted) && lease_over t nowMs then
        let refund := reservationMinus (tk_reservation t) (default (wires_only 0) (tk_cover t)) in
        let s := refundLevels s (it_keys i) (wires refund) false nowMs in
        let (s, i) := parkSlots s i nowMs in
        put_ticket s (with_ticket i (set_ticket_state t st_expired))
      else s
  end.

Definition expire_leases s (nowMs : Z) : Scheduler T :=
  foldl (expire_ticket nowMs) s (jm_order (sc_tickets s)).

Definition bucket_ids i : list string :=
  omap (fun level => bucket_id level <$> level_key (it_keys i) level) LEVELS.

(** One pass over the queue: the first ticket every level admits, with its refused
    predecessors' buckets blocked. *)
Fixpoint scan s (order : list (InternalTicket T)) (blocked : gset string) (nowMs : Z)
    : Scheduler T * option (InternalTicket T) :=
  match order with
  | [] => (s, None)
  | head :: order =>
      if existsb (fun id => bool_decide (id ∈ blocked)) (bucket_ids head)
      then scan s order blocked nowMs
      else
        match firstRefusingLevel s head nowMs with
        | (s, None) => (s, Some head)
        | (s, Some refusing) =>
            scan s order
              match level_key (it_keys head) refusing with
              | Some bucketKey => {[bucket_id refusing bucketKey]} ∪ blocked
              | None => blocked
              end nowMs
        end
  end.

Definition granted_ticket (t : AdmissionTicket T) (nowMs : Z) : AdmissionTicket T :=
  set_lease (set_ticket_state t st_granted) (Some nowMs) (Some (nowMs + leaseTtlMs options)%Z).

Definition grant s i (nowMs : Z) : Scheduler T * AdmissionTicket T :=
  let t := granted_ticket (it_ticket i) nowMs in
  let s := put_ticket (consumeLevels s i nowMs) (with_ticket i t) in
  let queueId := account_queue_id (default "-" (tk_resolvedTenant t)) in
  (mkScheduler (sc_tickets s) (sc_buckets s)
     (sfqRecordGrant (sc_tenantQueue s) (tk_startTag t))
     (match sc_accountQueues s !! queueId with
      | Some queue => <[queueId := sfqRecordGrant queue (it_accountStartTag i)]> (sc_accountQueues s)
      | None => sc_accountQueues s
      end)
     (sc_arrivalCounter s),
   t).

(** The grant loop; each pass but the last grants a queued ticket. *)
Fixpoint grant_loop (fuel : nat) s (nowMs : Z) : Scheduler T * list (AdmissionTicket T) :=
  match fuel with
  | O => (s, [])
  | S fuel =>
      match scan s (queuedInGrantOrder s) ∅ nowMs with
      | (s, None) => (s, [])
      | (s, Some head) =>
          let (s, t) := grant s head nowMs in
          let (s, granted) := grant_loop fuel s nowMs in
          (s, t :: granted)
      end
  end.

Definition pump s (nowMs : Z) : Scheduler T * list (AdmissionTicket T) :=
  let s := expire_leases s nowMs in
  grant_loop (S (length (queuedInGrantOrder s))) s nowMs.

(** [enqueue] with nothing in between. *)
Definition enqueue s (request : AdmissionRequest T) (nowMs : Z)
    : Scheduler T * result AdmissionError (AdmissionTicketDecision T) :=
  match enqueue_mint s request nowMs with
  | (s, Err e) => (s, Err e)
  | (s, Ok (inl decision)) => (s, Ok decision)
  | (s, Ok (inr i)) =>
      let (s, _) := pump s nowMs in
      (s, Ok (decisionOf s (default i (jm_get (sc_tickets s) (ticket_key i)))))
  end.

(** ** The life of a ticket *)

Definition renew s (unitId generation : string) (nowMs : Z) : Scheduler T :=
  match get_ticket s unitId generation with
  | Some i =>
      if bool_decide (tk_state (it_ticket i) = st_granted)
      then put_ticket s (with_ticket i (set_lease (it_ticket i) (tk_grantedAtMs (it_ticket i))
                                         (Some (nowMs + leaseTtlMs options)%Z)))
      else s
  | None => s
  end.

Definition recover s (unitId generation : string) (nowMs : Z) : Scheduler T * AdmissionRecovery T :=
  match get_ticket s unitId generation with
  | None => (s, recovered_unknown)
  | Some i =>
      match tk_state (it_ticket i) with
      | st_granted =>
          let s := renew s unitId generation nowMs in
          (s, recovered_granted (it_ticket (default i (get_ticket s unitId generation))))
      | st_queued => (s, recovered_queued (it_ticket i) (position s i))
      | _ => (s, recovered_unknown)
      end
  end.

Definition checkpointCover s (unitId generation : string) (cover : AdmissionReservation T)
    (opId : string) (nowMs : Z) : Scheduler T * result AdmissionError unit :=
  match get_ticket s unitId generation with
  | Some i =>
      let t := it_ticket i in
      if negb (bool_decide (tk_state t = st_granted)) then (s, Err cover_needs_grant)
      else if (default 0 (tk_leaseExpiresAtMs t) <=? nowMs)%Z then (s, Err cover_fenced)
      else
        let (i, known) := applied i opId in
        if known : bool then (s, Ok tt)
        else (put_ticket s (with_ticket i (set_cover t (coverMerge (tk_cover t) cover))), Ok tt)
  | None => (s, Err cover_needs_grant)
  end.

(** A granted ticket that settles. *)
Definition settle_granted s i (actuals : AdmissionReservation T) (nowMs : Z) : Scheduler T :=
  let t := it_ticket i in
  let unused := reservationMinus (tk_reservation t) actuals in
  let s := refundLevels s (it_keys i) (wires unused) true nowMs in
  let s := recordDebt s i (Z.max 0 (wires actuals - wires (tk_reservation t))) nowMs in
  put_ticket s (with_ticket i (set_ticket_state t st_released)).

(** A late settlement, after the expiry. *)
Definition settle_expired s i (actuals : AdmissionReservation T) (nowMs : Z) : Scheduler T :=
  let covered := match tk_cover (it_ticket i) with Some c => wires c | None => 0%Z end in
  let s := recordDebt s i (Z.max 0 (wires actuals - covered)) nowMs in
  let (s, i) := unparkSlots s i nowMs in
  put_ticket s i.

Definition release s (unitId generation : string) (actuals : AdmissionReservation T) (opId : string)
    (nowMs : Z) : Scheduler T :=
  match get_ticket s unitId generation with
  | None => s
  | Some i =>
      let (i, known) := applied i opId in
      if known : bool then s
      else
        match tk_state (it_ticket i) with
        | st_granted => settle_granted s i actuals nowMs
        | st_expired => settle_expired s i actuals nowMs
        | _ => put_ticket s i
        end
  end.

(** [cancel] up to its release: the actuals to release with, if it goes on. *)
Definition cancel_mark s (unitId generation : string) (opId : string)
    : Scheduler T * option (AdmissionReservation T) :=
  match get_ticket s unitId generation with
  | None => (s, None)
  | Some i =>
      let (i, known) := applied i opId in
      if known : bool then (s, None)
      else
        match tk_state (it_ticket i) with
        | st_queued => (put_ticket s (with_ticket i (set_ticket_state (it_ticket i) st_refunded)), None)
        | st_granted | st_expired =>
            (put_ticket s i, Some (default (wires_only 0) (tk_cover (it_ticket i))))
        | _ => (put_ticket s i, None)
        end
  end.

Definition cancel s (unitId generation : string) (opId : string) (nowMs : Z) : Scheduler T :=
  match cancel_mark s unitId generation opId with
  | (s, Some actuals) => release s unitId generation actuals (opId +:+ ":release") nowMs
  | (s, None) => s
  end.

(** [LEVELS.every]: the target hierarchy admits. *)
Fixpoint target_admits s i (keys : AdmissionLevelKeys) (nowMs : Z) (levels : list LevelName)
    : Scheduler T * bool :=
  match levels with
  | [] => (s, true)
  | level :: levels =>
      match level_key keys level with
      | None => target_admits s i keys nowMs levels
      | Some bucketKey =>
          let (s, admits) := levelAdmits s level bucketKey (wires (tk_reservation (it_ticket i)))
                               (rq_emergency (it_request i)) nowMs in
          if admits then target_admits s i keys nowMs levels else (s, false)
      end
  end.

Definition rebound i (keys : AdmissionLevelKeys) (scope : AdmissionScopeDimensions)
    : InternalTicket T :=
  let r := it_request i in
  mkInternal (set_scope (it_ticket i) scope)
    (mkRequest (rq_unitId r) (rq_generation r) (rq_resolvedTenant r) (rq_tenantFromScope r)
       (Some scope) (rq_weight r) (rq_reservation r) (rq_emergency r))
    keys (it_accountStartTag i) (it_accountFinishTag i) (it_appliedOps i) (it_slotParked i).

Definition rebind s (unitId generation : string) (scope : AdmissionScopeDimensions) (opId : string)
    (nowMs : Z) : Scheduler T * AdmissionTicketDecision T :=
  match get_ticket s unitId generation with
  | None => (s, dec_denied rebind_needs_grant)
  | Some i =>
      if negb (bool_decide (tk_state (it_ticket i) = st_granted))
      then (s, dec_denied rebind_needs_grant)
      else
        let (i, known) := applied i opId in
        if known : bool then (s, decisionOf s i)
        else
          let s := put_ticket s i in
          let keys := admissionLevelKeys stringify_frac (tk_resolvedTenant (it_ticket i)) (Some scope) in
          match find_first (unkeyed keys) LEVELS with
          | Some level => (s, dec_denied (rebind_unkeyed level))
          | None =>
              let (s, admits) := target_admits s i keys nowMs LEVELS in
              if admits then
                let i' := rebound i keys scope in
                let s := consumeLevels (put_ticket s i') i' nowMs in
                let s := refundLevels s (it_keys i) (wires (tk_reservation (it_ticket i))) true nowMs in
                (s, dec_granted (it_ticket i'))
              else (s, dec_denied rebind_refused)
          end
  end.

(** ** Steps *)

(** A synchronous segment of the scheduler. *)
Inductive Segment :=
  | seg_enqueue (request : AdmissionRequest T)
  | seg_pump
  | seg_renew (unitId generation : string)
  | seg_cover (unitId generation : string) (cover : AdmissionReservation T) (opId : string)
  | seg_release (unitId generation : string) (actuals : AdmissionReservation T) (opId : string)
  | seg_cancel (unitId generation : string) (opId : string)
  | seg_rebind (unitId generation : string) (scope : AdmissionScopeDimensions) (opId : string).

Definition run_segment s (seg : Segment) (nowMs : Z) : Scheduler T :=
  match seg with
  | seg_enqueue request => (enqueue_mint s request nowMs).1
  | seg_pump => (pump s nowMs).1
  | seg_renew u g => renew s u g nowMs
  | seg_cover u g c op => (checkpointCover s u g c op nowMs).1
  | seg_release u g a op => release s u g a op nowMs
  | seg_cancel u g op => (cancel_mark s u g op).1
  | seg_rebind u g scope op => (rebind s u g scope op nowMs).1
  end.

Definition run_segments s (segs : list (Segment * Z)) : Scheduler T :=
  foldl (fun s seg => run_segment s seg.1 seg.2) s segs.
End MemoryAdmissionScheduler.
