(* ===== verification/AdmissionSlots.v ===== *)
(** * The admission semaphore (packages/core/src/admission/memory.ts)

    Per level and bucket, [held] counts the tickets that hold a slot, and [parked]
    those of them whose lease expired: over any interleaving of the scheduler's
    calls, and never above the level's [concurrency]. *)
From S2P Require Import Prelude Num Json JsMap AdmissionAlgo Admission.

(** ** Counting rows of a map *)

Definition count_rows {A} (P : A → bool) (m : gmap string A) : nat :=
  size (filter (fun '(_, a) => P a = true) m).

Lemma count_fresh {A} (P : A → bool) m k a :
  m !! k = None → count_rows P (<[k := a]> m) = (count_rows P m + (if P a then 1 else 0))%nat.
Proof.
  intros Hk. unfold count_rows. destruct (P a) eqn:Ha.
  - rewrite map_filter_insert_True by done. rewrite map_size_insert_None; [lia|].
    apply map_lookup_filter_None_2. by left.
  - rewrite map_filter_insert_False by congruence. rewrite delete_id by done. lia.
Qed.

(** How a row's update moves the count. *)
Lemma count_update {A} (P : A → bool) m k a :
  (count_rows P (<[k := a]> m) + from_option (fun b => if P b then 1 else 0) 0 (m !! k))%nat =
  (count_rows P m + (if P a then 1 else 0))%nat.
Proof.
  destruct (m !! k) as [b|] eqn:Hk; cbn.
  - rewrite <- (insert_delete_id m k b Hk) at 2. rewrite <- insert_delete_eq.
    rewrite !count_fresh by apply lookup_delete_eq. lia.
  - rewrite count_fresh by done. lia.
Qed.

Lemma count_delete {A} (P : A → bool) m k :
  (count_rows P (delete k m) + from_option (fun b => if P b then 1 else 0) 0 (m !! k))%nat = count_rows P m.
Proof.
  destruct (m !! k) as [b|] eqn:Hk; cbn; [|by rewrite delete_id, Nat.add_0_r].
  rewrite <- (insert_delete_id m k b Hk) at 2. by rewrite count_fresh by apply lookup_delete_eq.
Qed.

Lemma count_empty {A} (P : A → bool) : count_rows P ∅ = 0%nat.
Proof. unfold count_rows. by rewrite map_filter_empty, map_size_empty. Qed.

(** ** Buckets and their slots *)

Lemma bucket_id_inj l k l' k' : bucket_id l k = bucket_id l' k' → l = l' ∧ k = k'.
Proof. destruct l, l'; intros [=]; done. Qed.

Section Slots.
Context {T : Type} `{Num T} (options : MemoryAdmissionOptions T) (stringify_frac : Z → positive → string).
Implicit Types (s : Scheduler T) (i j : InternalTicket T) (b : BucketState T) (l : LevelName).

(** [held] and [parked] of a bucket. *)
Definition slots_of s l (bucketKey : string) : Z * Z :=
  match sc_buckets s !! bucket_id l bucketKey with
  | Some b => (bs_held b, bs_parked b)
  | None => (0, 0)%Z
  end.

(** The level has a semaphore. *)
Definition sem l : bool :=
  match levelConfig options l with Some config => counted config | None => false end.

(** The ticket's bucket of the level is this one. *)
Definition keyed_at (keys : AdmissionLevelKeys) l (bucketKey : string) : bool :=
  bool_decide (level_key keys l = Some bucketKey).

Definition is_granted i : bool := bool_decide (tk_state (it_ticket i) = st_granted).

Definition holds_at l (bucketKey : string) i : bool :=
  keyed_at (it_keys i) l bucketKey && (is_granted i || it_slotParked i).

Definition parked_at l (bucketKey : string) i : bool :=
  keyed_at (it_keys i) l bucketKey && it_slotParked i.

Lemma bucketFor_slots s l k nowMs :
  (bs_held (bucketFor options s l k nowMs), bs_parked (bucketFor options s l k nowMs)) = slots_of s l k.
Proof.
  unfold bucketFor, slots_of. destruct (sc_buckets s !! _); [done|]. cbn. unfold fresh_bucket.
  destruct (levelConfig options l) as [c|]; [destruct (algorithm c)|]; done.
Qed.

Lemma put_bucket_slots s l k b l' k' :
  slots_of (put_bucket s l k b) l' k' =
    if bool_decide (l = l' ∧ k = k') then (bs_held b, bs_parked b) else slots_of s l' k'.
Proof.
  unfold slots_of, put_bucket. cbn. destruct (bool_decide_reflect (l = l' ∧ k = k')) as [[-> ->]|Hne].
  - by rewrite lookup_insert_eq.
  - rewrite lookup_insert_ne; [done|]. intros []%bucket_id_inj. by apply Hne.
Qed.

(** What a change of the buckets of some keys does to the slots. *)
Lemma at_level_slots keys nowMs change s l l' k :
  slots_of (at_level options keys nowMs change s l) l' k =
    if bool_decide (l = l') && keyed_at keys l k then
      match levelConfig options l ≫= change with
      | Some f => let b := f (bucketFor options s l k nowMs) in (bs_held b, bs_parked b)
      | None => slots_of s l' k
      end
    else slots_of s l' k.
Proof.
  unfold at_level, keyed_at. destruct (level_key keys l) as [k0|] eqn:Hk.
  2:{ by destruct (bool_decide (l = l')). }
  destruct (levelConfig options l) as [c|]; cbn.
  2:{ by destruct (bool_decide (l = l') && _). }
  destruct (change c) as [f|]; [|by destruct (bool_decide (l = l') && _)].
  rewrite put_bucket_slots.
  destruct (bool_decide_reflect (l = l')) as [<-|Hl]; cbn.
  - destruct (bool_decide_reflect (Some k0 = Some k)) as [[= <-]|Hne].
    + by rewrite bool_decide_eq_true_2.
    + rewrite bool_decide_eq_false_2; [done|]. intros [_ ->]. done.
  - rewrite bool_decide_eq_false_2; [done|]. by intros [].
Qed.

Lemma at_level_bucketFor keys nowMs change s l l' k now' :
  l ≠ l' → bucketFor options (at_level options keys nowMs change s l) l' k now' = bucketFor options s l' k now'.
Proof.
  intros Hne. unfold at_level, bucketFor. destruct (level_key keys l) as [k0|]; [|done].
  destruct (levelConfig options l) as [c|]; [|done]. destruct (change c); [|done].
  unfold put_bucket. cbn. rewrite lookup_insert_ne; [done|]. by intros []%bucket_id_inj.
Qed.

Lemma for_levels_slots keys nowMs change s l k :
  slots_of (for_levels options s keys nowMs change) l k =
    if keyed_at keys l k then
      match levelConfig options l ≫= change with
      | Some f => let b := f (bucketFor options s l k nowMs) in (bs_held b, bs_parked b)
      | None => slots_of s l k
      end
    else slots_of s l k.
Proof.
  unfold for_levels, LEVELS. cbn [foldl]. rewrite !at_level_slots.
  destruct l; repeat first [rewrite bool_decide_eq_true_2 by done | rewrite bool_decide_eq_false_2 by done];
    cbn [andb]; by rewrite ?at_level_bucketFor by done.
Qed.

Lemma at_level_frame keys nowMs change s l :
  sc_tickets (at_level options keys nowMs change s l) = sc_tickets s.
Proof. unfold at_level. by repeat case_match. Qed.

Lemma for_levels_frame keys nowMs change s :
  sc_tickets (for_levels options s keys nowMs change) = sc_tickets s.
Proof. unfold for_levels, LEVELS. cbn [foldl]. by rewrite !at_level_frame. Qed.

(** A change whose effect on the slots is [g] where there is a semaphore, and none
    elsewhere. *)
Lemma for_levels_effect keys nowMs change s l k (g : Z * Z → Z * Z) :
  (∀ config, levelConfig options l = Some config →
     match change config with
     | Some f => ∀ b, (bs_held (f b), bs_parked (f b)) =
                      if counted config then g (bs_held b, bs_parked b) else (bs_held b, bs_parked b)
     | None => counted config = false
     end) →
  slots_of (for_levels options s keys nowMs change) l k =
    if keyed_at keys l k && sem l then g (slots_of s l k) else slots_of s l k.
Proof.
  intros Hg. rewrite for_levels_slots. unfold sem. destruct (keyed_at keys l k); cbn [andb]; [|done].
  destruct (levelConfig options l) as [config|]; cbn; [|done]. specialize (Hg config eq_refl).
  destruct (change config) as [f|].
  - rewrite Hg, bucketFor_slots. done.
  - by rewrite Hg.
Qed.

Lemma consume_slots s i nowMs l k :
  slots_of (consumeLevels options s i nowMs) l k =
    if keyed_at (it_keys i) l k && sem l then ((slots_of s l k).1 + 1, (slots_of s l k).2)%Z
    else slots_of s l k.
Proof.
  apply (for_levels_effect _ _ _ _ _ _ (fun p => (p.1 + 1, p.2)%Z)). intros config _ b.
  unfold consume_bucket. by destruct (algorithm config), (bs_window b), (bs_bucket b), (counted config).
Qed.

Lemma refund_slots_of s keys back restore nowMs l k :
  slots_of (refundLevels options s keys back restore nowMs) l k =
    if keyed_at keys l k && sem l && restore then (Z.max 0 ((slots_of s l k).1 - 1), (slots_of s l k).2)
    else slots_of s l k.
Proof.
  unfold refundLevels.
  rewrite (for_levels_effect _ _ _ _ _ _ (fun p => if restore then (Z.max 0 (p.1 - 1), p.2)%Z else p)).
  - destruct (keyed_at keys l k && sem l); cbn; [by destruct restore|done].
  - intros config _ b. unfold refund_bucket.
    by destruct (0 <? back)%Z, (algorithm config), (bs_window b), (bs_bucket b), (counted config), restore.
Qed.

Lemma semaphores_slots s keys nowMs f l k (g : Z * Z → Z * Z) :
  (∀ b, (bs_held (f b), bs_parked (f b)) = g (bs_held b, bs_parked b)) →
  slots_of (for_semaphores options s keys nowMs f) l k =
    if keyed_at keys l k && sem l then g (slots_of s l k) else slots_of s l k.
Proof.
  intros Hg. apply for_levels_effect. intros config _. destruct (counted config); [|done].
  intros b. apply Hg.
Qed.

Lemma debt_slots s i over nowMs l k :
  slots_of (recordDebt options s i over nowMs) l k = slots_of s l k.
Proof.
  unfold recordDebt. destruct (over <=? 0)%Z; [done|].
  rewrite (for_levels_effect _ _ _ _ _ _ id) by (intros config _ b; by destruct (counted config)).
  by destruct (_ && _).
Qed.

Lemma capacity_admits_slots config cap b need nowMs b' fits :
  capacity_admits config cap b need nowMs = (b', fits) → bs_held b' = bs_held b ∧ bs_parked b' = bs_parked b.
Proof.
  unfold capacity_admits.
  destruct (algorithm config), (bs_window b), (bs_bucket b); by intros [= <- _].
Qed.

Lemma levelAdmits_slots s l0 k0 need emergency nowMs l k :
  slots_of (levelAdmits options s l0 k0 need emergency nowMs).1 l k = slots_of s l k.
Proof.
  unfold levelAdmits. destruct (levelConfig options l0) as [config|]; [|done].
  pose proof (bucketFor_slots s l0 k0 nowMs) as Hb.
  set (b := bucketFor options s l0 k0 nowMs) in *.
  destruct (capacity_admits _ _ _ _ _) as [b' fits] eqn:Hcap.
  apply capacity_admits_slots in Hcap as [Hh Hp]. cbn in Hh, Hp. cbn. rewrite put_bucket_slots, Hh, Hp, Hb.
  by destruct (bool_decide_reflect (l0 = l ∧ k0 = k)) as [[<- <-]|].
Qed.

(** A level that admits has a free slot. *)
Lemma levelAdmits_free s l k need emergency nowMs config c :
  levelConfig options l = Some config → concurrency config = Some c →
  (levelAdmits options s l k need emergency nowMs).2 = true → ((slots_of s l k).1 < c)%Z.
Proof.
  intros Hl Hc. unfold levelAdmits. rewrite Hl, <- (bucketFor_slots s l k nowMs). cbn.
  set (b := bucketFor options s l k nowMs).
  destruct (capacity_admits config _ (set_debts b _) need nowMs) as [b' fits] eqn:Hcap. cbn.
  apply capacity_admits_slots in Hcap as [Hh _]. cbn in Hh.
  unfold semaphore_admits. rewrite Hc, Hh, andb_true_iff, negb_true_iff. intros [_ Hlt]. lia.
Qed.

Lemma levelAdmits_frame s l k need emergency nowMs :
  sc_tickets (levelAdmits options s l k need emergency nowMs).1 = sc_tickets s.
Proof.
  unfold levelAdmits. destruct (levelConfig options l); [|done]. by destruct (capacity_admits _ _ _ _ _).
Qed.

Definition same_slots s s' : Prop :=
  sc_tickets s' = sc_tickets s ∧ ∀ l k, slots_of s' l k = slots_of s l k.

Lemma same_slots_refl s : same_slots s s.
Proof. done. Qed.

Lemma same_slots_trans s s1 s2 : same_slots s s1 → same_slots s1 s2 → same_slots s s2.
Proof. intros [Ht1 Hs1] [Ht2 Hs2]. split; [congruence|]. intros l k. by rewrite Hs2. Qed.

Lemma levelAdmits_same s l k need emergency nowMs s' r :
  levelAdmits options s l k need emergency nowMs = (s', r) → same_slots s s'.
Proof.
  intros E. split.
  - pose proof (levelAdmits_frame s l k need emergency nowMs) as Hf. by rewrite E in Hf.
  - intros l' k'. pose proof (levelAdmits_slots s l k need emergency nowMs l' k') as Hs. by rewrite E in Hs.
Qed.

(** Every semaphore of the keys has a free slot. *)
Definition slots_free s (keys : AdmissionLevelKeys) (levels : list LevelName) : Prop :=
  ∀ l k config c, l ∈ levels → level_key keys l = Some k → levelConfig options l = Some config →
    concurrency config = Some c → ((slots_of s l k).1 < c)%Z.

Lemma refusing_level_spec i nowMs levels s s' r :
  refusing_level options s i nowMs levels = (s', r) →
  same_slots s s' ∧ (r = None → slots_free s (it_keys i) levels).
Proof.
  revert s. induction levels as [|l levels IH]; intros s; cbn.
  { intros [= <- <-]. split; [done|]. intros _ ? ? ? ? ?%not_elem_of_nil. done. }
  destruct (level_key (it_keys i) l) as [k|] eqn:Hk.
  2:{ intros [Hs Hf]%IH. split; [done|]. intros Hr l' k' c c' [->|Hin]%elem_of_cons; [congruence|by apply Hf]. }
  destruct (levelConfig options l) as [config|] eqn:Hl.
  2:{ intros [Hs Hf]%IH. split; [done|]. intros Hr l' k' c c' [->|Hin]%elem_of_cons; [congruence|by apply Hf]. }
  destruct (levelAdmits options s l k _ _ nowMs) as [s1 admits] eqn:E.
  pose proof (levelAdmits_same _ _ _ _ _ _ _ _ E) as Hs1. destruct admits.
  - intros [Hs Hf]%IH. split; [by eapply same_slots_trans|].
    intros Hr l' k' c c' [->|Hin]%elem_of_cons Hk' Hl' Hc.
    + rewrite Hk in Hk'. injection Hk' as <-. eapply levelAdmits_free; [done|done|by rewrite E].
    + destruct Hs1 as [_ Hs1]. rewrite <- Hs1. by eapply Hf.
  - by intros [= <- <-].
Qed.

Lemma target_admits_spec i keys nowMs levels s s' r :
  target_admits options s i keys nowMs levels = (s', r) →
  same_slots s s' ∧ (r = true → slots_free s keys levels).
Proof.
  revert s. induction levels as [|l levels IH]; intros s; cbn.
  { intros [= <- <-]. split; [done|]. intros _ ? ? ? ? ?%not_elem_of_nil. done. }
  destruct (level_key keys l) as [k|] eqn:Hk.
  2:{ intros [Hs Hf]%IH. split; [done|]. intros Hr l' k' c c' [->|Hin]%elem_of_cons; [congruence|by apply Hf]. }
  destruct (levelAdmits options s l k _ _ nowMs) as [s1 admits] eqn:E.
  pose proof (levelAdmits_same _ _ _ _ _ _ _ _ E) as Hs1. destruct admits.
  - intros [Hs Hf]%IH. split; [by eapply same_slots_trans|].
    intros Hr l' k' c c' [->|Hin]%elem_of_cons Hk' Hl' Hc.
    + rewrite Hk in Hk'. injection Hk' as <-. eapply levelAdmits_free; [done|done|by rewrite E].
    + destruct Hs1 as [_ Hs1]. rewrite <- Hs1. by eapply Hf.
  - by intros [= <- <-].
Qed.

Lemma scan_spec order blocked nowMs s s' r :
  scan options s order blocked nowMs = (s', r) →
  same_slots s s' ∧ ∀ i, r = Some i → i ∈ order ∧ slots_free s (it_keys i) LEVELS.
Proof.
  revert s blocked. induction order as [|i order IH]; intros s blocked; cbn [scan].
  { intros [= <- <-]. done. }
  destruct (existsb _ (bucket_ids i)).
  { intros [Hs Hi]%IH. split; [done|]. intros j Hj. destruct (Hi j Hj). split; [by right|done]. }
  unfold firstRefusingLevel. destruct (refusing_level options s i nowMs LEVELS) as [s1 [l|]] eqn:E.
  - destruct (refusing_level_spec _ _ _ _ _ _ E) as [Hs1 _]. intros [Hs Hi]%IH.
    split; [by eapply same_slots_trans|]. intros j Hj. destruct (Hi j Hj) as [Hin Hf]. split; [by right|].
    intros l' k c c' Hl' Hk Hcf Hc. destruct Hs1 as [_ Hs1]. rewrite <- Hs1. by eapply Hf.
  - destruct (refusing_level_spec _ _ _ _ _ _ E) as [Hs1 Hf]. intros [= <- <-].
    split; [done|]. intros j [= <-]. split; [by left|by apply Hf].
Qed.
End Slots.
