(* ===== verification/AdmissionInv.v ===== *)
(** * The invariant of the admission semaphore, call by call *)
From S2P Require Import Prelude Num Json JsMap AdmissionAlgo Admission AdmissionSlots.

Section Invariant.
Context {T : Type} `{Num T} (options : MemoryAdmissionOptions T) (stringify_frac : Z → positive → string).
Implicit Types (s : Scheduler T) (i j : InternalTicket T) (l : LevelName).

Abbreviation sem := (sem options).
Abbreviation rows s := (jm_map (sc_tickets s)).

Definition bz (b : bool) : Z := if b then 1 else 0.

Record sem_ok s : Prop := {
  so_wf : jm_wf (sc_tickets s);
  so_keys : ∀ id i, jm_get (sc_tickets s) id = Some i → ticket_key i = id;
  so_parked : ∀ id i, jm_get (sc_tickets s) id = Some i → it_slotParked i = true →
    tk_state (it_ticket i) = st_expired;
  so_slots : ∀ l k, sem l = true →
    slots_of s l k = (Z.of_nat (count_rows (holds_at l k) (rows s)),
                      Z.of_nat (count_rows (parked_at l k) (rows s)));
  so_bound : ∀ l k config c, levelConfig options l = Some config → concurrency config = Some c →
    ((slots_of s l k).1 <= Z.max 0 c)%Z;
}.

Lemma sem_of l config c : levelConfig options l = Some config → concurrency config = Some c → sem l = true.
Proof. unfold AdmissionSlots.sem, counted. by intros -> ->. Qed.

Lemma sem_same s s' : same_slots s s' → sem_ok s → sem_ok s'.
Proof.
  intros [Ht Hs] [Hw Hk Hp Hc Hb]. split; rewrite ?Ht; try done.
  - intros l k Hl. by rewrite Hs, Hc.
  - intros l k config c Hl Hcc. rewrite Hs. by eapply Hb.
Qed.

(** The share of a row in the counts. *)
Definition share (P : InternalTicket T → bool) (o : option (InternalTicket T)) : Z :=
  from_option (fun j => bz (P j)) 0%Z o.

Lemma count_put (P : InternalTicket T → bool) (m : gmap string (InternalTicket T)) id i :
  Z.of_nat (count_rows P (<[id := i]> m)) = (Z.of_nat (count_rows P m) + bz (P i) - share P (m !! id))%Z.
Proof.
  pose proof (count_update P m id i) as Hc. unfold share, bz.
  destruct (m !! id) as [j|]; cbn in *; repeat case_match; lia.
Qed.

Lemma count_share (P : InternalTicket T → bool) (m : gmap string (InternalTicket T)) id :
  (share P (m !! id) <= Z.of_nat (count_rows P m))%Z.
Proof.
  pose proof (count_delete P m id) as Hc. unfold share, bz.
  destruct (m !! id) as [j|]; cbn in *; [case_match|]; lia.
Qed.

(** Replacing a row, with slots that move as its share does. *)
Lemma sem_swap s s' i :
  sem_ok s → sc_tickets s' = jm_set (sc_tickets s) (ticket_key i) i →
  (it_slotParked i = true → tk_state (it_ticket i) = st_expired) →
  (∀ l k, sem l = true → slots_of s' l k =
     ((slots_of s l k).1 + bz (holds_at l k i) - share (holds_at l k) (rows s !! ticket_key i),
      (slots_of s l k).2 + bz (parked_at l k i) - share (parked_at l k) (rows s !! ticket_key i))%Z) →
  (∀ l k config c, levelConfig options l = Some config → concurrency config = Some c →
     ((slots_of s l k).1 <= Z.max 0 c)%Z → ((slots_of s' l k).1 <= Z.max 0 c)%Z) →
  sem_ok s'.
Proof.
  intros [Hw Hk Hp Hc Hb] Ht Hi Hs Hbound. split; rewrite ?Ht.
  - by apply jm_wf_set.
  - intros id j. rewrite jm_get_set. case_decide as Hd; [by intros [= <-]|apply Hk].
  - intros id j. rewrite jm_get_set. case_decide; [by intros [= <-]|apply Hp].
  - intros l k Hl. rewrite Hs, Hc by done. cbn. by rewrite !count_put.
  - intros l k config c Hl Hcc. eapply Hbound; [done|done|]. by eapply Hb.
Qed.

(** A held slot is counted. *)
Lemma share_held s l k id :
  sem_ok s → sem l = true → (share (holds_at l k) (rows s !! id) <= (slots_of s l k).1)%Z.
Proof. intros Hok Hl. rewrite (so_slots s Hok l k Hl). apply count_share. Qed.

Lemma share_parked s l k id :
  sem_ok s → sem l = true → (share (parked_at l k) (rows s !! id) <= (slots_of s l k).2)%Z.
Proof. intros Hok Hl. rewrite (so_slots s Hok l k Hl). apply count_share. Qed.

(** The row of a ticket of the map. *)
Definition row_of s i : Prop := jm_get (sc_tickets s) (ticket_key i) = Some i.

Lemma get_row s u g i : sem_ok s → get_ticket s u g = Some i → row_of s i.
Proof. intros Hok Hg. unfold row_of. by rewrite (so_keys s Hok _ _ Hg). Qed.

Lemma not_parked s i : sem_ok s → row_of s i → tk_state (it_ticket i) ≠ st_expired → it_slotParked i = false.
Proof.
  intros Hok Hr Hne. destruct (it_slotParked i) eqn:E; [|done]. by destruct Hne; eapply so_parked.
Qed.

(** A row that keeps its slots. *)
Lemma sem_keep s j i :
  sem_ok s → row_of s j → ticket_key i = ticket_key j → it_keys i = it_keys j →
  it_slotParked i = it_slotParked j → is_granted i = is_granted j →
  (it_slotParked i = true → tk_state (it_ticket i) = st_expired) →
  sem_ok (put_ticket s i).
Proof.
  intros Hok Hr Hk Hkeys Hp Hg Hexp. unfold row_of, jm_get in Hr.
  assert (∀ l k, slots_of (put_ticket s i) l k = slots_of s l k) as Hs by done.
  eapply (sem_swap s); [done|done|done| |].
  - intros l k Hl. rewrite Hs, Hk, Hr. unfold share, holds_at, parked_at. cbn.
    rewrite Hkeys, Hp, Hg. destruct (slots_of s l k). cbn. f_equal; lia.
  - intros l k config c _ _. by rewrite Hs.
Qed.

Lemma add_op_keep s i opId : sem_ok s → row_of s i → sem_ok (put_ticket s (add_op i opId)).
Proof. intros Hok Hr. eapply (sem_keep s i); try done. exact (so_parked s Hok _ i Hr). Qed.

Lemma add_op_row s i opId : row_of (put_ticket s (add_op i opId)) (add_op i opId).
Proof. apply jm_get_set_eq. Qed.

Lemma applied_cases i opId :
  applied i opId = (i, true) ∨ applied i opId = (add_op i opId, false).
Proof. unfold applied. case_bool_decide; auto. Qed.

(** ** Renewals and covers *)

Lemma renew_ok s u g nowMs : sem_ok s → sem_ok (renew options s u g nowMs).
Proof.
  intros Hok. unfold renew. destruct (get_ticket s u g) as [i|] eqn:Hg; [|done].
  case_bool_decide as Hst; [|done]. pose proof (get_row _ _ _ _ Hok Hg) as Hr.
  eapply (sem_keep s i); try done. exact (so_parked s Hok _ i Hr).
Qed.

Lemma cover_ok s u g cover opId nowMs : sem_ok s → sem_ok (checkpointCover s u g cover opId nowMs).1.
Proof.
  intros Hok. unfold checkpointCover. destruct (get_ticket s u g) as [i|] eqn:Hg; [|done].
  pose proof (get_row _ _ _ _ Hok Hg) as Hr.
  destruct (negb _); [done|]. destruct (_ <=? nowMs)%Z; [done|].
  destruct (applied_cases i opId) as [-> | ->]; [done|]. cbn.
  eapply (sem_keep s i); try done. exact (so_parked s Hok _ i Hr).
Qed.

(** ** Minting *)

(** A fresh row that holds nothing. *)
Lemma sem_fresh s s' i :
  sem_ok s → (∀ l k, slots_of s' l k = slots_of s l k) →
  sc_tickets s' = jm_set (sc_tickets s) (ticket_key i) i →
  jm_get (sc_tickets s) (ticket_key i) = None → it_slotParked i = false → is_granted i = false →
  sem_ok s'.
Proof.
  intros Hok Hs Ht Hnone Hp Hg. unfold jm_get in Hnone.
  eapply (sem_swap s); [done|done|congruence| |].
  - intros l k Hl. rewrite Hs, Hnone. unfold holds_at, parked_at. rewrite Hp, Hg, !andb_false_r. cbn.
    destruct (slots_of s l k). cbn. f_equal; lia.
  - intros l k config c _ _. by rewrite Hs.
Qed.

Lemma mint_ok s request keys nowMs state denied :
  sem_ok s → get_ticket s (rq_unitId request) (rq_generation request) = None →
  state ≠ st_granted → sem_ok (mintTicket options s request keys nowMs state denied).1.
Proof.
  intros Hok Hnone Hst. unfold mintTicket. destruct (negb _); [done|]. cbn.
  eapply (sem_fresh s); try done. unfold is_granted. cbn. by apply bool_decide_eq_false_2.
Qed.

Lemma admit_ok s request nowMs :
  sem_ok s → get_ticket s (rq_unitId request) (rq_generation request) = None →
  sem_ok (admit_request options stringify_frac s request nowMs).1.
Proof.
  intros Hok Hnone. unfold admit_request. destruct (_ <? 1)%Z; [done|].
  destruct (tenants_disagree request) as [[]|]; [done|].
  destruct (find_first _ LEVELS); [done|]. destruct (find_first _ LEVELS) as [l|].
  - pose proof (mint_ok s request
      (admissionLevelKeys stringify_frac (rq_resolvedTenant request) (rq_scope request)) nowMs st_denied
      (Some (never_fits l)) Hok Hnone ltac:(done)) as Hm.
    destruct (mintTicket _ _ _ _ _ _ _) as [s' [|]]; exact Hm.
  - pose proof (mint_ok s request
      (admissionLevelKeys stringify_frac (rq_resolvedTenant request) (rq_scope request)) nowMs st_queued
      None Hok Hnone ltac:(done)) as Hm.
    destruct (mintTicket _ _ _ _ _ _ _) as [s' [|]]; exact Hm.
Qed.

(** ** Parked slots *)

Lemma unpark_spec s i nowMs s' i' :
  unparkSlots options s i nowMs = (s', i') →
  sc_tickets s' = sc_tickets s ∧ i' = set_parked i false ∧
  ∀ l k, slots_of s' l k =
    if it_slotParked i && keyed_at (it_keys i) l k && sem l
    then (Z.max 0 ((slots_of s l k).1 - 1), Z.max 0 ((slots_of s l k).2 - 1))%Z
    else slots_of s l k.
Proof.
  unfold unparkSlots. destruct (it_slotParked i) eqn:Hp.
  - intros [= <- <-]. split; [apply for_levels_frame|]. split; [done|]. intros l k. cbn [andb].
    by rewrite (semaphores_slots _ _ _ _ _ _ _ (fun p => (Z.max 0 (p.1 - 1), Z.max 0 (p.2 - 1))%Z)).
  - intros [= <- <-]. split_and!; [done| |done]. destruct i; cbn in *. by subst.
Qed.

(** Slots after returning a parked ticket's. *)
Lemma unpark_slots s i l k :
  sem_ok s → row_of s i → sem l = true →
  (if it_slotParked i && keyed_at (it_keys i) l k && sem l
   then (Z.max 0 ((slots_of s l k).1 - 1), Z.max 0 ((slots_of s l k).2 - 1))%Z
   else slots_of s l k) =
  ((slots_of s l k).1 - bz (parked_at l k i), (slots_of s l k).2 - bz (parked_at l k i))%Z.
Proof.
  intros Hok Hr Hl. rewrite Hl, andb_true_r. unfold row_of, jm_get in Hr.
  pose proof (share_parked s l k (ticket_key i) Hok Hl) as H2. pose proof (share_held s l k (ticket_key i) Hok Hl) as H1.
  rewrite Hr in H1, H2. unfold share in H1, H2. cbn in H1, H2. unfold holds_at in H1. unfold parked_at in *.
  destruct (keyed_at _ _ _), (it_slotParked i); cbn in *; rewrite ?orb_true_r in H1; cbn in H1;
    destruct (slots_of s l k); cbn in *; f_equal; lia.
Qed.

Lemma forget_ok s i nowMs :
  sem_ok s → row_of s i → tk_state (it_ticket i) ≠ st_granted →
  sem_ok (forget options s i nowMs) ∧
  jm_get (sc_tickets (forget options s i nowMs)) (ticket_key i) = None.
Proof.
  intros Hok Hr Hst. unfold forget. destruct (unparkSlots options s i nowMs) as [s1 i1] eqn:E.
  destruct (unpark_spec _ _ _ _ _ E) as (Ht & -> & Hs). change (ticket_key (set_parked i false)) with (ticket_key i).
  pose proof Hr as Hr'. unfold row_of, jm_get in Hr'.
  assert (∀ ts l k, slots_of (set_tickets s1 ts) l k = slots_of s1 l k) as Hs1 by done.
  assert (∀ P : InternalTicket T → bool,
    Z.of_nat (count_rows P (delete (ticket_key i) (rows s))) = (Z.of_nat (count_rows P (rows s)) - bz (P i))%Z) as Hcnt.
  { intros P. pose proof (count_delete P (rows s) (ticket_key i)) as Hc. rewrite Hr' in Hc. cbn in Hc.
    unfold bz. case_match; lia. }
  split; [|cbn [sc_tickets set_tickets]; rewrite jm_get_delete; by rewrite decide_True].
  split; cbn [sc_tickets set_tickets]; rewrite ?Ht.
  - apply jm_wf_delete, (so_wf s Hok).
  - intros id j. rewrite jm_get_delete. case_decide; [done|apply (so_keys s Hok)].
  - intros id j. rewrite jm_get_delete. case_decide; [done|apply (so_parked s Hok)].
  - intros l k Hl. rewrite Hs1, Hs, unpark_slots by done. unfold jm_delete. cbn [jm_map]. rewrite !Hcnt.
    rewrite (so_slots s Hok l k Hl). cbn [fst snd].
    assert (holds_at l k i = parked_at l k i) as ->; [|done].
    unfold holds_at, parked_at, is_granted. by rewrite bool_decide_eq_false_2.
  - intros l k config c Hl Hc. rewrite Hs1, Hs, unpark_slots by (try done; by eapply sem_of).
    pose proof (so_bound s Hok l k config c Hl Hc). cbn. unfold bz. case_match; lia.
Qed.

Lemma enqueue_ok s request nowMs :
  sem_ok s → sem_ok (enqueue_mint options stringify_frac s request nowMs).1.
Proof.
  intros Hok. unfold enqueue_mint. destruct (get_ticket s _ _) as [i|] eqn:Hg; [|by apply admit_ok].
  destruct (settled_before _) eqn:Hst; [|done]. pose proof (get_row _ _ _ _ Hok Hg) as Hr.
  destruct (forget_ok s i nowMs Hok Hr) as [Hok' Hnone].
  { intros Heq. by rewrite Heq in Hst. }
  apply admit_ok; [done|]. unfold get_ticket. by rewrite <- (so_keys s Hok _ _ Hg).
Qed.

(** ** Expiry *)

Lemma parkSlots_spec s i nowMs s' i' :
  parkSlots options s i nowMs = (s', i') →
  sc_tickets s' = sc_tickets s ∧ i' = set_parked i (existsb (has_semaphore options (it_keys i)) LEVELS) ∧
  ∀ l k, slots_of s' l k =
    if keyed_at (it_keys i) l k && sem l then ((slots_of s l k).1, (slots_of s l k).2 + 1)%Z else slots_of s l k.
Proof.
  unfold parkSlots. intros [= <- <-]. split; [apply for_levels_frame|]. split; [done|]. intros l k.
  by rewrite (semaphores_slots _ _ _ _ _ _ _ (fun p => (p.1, p.2 + 1)%Z)).
Qed.

Lemma has_semaphore_keyed keys l k : keyed_at keys l k = true → sem l = true →
  existsb (has_semaphore options keys) LEVELS = true.
Proof.
  intros Hk%bool_decide_eq_true_1 Hl. apply existsb_exists. exists l. split; [destruct l; cbn; auto|].
  unfold has_semaphore. rewrite Hk. exact Hl.
Qed.

Lemma expire_ok nowMs s id : sem_ok s → sem_ok (expire_ticket options nowMs s id).
Proof.
  intros Hok. unfold expire_ticket. destruct (jm_get (sc_tickets s) id) as [i|] eqn:Hg; [|done].
  case_bool_decide as Hst; cbn [andb]; [|done]. destruct (lease_over _ _); [|done].
  assert (row_of s i) as Hr by (unfold row_of; by rewrite (so_keys s Hok _ _ Hg)).
  pose proof (not_parked s i Hok Hr ltac:(congruence)) as Hnp.
  set (s1 := refundLevels _ _ _ _ _ _).
  destruct (parkSlots options s1 i nowMs) as [s2 i2] eqn:E.
  destruct (parkSlots_spec _ _ _ _ _ E) as (Ht & -> & Hs).
  assert (∀ l k, slots_of s1 l k = slots_of s l k) as Hs1.
  { intros l k. unfold s1. by rewrite refund_slots_of, andb_false_r. }
  assert (sc_tickets s1 = sc_tickets s) as Ht1 by apply for_levels_frame.
  eapply (sem_swap s); [done|cbn; by rewrite Ht, Ht1|by intros _| |].
  - intros l k Hl. change (slots_of (put_ticket ?a ?b) l k) with (slots_of a l k). rewrite Hs, !Hs1.
    unfold row_of, jm_get in Hr. change (ticket_key (with_ticket _ _)) with (ticket_key i). rewrite Hr.
    unfold share, holds_at, parked_at, is_granted. cbn -[LEVELS existsb].
    rewrite Hl, Hnp, Hst, andb_true_r.
    destruct (keyed_at (it_keys i) l k) eqn:Hk; cbn -[LEVELS existsb].
    + pose proof (has_semaphore_keyed _ _ _ Hk Hl) as Hx. cbn in Hx. rewrite Hx.
      change (bool_decide (st_expired = st_granted)) with false.
      change (bool_decide (st_granted = st_granted)) with true. cbn.
      destruct (slots_of s l k). cbn. f_equal; lia.
    + destruct (slots_of s l k). cbn. f_equal; lia.
  - intros l k config c Hl Hc. change (slots_of (put_ticket ?a ?b) l k) with (slots_of a l k).
    rewrite Hs, !Hs1. by destruct (_ && _).
Qed.

Lemma expire_leases_ok s nowMs : sem_ok s → sem_ok (expire_leases options s nowMs).
Proof.
  unfold expire_leases. generalize (jm_order (sc_tickets s)) as l. intros l. revert s.
  induction l as [|id l IH]; intros s Hok; cbn; [done|]. by apply IH, expire_ok.
Qed.

(** ** Grants *)

Lemma insert_row_perm {A} (tags : A → T * N) x (l : list A) : insert_row tags x l ≡ₚ x :: l.
Proof.
  induction l as [|y l IH]; cbn; [done|]. destruct (tag_before _ _); [done|]. rewrite IH. constructor.
Qed.

Lemma sfqGrantOrder_perm {A} (tags : A → T * N) (l : list A) : sfqGrantOrder tags l ≡ₚ l.
Proof.
  induction l as [|x l IH]; cbn; [done|]. unfold sfqGrantOrder in IH. by rewrite insert_row_perm, IH.
Qed.

Lemma queued_row s i :
  sem_ok s → i ∈ queuedInGrantOrder s → row_of s i ∧ tk_state (it_ticket i) = st_queued.
Proof.
  intros Hok Hi. unfold queuedInGrantOrder in Hi. rewrite sfqGrantOrder_perm in Hi.
  apply list_elem_of_In, filter_In in Hi as [Hi Hq]. apply bool_decide_eq_true_1 in Hq. split; [|done].
  apply list_elem_of_In, list_elem_of_omap in Hi as (id & _ & Hid).
  unfold row_of. rewrite (so_keys s Hok id i Hid). exact Hid.
Qed.

Lemma grant_ok s i nowMs s' t :
  sem_ok s → row_of s i → tk_state (it_ticket i) = st_queued → slots_free options s (it_keys i) LEVELS →
  grant options s i nowMs = (s', t) → sem_ok s'.
Proof.
  intros Hok Hr Hst Hfree. unfold grant. intros [= <- _].
  pose proof (not_parked s i Hok Hr ltac:(congruence)) as Hnp.
  eapply (sem_swap s _ (with_ticket i (granted_ticket options (it_ticket i) nowMs))); [done| | | |].
  - cbn [sc_tickets put_ticket set_tickets]. unfold consumeLevels. by rewrite for_levels_frame.
  - cbn. congruence.
  - intros l k Hl. change (slots_of (mkScheduler _ _ _ _ _) l k) with (slots_of (consumeLevels options s i nowMs) l k).
    rewrite consume_slots, Hl, andb_true_r. unfold row_of, jm_get in Hr.
    change (ticket_key (with_ticket _ _)) with (ticket_key i). rewrite Hr.
    unfold share, holds_at, parked_at, is_granted. cbn. rewrite Hnp, Hst.
    change (bool_decide (st_granted = st_granted)) with true.
    change (bool_decide (st_queued = st_granted)) with false. rewrite !andb_false_r.
    destruct (keyed_at (it_keys i) l k); cbn; destruct (slots_of s l k); cbn; f_equal; lia.
  - intros l k config c Hl Hc Hb.
    change (slots_of (mkScheduler _ _ _ _ _) l k) with (slots_of (consumeLevels options s i nowMs) l k).
    rewrite consume_slots. destruct (keyed_at (it_keys i) l k) eqn:Hk; cbn [andb]; [|done].
    destruct (AdmissionSlots.sem options l); [|done]. apply bool_decide_eq_true_1 in Hk. cbn.
    assert (l ∈ LEVELS) as Hin by (apply list_elem_of_In; destruct l; cbn; auto).
    specialize (Hfree l k config c Hin Hk Hl Hc). lia.
Qed.

(** What every pass of the pump keeps, the loop keeps. *)
Lemma grant_loop_inv (P : Scheduler T → Prop) fuel s nowMs :
  (∀ s s', same_slots s s' → P s → P s') →
  (∀ s i s' t, sem_ok s → row_of s i → tk_state (it_ticket i) = st_queued →
     grant options s i nowMs = (s', t) → P s → P s') →
  sem_ok s → P s → sem_ok (grant_loop options fuel s nowMs).1 ∧ P (grant_loop options fuel s nowMs).1.
Proof.
  intros Hsame Hgrant. revert s. induction fuel as [|fuel IH]; intros s Hok HP; cbn [grant_loop]; [done|].
  destruct (scan options s (queuedInGrantOrder s) ∅ nowMs) as [s1 [i|]] eqn:E;
    destruct (scan_spec _ _ _ _ _ _ _ E) as [Hs Hi].
  2: { split; [by eapply sem_same|by eapply Hsame]. }
  destruct (Hi i eq_refl) as [Hin Hfree]. destruct (queued_row s i Hok Hin) as [Hr Hst].
  assert (sem_ok s1) as Hok1 by (by eapply sem_same).
  assert (row_of s1 i) as Hr1 by (unfold row_of; by rewrite (proj1 Hs)).
  destruct (grant options s1 i nowMs) as [s2 t] eqn:Hg.
  assert (sem_ok s2) as Hok2.
  { apply (grant_ok s1 i nowMs s2 t); try done.
    intros l k config c Hl Hk Hcf Hc. rewrite (proj2 Hs). by eapply Hfree. }
  specialize (IH s2 Hok2 ltac:(eapply Hgrant; [exact Hok1|..]; try done; by eapply Hsame)).
  destruct (grant_loop options fuel s2 nowMs) as [s3 ts]. exact IH.
Qed.

Lemma pump_ok s nowMs : sem_ok s → sem_ok (pump options s nowMs).1.
Proof.
  intros Hok. unfold pump. by apply (grant_loop_inv (fun _ => True)); try apply expire_leases_ok.
Qed.

(** ** Settlements *)

Lemma settle_granted_ok s i j actuals nowMs :
  sem_ok s → row_of s j → ticket_key i = ticket_key j → it_keys i = it_keys j →
  it_slotParked i = it_slotParked j →
  tk_state (it_ticket j) = st_granted → sem_ok (settle_granted options s i actuals nowMs).
Proof.
  intros Hok Hr Hkey Hkeys Hpk Hst. pose proof (not_parked s j Hok Hr ltac:(congruence)) as Hnp.
  rewrite Hnp in Hpk. unfold settle_granted. set (back := wires _). set (over := Z.max 0 _).
  set (s1 := refundLevels _ _ _ _ _ _). set (s2 := recordDebt _ _ _ _ _).
  assert (sc_tickets s2 = sc_tickets s) as Ht.
  { unfold s2, recordDebt. destruct (over <=? 0)%Z; rewrite ?for_levels_frame; apply for_levels_frame. }
  assert (∀ l k, slots_of s2 l k =
    if keyed_at (it_keys i) l k && sem l then (Z.max 0 ((slots_of s l k).1 - 1), (slots_of s l k).2)
    else slots_of s l k) as Hs.
  { intros l k. unfold s2. rewrite debt_slots. unfold s1. by rewrite refund_slots_of, andb_true_r. }
  pose proof Hr as Hr'. unfold row_of, jm_get in Hr'.
  eapply (sem_swap s _ (with_ticket i (set_ticket_state (it_ticket i) st_released))); [done| | | |].
  - cbn. by rewrite Ht.
  - cbn. congruence.
  - intros l k Hl. change (slots_of (put_ticket ?a ?b) l k) with (slots_of a l k). rewrite Hs, Hl, andb_true_r.
    change (ticket_key (with_ticket _ _)) with (ticket_key i). rewrite Hkey, Hr'.
    pose proof (share_held s l k (ticket_key j) Hok Hl) as H1. rewrite Hr' in H1.
    unfold share, holds_at, parked_at, is_granted in *. cbn in *. rewrite Hpk, <- Hkeys, Hnp, Hst in *.
    change (bool_decide (st_granted = st_granted)) with true in *.
    change (bool_decide (st_released = st_granted)) with false. rewrite !andb_false_r.
    destruct (keyed_at (it_keys i) l k); cbn in *; destruct (slots_of s l k); cbn in *; f_equal; lia.
  - intros l k config c Hl Hc Hb. change (slots_of (put_ticket ?a ?b) l k) with (slots_of a l k).
    rewrite Hs. destruct (_ && _); cbn; lia.
Qed.

Lemma settle_expired_ok s i j actuals nowMs :
  sem_ok s → row_of s j → ticket_key i = ticket_key j → it_keys i = it_keys j →
  it_slotParked i = it_slotParked j → it_ticket i = it_ticket j →
  tk_state (it_ticket j) = st_expired → sem_ok (settle_expired options s i actuals nowMs).
Proof.
  intros Hok Hr Hkey Hkeys Hpk Htk Hst. unfold settle_expired. set (over := Z.max 0 _).
  set (s1 := recordDebt _ _ _ _ _). destruct (unparkSlots options s1 i nowMs) as [s2 i2] eqn:E.
  destruct (unpark_spec _ _ _ _ _ E) as (Ht & -> & Hs).
  assert (∀ l k, slots_of s1 l k = slots_of s l k) as Hs1 by (intros; apply debt_slots).
  assert (sc_tickets s1 = sc_tickets s) as Ht1.
  { unfold s1, recordDebt. destruct (over <=? 0)%Z; [done|apply for_levels_frame]. }
  pose proof Hr as Hr'. unfold row_of, jm_get in Hr'.
  assert (∀ l k, sem l = true → slots_of s2 l k =
    ((slots_of s l k).1 - bz (parked_at l k j), (slots_of s l k).2 - bz (parked_at l k j))%Z) as Hs2.
  { intros l k Hl. rewrite Hs, !Hs1, Hpk, Hkeys. by apply unpark_slots. }
  eapply (sem_swap s _ (set_parked i false)); [done| |done| |].
  - cbn. by rewrite Ht, Ht1.
  - intros l k Hl. change (slots_of (put_ticket ?a ?b) l k) with (slots_of a l k). rewrite Hs2 by done.
    change (ticket_key (set_parked _ _)) with (ticket_key i). rewrite Hkey, Hr'.
    unfold share, holds_at, parked_at, is_granted. cbn. rewrite Htk, Hst.
    change (bool_decide (st_expired = st_granted)) with false. rewrite !andb_false_r. cbn. f_equal; lia.
  - intros l k config c Hl Hc Hb. change (slots_of (put_ticket ?a ?b) l k) with (slots_of a l k).
    rewrite Hs2 by (by eapply sem_of). cbn. unfold bz. case_match; lia.
Qed.

Lemma release_ok s u g actuals opId nowMs :
  sem_ok s → sem_ok (release options s u g actuals opId nowMs).
Proof.
  intros Hok. unfold release. destruct (get_ticket s u g) as [i|] eqn:Hg; [|done].
  pose proof (get_row _ _ _ _ Hok Hg) as Hr.
  destruct (applied_cases i opId) as [-> | ->]; [done|].
  change (tk_state (it_ticket (add_op i opId))) with (tk_state (it_ticket i)).
  destruct (tk_state (it_ticket i)) eqn:Hst; try (by apply add_op_keep).
  - by apply (settle_granted_ok s _ i).
  - by apply (settle_expired_ok s _ i).
Qed.

Lemma cancel_mark_ok s u g opId : sem_ok s → sem_ok (cancel_mark s u g opId).1.
Proof.
  intros Hok. unfold cancel_mark. destruct (get_ticket s u g) as [i|] eqn:Hg; [|done].
  pose proof (get_row _ _ _ _ Hok Hg) as Hr.
  destruct (applied_cases i opId) as [-> | ->]; [done|].
  change (tk_state (it_ticket (add_op i opId))) with (tk_state (it_ticket i)).
  destruct (tk_state (it_ticket i)) eqn:Hst; try (by apply add_op_keep). cbn [fst].
  pose proof (not_parked s i Hok Hr ltac:(congruence)) as Hnp.
  eapply (sem_keep s i); try done.
  - unfold is_granted. cbn. by rewrite Hst.
  - cbn. congruence.
Qed.

(** ** The transfer *)

Lemma rebind_ok s u g scope opId nowMs :
  sem_ok s → sem_ok (rebind options stringify_frac s u g scope opId nowMs).1.
Proof.
  intros Hok. unfold rebind. destruct (get_ticket s u g) as [i|] eqn:Hg; [|done].
  pose proof (get_row _ _ _ _ Hok Hg) as Hr. case_bool_decide as Hst; cbn [negb]; [|done].
  pose proof (not_parked s i Hok Hr ltac:(congruence)) as Hnp.
  destruct (applied_cases i opId) as [-> | ->]; [done|].
  pose proof (add_op_keep s i opId Hok Hr) as Hok0. pose proof (add_op_row s i opId) as Hr0.
  set (i0 := add_op i opId) in *. set (s0 := put_ticket s i0) in *. clearbody s0.
  set (keys := admissionLevelKeys _ _ _). destruct (find_first _ LEVELS); [done|].
  destruct (target_admits options s0 i0 keys nowMs LEVELS) as [s1 admits] eqn:E.
  destruct (target_admits_spec _ _ _ _ _ _ _ _ E) as [Hs1 Hfree].
  destruct admits; [|by eapply sem_same]. specialize (Hfree eq_refl). cbn [fst].
  set (i1 := rebound i0 keys scope). set (s2 := consumeLevels _ _ _ _).
  assert (∀ l k, slots_of s2 l k = if keyed_at keys l k && sem l
    then ((slots_of s0 l k).1 + 1, (slots_of s0 l k).2)%Z else slots_of s0 l k) as Hs2.
  { intros l k. unfold s2. rewrite consume_slots. cbn.
    change (slots_of (put_ticket ?a ?b) l k) with (slots_of a l k). by rewrite (proj2 Hs1). }
  unfold row_of, jm_get in Hr0.
  eapply (sem_swap s0 _ i1); [done| |cbn; congruence| |].
  - unfold refundLevels, s2, consumeLevels. rewrite !for_levels_frame. cbn [sc_tickets put_ticket set_tickets]. by rewrite (proj1 Hs1).
  - intros l k Hl. rewrite refund_slots_of, andb_true_r, !Hs2, Hl, !andb_true_r.
    change (ticket_key i1) with (ticket_key i0). rewrite Hr0.
    pose proof (share_held s0 l k (ticket_key i0) Hok0 Hl) as H1. rewrite Hr0 in H1.
    unfold share, holds_at, parked_at, is_granted in *. cbn in *. rewrite Hnp, Hst in *.
    change (bool_decide (st_granted = st_granted)) with true in *. rewrite !andb_false_r.
    destruct (keyed_at (it_keys i) l k), (keyed_at keys l k); cbn in *; destruct (slots_of s0 l k); cbn in *;
      f_equal; lia.
  - intros l k config c Hl Hc Hb. rewrite refund_slots_of, andb_true_r, !Hs2.
    assert (keyed_at keys l k = true → ((slots_of s0 l k).1 < c)%Z) as Hlt.
    { intros Hk%bool_decide_eq_true_1. eapply Hfree; [|done..]. apply list_elem_of_In; destruct l; cbn; auto. }
    rewrite (sem_of l config c Hl Hc), !andb_true_r.
    destruct (keyed_at keys l k); [specialize (Hlt eq_refl)|]; destruct (keyed_at (it_keys i0) l k); cbn; lia.
Qed.

Lemma run_segment_ok s seg nowMs :
  sem_ok s → sem_ok (run_segment options stringify_frac s seg nowMs).
Proof.
  intros Hok. destruct seg; cbn [run_segment]; by first
    [ apply enqueue_ok | apply pump_ok | apply renew_ok | apply cover_ok | apply release_ok
    | apply cancel_mark_ok | apply rebind_ok ].
Qed.

Lemma empty_ok : sem_ok empty_scheduler.
Proof.
  split; cbn; try done; [apply jm_wf_empty|].
  intros lv bk config c _ _. unfold slots_of. cbn. rewrite lookup_empty. cbn. lia.
Qed.

Lemma run_segments_ok s segs : sem_ok s → sem_ok (run_segments options stringify_frac s segs).
Proof.
  unfold run_segments. revert s. induction segs as [|seg segs IH]; intros s Hok; cbn; [done|].
  by apply IH, run_segment_ok.
Qed.
End Invariant.
