(* ===== verification/AdmissionLaws.v ===== *)
(** * The laws of the admission scheduler (packages/core/src/admission/memory.ts)

    Slots over any interleaving, the order of grants, one settlement per ticket,
    and the sliding window's bound. *)
From Stdlib Require Import QArith.
From S2P Require Import Prelude Num Json JsMap AdmissionAlgo Admission AdmissionSlots AdmissionInv.

(** ** The order of grants *)

Section Grants.
Context {T : Type} `{Num T} (options : MemoryAdmissionOptions T).
Implicit Types (s : Scheduler T) (i h : InternalTicket T).

(** The ticket was refused at the level of this bucket, on the slots of [s]. *)
Definition refused_at s nowMs h (id : string) : Prop :=
  ∃ s1 level bucketKey, same_slots s s1 ∧ level_key (it_keys h) level = Some bucketKey ∧
    id = bucket_id level bucketKey ∧
    (levelAdmits options s1 level bucketKey (wires (tk_reservation (it_ticket h)))
       (rq_emergency (it_request h)) nowMs).2 = false.

(** The ticket waits at, or behind, a blocked bucket. *)
Definition waits_on (blocked : gset string) h : Prop := ∃ id, id ∈ bucket_ids h ∧ id ∈ blocked.

(** The blocked buckets of a pass are the initial ones and those that refused. *)
Definition blocked_by (s : Scheduler T) nowMs (initial blocked : gset string) (before : list (InternalTicket T)) : Prop :=
  initial ⊆ blocked ∧
  ∀ id, id ∈ blocked → id ∈ initial ∨ ∃ h, h ∈ before ∧ id ∈ bucket_ids h ∧ refused_at s nowMs h id.

Lemma waits_spec blocked h :
  existsb (fun id => bool_decide (id ∈ blocked)) (bucket_ids h) = true ↔ waits_on blocked h.
Proof.
  rewrite existsb_elem_of. unfold waits_on. by setoid_rewrite bool_decide_eq_true.
Qed.

Lemma refusing_level_refused h nowMs levels s s' level :
  refusing_level options s h nowMs levels = (s', Some level) →
  same_slots s s' ∧ ∃ k, level_key (it_keys h) level = Some k ∧ refused_at s nowMs h (bucket_id level k).
Proof.
  revert s. induction levels as [|l levels IH]; intros s; cbn [refusing_level]; [done|].
  destruct (level_key (it_keys h) l) as [k|] eqn:Hk; [|apply IH].
  destruct (levelConfig options l); [|apply IH].
  destruct (levelAdmits options s l k _ _ nowMs) as [s1 admits] eqn:E.
  pose proof (levelAdmits_same _ _ _ _ _ _ _ _ _ E) as Hs1. destruct admits.
  - intros (Hs & k' & Hk' & s2 & l2 & k2 & Hs2 & ?)%IH.
    split; [by eapply same_slots_trans|]. exists k'. split; [done|]. exists s2, l2, k2.
    split; [by eapply same_slots_trans|done].
  - intros [= <- <-]. split; [done|]. exists k. split; [done|]. exists s, l, k. by rewrite E.
Qed.

Lemma refused_same s s1 nowMs h id : same_slots s s1 → refused_at s1 nowMs h id → refused_at s nowMs h id.
Proof.
  intros Hs (s2 & l & k & Hs2 & Hrest). exists s2, l, k. split; [by eapply same_slots_trans|done].
Qed.

Lemma bucket_id_of i level k : level_key (it_keys i) level = Some k → bucket_id level k ∈ bucket_ids i.
Proof.
  intros Hk. unfold bucket_ids. apply list_elem_of_omap. exists level.
  rewrite Hk. split; [apply list_elem_of_In; destruct level; cbn; auto|done].
Qed.

(** A pass: everything before the granted ticket waits at a blocked bucket, the
    granted one at none; a pass without a grant leaves everything waiting. *)
Lemma scan_order order initial nowMs s s' r :
  scan options s order initial nowMs = (s', r) →
  ∃ before blocked, blocked_by s nowMs initial blocked before ∧
    (∀ h, h ∈ before → waits_on blocked h) ∧
    match r with
    | Some i => (∃ after, order = before ++ i :: after) ∧ ¬ waits_on blocked i
    | None => before = order
    end.
Proof.
  revert s initial. induction order as [|h order IH]; intros s initial; cbn [scan].
  { intros [= <- <-]. exists [], initial. split; [by split; auto|]. by split; [set_solver|]. }
  destruct (existsb _ (bucket_ids h)) eqn:Hw.
  - apply waits_spec in Hw. intros (before & blocked & [Hsub Hb] & Hwait & Hr)%IH.
    exists (h :: before), blocked. split_and!.
    + split; [done|]. intros id [?|(h' & ? & ?)]%Hb; [by left|right; exists h'; set_solver].
    + intros h' [->|Hin]%elem_of_cons; [|by apply Hwait]. destruct Hw as (id & ? & ?). exists id. set_solver.
    + destruct r as [i|]; [|by subst]. destruct Hr as [[after ->] Hn]. split; [by exists after|done].
  - unfold firstRefusingLevel. destruct (refusing_level options s h nowMs LEVELS) as [s1 [level|]] eqn:E.
    + destruct (refusing_level_refused _ _ _ _ _ _ E) as (Hs1 & k & Hk & Href). rewrite Hk.
      intros (before & blocked & [Hsub Hb] & Hwait & Hr)%IH. exists (h :: before), blocked. split_and!.
      * split; [set_solver|]. intros id [Hid|(h' & ? & ? & Hr')]%Hb.
        -- apply elem_of_union in Hid as [->%elem_of_singleton|?]; [|by left]. right. exists h.
           split_and!; [by left|by apply bucket_id_of|done].
        -- right. exists h'. split_and!; [by right|done|by eapply refused_same].
      * intros h' [->|Hin]%elem_of_cons; [|by apply Hwait]. exists (bucket_id level k).
        split; [by apply bucket_id_of|set_solver].
      * destruct r as [i|]; [|by subst]. destruct Hr as [[after ->] Hn]. split; [by exists after|done].
    + intros [= <- <-]. exists [], initial. split; [by split; auto|]. split; [set_solver|]. split; [by exists order|].
      intros Hx%waits_spec. congruence.
Qed.

(** Rows in grant order are sorted by start tag, then arrival. *)
Lemma tag_before_iff `{!NumLaws T} (a b : T * N) :
  tag_before a b = true ↔ num_leb a.1 b.1 = true ∧ (num_leb b.1 a.1 = true → (a.2 <= b.2)%N).
Proof.
  unfold tag_before, num_eqb, num_ltb. pose proof (num_leb_total a.1 b.1) as Hab.
  destruct (num_leb b.1 a.1) eqn:E1, (num_leb a.1 b.1) eqn:E2; cbn; rewrite ?N.leb_le; naive_solver.
Qed.

Lemma tag_before_total `{!NumLaws T} (a b : T * N) : tag_before a b = false → tag_before b a = true.
Proof.
  unfold tag_before, num_eqb, num_ltb. pose proof (num_leb_total a.1 b.1) as Hab.
  destruct (num_leb b.1 a.1) eqn:E1, (num_leb a.1 b.1) eqn:E2; cbn; try done.
  intros ?%N.leb_gt. apply N.leb_le. lia.
Qed.

Lemma tag_before_trans `{!NumLaws T} (a b c : T * N) :
  tag_before a b = true → tag_before b c = true → tag_before a c = true.
Proof.
  rewrite !tag_before_iff. intros [Hab Ha] [Hbc Hb]. split; [by eapply num_leb_trans|].
  intros Hca. pose proof (Ha (num_leb_trans _ _ _ Hbc Hca)). pose proof (Hb (num_leb_trans _ _ _ Hca Hab)). lia.
Qed.

Definition in_order (i h : InternalTicket T) : Prop := tag_before (start_tags i) (start_tags h) = true.

Lemma insert_row_sorted `{!NumLaws T} i (l : list (InternalTicket T)) :
  StronglySorted in_order l → StronglySorted in_order (insert_row start_tags i l).
Proof.
  induction l as [|j l IH]; intros Hl; cbn; [repeat constructor|].
  apply StronglySorted_inv in Hl as [Hl Hj]. destruct (tag_before (start_tags i) (start_tags j)) eqn:E.
  - constructor; [by constructor|]. constructor; [done|]. eapply Forall_impl; [exact Hj|].
    intros x Hx. eapply tag_before_trans; [exact E|exact Hx].
  - constructor; [by apply IH|]. rewrite insert_row_perm. constructor; [|done]. by apply tag_before_total.
Qed.

Lemma grant_order_sorted `{!NumLaws T} s : StronglySorted in_order (queuedInGrantOrder s).
Proof.
  unfold queuedInGrantOrder. induction (List.filter is_queued _) as [|i l IH]; cbn; [constructor|].
  by apply insert_row_sorted.
Qed.
End Grants.

(** ** The pump *)

Section Pump.
Context {T : Type} `{Num T} (options : MemoryAdmissionOptions T).
Implicit Types (s : Scheduler T) (i h : InternalTicket T).

(** The passes of a pump: each grants the first ticket that waits at no bucket a
    predecessor was refused at; the last finds every queued ticket waiting. *)
Inductive passes (nowMs : Z) : Scheduler T → list (AdmissionTicket T) → Scheduler T → Prop :=
  | pass_stop s s' blocked :
      same_slots s s' → blocked_by options s nowMs ∅ blocked (queuedInGrantOrder s) →
      (∀ h, h ∈ queuedInGrantOrder s → waits_on blocked h) →
      passes nowMs s [] s'
  | pass_grant s s1 i before after blocked s2 t ts s' :
      queuedInGrantOrder s = before ++ i :: after → same_slots s s1 →
      blocked_by options s nowMs ∅ blocked before → (∀ h, h ∈ before → waits_on blocked h) →
      ¬ waits_on blocked i → slots_free options s (it_keys i) LEVELS →
      grant options s1 i nowMs = (s2, t) → passes nowMs s2 ts s' →
      passes nowMs s (t :: ts) s'.

Lemma filter_set_length (P : InternalTicket T → bool) (m : jsmap string (InternalTicket T)) id i j :
  jm_wf m → jm_get m id = Some j →
  (length (List.filter P (jm_values (jm_set m id i))) + (if P j then 1 else 0) =
   length (List.filter P (jm_values m)) + (if P i then 1 else 0))%nat.
Proof.
  intros [Hnd Hk] Hj. unfold jm_get in Hj. unfold jm_values. cbn. rewrite decide_True by (by rewrite Hj).
  assert (id ∈ jm_order m) as (l1 & l2 & Ho)%list_elem_of_split by (apply Hk; by eexists).
  assert (∀ l : list string, id ∉ l →
    omap (M := list) (fun k => <[id:=i]> (jm_map m) !! k) l =
    omap (M := list) (fun k => jm_map m !! k) l) as Hfresh.
  { induction l as [|k l IH]; [done|]. intros [Hne Hl]%not_elem_of_cons. cbn.
    by rewrite lookup_insert_ne, IH. }
  rewrite Ho in *. apply NoDup_app in Hnd as (_ & Hd & [Hn2 _]%NoDup_cons).
  assert (id ∉ l1) as Hn1 by (intros ?; eapply Hd; [done|left]).
  rewrite !omap_app, !List.filter_app, !length_app. cbn. rewrite lookup_insert_eq, Hj, !Hfresh by done. cbn.
  destruct (P i), (P j); cbn; lia.
Qed.

Lemma queue_length s : length (queuedInGrantOrder s) = length (List.filter is_queued (jm_values (sc_tickets s))).
Proof. unfold queuedInGrantOrder. apply Permutation_length, sfqGrantOrder_perm. Qed.

Lemma grant_shrinks s i nowMs s' t :
  sem_ok options s → row_of s i → tk_state (it_ticket i) = st_queued →
  grant options s i nowMs = (s', t) →
  S (length (queuedInGrantOrder s')) = length (queuedInGrantOrder s).
Proof.
  intros Hok Hr Hst. rewrite !queue_length. unfold grant. intros [= <- _].
  cbn [sc_tickets put_ticket set_tickets]. unfold consumeLevels. rewrite for_levels_frame.
  change (ticket_key (with_ticket _ _)) with (ticket_key i).
  pose proof (filter_set_length is_queued (sc_tickets s) (ticket_key i)
    (with_ticket i (granted_ticket options (it_ticket i) nowMs)) i (so_wf _ s Hok) Hr) as Hl.
  assert (is_queued i = true) as Hq by (unfold is_queued; rewrite Hst; done).
  assert (is_queued (with_ticket i (granted_ticket options (it_ticket i) nowMs)) = false) as Hg by done.
  rewrite Hq, Hg in Hl. lia.
Qed.

Lemma grant_loop_passes fuel s nowMs s' ts :
  sem_ok options s → (length (queuedInGrantOrder s) < fuel)%nat →
  grant_loop options fuel s nowMs = (s', ts) → passes nowMs s ts s'.
Proof.
  revert s s' ts. induction fuel as [|fuel IH]; intros s s' ts Hok Hlen; cbn [grant_loop]; [lia|].
  destruct (scan options s (queuedInGrantOrder s) ∅ nowMs) as [s1 r] eqn:E.
  destruct (scan_spec _ _ _ _ _ _ _ E) as [Hs Hi].
  destruct (scan_order _ _ _ _ _ _ _ E) as (before & blocked & Hb & Hw & Hr).
  destruct r as [i|].
  - destruct (Hi i eq_refl) as [Hin Hfree]. destruct (queued_row _ s i Hok Hin) as [Hrow Hst].
    destruct Hr as [[after Ho] Hn]. destruct (grant options s1 i nowMs) as [s2 t] eqn:Hg.
    assert (sem_ok options s1) as Hok1 by (by eapply sem_same).
    assert (row_of s1 i) as Hrow1 by (unfold row_of; by rewrite (proj1 Hs)).
    assert (sem_ok options s2) as Hok2.
    { apply (grant_ok options s1 i nowMs s2 t); try done.
      intros l k config c Hl Hk Hcf Hc. rewrite (proj2 Hs). by eapply Hfree. }
    pose proof (grant_shrinks s1 i nowMs s2 t Hok1 Hrow1 Hst Hg) as Hsh.
    assert (queuedInGrantOrder s1 = queuedInGrantOrder s) as Hq by (unfold queuedInGrantOrder; by rewrite (proj1 Hs)).
    rewrite Hq in Hsh.
    destruct (grant_loop options fuel s2 nowMs) as [s3 ts'] eqn:El. intros [= <- <-].
    eapply pass_grant; try done. apply (IH s2); [done|lia|done].
  - intros [= <- <-]. subst before. by eapply pass_stop.
Qed.
End Pump.

(** A scheduler some interleaving of calls leads to, from an empty one. *)
Definition reachable {T} `{Num T} (options : MemoryAdmissionOptions T) stringify_frac (s : Scheduler T) : Prop :=
  ∃ segs, s = run_segments options stringify_frac empty_scheduler segs.

Lemma reachable_ok {T} `{Num T} (options : MemoryAdmissionOptions T) stringify_frac s :
  reachable options stringify_frac s → sem_ok options s.
Proof. intros [segs ->]. apply run_segments_ok, empty_ok. Qed.

(** C4: the semaphore.  After any interleaving of enqueues, pumps, renewals, covers,
    releases, cancellations and transfers, at any clock values, a bucket of a level
    with [concurrency] counts exactly the tickets that hold one of its slots (the
    granted ones and those that expired without settling), [parked] counts the
    latter, and no more than [concurrency] tickets hold a slot at once. *)
Theorem semaphore_counts_holders {T} `{Num T} (options : MemoryAdmissionOptions T) stringify_frac s
    level config c bucketKey :
  reachable options stringify_frac s →
  levelConfig options level = Some config → concurrency config = Some c →
  let holders := Z.of_nat (count_rows (holds_at level bucketKey) (jm_map (sc_tickets s))) in
  slots_of s level bucketKey =
    (holders, Z.of_nat (count_rows (parked_at level bucketKey) (jm_map (sc_tickets s)))) ∧
  (holders <= Z.max 0 c)%Z.
Proof.
  intros Hr%reachable_ok Hl Hc holders.
  pose proof (so_slots _ s Hr level bucketKey (sem_of _ _ _ _ Hl Hc)) as Hs. split; [exact Hs|].
  pose proof (so_bound _ s Hr level bucketKey config c Hl Hc) as Hb. by rewrite Hs in Hb.
Qed.

(** C5: the pump always returns, and what it grants is in fair order.  On every
    reachable scheduler its passes are complete: each grants, of the queued tickets
    by start tag and arrival, the first that waits at no bucket where a predecessor
    was refused, with a free slot at every level; and when it stops every ticket
    still queued waits at such a bucket. *)
Theorem pump_is_fair {T} `{Num T, !NumLaws T} (options : MemoryAdmissionOptions T) stringify_frac s nowMs :
  reachable options stringify_frac s →
  passes options nowMs (expire_leases options s nowMs) (pump options s nowMs).2 (pump options s nowMs).1 ∧
  ∀ s', StronglySorted in_order (queuedInGrantOrder s').
Proof.
  intros Hr%reachable_ok. split; [|apply grant_order_sorted]. unfold pump.
  destruct (grant_loop _ _ _ _) as [s' ts] eqn:E. eapply (grant_loop_passes _ _ _ _ _ _ _ _ E).
  Unshelve. all: [> by apply expire_leases_ok | lia].
Qed.

(** ** A settled unit *)

Section Settled.
Context {T : Type} `{Num T} (options : MemoryAdmissionOptions T) (stringify_frac : Z → positive → string).
Implicit Types (s : Scheduler T) (i h : InternalTicket T).

(** The states no call but a fresh enqueue of the unit leaves. *)
Definition terminal (state : AdmissionTicketState) : bool :=
  match state with st_released | st_refunded | st_denied => true | _ => false end.

Definition state_at s (id : string) : option AdmissionTicketState :=
  tk_state ∘ it_ticket <$> jm_get (sc_tickets s) id.

(** The segment does not enqueue the unit. *)
Definition enqueues (id : string) (seg : Segment (T := T)) : bool :=
  match seg with
  | seg_enqueue r => bool_decide (unit_key (rq_unitId r) (rq_generation r) = id)
  | _ => false
  end.

Lemma state_at_frame s s' id : sc_tickets s' = sc_tickets s → state_at s' id = state_at s id.
Proof. unfold state_at. by intros ->. Qed.

Lemma row_state s i : row_of s i → state_at s (ticket_key i) = Some (tk_state (it_ticket i)).
Proof. unfold state_at, row_of. by intros ->. Qed.

Lemma state_at_key s s' i id :
  sc_tickets s' = jm_set (sc_tickets s) (ticket_key i) i → id ≠ ticket_key i →
  state_at s' id = state_at s id.
Proof. intros Ht Hne. unfold state_at. rewrite Ht. by rewrite jm_get_set_ne. Qed.

(** A call that writes one row of the map, and only moves a live one. *)
Lemma write_terminal s s' j i id st :
  row_of s j → sc_tickets s' = jm_set (sc_tickets s) (ticket_key i) i → ticket_key i = ticket_key j →
  terminal (tk_state (it_ticket j)) = false ∨ tk_state (it_ticket i) = tk_state (it_ticket j) →
  terminal st = true → state_at s id = Some st → state_at s' id = Some st.
Proof.
  intros Hr Ht Hk Hor Hterm Hst. destruct (decide (id = ticket_key i)) as [->|Hne].
  - rewrite Hk, (row_state _ _ Hr) in Hst. injection Hst as Heq. unfold state_at.
    rewrite Ht, jm_get_set_eq. cbn. destruct Hor as [Hl|He]; congruence.
  - by rewrite (state_at_key s s' i id Ht Hne).
Qed.

Lemma expire_terminal nowMs s x id st :
  sem_ok options s → terminal st = true → state_at s id = Some st →
  state_at (expire_ticket options nowMs s x) id = Some st.
Proof.
  intros Hok Hterm Hst. unfold expire_ticket. destruct (jm_get (sc_tickets s) x) as [i|] eqn:Hg; [|done].
  case_bool_decide as Hgr; cbn [andb]; [|done]. destruct (lease_over _ _); [|done].
  assert (row_of s i) as Hr by (unfold row_of; by rewrite (so_keys _ s Hok _ _ Hg)).
  destruct (parkSlots _ _ _ _) as [s2 i2] eqn:E. destruct (parkSlots_spec _ _ _ _ _ _ E) as (Ht & -> & _).
  apply (write_terminal s _ i (with_ticket (set_parked i (existsb (has_semaphore options (it_keys i)) LEVELS))
    (set_ticket_state (it_ticket i) st_expired))); try done.
  - cbn [sc_tickets put_ticket set_tickets]. rewrite Ht. unfold refundLevels. by rewrite for_levels_frame.
  - left. by rewrite Hgr.
Qed.

Lemma expire_leases_terminal nowMs s id st :
  sem_ok options s → terminal st = true → state_at s id = Some st →
  state_at (expire_leases options s nowMs) id = Some st.
Proof.
  intros Hok Hterm. unfold expire_leases. generalize (jm_order (sc_tickets s)) as l. intros l. revert s Hok.
  induction l as [|x l IH]; intros s Hok Hst; cbn; [done|].
  apply IH; [by apply expire_ok|by apply expire_terminal].
Qed.

Lemma pump_terminal s nowMs id st :
  sem_ok options s → terminal st = true → state_at s id = Some st →
  state_at (pump options s nowMs).1 id = Some st.
Proof.
  intros Hok Hterm Hst. unfold pump.
  apply (grant_loop_inv options (fun s => state_at s id = Some st));
    [| |by apply expire_leases_ok|by apply expire_leases_terminal].
  - intros s1 s2 [Ht _]. by rewrite (state_at_frame s1 s2).
  - intros s1 i s2 t _ Hr Hq [= <- _]. 
    apply (write_terminal s1 _ i (with_ticket i (granted_ticket options (it_ticket i) nowMs))); try done.
    + cbn [sc_tickets put_ticket set_tickets]. unfold consumeLevels. by rewrite for_levels_frame.
    + left. by rewrite Hq.
Qed.

Lemma forget_other s i nowMs id :
  id ≠ ticket_key i → state_at (forget options s i nowMs) id = state_at s id.
Proof.
  intros Hne. unfold forget. destruct (unparkSlots _ _ _ _) as [s1 i1] eqn:E.
  destruct (unpark_spec _ _ _ _ _ _ E) as (Ht & -> & _). unfold state_at. cbn [sc_tickets set_tickets].
  by rewrite jm_get_delete, Ht, decide_False.
Qed.

Lemma mint_other s request keys nowMs state denied id :
  id ≠ unit_key (rq_unitId request) (rq_generation request) →
  state_at (mintTicket options s request keys nowMs state denied).1 id = state_at s id.
Proof.
  intros Hne. unfold mintTicket. destruct (negb _); [done|]. cbn [fst].
  set (i := mkInternal _ _ _ _ _ _ _). by apply (state_at_key s _ i).
Qed.

Lemma enqueue_other s request nowMs id :
  sem_ok options s → id ≠ unit_key (rq_unitId request) (rq_generation request) →
  state_at (enqueue_mint options stringify_frac s request nowMs).1 id = state_at s id.
Proof.
  intros Hok Hne.
  assert (∀ s, state_at (admit_request options stringify_frac s request nowMs).1 id = state_at s id) as Hadmit.
  { intros s0. unfold admit_request. destruct (_ <? 1)%Z; [done|].
    destruct (tenants_disagree request) as [[]|]; [done|]. destruct (find_first _ LEVELS); [done|].
    destruct (find_first _ LEVELS) as [l|]; 
      [set (r := mintTicket _ _ _ _ _ _ (Some _))|set (r := mintTicket _ _ _ _ _ _ None)];
      assert (state_at r.1 id = state_at s0 id) as Hr by (by apply mint_other);
      clearbody r; destruct r as [? []]; exact Hr. }
  unfold enqueue_mint. destruct (get_ticket s _ _) as [i|] eqn:Hg; [|done].
  destruct (settled_before _); [|done]. rewrite Hadmit. apply forget_other.
  by rewrite (so_keys _ s Hok _ _ Hg).
Qed.

(** A call on one unit, which finds a row and rewrites it. *)
Lemma op_terminal s i opId id st :
  row_of s i → terminal st = true → state_at s id = Some st →
  state_at (put_ticket s (add_op i opId)) id = Some st.
Proof. intros Hr Ht Hst. eapply (write_terminal s _ i (add_op i opId)); try done. by right. Qed.

Lemma release_terminal s u g actuals opId nowMs id st :
  sem_ok options s → terminal st = true → state_at s id = Some st →
  state_at (release options s u g actuals opId nowMs) id = Some st.
Proof.
  intros Hok Hterm Hst. unfold release. destruct (get_ticket s u g) as [i|] eqn:Hg; [|done].
  pose proof (get_row _ _ _ _ _ Hok Hg) as Hr. destruct (applied_cases i opId) as [-> | ->]; [done|].
  change (tk_state (it_ticket (add_op i opId))) with (tk_state (it_ticket i)).
  destruct (tk_state (it_ticket i)) eqn:Hi; try (by apply op_terminal).
  - apply (write_terminal s _ i (with_ticket (add_op i opId) (set_ticket_state (it_ticket i) st_released))); try done.
    + unfold settle_granted, recordDebt. cbn [sc_tickets put_ticket set_tickets].
      destruct (_ <=? 0)%Z; rewrite ?for_levels_frame; unfold refundLevels; by rewrite for_levels_frame.
    + left. by rewrite Hi.
  - unfold settle_expired. destruct (unparkSlots _ _ _ _) as [s2 i2] eqn:E.
    destruct (unpark_spec _ _ _ _ _ _ E) as (Ht & -> & _).
    apply (write_terminal s _ i (set_parked (add_op i opId) false)); try done; [|by left; rewrite Hi].
    cbn [sc_tickets put_ticket set_tickets]. rewrite Ht. unfold recordDebt.
    destruct (_ <=? 0)%Z; [done|by rewrite for_levels_frame].
Qed.

Lemma cancel_terminal s u g opId id st :
  sem_ok options s → terminal st = true → state_at s id = Some st →
  state_at (cancel_mark s u g opId).1 id = Some st.
Proof.
  intros Hok Hterm Hst. unfold cancel_mark. destruct (get_ticket s u g) as [i|] eqn:Hg; [|done].
  pose proof (get_row _ _ _ _ _ Hok Hg) as Hr. destruct (applied_cases i opId) as [-> | ->]; [done|].
  change (tk_state (it_ticket (add_op i opId))) with (tk_state (it_ticket i)).
  destruct (tk_state (it_ticket i)) eqn:Hi; try (by apply op_terminal). cbn [fst].
  eapply (write_terminal s _ i (with_ticket (add_op i opId) (set_ticket_state (it_ticket i) st_refunded))); try done.
  left. by rewrite Hi.
Qed.

Lemma rebind_terminal s u g scope opId nowMs id st :
  sem_ok options s → terminal st = true → state_at s id = Some st →
  state_at (rebind options stringify_frac s u g scope opId nowMs).1 id = Some st.
Proof.
  intros Hok Hterm Hst. unfold rebind. destruct (get_ticket s u g) as [i|] eqn:Hg; [|done].
  pose proof (get_row _ _ _ _ _ Hok Hg) as Hr. case_bool_decide as Hi; cbn [negb]; [|done].
  destruct (applied_cases i opId) as [-> | ->]; [done|].
  pose proof (op_terminal s i opId id st Hr Hterm Hst) as Hst0.
  pose proof (add_op_row s i opId) as Hr0. set (s0 := put_ticket s _) in *. clearbody s0.
  set (keys := admissionLevelKeys _ _ _). destruct (find_first _ LEVELS); [done|].
  destruct (target_admits options s0 _ keys nowMs LEVELS) as [s1 admits] eqn:E.
  destruct (target_admits_spec _ _ _ _ _ _ _ _ E) as [[Ht _] _].
  destruct admits; [|by rewrite (state_at_frame s0 s1)].
  apply (write_terminal s0 _ (add_op i opId) (rebound (add_op i opId) keys scope)); try done.
  - cbn [fst]. unfold refundLevels, consumeLevels. rewrite !for_levels_frame. cbn [sc_tickets put_ticket set_tickets].
    by rewrite Ht.
  - left. change (tk_state (it_ticket (add_op i opId))) with (tk_state (it_ticket i)). by rewrite Hi.
Qed.

Lemma segment_terminal s seg nowMs id st :
  sem_ok options s → enqueues id seg = false → terminal st = true → state_at s id = Some st →
  state_at (run_segment options stringify_frac s seg nowMs) id = Some st.
Proof.
  intros Hok Hseg Hterm Hst. destruct seg; cbn [run_segment enqueues] in *.
  - apply bool_decide_eq_false_1 in Hseg. by rewrite enqueue_other.
  - by apply pump_terminal.
  - unfold renew. destruct (get_ticket s _ _) as [i|] eqn:Hg; [|done]. case_bool_decide as Hi; [|done].
    pose proof (get_row _ _ _ _ _ Hok Hg) as Hr.
    eapply (write_terminal s _ i); [done|reflexivity|done|by right|done|done].
  - unfold checkpointCover. destruct (get_ticket s _ _) as [i|] eqn:Hg; [|done].
    pose proof (get_row _ _ _ _ _ Hok Hg) as Hr. destruct (negb _); [done|]. destruct (_ <=? nowMs)%Z; [done|].
    destruct (applied_cases i opId) as [-> | ->]; [done|].
    eapply (write_terminal s _ i); [done|reflexivity|done|by right|done|done].
  - by apply release_terminal.
  - by apply cancel_terminal.
  - by apply rebind_terminal.
Qed.

Lemma segments_terminal s segs id st :
  sem_ok options s → forallb (fun seg => negb (enqueues id seg.1)) segs = true → terminal st = true →
  state_at s id = Some st → state_at (run_segments options stringify_frac s segs) id = Some st.
Proof.
  unfold run_segments. intros Hok Hsegs Hterm. revert s Hok.
  induction segs as [|seg segs IH]; intros s Hok Hst; cbn; [done|].
  cbn in Hsegs. apply andb_true_iff in Hsegs as [Hn%negb_true_iff Hsegs].
  apply (IH Hsegs); [by apply run_segment_ok|by apply segment_terminal].
Qed.

(** A settlement of a settled unit. *)
Lemma settled_buckets s u g st actuals opId nowMs :
  terminal st = true → state_at s (unit_key u g) = Some st →
  sc_buckets (release options s u g actuals opId nowMs) = sc_buckets s ∧
  sc_buckets (cancel options s u g opId nowMs) = sc_buckets s.
Proof.
  intros Hterm Hst. unfold state_at in Hst. unfold release, cancel, cancel_mark, get_ticket.
  destruct (jm_get (sc_tickets s) (unit_key u g)) as [i|]; [|done]. injection Hst as Hi.
  change (tk_state (it_ticket i) = st) in Hi.
  destruct (applied_cases i opId) as [-> | ->]; [done|].
  change (tk_state (it_ticket (add_op i opId))) with (tk_state (it_ticket i)). rewrite Hi.
  by destruct st.
Qed.
End Settled.

(** C6: a settlement is final.  Once a unit is released, refunded or denied, no
    interleaving of calls that does not enqueue the unit again moves its state, and
    at every later point a release or a cancellation of it returns and charges
    nothing: the buckets stay as they are. *)
Theorem settlement_is_final {T} `{Num T} (options : MemoryAdmissionOptions T) stringify_frac s u g st segs
    actuals opId nowMs :
  reachable options stringify_frac s → terminal st = true → state_at s (unit_key u g) = Some st →
  forallb (fun seg => negb (enqueues (unit_key u g) seg.1)) segs = true →
  let s' := run_segments options stringify_frac s segs in
  state_at s' (unit_key u g) = Some st ∧
  sc_buckets (release options s' u g actuals opId nowMs) = sc_buckets s' ∧
  sc_buckets (cancel options s' u g opId nowMs) = sc_buckets s'.
Proof.
  intros Hr%reachable_ok Hterm Hst Hsegs s'.
  assert (state_at s' (unit_key u g) = Some st) as Hst' by (by apply segments_terminal).
  split; [done|by eapply settled_buckets].
Qed.
