(* ===== verification/AdmissionRuns.v ===== *)
(** * Runs of the admission scheduler (packages/core/src/admission/memory.ts)

    Concrete schedulers over the rationals: where the theorems apply, and what the
    code does at some corners. *)
From Stdlib Require Import QArith.
From S2P Require Import Prelude Num Json JsMap AdmissionAlgo Admission AdmissionSlots AdmissionInv AdmissionLaws.

(** No scope of these runs holds a fraction. *)
Definition no_frac (_ : Z) (_ : positive) : string := "".

Definition level_config (a : Algorithm) (cap : Q) (c : option Z) (reserve : option Q)
    : AdmissionLevelConfig Q := mkLevelConfig a cap (Some 60000%Z) (Some 6%nat) (Some 0%Q) c reserve.

Definition tenant_options (a : Algorithm) (cap : Q) (c : option Z) (reserve : option Q)
    : MemoryAdmissionOptions Q :=
  mkOptions (Some (level_config a cap c reserve)) None None ∅ 1000 None.

Definition request (unit_ : string) (n : Z) (emergency : bool) : AdmissionRequest Q :=
  mkRequest unit_ "0" (Some "acme") false (Some [("tenant", "acme")]) None (wires_only n) emergency.

Definition acme_key : string := jcs_members no_frac [("tenant", "acme")].

(** Two units at a semaphore of one, and the first one's expiry. *)
Definition crowd : list (Segment (T := Q) * Z) :=
  [(seg_enqueue (request "a" 4 false), 0%Z); (seg_pump, 0%Z);
   (seg_enqueue (request "b" 4 false), 1%Z); (seg_pump, 1%Z); (seg_pump, 2000%Z)].

Definition one_slot : MemoryAdmissionOptions Q := tenant_options sliding_window 10 (Some 1%Z) None.

Definition crowded : Scheduler Q := run_segments one_slot no_frac empty_scheduler crowd.

Lemma crowded_reachable : reachable one_slot no_frac crowded.
Proof. by exists crowd. Qed.
Lemma semaphore_counts_holders_witness :
  slots_of crowded l_tenant acme_key = (1%Z, 1%Z) ∧ (Z.of_nat 1 <= Z.max 0 1)%Z.
Proof.
  replace (1%Z, 1%Z) with
    (Z.of_nat (count_rows (holds_at l_tenant acme_key) (jm_map (sc_tickets crowded))),
     Z.of_nat (count_rows (parked_at l_tenant acme_key) (jm_map (sc_tickets crowded)))) by (vm_compute; reflexivity).
  replace 1%nat with (count_rows (holds_at l_tenant acme_key) (jm_map (sc_tickets crowded))) by (vm_compute; reflexivity).
  exact (semaphore_counts_holders one_slot no_frac crowded l_tenant
    (level_config sliding_window 10 (Some 1%Z) None) 1 acme_key crowded_reachable eq_refl eq_refl).
Defined.

Lemma pump_is_fair_witness :
  passes one_slot 3000 (expire_leases one_slot crowded 3000) [] (pump one_slot crowded 3000).1.
Proof.
  pose proof (proj1 (pump_is_fair one_slot no_frac crowded 3000 crowded_reachable)) as Hp.
  replace [] with (pump one_slot crowded 3000).2 by (vm_compute; reflexivity). exact Hp.
Defined.

(** The queued one is cancelled. *)
Definition uncrowded : Scheduler Q :=
  run_segments one_slot no_frac empty_scheduler (crowd ++ [(seg_cancel "b" "0" "op1", 2500%Z)]).

Lemma settlement_is_final_witness :
  let s := run_segments one_slot no_frac uncrowded [] in
  sc_buckets (release one_slot s "b" "0" (wires_only 9) "op2" 2600) = sc_buckets s.
Proof.
  assert (reachable one_slot no_frac uncrowded) as Hr by (eexists; reflexivity).
  assert (state_at uncrowded (unit_key "b" "0") = Some st_refunded) as Hst by (vm_compute; reflexivity).
  exact (proj1 (proj2 (settlement_is_final one_slot no_frac uncrowded "b" "0" st_refunded []
    (wires_only 9) "op2" 2600 Hr eq_refl Hst eq_refl))).
Defined.

(** An expired unit is not settled: each settlement under a fresh operation records
    its debt again. *)
Example late_settlement_counts_twice :
  let s := release one_slot crowded "a" "0" (wires_only 4) "op1" 2500 in
  let s' := cancel one_slot (release one_slot s "a" "0" (wires_only 4) "op2" 2500) "a" "0" "op3" 2500 in
  bs_debts <$> sc_buckets s !! bucket_id l_tenant acme_key = Some [(4, 2500)]%Z ∧
  bs_debts <$> sc_buckets s' !! bucket_id l_tenant acme_key = Some [(4, 2500); (4, 2500)]%Z.
Proof. vm_compute. split; reflexivity. Qed.

(** A token bucket with half its capacity in reserve: ordinary requests empty it, and
    the emergency one waits; a sliding window admits it. *)
Definition reserved (a : Algorithm) : MemoryAdmissionOptions Q :=
  tenant_options a 10 None (Some (1 # 2)%Q).

Definition reserve_run (a : Algorithm) : Scheduler Q :=
  run_segments (reserved a) no_frac empty_scheduler
    [(seg_enqueue (request "a" 5 false), 0%Z); (seg_pump, 0%Z);
     (seg_enqueue (request "b" 5 true), 0%Z); (seg_pump, 0%Z)].

Example token_bucket_keeps_no_reserve :
  state_at (reserve_run token_bucket) (unit_key "b" "0") = Some st_queued ∧
  state_at (reserve_run sliding_window) (unit_key "b" "0") = Some st_granted.
Proof. vm_compute. split; reflexivity. Qed.

(** A transfer within one tenant needs a second slot of the tenant. *)
Example rebind_needs_a_spare_slot :
  let s := run_segments one_slot no_frac empty_scheduler [(seg_enqueue (request "a" 4 false), 0%Z); (seg_pump, 0%Z)] in
  state_at s (unit_key "a" "0") = Some st_granted ∧
  (rebind one_slot no_frac s "a" "0" [("tenant", "acme"); ("project", "p")] "op" 1).2 =
    dec_denied rebind_refused.
Proof. vm_compute. split; reflexivity. Qed.
