(* ===== verification/AdmissionStore.v ===== *)
(** * The durable document of the admission scheduler (packages/core/src/admission/memory.ts)

    [AdmissionState], [snapshot] and [hydrate].  Objects keyed by an id keep the
    order of their entries: no id reads as an array index, since each holds a
    [#] or a [:].  The JSON copy of [snapshot] is left out: a document of strings,
    finite numbers and booleans parses back to itself. *)
From S2P Require Import Prelude Num Json JsMap AdmissionAlgo Admission AdmissionSlots AdmissionInv AdmissionLaws AdmissionRuns.

Section Store.
Context {T : Type} `{Num T}.

Record TicketRow := mkTicketRow {
  tr_ticket : AdmissionTicket T;
  tr_request : AdmissionRequest T;
  tr_keys : AdmissionLevelKeys;
  tr_accountStartTag : T;
  tr_accountFinishTag : T;
  tr_appliedOps : list string;
  tr_slotParked : option bool;
}.

Record BucketRow := mkBucketRow {
  br_window : option SlidingWindowState;
  br_bucket : option (TokenBucketState T);
  br_debts : list (Z * Z);
  br_held : Z;
  br_parked : option Z;
}.

Record AdmissionState := mkState {
  as_tickets : list (string * TicketRow);
  as_buckets : list (string * BucketRow);
  as_tenantQueue : FairQueueState T;
  as_accountQueues : list (string * FairQueueState T);
  as_arrivalCounter : N;
}.

Definition ticket_row (i : InternalTicket T) : TicketRow :=
  mkTicketRow (it_ticket i) (it_request i) (it_keys i) (it_accountStartTag i) (it_accountFinishTag i)
    (elements (it_appliedOps i)) (if it_slotParked i then Some true else None).

Definition bucket_row (b : BucketState T) : BucketRow :=
  mkBucketRow (bs_window b) (bs_bucket b) (bs_debts b) (bs_held b) (Some (bs_parked b)).

Definition snapshot (s : Scheduler T) : AdmissionState :=
  mkState ((fun '(id, i) => (id, ticket_row i)) <$> jm_entries (sc_tickets s))
    ((fun '(id, b) => (id, bucket_row b)) <$> map_to_list (sc_buckets s))
    (sc_tenantQueue s) (map_to_list (sc_accountQueues s)) (sc_arrivalCounter s).

Definition row_ticket (r : TicketRow) : InternalTicket T :=
  mkInternal (tr_ticket r) (tr_request r) (tr_keys r) (tr_accountStartTag r) (tr_accountFinishTag r)
    (list_to_set (tr_appliedOps r)) (bool_decide (tr_slotParked r = Some true)).

(** A row written before slots were parked counts none. *)
Definition row_bucket (r : BucketRow) : BucketState T :=
  mkBucketState (br_window r) (br_bucket r) (br_debts r) (br_held r) (default 0%Z (br_parked r)).

Definition hydrate (state : AdmissionState) : Scheduler T :=
  mkScheduler
    (foldl (fun m row => jm_set m row.1 (row_ticket row.2)) jm_empty (as_tickets state))
    (foldl (fun m row => <[row.1 := row_bucket row.2]> m) ∅ (as_buckets state))
    (as_tenantQueue state)
    (foldl (fun m row => <[row.1 := row.2]> m) ∅ (as_accountQueues state))
    (as_arrivalCounter state).

(** The constructor, with the document it resumes from. *)
Definition newSchedulerFrom (options : MemoryAdmissionOptions T) (state : option AdmissionState)
    : result AdmissionError (Scheduler T) :=
  match newScheduler options with
  | Err e => Err e
  | Ok s => Ok (from_option hydrate s state)
  end.

Lemma row_ticket_row i : row_ticket (ticket_row i) = i.
Proof.
  destruct i as [t r k a f ops parked]. unfold row_ticket, ticket_row. cbn.
  rewrite list_to_set_elements_L. by destruct parked.
Qed.

Lemma row_bucket_row b : row_bucket (bucket_row b) = b.
Proof. by destruct b. Qed.

Lemma fst_entries {A B} (f : A → B) (l : list (string * A)) :
  ((fun '(k, a) => (k, f a)) <$> l).*1 = l.*1.
Proof. rewrite <- list_fmap_compose. apply list_fmap_ext. by intros ? []. Qed.

(** Writing the entries of a map, one by one, builds the map. *)
Lemma write_entries {A B} (f : A → B) (l : list (string * A)) (m : gmap string B) :
  NoDup l.*1 → (∀ k, k ∈ l.*1 → m !! k = None) →
  foldl (fun m row => <[row.1 := f row.2]> m) m l = list_to_map ((fun '(k, a) => (k, f a)) <$> l) ∪ m.
Proof.
  revert m. induction l as [|[k a] l IH]; intros m Hnd Hfresh; cbn; [by rewrite (left_id_L ∅ (∪))|].
  cbn in Hnd. apply NoDup_cons in Hnd as [Hk Hnd]. rewrite IH; [|done|].
  - rewrite <- insert_union_l, insert_union_r; [done|].
    apply not_elem_of_list_to_map. by rewrite fst_entries.
  - intros k' Hk'. rewrite lookup_insert_ne by (by intros ->). apply Hfresh. by right.
Qed.

Lemma write_map {A B} (f : A → B) (m : gmap string A) :
  foldl (fun m row => <[row.1 := f row.2]> m) ∅ (map_to_list m) = f <$> m.
Proof.
  rewrite write_entries; [|apply NoDup_fst_map_to_list|by intros; apply lookup_empty].
  rewrite (right_id_L ∅ (∪)). apply map_eq. intros k. rewrite lookup_fmap.
  destruct (m !! k) as [a|] eqn:E; cbn.
  - apply elem_of_list_to_map_1.
    + rewrite fst_entries. apply NoDup_fst_map_to_list.
    + apply list_elem_of_fmap. exists (k, a). split; [done|]. by apply elem_of_map_to_list.
  - apply not_elem_of_list_to_map. rewrite fst_entries.
    intros ([k' a] & -> & Ha%elem_of_map_to_list)%list_elem_of_fmap. cbn in E. congruence.
Qed.

Lemma write_map_back {A B} (f : B → A) (g : A → B) (m : gmap string A) :
  (∀ a, f (g a) = a) →
  foldl (fun m row => <[row.1 := f row.2]> m) ∅ ((fun '(k, a) => (k, g a)) <$> map_to_list m) = m.
Proof.
  intros Hfg. transitivity (id <$> m); [|apply map_fmap_id]. rewrite <- (write_map id).
  generalize (∅ : gmap string A). induction (map_to_list m) as [|[k a] l IH]; intros m0; cbn; [done|].
  rewrite Hfg. apply IH.
Qed.

(** The tickets map, entries in insertion order. *)
Lemma write_rows (l : list string) (m m0 : jsmap string (InternalTicket T)) :
  NoDup l → (∀ k, k ∈ l → is_Some (jm_map m !! k) ∧ jm_map m0 !! k = None) →
  (∀ k, is_Some (jm_map m0 !! k) → jm_map m0 !! k = jm_map m !! k) →
  (∀ k, is_Some (jm_map m !! k) → k ∈ l ∨ is_Some (jm_map m0 !! k)) →
  jm_order m = jm_order m0 ++ l →
  foldl (fun m row => jm_set m row.1 (row_ticket row.2)) m0
    ((fun '(id, i) => (id, ticket_row i)) <$> omap (fun k => pair k <$> jm_map m !! k) l) = m.
Proof.
  revert m0. induction l as [|k l IH]; intros m0 Hnd Hl Hm0 Hm Ho; cbn.
  - destruct m as [mm om], m0 as [mm0 om0]. cbn in *. rewrite (right_id_L [] (++)) in Ho. subst. f_equal.
    apply map_eq. intros k. destruct (mm0 !! k) as [a|] eqn:E; [rewrite <- Hm0; [done|]; by rewrite E|].
    destruct (mm !! k) as [a|] eqn:E'; [|done]. destruct (Hm k ltac:(by rewrite E')) as [Hin|[? ?]]; [by apply elem_of_nil in Hin|congruence].
  - apply NoDup_cons in Hnd as [Hk Hnd]. destruct (Hl k ltac:(left)) as [[i Hi] Hnone]. rewrite Hi. cbn.
    rewrite row_ticket_row. apply IH; [done|..].
    + intros k' Hk'. destruct (Hl k' ltac:(by right)) as [? ?]. split; [done|]. cbn.
      rewrite lookup_insert_ne; [done|]. by intros ->.
    + intros k'. cbn. destruct (decide (k = k')) as [<-|Hne]; [by rewrite lookup_insert_eq, Hi|].
      rewrite lookup_insert_ne by done. apply Hm0.
    + intros k' [Hin|Hs]%Hm; cbn; rewrite lookup_insert_is_Some'; [|by auto].
      apply elem_of_cons in Hin as [->|]; auto.
    + cbn. rewrite decide_False by (rewrite Hnone; by intros [? ?]). by rewrite <- app_assoc.
Qed.
End Store.

(** C37: the document is the scheduler.  Hydrating the snapshot of a scheduler any
    interleaving of calls led to gives that scheduler back, in every field: rows in
    their order, applied operations, slots held and parked, windows, tokens, debts,
    tags and counters.  So every later call on the resumed one returns and does what
    it would have on the first. *)
Theorem snapshot_restores {T} `{Num T} (options : MemoryAdmissionOptions T) stringify_frac s :
  reachable options stringify_frac s → hydrate (snapshot s) = s.
Proof.
  intros Hr%reachable_ok. destruct (so_wf _ s Hr) as [Hnd Hk]. destruct s as [ts bs q qs n]. cbn in *.
  unfold hydrate, snapshot. cbn. f_equal.
  - apply write_rows; cbn; try done.
    + intros k Hin. by split; [apply Hk|rewrite lookup_empty].
    + intros k. rewrite lookup_empty. by intros [? ?].
    + intros k Hs. left. by apply Hk.
  - apply write_map_back, row_bucket_row.
  - transitivity (id <$> qs); [apply (write_map id)|apply map_fmap_id].
Qed.

Lemma snapshot_restores_witness :
  hydrate (snapshot crowded) = crowded ∧ length (as_tickets (snapshot crowded)) = 2%nat.
Proof.
  split; [exact (snapshot_restores one_slot no_frac crowded crowded_reachable)|].
  vm_compute. reflexivity.
Defined.
