(* ===== verification/Reuse.v ===== *)
(** * Reuse by reference (packages/core/src/journal/reuse.ts)

    [DedupIndex], the fold of spawn roots, severing abandons and [node.link]
    entries, and [evaluateReuse], the verdict on a spawn whose key a severed
    branch already paid for.  Amounts of money are numbers of the interface
    [Num].  The payload of a link is cast to its type without a test; the model
    reads a payload of that type, and stops at any other with [untyped_link]. *)
From Stdlib Require Import QArith.
From S2P Require Import Prelude Num Json Entries Scope Identity Disposition AdmissionAlgo.

Inductive ReuseError :=
  | fold_error (e : FoldError)
  | untyped_link.

Inductive LinkMode := mode_full | mode_graft.
Inductive LinkClaim := claim_shared | claim_exclusive.

#[global] Instance LinkClaim_eq_dec : EqDecision LinkClaim.
Proof. solve_decision. Defined.

Inductive DedupReason := donor_failed | no_paid_entries | graft_unsafe | donor_active.

Record ReuseConfig := mkReuseConfig {
  rc_enabled : option bool;
  rc_allowGraft : option bool;
  rc_maxOscillationsPerKey : option Z;
}.

Definition DEFAULT_MAX_OSCILLATIONS_PER_KEY : Z := 2.

Record DedupNote := mkNote {
  dn_spawnKey : string;
  dn_donorNodeId : string;
  dn_reason : DedupReason;
}.

(** [isPlanNodeScope]: the last two segments are [plan] and a node id. *)
Definition isPlanNodeScope (scope : string) : bool :=
  match rev (split_on slash scope) with
  | nodeId :: plan :: _ => isNodeId nodeId && bool_decide (plan = "plan")
  | _ => false
  end.

Definition readIsolation (entry : JournalEntry) : option json :=
  match e_value entry with
  | Some JNull | None => Some (JStr "none")
  | Some v =>
      match opt_prop (asRecord (Some v)) "isolation" with
      | Some (JStr s) => Some (JStr s)
      | Some (JObj members) =>
          match prop members "kind" with Some JNull | None => Some (JStr "none") | kind => kind end
      | _ => Some (JStr "none")
      end
  end.

Section DedupIndex.
Context {T : Type} `{Num T}.

Record NodeLinkValue := mkLink {
  nl_targetScope : string;
  nl_donorScope : string;
  nl_chain : list string;
  nl_spawnKey : string;
  nl_mode : LinkMode;
  nl_claim : LinkClaim;
  nl_reclaimedUsdAtLink : T;
}.

Record DonorCandidate := mkDonor {
  dc_rootEntryRef : N;
  dc_rootScope : string;
  dc_spawnKey : string;
  dc_nodeId : option string;
  dc_logicalTaskId : option string;
  dc_preAbandonStatus : EntryStatus;
  dc_memoizedFailure : bool;
  dc_paidUsd : T;
  dc_eligiblePaidUsd : T;
  dc_hasPaidEntries : bool;
  dc_isolationWorktree : bool;
  dc_worktreePinned : bool;
  dc_checkpointRef : option string;
  dc_retainedCheckpoint : bool;
  dc_claimedBy : option N;
  dc_chain : list string;
}.

Record KeySpend := mkKeySpend {
  ks_oscillationCount : N;
  ks_abandonedUsd : T;
  ks_reclaimedUsd : T;
}.

Definition no_spend : KeySpend := mkKeySpend 0 (num_of_Z 0) (num_of_Z 0).

Record DedupIndex := mkDedup {
  di_donors : gmap string (list DonorCandidate);
  di_links : gmap string N;
  di_linkByTargetScope : gmap string NodeLinkValue;
  di_abandonedUsd : T;
  di_reclaimedUsd : T;
  di_netLostUsd : T;
  di_byKey : gmap string KeySpend;
}.

Definition empty_dedup : DedupIndex :=
  mkDedup ∅ ∅ ∅ (num_of_Z 0) (num_of_Z 0) (num_of_Z 0) ∅.

(** ** The payload of a link *)

Definition as_number (v : option json) : option T :=
  match v with
  | Some (JNum n) => Some (num_of_Z n)
  | Some (JFrac n d) => Some (num_div (num_of_Z n) (num_of_Z (Z.pos d)))
  | _ => None
  end.

Definition as_mode (v : option json) : option LinkMode :=
  if is_str v "full" then Some mode_full else if is_str v "graft" then Some mode_graft else None.

Definition as_claim (v : option json) : option LinkClaim :=
  if is_str v "shared" then Some claim_shared
  else if is_str v "exclusive" then Some claim_exclusive else None.

Definition typed_link (r : record) : option NodeLinkValue :=
  targetScope ← readString r "targetScope";
  donorScope ← readString r "donorScope";
  items ← as_array (prop r "chain");
  chain ← mapM (fun v => as_string (Some v)) items;
  spawnKey ← readString r "spawnKey";
  mode ← as_mode (prop r "mode");
  claim ← as_claim (prop r "claim");
  reclaimed ← as_number (prop r "reclaimedUsdAtLink");
  Some (mkLink targetScope donorScope chain spawnKey mode claim reclaimed).

Definition linkOf (entry : JournalEntry) : result ReuseError NodeLinkValue :=
  match e_value entry with
  | None | Some JNull => Err (fold_error (NullMember "targetScope"))
  | Some (JObj r) => match typed_link r with Some l => Ok l | None => Err untyped_link end
  | Some _ => Err untyped_link
  end.

(** ** The fold *)

(** The last entry that closes each reference. *)
Definition terminals_of (entries : list JournalEntry) : gmap N JournalEntry :=
  foldl (fun m entry =>
    match e_ref entry with
    | Some ref => if is_ref_kind (e_kind entry) then m else <[ref := entry]> m
    | None => m
    end) ∅ entries.

Variable priceUsd : option string → Usage → option T.

Definition priceOf (entry : JournalEntry) : T :=
  match e_usage entry with
  | None => num_of_Z 0
  | Some usage => default (num_of_Z 0) (priceUsd (e_servedBy entry) usage)
  end.

Definition match_eligible (entry : JournalEntry) : bool :=
  negb (bool_decide (e_status entry = StRunning)) && negb (bool_decide (e_status entry = StCancelled)).

(** One pass over the members not yet seen. *)
Definition visit {A} (inside : JournalEntry → bool) (count : JournalEntry → A → A)
    (acc : gset N * A) (member : JournalEntry) : gset N * A :=
  if decide (e_seq member ∈ acc.1) then acc
  else if inside member then ({[e_seq member]} ∪ acc.1, count member acc.2)
  else acc.

Definition under_any (prefixes : list string) (scope : string) : bool :=
  existsb (fun prefix => scope_under prefix scope) prefixes.

Definition branch_member (target : JournalEntry) (terminal : option JournalEntry)
    (prefixes : list string) (member : JournalEntry) : bool :=
  bool_decide (e_seq member = e_seq target) ||
  bool_decide (Some (e_seq member) = e_seq <$> terminal) ||
  under_any prefixes (e_scope member).

Definition pay_member (member : JournalEntry) (paid : T * T) : T * T :=
  let usd := priceOf member in
  (num_add paid.1 usd, if match_eligible member then num_add paid.2 usd else paid.2).

Definition pay_tail (member : JournalEntry) (eligible : T) : T :=
  if match_eligible member then num_add eligible (priceOf member) else eligible.

Definition donor_prefixes (target : JournalEntry) (spawnPrefix : string) : list string :=
  spawnPrefix ::
    (if isPlanNodeScope (e_scope target) && negb (bool_decide (e_scope target = spawnPrefix))
     then [e_scope target] else []).

Definition donor_scope (target : JournalEntry) (spawnPrefix : string) : string :=
  if isPlanNodeScope (e_scope target) then e_scope target else spawnPrefix.

(** The candidate of a severed root. *)
Definition candidate_of (entries : list JournalEntry) (links : gmap string NodeLinkValue)
    (target : JournalEntry) (terminal : option JournalEntry) (spawnPrefix : string)
    (payload : option AbandonPayload) : DonorCandidate :=
  let preAbandonStatus := default (e_status target) (e_status <$> terminal) in
  let '(seen, (paidUsd, eligible)) :=
    foldl (visit (branch_member target terminal (donor_prefixes target spawnPrefix)) pay_member)
      (∅, (num_of_Z 0, num_of_Z 0)) entries in
  let donorScope := donor_scope target spawnPrefix in
  let chainTail := from_option nl_chain [] (links !! donorScope) in
  let eligible :=
    if (0 <? length chainTail)%nat && num_leb eligible (num_of_Z 0)
    then (foldl (visit (fun member => under_any chainTail (e_scope member)) pay_tail)
            (seen, eligible) entries).2
    else eligible in
  mkDonor (e_seq target) donorScope (e_key target) (payload ≫= a_nodeId) (payload ≫= a_logicalTaskId)
    preAbandonStatus
    (bool_decide (preAbandonStatus = StError) &&
     (bool_decide ((terminal ≫= e_memoizeOutcome) = Some true) || bool_decide (e_memoizeOutcome target = Some true)))
    paidUsd eligible
    (num_ltb (num_of_Z 0) paidUsd || num_ltb (num_of_Z 0) eligible)
    (is_str (readIsolation target) "worktree")
    (bool_decide ((payload ≫= a_retainWorktree) = Some true))
    (terminal ≫= e_checkpointRef)
    (negb (bool_decide ((payload ≫= a_retainCheckpoint) = Some false)))
    None (donorScope :: chainTail).

Definition add_donor (index : DedupIndex) (donor : DonorCandidate) : DedupIndex :=
  let key := dc_spawnKey donor in
  let byKey := default no_spend (di_byKey index !! key) in
  mkDedup (<[key := default [] (di_donors index !! key) ++ [donor]]> (di_donors index))
    (di_links index) (di_linkByTargetScope index)
    (num_add (di_abandonedUsd index) (dc_paidUsd donor)) (di_reclaimedUsd index) (di_netLostUsd index)
    (<[key := mkKeySpend (ks_oscillationCount byKey) (num_add (ks_abandonedUsd byKey) (dc_paidUsd donor))
                (ks_reclaimedUsd byKey)]> (di_byKey index)).

Definition abandon_entry (entries : list JournalEntry) (state : DedupIndex * Coverage)
    (entry : JournalEntry) (ref : N) : result ReuseError (DedupIndex * Coverage) :=
  let '(index, covered) := state in
  match index_by_seq entries !! ref with
  | None => Ok state
  | Some target =>
      if isCovered covered target then Ok state
      else
        match cover covered target, childCoveragePrefix target with
        | Ok covered, Ok spawnPrefix =>
            if bool_decide (e_kind target = KAgent) || bool_decide (e_kind target = KChild) then
              let donor := candidate_of entries (di_linkByTargetScope index) target
                             (terminals_of entries !! e_seq target) spawnPrefix (e_abandon entry) in
              Ok (add_donor index donor, covered)
            else Ok (index, covered)
        | Err e, _ | _, Err e => Err (fold_error e)
        end
  end.

(** The first element that passes, replaced. *)
Fixpoint update_first {A} (p : A → bool) (f : A → A) (l : list A) : list A :=
  match l with
  | [] => []
  | x :: l => if p x then f x :: l else x :: update_first p f l
  end.

Definition unclaimed (donor : DonorCandidate) : bool := bool_decide (dc_claimedBy donor = None).

Definition captures (value : NodeLinkValue) (donor : DonorCandidate) : bool :=
  bool_decide (dc_rootScope donor = nl_donorScope value) && unclaimed donor.

(** [donor.claimedBy = entry.seq], [donor.chain = [...value.chain]]. *)
Definition capture (value : NodeLinkValue) (seq : N) (d : DonorCandidate) : DonorCandidate :=
  mkDonor (dc_rootEntryRef d) (dc_rootScope d) (dc_spawnKey d) (dc_nodeId d) (dc_logicalTaskId d)
    (dc_preAbandonStatus d) (dc_memoizedFailure d) (dc_paidUsd d) (dc_eligiblePaidUsd d)
    (dc_hasPaidEntries d) (dc_isolationWorktree d) (dc_worktreePinned d) (dc_checkpointRef d)
    (dc_retainedCheckpoint d)
    (if decide (nl_claim value = claim_exclusive) then Some seq else dc_claimedBy d)
    (nl_chain value).

Definition link_entry (index : DedupIndex) (seq : N) (value : NodeLinkValue) : DedupIndex :=
  let key := nl_spawnKey value in
  let byKey := default no_spend (di_byKey index !! key) in
  mkDedup
    match di_donors index !! key with
    | Some donors => <[key := update_first (captures value) (capture value seq) donors]> (di_donors index)
    | None => di_donors index
    end
    (<[key := (default 0 (di_links index !! key) + 1)%N]> (di_links index))
    (<[nl_targetScope value := value]> (di_linkByTargetScope index))
    (di_abandonedUsd index) (num_add (di_reclaimedUsd index) (nl_reclaimedUsdAtLink value))
    (di_netLostUsd index)
    (<[key := mkKeySpend (ks_oscillationCount byKey + 1) (ks_abandonedUsd byKey)
                (num_add (ks_reclaimedUsd byKey) (nl_reclaimedUsdAtLink value))]> (di_byKey index)).

Definition dedup_step (entries : list JournalEntry) (state : DedupIndex * Coverage)
    (entry : JournalEntry) : result ReuseError (DedupIndex * Coverage) :=
  match e_kind entry, e_ref entry with
  | KAbandon, Some ref => abandon_entry entries state entry ref
  | KNodeLink, _ => value ← linkOf entry; Ok (link_entry state.1 (e_seq entry) value, state.2)
  | _, _ => Ok state
  end.

Fixpoint dedup_steps (entries : list JournalEntry) (state : DedupIndex * Coverage)
    (rest : list JournalEntry) : result ReuseError (DedupIndex * Coverage) :=
  match rest with
  | [] => Ok state
  | entry :: rest => state' ← dedup_step entries state entry; dedup_steps entries state' rest
  end.

Definition set_net (index : DedupIndex) : DedupIndex :=
  mkDedup (di_donors index) (di_links index) (di_linkByTargetScope index) (di_abandonedUsd index)
    (di_reclaimedUsd index) (num_sub (di_abandonedUsd index) (di_reclaimedUsd index)) (di_byKey index).

Definition dedup_fold (entries : list JournalEntry) : result ReuseError DedupIndex :=
  state ← dedup_steps entries (empty_dedup, no_coverage) entries; Ok (set_net state.1).

(** ** Reads *)

Definition allDonorsOf (index : DedupIndex) (spawnKey : string) : list DonorCandidate :=
  default [] (di_donors index !! spawnKey).

Definition donorsOf (index : DedupIndex) (spawnKey : string) : list DonorCandidate :=
  List.filter unclaimed (allDonorsOf index spawnKey).

Definition oscillationCountOf (index : DedupIndex) (spawnKey : string) : N :=
  default 0%N (di_links index !! spawnKey).

Definition abandonedSpend (index : DedupIndex) : T * T * T * gmap string KeySpend :=
  (di_abandonedUsd index, di_reclaimedUsd index, di_netLostUsd index, di_byKey index).

(** ** The verdict *)

Inductive ReuseVerdict :=
  | verdict_none
  | reject_osc_guard (oscillationCount : N)
  | reuse_full (donor : DonorCandidate)
  | admit_graft (donor : DonorCandidate)
  | verdict_fresh (note : DedupNote).

Definition max_oscillations (config : option ReuseConfig) : Z :=
  default DEFAULT_MAX_OSCILLATIONS_PER_KEY (config ≫= rc_maxOscillationsPerKey).

Definition fresh_note (spawnKey : string) (donor : DonorCandidate) (reason : DedupReason) : ReuseVerdict :=
  verdict_fresh (mkNote spawnKey (default "" (dc_nodeId donor)) reason).

(** The verdict on the chosen donor. *)
Definition judge_donor (config : option ReuseConfig) (spawnKey : string) (donor : DonorCandidate)
    : ReuseVerdict :=
  if dc_memoizedFailure donor || bool_decide (dc_preAbandonStatus donor = StError)
  then fresh_note spawnKey donor donor_failed
  else if bool_decide (dc_preAbandonStatus donor = StOk) || bool_decide (dc_preAbandonStatus donor = StEscalated)
  then reuse_full donor
  else if negb (dc_hasPaidEntries donor) || num_leb (dc_eligiblePaidUsd donor) (num_of_Z 0)
  then fresh_note spawnKey donor no_paid_entries
  else if bool_decide ((config ≫= rc_allowGraft) = Some false) ||
          (dc_isolationWorktree donor && negb (dc_worktreePinned donor))
  then fresh_note spawnKey donor graft_unsafe
  else admit_graft donor.

Definition evaluateReuse (index : DedupIndex) (spawnKey : string) (config : option ReuseConfig)
    : ReuseVerdict :=
  if bool_decide ((config ≫= rc_enabled) = Some false) then verdict_none
  else
    let oscillationCount := oscillationCountOf index spawnKey in
    match donorsOf index spawnKey with
    | [] => verdict_none
    | (first :: _) as candidates =>
        if (max_oscillations config <=? Z.of_N oscillationCount)%Z
        then reject_osc_guard oscillationCount
        else
          match find_first unclaimed candidates with
          | None => fresh_note spawnKey first donor_active
          | Some donor => judge_donor config spawnKey donor
          end
    end.
End DedupIndex.

Arguments NodeLinkValue T : clear implicits.
Arguments DonorCandidate T : clear implicits.
Arguments KeySpend T : clear implicits.
Arguments DedupIndex T : clear implicits.
Arguments ReuseVerdict T : clear implicits.

(** [nodeLinkKey]. *)
Section LinkKey.
Variables (sha256 : string → string) (stringify_frac : Z → positive → string).

Definition nodeLinkKey (spawnKey donorScope targetNodeId : string) : string :=
  sha256 (jcsSerialize stringify_frac
    (JObj [("kind", JStr "node.link"); ("spawnKey", JStr spawnKey); ("donorScope", JStr donorScope);
           ("targetNodeId", JStr targetNodeId)])).
End LinkKey.
