(* ===== verification/ReuseLaws.v ===== *)
(** * The laws of reuse by reference (packages/core/src/journal/reuse.ts)

    What the fold knows of every donor, and what a verdict guarantees. *)
From Stdlib Require Import QArith.
From S2P Require Import Prelude Num Json Entries Scope Identity Disposition AdmissionAlgo Reuse.

(** ** Updating the first match *)

Section UpdateFirst.
Context {A : Type} (p : A → bool) (f : A → A).
Implicit Types (x y : A) (l : list A).

Lemma update_first_elem l x :
  x ∈ update_first p f l → x ∈ l ∨ ∃ y, y ∈ l ∧ p y = true ∧ x = f y.
Proof.
  induction l as [|z l IH]; cbn; [set_solver|]. destruct (p z) eqn:E.
  - intros [->|Hx]%elem_of_cons; [right; exists z|left]; set_solver.
  - intros [->|Hx]%elem_of_cons; [left; by left|]. destruct (IH Hx) as [?|(y & ? & ? & ?)]; [left; by right|].
    right. exists y. set_solver.
Qed.

Lemma update_first_keep l x : x ∈ l → p x = false → x ∈ update_first p f l.
Proof.
  induction l as [|z l IH]; cbn; [set_solver|]. intros [->|Hx]%elem_of_cons Hp.
  - rewrite Hp. by left.
  - destruct (p z); right; auto.
Qed.

Lemma update_first_hit l x : x ∈ l → p x = true → ∃ y, y ∈ l ∧ p y = true ∧ f y ∈ update_first p f l.
Proof.
  induction l as [|z l IH]; cbn; [set_solver|]. intros [->|Hx]%elem_of_cons Hp.
  - rewrite Hp. exists z. split_and!; [by left|done|by left].
  - destruct (p z) eqn:E; [exists z; split_and!; [by left|done|by left]|].
    destruct (IH Hx Hp) as (y & ? & ? & ?). exists y. split_and!; [by right|done|by right].
Qed.

Lemma update_first_map {B} (g : A → B) l : (∀ x, g (f x) = g x) → map g (update_first p f l) = map g l.
Proof.
  intros Hg. induction l as [|z l IH]; cbn; [done|]. destruct (p z); cbn; by rewrite ?Hg, ?IH.
Qed.
End UpdateFirst.

Lemma index_by_seq_found es ref e : index_by_seq es !! ref = Some e → e_seq e = ref ∧ e ∈ es.
Proof.
  unfold index_by_seq. revert ref e.
  induction es as [|x es IH] using rev_ind; intros ref e; cbn; [by rewrite lookup_empty|].
  rewrite foldl_app. cbn. rewrite lookup_insert_Some, elem_of_app.
  intros [[<- <-]|[_ Hl]]; [split; [done|right; by left]|]. destruct (IH _ _ Hl). auto.
Qed.

Section Laws.
Context {T : Type} `{Num T} (priceUsd : option string → Usage → option T).
Implicit Types (d : DonorCandidate T) (v : NodeLinkValue T) (index : DedupIndex T) (es : list JournalEntry).

(** The entry is a link of the key. *)
Definition links_key (key : string) (e : JournalEntry) : bool :=
  bool_decide (e_kind e = KNodeLink) &&
  match linkOf (T := T) e with Ok v => bool_decide (nl_spawnKey v = key) | Err _ => false end.

(** The entry is an exclusive link from the scope. *)
Definition exclusive_link (key scope : string) (e : JournalEntry) : Prop :=
  e_kind e = KNodeLink ∧ ∃ v, linkOf (T := T) e = Ok v ∧ nl_spawnKey v = key ∧
    nl_donorScope v = scope ∧ nl_claim v = claim_exclusive.

(** The entry abandons the root. *)
Definition severs (ref : N) (e : JournalEntry) : Prop := e_kind e = KAbandon ∧ e_ref e = Some ref.

(** What the fold knows after the entries [done]. *)
Record donor_ok es done index d (key : string) : Prop := {
  do_key : dc_spawnKey d = key;
  do_root : ∃ target, index_by_seq es !! dc_rootEntryRef d = Some target ∧ e_key target = key ∧
    (e_kind target = KAgent ∨ e_kind target = KChild);
  do_claim : ∀ seq, dc_claimedBy d = Some seq →
    ∃ e, e ∈ done ∧ e_seq e = seq ∧ exclusive_link key (dc_rootScope d) e;
  do_sever : ∃ before ab after, done = before ++ ab :: after ∧ severs (dc_rootEntryRef d) ab ∧
    (dc_claimedBy d = None → ∀ e, e ∈ after → exclusive_link key (dc_rootScope d) e →
       ∃ d', d' ∈ allDonorsOf index key ∧ dc_rootScope d' = dc_rootScope d ∧
         dc_claimedBy d' = Some (e_seq e));
}.

Record fold_ok es done index (covered : Coverage) : Prop := {
  fo_links : ∀ key, oscillationCountOf index key = N.of_nat (length (List.filter (links_key key) done));
  fo_donors : ∀ key d, d ∈ allDonorsOf index key → donor_ok es done index d key;
  fo_roots : ∀ key, NoDup (map dc_rootEntryRef (allDonorsOf index key));
  fo_covered : ∀ key d, d ∈ allDonorsOf index key → dc_rootEntryRef d ∈ coveredSeqs covered;
}.

(** A donor stays what it is as entries that claim nothing follow. *)
Lemma donor_ok_more es done index index' d key e :
  donor_ok es done index d key →
  (∀ d', d' ∈ allDonorsOf index key → d' ∈ allDonorsOf index' key) →
  ¬ exclusive_link key (dc_rootScope d) e → donor_ok es (done ++ [e]) index' d key.
Proof.
  intros [Hk Hr Hc (before & ab & after & -> & Hs & Hu)] Hsub Hno. split; [done|done| |].
  - intros seq (x & Hx & Hseq & Hl)%Hc. exists x. split_and!; [set_solver|done|done].
  - exists before, ab, (after ++ [e]). split; [by rewrite <- app_assoc|]. split; [done|].
    intros Hn x [Hx|Hx]%elem_of_app Hl.
    + destruct (Hu Hn x Hx Hl) as (d' & ? & ? & ?). exists d'. auto.
    + apply list_elem_of_singleton in Hx as ->. done.
Qed.

Lemma links_key_other key e : e_kind e ≠ KNodeLink → links_key key e = false.
Proof. intros Hk. unfold links_key. by rewrite bool_decide_eq_false_2. Qed.

Lemma exclusive_other key scope e : e_kind e ≠ KNodeLink → ¬ exclusive_link key scope e.
Proof. by intros Hk [? _]. Qed.

Lemma filter_snoc_length {A} (p : A → bool) l x :
  length (List.filter p (l ++ [x])) = (length (List.filter p l) + if p x then 1 else 0)%nat.
Proof. rewrite List.filter_app, length_app. cbn. by destruct (p x). Qed.

(** An entry that is no link and adds no donor. *)
Lemma fold_ok_skip es done index covered covered' e :
  fold_ok es done index covered → e_kind e ≠ KNodeLink → coveredSeqs covered ⊆ coveredSeqs covered' →
  fold_ok es (done ++ [e]) index covered'.
Proof.
  intros [Hl Hd Hn Hc] Hk Hsub. split.
  - intros key. rewrite filter_snoc_length, links_key_other, Nat.add_0_r by done. apply Hl.
  - intros key d Hin. eapply donor_ok_more; [by apply Hd|done|by apply exclusive_other].
  - done.
  - intros key d Hin. apply Hsub. by eapply Hc.
Qed.

Lemma donors_of_add index d key :
  allDonorsOf (add_donor index d) key =
    if decide (dc_spawnKey d = key) then allDonorsOf index key ++ [d] else allDonorsOf index key.
Proof.
  unfold allDonorsOf, add_donor. cbn. case_decide as E.
  - subst. by rewrite lookup_insert_eq.
  - by rewrite lookup_insert_ne.
Qed.

(** The candidate's members the laws speak of. *)
Lemma candidate_fields es links target terminal prefix payload :
  let d := candidate_of priceUsd es links target terminal prefix payload in
  dc_rootEntryRef d = e_seq target ∧ dc_spawnKey d = e_key target ∧ dc_claimedBy d = None.
Proof.
  unfold candidate_of. destruct (foldl _ _ es) as [seen [paid eligible]]. done.
Qed.

Lemma fold_ok_donor es done index covered covered' e d :
  fold_ok es done index covered → e_kind e = KAbandon →
  e_ref e = Some (dc_rootEntryRef d) → dc_claimedBy d = None →
  (∃ target, index_by_seq es !! dc_rootEntryRef d = Some target ∧ e_key target = dc_spawnKey d ∧
     (e_kind target = KAgent ∨ e_kind target = KChild)) →
  dc_rootEntryRef d ∉ coveredSeqs covered →
  coveredSeqs covered' = {[dc_rootEntryRef d]} ∪ coveredSeqs covered →
  fold_ok es (done ++ [e]) (add_donor index d) covered'.
Proof.
  intros [Hl Hd Hn Hc] Hk Href Hun Htarget Hfresh Hcov.
  assert (e_kind e ≠ KNodeLink) as Hne by congruence.
  assert (∀ key d', d' ∈ allDonorsOf index key → d' ∈ allDonorsOf (add_donor index d) key) as Hsub.
  { intros key d' Hin. rewrite donors_of_add. case_decide; set_solver. }
  split.
  - intros key. rewrite filter_snoc_length, links_key_other, Nat.add_0_r by done. apply Hl.
  - intros key d'. rewrite donors_of_add. case_decide as E.
    + intros [Hin|Hin]%elem_of_app.
      * eapply donor_ok_more; [by apply Hd|by apply Hsub|by apply exclusive_other].
      * apply list_elem_of_singleton in Hin as ->. split; [done|by rewrite <- E|congruence|].
        exists done, e, []. split; [done|]. split; [done|]. intros _ x Hx. by apply elem_of_nil in Hx.
    + intros Hin. eapply donor_ok_more; [by apply Hd|by apply Hsub|by apply exclusive_other].
  - intros key. rewrite donors_of_add. case_decide; [|done]. rewrite map_app. apply NoDup_app. split_and!.
    + done.
    + intros x (d' & -> & Hin)%list_elem_of_fmap Hx. cbn in Hx. apply list_elem_of_singleton in Hx.
      apply Hfresh. rewrite <- Hx. by eapply Hc.
    + apply NoDup_singleton.
  - intros key d'. rewrite donors_of_add, Hcov. case_decide; [intros [Hin|Hin]%elem_of_app|intros Hin].
    + apply elem_of_union_r. by eapply Hc.
    + apply list_elem_of_singleton in Hin as ->. set_solver.
    + apply elem_of_union_r. by eapply Hc.
Qed.

Lemma donors_of_link index seq v key :
  allDonorsOf (link_entry index seq v) key =
    if decide (nl_spawnKey v = key) then update_first (captures v) (capture v seq) (allDonorsOf index key)
    else allDonorsOf index key.
Proof.
  unfold allDonorsOf, link_entry. cbn. case_decide as E.
  - subst. destruct (di_donors index !! nl_spawnKey v) eqn:Hd; [by rewrite lookup_insert_eq|by rewrite Hd].
  - destruct (di_donors index !! nl_spawnKey v); [by rewrite lookup_insert_ne|done].
Qed.

Lemma captures_unclaimed v d : captures v d = true ↔ dc_rootScope d = nl_donorScope v ∧ dc_claimedBy d = None.
Proof. unfold captures, unclaimed. by rewrite andb_true_iff, !bool_decide_eq_true. Qed.

Lemma claimed_kept v seq d s (l : list (DonorCandidate T)) :
  d ∈ l → dc_claimedBy d = Some s → d ∈ update_first (captures v) (capture v seq) l.
Proof.
  intros Hin Hs. apply update_first_keep; [done|]. apply not_true_iff_false. rewrite captures_unclaimed. naive_solver.
Qed.

Lemma donor_ok_link es done index d v e :
  linkOf e = Ok v → e_kind e = KNodeLink → donor_ok es done index d (nl_spawnKey v) →
  d ∈ allDonorsOf index (nl_spawnKey v) →
  donor_ok es (done ++ [e]) (link_entry index (e_seq e) v) d (nl_spawnKey v).
Proof.
  intros Hv Hkind [Hk Hr Hc (before & ab & after & -> & Hs & Hu)] Hin. split; [done|done| |].
  - intros seq (x & Hx & Hseq & Hl)%Hc. exists x. split_and!; [set_solver|done|done].
  - exists before, ab, (after ++ [e]). split; [by rewrite <- app_assoc|]. split; [done|].
    intros Hn x [Hx|Hx]%elem_of_app Hl; rewrite donors_of_link, decide_True by done.
    + destruct (Hu Hn x Hx Hl) as (d' & ? & ? & ?). exists d'. split_and!; [by eapply claimed_kept|done|done].
    + apply list_elem_of_singleton in Hx as ->. destruct Hl as (_ & v' & Hv' & _ & Hsc & Hcl).
      rewrite Hv in Hv'. injection Hv' as <-.
      destruct (update_first_hit (captures v) (capture v (e_seq e)) _ d Hin) as (y & Hy & Hcap & Hnew);
        [by apply captures_unclaimed|].
      exists (capture v (e_seq e) y). apply captures_unclaimed in Hcap as [Hys _].
      split_and!; [done|cbn; congruence|cbn; by rewrite decide_True].
Qed.

Lemma donor_ok_captured es done index d v e :
  linkOf e = Ok v → e_kind e = KNodeLink → captures v d = true → donor_ok es done index d (nl_spawnKey v) →
  donor_ok es (done ++ [e]) (link_entry index (e_seq e) v) (capture v (e_seq e) d) (nl_spawnKey v).
Proof.
  intros Hv Hkind [Hscope Hun]%captures_unclaimed [Hk Hr Hc (before & ab & after & -> & Hs & Hu)].
  split; [done|done| |]; cbn.
  - case_decide as E; [|congruence]. intros ? [= <-]. exists e. split_and!; [set_solver|done|].
    split; [done|]. exists v. auto.
  - exists before, ab, (after ++ [e]). split; [by rewrite <- app_assoc|]. split; [done|].
    case_decide as E; [done|]. intros _ x [Hx|Hx]%elem_of_app Hl.
    + destruct (Hu Hun x Hx Hl) as (d' & ? & ? & ?). exists d'.
      rewrite donors_of_link, decide_True by done. split_and!; [by eapply claimed_kept|done|done].
    + apply list_elem_of_singleton in Hx as ->. destruct Hl as (_ & v' & Hv' & _ & _ & Hcl). congruence.
Qed.

Lemma fold_ok_link es done index covered e v :
  fold_ok es done index covered → e_kind e = KNodeLink → linkOf e = Ok v →
  fold_ok es (done ++ [e]) (link_entry index (e_seq e) v) covered.
Proof.
  intros [Hl Hd Hn Hc] Hkind Hv.
  assert (∀ key, map dc_rootEntryRef (allDonorsOf (link_entry index (e_seq e) v) key) =
                 map dc_rootEntryRef (allDonorsOf index key)) as Hroots.
  { intros key. rewrite donors_of_link. case_decide; [by apply update_first_map|done]. }
  split.
  - intros key. rewrite filter_snoc_length. unfold links_key at 2. rewrite Hv, bool_decide_eq_true_2 by done.
    specialize (Hl key). unfold oscillationCountOf, link_entry in *. cbn [di_links andb].
    case_bool_decide as E; [subst; rewrite lookup_insert_eq; cbn; rewrite Hl; lia|].
    rewrite lookup_insert_ne, Nat.add_0_r by done. exact Hl.
  - intros key d. rewrite donors_of_link. case_decide as E; [subst key|].
    + intros [Hin|(y & Hy & Hcap & ->)]%update_first_elem; [by apply donor_ok_link; auto|].
      by apply donor_ok_captured; auto.
    + intros Hin. eapply donor_ok_more; [by apply Hd|by rewrite donors_of_link, decide_False|].
      intros (_ & v' & Hv' & Hkey & _). congruence.
  - intros key. by rewrite Hroots.
  - intros key d Hin. assert (dc_rootEntryRef d ∈ map dc_rootEntryRef (allDonorsOf (link_entry index (e_seq e) v) key))
      as Hm by (by apply list_elem_of_fmap_2).
    rewrite Hroots in Hm. apply list_elem_of_fmap in Hm as (d' & -> & Hin'). by eapply Hc.
Qed.

Lemma abandon_ok es done index covered e ref state' :
  fold_ok es done index covered → e_kind e = KAbandon → e_ref e = Some ref →
  abandon_entry priceUsd es (index, covered) e ref = Ok state' →
  fold_ok es (done ++ [e]) state'.1 state'.2.
Proof.
  intros Hok Hk Hr. assert (e_kind e ≠ KNodeLink) as Hne by congruence. unfold abandon_entry.
  destruct (index_by_seq es !! ref) as [target|] eqn:Ht; [|by intros [= <-]; apply fold_ok_skip with covered].
  destruct (isCovered covered target) eqn:Hcov; [by intros [= <-]; apply fold_ok_skip with covered|].
  destruct (cover covered target) as [covered'|] eqn:Hcv; [|done].
  destruct (childCoveragePrefix target) as [prefix|] eqn:Hp; [|done].
  assert (coveredSeqs covered' = {[e_seq target]} ∪ coveredSeqs covered) as Hseqs.
  { unfold cover in Hcv. rewrite Hp in Hcv. by injection Hcv as <-. }
  destruct (index_by_seq_found _ _ _ Ht) as [Hseq _].
  destruct (_ || _) eqn:Hkind; intros [= <-]; [|apply fold_ok_skip with covered; set_solver].
  cbn [fst snd]. set (d := candidate_of _ _ _ _ _ _ _).
  destruct (candidate_fields es (di_linkByTargetScope index) target
    (terminals_of es !! e_seq target) prefix (e_abandon e)) as (Hd1 & Hd2 & Hd3). fold d in Hd1, Hd2, Hd3.
  apply fold_ok_donor with covered; try done; rewrite ?Hd1, ?Hseq; try congruence.
  - exists target. split_and!; [done|by rewrite Hd2|]. rewrite orb_true_iff, !bool_decide_eq_true in Hkind. done.
  - apply orb_false_iff in Hcov as [Hn%bool_decide_eq_false_1 _]. by rewrite <- Hseq.
Qed.

Lemma steps_ok es done rest state state' :
  fold_ok es done state.1 state.2 → dedup_steps priceUsd es state rest = Ok state' →
  fold_ok es (done ++ rest) state'.1 state'.2.
Proof.
  revert done state. induction rest as [|e rest IH]; intros done [index covered] Hok; cbn [dedup_steps].
  { intros [= <-]. by rewrite app_nil_r. }
  intros (s1 & Hs & Hrest)%bind_ok. rewrite cons_middle, app_assoc. eapply IH; [|exact Hrest].
  unfold dedup_step in Hs. cbn [fst snd] in Hok.
  destruct (e_kind e) eqn:Hk; try (injection Hs as <-; apply fold_ok_skip with covered; [done|congruence|done]).
  - destruct (e_ref e) as [ref|] eqn:Hr; [by eapply abandon_ok|].
    injection Hs as <-. apply fold_ok_skip with covered; [done|congruence|done].
  - apply bind_ok in Hs as (v & Hv & [= <-]). by apply fold_ok_link.
Qed.

Lemma empty_fold_ok es : fold_ok es [] empty_dedup no_coverage.
Proof.
  split; intros key; [done|intros d Hd|constructor|intros d Hd]; by apply elem_of_nil in Hd.
Qed.

Lemma dedup_fold_ok es index :
  dedup_fold priceUsd es = Ok index → ∃ covered, fold_ok es es index covered.
Proof.
  unfold dedup_fold. intros (state & Hs & [= <-])%bind_ok. exists state.2.
  destruct (steps_ok es [] es (empty_dedup, no_coverage) state (empty_fold_ok es) Hs) as [Hl Hd Hn Hc].
  split; [exact Hl| |exact Hn|exact Hc]. intros key d Hin. by destruct (Hd key d Hin).
Qed.
End Laws.

(** ** The verdict *)

Section Verdict.
Context {T : Type} `{Num T}.
Implicit Types (d : DonorCandidate T) (index : DedupIndex T).

(** A verdict that hands out a donor. *)
Definition hands_out (verdict : ReuseVerdict T) d : Prop := verdict = reuse_full d ∨ verdict = admit_graft d.

Lemma judge_hands config key d d' : hands_out (judge_donor config key d) d' → d' = d.
Proof.
  unfold hands_out, judge_donor, fresh_note. intros Hh.
  repeat (case_match; [naive_solver|]). naive_solver.
Qed.

Lemma find_unclaimed (l : list (DonorCandidate T)) :
  find_first unclaimed (List.filter unclaimed l) = head (List.filter unclaimed l).
Proof.
  induction l as [|d l IH]; cbn; [done|]. destruct (unclaimed d) eqn:E; cbn; [by rewrite E|done].
Qed.

(** The verdict, without the search for a donor among the unclaimed ones. *)
Lemma evaluateReuse_eq index key config :
  evaluateReuse index key config =
    if bool_decide ((config ≫= rc_enabled) = Some false) then verdict_none
    else match head (donorsOf index key) with
         | None => verdict_none
         | Some d =>
             if (max_oscillations config <=? Z.of_N (oscillationCountOf index key))%Z
             then reject_osc_guard (oscillationCountOf index key)
             else judge_donor config key d
         end.
Proof.
  unfold evaluateReuse. case_match; [done|].
  pose proof (find_unclaimed (allDonorsOf index key)) as Hf. fold (donorsOf index key) in Hf.
  destruct (donorsOf index key) as [|d l]; [done|]. by rewrite Hf.
Qed.

Lemma hands_out_spec index key config d :
  hands_out (evaluateReuse index key config) d →
  head (donorsOf index key) = Some d ∧ (Z.of_N (oscillationCountOf index key) < max_oscillations config)%Z.
Proof.
  rewrite evaluateReuse_eq. unfold hands_out. case_match; [naive_solver|].
  destruct (head (donorsOf index key)) as [d'|]; [|naive_solver].
  destruct (Z.leb_spec (max_oscillations config) (Z.of_N (oscillationCountOf index key))); [naive_solver|].
  intros Hh. by apply judge_hands in Hh as ->.
Qed.

Lemma head_unclaimed index key d :
  head (donorsOf index key) = Some d → d ∈ allDonorsOf index key ∧ dc_claimedBy d = None.
Proof.
  intros Hd. assert (d ∈ donorsOf index key) as Hin.
  { destruct (donorsOf index key); [done|]. injection Hd as ->. left. }
  apply list_elem_of_In, filter_In in Hin as [Hin%list_elem_of_In Hu]. split; [done|].
  by apply bool_decide_eq_true_1 in Hu.
Qed.
End Verdict.

(** Links are journaled on a verdict that hands out a donor, at the head of the
    journal they are appended to. *)
Definition licensed {T} `{Num T} priceUsd (config : option ReuseConfig) (es : list JournalEntry) : Prop :=
  ∀ before e after key, es = before ++ e :: after → links_key (T := T) key e = true →
    ∃ index d, dedup_fold (T := T) priceUsd before = Ok index ∧ hands_out (evaluateReuse index key config) d.

(** C18: reuse ends.  In a journal whose links were appended on verdicts of the
    index folded at their head, no key is linked more often than the configured
    number of oscillations, whatever else the journal holds. *)
Theorem reuse_is_bounded {T} `{Num T} priceUsd config es key :
  licensed (T := T) priceUsd config es →
  (Z.of_nat (length (List.filter (links_key (T := T) key) es)) <= Z.max 0 (max_oscillations config))%Z.
Proof.
  induction es as [|e es IH] using rev_ind; intros Hl; [cbn; lia|]. rewrite filter_snoc_length.
  assert (licensed (T := T) priceUsd config es) as Hes.
  { intros before x after key' -> Hk. apply (Hl before x (after ++ [e]) key'); [|done]. by rewrite <- app_assoc. }
  destruct (links_key key e) eqn:E; [|rewrite Nat.add_0_r; by apply IH].
  destruct (Hl es e [] key eq_refl E) as (index & d & Hf & [_ Hlt]%hands_out_spec).
  destruct (dedup_fold_ok priceUsd es index Hf) as [covered Hok].
  rewrite (fo_links _ _ _ _ Hok) in Hlt. lia.
Qed.

(** C17: nothing is paid for twice through one donor.  A donor a verdict hands out is
    the oldest the index holds unclaimed for the key; it is the root of a branch of
    that key an abandon severed, in the journal once; and every exclusive link from
    its scope after that abandon captured another donor. *)
Theorem captured_donor_is_not_reused {T} `{Num T} priceUsd es (index : DedupIndex T) key config d :
  dedup_fold priceUsd es = Ok index → hands_out (evaluateReuse index key config) d →
  head (donorsOf index key) = Some d ∧
  (∃ target, index_by_seq es !! dc_rootEntryRef d = Some target ∧ e_key target = key ∧
     (e_kind target = KAgent ∨ e_kind target = KChild)) ∧
  (∀ d', d' ∈ allDonorsOf index key → dc_rootEntryRef d' = dc_rootEntryRef d → d' = d) ∧
  ∃ before ab after, es = before ++ ab :: after ∧ severs (dc_rootEntryRef d) ab ∧
    ∀ e, e ∈ after → exclusive_link (T := T) key (dc_rootScope d) e →
      ∃ d', d' ∈ allDonorsOf index key ∧ d' ≠ d ∧ dc_claimedBy d' = Some (e_seq e).
Proof.
  intros [covered Hok]%dedup_fold_ok [Hh _]%hands_out_spec.
  destruct (head_unclaimed _ _ _ Hh) as [Hin Hun].
  destruct (fo_donors _ _ _ _ Hok key d Hin) as [_ Hroot _ (before & ab & after & He & Hs & Hx)].
  split_and!; [done|done| |].
  - intros d' Hin' Hroot'. pose proof (fo_roots _ _ _ _ Hok key) as Hnd. clear -Hin Hin' Hroot' Hnd.
    apply list_elem_of_lookup in Hin as [i Hi]. apply list_elem_of_lookup in Hin' as [j Hj].
    assert (i = j) as ->; [|congruence]. eapply NoDup_lookup; [exact Hnd| |].
    + rewrite list_lookup_fmap, Hi. done.
    + rewrite list_lookup_fmap, Hj. cbn. by rewrite Hroot'.
  - exists before, ab, after. split_and!; [done|done|]. intros e Hin' Hl.
    destruct (Hx Hun e Hin' Hl) as (d' & ? & _ & Hc). exists d'. split_and!; [done|congruence|done].
Qed.

(** The reason [donor_active] is never given: when every donor of a key is captured
    the verdict is [none], without a note. *)
Lemma donor_active_never {T} `{Num T} (index : DedupIndex T) key config k n :
  evaluateReuse index key config ≠ verdict_fresh (mkNote k n donor_active) ∧
  ((∀ d, d ∈ allDonorsOf index key → dc_claimedBy d ≠ None) →
   evaluateReuse index key config = verdict_none).
Proof.
  rewrite evaluateReuse_eq. split.
  - unfold judge_donor, fresh_note. repeat case_match; congruence.
  - intros Hall. case_match; [done|].
    destruct (head (donorsOf index key)) as [d|] eqn:E; [|done].
    destruct (head_unclaimed _ _ _ E) as [Hin Hun]. by destruct (Hall d Hin).
Qed.

(** ** Runs *)

(** A dollar per input token, whoever served it. *)
Definition per_token (_ : option string) (u : Usage) : option Q := Some (inject_Z (Entries.inputTokens u)).

Definition spent (n : Z) : Usage := mkUsage n 0 0 0 None None None.

Definition settled (seq ref : N) (scope : string) (n : Z) : JournalEntry :=
  with_usage (with_ref (base_entry seq scope "k" KAgent StOk) ref) (spent n).

Definition sever (seq ref : N) : JournalEntry :=
  with_ref (base_entry seq "" "abandon" KAbandon StOk) ref.

Definition link (seq : N) : JournalEntry :=
  with_value (base_entry seq "" "link" KNodeLink StOk)
    (JObj [("targetScope", JStr "plan/B"); ("donorScope", JStr "agent:0"); ("chain", JArr [JStr "agent:0"]);
           ("spawnKey", JStr "k"); ("mode", JStr "full"); ("claim", JStr "exclusive");
           ("reclaimedUsdAtLink", JNum 5)]).

(** A root that settled at five dollars and was severed. *)
Definition severed : list JournalEntry :=
  [base_entry 0 "" "k" KAgent StRunning; settled 1 0 "" 5; sever 2 0].

Definition donor_zero : DonorCandidate Q :=
  mkDonor 0 "agent:0" "k" None None StOk false 5%Q 5%Q true false false None true None ["agent:0"].

Lemma captured_donor_is_not_reused_witness :
  ∃ index, dedup_fold per_token severed = Ok index ∧ head (donorsOf index "k") = Some donor_zero.
Proof.
  destruct (dedup_fold per_token severed) as [index|] eqn:E; [|vm_compute in E; discriminate].
  exists index. split; [done|].
  refine (proj1 (captured_donor_is_not_reused per_token severed index "k" None donor_zero E _)).
  left. vm_compute in E. injection E as <-. vm_compute. reflexivity.
Defined.

Lemma reuse_is_bounded_witness :
  (Z.of_nat (length (List.filter (links_key (T := Q) "k") (severed ++ [link 3]))) <= Z.max 0 2)%Z.
Proof.
  apply (reuse_is_bounded per_token None (severed ++ [link 3]) "k").
  intros before e after key He Hk.
  assert (before = severed ∧ e = link 3 ∧ after = []) as (-> & -> & ->).
  { destruct before as [|? [|? [|? [|? before]]]]; injection He; intros; subst; try discriminate; [done|].
    by destruct before. }
  assert (key = "k") as -> by (apply bool_decide_eq_true_1 in Hk; done).
  destruct (dedup_fold per_token severed) as [index|] eqn:E; [|vm_compute in E; discriminate].
  exists index, donor_zero. split; [done|]. left. vm_compute in E. injection E as <-. vm_compute. reflexivity.
Defined.

(** A nested root severed before the branch around it: its four dollars are counted
    with each. *)
Definition nested : list JournalEntry :=
  [base_entry 0 "" "k" KAgent StRunning; base_entry 1 "agent:0" "k2" KAgent StRunning;
   settled 2 1 "agent:0" 4; sever 3 1; sever 4 0].

Example nested_branch_counts_twice :
  (fun index => fst (fst (fst (abandonedSpend index)))) <$> dedup_fold per_token nested = Ok 8%Q ∧
  foldr Qplus 0%Q (map (priceOf per_token) nested) == 4.
Proof. split; vm_compute; reflexivity. Qed.
