(* ===== verification/Pricing.v ===== *)
(** * Pricing (packages/core/src/model/pricing.ts)

    The price of a usage against one row, the output a budget still affords, and the
    comparison of a row with the documented rates.  Prices are numbers of [Num]; a
    rate read from a page may be NaN, so the comparison takes [jsnum]. *)
From Stdlib Require Import QArith Qround Lqa.
From S2P Require Import Prelude Num Entries.

Section Pricing.
Context {T : Type} `{Num T}.

Record PricingTier := mkTier {
  aboveInputTokens : T;
  inputMultiplier : T;
  outputMultiplier : T;
}.

Record Pricing := mkPricing {
  inputUsdPerMTok : T;
  outputUsdPerMTok : T;
  cacheReadUsdPerMTok : option T;
  cacheWriteUsdPerMTok : option T;
  cacheWrite1hUsdPerMTok : option T;
  tiers : option (list PricingTier);
  ratesVerifiedAt : option string;
}.

Record PriceTable := mkPriceTable { pricingVersion : string; models : gmap string Pricing }.

Definition resolvePricing (ref : string) (table : option PriceTable) (capsPricing : option Pricing)
    : option Pricing :=
  match table ≫= (fun t => models t !! ref) with Some row => Some row | None => capsPricing end.

Definition tier_step (inputTokens : Z) (tier : option PricingTier) (candidate : PricingTier)
    : option PricingTier :=
  if num_ltb (aboveInputTokens candidate) (num_of_Z inputTokens) &&
     match tier with None => true | Some t => num_ltb (aboveInputTokens t) (aboveInputTokens candidate) end
  then Some candidate else tier.

Definition tierFor (pricing : Pricing) (inputTokens : Z) : option PricingTier :=
  foldl (tier_step inputTokens) None (default [] (tiers pricing)).

(** [tokens / 1_000_000]. *)
Definition mtok (tokens : Z) : T := num_div (num_of_Z tokens) (num_of_Z 1000000).

Record PricedComponent := mkComponent { pc_tokens : Z; pc_usd : T }.

Record PricedComponents := mkComponents {
  pcs_input : PricedComponent;
  pcs_output : PricedComponent;
  pcs_cachedInput : PricedComponent;
  pcs_cacheWrite : PricedComponent;
}.

Definition split_present (usage : Usage) : bool :=
  match cacheWrite5mTokens usage, cacheWrite1hTokens usage with None, None => false | _, _ => true end.

Definition priceComponentsOf (pricing : Pricing) (usage : Usage) : PricedComponents :=
  let tier := tierFor pricing (inputTokens usage) in
  let inputMul := from_option inputMultiplier (num_of_Z 1) tier in
  let outputMul := from_option outputMultiplier (num_of_Z 1) tier in
  let uncached := Z.max 0 (inputTokens usage - cacheReadTokens usage - cacheWriteTokens usage) in
  let writeRate := default (inputUsdPerMTok pricing) (cacheWriteUsdPerMTok pricing) in
  let write1hRate := default writeRate (cacheWrite1hUsdPerMTok pricing) in
  let write1h := if split_present usage then default 0%Z (cacheWrite1hTokens usage) else 0%Z in
  let writeDefault := Z.max 0 (cacheWriteTokens usage - write1h) in
  mkComponents
    (mkComponent uncached (num_mul (num_mul (mtok uncached) (inputUsdPerMTok pricing)) inputMul))
    (mkComponent (outputTokens usage)
       (num_mul (num_mul (mtok (outputTokens usage)) (outputUsdPerMTok pricing)) outputMul))
    (mkComponent (cacheReadTokens usage)
       (num_mul (num_mul (mtok (cacheReadTokens usage))
                   (default (inputUsdPerMTok pricing) (cacheReadUsdPerMTok pricing))) inputMul))
    (mkComponent (cacheWriteTokens usage)
       (num_mul (num_add (num_mul (mtok writeDefault) writeRate) (num_mul (mtok write1h) write1hRate))
          inputMul)).

Definition priceUsdOf (pricing : Pricing) (usage : Usage) : T :=
  let parts := priceComponentsOf pricing usage in
  num_add (num_add (num_add (pc_usd (pcs_input parts)) (pc_usd (pcs_output parts)))
             (pc_usd (pcs_cachedInput parts)))
    (pc_usd (pcs_cacheWrite parts)).

(** A turn of a prompt and an answer, nothing cached. *)
Definition plain_usage (input output : Z) : Usage := mkUsage input output 0 0 None None None.

Definition output_rate (pricing : Pricing) (inputTokens : Z) : T :=
  num_mul (outputUsdPerMTok pricing) (from_option outputMultiplier (num_of_Z 1) (tierFor pricing inputTokens)).

Definition affordableOutputTokens (pricing : Pricing) (remainingUsd : T) (estimatedInputTokens : Z)
    : option Z :=
  let outputRate := output_rate pricing estimatedInputTokens in
  if num_leb outputRate (num_of_Z 0) then None
  else
    let inputUsd := priceUsdOf pricing (plain_usage estimatedInputTokens 0) in
    Some (num_floor (num_mul (num_div (num_sub remainingUsd inputUsd) outputRate) (num_of_Z 1000000))).

(** ** Documented rates *)

Inductive RateField := f_input | f_output | f_cacheRead | f_cacheWrite | f_cacheWrite1h.
Inductive TierField := f_above | f_inputMul | f_outputMul.

Definition RATE_FIELDS : list RateField := [f_input; f_output; f_cacheRead; f_cacheWrite; f_cacheWrite1h].
Definition TIER_FIELDS : list TierField := [f_above; f_inputMul; f_outputMul].

Record DocumentedRates := mkRates {
  dr_rate : RateField → option (jsnum T);
  dr_tiers : option (list (TierField → option (jsnum T)));
}.

Inductive RateFinding :=
  | undeclared_rate (field : RateField)
  | undocumented_rate (field : RateField)
  | rate_differs (field : RateField)
  | undeclared_tiers
  | tier_count_differs
  | tier_differs (index : nat) (field : TierField).

(** [!(Math.abs(seed - page) <= 1e-9)]: true on NaN. *)
Definition num_abs (a : T) : T := if num_leb (num_of_Z 0) a then a else num_sub (num_of_Z 0) a.

Definition rates_differ (seed page : jsnum T) : bool :=
  match seed, page with
  | Finite a, Finite b =>
      negb (num_leb (num_abs (num_sub a b)) (num_div (num_of_Z 1) (num_of_Z 1000000000)))
  | _, _ => true
  end.

Definition compare_field (seed page : DocumentedRates) (f : RateField) : list RateFinding :=
  match dr_rate seed f, dr_rate page f with
  | None, None => []
  | None, Some _ => [undeclared_rate f]
  | Some _, None => [undocumented_rate f]
  | Some a, Some b => if rates_differ a b then [rate_differs f] else []
  end.

(** [tiers[i]?.[field] ?? NaN]. *)
Definition tier_value (ts : list (TierField → option (jsnum T))) (i : nat) (f : TierField) : jsnum T :=
  default NonFinite (ts !! i ≫= (fun tier => tier f)).

Definition compare_tier (seed page : list (TierField → option (jsnum T))) (i : nat) : list RateFinding :=
  flat_map (fun f => if rates_differ (tier_value seed i f) (tier_value page i f) then [tier_differs i f] else [])
    TIER_FIELDS.

Definition compare_tiers (seed page : DocumentedRates) : list RateFinding :=
  match dr_tiers seed, dr_tiers page with
  | None, Some (_ :: _) => [undeclared_tiers]
  | None, _ => []
  | Some ts, Some ps =>
      if (length ps =? length ts)%nat then flat_map (compare_tier ts ps) (seq 0 (length ts))
      else [tier_count_differs]
  | Some _, None => [tier_count_differs]
  end.

Definition compareRates (seed page : DocumentedRates) : list RateFinding :=
  flat_map (compare_field seed page) RATE_FIELDS ++ compare_tiers seed page.
End Pricing.

Arguments PricingTier T : clear implicits.
Arguments Pricing T : clear implicits.
Arguments PriceTable T : clear implicits.
Arguments DocumentedRates T : clear implicits.

(** ** Laws *)

Section Laws.
Context {T : Type} `{Num T, !ExactNum T}.
Implicit Types (pricing : Pricing T) (usage : Usage).

Lemma tierFor_fold inputTokens (l : list (PricingTier T)) tier t :
  foldl (tier_step inputTokens) tier l = Some t →
  (tier = Some t ∨ (t ∈ l ∧ val (aboveInputTokens t) < inject_Z inputTokens))%Q ∧
  (∀ t', t' ∈ l → (val (aboveInputTokens t') < inject_Z inputTokens)%Q →
     (val (aboveInputTokens t') <= val (aboveInputTokens t))%Q) ∧
  (∀ t0, tier = Some t0 → (val (aboveInputTokens t0) <= val (aboveInputTokens t))%Q).
Proof.
  revert tier. induction l as [|x l IH]; intros tier; cbn [foldl].
  { intros ->. split_and!; [by left|by intros ? ?%elem_of_nil|]. intros t0 [= ->]. apply Qle_refl. }
  intros (Hin & Hmax & Hprev)%IH. unfold tier_step in Hin, Hprev.
  pose proof (val_of_Z inputTokens) as Hz.
  destruct (num_ltb (aboveInputTokens x) (num_of_Z inputTokens)) eqn:E1; cbn [andb] in *.
  - destruct tier as [t0|]; [destruct (num_ltb (aboveInputTokens t0) (aboveInputTokens x)) eqn:E2|].
    + specialize (Hprev x eq_refl). num_bools. split_and!.
      * right. destruct Hin as [[= ->]|[? ?]]; [split; [by left|lra]|split; [by right|done]].
      * intros t' [->|Ht']%elem_of_cons ?; [done|by apply Hmax].
      * intros ? [= ->]. lra.
    + specialize (Hprev t0 eq_refl). num_bools. split_and!.
      * destruct Hin as [?|[? ?]]; [by left|right; split; [by right|done]].
      * intros t' [->|Ht']%elem_of_cons ?; [lra|by apply Hmax].
      * intros ? [= ->]. done.
    + specialize (Hprev x eq_refl). num_bools. split_and!.
      * right. destruct Hin as [[= ->]|[? ?]]; [split; [by left|lra]|split; [by right|done]].
      * intros t' [->|Ht']%elem_of_cons ?; [done|by apply Hmax].
      * done.
  - num_bools. split_and!.
    + destruct Hin as [?|[? ?]]; [by left|right; split; [by right|done]].
    + intros t' [->|Ht']%elem_of_cons ?; [lra|by apply Hmax].
    + done.
Qed.

Lemma val_mtok n : (val (mtok (T := T) n) == inject_Z n / 1000000)%Q.
Proof.
  unfold mtok. rewrite val_div, !val_of_Z; [reflexivity|]. rewrite val_of_Z. discriminate.
Qed.

(** What one more output token costs. *)
Lemma price_plain pricing input m :
  (val (priceUsdOf pricing (plain_usage input m)) ==
   val (priceUsdOf pricing (plain_usage input 0)) + inject_Z m / 1000000 * val (output_rate pricing input))%Q.
Proof.
  unfold priceUsdOf, output_rate, priceComponentsOf.
  cbn [pc_usd pcs_input pcs_output pcs_cachedInput pcs_cacheWrite Entries.inputTokens Entries.outputTokens
       cacheReadTokens cacheWriteTokens plain_usage split_present cacheWrite5mTokens cacheWrite1hTokens].
  set (mul := from_option outputMultiplier _ _).
  set (a := num_mul (num_mul (mtok (Z.max _ _)) _) _). set (c := num_mul (num_mul _ _) (from_option inputMultiplier _ _)).
  set (w := num_mul (num_add _ _) _). rewrite !val_add, !val_mul, !val_mtok.
  change (inject_Z 0) with 0%Q. field.
Qed.

Lemma le_floor m q : (inject_Z m <= q)%Q ↔ (m <= Qfloor q)%Z.
Proof.
  split; intros Hm.
  - rewrite <- (Qfloor_Z m). by apply Qfloor_resp_le.
  - eapply Qle_trans; [|apply Qfloor_le]. by rewrite <- Zle_Qle.
Qed.

Lemma affordable_iff pricing remaining input n m :
  affordableOutputTokens pricing remaining input = Some n →
  (val (priceUsdOf pricing (plain_usage input m)) <= val remaining)%Q ↔ (m <= n)%Z.
Proof.
  unfold affordableOutputTokens. destruct (num_leb (output_rate pricing input) (num_of_Z 0)) eqn:E; [done|].
  intros [= <-]. apply leb_false in E. rewrite val_of_Z in E. change (inject_Z 0) with 0%Q in E.
  rewrite val_floor, <- le_floor, price_plain, val_mul, val_of_Z, val_div, val_sub by (intros Hz; lra).
  set (i := val (priceUsdOf pricing (plain_usage input 0))). set (r := val (output_rate pricing input)) in *.
  change (inject_Z 1000000) with 1000000%Q.
  assert (inject_Z m / 1000000 * r == (1 # 1000000) * (inject_Z m * r))%Q as -> by field.
  assert ((val remaining - i) / r * 1000000 == (val remaining - i) * 1000000 / r)%Q as -> by (field; lra).
  split; intros Hx.
  - apply Qle_shift_div_l; [done|]. lra.
  - assert ((val remaining - i) * 1000000 / r * r == (val remaining - i) * 1000000)%Q as Hb by (field; lra).
    pose proof (Qmult_le_compat_r _ _ r Hx (Qlt_le_weak _ _ E)) as Hm. rewrite Hb in Hm. lra.
Qed.

(** The prompt tokens are split into the four rates without overlap. *)
Lemma prompt_split usage :
  let write1h := if split_present usage then default 0%Z (cacheWrite1hTokens usage) else 0%Z in
  (0 <= write1h <= cacheWriteTokens usage)%Z →
  (cacheReadTokens usage + cacheWriteTokens usage <= Entries.inputTokens usage)%Z →
  (Z.max 0 (Entries.inputTokens usage - cacheReadTokens usage - cacheWriteTokens usage) +
   cacheReadTokens usage + Z.max 0 (cacheWriteTokens usage - write1h) + write1h = Entries.inputTokens usage)%Z.
Proof. cbn. lia. Qed.
End Laws.

(** A budget's output bound is exact.  The bound is absent exactly when output is
    free; otherwise a turn of the estimated prompt and any number of output tokens is
    priced within the remaining money, tiers included, exactly when the number is at
    most the bound. *)
Theorem affordable_output_is_exact {T} `{Num T, !ExactNum T} (pricing : Pricing T) remaining input :
  (affordableOutputTokens pricing remaining input = None ↔ (val (output_rate pricing input) <= 0)%Q) ∧
  ∀ n, affordableOutputTokens pricing remaining input = Some n →
    ∀ output, (val (priceUsdOf pricing (plain_usage input output)) <= val remaining)%Q ↔ (output <= n)%Z.
Proof.
  split; [|intros n Hn output; by apply affordable_iff].
  unfold affordableOutputTokens. destruct (num_leb _ _) eqn:E; apply leb_true in E || apply leb_false in E;
    rewrite val_of_Z in E; change (inject_Z 0) with 0%Q in E; split; try done; intros; lra.
Qed.

(** With one rate for every token and no tier, a canonical usage costs that rate for
    each of its prompt and output tokens once. *)
Lemma each_token_billed_once {T} `{Num T, !ExactNum T} rate usage at_ :
  let pricing := mkPricing rate rate None None None None at_ in
  let write1h := if split_present usage then default 0%Z (cacheWrite1hTokens usage) else 0%Z in
  (0 <= write1h <= cacheWriteTokens usage)%Z →
  (cacheReadTokens usage + cacheWriteTokens usage <= Entries.inputTokens usage)%Z →
  (val (priceUsdOf pricing usage) ==
   inject_Z (Entries.inputTokens usage + outputTokens usage) / 1000000 * val rate)%Q.
Proof.
  intros pricing write1h H1 H2. pose proof (prompt_split usage H1 H2) as Hs. cbn zeta in Hs. fold write1h in Hs.
  unfold priceUsdOf, priceComponentsOf. cbn -[Z.max]. fold write1h.
  rewrite !val_add, !val_mul, !val_add, !val_mul, !val_mtok, !val_of_Z.
  rewrite <- Hs at 2. rewrite !inject_Z_plus. change (inject_Z 1) with 1%Q. field.
Qed.

(** The comparison finds nothing exactly when both sides agree: each rate is on both
    sides or on neither, within the tolerance; a page without tiers, or with none,
    against a seed without; or as many tiers as the seed, field by field. *)
Theorem compareRates_spec {T} `{Num T} (seed page : DocumentedRates T) :
  compareRates seed page = [] ↔
  (∀ f, match dr_rate seed f, dr_rate page f with
        | None, None => True
        | Some a, Some b => rates_differ a b = false
        | _, _ => False
        end) ∧
  match dr_tiers seed, dr_tiers page with
  | None, ps => default [] ps = []
  | Some ts, Some ps => length ps = length ts ∧
      ∀ i f, (i < length ts)%nat → rates_differ (tier_value ts i f) (tier_value ps i f) = false
  | Some _, None => False
  end.
Proof.
  assert (∀ {A B} (g : A → list B) l, flat_map g l = [] ↔ ∀ x, x ∈ l → g x = []) as Hflat.
  { intros A B g l. induction l as [|x l IH]; cbn; [set_solver|]. rewrite app_nil, IH. set_solver. }
  unfold compareRates. rewrite app_nil, Hflat.
  assert (∀ A B C D : Prop, (A ↔ B) → (C ↔ D) → (A ∧ C ↔ B ∧ D)) as Hand by tauto. apply Hand; clear Hand.
  - split; intros Hf f; [specialize (Hf f ltac:(destruct f; set_solver))|intros _; specialize (Hf f)];
      unfold compare_field in *; destruct (dr_rate seed f), (dr_rate page f); try done; by destruct (rates_differ _ _).
  - unfold compare_tiers. destruct (dr_tiers seed) as [ts|], (dr_tiers page) as [ps|]; cbn; try done.
    + destruct (Nat.eqb_spec (length ps) (length ts)) as [E|E]; [|split; [done|by intros [? _]]].
      rewrite Hflat. split.
      * intros Hc. split; [done|]. intros i f Hi.
        specialize (Hc i ltac:(apply elem_of_seq; lia)). unfold compare_tier in Hc. rewrite Hflat in Hc.
        specialize (Hc f ltac:(destruct f; set_solver)). by destruct (rates_differ _ _).
      * intros [_ Hc] i Hi%elem_of_seq. unfold compare_tier. apply Hflat. intros f _. by rewrite Hc by lia.
    + by destruct ps.
Qed.
