(* ===== verification/Budget.v ===== *)
(** * The run budget (packages/core/src/engine/budget.ts)

    [RunBudget]: the tree of accounts, spawn admission, reserves, the in-flight
    exposure cap, the per-turn guard, the call meters and the strict pricing gate.
    What a constructor fixes is in [BudgetOptions]; the rest is the state.  A closure
    the class hands out (the release of an exposure, a call meter) is a row of the
    state under its own number.  Telemetry events are left out. *)
From Stdlib Require Import QArith.
From S2P Require Import Prelude Num Json Entries Usage Pricing.

Definition ROOT_ACCOUNT : string := "run".
Definition FUTURE_RATES_TOLERANCE_MS : Z := 86400000.

Inductive AccountKind := orchestrator_cap | child_allowance.

#[global] Instance AccountKind_eq_dec : EqDecision AccountKind.
Proof. solve_decision. Defined.

(** The three holds with one mechanism. *)
Inductive Hold := h_synthesis | h_convergence | h_repair.

#[global] Instance Hold_eq_dec : EqDecision Hold.
Proof. solve_decision. Defined.

Inductive StrictRefusal :=
  | no_price_row | missing_rate | malformed_rate | malformed_tier
  | undated_rates | stale_rates | future_rates.

Inductive BudgetError :=
  | bad_amount (site : string)
  | root_reopen
  | unknown_parent (scope : string)
  | unknown_account (scope : string)
  | not_an_allowance (scope : string)
  | bad_strict_pricing
  | strict_refused (servedBy : string) (why : StrictRefusal)
  | spawn_cap_reached
  | ceiling_reached (account : string)
  | exposure_refused
  | turn_refused (account : string)
  | chain_loops.

Inductive ExposureOutcome := ex_released | ex_drained | ex_aborted.

Section Types.
Context {T : Type} `{Num T}.

Record AccountState := mkAccount {
  ac_scope : string;
  ac_ceiling : option T;
  ac_spent : T;
  ac_committed : T;
  ac_finalize : T;
  ac_hold : Hold → T;
  ac_parent : option string;
  ac_kind : option AccountKind;
  ac_aborted : bool;
}.

(** A live exposure hold: what its closure remembers. *)
Record ExposureHold := mkHold { eh_estimate : T; eh_holder : option string }.

Record CallMeter := mkMeter {
  cm_servedBy : string;
  cm_scope : string;
  cm_accumulated : Usage;
  cm_priced : T;
}.

Record RunBudget := mkBudget {
  rb_accounts : gmap string AccountState;
  rb_usage : Usage;
  rb_spawned : Z;
  rb_vetted : gset string;
  rb_exhausted : bool;
  rb_inFlight : T;
  rb_holds : gmap string T;
  rb_unattributed : Z;
  rb_open : gmap N ExposureHold;
  rb_waiters : list N;
  rb_woken : list (N * ExposureOutcome);
  rb_meters : gmap N CallMeter;
  rb_unpricedWarned : gset string;
  rb_invalidPriceWarned : gset string;
}.

Record StrictPricing := mkStrict {
  st_maxRatesAgeDays : option Z;
  st_allowUnpriced : option (list string);
}.

(** A price row a host may have built without types. *)
Inductive RawRate := rate_absent | rate_other | rate_number (x : jsnum T).

Record RawTier := mkRawTier { rt_above : jsnum T; rt_input : jsnum T; rt_output : jsnum T }.

Record RawPricing := mkRawPricing {
  rp_input : RawRate;
  rp_output : RawRate;
  rp_cacheRead : RawRate;
  rp_cacheWrite : RawRate;
  rp_cacheWrite1h : RawRate;
  rp_tiers : option (list RawTier);
  rp_verifiedAt : option string;
}.

Record BudgetOptions := mkBudgetOptions {
  bo_ceiling : option T;
  bo_maxInFlight : option T;
  bo_clamp : bool;
  bo_spawnCap : Z;
  bo_priceUsd : string → Usage → option (jsnum T);
  bo_pricingOf : string → option RawPricing;
  bo_strict : option StrictPricing;
  bo_seeded : gmap string T;
}.

(** ** Setters *)

Definition with_accounts (s : RunBudget) (accounts : gmap string AccountState) : RunBudget :=
  mkBudget accounts (rb_usage s) (rb_spawned s) (rb_vetted s) (rb_exhausted s) (rb_inFlight s) (rb_holds s)
    (rb_unattributed s) (rb_open s) (rb_waiters s) (rb_woken s) (rb_meters s) (rb_unpricedWarned s)
    (rb_invalidPriceWarned s).

Definition put_account (s : RunBudget) (a : AccountState) : RunBudget :=
  with_accounts s (<[ac_scope a := a]> (rb_accounts s)).

Definition with_usage_total (s : RunBudget) (u : Usage) : RunBudget :=
  mkBudget (rb_accounts s) u (rb_spawned s) (rb_vetted s) (rb_exhausted s) (rb_inFlight s) (rb_holds s)
    (rb_unattributed s) (rb_open s) (rb_waiters s) (rb_woken s) (rb_meters s) (rb_unpricedWarned s)
    (rb_invalidPriceWarned s).

Definition with_spawned (s : RunBudget) (n : Z) : RunBudget :=
  mkBudget (rb_accounts s) (rb_usage s) n (rb_vetted s) (rb_exhausted s) (rb_inFlight s) (rb_holds s)
    (rb_unattributed s) (rb_open s) (rb_waiters s) (rb_woken s) (rb_meters s) (rb_unpricedWarned s)
    (rb_invalidPriceWarned s).

Definition vet (s : RunBudget) (servedBy : string) : RunBudget :=
  mkBudget (rb_accounts s) (rb_usage s) (rb_spawned s) ({[servedBy]} ∪ rb_vetted s) (rb_exhausted s)
    (rb_inFlight s) (rb_holds s) (rb_unattributed s) (rb_open s) (rb_waiters s) (rb_woken s) (rb_meters s)
    (rb_unpricedWarned s) (rb_invalidPriceWarned s).

Definition markExhausted (s : RunBudget) : RunBudget :=
  mkBudget (rb_accounts s) (rb_usage s) (rb_spawned s) (rb_vetted s) true (rb_inFlight s) (rb_holds s)
    (rb_unattributed s) (rb_open s) (rb_waiters s) (rb_woken s) (rb_meters s) (rb_unpricedWarned s)
    (rb_invalidPriceWarned s).

Definition with_exposure (s : RunBudget) (inFlight : T) (holds : gmap string T) (unattributed : Z)
    (open : gmap N ExposureHold) : RunBudget :=
  mkBudget (rb_accounts s) (rb_usage s) (rb_spawned s) (rb_vetted s) (rb_exhausted s) inFlight holds
    unattributed open (rb_waiters s) (rb_woken s) (rb_meters s) (rb_unpricedWarned s)
    (rb_invalidPriceWarned s).

Definition with_waiters (s : RunBudget) (waiters : list N) (woken : list (N * ExposureOutcome)) : RunBudget :=
  mkBudget (rb_accounts s) (rb_usage s) (rb_spawned s) (rb_vetted s) (rb_exhausted s) (rb_inFlight s)
    (rb_holds s) (rb_unattributed s) (rb_open s) waiters woken (rb_meters s) (rb_unpricedWarned s)
    (rb_invalidPriceWarned s).

Definition with_meter (s : RunBudget) (id : N) (m : CallMeter) : RunBudget :=
  mkBudget (rb_accounts s) (rb_usage s) (rb_spawned s) (rb_vetted s) (rb_exhausted s) (rb_inFlight s)
    (rb_holds s) (rb_unattributed s) (rb_open s) (rb_waiters s) (rb_woken s) (<[id := m]> (rb_meters s))
    (rb_unpricedWarned s) (rb_invalidPriceWarned s).

Definition with_warnings (s : RunBudget) (unpriced invalid : gset string) : RunBudget :=
  mkBudget (rb_accounts s) (rb_usage s) (rb_spawned s) (rb_vetted s) (rb_exhausted s) (rb_inFlight s)
    (rb_holds s) (rb_unattributed s) (rb_open s) (rb_waiters s) (rb_woken s) (rb_meters s) unpriced invalid.

Definition set_committed (a : AccountState) (x : T) : AccountState :=
  mkAccount (ac_scope a) (ac_ceiling a) (ac_spent a) x (ac_finalize a) (ac_hold a) (ac_parent a) (ac_kind a)
    (ac_aborted a).
Definition set_finalize (a : AccountState) (x : T) : AccountState :=
  mkAccount (ac_scope a) (ac_ceiling a) (ac_spent a) (ac_committed a) x (ac_hold a) (ac_parent a) (ac_kind a)
    (ac_aborted a).
Definition set_hold (a : AccountState) (h : Hold) (x : T) : AccountState :=
  mkAccount (ac_scope a) (ac_ceiling a) (ac_spent a) (ac_committed a) (ac_finalize a)
    (fun h' => if decide (h' = h) then x else ac_hold a h') (ac_parent a) (ac_kind a) (ac_aborted a).
Definition set_ceiling (a : AccountState) (x : T) : AccountState :=
  mkAccount (ac_scope a) (Some x) (ac_spent a) (ac_committed a) (ac_finalize a) (ac_hold a) (ac_parent a)
    (ac_kind a) (ac_aborted a).
Definition set_spent (a : AccountState) (x : T) (aborted : bool) : AccountState :=
  mkAccount (ac_scope a) (ac_ceiling a) x (ac_committed a) (ac_finalize a) (ac_hold a) (ac_parent a)
    (ac_kind a) aborted.
End Types.

Arguments AccountState T : clear implicits.
Arguments RunBudget T : clear implicits.
Arguments BudgetOptions T : clear implicits.
Arguments RawPricing T : clear implicits.
Arguments ExposureHold T : clear implicits.
Arguments CallMeter T : clear implicits.

(** ** Amounts at the boundary *)

Section Intake.
Context {T : Type} `{Num T}.

(** [requireValidCeiling], [requireNonNegativeNumber]: finite and not negative. *)
Definition requireAmount (x : jsnum T) (site : string) : result BudgetError T :=
  match x with
  | Finite x => if num_leb num_zero x then Ok x else Err (bad_amount site)
  | NonFinite => Err (bad_amount site)
  end.

Definition require_opt (x : option (jsnum T)) (site : string) : result BudgetError (option T) :=
  match x with
  | None => Ok None
  | Some x => y ← requireAmount x site; Ok (Some y)
  end.

(** [admissionReserveUsd]; the members of [caps] it reads. *)
Definition admissionReserveUsd (estCost profileEstCost : option T) (inputTokens_ : option Z)
    (caps : option (option (Pricing T) * Z)) (maxOutputTokensPerTurn : option Z) (flatReserveUsd : option T) : T :=
  match estCost, profileEstCost with
  | Some x, _ => x
  | None, Some x => x
  | None, None =>
      match inputTokens_, caps with
      | Some input, Some (Some pricing, maxOutputTokens) =>
          priceUsdOf pricing (plain_usage input
            (match maxOutputTokensPerTurn with None => maxOutputTokens | Some m => Z.min maxOutputTokens m end))
      | _, _ => default (num_div (num_of_Z 1) (num_of_Z 2)) flatReserveUsd
      end
  end.

(** *** The constructor *)

Record BudgetSeed := mkSeed {
  sd_usd : jsnum T;
  sd_usage : RawUsage;
  sd_agentsSpawned : Z;
  sd_accounts : option (list (string * jsnum T));
}.

(** A row of the account seed: the root row is skipped, not checked. *)
Definition seed_row (m : result BudgetError (gmap string T)) (row : string * jsnum T)
    : result BudgetError (gmap string T) :=
  m ← m;
  if decide (row.1 = ROOT_ACCOUNT) then Ok m
  else usd ← requireAmount row.2 row.1; Ok (<[row.1 := usd]> m).

Definition seed_accounts (seed : option BudgetSeed) : result BudgetError (gmap string T) :=
  foldl seed_row (Ok ∅) (default [] (seed ≫= sd_accounts)).

Definition strict_config_ok (strict : option StrictPricing) : bool :=
  match strict with
  | None => true
  | Some c =>
      match st_maxRatesAgeDays c with Some d => (1 <=? d)%Z | None => true end &&
      forallb (fun ref => negb (bool_decide (ref = ""))) (default [] (st_allowUnpriced c))
  end.

Definition no_holds : Hold → T := fun _ => num_zero.

Definition root_account (ceiling : option T) (spent : T) : AccountState T :=
  mkAccount ROOT_ACCOUNT ceiling spent num_zero num_zero no_holds None None false.

Definition newBudget (ceilingUsd maxInFlightExposureUsd : option (jsnum T)) (clampTurnToExposure : option bool)
    (lifetimeSpawnCap : option Z) (priceUsd : string → Usage → option (jsnum T))
    (pricingOf : string → option (RawPricing T)) (strict : option StrictPricing) (seed : option BudgetSeed)
    : result BudgetError (BudgetOptions T * RunBudget T) :=
  ceiling ← require_opt ceilingUsd "budget ceiling";
  maxInFlight ← require_opt maxInFlightExposureUsd "maxInFlightExposureUsd";
  if strict_config_ok strict then
    usd ← match seed with None => Ok num_zero | Some sd => requireAmount (sd_usd sd) "budget resume seed" end;
    seeded ← seed_accounts seed;
    Ok (mkBudgetOptions ceiling maxInFlight (bool_decide (clampTurnToExposure = Some true))
          (default 500%Z lifetimeSpawnCap) priceUsd pricingOf strict seeded,
        mkBudget {[ROOT_ACCOUNT := root_account ceiling usd]}
          (from_option (fun sd => sanitizeUsage (sd_usage sd)) zero_usage seed)
          (from_option sd_agentsSpawned 0%Z seed)
          ∅ false num_zero ∅ 0 ∅ [] [] ∅ ∅ ∅)
  else Err bad_strict_pricing.
End Intake.

Arguments BudgetSeed T : clear implicits.

(** ** The account tree *)

Section RunBudget.
Context {T : Type} `{Num T}.
Variable options : BudgetOptions T.
Implicit Types (s : RunBudget T) (a : AccountState T).

(** The walk from a scope to the root; each account is on it once, so the number of
    accounts is fuel enough. *)
Fixpoint chain_from (fuel : nat) (accounts : gmap string (AccountState T)) (cursor : option string)
    : result BudgetError (list (AccountState T)) :=
  match cursor with
  | None => Ok []
  | Some scope =>
      match fuel with
      | O => Err chain_loops
      | S fuel =>
          match accounts !! scope with
          | None => Err (unknown_account scope)
          | Some a => rest ← chain_from fuel accounts (ac_parent a); Ok (a :: rest)
          end
      end
  end.

Definition chainOf s (scope : string) : result BudgetError (list (AccountState T)) :=
  chain_from (S (size (rb_accounts s))) (rb_accounts s) (Some scope).

(** The root account, which the constructor makes. *)
Definition root_of s : AccountState T :=
  default (root_account None num_zero) (rb_accounts s !! ROOT_ACCOUNT).

Definition update_chain (f : AccountState T → AccountState T) s (chain : list (AccountState T)) : RunBudget T :=
  foldl (fun s a => put_account s (f a)) s chain.

Definition openAccount s (scope : string) (parentScope : option string) (ceilingUsd : option (jsnum T))
    (finalizeReserveUsd : option T) (kind : option AccountKind) : RunBudget T * result BudgetError unit :=
  if decide (scope = ROOT_ACCOUNT) then (s, Err root_reopen)
  else
    match rb_accounts s !! scope with
    | Some _ => (s, Ok tt)
    | None =>
        let parent := default ROOT_ACCOUNT parentScope in
        match rb_accounts s !! parent with
        | None => (s, Err (unknown_parent parent))
        | Some _ =>
            match require_opt ceilingUsd scope with
            | Err e => (s, Err e)
            | Ok ceiling =>
                let spent := if decide (kind = Some orchestrator_cap) then num_zero
                             else default num_zero (bo_seeded options !! scope) in
                (put_account s (mkAccount scope ceiling spent num_zero (default num_zero finalizeReserveUsd)
                                  no_holds (Some parent) kind false),
                 Ok tt)
            end
        end
    end.

Definition raiseChildAllowance s (scope : string) (byUsd : jsnum T) : RunBudget T * result BudgetError unit :=
  match rb_accounts s !! scope with
  | None => (s, Err (unknown_account scope))
  | Some a =>
      if decide (ac_kind a = Some child_allowance) then
        match requireAmount byUsd scope with
        | Err e => (s, Err e)
        | Ok by_ => (put_account s (set_ceiling a (num_add (default num_zero (ac_ceiling a)) by_)), Ok tt)
        end
      else (s, Err (not_an_allowance scope))
  end.

(** ** What is left *)

Definition held a : T := num_add (num_add (ac_hold a h_synthesis) (ac_hold a h_convergence)) (ac_hold a h_repair).

(** The closed account of the diagnostics. *)
Definition crossed_by_commitments a : bool :=
  match ac_ceiling a with
  | None => false
  | Some c => num_leb c (num_add (num_add (ac_spent a) (ac_committed a)) (ac_finalize a))
  end.

Definition exhaustionDiagnostics s (scope : string) : option (AccountState T) * AccountState T :=
  let chain := match chainOf s scope with Ok chain => chain | Err _ => [root_of s] end in
  (find_first crossed_by_commitments chain, root_of s).

Definition remainderOf s (scope : string) : option T :=
  a ← rb_accounts s !! scope;
  c ← ac_ceiling a;
  Some (num_max num_zero
    (num_sub (num_sub (num_sub (num_sub (num_sub (num_sub c (ac_spent a)) (ac_committed a)) (ac_finalize a))
       (ac_hold a h_synthesis)) (ac_hold a h_convergence)) (ac_hold a h_repair))).

Definition min_headroom (headroom : option T) (x : T) : option T :=
  Some (match headroom with None => x | Some h => num_min h x end).

Definition allowance_step (headroom : option T) a : option T :=
  match ac_kind a, ac_ceiling a with
  | Some child_allowance, Some c =>
      min_headroom headroom
        (num_max num_zero (num_sub (num_sub (num_sub c (ac_spent a)) (ac_committed a)) (ac_finalize a)))
  | _, _ => headroom
  end.

Definition allowanceHeadroomOf s (scope : string) : result BudgetError (option T) :=
  chain ← chainOf s scope; Ok (foldl allowance_step None chain).

Definition signalOf s (scope : string) : option bool := ac_aborted <$> rb_accounts s !! scope.

Definition spawnHeadroom s : Z := Z.max 0 (bo_spawnCap options - rb_spawned s).

(** ** Spawn admission *)

(** What admission counts against a ceiling. *)
Definition committed_sum a : T :=
  num_add (num_add (num_add (num_add (num_add (ac_spent a) (ac_committed a)) (ac_finalize a))
    (ac_hold a h_synthesis)) (ac_hold a h_convergence)) (ac_hold a h_repair).

Definition refuses (reserve : T) a : bool :=
  match ac_ceiling a with
  | None => false
  | Some c => num_leb c (committed_sum a) || num_ltb c (num_add (committed_sum a) reserve)
  end.

Definition refuseSpawnIfInfeasible s (reserveUsd : jsnum T) (accountScope : string)
    : RunBudget T * result BudgetError unit :=
  match requireAmount reserveUsd "the admission reserve" with
  | Err e => (s, Err e)
  | Ok reserve =>
      if (bo_spawnCap options <=? rb_spawned s)%Z then (markExhausted s, Err spawn_cap_reached)
      else
        match chainOf s accountScope with
        | Err e => (s, Err e)
        | Ok chain =>
            match find_first (refuses reserve) chain with
            | Some a =>
                (if decide (ac_scope a = ROOT_ACCOUNT) then markExhausted s else s,
                 Err (ceiling_reached (ac_scope a)))
            | None => (s, Ok tt)
            end
        end
  end.

Definition add_committed (reserve : T) a : AccountState T := set_committed a (num_add (ac_committed a) reserve).

Definition admitRecovered s (reserve : T) (accountScope : string) : RunBudget T * result BudgetError unit :=
  match chainOf s accountScope with
  | Err e => (s, Err e)
  | Ok chain => (update_chain (add_committed reserve) s chain, Ok tt)
  end.

Definition admitSpawn s (reserveUsd : jsnum T) (accountScope : string) : RunBudget T * result BudgetError unit :=
  match refuseSpawnIfInfeasible s reserveUsd accountScope, reserveUsd with
  | (s, Ok _), Finite reserve =>
      admitRecovered (with_spawned s (rb_spawned s + 1)) reserve accountScope
  | (s, r), _ => (s, r)
  end.

Definition sub_committed (reserve : T) a : AccountState T :=
  set_committed a (num_max num_zero (num_sub (ac_committed a) reserve)).

Definition releaseReserve s (reserve : T) (accountScope : string) : RunBudget T * result BudgetError unit :=
  match chainOf s accountScope with
  | Err e => (s, Err e)
  | Ok chain => (update_chain (sub_committed reserve) s chain, Ok tt)
  end.

(** ** The finalize reserve and the holds *)

Definition commitFinalizeReserve s (scope : string) (reserve : T) : RunBudget T * result BudgetError unit :=
  match rb_accounts s !! scope with
  | None => (s, Err (unknown_account scope))
  | Some a =>
      let s := put_account s (set_finalize a reserve) in
      let root := root_of s in
      (put_account s (set_finalize root (num_max (ac_finalize root) reserve)), Ok tt)
  end.

Definition releaseFinalizeReserve s (scope : string) : RunBudget T :=
  let s := match rb_accounts s !! scope with
           | Some a => put_account s (set_finalize a num_zero)
           | None => s
           end in
  put_account s (set_finalize (root_of s) num_zero).

Definition commit_hold (h : Hold) s (scope : string) (reserve : T) : RunBudget T * result BudgetError unit :=
  match rb_accounts s !! scope with
  | None => (s, Err (unknown_account scope))
  | Some a =>
      let previous := ac_hold a h in
      let s := put_account s (set_hold a h reserve) in
      (if decide (ac_scope a = ROOT_ACCOUNT) then s
       else
         let root := root_of s in
         put_account s (set_hold root h
           (num_max num_zero (num_sub (num_add (ac_hold root h) reserve) previous))),
       Ok tt)
  end.

Definition release_hold (h : Hold) s (scope : string) : RunBudget T :=
  match rb_accounts s !! scope with
  | None => s
  | Some a =>
      if num_eqb (ac_hold a h) num_zero then s
      else
        let s :=
          if decide (ac_scope a = ROOT_ACCOUNT) then s
          else
            let root := root_of s in
            put_account s (set_hold root h (num_max num_zero (num_sub (ac_hold root h) (ac_hold a h)))) in
        put_account s (set_hold a h num_zero)
  end.

Definition commitSynthesisReserve := commit_hold h_synthesis.
Definition releaseSynthesisReserve := release_hold h_synthesis.
Definition commitConvergenceReserve := commit_hold h_convergence.
Definition releaseConvergenceReserve := release_hold h_convergence.
Definition commitRepairReserve := commit_hold h_repair.
Definition releaseRepairReserve := release_hold h_repair.
End RunBudget.

(** ** In-flight exposure *)

Section Exposure.
Context {T : Type} `{Num T}.
Variable options : BudgetOptions T.
Implicit Types (s : RunBudget T).

(** A row whose numbers are finite, as the price functions take it.  NaN arithmetic is
    not modelled: outside the strict gate a row with any other number counts as none. *)
Definition typed_rate (r : RawRate) : option T := match r with rate_number (Finite x) => Some x | _ => None end.

Definition typed_optional (r : RawRate) : option (option T) :=
  match r with rate_absent => Some None | _ => Some <$> typed_rate r end.

Definition typed_tier (t : RawTier) : option (PricingTier T) :=
  match rt_above t, rt_input t, rt_output t with
  | Finite above, Finite input, Finite output => Some (mkTier above input output)
  | _, _, _ => None
  end.

Definition typed_row (row : RawPricing T) : option (Pricing T) :=
  input ← typed_rate (rp_input row);
  output ← typed_rate (rp_output row);
  cacheRead ← typed_optional (rp_cacheRead row);
  cacheWrite ← typed_optional (rp_cacheWrite row);
  cacheWrite1h ← typed_optional (rp_cacheWrite1h row);
  ts ← match rp_tiers row with None => Some None | Some l => Some <$> mapM typed_tier l end;
  Some (mkPricing input output cacheRead cacheWrite cacheWrite1h ts (rp_verifiedAt row)).

Definition pricing_of (servedBy : string) : option (Pricing T) := bo_pricingOf options servedBy ≫= typed_row.

(** The estimate of a dispatch, never negative. *)
Definition exposure_estimate (servedBy : string) (input planned : Z) : T :=
  match pricing_of servedBy with
  | None => num_zero
  | Some pricing =>
      let raw := priceUsdOf pricing (plain_usage (Z.max 0 input) (Z.max 0 planned)) in
      if num_ltb num_zero raw then raw else num_zero
  end.

Definition take_hold (holds : gmap string T) (unattributed : Z) (holder : option string) (estimate : T)
    : gmap string T * Z :=
  if num_ltb num_zero estimate then
    match holder with
    | None => (holds, (unattributed + 1)%Z)
    | Some h => (<[h := num_add (default num_zero (holds !! h)) estimate]> holds, unattributed)
    end
  else (holds, unattributed).

Definition exposure_fits s (cap estimate : T) : bool :=
  let committed := num_add (ac_spent (root_of s)) (rb_inFlight s) in
  negb (num_leb cap committed || num_ltb cap (num_add committed estimate)).

(** [reserveTurnExposure]: [None] when the cap is not configured; the closure is the
    row [id] of the open holds. *)
Definition reserveTurnExposure s (id : N) (servedBy : string) (input planned : Z) (holder : option string)
    : RunBudget T * result BudgetError (option N) :=
  match bo_maxInFlight options with
  | None => (s, Ok None)
  | Some cap =>
      let estimate := exposure_estimate servedBy input planned in
      if exposure_fits s cap estimate then
        let '(holds, unattributed) := take_hold (rb_holds s) (rb_unattributed s) holder estimate in
        (with_exposure s (num_add (rb_inFlight s) estimate) holds unattributed
           (<[id := mkHold estimate holder]> (rb_open s)),
         Ok (Some id))
      else (s, Err exposure_refused)
  end.

Definition no_holders s : bool := bool_decide (rb_holds s = ∅) && (rb_unattributed s =? 0)%Z.

(** Every parked waiter wakes. *)
Definition wake_all s (outcome : ExposureOutcome) : RunBudget T :=
  with_waiters s [] (rb_woken s ++ map (fun w => (w, outcome)) (rb_waiters s)).

Definition settleExposureRelease s (amount : T) : RunBudget T :=
  let left_ := num_max num_zero (num_sub (rb_inFlight s) amount) in
  let left_ := if no_holders s then num_zero else left_ in
  wake_all (with_exposure s left_ (rb_holds s) (rb_unattributed s) (rb_open s)) ex_released.

(** What a holder still holds of an estimate, and its balance after. *)
Definition drop_holder (holds : gmap string T) (holder : string) (estimate : T) : gmap string T * T :=
  let held := default num_zero (holds !! holder) in
  let amount := num_min estimate held in
  let next := num_sub held amount in
  (if num_leb next num_zero then delete holder holds else <[holder := next]> holds, amount).

(** The closure; a second call finds no row. *)
Definition release_exposure s (id : N) : RunBudget T :=
  match rb_open s !! id with
  | None => s
  | Some hold =>
      let open := delete id (rb_open s) in
      let estimate := eh_estimate hold in
      if num_ltb num_zero estimate then
        match eh_holder hold with
        | None =>
            settleExposureRelease
              (with_exposure s (rb_inFlight s) (rb_holds s) (Z.max 0 (rb_unattributed s - 1)) open) estimate
        | Some holder =>
            let '(holds, amount) := drop_holder (rb_holds s) holder estimate in
            settleExposureRelease (with_exposure s (rb_inFlight s) holds (rb_unattributed s) open) amount
        end
      else settleExposureRelease (with_exposure s (rb_inFlight s) (rb_holds s) (rb_unattributed s) open) estimate
  end.

Definition releaseExposureHolder s (holder : string) : RunBudget T * T :=
  let held := default num_zero (rb_holds s !! holder) in
  let s' := with_exposure s (rb_inFlight s) (delete holder (rb_holds s)) (rb_unattributed s) (rb_open s) in
  if num_leb held num_zero then (s', num_zero) else (settleExposureRelease s' held, held).

(** The tick of the keepalive interval. *)
Definition sweep_waiters s : RunBudget T := if no_holders s then wake_all s ex_drained else s.

Definition liveExposureHolderCount s : nat := size (rb_holds s).

Definition awaitExposureRelease s (id : N) (aborted : bool) : RunBudget T * option ExposureOutcome :=
  if aborted then (s, Some ex_aborted)
  else if num_leb (rb_inFlight s) num_zero then (s, Some ex_drained)
  else (with_waiters s (rb_waiters s ++ [id]) (rb_woken s), None).

Definition abort_waiter s (id : N) : RunBudget T :=
  if decide (id ∈ rb_waiters s)
  then with_waiters s (filter (fun w => w ≠ id) (rb_waiters s)) (rb_woken s ++ [(id, ex_aborted)])
  else s.

(** ** Turns *)

Definition spent_out (a : AccountState T) : bool :=
  match ac_ceiling a with Some c => num_leb c (ac_spent a) | None => false end.

Definition beforeTurn s (accountScope : string) : RunBudget T * result BudgetError unit :=
  match chainOf s accountScope with
  | Err e => (s, Err e)
  | Ok chain =>
      match find_first spent_out chain with
      | Some a =>
          (if decide (ac_scope a = ROOT_ACCOUNT) then markExhausted s else s, Err (turn_refused (ac_scope a)))
      | None => (s, Ok tt)
      end
  end.

Definition remaining_step (remaining : option T) (a : AccountState T) : option T :=
  match ac_ceiling a with
  | None => remaining
  | Some c =>
      min_headroom remaining
        (num_sub (num_sub (num_sub (num_sub c (ac_spent a)) (ac_hold a h_synthesis)) (ac_hold a h_convergence))
           (ac_hold a h_repair))
  end.

Definition remainingUsd s (accountScope : string) : result BudgetError (option T) :=
  chain ← chainOf s accountScope; Ok (num_max num_zero <$> foldl remaining_step None chain).

Definition maxAffordableOutputTokens s (servedBy : string) (input : Z) (accountScope : string)
    : result BudgetError (option Z) :=
  match pricing_of servedBy with
  | None => Ok None
  | Some pricing =>
      remaining ← remainingUsd s accountScope;
      Ok (r ← remaining; affordableOutputTokens pricing r input)
  end.

Definition maxExposureOutputTokens s (servedBy : string) (input : Z) : option Z :=
  match bo_maxInFlight options with
  | None => None
  | Some cap =>
      if negb (bo_clamp options) || num_ltb num_zero (rb_inFlight s) then None
      else pricing ← pricing_of servedBy;
           affordableOutputTokens pricing (num_max num_zero (num_sub cap (ac_spent (root_of s)))) input
  end.

(** ** Spend *)

Definition debit_account (usd : T) (a : AccountState T) : AccountState T :=
  let spent := num_add (ac_spent a) usd in
  set_spent a spent
    (match ac_ceiling a with Some c => num_leb c spent | None => false end || ac_aborted a).

(** The root crosses its ceiling with this debit. *)
Definition root_crosses (usd : T) (a : AccountState T) : bool :=
  bool_decide (ac_scope a = ROOT_ACCOUNT) && ac_aborted (debit_account usd a) && negb (ac_aborted a).

Definition debit_one (usd : T) s (a : AccountState T) : RunBudget T :=
  let s := if root_crosses usd a then markExhausted s else s in
  put_account s (debit_account usd a).

Definition debitAccounts s (usd : T) (accountScope : string) : RunBudget T * result BudgetError unit :=
  match chainOf s accountScope with
  | Err e => (s, Err e)
  | Ok chain => (foldl (debit_one usd) s chain, Ok tt)
  end.

(** [debitableUsd]: the price to debit, and the two once-per-model warnings. *)
Definition debitableUsd s (servedBy : string) (usage : Usage) : RunBudget T * T :=
  match bo_priceUsd options servedBy usage with
  | None =>
      (match bo_ceiling options with
       | Some _ => with_warnings s ({[servedBy]} ∪ rb_unpricedWarned s) (rb_invalidPriceWarned s)
       | None => s
       end, num_zero)
  | Some usd =>
      match usd with
      | Finite x =>
          if num_leb num_zero x then (s, x)
          else (with_warnings s (rb_unpricedWarned s) ({[servedBy]} ∪ rb_invalidPriceWarned s), num_zero)
      | NonFinite => (with_warnings s (rb_unpricedWarned s) ({[servedBy]} ∪ rb_invalidPriceWarned s), num_zero)
      end
  end.

Definition onUsage s (usage : RawUsage) (servedBy accountScope : string) : RunBudget T * result BudgetError unit :=
  let safe := sanitizeUsageDelta usage in
  let s := with_usage_total s (sumUsage (rb_usage s) safe) in
  let '(s, usd) := debitableUsd s servedBy safe in
  debitAccounts s usd accountScope.

Definition openCallMeter s (id : N) (servedBy accountScope : string) : RunBudget T :=
  with_meter s id (mkMeter servedBy accountScope zero_usage num_zero).

(** One call of the closure of meter [id]. *)
Definition feedMeter s (id : N) (delta : RawUsage) : RunBudget T * result BudgetError unit :=
  match rb_meters s !! id with
  | None => (s, Ok tt)
  | Some m =>
      let safe := sanitizeUsageDelta delta in
      let s := with_usage_total s (sumUsage (rb_usage s) safe) in
      let accumulated := sumUsage (cm_accumulated m) safe in
      let '(s, total) := debitableUsd s (cm_servedBy m) accumulated in
      let marginal := num_max num_zero (num_sub total (cm_priced m)) in
      let s := with_meter s id (mkMeter (cm_servedBy m) (cm_scope m) accumulated (num_max (cm_priced m) total)) in
      debitAccounts s marginal (cm_scope m)
  end.

Definition spent s : T * Usage * Z := (ac_spent (root_of s), rb_usage s, rb_spawned s).

Definition remaining s : option (T * Z) :=
  c ← ac_ceiling (root_of s);
  Some (num_max num_zero (num_sub c (ac_spent (root_of s))), Z.max 0 (bo_spawnCap options - rb_spawned s)).

(** ** The strict pricing gate *)

(** [Date.parse]; [None] is NaN. *)
Variable parseDate : string → option Z.

Definition rate_malformed (r : RawRate (T := T)) : bool :=
  match r with
  | rate_absent => false
  | rate_number (Finite x) => num_ltb x num_zero
  | _ => true
  end.

Definition rate_missing (r : RawRate (T := T)) : bool :=
  match r with rate_number _ => false | _ => true end.

Definition tier_malformed (t : RawTier (T := T)) : bool :=
  match typed_tier t with
  | None => true
  | Some t => num_ltb (inputMultiplier t) num_zero || num_ltb (outputMultiplier t) num_zero
  end.

Definition dated_refusal (maxAgeDays : Z) (verifiedAt : option string) (nowMs : Z) : option StrictRefusal :=
  match verifiedAt with
  | None => Some undated_rates
  | Some at_ =>
      match parseDate at_ with
      | None => Some stale_rates
      | Some verifiedMs =>
          let ageMs := (nowMs - verifiedMs)%Z in
          if (maxAgeDays * 86400000 <? ageMs)%Z then Some stale_rates
          else if (ageMs <? - FUTURE_RATES_TOLERANCE_MS)%Z then Some future_rates
          else None
      end
  end.

Definition row_refusal (config : StrictPricing) (row : option (RawPricing T)) (nowMs : Z) : option StrictRefusal :=
  match row with
  | None => Some no_price_row
  | Some row =>
      if rate_missing (rp_input row) || rate_missing (rp_output row) then Some missing_rate
      else if existsb rate_malformed
                [rp_input row; rp_output row; rp_cacheRead row; rp_cacheWrite row; rp_cacheWrite1h row]
      then Some malformed_rate
      else if existsb tier_malformed (default [] (rp_tiers row)) then Some malformed_tier
      else match st_maxRatesAgeDays config with
           | None => None
           | Some days => dated_refusal days (rp_verifiedAt row) nowMs
           end
  end.

Definition assertPricedDispatch s (servedBy : string) (nowMs : Z) : RunBudget T * result BudgetError unit :=
  match bo_strict options with
  | None => (s, Ok tt)
  | Some config =>
      if decide (servedBy ∈ rb_vetted s) then (s, Ok tt)
      else if existsb (fun ref => bool_decide (ref = servedBy)) (default [] (st_allowUnpriced config))
      then (vet s servedBy, Ok tt)
      else match row_refusal config (bo_pricingOf options servedBy) nowMs with
           | Some why => (s, Err (strict_refused servedBy why))
           | None => (vet s servedBy, Ok tt)
           end
  end.
End Exposure.
