(* ===== verification/BudgetTree.v ===== *)
(** * The tree of budget accounts (packages/core/src/engine/budget.ts)

    The walk to the root always returns; what the writes along it do; and how the
    tree grows under every operation. *)
From Stdlib Require Import QArith.
From S2P Require Import Prelude Num Json Entries Usage Pricing Budget.

Section Tree.
Context {T : Type} `{Num T}.
Implicit Types (s : RunBudget T) (a : AccountState T) (m : gmap string (AccountState T)).

(** Accounts are filed under their scope, below a root without a parent, and a rank
    below their number falls along the parents. *)
Record tree_ok m : Prop := {
  tr_keys : ∀ k a, m !! k = Some a → ac_scope a = k;
  tr_root : ∃ r, m !! ROOT_ACCOUNT = Some r ∧ ac_parent r = None;
  tr_parent : ∀ k a, m !! k = Some a → k ≠ ROOT_ACCOUNT → ∃ p, ac_parent a = Some p ∧ is_Some (m !! p);
  tr_rank : ∃ rank : string → nat,
    (∀ k, is_Some (m !! k) → (rank k < size m)%nat) ∧
    ∀ k a p, m !! k = Some a → ac_parent a = Some p → (rank p < rank k)%nat;
}.

(** The tree only grows: an account keeps its place. *)
Definition grows m m' : Prop :=
  ∀ k a, m !! k = Some a → ∃ a', m' !! k = Some a' ∧ ac_parent a' = ac_parent a ∧ ac_scope a' = ac_scope a.

Lemma tree_grows_refl m : grows m m.
Proof. intros k a Ha. by exists a. Qed.

Lemma tree_grows_trans m1 m2 m3 : grows m1 m2 → grows m2 m3 → grows m1 m3.
Proof.
  intros H12 H23 k a (a2 & H2 & P2 & S2)%H12. destruct (H23 _ _ H2) as (a3 & ? & ? & ?).
  exists a3. split_and!; congruence.
Qed.

Lemma grows_size m m' : grows m m' → (size m <= size m')%nat.
Proof.
  intros Hg. rewrite <- !size_dom. apply subseteq_size. intros k [a Ha]%elem_of_dom.
  destruct (Hg k a Ha) as (a' & Ha' & _). apply elem_of_dom. by exists a'.
Qed.

(** ** The walk *)

Lemma chain_more f f' m c l : chain_from f m c = Ok l → (f <= f')%nat → chain_from f' m c = Ok l.
Proof.
  revert f' c l. induction f as [|f IH]; intros f' c l Hc Hle; destruct c as [k|]; cbn in Hc; try done.
  - by destruct f'.
  - destruct f' as [|f']; [lia|]. cbn. destruct (m !! k) as [a|]; [|done].
    apply bind_ok in Hc as (rest & Hr & [= <-]). rewrite (IH f' _ _ Hr) by lia. done.
  - by destruct f'.
Qed.

Lemma chain_grows f m m' c l :
  grows m m' → chain_from f m c = Ok l →
  ∃ l', chain_from f m' c = Ok l' ∧ map ac_scope l' = map ac_scope l.
Proof.
  intros Hg. revert c l. induction f as [|f IH]; intros c l Hc; destruct c as [k|]; cbn in Hc; try done.
  - exists []. by injection Hc as <-.
  - destruct (m !! k) as [a|] eqn:Ha; [|done]. apply bind_ok in Hc as (rest & Hr & [= <-]).
    destruct (Hg k a Ha) as (a' & Ha' & Hp & Hs). destruct (IH _ _ Hr) as (l' & Hl' & Hm).
    exists (a' :: l'). cbn. rewrite Ha', Hp, Hl'. cbn. by rewrite Hs, Hm.
  - exists []. by injection Hc as <-.
Qed.

Lemma chain_total f m k (rank : string → nat) :
  tree_ok m → (∀ k a p, m !! k = Some a → ac_parent a = Some p → (rank p < rank k)%nat) →
  is_Some (m !! k) → (rank k < f)%nat → ∃ l, chain_from f m (Some k) = Ok l.
Proof.
  intros Ht Hrank. revert k. induction f as [|f IH]; intros k [a Ha] Hf; [lia|]. cbn. rewrite Ha.
  destruct (ac_parent a) as [p|] eqn:Hp.
  - assert (is_Some (m !! p)) as Hin.
    { destruct (decide (k = ROOT_ACCOUNT)) as [->|Hne].
      - destruct (tr_root m Ht) as (r & Hr & Hn). congruence.
      - destruct (tr_parent m Ht k a Ha Hne) as (p' & Hp' & ?). congruence. }
    destruct (IH p Hin) as [l Hl]; [pose proof (Hrank k a p Ha Hp); lia|].
    exists (a :: l). by rewrite Hl.
  - exists [a]. by destruct f.
Qed.

Lemma chain_members f m c l :
  tree_ok m → chain_from f m c = Ok l → ∀ a, a ∈ l → m !! ac_scope a = Some a.
Proof.
  intros Ht. revert c l. induction f as [|f IH]; intros c l Hc; destruct c as [k|]; cbn in Hc; try done;
    try (injection Hc as <-; intros a Hin; by apply elem_of_nil in Hin).
  destruct (m !! k) as [a|] eqn:Ha; [|done]. apply bind_ok in Hc as (rest & Hr & [= <-]).
  intros a' [->|Hin]%elem_of_cons; [by rewrite (tr_keys m Ht k a Ha)|by eapply IH].
Qed.

Lemma chain_ranks f m c l (rank : string → nat) :
  tree_ok m → (∀ k a p, m !! k = Some a → ac_parent a = Some p → (rank p < rank k)%nat) →
  chain_from f m c = Ok l →
  NoDup (map ac_scope l) ∧ ∀ k, c = Some k → ∀ a, a ∈ l → (rank (ac_scope a) <= rank k)%nat.
Proof.
  intros Ht Hrank. revert c l. induction f as [|f IH]; intros c l Hc; destruct c as [k|]; cbn in Hc; try done;
    try (injection Hc as <-; split; [constructor|]; intros ? [=]; by intros ? ?%elem_of_nil).
  destruct (m !! k) as [a|] eqn:Ha; [|done]. apply bind_ok in Hc as (rest & Hr & [= <-]).
  destruct (IH _ _ Hr) as [Hnd Hb]. pose proof (tr_keys m Ht k a Ha) as Hk.
  assert (∀ a', a' ∈ rest → (rank (ac_scope a') < rank k)%nat) as Hlt.
  { intros a' Hin. destruct (ac_parent a) as [p|] eqn:Hp.
    - specialize (Hb p eq_refl a' Hin). pose proof (Hrank k a p Ha Hp). lia.
    - destruct f; injection Hr as <-; by apply elem_of_nil in Hin. }
  split.
  - cbn. constructor; [|done]. intros (a' & Heq & Hin)%list_elem_of_fmap. specialize (Hlt a' Hin).
    rewrite <- Heq, Hk in Hlt. lia.
  - intros ? [= <-] a' [->|Hin]%elem_of_cons; [by rewrite Hk|]. specialize (Hlt a' Hin). lia.
Qed.

(** The scopes on the walk. *)
Definition scopes_of m (k : string) : list string :=
  match chain_from (S (size m)) m (Some k) with Ok l => map ac_scope l | Err _ => [] end.

(** The walk ends at the root. *)
Lemma chain_root f m k l :
  tree_ok m → chain_from f m (Some k) = Ok l → ROOT_ACCOUNT ∈ map ac_scope l.
Proof.
  intros Ht. revert k l. induction f as [|f IH]; intros k l; cbn; [done|].
  destruct (m !! k) as [a|] eqn:Ha; [|done]. intros (rest & Hr & [= <-])%bind_ok. cbn.
  pose proof (tr_keys m Ht k a Ha) as Hk. destruct (ac_parent a) as [p|] eqn:Hp.
  - right. by eapply IH.
  - apply elem_of_cons. left. destruct (decide (k = ROOT_ACCOUNT)) as [->|Hne]; [done|].
    destruct (tr_parent m Ht k a Ha Hne) as (p & Hp' & _). congruence.
Qed.

Lemma chain_last f m k l :
  tree_ok m → chain_from f m (Some k) = Ok l → last (map ac_scope l) = Some ROOT_ACCOUNT.
Proof.
  intros Ht. revert k l. induction f as [|f IH]; intros k l; cbn; [done|].
  destruct (m !! k) as [a|] eqn:Ha; [|done]. intros (rest & Hr & [= <-])%bind_ok. cbn [map].
  pose proof (tr_keys m Ht k a Ha) as Hk. destruct (ac_parent a) as [p|] eqn:Hp.
  - rewrite last_cons, (IH _ _ Hr). done.
  - destruct (decide (k = ROOT_ACCOUNT)) as [->|Hne].
    + destruct f; injection Hr as <-; cbn; by rewrite Hk.
    + destruct (tr_parent m Ht k a Ha Hne) as (p & Hp' & _). congruence.
Qed.

Record chain_ok m (k : string) (l : list (AccountState T)) : Prop := {
  ch_scopes : map ac_scope l = scopes_of m k;
  ch_members : ∀ a, a ∈ l → m !! ac_scope a = Some a;
  ch_nodup : NoDup (map ac_scope l);
  ch_root : ROOT_ACCOUNT ∈ map ac_scope l;
}.

Lemma chainOf_ok s k l : tree_ok (rb_accounts s) → chainOf s k = Ok l → chain_ok (rb_accounts s) k l.
Proof.
  intros Ht Hc. unfold chainOf in Hc. destruct (tr_rank _ Ht) as (rank & _ & Hrank).
  destruct (chain_ranks _ _ _ _ rank Ht Hrank Hc) as [Hnd _]. split.
  - unfold scopes_of. by rewrite Hc.
  - by eapply chain_members.
  - done.
  - by eapply chain_root.
Qed.

Lemma chainOf_total s k :
  tree_ok (rb_accounts s) →
  (∃ l, chainOf s k = Ok l ∧ is_Some (rb_accounts s !! k)) ∨
  (chainOf s k = Err (unknown_account k) ∧ rb_accounts s !! k = None).
Proof.
  intros Ht. destruct (rb_accounts s !! k) as [a|] eqn:Ha.
  - left. destruct (tr_rank _ Ht) as (rank & Hlt & Hrank).
    destruct (chain_total (S (size (rb_accounts s))) (rb_accounts s) k rank Ht Hrank) as [l Hl];
      [by exists a|pose proof (Hlt k ltac:(by exists a)); lia|]. exists l. split; [done|by exists a].
  - right. split; [|done]. unfold chainOf. cbn. by rewrite Ha.
Qed.

Lemma scopes_grow m m' k :
  tree_ok m → grows m m' → is_Some (m !! k) → scopes_of m' k = scopes_of m k.
Proof.
  intros Ht Hg Hk. unfold scopes_of. destruct (tr_rank _ Ht) as (rank & Hlt & Hrank).
  destruct (chain_total (S (size m)) m k rank Ht Hrank Hk) as [l Hl]; [pose proof (Hlt k Hk); lia|].
  destruct (chain_grows _ _ _ _ _ Hg Hl) as (l' & Hl' & Hm). pose proof (grows_size _ _ Hg).
  rewrite Hl, (chain_more _ (S (size m')) _ _ _ Hl') by lia. done.
Qed.

Lemma scopes_exist m k x : tree_ok m → x ∈ scopes_of m k → is_Some (m !! x).
Proof.
  intros Ht. unfold scopes_of. destruct (chain_from _ _ _) as [l|] eqn:E; [|by intros ?%elem_of_nil].
  intros (a & -> & Hin)%list_elem_of_fmap. exists a. by eapply chain_members.
Qed.

(** ** Writes *)

(** A write that keeps every account in its place. *)
Definition keeps (f : AccountState T → AccountState T) : Prop :=
  ∀ a, ac_scope (f a) = ac_scope a ∧ ac_parent (f a) = ac_parent a.

Lemma tree_put m a a' :
  tree_ok m → m !! ac_scope a = Some a → ac_scope a' = ac_scope a → ac_parent a' = ac_parent a →
  tree_ok (<[ac_scope a' := a']> m) ∧ grows m (<[ac_scope a' := a']> m).
Proof.
  intros [Hk (r & Hr & Hrp) Hp (rank & Hlt & Hrank)] Ha Hs Hpar. rewrite Hs.
  assert (∀ k, is_Some (<[ac_scope a := a']> m !! k) ↔ is_Some (m !! k)) as Hdom.
  { intros k. rewrite lookup_insert_is_Some'. split; [intros [<-|?]; [by exists a|done]|auto]. }
  split; [split|].
  - intros k b. rewrite lookup_insert_Some. intros [[<- <-]|[_ Hb]]; [done|by apply Hk].
  - destruct (decide (ac_scope a = ROOT_ACCOUNT)) as [E|E].
    + exists a'. rewrite E, lookup_insert_eq. split; [done|]. rewrite Hpar. congruence.
    + exists r. by rewrite lookup_insert_ne.
  - intros k b. rewrite lookup_insert_Some. intros [[<- <-]|[_ Hb]] Hne.
    + destruct (Hp _ a Ha Hne) as (p & ? & ?). exists p. rewrite Hpar, Hdom. done.
    + destruct (Hp _ b Hb Hne) as (p & ? & ?). exists p. by rewrite Hdom.
  - exists rank. split.
    + intros k Hin%Hdom. rewrite map_size_insert_Some; [by apply Hlt|by exists a].
    + intros k b p. rewrite lookup_insert_Some. intros [[<- <-]|[_ Hb]] Hbp; [|by eapply Hrank].
      eapply Hrank; [exact Ha|congruence].
  - intros k b Hb. destruct (decide (ac_scope a = k)) as [<-|Hne].
    + exists a'. rewrite lookup_insert_eq. split_and!; [done|congruence|]. assert (b = a) as -> by congruence. done.
    + exists b. by rewrite lookup_insert_ne.
Qed.

Lemma tree_open m a :
  tree_ok m → m !! ac_scope a = None → ac_scope a ≠ ROOT_ACCOUNT →
  (∃ p, ac_parent a = Some p ∧ is_Some (m !! p)) →
  tree_ok (<[ac_scope a := a]> m) ∧ grows m (<[ac_scope a := a]> m).
Proof.
  intros [Hk (r & Hr & Hrp) Hp (rank & Hlt & Hrank)] Hnone Hne (p & Hpar & Hin).
  assert (∀ k, is_Some (m !! k) → k ≠ ac_scope a) as Hother by (intros k [? ?]; congruence).
  split; [split|].
  - intros k b. rewrite lookup_insert_Some. intros [[<- <-]|[_ Hb]]; [done|by apply Hk].
  - exists r. rewrite lookup_insert_ne; [done|]. by apply not_eq_sym, Hother.
  - intros k b. rewrite lookup_insert_Some. intros [[<- <-]|[_ Hb]] Hk'.
    + exists p. split; [done|]. rewrite lookup_insert_is_Some'. auto.
    + destruct (Hp _ b Hb Hk') as (q & ? & ?). exists q. rewrite lookup_insert_is_Some'. auto.
  - exists (fun k => if decide (k = ac_scope a) then size m else rank k). split.
    + intros k. rewrite map_size_insert_None by done. rewrite lookup_insert_is_Some'.
      case_decide; [lia|]. intros [?|Hk']; [congruence|]. specialize (Hlt k Hk'). lia.
    + intros k b q. rewrite lookup_insert_Some. intros [[<- <-]|[Hnk Hb]] Hbq.
      * assert (q = p) as -> by congruence. rewrite (decide_True (P := ac_scope a = _)) by done.
        rewrite decide_False by (by apply Hother). by apply Hlt.
      * rewrite (decide_False (P := k = _)) by auto. destruct (decide (k = ROOT_ACCOUNT)) as [->|Hkr].
        { congruence. }
        destruct (Hp k b Hb Hkr) as (q' & Hq' & Hin'). assert (q' = q) as -> by congruence.
        rewrite decide_False by (by apply Hother). by eapply Hrank.
  - intros k b Hb. exists b. rewrite lookup_insert_ne; [done|]. apply not_eq_sym, Hother. by exists b.
Qed.

Lemma update_chain_accounts f s (l : list (AccountState T)) :
  rb_accounts (update_chain f s l) = foldl (fun m a => <[ac_scope (f a) := f a]> m) (rb_accounts s) l.
Proof. revert s. induction l as [|a l IH]; intros s; cbn; [done|]. apply IH. Qed.

Lemma update_chain_spawned f s (l : list (AccountState T)) : rb_spawned (update_chain f s l) = rb_spawned s.
Proof. unfold update_chain. revert s. induction l as [|a l IH]; intros s; cbn; [done|]. by rewrite IH. Qed.

Lemma debit_accounts usd s (l : list (AccountState T)) :
  rb_accounts (foldl (debit_one usd) s l) = rb_accounts (update_chain (debit_account usd) s l).
Proof.
  rewrite update_chain_accounts. revert s. induction l as [|a l IH]; intros s; cbn; [done|].
  rewrite IH. unfold debit_one. by destruct (root_crosses usd a).
Qed.

Lemma foldl_debit_keeps {A} (g : RunBudget T → A) usd s (l : list (AccountState T)) :
  (∀ s a, g (put_account s a) = g s) → (∀ s, g (markExhausted s) = g s) → g (foldl (debit_one usd) s l) = g s.
Proof.
  intros Hp Hm. revert s. induction l as [|a l IH]; intros s; cbn; [done|]. rewrite IH. unfold debit_one.
  destruct (root_crosses usd a); by rewrite Hp, ?Hm.
Qed.

Lemma meters_debit s usd scope : rb_meters (debitAccounts s usd scope).1 = rb_meters s.
Proof. unfold debitAccounts. destruct (chainOf s scope); [by apply (foldl_debit_keeps rb_meters)|done]. Qed.

Lemma usage_debit s usd scope : rb_usage (debitAccounts s usd scope).1 = rb_usage s.
Proof. unfold debitAccounts. destruct (chainOf s scope); [by apply (foldl_debit_keeps rb_usage)|done]. Qed.

Lemma usage_debitable o s servedBy u : rb_usage (debitableUsd o s servedBy u).1 = rb_usage s.
Proof. unfold debitableUsd. by repeat case_match. Qed.

Lemma write_chain f m (l : list (AccountState T)) :
  keeps f → tree_ok m → NoDup (map ac_scope l) → (∀ a, a ∈ l → m !! ac_scope a = Some a) →
  let m' := foldl (fun m a => <[ac_scope (f a) := f a]> m) m l in
  tree_ok m' ∧ grows m m' ∧
  ∀ x, m' !! x = if decide (x ∈ map ac_scope l) then f <$> m !! x else m !! x.
Proof.
  intros Hf. revert m. induction l as [|a l IH]; intros m Ht Hnd Hl; cbn.
  { split_and!; [done|apply tree_grows_refl|done]. }
  cbn in Hnd. apply NoDup_cons in Hnd as [Hna Hnd]. destruct (Hf a) as [Hs Hp].
  pose proof (Hl a ltac:(left)) as Ha. destruct (tree_put m a (f a) Ht Ha Hs Hp) as [Ht' Hg].
  destruct (IH (<[ac_scope (f a) := f a]> m) Ht' Hnd) as (Ht2 & Hg2 & Hlook).
  { intros b Hb. rewrite lookup_insert_ne; [apply Hl; by right|]. rewrite Hs. intros Heq.
    apply Hna. rewrite Heq. by apply list_elem_of_fmap_2. }
  split_and!; [done|by eapply tree_grows_trans|]. intros x. rewrite Hlook. rewrite Hs.
  destruct (decide (x = ac_scope a)) as [->|Hne].
  - rewrite (decide_False (P := ac_scope a ∈ map ac_scope l)) by done.
    rewrite decide_True by (by left). by rewrite lookup_insert_eq, Ha.
  - rewrite lookup_insert_ne by done. destruct (decide (x ∈ map ac_scope l)) as [Hx|Hx].
    + by rewrite decide_True by (by right).
    + rewrite decide_False; [done|]. intros [?|?]%elem_of_cons; done.
Qed.

(** A write along the walk from [k]. *)
Lemma update_walk f s k (l : list (AccountState T)) :
  keeps f → tree_ok (rb_accounts s) → chainOf s k = Ok l →
  let m' := rb_accounts (update_chain f s l) in
  tree_ok m' ∧ grows (rb_accounts s) m' ∧
  ∀ x, m' !! x = if decide (x ∈ scopes_of (rb_accounts s) k) then f <$> rb_accounts s !! x else rb_accounts s !! x.
Proof.
  intros Hf Ht Hc. destruct (chainOf_ok s k l Ht Hc) as [Hsc Hm Hnd _]. cbn zeta.
  rewrite update_chain_accounts, <- Hsc. by apply write_chain.
Qed.
End Tree.

#[export] Hint Resolve tree_grows_refl : rulvar.
