(* ===== verification/BudgetInv.v ===== *)
(** * Operations on the run budget (packages/core/src/engine/budget.ts)

    The operations of [RunBudget] as one type, the states they reach, and what each
    may change of an account. *)
From Stdlib Require Import QArith.
From S2P Require Import Prelude Num Json Entries Usage Pricing Budget BudgetTree.

Section Operations.
Context {T : Type} `{Num T} (options : BudgetOptions T) (parseDate : string → option Z).
Implicit Types (s : RunBudget T) (a : AccountState T) (m : gmap string (AccountState T)).

Inductive BudgetOp :=
  | op_open (scope : string) (parent : option string) (ceiling : option (jsnum T)) (finalize : option T)
      (kind : option AccountKind)
  | op_raise (scope : string) (by_ : jsnum T)
  | op_refuse (reserve : jsnum T) (scope : string)
  | op_admit (reserve : jsnum T) (scope : string)
  | op_recover (reserve : T) (scope : string)
  | op_release (reserve : T) (scope : string)
  | op_finalize (scope : string) (reserve : T)
  | op_unfinalize (scope : string)
  | op_hold (h : Hold) (scope : string) (reserve : T)
  | op_unhold (h : Hold) (scope : string)
  | op_turn (scope : string)
  | op_expose (id : N) (servedBy : string) (input planned : Z) (holder : option string)
  | op_unexpose (id : N)
  | op_unexpose_holder (holder : string)
  | op_sweep
  | op_await (id : N) (aborted : bool)
  | op_abort (id : N)
  | op_usage (usage : RawUsage) (servedBy scope : string)
  | op_meter (id : N) (servedBy scope : string)
  | op_feed (id : N) (delta : RawUsage)
  | op_vet (servedBy : string) (nowMs : Z)
  | op_exhausted.

Definition run_op s (op : BudgetOp) : RunBudget T :=
  match op with
  | op_open scope parent ceiling finalize kind => (openAccount options s scope parent ceiling finalize kind).1
  | op_raise scope by_ => (raiseChildAllowance s scope by_).1
  | op_refuse reserve scope => (refuseSpawnIfInfeasible options s reserve scope).1
  | op_admit reserve scope => (admitSpawn options s reserve scope).1
  | op_recover reserve scope => (admitRecovered s reserve scope).1
  | op_release reserve scope => (releaseReserve s reserve scope).1
  | op_finalize scope reserve => (commitFinalizeReserve s scope reserve).1
  | op_unfinalize scope => releaseFinalizeReserve s scope
  | op_hold h scope reserve => (commit_hold h s scope reserve).1
  | op_unhold h scope => release_hold h s scope
  | op_turn scope => (beforeTurn s scope).1
  | op_expose id servedBy input planned holder => (reserveTurnExposure options s id servedBy input planned holder).1
  | op_unexpose id => release_exposure s id
  | op_unexpose_holder holder => (releaseExposureHolder s holder).1
  | op_sweep => sweep_waiters s
  | op_await id aborted => (awaitExposureRelease s id aborted).1
  | op_abort id => abort_waiter s id
  | op_usage usage servedBy scope => (onUsage options s usage servedBy scope).1
  | op_meter id servedBy scope => openCallMeter s id servedBy scope
  | op_feed id delta => (feedMeter options s id delta).1
  | op_vet servedBy nowMs => (assertPricedDispatch options parseDate s servedBy nowMs).1
  | op_exhausted => markExhausted s
  end.

Definition run_ops s (ops : list BudgetOp) : RunBudget T := foldl run_op s ops.

(** The operations that move spend, and those that move reserves. *)
Definition spends (op : BudgetOp) : bool := match op with op_usage _ _ _ | op_feed _ _ => true | _ => false end.
Definition reserves (op : BudgetOp) : bool :=
  match op with op_admit _ _ | op_recover _ _ | op_release _ _ => true | _ => false end.

(** What an operation may change of an account. *)
Record moves (sp rs : bool) a a' : Prop := {
  mv_kind : ac_kind a' = ac_kind a;
  mv_ceiling : ac_kind a ≠ Some child_allowance → ac_ceiling a' = ac_ceiling a;
  mv_spent : sp = false → ac_spent a' = ac_spent a;
  mv_committed : rs = false → ac_committed a' = ac_committed a;
  mv_aborted : ac_aborted a = true → ac_aborted a' = true;
}.

(** What an operation does to the tree. *)
Record evolves (sp rs : bool) m m' : Prop := {
  ev_tree : tree_ok m';
  ev_grows : grows m m';
  ev_moves : ∀ x a, m !! x = Some a → ∃ a', m' !! x = Some a' ∧ moves sp rs a a';
  ev_new : ∀ x a', m !! x = None → m' !! x = Some a' → rs = false → ac_committed a' = num_zero;
}.

Lemma moves_refl sp rs a : moves sp rs a a.
Proof. by split. Qed.

Lemma moves_trans sp rs a1 a2 a3 : moves sp rs a1 a2 → moves sp rs a2 a3 → moves sp rs a1 a3.
Proof.
  intros [K1 C1 S1 R1 A1] [K2 C2 S2 R2 A2]. split; try congruence.
  - intros Hk. rewrite C2, C1 by congruence. done.
  - intros Hs. by rewrite S2, S1.
  - intros Hs. by rewrite R2, R1.
  - auto.
Qed.

Lemma evolves_refl sp rs m : tree_ok m → evolves sp rs m m.
Proof.
  intros Ht. split; [done|apply tree_grows_refl| |congruence]. intros x a Ha. exists a. by split; [|apply moves_refl].
Qed.

Lemma evolves_trans sp rs m1 m2 m3 : evolves sp rs m1 m2 → evolves sp rs m2 m3 → evolves sp rs m1 m3.
Proof.
  intros [T1 G1 M1 N1] [T2 G2 M2 N2]. split; [done|by eapply tree_grows_trans| |].
  - intros x a (a2 & H2 & V2)%M1. destruct (M2 x a2 H2) as (a3 & H3 & V3). exists a3.
    split; [done|by eapply moves_trans].
  - intros x a3 Hn H3 Hrs. destruct (m2 !! x) as [a2|] eqn:H2; [|by eapply N2].
    destruct (M2 x a2 H2) as (a3' & H3' & V3). assert (a3' = a3) as -> by congruence.
    rewrite (mv_committed _ _ _ _ V3) by done. by eapply N1.
Qed.

Lemma evolves_put sp rs m a a' :
  tree_ok m → m !! ac_scope a = Some a → ac_scope a' = ac_scope a → ac_parent a' = ac_parent a →
  moves sp rs a a' → evolves sp rs m (<[ac_scope a' := a']> m).
Proof.
  intros Ht Ha Hs Hp Hm. destruct (tree_put m a a' Ht Ha Hs Hp) as [Ht' Hg]. rewrite Hs in *. split; [done..| |].
  - intros x b Hb. destruct (decide (x = ac_scope a)) as [->|Hne].
    + exists a'. rewrite lookup_insert_eq. split; [done|]. by replace b with a by congruence.
    + exists b. rewrite lookup_insert_ne by done. split; [done|apply moves_refl].
  - intros x b Hn. rewrite lookup_insert_ne by congruence. congruence.
Qed.

Lemma evolves_open sp rs m a :
  tree_ok m → m !! ac_scope a = None → ac_scope a ≠ ROOT_ACCOUNT →
  (∃ p, ac_parent a = Some p ∧ is_Some (m !! p)) → ac_committed a = num_zero →
  evolves sp rs m (<[ac_scope a := a]> m).
Proof.
  intros Ht Hn Hr Hp Hc. destruct (tree_open m a Ht Hn Hr Hp) as [Ht' Hg]. split; [done..| |].
  - intros x b Hb. exists b. rewrite lookup_insert_ne by congruence. split; [done|apply moves_refl].
  - intros x b Hx. rewrite lookup_insert_Some. intros [[<- <-]|[_ ?]] _; [done|congruence].
Qed.

Lemma evolves_walk sp rs f s k (l : list (AccountState T)) :
  keeps f → (∀ a, moves sp rs a (f a)) → tree_ok (rb_accounts s) → chainOf s k = Ok l →
  evolves sp rs (rb_accounts s) (rb_accounts (update_chain f s l)).
Proof.
  intros Hf Hm Ht Hc. destruct (update_walk f s k l Hf Ht Hc) as (Ht' & Hg & Hl). split; [done..| |].
  - intros x a Ha. rewrite Hl, Ha. cbn. case_decide; eexists; (split; [done|]); [apply Hm|apply moves_refl].
  - intros x a Hn. rewrite Hl, Hn. by case_decide.
Qed.

Lemma root_lookup s : tree_ok (rb_accounts s) → rb_accounts s !! ROOT_ACCOUNT = Some (root_of s).
Proof. intros Ht. unfold root_of. by destruct (tr_root _ Ht) as (r & -> & _). Qed.

Lemma root_scope s : tree_ok (rb_accounts s) → ac_scope (root_of s) = ROOT_ACCOUNT.
Proof. intros Ht. eapply tr_keys; [exact Ht|by apply root_lookup]. Qed.

Lemma evolves_put_account sp rs s k a a' :
  tree_ok (rb_accounts s) → rb_accounts s !! k = Some a → ac_scope a' = ac_scope a → ac_parent a' = ac_parent a →
  moves sp rs a a' → evolves sp rs (rb_accounts s) (rb_accounts (put_account s a')).
Proof.
  intros Ht Ha. cbn. apply evolves_put; [done|]. by rewrite (tr_keys _ Ht _ _ Ha).
Qed.

Lemma evolves_put_root sp rs s a' :
  tree_ok (rb_accounts s) → ac_scope a' = ac_scope (root_of s) → ac_parent a' = ac_parent (root_of s) →
  moves sp rs (root_of s) a' → evolves sp rs (rb_accounts s) (rb_accounts (put_account s a')).
Proof. intros Ht. eapply evolves_put_account; [done|by apply root_lookup]. Qed.

(** ** Every operation *)

Lemma evolves_open_op sp rs s scope parent ceiling finalize kind :
  tree_ok (rb_accounts s) →
  evolves sp rs (rb_accounts s) (rb_accounts (run_op s (op_open scope parent ceiling finalize kind))).
Proof.
  intros Ht. cbn. unfold openAccount. case_decide as Hr; [by apply evolves_refl|].
  destruct (rb_accounts s !! scope) eqn:Hs; [by apply evolves_refl|].
  destruct (rb_accounts s !! default ROOT_ACCOUNT parent) eqn:Hp; [|by apply evolves_refl].
  destruct (require_opt ceiling scope); [|by apply evolves_refl].
  apply evolves_open; cbn; [done|done|done| |done]. eexists. split; [done|]. rewrite Hp. by eexists.
Qed.

Lemma evolves_raise sp rs s scope by_ :
  tree_ok (rb_accounts s) → evolves sp rs (rb_accounts s) (rb_accounts (run_op s (op_raise scope by_))).
Proof.
  intros Ht. cbn. unfold raiseChildAllowance. destruct (rb_accounts s !! scope) as [a|] eqn:Hs; [|by apply evolves_refl].
  case_decide as Hk; [|by apply evolves_refl]. destruct (requireAmount by_ scope); [|by apply evolves_refl].
  eapply evolves_put_account; try done.
Qed.

Lemma accounts_refuse s reserve scope :
  rb_accounts (refuseSpawnIfInfeasible options s reserve scope).1 = rb_accounts s.
Proof.
  unfold refuseSpawnIfInfeasible. destruct (requireAmount _ _); [|done]. case_match; [done|].
  destruct (chainOf s scope); [|done]. destruct (find_first _ _); [|done]. by case_decide.
Qed.

Lemma evolves_recover sp s reserve scope :
  tree_ok (rb_accounts s) → evolves sp true (rb_accounts s) (rb_accounts (admitRecovered s reserve scope).1).
Proof.
  intros Ht. unfold admitRecovered. destruct (chainOf s scope) eqn:Hc; [|by apply evolves_refl].
  by eapply evolves_walk.
Qed.

Lemma evolves_release sp s reserve scope :
  tree_ok (rb_accounts s) → evolves sp true (rb_accounts s) (rb_accounts (releaseReserve s reserve scope).1).
Proof.
  intros Ht. unfold releaseReserve. destruct (chainOf s scope) eqn:Hc; [|by apply evolves_refl].
  by eapply evolves_walk.
Qed.

Lemma evolves_admit sp s reserve scope :
  tree_ok (rb_accounts s) → evolves sp true (rb_accounts s) (rb_accounts (admitSpawn options s reserve scope).1).
Proof.
  intros Ht. unfold admitSpawn. pose proof (accounts_refuse s reserve scope) as Hacc.
  destruct (refuseSpawnIfInfeasible options s reserve scope) as [s' [[]|e]]; cbn in Hacc.
  - destruct reserve as [x|]; cbn; [|rewrite Hacc; by apply evolves_refl].
    rewrite <- Hacc. apply (evolves_recover sp (with_spawned s' _)). cbn. by rewrite Hacc.
  - cbn. rewrite Hacc. by apply evolves_refl.
Qed.

Lemma evolves_finalize sp rs s scope reserve :
  tree_ok (rb_accounts s) → evolves sp rs (rb_accounts s) (rb_accounts (commitFinalizeReserve s scope reserve).1).
Proof.
  intros Ht. unfold commitFinalizeReserve. destruct (rb_accounts s !! scope) as [a|] eqn:Ha; [|by apply evolves_refl].
  assert (evolves sp rs (rb_accounts s) (rb_accounts (put_account s (set_finalize a reserve)))) as E
    by (eapply evolves_put_account; [done|done|done|done|by split]).
  eapply evolves_trans; [exact E|]. apply evolves_put_root; [apply E|done|done|by split].
Qed.

Lemma evolves_unfinalize sp rs s scope :
  tree_ok (rb_accounts s) → evolves sp rs (rb_accounts s) (rb_accounts (releaseFinalizeReserve s scope)).
Proof.
  intros Ht. unfold releaseFinalizeReserve. destruct (rb_accounts s !! scope) as [a|] eqn:Ha.
  - assert (evolves sp rs (rb_accounts s) (rb_accounts (put_account s (set_finalize a num_zero)))) as E
      by (eapply evolves_put_account; [done|done|done|done|by split]).
    eapply evolves_trans; [exact E|]. apply evolves_put_root; [apply E|done|done|by split].
  - apply evolves_put_root; [done|done|done|by split].
Qed.

Lemma evolves_hold sp rs h s scope reserve :
  tree_ok (rb_accounts s) → evolves sp rs (rb_accounts s) (rb_accounts (commit_hold h s scope reserve).1).
Proof.
  intros Ht. unfold commit_hold. destruct (rb_accounts s !! scope) as [a|] eqn:Ha; [|by apply evolves_refl].
  assert (evolves sp rs (rb_accounts s) (rb_accounts (put_account s (set_hold a h reserve)))) as E
    by (eapply evolves_put_account; [done|done|done|done|by split]).
  case_decide; [done|]. eapply evolves_trans; [exact E|]. apply evolves_put_root; [apply E|done|done|by split].
Qed.

Lemma evolves_unhold sp rs h s scope :
  tree_ok (rb_accounts s) → evolves sp rs (rb_accounts s) (rb_accounts (release_hold h s scope)).
Proof.
  intros Ht. unfold release_hold. destruct (rb_accounts s !! scope) as [a|] eqn:Ha; [|by apply evolves_refl].
  case_match; [by apply evolves_refl|]. pose proof (tr_keys _ Ht _ _ Ha) as Hk. case_decide as Hr.
  - eapply evolves_put_account; [done|done|done|done|by split].
  - set (r := set_hold (root_of s) h _).
    assert (evolves sp rs (rb_accounts s) (rb_accounts (put_account s r))) as E
      by (apply evolves_put_root; [done|done|done|by split]).
    eapply evolves_trans; [exact E|]. eapply (evolves_put_account _ _ _ scope a); [apply E| |done|done|by split].
    cbn. pose proof (root_scope s Ht). rewrite lookup_insert_ne; [done|congruence].
Qed.

Lemma accounts_expose s id servedBy input planned holder :
  rb_accounts (reserveTurnExposure options s id servedBy input planned holder).1 = rb_accounts s.
Proof.
  unfold reserveTurnExposure. destruct (bo_maxInFlight options); [|done]. case_match; [|done].
  by destruct (take_hold _ _ _ _).
Qed.

Lemma accounts_unexpose s id : rb_accounts (release_exposure s id) = rb_accounts s.
Proof.
  unfold release_exposure. destruct (rb_open s !! id) as [hold|]; [|done]. case_match; [|done].
  destruct (eh_holder hold); [|done]. by destruct (drop_holder _ _ _).
Qed.

Lemma accounts_debitable s servedBy usage :
  rb_accounts (debitableUsd options s servedBy usage).1 = rb_accounts s.
Proof. unfold debitableUsd. by repeat case_match. Qed.

Lemma accounts_vet s servedBy nowMs :
  rb_accounts (assertPricedDispatch options parseDate s servedBy nowMs).1 = rb_accounts s.
Proof. unfold assertPricedDispatch. by repeat case_match. Qed.

Lemma keeps_debit usd : keeps (debit_account usd).
Proof. done. Qed.

Lemma moves_debit rs usd a : moves true rs a (debit_account usd a).
Proof. split; try done. intros Ha. cbn. rewrite Ha. apply orb_true_r. Qed.

Lemma evolves_debit rs s usd scope :
  tree_ok (rb_accounts s) → evolves true rs (rb_accounts s) (rb_accounts (debitAccounts s usd scope).1).
Proof.
  intros Ht. unfold debitAccounts. destruct (chainOf s scope) eqn:Hc; [|by apply evolves_refl].
  cbn. rewrite debit_accounts. eapply evolves_walk; [apply keeps_debit| |done|done]. intros b. apply moves_debit.
Qed.

Lemma accounts_usage s usage servedBy scope :
  ∃ s', rb_accounts s' = rb_accounts s ∧
    onUsage options s usage servedBy scope =
      debitAccounts s' (debitableUsd options s servedBy (sanitizeUsageDelta usage)).2 scope.
Proof.
  unfold onUsage. set (s0 := with_usage_total s _).
  pose proof (accounts_debitable s0 servedBy (sanitizeUsageDelta usage)) as Hd.
  exists (debitableUsd options s0 servedBy (sanitizeUsageDelta usage)).1. split; [by rewrite Hd|].
  destruct (debitableUsd options s0 _ _) as [s1 usd] eqn:E. f_equal.
  unfold debitableUsd in *. repeat case_match; cbn in *; congruence.
Qed.

Lemma run_op_evolves s op :
  tree_ok (rb_accounts s) → evolves (spends op) (reserves op) (rb_accounts s) (rb_accounts (run_op s op)).
Proof.
  intros Ht. destruct op; cbn [spends reserves run_op].
  - by apply evolves_open_op.
  - by apply evolves_raise.
  - rewrite accounts_refuse. by apply evolves_refl.
  - by apply evolves_admit.
  - by apply evolves_recover.
  - by apply evolves_release.
  - by apply evolves_finalize.
  - by apply evolves_unfinalize.
  - by apply evolves_hold.
  - by apply evolves_unhold.
  - unfold beforeTurn. destruct (chainOf s scope); [|by apply evolves_refl].
    destruct (find_first spent_out _); [|by apply evolves_refl]. case_decide; by apply evolves_refl.
  - rewrite accounts_expose. by apply evolves_refl.
  - rewrite accounts_unexpose. by apply evolves_refl.
  - unfold releaseExposureHolder. case_match; by apply evolves_refl.
  - unfold sweep_waiters. case_match; by apply evolves_refl.
  - unfold awaitExposureRelease. repeat case_match; by apply evolves_refl.
  - unfold abort_waiter. case_decide; by apply evolves_refl.
  - destruct (accounts_usage s usage servedBy scope) as (s' & Hs & ->). rewrite <- Hs. apply evolves_debit. by rewrite Hs.
  - by apply evolves_refl.
  - unfold feedMeter. destruct (rb_meters s !! id) as [mt|]; [|by apply evolves_refl].
    set (s0 := with_usage_total s _). pose proof (accounts_debitable s0 (cm_servedBy mt)) as Hd.
    specialize (Hd (sumUsage (cm_accumulated mt) (sanitizeUsageDelta delta))).
    destruct (debitableUsd options s0 _ _) as [s1 usd]. cbn in Hd. rewrite <- Hd.
    apply (evolves_debit _ (with_meter s1 id _)). cbn. by rewrite Hd.
  - rewrite accounts_vet. by apply evolves_refl.
  - by apply evolves_refl.
Qed.

Lemma run_ops_tree s ops : tree_ok (rb_accounts s) → tree_ok (rb_accounts (run_ops s ops)).
Proof.
  revert s. induction ops as [|op ops IH]; intros s Ht; [done|]. cbn. apply IH. by apply (run_op_evolves s op).
Qed.

Lemma tree_root (r : AccountState T) : ac_scope r = ROOT_ACCOUNT → ac_parent r = None → tree_ok {[ROOT_ACCOUNT := r]}.
Proof.
  intros Hs Hp. split.
  - intros k a [<- <-]%lookup_singleton_Some. done.
  - exists r. by rewrite lookup_singleton_eq.
  - intros k a [<- <-]%lookup_singleton_Some. done.
  - exists (fun _ => 0%nat). split; [intros; rewrite map_size_singleton; lia|].
    intros k a p [<- <-]%lookup_singleton_Some. congruence.
Qed.
End Operations.

Lemma newBudget_inv {T} `{Num T} ceiling maxInFlight clamp cap priceUsd pricingOf strict seed
    (o : BudgetOptions T) s :
  newBudget ceiling maxInFlight clamp cap priceUsd pricingOf strict seed = Ok (o, s) →
  ∃ c usd, require_opt ceiling "budget ceiling" = Ok c ∧
    rb_accounts s = {[ROOT_ACCOUNT := root_account c usd]} ∧ bo_ceiling o = c ∧ rb_inFlight s = num_zero ∧
    rb_holds s = ∅ ∧ rb_unattributed s = 0%Z ∧ rb_open s = ∅ ∧ rb_meters s = ∅.
Proof.
  unfold newBudget. intros (c & Hc & (mx & Hm & Hn)%bind_ok)%bind_ok. destruct (strict_config_ok strict); [|done].
  apply bind_ok in Hn as (usd & Hu & (sa & Hsa & [= <- <-])%bind_ok). exists c, usd. by split_and!.
Qed.

(** The state of a budget that exists. *)
Inductive reachable {T} `{Num T} (parseDate : string → option Z) : BudgetOptions T → RunBudget T → Prop :=
  | reach_new ceiling maxInFlight clamp cap priceUsd pricingOf strict seed o s :
      newBudget ceiling maxInFlight clamp cap priceUsd pricingOf strict seed = Ok (o, s) →
      reachable parseDate o s
  | reach_op o s op : reachable parseDate o s → reachable parseDate o (run_op o parseDate s op).

Lemma reachable_tree {T} `{Num T} parseDate (o : BudgetOptions T) s :
  reachable parseDate o s → tree_ok (rb_accounts s).
Proof.
  induction 1 as [? ? ? ? ? ? ? ? o s Hn|o s op _ IH].
  - apply newBudget_inv in Hn as (c & usd & _ & -> & _). by apply tree_root.
  - by apply run_op_evolves.
Qed.

Lemma reachable_run {T} `{Num T} parseDate (o : BudgetOptions T) s ops :
  reachable parseDate o s → reachable parseDate o (run_ops o parseDate s ops).
Proof. revert s. induction ops as [|op ops IH]; intros s Hs; [done|]. cbn. apply IH. by apply reach_op. Qed.
