(* ===== verification/BudgetLaws.v ===== *)
(** * Admission against the run budget (packages/core/src/engine/budget.ts)

    The walk to the root, spawn admission, and the ledger of outstanding reserves. *)
From Stdlib Require Import QArith Lqa.
From S2P Require Import Prelude Num Json Entries Usage Pricing Budget BudgetTree BudgetInv.

(** In every state a budget reaches, the walk from an account that is open returns:
    it starts at the account, follows the parents, visits no account twice, ends at
    the run root, and reads each account as it is filed; a scope without an account
    is the typed refusal.  The walk never loops. *)
Theorem account_walk_terminates {T} `{Num T} parseDate (o : BudgetOptions T) s (scope : string) :
  reachable parseDate o s →
  match chainOf s scope with
  | Ok chain =>
      (∃ rest, map ac_scope chain = scope :: rest) ∧ last (map ac_scope chain) = Some ROOT_ACCOUNT ∧
      NoDup (map ac_scope chain) ∧ (∀ a, a ∈ chain → rb_accounts s !! ac_scope a = Some a)
  | Err e => e = unknown_account scope ∧ rb_accounts s !! scope = None
  end.
Proof.
  intros Ht%reachable_tree. destruct (chainOf_total s scope Ht) as [(l & Hl & _)|[-> Hn]]; [|done].
  rewrite Hl. destruct (chainOf_ok s scope l Ht Hl) as [_ Hm Hnd _]. split_and!; try done.
  - unfold chainOf in Hl. cbn in Hl. destruct (rb_accounts s !! scope) as [a|] eqn:Ha; [|done].
    apply bind_ok in Hl as (rest & _ & [= <-]). exists (map ac_scope rest). cbn. by rewrite (tr_keys _ Ht _ _ Ha).
  - by eapply chain_last.
Qed.

(** ** Spawn admission *)

Section Admission.
Context {T : Type} `{Num T, !ExactNum T} (options : BudgetOptions T).
Implicit Types (s : RunBudget T) (a : AccountState T).

(** An account has room for a reserve: it is not full, and the reserve fits. *)
Definition has_room (r : T) a : Prop :=
  match ac_ceiling a with
  | None => True
  | Some c => (val (committed_sum a) < val c ∧ val (committed_sum a) + val r <= val c)%Q
  end.

Lemma refuses_room r a : refuses r a = false ↔ has_room r a.
Proof.
  unfold refuses, has_room. destruct (ac_ceiling a) as [c|]; [|done].
  rewrite orb_false_iff, leb_false, ltb_false, val_add. done.
Qed.

(** Why a spawn is refused. *)
Definition refusal_reason s (reserve : jsnum T) (scope : string) (e : BudgetError) : Prop :=
  match e with
  | bad_amount _ => ∀ r, reserve = Finite r → (val r < 0)%Q
  | spawn_cap_reached => (bo_spawnCap options <= rb_spawned s)%Z
  | unknown_account k => k = scope ∧ rb_accounts s !! scope = None
  | ceiling_reached k => ∃ r a, reserve = Finite r ∧ k ∈ scopes_of (rb_accounts s) scope ∧
      rb_accounts s !! k = Some a ∧ ¬ has_room r a
  | _ => False
  end.

Lemma requireAmount_spec (x : jsnum T) site :
  match requireAmount x site with
  | Ok r => x = Finite r ∧ (0 <= val r)%Q
  | Err e => e = bad_amount site ∧ ∀ r, x = Finite r → (val r < 0)%Q
  end.
Proof.
  destruct x as [r|]; cbn; [|done]. destruct (num_leb _ _) eqn:E; num_bools; unfold num_zero in E; rewrite val_zero in E.
  - done.
  - split; [done|]. by intros ? [= <-].
Qed.

Lemma refuseSpawn_spec s reserve scope :
  tree_ok (rb_accounts s) →
  let r := refuseSpawnIfInfeasible options s reserve scope in
  rb_accounts r.1 = rb_accounts s ∧ rb_spawned r.1 = rb_spawned s ∧
  match r.2 with
  | Ok _ => ∃ r l, reserve = Finite r ∧ (0 <= val r)%Q ∧ (rb_spawned s < bo_spawnCap options)%Z ∧
      chainOf s scope = Ok l ∧ ∀ a, a ∈ l → has_room r a
  | Err e => refusal_reason s reserve scope e
  end.
Proof.
  intros Ht. cbn zeta. unfold refuseSpawnIfInfeasible. pose proof (requireAmount_spec reserve "the admission reserve") as Hr.
  destruct (requireAmount _ _) as [r|e]; [|by destruct Hr as [-> ?]]. destruct Hr as [-> Hr].
  destruct (Z.leb_spec (bo_spawnCap options) (rb_spawned s)) as [E|E]; [done|].
  destruct (chainOf_total s scope Ht) as [(l & Hl & _)|[-> Hn]]; [|done]. rewrite Hl.
  destruct (chainOf_ok s scope l Ht Hl) as [Hsc Hm _ _].
  destruct (find_first (refuses r) l) as [a|] eqn:F.
  - apply find_first_Some in F as [Hin Hf]. split_and!; [by case_decide..|]. exists r, a. split_and!.
    + done.
    + rewrite <- Hsc. by apply list_elem_of_fmap_2.
    + by apply Hm.
    + rewrite <- refuses_room. by rewrite Hf.
  - split_and!; [done..|]. exists r, l. split_and!; try done. intros a Ha. apply refuses_room.
    rewrite find_first_None in F. by apply F.
Qed.

(** C21: Spawn admission is atomic and exact.  A spawn is admitted only with a finite,
    non-negative reserve, below the spawn cap, and when on every account from its scope
    to the run root the spend, the reserves, the finalize reserve and the holds are
    below the ceiling and the proposed reserve still fits; then the spawn is counted,
    the reserve is added to exactly those accounts, and on each the sum is within the
    ceiling.  A refusal changes no account and counts no spawn, and carries its true
    reason: a bad reserve, the spawn cap, a scope without an account, or an account on
    the walk without room. *)
Theorem admission_spec parseDate s (reserve : jsnum T) (scope : string) :
  reachable parseDate options s →
  let s' := (admitSpawn options s reserve scope).1 in
  match (admitSpawn options s reserve scope).2 with
  | Ok _ => ∃ r, reserve = Finite r ∧ (0 <= val r)%Q ∧ (rb_spawned s < bo_spawnCap options)%Z ∧
      is_Some (rb_accounts s !! scope) ∧ rb_spawned s' = (rb_spawned s + 1)%Z ∧
      ∀ k, if decide (k ∈ scopes_of (rb_accounts s) scope) then
             ∃ a, rb_accounts s !! k = Some a ∧ has_room r a ∧ rb_accounts s' !! k = Some (add_committed r a) ∧
               from_option (fun c => val (committed_sum (add_committed r a)) <= val c)%Q True (ac_ceiling a)
           else rb_accounts s' !! k = rb_accounts s !! k
  | Err e => rb_accounts s' = rb_accounts s ∧ rb_spawned s' = rb_spawned s ∧ refusal_reason s reserve scope e
  end.
Proof.
  intros Ht%reachable_tree. cbn zeta. unfold admitSpawn. pose proof (refuseSpawn_spec s reserve scope Ht) as Hs.
  destruct (refuseSpawnIfInfeasible options s reserve scope) as [s1 [[]|e]]; cbn in Hs; [|done].
  destruct Hs as (Ha & Hn & r & l & -> & Hr & Hcap & Hl0 & Hroom). pose proof Hl0 as Hl.
  set (s2 := with_spawned s1 _). assert (chainOf s2 scope = Ok l) as Hl2 by (unfold chainOf; cbn; by rewrite Ha).
  unfold admitRecovered. rewrite Hl2. cbn [fst snd]. exists r.
  assert (tree_ok (rb_accounts s2)) as Ht2 by (cbn; by rewrite Ha).
  destruct (update_walk (add_committed r) s2 scope l ltac:(done) Ht2 Hl2) as (_ & _ & Hup).
  change (rb_accounts s2) with (rb_accounts s1) in Hup. rewrite Ha in Hup.
  split_and!; try done.
  - by destruct (rb_accounts s !! scope).
  - rewrite update_chain_spawned. cbn. by rewrite Hn.
  - intros k. rewrite Hup. case_decide as Hk; [|done]. destruct (chainOf_ok s scope l Ht Hl0) as [Hsc Hm _ _].
    rewrite <- Hsc in Hk. apply list_elem_of_fmap in Hk as (a & -> & Hin). rewrite (Hm a Hin).
    exists a. pose proof (Hroom a Hin) as Hf. split_and!; try done. unfold has_room in Hf.
    destruct (ac_ceiling a) as [c|]; [|done]. cbn. unfold committed_sum in *. cbn. num_lra.
Qed.
End Admission.
