(* ===== verification/BudgetRuns.v ===== *)
(** * Traces of the run budget (packages/core/src/engine/budget.ts)

    What a sequence of operations keeps true when its callers pair them: a reserve is
    released by the spawn that took it, a turn begins with the guard and charges its
    own scope, an exposure is released by its own closure. *)
From Stdlib Require Import QArith Lqa.
From S2P Require Import Prelude Num Json Entries Usage Pricing Budget BudgetTree BudgetInv.

#[local] Open Scope Q_scope.

(** ** Sums *)

Fixpoint sumq {A} (f : A → Q) (l : list A) : Q :=
  match l with [] => 0 | x :: l => f x + sumq f l end.

Lemma sumq_app {A} (f : A → Q) l1 l2 : sumq f (l1 ++ l2) == sumq f l1 + sumq f l2.
Proof. induction l1 as [|x l1 IH]; cbn; [ring|]. rewrite IH. ring. Qed.

Lemma sumq_mid {A} (f : A → Q) l1 x l2 : sumq f (l1 ++ x :: l2) == f x + sumq f (l1 ++ l2).
Proof. rewrite !sumq_app. cbn. ring. Qed.

Lemma sumq_ext {A} (f g : A → Q) l : (∀ x, x ∈ l → f x == g x) → sumq f l == sumq g l.
Proof.
  induction l as [|x l IH]; intros He; cbn; [ring|]. rewrite (He x) by (by left).
  rewrite IH; [ring|]. intros y Hy. apply He. by right.
Qed.

Lemma sumq_nonneg {A} (f : A → Q) l : (∀ x, x ∈ l → 0 <= f x) → 0 <= sumq f l.
Proof.
  induction l as [|x l IH]; intros He; cbn; [lra|]. pose proof (He x ltac:(by left)).
  assert (0 <= sumq f l) by (apply IH; intros y Hy; apply He; by right). lra.
Qed.

Lemma sumq_zero {A} (f : A → Q) l : (∀ x, x ∈ l → f x == 0) → sumq f l == 0.
Proof.
  induction l as [|x l IH]; intros Hz; cbn; [reflexivity|]. rewrite (Hz x) by (by left).
  rewrite IH; [ring|]. intros y Hy. apply Hz. by right.
Qed.

Section Runs.
Context {T : Type} `{Num T, !ExactNum T} (options : BudgetOptions T) (parseDate : string → option Z).
Implicit Types (s : RunBudget T) (a : AccountState T) (m : gmap string (AccountState T)).

(** ** Reserves *)

(** A spawn holds a reserve on the walk from its account until it settles. *)
Definition Outstanding : Type := T * string.

Inductive reserve_step : RunBudget T * list Outstanding → RunBudget T * list Outstanding → Prop :=
  | rs_admit s out r k s' :
      admitSpawn options s (Finite r) k = (s', Ok tt) → reserve_step (s, out) (s', (r, k) :: out)
  | rs_refused s out r k s' e :
      admitSpawn options s r k = (s', Err e) → reserve_step (s, out) (s', out)
  | rs_recover s out r k s' :
      0 <= val r → admitRecovered s r k = (s', Ok tt) → reserve_step (s, out) (s', (r, k) :: out)
  | rs_release s l1 r k l2 :
      reserve_step (s, l1 ++ (r, k) :: l2) ((releaseReserve s r k).1, l1 ++ l2)
  | rs_other s out op :
      reserves op = false → reserve_step (s, out) (run_op options parseDate s op, out).

(** What the outstanding reserves hold of an account. *)
Definition share m (x : string) (o : Outstanding) : Q := if decide (x ∈ scopes_of m o.2) then val o.1 else 0.
Definition owed m (out : list Outstanding) (x : string) : Q := sumq (share m x) out.

Record ledger s (out : list Outstanding) : Prop := {
  lg_tree : tree_ok (rb_accounts s);
  lg_out : ∀ r k, (r, k) ∈ out → 0 <= val r ∧ is_Some (rb_accounts s !! k);
  lg_owed : ∀ x a, rb_accounts s !! x = Some a → val (ac_committed a) == owed (rb_accounts s) out x;
}.

Lemma owed_nonneg m out x : (∀ r k, (r, k) ∈ out → 0 <= val r) → 0 <= owed m out x.
Proof.
  intros Hr. apply sumq_nonneg. intros [r k] Hin. unfold share. case_decide; [by eapply Hr|cbn; lra].
Qed.

Lemma owed_grow m m' out x :
  tree_ok m → grows m m' → (∀ r k, (r, k) ∈ out → is_Some (m !! k)) → owed m' out x = owed m out x.
Proof.
  intros Ht Hg. unfold owed. induction out as [|[r k] out IH]; intros Hin; [done|]. cbn.
  rewrite IH by (intros ?? ?; eapply Hin; by right). unfold share. cbn.
  rewrite (scopes_grow m m' k Ht Hg); [done|]. eapply Hin. by left.
Qed.

(** A new account is on no outstanding walk. *)
Lemma owed_new m out x :
  tree_ok m → m !! x = None → owed m out x == 0.
Proof.
  intros Ht Hn. apply sumq_zero. intros o _. unfold share. case_decide as Hx; [|reflexivity].
  apply scopes_exist in Hx as [? ?]; [congruence|done].
Qed.

Lemma ledger_grow s s' out :
  ledger s out → tree_ok (rb_accounts s') → grows (rb_accounts s) (rb_accounts s') →
  (∀ r k, (r, k) ∈ out → 0 <= val r ∧ is_Some (rb_accounts s' !! k)) ∧
  ∀ x, owed (rb_accounts s') out x = owed (rb_accounts s) out x.
Proof.
  intros [Ht Ho _] Ht' Hg. split.
  - intros r k [Hr [a Ha]]%Ho. split; [done|]. destruct (Hg k a Ha) as (a' & Ha' & _). by exists a'.
  - intros x. apply owed_grow; [done|done|]. intros r k Hin. by apply (Ho r k).
Qed.

(** A write along the walk from [k] that adds [d] to what the ledger records. *)
Lemma ledger_walk f s s' l k out :
  ledger s out → keeps f → chainOf s k = Ok l → rb_accounts s' = rb_accounts (update_chain f s l) →
  tree_ok (rb_accounts s') ∧ (∀ r k, (r, k) ∈ out → 0 <= val r ∧ is_Some (rb_accounts s' !! k)) ∧
  ∀ x a', rb_accounts s' !! x = Some a' →
    (∀ o, share (rb_accounts s') x o = share (rb_accounts s) x o ∨ ¬ is_Some (rb_accounts s !! o.2)) ∧
    owed (rb_accounts s') out x = owed (rb_accounts s) out x ∧
    ∃ a, rb_accounts s !! x = Some a ∧ a' = if decide (x ∈ scopes_of (rb_accounts s) k) then f a else a.
Proof.
  intros Hl Hf Hc Hs. pose proof (lg_tree _ _ Hl) as Ht.
  destruct (update_walk f s k l Hf Ht Hc) as (Ht' & Hg & Hup). rewrite <- Hs in *.
  destruct (ledger_grow s s' out Hl Ht' Hg) as [Ho Hw]. split_and!; [done..|]. intros x a' Ha'. split_and!.
  - intros o. destruct (rb_accounts s !! o.2) as [b|] eqn:Hb; [left|right; by intros [? ?]].
    unfold share. rewrite (scopes_grow (rb_accounts s) (rb_accounts s') o.2); [done..|by exists b].
  - apply Hw.
  - rewrite Hup in Ha'. case_decide; [|by exists a']. destruct (rb_accounts s !! x) as [a|]; [|done].
    exists a. split; [done|]. by injection Ha' as <-.
Qed.

Lemma chain_open s k l : chainOf s k = Ok l → is_Some (rb_accounts s !! k).
Proof. unfold chainOf. cbn. destruct (rb_accounts s !! k); [by eexists|done]. Qed.

Lemma ledger_take s out r k s' :
  ledger s out → 0 <= val r → admitRecovered s r k = (s', Ok tt) → ledger s' ((r, k) :: out).
Proof.
  intros Hl Hr. unfold admitRecovered. destruct (chainOf s k) as [l|e] eqn:Hc; [|done]. intros [= <-].
  destruct (ledger_walk (add_committed r) s _ l k out Hl ltac:(done) Hc eq_refl) as (Ht' & Ho & Hx).
  pose proof (chain_open s k l Hc) as [b Hb]. split; [done| |].
  - intros r' k' [[= -> ->]|Hin]%elem_of_cons; [split; [done|]|by apply Ho].
    destruct (update_walk (add_committed r) s k l ltac:(done) (lg_tree _ _ Hl) Hc) as (_ & Hg & _).
    destruct (Hg k b Hb) as (b' & -> & _). by eexists.
  - intros x a' Ha'. destruct (Hx x a' Ha') as (Hsh & Hw & a & Ha & ->).
    pose proof (lg_owed _ _ Hl x a Ha) as E. unfold owed in *. cbn. rewrite Hw.
    destruct (Hsh (r, k)) as [->|Hn]; [|destruct Hn; by eexists]. unfold share at 1. cbn [fst snd].
    case_decide; cbn; rewrite ?val_add, E; ring.
Qed.

Lemma ledger_drop s l1 r k l2 :
  ledger s (l1 ++ (r, k) :: l2) → ledger (releaseReserve s r k).1 (l1 ++ l2).
Proof.
  intros Hl. assert ((r, k) ∈ l1 ++ (r, k) :: l2) as Hin by (apply elem_of_app; right; by left).
  destruct (lg_out _ _ Hl r k Hin) as [Hr Hk].
  unfold releaseReserve. destruct (chainOf_total s k (lg_tree _ _ Hl)) as [(l & Hc & _)|[_ ?]];
    [|by destruct Hk; congruence]. rewrite Hc. cbn [fst].
  destruct (ledger_walk (sub_committed r) s _ l k _ Hl ltac:(done) Hc eq_refl) as (Ht' & Ho & Hx).
  split; [done| |].
  - intros r' k' Hin'. apply Ho. apply elem_of_app in Hin' as [?|?]; apply elem_of_app; [by left|right; by right].
  - intros x a' Ha'. destruct (Hx x a' Ha') as (Hsh & Hw & a & Ha & ->).
    pose proof (lg_owed _ _ Hl x a Ha) as E. rewrite <- Hw in E. unfold owed in *. rewrite sumq_mid in E.
    assert (0 <= sumq (share (rb_accounts (update_chain (sub_committed r) s l)) x) (l1 ++ l2)) as Hpos.
    { apply owed_nonneg. intros r' k' Hin'. apply (Ho r' k').
      apply elem_of_app in Hin' as [?|?]; apply elem_of_app; [by left|right; by right]. }
    destruct (Hsh (r, k)) as [Hs|Hn]; [|done]. rewrite Hs in E. unfold share at 1 in E. cbn [fst snd] in E.
    unfold Outstanding in *. revert E Hpos. generalize (sumq (share (rb_accounts (update_chain (sub_committed r) s l)) x) (l1 ++ l2)). intros S. case_decide; cbn; intros E Hpos; num_lra.  
Qed.

Lemma ledger_step s out s' out' : reserve_step (s, out) (s', out') → ledger s out → ledger s' out'.
Proof.
  intros Hst Hl. inversion Hst as [? ? r k ? Ha|? ? ? ? ? e Ha|? ? ? ? ? Hr Ha| |? ? op Hop]; subst; clear Hst.
  - unfold admitSpawn in Ha. pose proof (accounts_refuse options s (Finite r) k) as Hacc.
    assert (0 <= val r ∨ ∃ e, (refuseSpawnIfInfeasible options s (Finite r) k).2 = Err e) as [Hr|[e He]].
    { unfold refuseSpawnIfInfeasible. cbn. destruct (num_leb _ r) eqn:Er; [left; num_lra|right; by eexists]. }
    + destruct (refuseSpawnIfInfeasible _ _ _ _) as [s1 [[]|e]]; [|done]. cbn in Hacc.
      eapply (ledger_take (with_spawned s1 _)); [|done|exact Ha]. destruct Hl as [Ht Ho Hw].
      split; cbn; rewrite Hacc; done.
    + destruct (refuseSpawnIfInfeasible _ _ _ _) as [s1 [[]|e']]; done.
  - pose proof (accounts_refuse options s r k) as Hacc. unfold admitSpawn in Ha.
    destruct (refuseSpawnIfInfeasible _ _ _ _) as [s1 [[]|e']]; cbn in Hacc.
    + destruct r as [r|]; [|done]. unfold admitRecovered in Ha. destruct (chainOf _ _); [done|].
      injection Ha as <- <-. destruct Hl as [Ht Ho Hw]. split; cbn; rewrite Hacc; done.
    + injection Ha as <- <-. destruct Hl as [Ht Ho Hw]. split; rewrite Hacc; done.
  - by eapply ledger_take.
  - by apply ledger_drop.
  - destruct (run_op_evolves options parseDate s op (lg_tree _ _ Hl)) as [Ht' Hg Hm Hn]. rewrite Hop in *.
    destruct (ledger_grow s _ out' Hl Ht' Hg) as [Ho Hw]. split; [done..|]. intros x a' Ha'. rewrite Hw.
    destruct (rb_accounts s !! x) as [a|] eqn:Ha.
    + destruct (Hm x a Ha) as (a2 & Ha2 & [_ _ _ Hc _]). assert (a2 = a') as -> by congruence.
      rewrite Hc by done. by apply (lg_owed _ _ Hl).
    + rewrite (Hn x a' Ha Ha' eq_refl). unfold num_zero. rewrite val_zero.
      symmetry. apply owed_new; [apply Hl|done].
Qed.

Lemma ledger_steps s out s' out' :
  rtc reserve_step (s, out) (s', out') → ledger s out → ledger s' out'.
Proof.
  intros Hr. remember (s, out) as x eqn:Hx. remember (s', out') as y eqn:Hy. revert s out Hx.
  induction Hr as [z|z1 [s1 o1] z3 Hst _ IH]; intros s out ->; [by injection Hy as -> ->|].
  intros Hl. eapply IH; [done|done|]. by eapply ledger_step.
Qed.

(** ** Turns *)

(** A turn open on an account: what it has charged so far. *)
Record Turn := mkTurn { tn_scope : string; tn_charged : Q }.

(** What an operation debits, and where. *)
Definition charge_of s (op : BudgetOp (T := T)) : option (T * string) :=
  match op with
  | op_usage usage servedBy scope => Some ((debitableUsd options s servedBy (sanitizeUsageDelta usage)).2, scope)
  | op_feed id delta =>
      m ← rb_meters s !! id;
      Some (num_max num_zero (num_sub
              (debitableUsd options s (cm_servedBy m) (sumUsage (cm_accumulated m) (sanitizeUsageDelta delta))).2
              (cm_priced m)), cm_scope m)
  | _ => None
  end.

Lemma debitable_warn s s' servedBy u :
  (debitableUsd options s servedBy u).2 = (debitableUsd options s' servedBy u).2.
Proof. unfold debitableUsd. by repeat case_match. Qed.

Lemma debitable_nonneg s servedBy u : 0 <= val (debitableUsd options s servedBy u).2.
Proof.
  unfold debitableUsd. destruct (bo_priceUsd options servedBy u) as [[x|]|]; cbn; try num_lra.
  destruct (num_leb num_zero x) eqn:E; cbn; num_lra.
Qed.

Lemma charge_nonneg s op d scope : charge_of s op = Some (d, scope) → 0 <= val d.
Proof.
  destruct op; cbn; try done; [intros [= <- <-]; apply debitable_nonneg|].
  destruct (rb_meters s !! id); [|done]. intros [= <- <-]. num_lra.
Qed.

(** An operation that charges is a debit along the walk from its account. *)
Lemma charge_is_debit s op d scope :
  charge_of s op = Some (d, scope) →
  ∃ s', rb_accounts s' = rb_accounts s ∧ run_op options parseDate s op = (debitAccounts s' d scope).1.
Proof.
  destruct op; cbn; try done.
  - intros [= <- <-]. destruct (accounts_usage options s usage servedBy scope0) as (s' & Hs & Ho).
    exists s'. cbn [run_op]. by rewrite Ho.
  - unfold feedMeter. destruct (rb_meters s !! id) as [mt|]; [|done]. intros [= <- <-].
    set (s0 := with_usage_total s _). set (u := sumUsage _ _).
    pose proof (accounts_debitable options s0 (cm_servedBy mt) u) as Ha.
    rewrite (debitable_warn s s0). destruct (debitableUsd options s0 _ u) as [s1 usd]. cbn in *.
    eexists. split; [|done]. done.
Qed.

Lemma run_charge s op d scope :
  tree_ok (rb_accounts s) → charge_of s op = Some (d, scope) →
  ∀ x a, rb_accounts s !! x = Some a →
    ∃ a', rb_accounts (run_op options parseDate s op) !! x = Some a' ∧ ac_ceiling a' = ac_ceiling a ∧
      val (ac_spent a') == val (ac_spent a) + (if decide (x ∈ scopes_of (rb_accounts s) scope) then val d else 0).
Proof.
  intros Ht Hop x a Ha. destruct (charge_is_debit s op d scope Hop) as (s' & Hs & ->).
  unfold debitAccounts. rewrite <- Hs in *. destruct (chainOf_total s' scope Ht) as [(l & Hc & _)|[Hc Hn]].
  - rewrite Hc. cbn. rewrite debit_accounts.
    destruct (update_walk (debit_account d) s' scope l (keeps_debit d) Ht Hc) as (_ & _ & Hup).
    rewrite Hup, Ha. case_decide; cbn; eexists; (split; [done|]); cbn; split; try done; [apply val_add|ring].
  - rewrite Hc. cbn. exists a. split_and!; try done. rewrite decide_False; [ring|].
    unfold scopes_of, chainOf in *. rewrite Hc. apply not_elem_of_nil.
Qed.

(** Turns on an account begin with the guard, charge at most [most] each, and end. *)
Inductive turn_step (most : Q) : RunBudget T * list Turn → RunBudget T * list Turn → Prop :=
  | ts_begin s ts k s' :
      beforeTurn s k = (s', Ok tt) → turn_step most (s, ts) (s', mkTurn k 0 :: ts)
  | ts_charge s l1 t l2 op d :
      charge_of s op = Some (d, tn_scope t) → tn_charged t + val d <= most →
      turn_step most (s, l1 ++ t :: l2)
        (run_op options parseDate s op, l1 ++ mkTurn (tn_scope t) (tn_charged t + val d) :: l2)
  | ts_end s l1 t l2 : turn_step most (s, l1 ++ t :: l2) (s, l1 ++ l2)
  | ts_other s ts op :
      charge_of s op = None → turn_step most (s, ts) (run_op options parseDate s op, ts).

(** The turns open below an account. *)
Definition below m (x : string) (t : Turn) : bool := bool_decide (x ∈ scopes_of m (tn_scope t)).
Definition open_below m (x : string) (ts : list Turn) : nat := length (filter (fun t => below m x t = true) ts).

(** A run in which at most [n] turns are open below [x] at a time. *)
Inductive turn_run (most : Q) (x : string) (n : nat) s0 : RunBudget T * list Turn → Prop :=
  | tr_start : turn_run most x n s0 (s0, [])
  | tr_step s ts s' ts' :
      turn_run most x n s0 (s, ts) → turn_step most (s, ts) (s', ts') →
      (open_below (rb_accounts s') x ts' <= n)%nat → turn_run most x n s0 (s', ts').

(** What the open turns below [x] may still charge. *)
Definition slack (most : Q) m (x : string) (t : Turn) : Q := if below m x t then most - tn_charged t else 0.

Record turns_ok (most : Q) (x : string) (n : nat) (c : T) (bound : Q) s (ts : list Turn) : Prop := {
  to_tree : tree_ok (rb_accounts s);
  to_turns : ∀ t, t ∈ ts → 0 <= tn_charged t ∧ tn_charged t <= most ∧ is_Some (rb_accounts s !! tn_scope t);
  to_account : ∃ a, rb_accounts s !! x = Some a ∧ ac_ceiling a = Some c ∧ ac_kind a ≠ Some child_allowance ∧
    val (ac_spent a) + sumq (slack most (rb_accounts s) x) ts <= bound + inject_Z (Z.of_nat n) * most;
}.

Lemma slack_grow most m m' x ts :
  tree_ok m → grows m m' → (∀ t, t ∈ ts → is_Some (m !! tn_scope t)) →
  sumq (slack most m' x) ts == sumq (slack most m x) ts.
Proof.
  intros Ht Hg Hin. apply sumq_ext. intros t Hts. unfold slack, below. by rewrite (scopes_grow m m' _ Ht Hg (Hin t Hts)).
Qed.

Lemma slack_open most m x ts :
  (∀ t, t ∈ ts → 0 <= tn_charged t) →
  sumq (slack most m x) ts <= inject_Z (Z.of_nat (open_below m x ts)) * most.
Proof.
  unfold open_below. induction ts as [|t ts IH]; intros Hin.
  { intros. change (0 <= 0 * most). lra. }
  pose proof (Hin t ltac:(by left)) as Hc. specialize (IH ltac:(intros ? ?; apply Hin; by right)).
  cbn [sumq]. unfold slack at 1. rewrite filter_cons. destruct (below m x t) eqn:E.
  - rewrite decide_True by done. cbn [length]. rewrite Nat2Z.inj_succ. unfold Z.succ. rewrite inject_Z_plus.
    change (inject_Z 1) with 1. lra.
  - rewrite decide_False by done. lra.
Qed.

Lemma beforeTurn_ok s k s' :
  tree_ok (rb_accounts s) → beforeTurn s k = (s', Ok tt) →
  s' = s ∧ is_Some (rb_accounts s !! k) ∧
  ∀ x a c, x ∈ scopes_of (rb_accounts s) k → rb_accounts s !! x = Some a → ac_ceiling a = Some c →
    val (ac_spent a) < val c.
Proof.
  intros Ht. unfold beforeTurn. destruct (chainOf s k) as [l|] eqn:Hc; [|done].
  destruct (find_first spent_out l) eqn:F; [done|]. intros [= <-]. split_and!; [done|by eapply chain_open|].
  intros x a c Hx Ha Hcl. destruct (chainOf_ok s k l Ht Hc) as [Hsc Hm _ _].
  rewrite <- Hsc in Hx. apply list_elem_of_fmap in Hx as (b & -> & Hin).
  assert (b = a) as -> by (pose proof (Hm b Hin); congruence).
  rewrite find_first_None in F. specialize (F a Hin). unfold spent_out in F. rewrite Hcl in F. num_lra.
Qed.

Lemma uncharged_evolves s op :
  tree_ok (rb_accounts s) → charge_of s op = None →
  evolves false true (rb_accounts s) (rb_accounts (run_op options parseDate s op)).
Proof.
  intros Ht Hop. pose proof (run_op_evolves options parseDate s op Ht) as [Ht' Hg Hm _].
  assert (∀ x a, rb_accounts s !! x = Some a →
    ∃ a', rb_accounts (run_op options parseDate s op) !! x = Some a' ∧ moves false true a a') as Hm'.
  { intros x a Ha. destruct (spends op) eqn:Hsp.
    - destruct op; try done. cbn in Hop |- *. unfold feedMeter. destruct (rb_meters s !! id); [done|].
      exists a. split; [done|apply moves_refl].
    - destruct (Hm x a Ha) as (a' & ? & [? ? ? ? ?]). exists a'. split; [done|]. by split. }
  by split.
Qed.

Lemma turns_grow most x n c bound s s' ts :
  0 <= most → turns_ok most x n c bound s ts → evolves false true (rb_accounts s) (rb_accounts s') →
  turns_ok most x n c bound s' ts.
Proof.
  intros Hmost [Ht Hts (a & Ha & Hc & Hk & Hb)] [Ht' Hg Hm _]. split; [done| |].
  - intros t (? & ? & b & Hb')%Hts. destruct (Hg _ b Hb') as (b' & E & _). by rewrite E.
  - destruct (Hm x a Ha) as (a' & Ha' & [V1 V2 V3 _ _]). exists a'. rewrite V2, V1, V3 by done.
    split_and!; [done..|]. rewrite (slack_grow most _ _ x ts Ht Hg); [done|]. by intros t (_ & _ & ?)%Hts.
Qed.

Lemma turns_charge most x n c bound s l1 t l2 op d :
  0 <= most → turns_ok most x n c bound s (l1 ++ t :: l2) → charge_of s op = Some (d, tn_scope t) →
  tn_charged t + val d <= most →
  turns_ok most x n c bound (run_op options parseDate s op) (l1 ++ mkTurn (tn_scope t) (tn_charged t + val d) :: l2).
Proof.
  intros Hmost [Ht Hts (a & Ha & Hc & Hk & Hb)] Hop Hle. pose proof (charge_nonneg s op _ _ Hop) as Hd.
  destruct (run_op_evolves options parseDate s op Ht) as [Ht' Hg Hm _].
  assert (∀ t', t' ∈ l1 ++ l2 → t' ∈ l1 ++ t :: l2) as Hsub.
  { intros t' [?|?]%elem_of_app; apply elem_of_app; [by left|right; by right]. }
  assert (t ∈ l1 ++ t :: l2) as Hin by (apply elem_of_app; right; by left).
  assert (∀ k, is_Some (rb_accounts s !! k) → is_Some (rb_accounts (run_op options parseDate s op) !! k)) as Hk'.
  { intros k [b Hb']. destruct (Hg k b Hb') as (b' & ? & _). by exists b'. }
  split; [done| |].
  - intros t' [Ht1|[->|Ht1]%elem_of_cons]%elem_of_app.
    + destruct (Hts t') as (? & ? & ?); [apply Hsub, elem_of_app; by left|]. auto.
    + cbn. destruct (Hts t Hin) as (? & ? & ?). split_and!; [lra|lra|auto].
    + destruct (Hts t') as (? & ? & ?); [apply Hsub, elem_of_app; by right|]. auto.
  - destruct (run_charge s op d _ Ht Hop x a Ha) as (a' & Ha' & Hc' & Hs').
    destruct (Hm x a Ha) as (a2 & Ha2 & [V1 _ _ _ _]). assert (a2 = a') as -> by congruence.
    exists a'. split_and!; [done|congruence|congruence|]. rewrite sumq_mid in Hb |- *.
    rewrite (slack_grow most _ _ x (l1 ++ l2) Ht Hg) by (intros t' ?; by apply Hts, Hsub).
    unfold slack at 1, below at 1. cbn [tn_scope tn_charged].
    rewrite (scopes_grow _ _ _ Ht Hg) by (by apply Hts). unfold slack at 1, below at 1 in Hb.
    destruct (decide (x ∈ scopes_of (rb_accounts s) (tn_scope t))) as [E|E].
    + rewrite bool_decide_true in Hb |- * by done. lra.
    + rewrite bool_decide_false in Hb |- * by done. lra.
Qed.

Lemma turns_begin most x n c bound s s' ts k :
  0 <= most → val c <= bound → turns_ok most x n c bound s ts → beforeTurn s k = (s', Ok tt) →
  (open_below (rb_accounts s') x (mkTurn k 0 :: ts) <= n)%nat →
  turns_ok most x n c bound s' (mkTurn k 0 :: ts).
Proof.
  intros Hmost Hcb [Ht Hts (a & Ha & Hc & Hk & Hb)] Hbt Hn.
  destruct (beforeTurn_ok s k s' Ht Hbt) as (-> & Hin & Hlt). split; [done| |].
  - intros t [->|?]%elem_of_cons; [cbn; split_and!; [lra|lra|done]|by apply Hts].
  - exists a. split_and!; [done..|]. destruct (decide (x ∈ scopes_of (rb_accounts s) k)) as [E|E].
    + pose proof (Hlt x a c E Ha Hc). pose proof (slack_open most (rb_accounts s) x (mkTurn k 0 :: ts)) as Hsl.
      assert (inject_Z (Z.of_nat (open_below (rb_accounts s) x (mkTurn k 0 :: ts))) * most
              <= inject_Z (Z.of_nat n) * most).
      { apply Qmult_le_compat_r; [|done]. rewrite <- Zle_Qle. lia. }
      assert (∀ t, t ∈ mkTurn k 0 :: ts → 0 <= tn_charged t) as Hz.
      { intros t [->|?]%elem_of_cons; [cbn; lra|by apply Hts]. }
      specialize (Hsl Hz). lra.
    + cbn [sumq]. unfold slack at 1, below at 1. cbn [tn_scope]. rewrite bool_decide_false by done. lra.
Qed.

Lemma turns_end most x n c bound s l1 t l2 :
  turns_ok most x n c bound s (l1 ++ t :: l2) → turns_ok most x n c bound s (l1 ++ l2).
Proof.
  intros [Ht Hts (a & Ha & Hc & Hk & Hb)]. split; [done| |].
  - intros t' Hin. apply Hts. apply elem_of_app in Hin as [?|?]; apply elem_of_app; [by left|right; by right].
  - exists a. split_and!; [done..|]. rewrite sumq_mid in Hb.
    destruct (Hts t) as (H1 & H2 & _); [apply elem_of_app; right; by left|].
    assert (0 <= slack most (rb_accounts s) x t) by (unfold slack; destruct (below _ _ _); lra). lra.
Qed.

Lemma turn_run_ok most x n s0 a0 c bound s ts :
  0 <= most → tree_ok (rb_accounts s0) → rb_accounts s0 !! x = Some a0 → ac_ceiling a0 = Some c →
  ac_kind a0 ≠ Some child_allowance → val (ac_spent a0) <= bound → val c <= bound →
  turn_run most x n s0 (s, ts) → turns_ok most x n c bound s ts.
Proof.
  intros Hmost Ht Ha Hc Hk Hsp Hcb Hrun. remember (s, ts) as z eqn:Hz. revert s ts Hz.
  induction Hrun as [|s1 ts1 s2 ts2 _ IH Hst Hn]; intros s ts [= <- <-].
  - split; [done|by intros ? ?%elem_of_nil|]. exists a0. split_and!; try done. cbn [sumq].
    assert (0 <= inject_Z (Z.of_nat n)) by (change 0 with (inject_Z 0); rewrite <- Zle_Qle; lia).
    assert (0 <= inject_Z (Z.of_nat n) * most) by (by apply Qmult_le_0_compat). lra.
  - specialize (IH _ _ eq_refl). inversion Hst; subst.
    + by eapply turns_begin.
    + by apply turns_charge.
    + by eapply turns_end.
    + eapply turns_grow; [done|exact IH|]. apply uncharged_evolves; [apply IH|done].
Qed.
End Runs.
