(* ===== verification/BudgetExposure.v ===== *)
(** * The in-flight exposure cap (packages/core/src/engine/budget.ts)

    A dispatch reserves its estimate, charges at most that much, and is closed by its
    own closure or with its holder.  What is in flight is the sum of the live
    estimates, and the spend never passes the cap. *)
From Stdlib Require Import QArith Lqa.
From S2P Require Import Prelude Num Json Entries Usage Pricing Budget BudgetTree BudgetInv BudgetRuns.

#[local] Open Scope Q_scope.

Section Exposure.
Context {T : Type} `{Num T, !ExactNum T} (options : BudgetOptions T) (parseDate : string → option Z).
Implicit Types (s : RunBudget T) (dead : gset string).

(** A live dispatch, and what it has charged so far. *)
Record Dispatch := mkDispatch {
  dp_id : N;
  dp_estimate : T;
  dp_holder : option string;
  dp_charged : Q;
}.
Implicit Types (d : Dispatch) (ds : list Dispatch).

Definition est d : Q := val (dp_estimate d).
Definition held_by (h : string) d : Q := if decide (dp_holder d = Some h) then est d else 0.
Definition anonymous d : bool := bool_decide (dp_holder d = None) && num_ltb num_zero (dp_estimate d).
Definition count_anonymous ds : Z := Z.of_nat (length (filter (fun d => anonymous d = true) ds)).

(** ** The balances of the holders *)

Record balance ds (holds : gmap string T) (unattributed : Z) : Prop := {
  bl_est : ∀ d, d ∈ ds → 0 <= est d;
  bl_holds : ∀ h, val (default num_zero (holds !! h)) == sumq (held_by h) ds;
  bl_pos : ∀ h v, holds !! h = Some v → 0 < val v;
  bl_anonymous : unattributed = count_anonymous ds;
}.

Lemma held_nonneg h ds : (∀ d, d ∈ ds → 0 <= est d) → 0 <= sumq (held_by h) ds.
Proof. intros He. apply sumq_nonneg. intros d Hd. unfold held_by. case_decide; [by apply He|lra]. Qed.

Lemma count_cons d ds : count_anonymous (d :: ds) = ((if anonymous d then 1 else 0) + count_anonymous ds)%Z.
Proof.
  unfold count_anonymous. rewrite filter_cons. destruct (anonymous d) eqn:E.
  - rewrite decide_True by done. cbn [length]. lia.
  - rewrite decide_False by done. lia.
Qed.

Lemma count_mid l1 d l2 :
  count_anonymous (l1 ++ d :: l2) = ((if anonymous d then 1 else 0) + count_anonymous (l1 ++ l2))%Z.
Proof.
  induction l1 as [|d' l1 IH]; cbn [app]; [apply count_cons|]. rewrite !(count_cons d'), IH. lia.
Qed.

Lemma count_nonneg ds : (0 <= count_anonymous ds)%Z.
Proof. unfold count_anonymous. lia. Qed.

Lemma mid_sub {A} (l1 : list A) x l2 y : y ∈ l1 ++ l2 → y ∈ l1 ++ x :: l2.
Proof. intros [?|?]%elem_of_app; apply elem_of_app; [by left|right; by right]. Qed.

Lemma mid_in {A} (l1 : list A) x l2 : x ∈ l1 ++ x :: l2.
Proof. apply elem_of_app. right. by left. Qed.

Lemma balance_take ds holds unattributed d :
  balance ds holds unattributed → 0 <= est d →
  let r := take_hold holds unattributed (dp_holder d) (dp_estimate d) in balance (d :: ds) r.1 r.2.
Proof.
  intros [He Hh Hp Ha] Hd. unfold take_hold. split.
  - intros d' [->|?]%elem_of_cons; auto.
  - unfold est in Hd. intros h. cbn [sumq]. specialize (Hh h). unfold held_by at 1, est.
    destruct (num_ltb num_zero (dp_estimate d)) eqn:E.
    + destruct (dp_holder d) as [h'|]; cbn [fst].
      * destruct (decide (h' = h)) as [->|Hne].
        -- rewrite lookup_insert_eq. cbn [default from_option id]. rewrite decide_True by done. num_lra. 
        -- rewrite lookup_insert_ne by done. rewrite decide_False by congruence. num_lra.
      * rewrite decide_False by done. num_lra.
    + cbn [fst]. assert (val (dp_estimate d) == 0) by num_lra. case_decide; num_lra.
  - intros h v. destruct (num_ltb num_zero (dp_estimate d)) eqn:E; [|apply Hp].
    destruct (dp_holder d) as [h'|]; [|apply Hp]. cbn. rewrite lookup_insert_Some. intros [[-> <-]|[_ Hv]].
    + assert (0 <= val (default num_zero (holds !! h))).
      { destruct (holds !! h) as [v|] eqn:Hv; cbn; [pose proof (Hp h v Hv)|]; num_lra. }
      num_lra.
    + by eapply Hp.
  - rewrite count_cons, Ha. unfold anonymous. destruct (num_ltb num_zero (dp_estimate d)) eqn:E, (dp_holder d); cbn; lia.
Qed.

Lemma balance_named l1 d l2 holds unattributed h :
  balance (l1 ++ d :: l2) holds unattributed → dp_holder d = Some h → 0 < est d →
  let r := drop_holder holds h (dp_estimate d) in balance (l1 ++ l2) r.1 unattributed ∧ val r.2 == est d.
Proof.
  intros [He Hh Hp Ha] Hd Hpos. pose proof (Hh h) as Hhh. rewrite sumq_mid in Hhh. unfold held_by at 1 in Hhh.
  rewrite decide_True in Hhh by done.
  assert (0 <= sumq (held_by h) (l1 ++ l2)) as Hrest by (apply held_nonneg; intros ? ?; apply He; by apply mid_sub).
  unfold drop_holder, est in *. set (v := default num_zero (holds !! h)) in *.
  assert (val (num_min (dp_estimate d) v) == val (dp_estimate d)) as Hmin by num_lra.
  cbn zeta. cbn [fst snd]. split; [|done]. split.
  - intros d' ?. apply He. by apply mid_sub.
  - intros h'. destruct (num_leb _ num_zero) eqn:E; cbn [fst].
    + destruct (decide (h = h')) as [<-|Hne].
      * rewrite lookup_delete_eq. cbn. num_lra.
      * rewrite lookup_delete_ne by done. specialize (Hh h'). rewrite sumq_mid in Hh. unfold held_by at 1 in Hh.
        rewrite decide_False in Hh by congruence. lra.
    + destruct (decide (h = h')) as [<-|Hne].
      * rewrite lookup_insert_eq. cbn. num_lra.
      * rewrite lookup_insert_ne by done. specialize (Hh h'). rewrite sumq_mid in Hh. unfold held_by at 1 in Hh.
        rewrite decide_False in Hh by congruence. lra.
  - intros h' v'. destruct (num_leb _ num_zero) eqn:E; cbn [fst].
    + rewrite lookup_delete_Some. intros [_ ?]. by eapply Hp.
    + rewrite lookup_insert_Some. intros [[-> <-]|[_ ?]]; [num_lra|by eapply Hp].
  - rewrite Ha, count_mid. unfold anonymous. by rewrite Hd.
Qed.

Lemma balance_same l1 d l2 holds unattributed :
  balance (l1 ++ d :: l2) holds unattributed → est d == 0 → balance (l1 ++ l2) holds unattributed.
Proof.
  intros [He Hh Hp Ha] Hd. split.
  - intros ? ?. apply He. by apply mid_sub.
  - intros h. rewrite Hh, sumq_mid. unfold held_by at 1. case_decide; lra.
  - done.
  - rewrite Ha, count_mid. unfold anonymous. destruct (num_ltb _ _) eqn:E; [unfold est in Hd; num_lra|].
    by rewrite andb_false_r.
Qed.

Lemma balance_anonymous l1 d l2 holds unattributed :
  balance (l1 ++ d :: l2) holds unattributed → dp_holder d = None → 0 < est d →
  balance (l1 ++ l2) holds (Z.max 0 (unattributed - 1)).
Proof.
  intros [He Hh Hp Ha] Hd Hpos. split.
  - intros ? ?. apply He. by apply mid_sub.
  - intros h. rewrite Hh, sumq_mid. unfold held_by at 1. rewrite decide_False by congruence. lra.
  - done.
  - rewrite Ha, count_mid. unfold anonymous. rewrite Hd. destruct (num_ltb _ _) eqn:E; [|unfold est in Hpos; num_lra].
    cbn. pose proof (count_nonneg (l1 ++ l2)). lia.
Qed.

(** Nothing is in flight once no holder is left. *)
Lemma balance_empty ds :
  balance ds ∅ 0 → sumq est ds == 0.
Proof.
  intros [He Hh _ Ha]. assert (∀ d, d ∈ ds → est d == 0) as Hz.
  { intros d Hd. destruct (dp_holder d) as [h|] eqn:Hho.
    - specialize (Hh h). rewrite lookup_empty in Hh. cbn in Hh.
      apply list_elem_of_split in Hd as (l1 & l2 & ->). rewrite sumq_mid in Hh. unfold held_by at 1 in Hh.
      rewrite decide_True in Hh by done. pose proof (He d (mid_in l1 d l2)).
      assert (0 <= sumq (held_by h) (l1 ++ l2)) by (apply held_nonneg; intros ? ?; apply He; by apply mid_sub).
      num_lra.
    - pose proof (He d Hd) as Hd0. apply list_elem_of_split in Hd as (l1 & l2 & ->).
      rewrite count_mid in Ha. pose proof (count_nonneg (l1 ++ l2)). unfold anonymous in Ha. rewrite Hho in Ha.
      destruct (num_ltb _ _) eqn:E; [cbn in Ha; lia|]. unfold est in *. num_lra. }
  by apply sumq_zero.
Qed.

(** The holder's whole balance goes at once. *)
Lemma balance_holder ds holds unattributed h :
  balance ds holds unattributed →
  balance (filter (fun d => dp_holder d ≠ Some h) ds) (delete h holds) unattributed ∧
  sumq est ds == sumq est (filter (fun d => dp_holder d ≠ Some h) ds) + val (default num_zero (holds !! h)).
Proof.
  intros [He Hh Hp Ha].
  assert (∀ f, sumq f ds == sumq f (filter (fun d => dp_holder d ≠ Some h) ds)
                 + sumq (fun d => if decide (dp_holder d = Some h) then f d else 0) ds) as Hsplit.
  { clear. intros f. induction ds as [|d ds IH]; [cbn; ring|]. rewrite filter_cons. cbn [sumq]. rewrite IH.
    destruct (decide (dp_holder d = Some h)) as [E|E].
    - rewrite (decide_False (P := dp_holder d ≠ Some h)) by (intros ?; done). ring.
    - rewrite (decide_True (P := dp_holder d ≠ Some h)) by done. cbn [sumq]. ring. }
  split; [split|].
  - intros d [_ Hd]%list_elem_of_filter. by apply He.
  - intros h'. destruct (decide (h = h')) as [<-|Hne].
    + rewrite lookup_delete_eq. cbn. unfold num_zero. rewrite val_zero. symmetry.
      apply sumq_zero. intros d [Hd _]%list_elem_of_filter. unfold held_by. by rewrite decide_False.
    + rewrite lookup_delete_ne by done. rewrite Hh, (Hsplit (held_by h')).
      assert (sumq (fun d => if decide (dp_holder d = Some h) then held_by h' d else 0) ds == 0) as ->; [|ring].
      apply sumq_zero. intros d _. case_decide; [|reflexivity]. unfold held_by.
      rewrite decide_False; [reflexivity|congruence].
  - intros h' v. rewrite lookup_delete_Some. intros [_ ?]. by eapply Hp.
  - rewrite Ha. unfold count_anonymous. f_equal. rewrite list_filter_filter. f_equal.
    apply list_filter_iff. intros d. unfold anonymous. split; [|by intros [? _]].
    intros Hd. split; [done|]. destruct (dp_holder d); [|done]. by rewrite andb_false_l in Hd.
  - rewrite (Hsplit est), Hh. reflexivity.
Qed.

(** ** Runs *)

Definition with_charged d (q : Q) : Dispatch := mkDispatch (dp_id d) (dp_estimate d) (dp_holder d) q.

(** An operation outside the exposure bookkeeping that charges nothing. *)
Definition outside (op : BudgetOp (T := T)) : bool :=
  match op with op_expose _ _ _ _ _ | op_unexpose _ | op_unexpose_holder _ => false | _ => true end.

(** The live dispatches, and the holders released whole: a holder is not used again
    after its release. *)
Inductive exposure_step :
    RunBudget T * list Dispatch * gset string → RunBudget T * list Dispatch * gset string → Prop :=
  | es_take s ds dead id servedBy input planned holder s' :
      rb_open s !! id = None → (∀ h, holder = Some h → h ∉ dead) →
      reserveTurnExposure options s id servedBy input planned holder = (s', Ok (Some id)) →
      exposure_step (s, ds, dead)
        (s', mkDispatch id (exposure_estimate options servedBy input planned) holder 0 :: ds, dead)
  | es_charge s l1 d l2 dead op x scope :
      charge_of options s op = Some (x, scope) → dp_charged d + val x <= est d →
      exposure_step (s, l1 ++ d :: l2, dead)
        (run_op options parseDate s op, l1 ++ with_charged d (dp_charged d + val x) :: l2, dead)
  | es_close s l1 d l2 dead :
      exposure_step (s, l1 ++ d :: l2, dead) (release_exposure s (dp_id d), l1 ++ l2, dead)
  | es_late s ds dead id :
      id ∉ map dp_id ds → exposure_step (s, ds, dead) (release_exposure s id, ds, dead)
  | es_holder s ds dead h :
      exposure_step (s, ds, dead)
        ((releaseExposureHolder s h).1, filter (fun d => dp_holder d ≠ Some h) ds, {[h]} ∪ dead)
  | es_other s ds dead op :
      charge_of options s op = None → outside op = true →
      exposure_step (s, ds, dead) (run_op options parseDate s op, ds, dead).

(** What the live dispatches may still charge. *)
Definition unspent d : Q := est d - dp_charged d.

Record exposure_ok (bound : Q) s ds dead : Prop := {
  xp_tree : tree_ok (rb_accounts s);
  xp_ids : NoDup (map dp_id ds);
  xp_open : ∀ d, d ∈ ds → rb_open s !! dp_id d = Some (mkHold (dp_estimate d) (dp_holder d));
  xp_charged : ∀ d, d ∈ ds → 0 <= dp_charged d ∧ dp_charged d <= est d;
  xp_late : ∀ id x, rb_open s !! id = Some x → id ∉ map dp_id ds → ∃ h, eh_holder x = Some h ∧ h ∈ dead;
  xp_dead : ∀ h, h ∈ dead → rb_holds s !! h = None ∧ ∀ d, d ∈ ds → dp_holder d ≠ Some h;
  xp_balance : balance ds (rb_holds s) (rb_unattributed s);
  xp_flight : val (rb_inFlight s) == sumq est ds;
  xp_bound : val (ac_spent (root_of s)) + sumq unspent ds <= bound;
  xp_estimates : ∀ id x, rb_open s !! id = Some x → 0 <= val (eh_estimate x);
}.

(** The exposure of two states agrees. *)
Definition same_exposure s s' : Prop :=
  rb_inFlight s' = rb_inFlight s ∧ rb_holds s' = rb_holds s ∧ rb_unattributed s' = rb_unattributed s ∧
  rb_open s' = rb_open s.

Lemma same_refl s : same_exposure s s.
Proof. done. Qed.

Lemma same_trans s1 s2 s3 : same_exposure s1 s2 → same_exposure s2 s3 → same_exposure s1 s3.
Proof. unfold same_exposure. intuition congruence. Qed.

Lemma same_update f s (l : list (AccountState T)) : same_exposure s (update_chain f s l).
Proof.
  unfold update_chain. revert s. induction l as [|a l IH]; intros s; cbn; [done|].
  eapply same_trans; [|apply IH]. done.
Qed.

Lemma same_debit s usd scope : same_exposure s (debitAccounts s usd scope).1.
Proof.
  unfold debitAccounts. destruct (chainOf s scope) as [l|]; [cbn|done]. revert s.
  induction l as [|a l IH]; intros s; cbn; [done|]. eapply same_trans; [|apply IH].
  unfold debit_one. by destruct (root_crosses usd a).
Qed.

Lemma same_debitable s servedBy u : same_exposure s (debitableUsd options s servedBy u).1.
Proof. unfold debitableUsd. by repeat case_match. Qed.

Lemma same_refuse s reserve scope : same_exposure s (refuseSpawnIfInfeasible options s reserve scope).1.
Proof. unfold refuseSpawnIfInfeasible. by repeat case_match. Qed.

Lemma same_recover s reserve scope : same_exposure s (admitRecovered s reserve scope).1.
Proof. unfold admitRecovered. destruct (chainOf s scope); [apply same_update|done]. Qed.

Lemma same_outside s op : outside op = true → same_exposure s (run_op options parseDate s op).
Proof.
  destruct op; cbn [outside run_op]; intros Hop; try done.
  - unfold openAccount. by repeat case_match.
  - unfold raiseChildAllowance. by repeat case_match.
  - apply same_refuse.
  - unfold admitSpawn. pose proof (same_refuse s reserve scope) as Hr.
    destruct (refuseSpawnIfInfeasible options s reserve scope) as [s1 [[]|e]]; [|done].
    destruct reserve; [|done]. eapply same_trans; [exact Hr|]. apply (same_recover (with_spawned s1 _)).
  - apply same_recover.
  - unfold releaseReserve. destruct (chainOf s scope); [apply same_update|done].
  - unfold commitFinalizeReserve. by repeat case_match.
  - unfold releaseFinalizeReserve. by repeat case_match.
  - unfold commit_hold. by repeat case_match.
  - unfold release_hold. by repeat case_match.
  - unfold beforeTurn. by repeat case_match.
  - unfold sweep_waiters. by repeat case_match.
  - unfold awaitExposureRelease. by repeat case_match.
  - unfold abort_waiter. by repeat case_match.
  - unfold onUsage. set (s0 := with_usage_total s _).
    pose proof (same_debitable s0 servedBy (sanitizeUsageDelta usage)) as Hd.
    destruct (debitableUsd options s0 _ _) as [s1 usd]. eapply same_trans; [exact Hd|]. apply same_debit.
  - unfold feedMeter. destruct (rb_meters s !! id) as [mt|]; [|done]. set (s0 := with_usage_total s _).
    set (u := sumUsage _ _). pose proof (same_debitable s0 (cm_servedBy mt) u) as Hd.
    destruct (debitableUsd options s0 _ _) as [s1 usd]. eapply same_trans; [exact Hd|].
    apply (same_debit (with_meter s1 _ _)).
  - unfold assertPricedDispatch. by repeat case_match.
Qed.

Lemma charge_outside s op x scope : charge_of options s op = Some (x, scope) → outside op = true.
Proof. by destruct op. Qed.

(** ** Every step *)

Lemma est_nonneg ds holds u : balance ds holds u → 0 <= sumq est ds.
Proof. intros Hb. apply sumq_nonneg, Hb. Qed.

Lemma settle_flight s amount ds :
  balance ds (rb_holds s) (rb_unattributed s) → val (rb_inFlight s) - val amount == sumq est ds →
  val (rb_inFlight (settleExposureRelease s amount)) == sumq est ds.
Proof.
  intros Hb Hf. pose proof (est_nonneg _ _ _ Hb). cbn. unfold no_holders.
  destruct (bool_decide_reflect (rb_holds s = ∅)) as [E|E]; cbn; [|num_lra].
  destruct (Z.eqb_spec (rb_unattributed s) 0) as [E'|E']; [|num_lra].
  rewrite E, E' in Hb. apply balance_empty in Hb. rewrite Hb in *. unfold num_zero. by rewrite val_zero.
Qed.

Lemma root_grow b s s' : evolves false b (rb_accounts s) (rb_accounts s') → tree_ok (rb_accounts s) →
  ac_spent (root_of s') = ac_spent (root_of s).
Proof.
  intros [Ht' _ Hm _] Ht. destruct (Hm ROOT_ACCOUNT _ (root_lookup s Ht)) as (a & Ha & [_ _ Hs _ _]).
  rewrite <- Hs by done. pose proof (root_lookup s' Ht'). congruence.
Qed.

(** The spend and the tree as they were. *)
Lemma root_same s s' : rb_accounts s' = rb_accounts s → root_of s' = root_of s.
Proof. unfold root_of. by intros ->. Qed.

Lemma exposure_other bound s s' ds dead :
  exposure_ok bound s ds dead → tree_ok (rb_accounts s') → same_exposure s s' →
  ac_spent (root_of s') = ac_spent (root_of s) → exposure_ok bound s' ds dead.
Proof.
  intros [? ? ? ? ? ? ? ? ? ?] Ht (E1 & E2 & E3 & E4) Hr. split; rewrite ?E1, ?E2, ?E3, ?E4, ?Hr; done.
Qed.

Lemma exposure_take bound s ds dead id servedBy input planned holder s' cap :
  exposure_ok bound s ds dead → bo_maxInFlight options = Some cap → val cap <= bound →
  rb_open s !! id = None → (∀ h, holder = Some h → h ∉ dead) →
  reserveTurnExposure options s id servedBy input planned holder = (s', Ok (Some id)) →
  exposure_ok bound s' (mkDispatch id (exposure_estimate options servedBy input planned) holder 0 :: ds) dead.
Proof.
  intros [X1 X2 X3 X4 X5 X6 X7 X8 X9 X10] Hcap Hb Hid Hh. unfold reserveTurnExposure. rewrite Hcap.
  set (e := exposure_estimate options servedBy input planned). set (d := mkDispatch id e holder 0).
  destruct (exposure_fits s cap e) eqn:Hfit; [|done].
  assert (0 <= est d) as He.
  { unfold est, d, e. cbn. unfold exposure_estimate. destruct (pricing_of _ _); [|num_lra].
    destruct (num_ltb num_zero _) eqn:E; num_lra. }
  pose proof (balance_take ds _ _ d X7 He) as Hbal. cbn in Hbal. destruct (take_hold _ _ _ _) as [holds u] eqn:Et.
  intros [= <-]. unfold exposure_fits in Hfit. apply negb_true_iff, orb_false_iff in Hfit as [F1 F2].
  assert (sumq unspent ds <= sumq est ds) as Hle.
  { assert (sumq est ds == sumq unspent ds + sumq dp_charged ds) as ->.
    { clear. unfold unspent. induction ds as [|d ds IH]; cbn; [ring|]. rewrite IH. ring. }
    assert (0 <= sumq dp_charged ds) by (by apply sumq_nonneg, X4). lra. }
  split; cbn -[sumq]; try done.
  - cbn. constructor; [|done]. intros (d' & Hd' & Hin)%list_elem_of_fmap. specialize (X3 d' Hin). congruence.
  - intros d' [->|Hin]%elem_of_cons; [by rewrite lookup_insert_eq|]. rewrite lookup_insert_ne; [by apply X3|].
    specialize (X3 d' Hin). congruence.
  - intros d' [->|Hin]%elem_of_cons; [cbn; lra|by apply X4].
  - intros id' x. rewrite lookup_insert_Some. intros [[<- _]|[_ Hx]] Hn; [destruct Hn; by left|].
    eapply X5; [done|]. intros ?. apply Hn. by right.
  - intros h Hd. destruct (X6 h Hd) as [E1 E2]. split.
    + revert Et. unfold take_hold. cbn. destruct (num_ltb num_zero e); intros Et; [|by simplify_eq].
      destruct holder as [h'|]; simplify_eq; [|done]. rewrite lookup_insert_ne; [done|].
      intros <-. by eapply Hh.
    + intros d' [->|?]%elem_of_cons; [|by apply E2]. cbn. intros ->. by eapply Hh.
  - cbn [sumq]. unfold est at 1. cbn [dp_estimate d]. num_lra.
  - cbn [sumq]. unfold unspent at 1, est at 1. cbn [dp_estimate dp_charged d]. unfold root_of in *. cbn. num_lra.
  - intros id' x. rewrite lookup_insert_Some. intros [[_ <-]|[_ Hx]]; [done|by eapply X10].
Qed.

Lemma exposure_charge bound s l1 d l2 dead op x scope :
  exposure_ok bound s (l1 ++ d :: l2) dead → charge_of options s op = Some (x, scope) →
  dp_charged d + val x <= est d →
  exposure_ok bound (run_op options parseDate s op) (l1 ++ with_charged d (dp_charged d + val x) :: l2) dead.
Proof.
  intros [X1 X2 X3 X4 X5 X6 X7 X8 X9 X10] Hop Hle. pose proof (charge_nonneg _ _ _ _ _ Hop) as Hx.
  destruct (same_outside s op (charge_outside s op x scope Hop)) as (E1 & E2 & E3 & E4).
  pose proof (run_op_evolves options parseDate s op X1) as [Ht' _ _ _].
  assert (∀ d', d' ∈ l1 ++ with_charged d (dp_charged d + val x) :: l2 →
    ∃ d0, d0 ∈ l1 ++ d :: l2 ∧ dp_id d' = dp_id d0 ∧ dp_estimate d' = dp_estimate d0 ∧ dp_holder d' = dp_holder d0 ∧
      (d' = d0 ∨ (d0 = d ∧ d' = with_charged d (dp_charged d + val x)))) as Hback.
  { intros d' [Hin|[->|Hin]%elem_of_cons]%elem_of_app.
    - exists d'. split_and!; [apply elem_of_app; by left|auto..].
    - exists d. split_and!; [apply mid_in|auto..].
    - exists d'. split_and!; [apply elem_of_app; right; by right|auto..]. }
  split; rewrite ?E1, ?E2, ?E3, ?E4; try done.
  - by rewrite map_app in *.
  - intros d' (d0 & Hin & -> & -> & -> & _)%Hback. by apply X3.
  - intros d' (d0 & Hin & _ & _ & _ & [->|[-> ->]])%Hback; [by apply X4|]. destruct (X4 d Hin).
    unfold with_charged, est in *. cbn. lra.
  - rewrite map_app in *. done.
  - intros h (Hn & Hho)%X6. split; [done|]. intros d' (d0 & Hin & _ & _ & -> & _)%Hback. by apply Hho.
  - destruct X7 as [B1 B2 B3 B4]. split; [| |done|].
    + intros d' (d0 & Hin & _ & Ee & _)%Hback. unfold est. rewrite Ee. by apply B1.
    + intros h. rewrite B2, !sumq_mid. done.
    + by rewrite B4, !count_mid.
  - rewrite X8, !sumq_mid. done.
  - pose proof (run_charge options parseDate s op x scope X1 Hop ROOT_ACCOUNT _ (root_lookup s X1)) as (a' & Ha' & _ & Hs).
    pose proof (root_lookup _ Ht') as Hr. assert (a' = root_of (run_op options parseDate s op)) as -> by congruence.
    rewrite Hs. rewrite sumq_mid in X9 |- *. unfold unspent at 1 in X9. unfold unspent at 1. cbn.
    change (est (with_charged d (dp_charged d + val x))) with (est d). case_decide; lra.
Qed.

Lemma settle_other s amount :
  rb_accounts (settleExposureRelease s amount) = rb_accounts s ∧ rb_holds (settleExposureRelease s amount) = rb_holds s ∧
  rb_unattributed (settleExposureRelease s amount) = rb_unattributed s ∧
  rb_open (settleExposureRelease s amount) = rb_open s.
Proof. done. Qed.

(** What the closure of a live dispatch leaves. *)
Lemma release_live s l1 d l2 :
  balance (l1 ++ d :: l2) (rb_holds s) (rb_unattributed s) → val (rb_inFlight s) == sumq est (l1 ++ d :: l2) →
  rb_open s !! dp_id d = Some (mkHold (dp_estimate d) (dp_holder d)) →
  let s' := release_exposure s (dp_id d) in
  balance (l1 ++ l2) (rb_holds s') (rb_unattributed s') ∧ val (rb_inFlight s') == sumq est (l1 ++ l2) ∧
  rb_open s' = delete (dp_id d) (rb_open s) ∧
  ∀ h, rb_holds s !! h = None → rb_holds s' !! h = None.
Proof.
  intros Hb Hf Ho. cbn zeta. rewrite sumq_mid in Hf. pose proof (bl_est _ _ _ Hb d (mid_in l1 d l2)) as He.
  unfold release_exposure. rewrite Ho. cbn [eh_estimate eh_holder].
  destruct (num_ltb num_zero (dp_estimate d)) eqn:E.
  - assert (0 < est d) as Hpos by (unfold est; num_lra). destruct (dp_holder d) as [h|] eqn:Hh.
    + destruct (balance_named l1 d l2 _ _ h Hb Hh Hpos) as [Hb' Hv].
      assert (∀ h', rb_holds s !! h' = None → (drop_holder (rb_holds s) h (dp_estimate d)).1 !! h' = None) as Hnone.
      { intros h' Hn. unfold drop_holder. destruct (num_leb _ _); cbn.
        - apply lookup_delete_None. by right.
        - rewrite lookup_insert_ne; [done|]. intros ->. pose proof (bl_holds _ _ _ Hb h') as Hs.
          rewrite Hn, sumq_mid in Hs. unfold held_by at 1 in Hs. rewrite decide_True in Hs by done.
          assert (0 <= sumq (held_by h') (l1 ++ l2)).
          { apply held_nonneg. intros ? ?. apply (bl_est _ _ _ Hb). by apply mid_sub. }
          cbn in Hs. num_lra. }
      destruct (drop_holder _ _ _) as [holds amount]. cbn in Hb', Hv, Hnone.
      set (s1 := with_exposure _ _ _ _ _). split_and!; [done| |done|done]. apply settle_flight; [done|]. cbn. lra.
    + pose proof (balance_anonymous l1 d l2 _ _ Hb Hh Hpos) as Hb'. set (s1 := with_exposure _ _ _ _ _).
      split_and!; [done| |done|done]. apply settle_flight; [done|]. cbn. unfold est in *. lra.
  - assert (est d == 0) as Hz by (unfold est in *; num_lra). pose proof (balance_same _ _ _ _ _ Hb Hz) as Hb'.
    set (s1 := with_exposure _ _ _ _ _). split_and!; [done| |done|done]. apply settle_flight; [done|].
    cbn. unfold est in *. lra.
Qed.

Lemma exposure_close bound s l1 d l2 dead :
  exposure_ok bound s (l1 ++ d :: l2) dead → exposure_ok bound (release_exposure s (dp_id d)) (l1 ++ l2) dead.
Proof.
  intros [X1 X2 X3 X4 X5 X6 X7 X8 X9 X10].
  destruct (release_live s l1 d l2 X7 X8 (X3 d (mid_in l1 d l2))) as (Hb & Hf & Ho & Hn).
  rewrite map_app in X2. cbn in X2. apply NoDup_app in X2 as (N1 & N2 & N3).
  apply NoDup_cons in N3 as [N3 N4].
  assert (∀ d', d' ∈ l1 ++ l2 → dp_id d' ≠ dp_id d) as Hne.
  { intros d' [Hin|Hin]%elem_of_app Heq.
    - apply (N2 (dp_id d')); [by apply list_elem_of_fmap_2|]. rewrite Heq. by left.
    - apply N3. rewrite <- Heq. by apply list_elem_of_fmap_2. }
  split; rewrite ?accounts_unexpose; try done.
  - rewrite map_app. apply NoDup_app. split_and!; [done| |done]. intros i Hi Hi2. apply (N2 i Hi). by right.
  - intros d' Hin. rewrite Ho, lookup_delete_ne by (by apply not_eq_sym, Hne). by apply X3, mid_sub.
  - intros d' Hin. by apply X4, mid_sub.
  - intros id x. rewrite Ho, lookup_delete_Some. intros [Hne' Hx] Hni. eapply X5; [done|].
    rewrite map_app in *. cbn. set_solver.
  - intros h (E1 & E2)%X6. split; [by apply Hn|]. intros d' Hin. by apply E2, mid_sub.
  - rewrite (root_same s) by apply accounts_unexpose. rewrite sumq_mid in X9. destruct (X4 d (mid_in l1 d l2)).
    unfold unspent at 1 in X9. lra.
  - intros id x. rewrite Ho, lookup_delete_Some. intros [_ Hx]. by eapply X10.
Qed.

(** The late closure of a dispatch whose holder was released frees nothing. *)
Lemma exposure_settled bound s ds dead id amount :
  exposure_ok bound s ds dead → id ∉ map dp_id ds → val amount == 0 →
  exposure_ok bound (settleExposureRelease (with_exposure s (rb_inFlight s) (rb_holds s) (rb_unattributed s)
    (delete id (rb_open s))) amount) ds dead.
Proof.
  intros [X1 X2 X3 X4 X5 X6 X7 X8 X9 X10] Hid Hz. split; try done.
  - intros d Hd. cbn. rewrite lookup_delete_ne; [by apply X3|]. intros ->. apply Hid. by apply list_elem_of_fmap_2.
  - intros i x. cbn. rewrite lookup_delete_Some. intros [_ Hx]. by eapply X5.
  - apply settle_flight; [done|]. cbn. lra.
  - intros i x. cbn. rewrite lookup_delete_Some. intros [_ Hx]. by eapply X10.
Qed.

Lemma exposure_late bound s ds dead id :
  exposure_ok bound s ds dead → id ∉ map dp_id ds → exposure_ok bound (release_exposure s id) ds dead.
Proof.
  intros Hx Hid. unfold release_exposure. destruct (rb_open s !! id) as [x|] eqn:Ho; [|done].
  destruct (xp_late _ _ _ _ Hx id x Ho Hid) as (h & -> & Hd). destruct (xp_dead _ _ _ _ Hx h Hd) as [Hn _].
  pose proof (xp_estimates _ _ _ _ Hx id x Ho) as He. destruct (num_ltb num_zero (eh_estimate x)) eqn:E.
  - unfold drop_holder. rewrite Hn. cbn [default from_option].
    assert (val (num_min (eh_estimate x) num_zero) == 0) as Hz by num_lra.
    assert (num_leb (num_sub num_zero (num_min (eh_estimate x) num_zero)) num_zero = true) as -> by num_lra.
    rewrite delete_id by done. by apply exposure_settled.
  - apply exposure_settled; [done|done|num_lra].
Qed.

Lemma exposure_holder bound s ds dead h :
  exposure_ok bound s ds dead →
  exposure_ok bound (releaseExposureHolder s h).1 (filter (fun d => dp_holder d ≠ Some h) ds) ({[h]} ∪ dead).
Proof.
  intros [X1 X2 X3 X4 X5 X6 X7 X8 X9 X10]. destruct (balance_holder ds _ _ h X7) as [Hb Hs].
  set (ds' := filter (fun d => dp_holder d ≠ Some h) ds) in *. set (s1 := with_exposure s (rb_inFlight s)
    (delete h (rb_holds s)) (rb_unattributed s) (rb_open s)).
  assert (∀ d, d ∈ ds' → d ∈ ds) as Hin by (by intros d [_ ?]%list_elem_of_filter).
  assert (val (rb_inFlight s) - val (default num_zero (rb_holds s !! h)) == sumq est ds') as Hfl by lra.
  assert (∃ s', (releaseExposureHolder s h).1 = s' ∧ rb_accounts s' = rb_accounts s ∧ rb_open s' = rb_open s ∧
    rb_holds s' = delete h (rb_holds s) ∧ rb_unattributed s' = rb_unattributed s ∧
    val (rb_inFlight s') == sumq est ds') as (s' & -> & E1 & E2 & E3 & E4 & E5).
  { eexists. split; [done|]. unfold releaseExposureHolder. fold s1. destruct (num_leb _ num_zero) eqn:E.
    - split_and!; try done. cbn. assert (0 <= val (default num_zero (rb_holds s !! h))).
      { rewrite (bl_holds _ _ _ X7). apply held_nonneg, X7. }
      num_lra.
    - split_and!; try done. cbn [fst]. apply settle_flight; done. }
  split; rewrite ?E1, ?E2, ?E3, ?E4; try done.
  - apply (sublist_NoDup _ (map dp_id ds)); [done|]. apply fmap_sublist, sublist_filter.
  - intros d ?. by apply X3, Hin.
  - intros d ?. by apply X4, Hin.
  - intros id x Hx Hn. destruct (decide (id ∈ map dp_id ds)) as [(d & -> & Hd)%list_elem_of_fmap|Hn'].
    + rewrite (X3 d Hd) in Hx. injection Hx as <-. cbn. exists h.
      destruct (decide (dp_holder d = Some h)) as [Hh|Hh]; [split; [done|set_solver]|].
      destruct Hn. apply list_elem_of_fmap_2. by apply list_elem_of_filter.
    + destruct (X5 id x Hx Hn') as (h' & ? & ?). exists h'. set_solver.
  - intros h' [->%elem_of_singleton|(E & Ho)%X6]%elem_of_union.
    + split; [apply lookup_delete_eq|]. by intros d [? _]%list_elem_of_filter.
    + split; [apply lookup_delete_None; by right|]. intros d ?. by apply Ho, Hin.
  - rewrite (root_same s) by done. assert (sumq unspent ds' <= sumq unspent ds); [|lra].
    unfold ds'. clear -X4. induction ds as [|d ds IH]; [cbn; lra|]. destruct (X4 d ltac:(by left)).
    specialize (IH ltac:(intros ? ?; apply X4; by right)). rewrite filter_cons. cbn [sumq].
    assert (0 <= unspent d) by (unfold unspent; lra). case_decide; cbn [sumq]; lra.
Qed.

Lemma exposure_ok_step bound cap s ds dead s' ds' dead' :
  bo_maxInFlight options = Some cap → val cap <= bound →
  exposure_step (s, ds, dead) (s', ds', dead') → exposure_ok bound s ds dead → exposure_ok bound s' ds' dead'.
Proof.
  intros Hcap Hb Hst Hx. inversion Hst; subst.
  - by eapply exposure_take.
  - by eapply exposure_charge.
  - by apply exposure_close.
  - by apply exposure_late.
  - by apply exposure_holder.
  - pose proof (uncharged_evolves options parseDate s op (xp_tree _ _ _ _ Hx) ltac:(done)) as He.
    eapply exposure_other; [done|apply He|by apply same_outside|]. by eapply root_grow; [|apply Hx].
Qed.
End Exposure.
