(* ===== verification/BudgetBounds.v ===== *)
(** * The bounds of the run budget (packages/core/src/engine/budget.ts)

    Reserves are conserved, the overshoot of a ceiling is bounded, the exposure cap
    holds, and a call meter debits what its usage costs. *)
From Stdlib Require Import QArith Lqa.
From S2P Require Import Prelude Num Json Entries Usage Pricing Budget BudgetTree BudgetInv BudgetRuns BudgetExposure.

#[local] Open Scope Q_scope.

Lemma newBudget_ledger {T} `{Num T, !ExactNum T} ceiling maxInFlight clamp cap priceUsd pricingOf strict seed
    (o : BudgetOptions T) s :
  newBudget ceiling maxInFlight clamp cap priceUsd pricingOf strict seed = Ok (o, s) → ledger s [].
Proof.
  intros (c & usd & _ & Ha & _)%newBudget_inv. split; rewrite Ha.
  - by apply tree_root.
  - by intros r k ?%elem_of_nil.
  - intros x a [<- <-]%lookup_singleton_Some. cbn. apply val_zero.
Qed.

(** C22: Reserves are conserved.  From a new budget, however spawns are admitted,
    refused, recovered and settled, with any other operation between, the committed
    reserve of every account is the sum of the reserves still outstanding whose walk
    to the root passes the account: none leaks, none is freed twice, and once every
    spawn has settled nothing is committed anywhere. *)
Theorem reserves_are_conserved {T} `{Num T, !ExactNum T} parseDate ceiling maxInFlight clamp cap priceUsd
    pricingOf strict seed (o : BudgetOptions T) s0 s out :
  newBudget ceiling maxInFlight clamp cap priceUsd pricingOf strict seed = Ok (o, s0) →
  rtc (reserve_step o parseDate) (s0, []) (s, out) →
  ∀ x a, rb_accounts s !! x = Some a → val (ac_committed a) == owed (rb_accounts s) out x.
Proof. intros Hn Hr. apply (ledger_steps o parseDate s0 [] s out Hr). by eapply newBudget_ledger. Qed.


(** C19: The exposure cap holds.  When every dispatch reserves its estimate first and
    charges no more than it, and is closed by its own closure or with its holder, then
    what is in flight is exactly the sum of the live estimates, a closure that comes
    after its holder was released frees nothing, and the spend of the run together
    with what the live dispatches may still charge never passes the cap (or the seed
    it began with). *)
Theorem exposure_cap_holds {T} `{Num T, !ExactNum T} parseDate ceiling maxInFlight clamp cap priceUsd pricingOf
    strict seed (o : BudgetOptions T) s0 maxExposure s ds dead :
  newBudget ceiling maxInFlight clamp cap priceUsd pricingOf strict seed = Ok (o, s0) →
  bo_maxInFlight o = Some maxExposure →
  rtc (exposure_step o parseDate) (s0, [], ∅) (s, ds, dead) →
  val (rb_inFlight s) == sumq est ds ∧
  val (ac_spent (root_of s)) + sumq unspent ds <= val (num_max maxExposure (ac_spent (root_of s0))) ∧
  0 <= sumq unspent ds.
Proof.
  intros Hn Hcap Hrun. set (bound := val (num_max maxExposure (ac_spent (root_of s0)))).
  assert (exposure_ok bound s0 [] ∅) as H0.
  { apply newBudget_inv in Hn as (c & usd & _ & Ha & _ & Hf & Hh & Hu & Ho & _). split.
    - rewrite Ha. by apply tree_root.
    - constructor.
    - by intros d ?%elem_of_nil.
    - by intros d ?%elem_of_nil.
    - intros id x. by rewrite Ho.
    - by intros h ?%elem_of_empty.
    - rewrite Hh, Hu. split; [by intros d ?%elem_of_nil| |done|done]. intros h. cbn. apply val_zero.
    - rewrite Hf. apply val_zero.
    - cbn [sumq]. unfold bound. num_lra.
    - intros id x. by rewrite Ho. }
  assert (exposure_ok bound s ds dead) as Hok.
  { assert (val maxExposure <= bound) as Hb by (unfold bound; num_lra). clearbody bound. clear Hn.
    remember (s0, [], ∅) as y eqn:Hy. remember (s, ds, dead) as z eqn:Hz. revert s0 H0 Hy.
    generalize (@nil (Dispatch (T := T))) (∅ : gset string). induction Hrun as [y|y1 [[s1 d1] e1] z Hst _ IH].
    - intros ds0 dead0 s0 H0 ->. by injection Hz as -> -> ->.
    - intros ds0 dead0 s0 H0 ->. eapply (IH Hz d1 e1 s1); [|done]. by eapply exposure_ok_step. }
  split_and!; [apply Hok|apply Hok|]. apply sumq_nonneg. intros d Hd. destruct (xp_charged _ _ _ _ Hok d Hd).
  unfold unspent. lra.
Qed.

(** ** Call meters *)

Section Meters.
Context {T : Type} `{Num T, !ExactNum T} (o : BudgetOptions T) (parseDate : string → option Z).
Implicit Types (s : RunBudget T).

(** The price of a usage, as it is debited: nothing without a valid price. *)
Definition debit_price (servedBy : string) (u : Usage) : T :=
  match bo_priceUsd o servedBy u with Some (Finite x) => if num_leb num_zero x then x else num_zero | _ => num_zero end.

Lemma debitable_price s servedBy u : (debitableUsd o s servedBy u).2 = debit_price servedBy u.
Proof. unfold debitableUsd, debit_price. by repeat case_match. Qed.

(** The usages a call has accumulated after each of its deltas. *)
Fixpoint accumulations (acc : Usage) (deltas : list RawUsage) : list Usage :=
  match deltas with
  | [] => []
  | d :: deltas => let acc := sumUsage acc (sanitizeUsageDelta d) in acc :: accumulations acc deltas
  end.

(** The highest of the prices, from what is already priced. *)
Definition highest (servedBy : string) (priced : T) (us : list Usage) : T :=
  foldl (fun p u => num_max p (debit_price servedBy u)) priced us.

Definition feed_all s (id : N) (deltas : list RawUsage) : RunBudget T :=
  foldl (fun s d => (feedMeter o s id d).1) s deltas.

Lemma feed_spec s id m delta :
  tree_ok (rb_accounts s) → rb_meters s !! id = Some m →
  let acc := sumUsage (cm_accumulated m) (sanitizeUsageDelta delta) in
  let priced := num_max (cm_priced m) (debit_price (cm_servedBy m) acc) in
  let s' := (feedMeter o s id delta).1 in
  evolves true true (rb_accounts s) (rb_accounts s') ∧
  rb_meters s' !! id = Some (mkMeter (cm_servedBy m) (cm_scope m) acc priced) ∧
  rb_usage s' = sumUsage (rb_usage s) (sanitizeUsageDelta delta) ∧
  ∀ x a, rb_accounts s !! x = Some a → ∃ a', rb_accounts s' !! x = Some a' ∧
    val (ac_spent a') == val (ac_spent a) +
      (if decide (x ∈ scopes_of (rb_accounts s) (cm_scope m)) then val priced - val (cm_priced m) else 0).
Proof.
  intros Ht Hm. cbn zeta. split_and!.
  - pose proof (run_op_evolves o parseDate s (op_feed id delta) Ht) as [? ? Hmv _]. split; [done|done| |done].
    intros x a (a' & ? & [])%Hmv. exists a'. split; [done|]. by split.
  - unfold feedMeter. rewrite Hm. set (s0 := with_usage_total s _). set (u := sumUsage (cm_accumulated m) _).
    rewrite <- (debitable_price s0). destruct (debitableUsd o s0 _ u) as [s1 usd]. cbn [snd].
    rewrite meters_debit. cbn. by rewrite lookup_insert_eq.
  - unfold feedMeter. rewrite Hm. set (s0 := with_usage_total s _). set (u := sumUsage (cm_accumulated m) _).
    pose proof (usage_debitable o s0 (cm_servedBy m) u) as Hu.
    destruct (debitableUsd o s0 _ u) as [s1 usd]. rewrite usage_debit. cbn in *. by rewrite Hu.
  - intros x a Ha. assert (charge_of o s (op_feed id delta) = Some (num_max num_zero (num_sub
      (debitableUsd o s (cm_servedBy m) (sumUsage (cm_accumulated m) (sanitizeUsageDelta delta))).2 (cm_priced m)),
      cm_scope m)) as Hch by (cbn; by rewrite Hm).
    destruct (run_charge o parseDate s _ _ _ Ht Hch x a Ha) as (a' & Ha' & _ & Hs). exists a'. split; [done|].
    rewrite Hs, debitable_price. case_decide; [|done]. num_lra.
Qed.

Lemma feed_all_spec s id m deltas :
  tree_ok (rb_accounts s) → is_Some (rb_accounts s !! cm_scope m) → rb_meters s !! id = Some m →
  let s' := feed_all s id deltas in
  rb_usage s' = foldl sumUsage (rb_usage s) (map sanitizeUsageDelta deltas) ∧
  ∀ x a, rb_accounts s !! x = Some a → ∃ a', rb_accounts s' !! x = Some a' ∧
    val (ac_spent a') == val (ac_spent a) +
      (if decide (x ∈ scopes_of (rb_accounts s) (cm_scope m))
       then val (highest (cm_servedBy m) (cm_priced m) (accumulations (cm_accumulated m) deltas)) - val (cm_priced m)
       else 0).
Proof.
  revert s m. induction deltas as [|d deltas IH]; intros s m Ht Hk Hm; cbn zeta.
  { cbn. split; [done|]. intros x a Ha. exists a. split; [done|]. case_decide; ring. }
  destruct (feed_spec s id m d Ht Hm) as (Hev & Hm' & Hu & Hs). set (s1 := (feedMeter o s id d).1) in *.
  assert (is_Some (rb_accounts s1 !! cm_scope m)) as Hk1.
  { destruct Hk as [b Hb]. destruct (ev_grows _ _ _ _ Hev _ b Hb) as (b' & ? & _). by exists b'. }
  destruct (IH s1 (mkMeter (cm_servedBy m) (cm_scope m) _ _) (ev_tree _ _ _ _ Hev) Hk1 Hm') as [IHu IHs].
  change (feed_all s id (d :: deltas)) with (feed_all s1 id deltas). cbn [map foldl accumulations] in *.
  split; [by rewrite IHu, Hu|]. intros x a Ha. destruct (Hs x a Ha) as (a1 & Ha1 & E1).
  destruct (IHs x a1 Ha1) as (a2 & Ha2 & E2). exists a2. split; [done|]. cbn -[highest] in E2. rewrite E2, E1.
  rewrite (scopes_grow _ _ _ Ht (ev_grows _ _ _ _ Hev) Hk). unfold highest. cbn [foldl].
  destruct (decide (x ∈ scopes_of (rb_accounts s) (cm_scope m))); ring.
Qed.

Lemma highest_above servedBy priced us :
  val priced <= val (highest servedBy priced us) ∧
  (∀ u, u ∈ us → val (debit_price servedBy u) <= val (highest servedBy priced us)) ∧
  (val (highest servedBy priced us) == val priced ∨
   ∃ u, u ∈ us ∧ val (highest servedBy priced us) == val (debit_price servedBy u)).
Proof.
  unfold highest. revert priced. induction us as [|u us IH]; intros priced; cbn [foldl].
  { split_and!; [lra|by intros ? ?%elem_of_nil|by left]. }
  destruct (IH (num_max priced (debit_price servedBy u))) as (I1 & I2 & I3). split_and!.
  - num_lra.
  - intros v [->|Hv]%elem_of_cons; [num_lra|by apply I2].
  - destruct I3 as [I3|(v & Hv & I3)]; [|right; exists v; split; [by right|done]].
    destruct (max_cases priced (debit_price servedBy u)) as [[E _]|[E _]]; [left; lra|right; exists u].
    split; [by left|lra].
Qed.
End Meters.

Lemma last_accumulation {T} `{Num T} (acc : Usage) deltas :
  deltas ≠ [] →
  last (accumulations acc deltas) = Some (foldl sumUsage acc (map sanitizeUsageDelta deltas)).
Proof.
  revert acc. induction deltas as [|d deltas IH]; intros acc; [done|]. intros _. cbn [accumulations map foldl].
  destruct deltas as [|d' deltas]; [done|]. rewrite last_cons, IH by done. done.
Qed.

