(* ===== verification/BudgetExamples.v ===== *)
(** * The run budget at concrete inputs (packages/core/src/engine/budget.ts)

    A budget of one dollar with two nested accounts, at which every theorem of the
    budget applies; and runs that show where the code and its documentation part. *)
From Stdlib Require Import QArith.
From S2P Require Import Prelude Num Json Entries Usage Pricing Budget BudgetTree BudgetInv BudgetLaws BudgetRuns BudgetExposure BudgetBounds.

#[local] Open Scope Q_scope.

(** A cent per output token, whatever the model. *)
Definition ex_priceUsd (_ : string) (u : Usage) : option (jsnum Q) := Some (Finite (Qred (outputTokens u # 100))).

Definition ex_row : RawPricing Q :=
  mkRawPricing (rate_number (Finite 0)) (rate_number (Finite 10000)) rate_absent rate_absent rate_absent None None.

Definition ex_options : BudgetOptions Q :=
  mkBudgetOptions (Some 1) (Some 2) false 500 ex_priceUsd (fun _ => Some ex_row) None ∅.

Definition ex_new : RunBudget Q :=
  mkBudget {[ROOT_ACCOUNT := root_account (Some 1) (num_of_Z 0)]} zero_usage 0 ∅ false (num_of_Z 0) ∅ 0 ∅ [] [] ∅ ∅ ∅.

Definition ex_date (_ : string) : option Z := None.

Lemma ex_built :
  newBudget (Some (Finite 1)) (Some (Finite 2)) None None ex_priceUsd (fun _ => Some ex_row) None None =
    Ok (ex_options, ex_new).
Proof. reflexivity. Qed.

Definition ex_outer : BudgetOp (T := Q) := op_open "outer" None (Some (Finite (1 # 2))) None None.
Definition ex_inner : BudgetOp (T := Q) := op_open "inner" (Some "outer") None None None.
Definition ex_state : RunBudget Q := run_ops ex_options ex_date ex_new [ex_outer; ex_inner].

Lemma ex_reachable : reachable ex_date ex_options ex_state.
Proof. apply reachable_run. eapply reach_new. exact ex_built. Qed.

Definition tokens (n : Z) : RawUsage :=
  mkRaw (Whole 0) (Whole n) (Whole 0) (Whole 0) Undefined Undefined Undefined.

(** ** The theorems apply *)

Lemma account_walk_terminates_witness :
  reachable ex_date ex_options ex_state ∧ is_ok (chainOf ex_state "inner") = true ∧
  match chainOf ex_state "inner" with
  | Ok chain =>
      (∃ rest, map ac_scope chain = "inner" :: rest) ∧ last (map ac_scope chain) = Some ROOT_ACCOUNT ∧
      NoDup (map ac_scope chain) ∧ (∀ a, a ∈ chain → rb_accounts ex_state !! ac_scope a = Some a)
  | Err e => e = unknown_account "inner" ∧ rb_accounts ex_state !! "inner" = None
  end.
Proof.
  split_and!; [exact ex_reachable|vm_compute; reflexivity|].
  exact (account_walk_terminates ex_date ex_options ex_state "inner" ex_reachable).
Defined.

Lemma admission_spec_witness :
  reachable ex_date ex_options ex_state ∧
  (admitSpawn ex_options ex_state (Finite (1 # 2)) "inner").2 = Ok tt ∧
  (admitSpawn ex_options ex_state (Finite (3 # 4)) "inner").2 = Err (ceiling_reached "outer") ∧
  let s' := (admitSpawn ex_options ex_state (Finite (3 # 4)) "inner").1 in
  match (admitSpawn ex_options ex_state (Finite (3 # 4)) "inner").2 with
  | Ok _ => True
  | Err e => rb_accounts s' = rb_accounts ex_state ∧ rb_spawned s' = rb_spawned ex_state ∧
      refusal_reason ex_options ex_state (Finite (3 # 4)) "inner" e
  end.
Proof.
  split_and!; [exact ex_reachable|vm_compute; reflexivity..|].
  pose proof (admission_spec ex_options ex_date ex_state (Finite (3 # 4)) "inner" ex_reachable) as Hs.
  cbn zeta in Hs |- *. destruct (admitSpawn ex_options ex_state (Finite (3 # 4)) "inner").2; [exact I|exact Hs].
Defined.

Definition ex_admitted : RunBudget Q := (admitSpawn ex_options ex_state (Finite (1 # 4)) "inner").1.

Lemma ex_ledger_run :
  rtc (reserve_step ex_options ex_date) (ex_new, []) (ex_admitted, [(1 # 4, "inner")]).
Proof.
  assert (admitSpawn ex_options ex_state (Finite (1 # 4)) "inner" = (ex_admitted, Ok tt)) as Ha.
  { apply injective_projections; [reflexivity|]. vm_compute. reflexivity. }
  apply (rtc_l _ _ (run_op ex_options ex_date ex_new ex_outer, [])); [by apply rs_other|].
  apply (rtc_l _ _ (ex_state, [])).
  - exact (rs_other ex_options ex_date (run_op ex_options ex_date ex_new ex_outer) [] ex_inner eq_refl).
  - apply (rtc_l _ _ (ex_admitted, [(1 # 4, "inner")])); [|apply rtc_refl]. by apply rs_admit.
Qed.

Lemma reserves_are_conserved_witness :
  rtc (reserve_step ex_options ex_date) (ex_new, []) (ex_admitted, [(1 # 4, "inner")]) ∧
  ∀ x a, rb_accounts ex_admitted !! x = Some a →
    val (ac_committed a) == owed (rb_accounts ex_admitted) [(1 # 4, "inner")] x.
Proof.
  split; [exact ex_ledger_run|].
  exact (reserves_are_conserved ex_date _ _ _ _ _ _ _ _ ex_options ex_new ex_admitted _ ex_built ex_ledger_run).
Defined.

(** A turn on the inner account that costs eighty cents passes the outer ceiling of
    fifty. *)
Definition ex_call : BudgetOp (T := Q) := op_usage (tokens 80) "model" "inner".
Definition ex_overshot : RunBudget Q := run_op ex_options ex_date ex_state ex_call.

Lemma ex_turn_run :
  turn_run ex_options ex_date 1 "outer" 1 ex_state (ex_overshot, [mkTurn "inner" (0 + (4 # 5))]).
Proof.
  assert (beforeTurn ex_state "inner" = (ex_state, Ok tt)) as Hb.
  { apply injective_projections; [reflexivity|]. vm_compute. reflexivity. }
  apply (tr_step _ _ _ _ _ _ ex_state [mkTurn "inner" 0]).
  - apply (tr_step _ _ _ _ _ _ ex_state []); [apply tr_start|by apply ts_begin|vm_compute; lia].
  - refine (ts_charge ex_options ex_date 1 ex_state [] (mkTurn "inner" 0) [] ex_call (4 # 5) _ _).
    + vm_compute. reflexivity.
    + vm_compute. discriminate.
  - vm_compute. lia.
Qed.

Lemma ex_outer_account : ∃ a, rb_accounts ex_state !! "outer" = Some a ∧ ac_ceiling a = Some (1 # 2) ∧
  ac_kind a ≠ Some child_allowance.
Proof. by eexists. Qed.


(** A dispatch of a hundred planned tokens that uses sixty. *)
Definition ex_taken : RunBudget Q := (reserveTurnExposure ex_options ex_new 7 "model" 0 100 (Some "agent")).1.
Definition ex_charge : BudgetOp (T := Q) := op_usage (tokens 60) "model" ROOT_ACCOUNT.
Definition ex_dispatch (charged : Q) : Dispatch :=
  mkDispatch 7 (exposure_estimate ex_options "model" 0 100) (Some "agent") charged.

Lemma ex_exposure_run :
  rtc (exposure_step ex_options ex_date) (ex_new, [], ∅)
    (run_op ex_options ex_date ex_taken ex_charge, [ex_dispatch (0 + (3 # 5))], ∅).
Proof.
  apply (rtc_l _ _ (ex_taken, [ex_dispatch 0], ∅)).
  - apply es_take; [reflexivity|set_solver|]. apply injective_projections; [reflexivity|]. vm_compute. reflexivity.
  - eapply rtc_l; [|apply rtc_refl].
    refine (es_charge ex_options ex_date ex_taken [] (ex_dispatch 0) [] ∅ ex_charge (3 # 5) ROOT_ACCOUNT _ _).
    + vm_compute. reflexivity.
    + vm_compute. discriminate.
Qed.

Lemma exposure_cap_holds_witness :
  let s := run_op ex_options ex_date ex_taken ex_charge in
  let ds := [ex_dispatch (0 + (3 # 5))] in
  val (rb_inFlight s) == sumq est ds ∧
  val (ac_spent (root_of s)) + sumq unspent ds <= val (num_max 2 (ac_spent (root_of ex_new))) ∧
  0 <= sumq unspent ds.
Proof.
  exact (exposure_cap_holds ex_date _ _ _ _ _ _ _ _ ex_options ex_new 2 _ _ _ ex_built eq_refl ex_exposure_run).
Defined.


(** ** Where the documentation and the code part *)

(** The diagnostics name the layer-one closure test, but they do not count the holds:
    an account a synthesis hold fills refuses every spawn, and no account is closed. *)
Example diagnostics_omit_the_holds :
  let s := (commitSynthesisReserve ex_state "outer" (1 # 2)).1 in
  (admitSpawn ex_options s (Finite 0) "outer").2 = Err (ceiling_reached "outer") ∧
  (exhaustionDiagnostics s "outer").1 = None.
Proof. split; vm_compute; reflexivity. Qed.

(** The finalize reserve of the root is the greatest of the accounts', and a release
    of one account zeroes it while another still holds its own. *)
Example finalize_release_forgets_the_others :
  let s := (commitFinalizeReserve ex_state "outer" (1 # 4)).1 in
  let s := (commitFinalizeReserve s "inner" (1 # 8)).1 in
  let s := releaseFinalizeReserve s "inner" in
  ac_finalize (root_of s) = num_of_Z 0 ∧ (ac_finalize <$> rb_accounts s !! "outer") = Some (1 # 4).
Proof. split; vm_compute; reflexivity. Qed.

(** The allowance headroom ignores the holds admission counts. *)
Example headroom_ignores_the_holds :
  let s := run_op ex_options ex_date ex_new (op_open "child" None (Some (Finite (1 # 2))) None (Some child_allowance)) in
  let s := (commitSynthesisReserve s "child" (1 # 2)).1 in
  allowanceHeadroomOf s "child" = Ok (Some (1 # 2)) ∧ remainderOf s "child" = Some (num_of_Z 0).
Proof. split; vm_compute; reflexivity. Qed.

(** A raised allowance has room again, and its signal stays aborted. *)
Example raised_allowance_stays_aborted :
  let s := run_op ex_options ex_date ex_new (op_open "child" None (Some (Finite (1 # 2))) None (Some child_allowance)) in
  let s := (onUsage ex_options s (tokens 60) "model" "child").1 in
  let s := (raiseChildAllowance s "child" (Finite 1)).1 in
  (beforeTurn s "child").2 = Ok tt ∧ signalOf s "child" = Some true.
Proof. split; vm_compute; reflexivity. Qed.
