(* ===== verification/Quota.v ===== *)
(** * The quota limiter (packages/core/src/model/quota.ts)

    Rules, their canonical key, the admission arithmetic the reference limiters share,
    and the in-process limiter over fixed one-minute windows.  A rule set is given as
    the JSON of a configuration; message texts of refusals at construction are left
    out, the reasons of denials are kept apart as constructors. *)
From S2P Require Import Prelude Json Identity Usage Entries.

Definition QUOTA_WINDOW_MS : Z := 60000.
Definition DEFAULT_MAX_QUOTA_DENIALS : Z := 8.

(** ** Rules *)

Inductive Dimension :=
  | dm_provider | dm_model | dm_tenant
  | dm_account | dm_project | dm_legalDomain | dm_region | dm_providerAccount | dm_sponsor.

Definition RULE_SCOPE_DIMENSIONS : list Dimension :=
  [dm_account; dm_project; dm_legalDomain; dm_region; dm_providerAccount; dm_sponsor].
Definition DIMENSIONS : list Dimension := [dm_provider; dm_model; dm_tenant] ++ RULE_SCOPE_DIMENSIONS.

Definition dimension_name (d : Dimension) : string :=
  match d with
  | dm_provider => "provider"
  | dm_model => "model"
  | dm_tenant => "tenant"
  | dm_account => "account"
  | dm_project => "project"
  | dm_legalDomain => "legalDomain"
  | dm_region => "region"
  | dm_providerAccount => "providerAccount"
  | dm_sponsor => "sponsor"
  end.

Record QuotaRule := mkRule {
  qr_provider : option string;
  qr_model : option string;
  qr_tenant : option string;
  qr_account : option string;
  qr_project : option string;
  qr_legalDomain : option string;
  qr_region : option string;
  qr_providerAccount : option string;
  qr_sponsor : option string;
  qr_requestsPerMinute : option Z;
  qr_tokensPerMinute : option Z;
}.

Definition pin (r : QuotaRule) (d : Dimension) : option string :=
  match d with
  | dm_provider => qr_provider r
  | dm_model => qr_model r
  | dm_tenant => qr_tenant r
  | dm_account => qr_account r
  | dm_project => qr_project r
  | dm_legalDomain => qr_legalDomain r
  | dm_region => qr_region r
  | dm_providerAccount => qr_providerAccount r
  | dm_sponsor => qr_sponsor r
  end.

Inductive QuotaError :=
  | not_an_array
  | no_rules
  | not_a_rule (index : nat)
  | bad_dimension (index : nat) (d : Dimension)
  | no_cap (index : nat)
  | bad_cap (index : nat) (requests : bool)
  | duplicate_rule (index first : nat).

(** An absent member, or one whose value is [undefined]. *)
Definition dimension_ok (r : record) (d : Dimension) : bool :=
  match prop r (dimension_name d) with
  | None => true
  | Some (JStr s) => negb (bool_decide (s = ""))
  | Some _ => false
  end.

Definition cap_ok (v : option json) : bool :=
  match v with None => true | Some (JNum n) => (1 <=? n)%Z | Some _ => false end.

Definition validate_rule (index : nat) (entry : json) : result QuotaError unit :=
  match entry with
  | JObj r =>
      match find_first (fun d => negb (dimension_ok r d)) DIMENSIONS with
      | Some d => Err (bad_dimension index d)
      | None =>
          match prop r "requestsPerMinute", prop r "tokensPerMinute" with
          | None, None => Err (no_cap index)
          | requests, tokens =>
              if negb (cap_ok requests) then Err (bad_cap index true)
              else if negb (cap_ok tokens) then Err (bad_cap index false)
              else Ok tt
          end
      end
  | _ => Err (not_a_rule index)
  end.

Fixpoint validate_from (index : nat) (entries : list json) : result QuotaError unit :=
  match entries with
  | [] => Ok tt
  | entry :: entries => _ ← validate_rule index entry; validate_from (S index) entries
  end.

Definition validateQuotaRules (raw : json) : result QuotaError unit :=
  match raw with
  | JArr [] => Err no_rules
  | JArr entries => validate_from 0 entries
  | _ => Err not_an_array
  end.

(** The fields of a validated rule: the known ones, each present only when given. *)
Definition copy_rule (r : record) : QuotaRule :=
  let text d := as_string (prop r (dimension_name d)) in
  let cap k := match prop r k with Some (JNum n) => Some n | _ => None end in
  mkRule (text dm_provider) (text dm_model) (text dm_tenant) (text dm_account) (text dm_project)
    (text dm_legalDomain) (text dm_region) (text dm_providerAccount) (text dm_sponsor)
    (cap "requestsPerMinute") (cap "tokensPerMinute").

(** [JSON.stringify] of a string, an integer or [null]. *)
Definition print_text (v : option string) : string := match v with None => "null" | Some s => stringify_string s end.
Definition print_cap (v : option Z) : string := match v with None => "null" | Some n => stringify_int n end.

Definition key_member (name value : string) : string := stringify_string name +:+ ":" +:+ value.

Definition key_members (rule : QuotaRule) : list (string * string) :=
  map (fun d => (dimension_name d, print_text (pin rule d))) [dm_provider; dm_model; dm_tenant] ++
  omap (fun d => v ← pin rule d; Some (dimension_name d, stringify_string v)) RULE_SCOPE_DIMENSIONS ++
  [("requestsPerMinute", print_cap (qr_requestsPerMinute rule)); ("tokensPerMinute", print_cap (qr_tokensPerMinute rule))].

Definition quotaRuleKey (rule : QuotaRule) : string :=
  "{" +:+ join_with comma (map (fun m => key_member m.1 m.2) (key_members rule)) +:+ "}".

(** The first rule with the key of a later one. *)
Fixpoint first_duplicate (seen : gmap string nat) (index : nat) (rules : list QuotaRule) : option (nat * nat) :=
  match rules with
  | [] => None
  | rule :: rules =>
      match seen !! quotaRuleKey rule with
      | Some first => Some (index, first)
      | None => first_duplicate (<[quotaRuleKey rule := index]> seen) (S index) rules
      end
  end.

Definition snapshotQuotaRules (raw : json) : result QuotaError (list QuotaRule) :=
  _ ← validateQuotaRules raw;
  let rules := map (fun e => copy_rule (default [] (asRecord (Some e)))) (default [] (as_array (Some raw))) in
  match first_duplicate ∅ 0 rules with
  | Some (index, first) => Err (duplicate_rule index first)
  | None => Ok rules
  end.

(** ** Admission arithmetic *)

(** A request as the limiter reads it: its dimensions, the scope's among them, and
    the estimate. *)
Record QuotaEstimate := mkEstimate { es_requests : Z; es_inputTokens : Z; es_maxOutputTokens : option Z }.

Record QuotaReservationRequest := mkRequest {
  rq_provider : string;
  rq_model : string;
  rq_tenant : option string;
  rq_scope : Dimension → option string;
  rq_estimate : QuotaEstimate;
}.

Definition request_value (request : QuotaReservationRequest) (d : Dimension) : option string :=
  match d with
  | dm_provider => Some (rq_provider request)
  | dm_model => Some (rq_model request)
  | dm_tenant => rq_tenant request
  | d => rq_scope request d
  end.

Definition pin_matches (rule : QuotaRule) (request : QuotaReservationRequest) (d : Dimension) : bool :=
  match pin rule d with None => true | Some v => bool_decide (Some v = request_value request d) end.

Definition quotaRuleMatches (rule : QuotaRule) (request : QuotaReservationRequest) : bool :=
  forallb (pin_matches rule request) DIMENSIONS.

Arguments quotaRuleMatches : simpl never.

Definition quotaEstimateTokens (request : QuotaReservationRequest) : Z :=
  (es_inputTokens (rq_estimate request) + default 0 (es_maxOutputTokens (rq_estimate request)))%Z.

Definition quotaActualTokens (usage : Usage) : Z := (inputTokens usage + outputTokens usage)%Z.

Definition quotaActualRequestsDelta (actual : option raw) : Z :=
  match actual with Some (Whole requests) => if (1 <? requests)%Z then (requests - 1)%Z else 0%Z | _ => 0%Z end.

Record QuotaCounters := mkCounters { qc_requests : Z; qc_tokens : Z }.

Inductive DenialReason :=
  | requests_exhausted (cap : Z)
  | never_fits (tokens cap : Z)
  | tokens_exhausted (cap : Z).

Record QuotaDenial := mkDenial { dn_retryAfterMs : Z; dn_reason : DenialReason }.

(** [None] admits. *)
Definition quotaRuleAdmission (rule : QuotaRule) (counters estimate : QuotaCounters) (msUntilWindowEnd : Z)
    : option QuotaDenial :=
  let requests_fit :=
    match qr_requestsPerMinute rule with
    | Some cap => if (cap <? qc_requests counters + qc_requests estimate)%Z
                  then Some (mkDenial msUntilWindowEnd (requests_exhausted cap)) else None
    | None => None
    end in
  match requests_fit, qr_tokensPerMinute rule with
  | Some denial, _ => Some denial
  | None, None => None
  | None, Some cap =>
      if (cap <? qc_tokens estimate)%Z then Some (mkDenial 0 (never_fits (qc_tokens estimate) cap))
      else if (cap <? qc_tokens counters + qc_tokens estimate)%Z
      then Some (mkDenial msUntilWindowEnd (tokens_exhausted cap))
      else None
  end.

Definition mergeQuotaDenial (current : option QuotaDenial) (next : QuotaDenial) : QuotaDenial :=
  match current with
  | None => next
  | Some current =>
      if (dn_retryAfterMs current <? dn_retryAfterMs next)%Z
      then mkDenial (dn_retryAfterMs next) (dn_reason current) else current
  end.

(** ** The limiter

    Over any type of bucket keys: the in-process limiter keys a bucket by the index of
    its rule. *)

Record MemoryBucket := mkBucket { mb_windowStart : Z; mb_requests : Z; mb_tokens : Z }.

Section Limiter.
Context {K : Type} `{Countable K}.

Record MemoryReservation := mkReservation {
  mr_windowStart : Z;
  mr_estimateTokens : Z;
  mr_requests : Z;
  mr_keys : list K;
}.

Record Limiter := mkLimiter {
  ql_buckets : gmap K MemoryBucket;
  ql_reservations : gmap string MemoryReservation;
  ql_next : N;
}.

Definition empty_limiter : Limiter := mkLimiter ∅ ∅ 0.

Inductive QuotaDecision := granted (reservationId : string) | refused (denial : QuotaDenial).

Definition windowStartAt (at_ : Z) : Z := (at_ - Z.rem at_ QUOTA_WINDOW_MS)%Z.

Definition bucketFor (buckets : gmap K MemoryBucket) (k : K) (windowStart : Z) : gmap K MemoryBucket * MemoryBucket :=
  match buckets !! k with
  | Some bucket =>
      if (mb_windowStart bucket =? windowStart)%Z then (buckets, bucket)
      else let bucket := mkBucket windowStart 0 0 in (<[k := bucket]> buckets, bucket)
  | None => let bucket := mkBucket windowStart 0 0 in (<[k := bucket]> buckets, bucket)
  end.

Definition prune (reservations : gmap string MemoryReservation) (windowStart : Z) : gmap string MemoryReservation :=
  filter (fun p => (mr_windowStart p.2 <? windowStart)%Z = false) reservations.

(** The scan of the rules in canonical order. *)
Definition Scan : Type := gmap K MemoryBucket * list K * option QuotaDenial.

Definition scan_rule (request : QuotaReservationRequest) (windowStart msUntilWindowEnd : Z) (sc : Scan)
    (row : QuotaRule * K) : Scan :=
  let '(buckets, matched, denial) := sc in
  let '(rule, k) := row in
  if quotaRuleMatches rule request then
    let '(buckets, bucket) := bucketFor buckets k windowStart in
    let verdict := quotaRuleAdmission rule (mkCounters (mb_requests bucket) (mb_tokens bucket))
                     (mkCounters (es_requests (rq_estimate request)) (quotaEstimateTokens request)) msUntilWindowEnd in
    (buckets, matched ++ [k],
     match verdict with None => denial | Some d => Some (mergeQuotaDenial denial d) end)
  else sc.

Definition debit_bucket (requests tokens windowStart : Z) (buckets : gmap K MemoryBucket) (k : K)
    : gmap K MemoryBucket :=
  let '(buckets, bucket) := bucketFor buckets k windowStart in
  <[k := mkBucket (mb_windowStart bucket) (mb_requests bucket + requests)%Z (mb_tokens bucket + tokens)%Z]> buckets.

Definition reservation_id (n : N) : string := "mq-" +:+ dec_of_N n.

Definition reserve (ordered : list (QuotaRule * K)) (s : Limiter) (request : QuotaReservationRequest) (at_ : Z)
    : Limiter * QuotaDecision :=
  let windowStart := windowStartAt at_ in
  let reservations := prune (ql_reservations s) windowStart in
  let tokens := quotaEstimateTokens request in
  let requests := es_requests (rq_estimate request) in
  let '(buckets, matched, denial) :=
    foldl (scan_rule request windowStart (windowStart + QUOTA_WINDOW_MS - at_)%Z) (ql_buckets s, [], None) ordered in
  match denial with
  | Some denial => (mkLimiter buckets reservations (ql_next s), refused denial)
  | None =>
      let buckets := foldl (debit_bucket requests tokens windowStart) buckets matched in
      let next := (ql_next s + 1)%N in
      (mkLimiter buckets (<[reservation_id next := mkReservation windowStart tokens requests matched]> reservations) next,
       granted (reservation_id next))
  end.

(** Settling writes to a bucket only in the reservation's own window. *)
Definition settle_bucket (f : MemoryBucket → MemoryBucket) (windowStart : Z) (buckets : gmap K MemoryBucket) (k : K)
    : gmap K MemoryBucket :=
  match buckets !! k with
  | Some bucket => if (mb_windowStart bucket =? windowStart)%Z then <[k := f bucket]> buckets else buckets
  | None => buckets
  end.

Definition settle_reservation (f : MemoryReservation → MemoryBucket → MemoryBucket) (s : Limiter) (reservationId : string) (at_ : Z)
    : Limiter :=
  match ql_reservations s !! reservationId with
  | None => s
  | Some reservation =>
      let reservations := delete reservationId (ql_reservations s) in
      let windowStart := windowStartAt at_ in
      if (mr_windowStart reservation =? windowStart)%Z
      then mkLimiter (foldl (settle_bucket (f reservation) windowStart) (ql_buckets s) (mr_keys reservation))
             reservations (ql_next s)
      else mkLimiter (ql_buckets s) reservations (ql_next s)
  end.

Definition reconcile_bucket (usage : Usage) (actual : option raw) (reservation : MemoryReservation)
    (bucket : MemoryBucket) : MemoryBucket :=
  mkBucket (mb_windowStart bucket) (mb_requests bucket + quotaActualRequestsDelta actual)%Z
    (Z.max 0 (mb_tokens bucket + (quotaActualTokens usage - mr_estimateTokens reservation)))%Z.

Definition reconcile (s : Limiter) (reservationId : string) (usage : Usage) (actual : option raw) (at_ : Z) : Limiter :=
  settle_reservation (reconcile_bucket usage actual) s reservationId at_.

Definition release_bucket (reservation : MemoryReservation) (bucket : MemoryBucket) : MemoryBucket :=
  mkBucket (mb_windowStart bucket) (Z.max 0 (mb_requests bucket - mr_requests reservation))%Z
    (Z.max 0 (mb_tokens bucket - mr_estimateTokens reservation))%Z.

Definition release (s : Limiter) (reservationId : string) (at_ : Z) : Limiter :=
  settle_reservation release_bucket s reservationId at_.

(** The counters of a rule's bucket in the current window. *)
Definition window_counters (s : Limiter) (k : K) (at_ : Z) : QuotaCounters :=
  match ql_buckets s !! k with
  | Some bucket =>
      if (mb_windowStart bucket =? windowStartAt at_)%Z then mkCounters (mb_requests bucket) (mb_tokens bucket)
      else mkCounters 0 0
  | None => mkCounters 0 0
  end.

Definition snapshot (rows : list (QuotaRule * K)) (s : Limiter) (at_ : Z) : list (QuotaRule * Z * QuotaCounters) :=
  map (fun row => (row.1, windowStartAt at_, window_counters s row.2 at_)) rows.
End Limiter.

Arguments Limiter K {_ _}.
Arguments MemoryReservation K : clear implicits.

(** ** The in-process instance *)

(** A sort by key; equal keys keep their order. *)
Fixpoint insert_rule {A} (row : string * A) (rows : list (string * A)) : list (string * A) :=
  match rows with
  | [] => [row]
  | r :: rs => if String.leb row.1 r.1 then row :: rows else r :: insert_rule row rs
  end.

Definition sort_rules {A} (rows : list (string * A)) : list (string * A) := foldr insert_rule [] rows.

(** The rules in canonical order, each with the key of its bucket. *)
Definition canonical_order (rules : list QuotaRule) : list (QuotaRule * nat) :=
  snd <$> sort_rules (imap (fun index rule => (quotaRuleKey rule, (rule, index))) rules).

Definition memoryQuotaLimiter (raw : json) : result QuotaError (list (QuotaRule * nat) * Limiter nat) :=
  rules ← snapshotQuotaRules raw; Ok (canonical_order rules, empty_limiter).
