(* ===== verification/QuotaKey.v ===== *)
(** * The canonical key of a quota rule (packages/core/src/model/quota.ts)

    Two rules with one key are one rule, and the canonical order of a rule set does
    not depend on the order it is declared in. *)
From stdpp Require Import sorting.
From S2P Require Import Prelude Json Identity Usage Entries Quota.

(** ** JSON strings are a prefix code *)

Definition all_chars : list ascii := map ascii_of_N (map N.of_nat (seq 0 256)).

Lemma all_chars_spec c : c ∈ all_chars.
Proof.
  unfold all_chars. rewrite <- (ascii_N_embedding c). apply list_elem_of_fmap_2, list_elem_of_fmap.
  exists (N.to_nat (N_of_ascii c)). rewrite N2Nat.id. split; [done|]. apply elem_of_seq.
  pose proof (N_ascii_bounded c). lia.
Qed.

(** No escape of a code unit begins another, or with a quote. *)
Lemma escapes_checked :
  forallb (fun a => negb (starts_with (String dquote "") (escape_char a)) && negb (bool_decide (escape_char a = "")) &&
    forallb (fun b => negb (starts_with (escape_char a) (escape_char b)) || bool_decide (a = b)) all_chars) all_chars = true.
Proof. vm_compute. reflexivity. Qed.

Lemma escape_char_code a :
  escape_char a ≠ "" ∧ (∀ t, escape_char a ≠ String dquote t) ∧
  ∀ b, starts_with (escape_char a) (escape_char b) = true → a = b.
Proof.
  pose proof escapes_checked as Hc. rewrite forallb_forall in Hc.
  specialize (Hc a ltac:(apply list_elem_of_In, all_chars_spec)).
  apply andb_true_iff in Hc as [Hc Hb]. apply andb_true_iff in Hc as [Hq He]. split_and!.
  - intros E. by rewrite E in He.
  - intros t E. rewrite E in Hq. cbn in Hq. done.
  - intros b Hs. rewrite forallb_forall in Hb. specialize (Hb b ltac:(apply list_elem_of_In, all_chars_spec)).
    rewrite Hs in Hb. cbn in Hb. by apply bool_decide_eq_true in Hb.
Qed.

Lemma app_inj_prefix s t u v : s +:+ u = t +:+ v → starts_with s t = true ∨ starts_with t s = true.
Proof.
  revert t. induction s as [|a s IH]; intros t Heq; [by left|]. destruct t as [|b t]; [by right|].
  cbn in Heq. injection Heq as -> Heq. cbn. rewrite !Ascii.eqb_refl. by apply IH.
Qed.

Lemma append_inj_l s u v : s +:+ u = s +:+ v → u = v.
Proof. induction s as [|a s IH]; cbn; [done|]. intros [=]. auto. Qed.

Lemma escape_char_inj a b u v : escape_char a +:+ u = escape_char b +:+ v → a = b ∧ u = v.
Proof.
  intros Heq. assert (a = b) as ->; [|split; [done|by eapply append_inj_l]].
  destruct (app_inj_prefix _ _ _ _ Heq) as [Hs|Hs]; [|symmetry]; by apply escape_char_code.
Qed.

Lemma escape_inj a b u v : escape a +:+ String dquote u = escape b +:+ String dquote v → a = b ∧ u = v.
Proof.
  revert b. induction a as [|x a IH]; intros [|y b]; cbn [escape].
  - intros [= ->]. done.
  - rewrite append_assoc. intros Heq. destruct (escape_char_code y) as (Hne & Hq & _).
    destruct (escape_char y) as [|c r] eqn:E; [done|]. cbn in Heq. injection Heq as <- _. by destruct (Hq r).
  - rewrite append_assoc. intros Heq. destruct (escape_char_code x) as (Hne & Hq & _).
    destruct (escape_char x) as [|c r] eqn:E; [done|]. cbn in Heq. injection Heq as -> _. by destruct (Hq r).
  - rewrite !append_assoc. intros [<- Heq]%escape_char_inj. by apply IH in Heq as [-> ->].
Qed.

Lemma stringify_inj a b u v : stringify_string a +:+ u = stringify_string b +:+ v → a = b ∧ u = v.
Proof. unfold stringify_string. rewrite !append_cons, !append_assoc. intros [=]. by apply escape_inj. Qed.

(** ** Printed values end where a member ends *)

Definition ender (c : ascii) : bool := bool_decide (c = ","%char) || bool_decide (c = "}"%char).

Lemma digits_inj d e c u c' v :
  str_forall is_digit d = true → str_forall is_digit e = true → is_digit c = false → is_digit c' = false →
  d +:+ String c u = e +:+ String c' v → d = e ∧ String c u = String c' v.
Proof.
  intros Hd. revert e. induction d as [|x d IH]; intros [|y e] He Hc Hc'; cbn in *.
  - done.
  - intros [= -> _]. apply andb_true_iff in He as [He _]. congruence.
  - intros [= -> _]. apply andb_true_iff in Hd as [Hd _]. congruence.
  - intros [= -> Heq]. apply andb_true_iff in Hd as [_ Hd], He as [_ He]. by apply IH in Heq as [-> ->].
Qed.

Lemma ender_no_digit c : ender c = true → is_digit c = false.
Proof. unfold ender. rewrite orb_true_iff, !bool_decide_eq_true. by intros [-> | ->]. Qed.

Lemma int_digits n : str_forall is_digit (dec_of_N n) = true.
Proof. apply dec_of_N_digits. Qed.

Lemma cap_inj m n c u c' v :
  ender c = true → ender c' = true → stringify_int m +:+ String c u = stringify_int n +:+ String c' v →
  m = n ∧ String c u = String c' v.
Proof.
  intros He He'. pose proof (ender_no_digit c He) as Hc. pose proof (ender_no_digit c' He') as Hc'.
  unfold stringify_int.
  assert (∀ k d w, dec_of_N k +:+ w = String "-" d → ∃ w', w = String "-" w') as Hminus.
  { intros k d w Heq. pose proof (int_digits k) as Hd. destruct (dec_of_N k) as [|x r]; [by exists d|].
    cbn in Heq, Hd. injection Heq as -> _. done. }
  destruct (Z.ltb_spec m 0) as [Hm|Hm], (Z.ltb_spec n 0) as [Hn|Hn]; cbn [String.append]; intros Heq.
  - injection Heq as Heq. apply digits_inj in Heq as [E ->]; [|apply int_digits|apply int_digits|done|done].
    apply (inj dec_of_N) in E. split; [lia|done].
  - symmetry in Heq. apply Hminus in Heq as [w Heq]. injection Heq as -> _. done.
  - apply Hminus in Heq as [w Heq]. injection Heq as -> _. done.
  - apply digits_inj in Heq as [E ->]; [|apply int_digits|apply int_digits|done|done].
    apply (inj dec_of_N) in E. split; [lia|done].
Qed.

(** A printed value: [null], a string or an integer. *)
Inductive KeyValue := kv_null | kv_text (s : string) | kv_num (n : Z).

Definition print_kv (v : KeyValue) : string :=
  match v with kv_null => "null" | kv_text s => stringify_string s | kv_num n => stringify_int n end.

Lemma int_head n c u : ender c = true → ∃ x w, stringify_int n +:+ String c u = String x w ∧ x ≠ dquote ∧ x ≠ "n"%char.
Proof.
  intros Hc. unfold stringify_int. destruct (n <? 0)%Z; [by eexists _, _|]. pose proof (int_digits (Z.abs_N n)) as Hd.
  destruct (dec_of_N (Z.abs_N n)) as [|x r].
  - eexists _, _. split; [done|]. unfold ender in Hc. apply orb_true_iff in Hc.
    rewrite !bool_decide_eq_true in Hc. by destruct Hc as [-> | ->].
  - eexists _, _. split; [done|]. cbn in Hd. apply andb_true_iff in Hd as [Hd _]. by split; intros ->.
Qed.

Lemma kv_inj a b c u c' v :
  ender c = true → ender c' = true → print_kv a +:+ String c u = print_kv b +:+ String c' v →
  a = b ∧ String c u = String c' v.
Proof.
  intros Hc Hc'. destruct a as [|s|n], b as [|s'|n']; cbn [print_kv].
  - intros [= -> ->]. done.
  - done.
  - destruct (int_head n' c' v Hc') as (x & w & -> & _ & Hn). intros [= <-]. done.
  - done.
  - by intros [-> ->]%stringify_inj.
  - destruct (int_head n' c' v Hc') as (x & w & -> & Hn & _). cbn. intros [= <-]. done.
  - destruct (int_head n c u Hc) as (x & w & -> & _ & Hn). intros [= ->]. done.
  - destruct (int_head n c u Hc) as (x & w & -> & Hn & _). cbn. intros [= ->]. done.
  - by intros [-> ->]%cap_inj.
Qed.

(** ** Members *)

Definition print_member (m : string * KeyValue) : string := key_member m.1 (print_kv m.2).
Definition print_members (ms : list (string * KeyValue)) : string := join_with comma (map print_member ms) +:+ "}".

Lemma print_members_cons m ms :
  ∃ c u, ender c = true ∧ print_members (m :: ms) = print_member m +:+ String c u ∧
    String c u = (if decide (ms = []) then "}" else String comma (print_members ms)).
Proof.
  unfold print_members. cbn [map]. destruct ms as [|m' ms].
  - exists "}"%char, "". by rewrite decide_True.
  - exists comma, (print_members (m' :: ms)). rewrite decide_False by done. split_and!; [done| |done].
    unfold print_members. cbn [map]. rewrite join_with_cons by done. by rewrite append_assoc.
Qed.

Lemma print_member_inj m m' c u c' v :
  ender c = true → ender c' = true → print_member m +:+ String c u = print_member m' +:+ String c' v →
  m = m' ∧ String c u = String c' v.
Proof.
  intros Hc Hc'. unfold print_member, key_member. rewrite !append_assoc. intros [Hk Heq]%stringify_inj.
  cbn in Heq. injection Heq as Heq. apply kv_inj in Heq as [Hv ->]; [|done..]. destruct m, m'. cbn in *. by subst.
Qed.

Lemma print_members_inj ms ms' : ms ≠ [] → ms' ≠ [] → print_members ms = print_members ms' → ms = ms'.
Proof.
  revert ms'. induction ms as [|m ms IH]; intros [|m' ms'] Hne Hne'; [done..|].
  destruct (print_members_cons m ms) as (c & u & Hc & -> & Hu), (print_members_cons m' ms') as (c' & v & Hc' & -> & Hv).
  intros [-> Heq]%print_member_inj; [|done..]. rewrite Hu, Hv in Heq. f_equal.
  repeat case_decide; subst; try done. injection Heq as Heq. by apply IH.
Qed.

(** ** Rules *)

Definition kv_pin (v : option string) : KeyValue := match v with None => kv_null | Some s => kv_text s end.
Definition kv_cap (v : option Z) : KeyValue := match v with None => kv_null | Some n => kv_num n end.

Definition pinned (rule : QuotaRule) (ds : list Dimension) : list (string * KeyValue) :=
  omap (fun d => v ← pin rule d; Some (dimension_name d, kv_text v)) ds.

Definition rule_members (rule : QuotaRule) : list (string * KeyValue) :=
  map (fun d => (dimension_name d, kv_pin (pin rule d))) [dm_provider; dm_model; dm_tenant] ++
  pinned rule RULE_SCOPE_DIMENSIONS ++
  [("requestsPerMinute", kv_cap (qr_requestsPerMinute rule)); ("tokensPerMinute", kv_cap (qr_tokensPerMinute rule))].

Lemma pinned_printed rule ds :
  map (fun m => (m.1, print_kv m.2)) (pinned rule ds) =
  omap (fun d => v ← pin rule d; Some (dimension_name d, stringify_string v)) ds.
Proof. induction ds as [|d ds IH]; cbn; [done|]. unfold pinned in IH. destruct (pin rule d); cbn; by rewrite IH. Qed.

Lemma key_printed rule : quotaRuleKey rule = "{" +:+ print_members (rule_members rule).
Proof.
  assert (key_members rule = map (fun m => (m.1, print_kv m.2)) (rule_members rule)) as Hk.
  { unfold key_members, rule_members. rewrite !map_app, pinned_printed.
    by destruct rule as [[] [] [] ? ? ? ? ? ? [] []]. }
  unfold quotaRuleKey, print_members. rewrite Hk, map_map. done.
Qed.

Lemma dimension_name_inj d d' : dimension_name d = dimension_name d' → d = d'.
Proof. by destruct d, d'. Qed.

Lemma pinned_spec rule ds d s : (dimension_name d, kv_text s) ∈ pinned rule ds ↔ d ∈ ds ∧ pin rule d = Some s.
Proof.
  unfold pinned. rewrite list_elem_of_omap. split.
  - intros (d' & Hd & E). destruct (pin rule d') eqn:Hp; [|done]. cbn in E. injection E as E <-.
    apply dimension_name_inj in E as ->. done.
  - intros [Hd Hp]. exists d. by rewrite Hp.
Qed.

(** A key identifies its rule. *)
Lemma quotaRuleKey_inj r1 r2 : quotaRuleKey r1 = quotaRuleKey r2 → r1 = r2.
Proof.
  rewrite !key_printed. intros Heq%append_inj_l%print_members_inj; [|done..].
  unfold rule_members in Heq. apply app_inj_1 in Heq as [Hhead Heq]; [|done].
  apply app_inj_2 in Heq as [Hp Hcaps]; [|done]. injection Hhead as H1 H2 H3. injection Hcaps as H5 H6.
  assert (∀ d, d ∈ RULE_SCOPE_DIMENSIONS → pin r1 d = pin r2 d) as Hpin.
  { intros d Hd. apply option_eq. intros s.
    pose proof (pinned_spec r1 RULE_SCOPE_DIMENSIONS d s) as S1. rewrite Hp, pinned_spec in S1. naive_solver. }
  assert (∀ d, d ∈ DIMENSIONS → pin r1 d = pin r2 d) as Hall.
  { intros d [Hd|Hd]%elem_of_app; [|by apply Hpin].
    assert (∀ a b, kv_pin a = kv_pin b → a = b) as Hkv by (intros [] []; cbn; congruence).
    repeat (apply elem_of_cons in Hd as [->|Hd]; [by apply Hkv|]). by apply elem_of_nil in Hd. }
  assert (∀ a b, kv_cap a = kv_cap b → a = b) as Hkc by (intros [] []; cbn; congruence).
  apply Hkc in H5, H6. destruct r1, r2. cbn in *.
  pose proof (Hall dm_provider ltac:(set_solver)). pose proof (Hall dm_model ltac:(set_solver)).
  pose proof (Hall dm_tenant ltac:(set_solver)). pose proof (Hall dm_account ltac:(set_solver)).
  pose proof (Hall dm_project ltac:(set_solver)). pose proof (Hall dm_legalDomain ltac:(set_solver)).
  pose proof (Hall dm_region ltac:(set_solver)). pose proof (Hall dm_providerAccount ltac:(set_solver)).
  pose proof (Hall dm_sponsor ltac:(set_solver)). cbn in *. congruence.
Qed.

(** ** Canonical order *)

Lemma ascii_compare_N a b : Ascii.compare a b = N.compare (N_of_ascii a) (N_of_ascii b).
Proof. done. Qed.

Lemma string_leb_trans s1 s2 s3 : String.leb s1 s2 = true → String.leb s2 s3 = true → String.leb s1 s3 = true.
Proof.
  unfold String.leb. revert s2 s3. induction s1 as [|a s1 IH]; intros [|b s2] [|c s3]; cbn; try done.
  rewrite !ascii_compare_N. specialize (IH s2 s3).
  destruct (N.compare_spec (N_of_ascii a) (N_of_ascii b)) as [E|E|E]; try done;
    destruct (N.compare_spec (N_of_ascii b) (N_of_ascii c)) as [E'|E'|E']; try done;
    destruct (N.compare_spec (N_of_ascii a) (N_of_ascii c)) as [F|F|F]; try done; lia.
Qed.

Section Sorting.
Context {A : Type}.
Implicit Types (l : list (string * A)).

Definition key_le (x y : string * A) : Prop := String.leb x.1 y.1 = true.

Lemma insert_rule_perm x l : insert_rule x l ≡ₚ x :: l.
Proof.
  induction l as [|y l IH]; cbn; [done|]. destruct (String.leb x.1 y.1); [done|]. rewrite IH. apply Permutation_swap.
Qed.

Lemma sort_rules_perm l : sort_rules l ≡ₚ l.
Proof. induction l as [|x l IH]; cbn; [done|]. by rewrite insert_rule_perm, IH. Qed.

Lemma insert_rule_sorted x l : StronglySorted key_le l → StronglySorted key_le (insert_rule x l).
Proof.
  induction 1 as [|y l Hl IH Hy]; cbn; [repeat constructor|]. destruct (String.leb x.1 y.1) eqn:E.
  - constructor; [by constructor|]. constructor; [done|]. eapply Forall_impl; [exact Hy|].
    intros z Hz. by eapply string_leb_trans.
  - constructor; [done|]. rewrite insert_rule_perm. constructor; [|done]. unfold key_le.
    by destruct (String.leb_total y.1 x.1) as [?|?]; [|congruence].
Qed.

Lemma sort_rules_sorted l : StronglySorted key_le (sort_rules l).
Proof. induction l as [|x l IH]; cbn; [constructor|]. by apply insert_rule_sorted. Qed.

Lemma sort_rules_unique l1 l2 : l1 ≡ₚ l2 → NoDup (map fst l1) → sort_rules l1 = sort_rules l2.
Proof.
  intros Hp Hnd. apply (StronglySorted_unique_strong key_le); [|apply sort_rules_sorted..|by rewrite !sort_rules_perm].
  intros x y. rewrite !sort_rules_perm, <- Hp. intros Hx Hy Hxy Hyx.
  pose proof (String.leb_antisym _ _ Hxy Hyx) as Hk. clear -Hnd Hx Hy Hk.
  induction l1 as [|z l IH]; [by apply elem_of_nil in Hx|]. cbn in Hnd. apply NoDup_cons in Hnd as [Hz Hnd].
  apply elem_of_cons in Hx as [->|Hx], Hy as [->|Hy]; auto.
  - destruct Hz. rewrite Hk. by apply list_elem_of_fmap_2.
  - destruct Hz. rewrite <- Hk. by apply list_elem_of_fmap_2.
Qed.
End Sorting.

Lemma sort_rules_map {A B} (g : A → B) (l : list (string * A)) :
  sort_rules (map (fun x => (x.1, g x.2)) l) = map (fun x => (x.1, g x.2)) (sort_rules l).
Proof.
  unfold sort_rules. induction l as [|x l IH]; cbn; [done|]. rewrite IH. generalize (foldr insert_rule [] l). clear.
  induction l as [|y l IH]; cbn; [done|]. destruct (String.leb x.1 y.1); cbn; [done|]. by rewrite IH.
Qed.
