(* ===== verification/QuotaOrder.v ===== *)
(** * Buckets by index and by key (packages/core/src/model/quota.ts)

    The in-process limiter files a bucket under the index of its rule, the store
    limiters under the key of its rule.  Both answer every sequence of calls alike, so
    the order in which rules are declared does not matter. *)
From S2P Require Import Prelude Json Identity Usage Entries Quota QuotaKey.

(** A call, at the time the limiter reads its clock. *)
Inductive QuotaCall :=
  | q_reserve (request : QuotaReservationRequest)
  | q_reconcile (reservationId : string) (usage : Usage) (actual : option raw)
  | q_release (reservationId : string).

Section Calls.
Context {K : Type} `{Countable K} (ordered : list (QuotaRule * K)).

Definition run_call (s : Limiter K) (call : Z * QuotaCall) : Limiter K * option QuotaDecision :=
  match call.2 with
  | q_reserve request => let '(s, d) := reserve ordered s request call.1 in (s, Some d)
  | q_reconcile id usage actual => (reconcile s id usage actual call.1, None)
  | q_release id => (release s id call.1, None)
  end.

Fixpoint run_calls (s : Limiter K) (calls : list (Z * QuotaCall)) : Limiter K * list (option QuotaDecision) :=
  match calls with
  | [] => (s, [])
  | call :: calls =>
      let '(s, d) := run_call s call in
      let '(s, ds) := run_calls s calls in (s, d :: ds)
  end.
End Calls.

(** ** Two limiters in step *)

Section Simulation.
Context {K L : Type} `{Countable K, Countable L} (f : K → L) (keys : list K).
Hypothesis f_inj : ∀ k k', k ∈ keys → k' ∈ keys → f k = f k' → k = k'.
Implicit Types (b : gmap K MemoryBucket) (c : gmap L MemoryBucket).

Definition agree b c : Prop := ∀ k, k ∈ keys → c !! f k = b !! k.

Lemma agree_insert b c k x : agree b c → k ∈ keys → agree (<[k := x]> b) (<[f k := x]> c).
Proof.
  intros Ha Hk k' Hk'. destruct (decide (k = k')) as [<-|Hne]; [by rewrite !lookup_insert_eq|].
  rewrite !lookup_insert_ne; [by apply Ha|done|]. intros E. by apply Hne, f_inj.
Qed.

Lemma agree_bucketFor b c k w :
  agree b c → k ∈ keys → agree (bucketFor b k w).1 (bucketFor c (f k) w).1 ∧
  (bucketFor c (f k) w).2 = (bucketFor b k w).2.
Proof.
  intros Ha Hk. unfold bucketFor. rewrite (Ha k Hk). destruct (b !! k) as [x|]; [destruct (_ =? _)%Z|]; cbn;
    (split; [|done]); [done|by apply agree_insert..].
Qed.

Lemma agree_scan request w ms b c matched denial row :
  agree b c → row.2 ∈ keys →
  let r := scan_rule request w ms (b, matched, denial) row in
  let r' := scan_rule request w ms (c, f <$> matched, denial) (row.1, f row.2) in
  agree r.1.1 r'.1.1 ∧ r'.1.2 = f <$> r.1.2 ∧ r'.2 = r.2 ∧ r.1.2 = matched ++ (if quotaRuleMatches row.1 request then [row.2] else []).
Proof.
  intros Ha Hk. destruct row as [rule k]. cbn. destruct (quotaRuleMatches rule request); [|split_and!; [done..|symmetry; apply app_nil_r]].
  destruct (agree_bucketFor b c k w Ha Hk) as [Ha' Hb]. destruct (bucketFor b k w) as [b' x], (bucketFor c (f k) w) as [c' y].
  cbn in *. subst y. split_and!; [done| |done|done]. by rewrite fmap_app.
Qed.

Lemma agree_scans request w ms rows b c matched denial :
  agree b c → (∀ row, row ∈ rows → row.2 ∈ keys) → (∀ k, k ∈ matched → k ∈ keys) →
  let r := foldl (scan_rule request w ms) (b, matched, denial) rows in
  let r' := foldl (scan_rule request w ms) (c, f <$> matched, denial) (prod_map id f <$> rows) in
  agree r.1.1 r'.1.1 ∧ r'.1.2 = f <$> r.1.2 ∧ r'.2 = r.2 ∧ ∀ k, k ∈ r.1.2 → k ∈ keys.
Proof.
  revert b c matched denial. induction rows as [|row rows IH]; intros b c matched denial Ha Hr Hm; [done|].
  cbn [fmap list_fmap foldl]. pose proof (Hr row ltac:(by left)) as Hk.
  destruct (agree_scan request w ms b c matched denial row Ha Hk) as (Ha' & E1 & E2 & E3).
  destruct row as [rule k]. cbn [prod_map id fst snd] in *.
  destruct (scan_rule request w ms (b, matched, denial) (rule, k)) as [[b' m'] d'].
  destruct (scan_rule request w ms (c, f <$> matched, denial) (rule, f k)) as [[c' n'] e']. cbn in Ha', E1, E2, E3.
  subst n' e'. apply IH; [done|intros ? ?; apply Hr; by right|]. subst m'. intros k' [?|Hin]%elem_of_app; [by apply Hm|].
  destruct (quotaRuleMatches rule request); [|by apply elem_of_nil in Hin]. by apply list_elem_of_singleton in Hin as ->.
Qed.

Lemma agree_consume req tok w matched b c :
  agree b c → (∀ k, k ∈ matched → k ∈ keys) →
  agree (foldl (debit_bucket req tok w) b matched) (foldl (debit_bucket req tok w) c (f <$> matched)).
Proof.
  revert b c. induction matched as [|k matched IH]; intros b c Ha Hm; [done|]. cbn. apply IH; [|intros ? ?; apply Hm; by right].
  pose proof (Hm k ltac:(by left)) as Hk. unfold debit_bucket.
  destruct (agree_bucketFor b c k w Ha Hk) as [Ha' Hb]. destruct (bucketFor b k w) as [b' x], (bucketFor c (f k) w) as [c' y].
  cbn in *. subst y. by apply agree_insert.
Qed.

Lemma agree_settle g w matched b c :
  agree b c → (∀ k, k ∈ matched → k ∈ keys) →
  agree (foldl (settle_bucket g w) b matched) (foldl (settle_bucket g w) c (f <$> matched)).
Proof.
  revert b c. induction matched as [|k matched IH]; intros b c Ha Hm; [done|]. cbn. apply IH; [|intros ? ?; apply Hm; by right].
  pose proof (Hm k ltac:(by left)) as Hk. unfold settle_bucket. rewrite (Ha k Hk).
  destruct (b !! k); [|done]. destruct (_ =? _)%Z; [|done]. by apply agree_insert.
Qed.

Definition rekey (r : MemoryReservation K) : MemoryReservation L :=
  mkReservation (mr_windowStart r) (mr_estimateTokens r) (mr_requests r) (f <$> mr_keys r).

Record in_step (s : Limiter K) (t : Limiter L) : Prop := {
  is_buckets : agree (ql_buckets s) (ql_buckets t);
  is_reservations : ql_reservations t = rekey <$> ql_reservations s;
  is_keys : ∀ id r, ql_reservations s !! id = Some r → ∀ k, k ∈ mr_keys r → k ∈ keys;
  is_next : ql_next t = ql_next s;
}.

Lemma in_step_reserve rows s t request at_ :
  (∀ row, row ∈ rows → row.2 ∈ keys) → in_step s t →
  in_step (reserve rows s request at_).1 (reserve (prod_map id f <$> rows) t request at_).1 ∧
  (reserve (prod_map id f <$> rows) t request at_).2 = (reserve rows s request at_).2.
Proof.
  intros Hrows [Hb Hr Hk Hn]. unfold reserve. set (w := windowStartAt at_). set (ms := (w + QUOTA_WINDOW_MS - at_)%Z).
  destruct (agree_scans request w ms rows (ql_buckets s) (ql_buckets t) [] None Hb Hrows) as (Ha & E1 & E2 & Hm);
    [by intros ? ?%elem_of_nil|]. cbn [fmap list_fmap] in *.
  destruct (foldl (scan_rule request w ms) (ql_buckets s, [], None) rows) as [[b matched] denial].
  destruct (foldl (scan_rule request w ms) (ql_buckets t, [], None) (prod_map id f <$> rows)) as [[c matched'] denial'].
  cbn in Ha, E1, E2, Hm. subst matched' denial'.
  assert (prune (ql_reservations t) w = rekey <$> prune (ql_reservations s) w) as Hp.
  { unfold prune. rewrite Hr, map_filter_fmap. done. }
  assert (∀ id r, prune (ql_reservations s) w !! id = Some r → ∀ k, k ∈ mr_keys r → k ∈ keys) as Hk'.
  { intros id r [Hi _]%map_lookup_filter_Some. by eapply Hk. }
  destruct denial as [denial|]; (split; [|cbn; by rewrite ?Hn]); split; cbn; try done.
  - by apply agree_consume.
  - rewrite Hp, fmap_insert, Hn. done.
  - intros id r. rewrite lookup_insert_Some. intros [[_ <-]|[_ Hi]]; [done|by eapply Hk'].
  - by rewrite Hn.
Qed.

Lemma in_step_settle g g' s t id at_ :
  (∀ r x, g' (rekey r) x = g r x) → in_step s t → in_step (settle_reservation g s id at_) (settle_reservation g' t id at_).
Proof.
  intros Hg [Hb Hr Hk Hn]. unfold settle_reservation. rewrite Hr, lookup_fmap. destruct (ql_reservations s !! id) as [r|] eqn:Hi; [|by split].
  cbn [fmap option_fmap option_map]. change (mr_windowStart (rekey r)) with (mr_windowStart r).
  assert (∀ id' r', delete id (ql_reservations s) !! id' = Some r' → ∀ k, k ∈ mr_keys r' → k ∈ keys) as Hk'.
  { intros id' r' [_ Hi']%lookup_delete_Some. by eapply Hk. }
  destruct (_ =? _)%Z; split; cbn; rewrite ?fmap_delete; try done.
  intros k Hin.
  rewrite <- (agree_settle (g r) (windowStartAt at_) (mr_keys r) _ _ Hb (Hk id r Hi) k Hin).
  f_equal. generalize (ql_buckets t). induction (f <$> mr_keys r) as [|l ls IH]; intros c; cbn; [done|].
  rewrite IH. f_equal. unfold settle_bucket. destruct (c !! l); [|done]. destruct (_ =? _)%Z; [|done]. by rewrite Hg.
Qed.

Lemma in_step_calls rows s t calls :
  (∀ row, row ∈ rows → row.2 ∈ keys) → in_step s t →
  (run_calls (prod_map id f <$> rows) t calls).2 = (run_calls rows s calls).2.
Proof.
  intros Hrows. revert s t. induction calls as [|[at_ call] calls IH]; intros s t Hst; [done|]. cbn [run_calls].
  destruct call as [request|id usage actual|id]; cbn [run_call snd fst].
  - destruct (in_step_reserve rows s t request at_ Hrows Hst) as [Hst' Hd].
    destruct (reserve rows s request at_) as [s' d], (reserve (prod_map id f <$> rows) t request at_) as [t' d'].
    cbn in Hst', Hd. subst d'. specialize (IH s' t' Hst').
    destruct (run_calls rows s' calls), (run_calls (prod_map id f <$> rows) t' calls). cbn in *. congruence.
  - specialize (IH (reconcile s id usage actual at_) (reconcile t id usage actual at_)).
    destruct (run_calls rows _ calls), (run_calls (prod_map Datatypes.id f <$> rows) _ calls). cbn in *. rewrite IH; [done|].
    by apply in_step_settle.
  - specialize (IH (release s id at_) (release t id at_)).
    destruct (run_calls rows _ calls), (run_calls (prod_map Datatypes.id f <$> rows) _ calls). cbn in *. rewrite IH; [done|].
    by apply in_step_settle.
Qed.
End Simulation.

(** ** The order of the rules *)

(** The rules in canonical order, each with its key as the key of its bucket. *)
Definition key_order (rules : list QuotaRule) : list (QuotaRule * string) :=
  snd <$> sort_rules (map (fun rule => (quotaRuleKey rule, (rule, quotaRuleKey rule))) rules).

Lemma no_duplicate seen index rules :
  first_duplicate seen index rules = None →
  NoDup (map quotaRuleKey rules) ∧ ∀ r, r ∈ rules → seen !! quotaRuleKey r = None.
Proof.
  revert seen index. induction rules as [|r rules IH]; intros seen index; cbn; [by split; [constructor|intros ? ?%elem_of_nil]|].
  destruct (seen !! quotaRuleKey r) eqn:E; [done|]. intros [Hnd Hs]%IH. split.
  - constructor; [|done]. intros (r' & Hk & Hin)%list_elem_of_fmap. specialize (Hs r' Hin).
    by rewrite <- Hk, lookup_insert_eq in Hs.
  - intros r' [->|Hin]%elem_of_cons; [done|]. specialize (Hs r' Hin). by apply lookup_insert_None in Hs as [? _].
Qed.

Lemma snapshot_nodup raw rules : snapshotQuotaRules raw = Ok rules → NoDup (map quotaRuleKey rules).
Proof.
  unfold snapshotQuotaRules. intros (u & _ & Hs)%bind_ok. destruct (first_duplicate _ _ _) as [[]|] eqn:E; [done|].
  injection Hs as <-. by eapply no_duplicate.
Qed.

Definition key_at (rules : list QuotaRule) (index : nat) : string := from_option quotaRuleKey "" (rules !! index).

Lemma canonical_key_order rules :
  prod_map id (key_at rules) <$> canonical_order rules = key_order rules.
Proof.
  unfold canonical_order, key_order.
  assert (map (fun rule => (quotaRuleKey rule, (rule, quotaRuleKey rule))) rules =
    map (fun x => (x.1, prod_map id (key_at rules) x.2)) (imap (fun index rule => (quotaRuleKey rule, (rule, index))) rules)) as ->.
  { apply list_eq. intros i. rewrite !list_lookup_fmap, list_lookup_imap. unfold prod_map, key_at.
    destruct (rules !! i) eqn:E; cbn; [|done]. by rewrite E. }
  rewrite sort_rules_map. unfold fmap. induction (sort_rules _) as [|x l IH]; cbn; [done|]. by f_equal.
Qed.

Lemma canonical_rows rules row : row ∈ canonical_order rules → row.2 ∈ seq 0 (length rules).
Proof.
  unfold canonical_order. intros ([k [r i]] & -> & Hin)%list_elem_of_fmap. rewrite sort_rules_perm in Hin.
  apply elem_of_lookup_imap in Hin as (j & r' & E & Hl). injection E as _ -> ->. apply elem_of_seq.
  apply lookup_lt_Some in Hl. cbn. lia.
Qed.

Lemma key_at_inj rules :
  NoDup (map quotaRuleKey rules) →
  ∀ k k', k ∈ seq 0 (length rules) → k' ∈ seq 0 (length rules) → key_at rules k = key_at rules k' → k = k'.
Proof.
  intros Hnd k k' Hk%elem_of_seq Hk'%elem_of_seq. unfold key_at.
  destruct (lookup_lt_is_Some_2 rules k ltac:(lia)) as [r Hr], (lookup_lt_is_Some_2 rules k' ltac:(lia)) as [r' Hr'].
  rewrite Hr, Hr'. cbn. intros E. apply (NoDup_lookup _ k k' (quotaRuleKey r) Hnd); rewrite list_lookup_fmap, ?Hr, ?Hr'; cbn; congruence.
Qed.

Lemma index_is_key rules calls :
  NoDup (map quotaRuleKey rules) →
  (run_calls (canonical_order rules) (empty_limiter (K := nat)) calls).2 =
  (run_calls (key_order rules) (empty_limiter (K := string)) calls).2.
Proof.
  intros Hnd. rewrite <- canonical_key_order. symmetry.
  apply (in_step_calls (key_at rules) (seq 0 (length rules))); [by apply key_at_inj|apply canonical_rows|].
  by split.
Qed.

(** C24: The answers of the quota limiter depend on the set of its rules only.  For rule
    sets that pass construction and differ in their order alone, every sequence of
    reserve, reconcile and release calls at any clock values is answered alike, with
    the same reservation ids, denials and waits, and as by a limiter that files its
    buckets under the keys of the rules, as the store limiters do. *)
Theorem quota_order_independent raw1 raw2 rules1 rules2 calls :
  snapshotQuotaRules raw1 = Ok rules1 → snapshotQuotaRules raw2 = Ok rules2 → rules1 ≡ₚ rules2 →
  (run_calls (canonical_order rules1) (empty_limiter (K := nat)) calls).2 =
    (run_calls (canonical_order rules2) (empty_limiter (K := nat)) calls).2 ∧
  (run_calls (canonical_order rules1) (empty_limiter (K := nat)) calls).2 =
    (run_calls (key_order rules1) (empty_limiter (K := string)) calls).2.
Proof.
  intros H1%snapshot_nodup H2%snapshot_nodup Hp. rewrite !index_is_key by done. split; [|done].
  assert (key_order rules1 = key_order rules2) as ->; [|done]. unfold key_order.
  rewrite (sort_rules_unique _ (map (fun rule => (quotaRuleKey rule, (rule, quotaRuleKey rule))) rules2)); [done|by rewrite Hp|].
  rewrite map_map. exact H1.
Qed.
