(* ===== verification/QuotaLaws.v ===== *)
(** * What the quota limiter counts (packages/core/src/model/quota.ts)

    A ledger of what was granted, settled and released runs beside the limiter.  A
    bucket counts exactly the ledger's rows of its rule and window, and the request cap
    of a rule is never passed. *)
From S2P Require Import Prelude Json Identity Usage Entries Quota QuotaKey QuotaOrder.

#[local] Open Scope Z_scope.

(** ** Windows *)

Lemma window_eq at_ : 0 <= at_ → windowStartAt at_ = QUOTA_WINDOW_MS * (at_ / QUOTA_WINDOW_MS).
Proof.
  intros Hat. unfold windowStartAt. rewrite Z.rem_mod_nonneg by (unfold QUOTA_WINDOW_MS; lia).
  pose proof (Z.div_mod at_ QUOTA_WINDOW_MS ltac:(unfold QUOTA_WINDOW_MS; lia)). lia.
Qed.

Lemma window_mono at_ at' : 0 <= at_ <= at' → windowStartAt at_ <= windowStartAt at'.
Proof.
  intros H. rewrite !window_eq by lia. apply Z.mul_le_mono_nonneg_l; [done|].
  apply Z.div_le_mono; [done|lia].
Qed.

Lemma window_bounds at_ : 0 <= at_ → windowStartAt at_ <= at_ < windowStartAt at_ + QUOTA_WINDOW_MS.
Proof.
  intros H. rewrite window_eq by done. pose proof (Z.div_mod at_ QUOTA_WINDOW_MS ltac:(done)).
  pose proof (Z.mod_pos_bound at_ QUOTA_WINDOW_MS ltac:(done)). lia.
Qed.

Lemma window_multiple at_ : 0 <= at_ → ∃ q, windowStartAt at_ = QUOTA_WINDOW_MS * q.
Proof. intros H. rewrite window_eq by done. by eexists. Qed.

(** ** Sums *)

Fixpoint total {A} (f : A → Z) (p : A → bool) (l : list A) : Z :=
  match l with [] => 0 | x :: l => (if p x then f x else 0) + total f p l end.

Lemma total_app {A} (f : A → Z) p l1 l2 : total f p (l1 ++ l2) = total f p l1 + total f p l2.
Proof. induction l1 as [|x l1 IH]; cbn; [done|]. rewrite IH. lia. Qed.

Lemma total_mid {A} (f : A → Z) p l1 x l2 : total f p (l1 ++ x :: l2) = (if p x then f x else 0) + total f p (l1 ++ l2).
Proof. rewrite !total_app. cbn. lia. Qed.

Lemma total_none {A} (f : A → Z) p l : (∀ x, x ∈ l → p x = false) → total f p l = 0.
Proof.
  induction l as [|x l IH]; intros Hp; cbn; [done|]. rewrite (Hp x) by (by left). rewrite IH; [done|].
  intros y Hy. apply Hp. by right.
Qed.

Lemma total_le {A} (f g : A → Z) p l : (∀ x, x ∈ l → f x <= g x) → total f p l <= total g p l.
Proof.
  induction l as [|x l IH]; intros Hp; cbn; [done|]. pose proof (Hp x ltac:(by left)).
  assert (total f p l <= total g p l) by (apply IH; intros y Hy; apply Hp; by right). destruct (p x); lia.
Qed.

Lemma total_nonneg {A} (f : A → Z) p l : (∀ x, x ∈ l → 0 <= f x) → 0 <= total f p l.
Proof.
  induction l as [|x l IH]; intros Hp; cbn; [done|]. pose proof (Hp x ltac:(by left)).
  assert (0 <= total f p l) by (apply IH; intros y Hy; apply Hp; by right). destruct (p x); lia.
Qed.

(** A row that two tests split is counted by one of them. *)
Lemma total_split {A} (f : A → Z) p q r l :
  (∀ x, x ∈ l → 0 <= f x) → (∀ x, x ∈ l → p x = true → q x = true ∨ r x = true) →
  total f p l <= total f q l + total f r l.
Proof.
  induction l as [|x l IH]; intros Hf Hp; cbn; [done|]. pose proof (Hf x ltac:(by left)).
  assert (total f p l <= total f q l + total f r l) by (apply IH; intros y Hy; [apply Hf|apply Hp]; by right).
  destruct (p x) eqn:E; [destruct (Hp x ltac:(by left) E) as [-> | ->]|]; destruct (q x), (r x); lia.
Qed.

Section Ledger.
Context {K : Type} `{Countable K} (rows : list (QuotaRule * K)).
Implicit Types (s : Limiter K) (b : gmap K MemoryBucket).

(** What one grant counts for: the requests it admitted, and what it stands for after
    its settlement. *)
Record Grant := mkGrant {
  gr_id : string;
  gr_at : Z;
  gr_keys : list K;
  gr_admitted : Z;
  gr_requests : Z;
  gr_tokens : Z;
  gr_open : bool;
}.
Implicit Types (g : Grant) (G : list Grant).

Definition gr_window g : Z := windowStartAt (gr_at g).

(** The keys of the rules a request matches. *)
Definition matching (request : QuotaReservationRequest) : list K :=
  map snd (filter (fun row => quotaRuleMatches row.1 request = true) rows).

Definition settled g (usage : Usage) (actual : option raw) : Grant :=
  mkGrant (gr_id g) (gr_at g) (gr_keys g) (gr_admitted g) (gr_requests g + quotaActualRequestsDelta actual)
    (quotaActualTokens usage) false.

Definition closed g : Grant :=
  mkGrant (gr_id g) (gr_at g) (gr_keys g) (gr_admitted g) (gr_requests g) (gr_tokens g) false.

Definition on_open (f : Grant → option Grant) (id : string) (at_ : Z) g : option Grant :=
  if gr_open g && bool_decide (gr_id g = id) then
    if gr_window g =? windowStartAt at_ then f g else Some (closed g)
  else Some g.

(** The ledger after a call: a grant opens a row, a settlement in the window replaces
    the estimate by the actual usage, a release in the window removes the row. *)
Definition record_call s G (call : Z * QuotaCall) : list Grant :=
  match call.2 with
  | q_reserve request =>
      match (reserve rows s request call.1).2 with
      | granted id =>
          G ++ [mkGrant id call.1 (matching request) (es_requests (rq_estimate request))
                  (es_requests (rq_estimate request)) (quotaEstimateTokens request) true]
      | refused _ => G
      end
  | q_reconcile id usage actual => omap (on_open (fun g => Some (settled g usage actual)) id call.1) G
  | q_release id => omap (on_open (fun _ => None) id call.1) G
  end.

Fixpoint run_ledger s G (calls : list (Z * QuotaCall)) : Limiter K * list Grant :=
  match calls with
  | [] => (s, G)
  | call :: calls => run_ledger (run_call rows s call).1 (record_call s G call) calls
  end.

(** Counts a caller may pass, and a clock that does not run backwards. *)
Definition call_ok (call : QuotaCall) : Prop :=
  match call with
  | q_reserve request => 0 <= es_requests (rq_estimate request) ∧ 0 <= quotaEstimateTokens request
  | q_reconcile _ usage _ => 0 <= quotaActualTokens usage
  | q_release _ => True
  end.

Fixpoint calls_ok (now : Z) (calls : list (Z * QuotaCall)) : Prop :=
  match calls with
  | [] => True
  | (at_, call) :: calls => now <= at_ ∧ call_ok call ∧ calls_ok at_ calls
  end.

Definition counted (k : K) (w : Z) g : bool := bool_decide (gr_window g = w) && bool_decide (k ∈ gr_keys g).

(** ** Buckets *)

Definition bucket_ok (now : Z) G (k : K) (x : option MemoryBucket) : Prop :=
  match x with
  | Some x => mb_windowStart x <= windowStartAt now ∧
      mb_requests x = total gr_requests (counted k (mb_windowStart x)) G ∧
      mb_tokens x = total gr_tokens (counted k (mb_windowStart x)) G ∧
      ∀ g, g ∈ G → k ∈ gr_keys g → gr_window g <= mb_windowStart x
  | None => ∀ g, g ∈ G → k ∉ gr_keys g
  end.

Definition buckets_ok (now : Z) G b : Prop := ∀ k, bucket_ok now G k (b !! k).

Lemma bucketFor_ok now at_ G b k :
  0 <= now <= at_ → buckets_ok now G b →
  let w := windowStartAt at_ in
  buckets_ok at_ G (bucketFor b k w).1 ∧
  (bucketFor b k w).2 = mkBucket w (total gr_requests (counted k w) G) (total gr_tokens (counted k w) G) ∧
  (bucketFor b k w).1 !! k = Some (bucketFor b k w).2.
Proof.
  intros Hat Hb. cbn zeta. pose proof (window_mono now at_ Hat) as Hw. set (w := windowStartAt at_) in *.
  assert (buckets_ok at_ G b) as Hb'.
  { intros k'. specialize (Hb k'). destruct (b !! k'); [|done]. cbn in *. intuition lia. }
  assert ((∀ g, g ∈ G → k ∈ gr_keys g → gr_window g < w) → buckets_ok at_ G (<[k := mkBucket w 0 0]> b) ∧
    mkBucket w 0 0 = mkBucket w (total gr_requests (counted k w) G) (total gr_tokens (counted k w) G)) as Hfresh.
  { intros Hlt. assert (∀ g, g ∈ G → counted k w g = false) as Hn.
    { intros g Hg. unfold counted. apply andb_false_iff. destruct (decide (k ∈ gr_keys g)) as [Hk|Hk].
      - left. apply bool_decide_false. specialize (Hlt g Hg Hk). lia.
      - right. by apply bool_decide_false. }
    rewrite !(total_none _ _ G Hn). split; [|done]. intros k'. destruct (decide (k = k')) as [<-|Hne].
    - rewrite lookup_insert_eq. cbn. rewrite !(total_none _ _ G Hn). split_and!; try done.
      intros g Hg Hk. specialize (Hlt g Hg Hk). lia.
    - by rewrite lookup_insert_ne. }
  unfold bucketFor. specialize (Hb k). destruct (b !! k) as [x|] eqn:Hx; cbn in Hb.
  - destruct Hb as (H1 & H2 & H3 & H4). destruct (Z.eqb_spec (mb_windowStart x) w) as [E|E]; cbn.
    + split_and!; [done| |done]. destruct x as [xw xr xt]. cbn in *. subst. done.
    + destruct Hfresh as [F1 F2]; [intros g Hg Hk; specialize (H4 g Hg Hk); lia|].
      split_and!; [done|done|apply lookup_insert_eq].
  - destruct Hfresh as [F1 F2]; [intros g Hg Hk; by destruct (Hb g Hg)|]. split_and!; [done|done|apply lookup_insert_eq].
Qed.

(** ** The scan *)

Lemma scan_ok now at_ G request b matched denial row :
  0 <= now <= at_ → buckets_ok now G b →
  let w := windowStartAt at_ in
  let r := scan_rule request w (w + QUOTA_WINDOW_MS - at_) (b, matched, denial) row in
  buckets_ok at_ G r.1.1 ∧
  r.1.2 = matched ++ (if quotaRuleMatches row.1 request then [row.2] else []) ∧
  (r.2 = None → denial = None ∧ (quotaRuleMatches row.1 request = true →
     quotaRuleAdmission row.1 (mkCounters (total gr_requests (counted row.2 w) G) (total gr_tokens (counted row.2 w) G))
       (mkCounters (es_requests (rq_estimate request)) (quotaEstimateTokens request)) (w + QUOTA_WINDOW_MS - at_) = None)).
Proof.
  intros Hat Hb. destruct row as [rule k]. cbn zeta. unfold scan_rule. cbn [fst snd].
  destruct (quotaRuleMatches rule request).
  - destruct (bucketFor_ok now at_ G b k Hat Hb) as (Hb' & E & _).
    destruct (bucketFor b k (windowStartAt at_)) as [b' x]. cbn in Hb', E. subst x. cbn [mb_requests mb_tokens].
    destruct (quotaRuleAdmission _ _ _ _); cbn; split_and!; done.
  - cbn. split_and!; [|by rewrite app_nil_r|done]. intros k'. specialize (Hb k').
    pose proof (window_mono now at_ Hat). destruct (b !! k'); [|done]. cbn in *. intuition lia.
Qed.

Lemma matching_cons request row rs :
  map snd (filter (fun r : QuotaRule * K => quotaRuleMatches r.1 request = true) (row :: rs)) =
  (if quotaRuleMatches row.1 request then [row.2] else []) ++
  map snd (filter (fun r : QuotaRule * K => quotaRuleMatches r.1 request = true) rs).
Proof.
  rewrite filter_cons. destruct (quotaRuleMatches row.1 request); [by rewrite decide_True|by rewrite decide_False].
Qed.

Lemma scans_ok now at_ G request b matched denial (rs : list (QuotaRule * K)) :
  0 <= now <= at_ → buckets_ok now G b →
  let w := windowStartAt at_ in
  let r := foldl (scan_rule request w (w + QUOTA_WINDOW_MS - at_)) (b, matched, denial) rs in
  buckets_ok at_ G r.1.1 ∧
  r.1.2 = matched ++ map snd (filter (fun row => quotaRuleMatches row.1 request = true) rs) ∧
  (r.2 = None → denial = None ∧ ∀ row, row ∈ rs → quotaRuleMatches row.1 request = true →
     quotaRuleAdmission row.1 (mkCounters (total gr_requests (counted row.2 w) G) (total gr_tokens (counted row.2 w) G))
       (mkCounters (es_requests (rq_estimate request)) (quotaEstimateTokens request)) (w + QUOTA_WINDOW_MS - at_) = None).
Proof.
  intros Hat Hb. cbn zeta. revert now b matched denial Hat Hb.
  induction rs as [|row rs IH]; intros now b matched denial Hat Hb.
  - cbn. split_and!; [|by rewrite app_nil_r|]; [|by intros ->; split; [|intros ? ?%elem_of_nil]].
    intros k'. specialize (Hb k'). pose proof (window_mono now at_ Hat). destruct (b !! k'); [|done]. cbn in *. intuition lia.
  - cbn [foldl]. destruct (scan_ok now at_ G request b matched denial row Hat Hb) as (Hb' & E1 & E2).
    destruct (scan_rule _ _ _ _ row) as [[b' m'] d']. cbn [fst snd] in Hb', E1, E2. subst m'.
    destruct (IH at_ b' (matched ++ (if quotaRuleMatches row.1 request then [row.2] else [])) d' ltac:(lia) Hb')
      as (Hb2 & F1 & F2).
    split_and!; [done|by rewrite F1, matching_cons, app_assoc|]. intros [Hd Hrs]%F2. destruct (E2 Hd) as [-> Hrow].
    split; [done|]. intros r [->|Hin]%elem_of_cons; [done|by apply Hrs].
Qed.

(** ** Granting *)

Lemma consume_lookup req tok w b matched k :
  NoDup matched →
  foldl (debit_bucket req tok w) b matched !! k =
    (if decide (k ∈ matched)
     then let x := (bucketFor b k w).2 in Some (mkBucket (mb_windowStart x) (mb_requests x + req) (mb_tokens x + tok))
     else b !! k).
Proof.
  assert (∀ b k k', k ≠ k' → (bucketFor b k w).1 !! k' = b !! k') as Hne.
  { intros c j j' Hj. unfold bucketFor. destruct (c !! j); [destruct (_ =? _)|]; cbn; rewrite ?lookup_insert_ne; done. }
  revert b. induction matched as [|j matched IH]; intros b Hnd; [done|].
  apply NoDup_cons in Hnd as [Hj Hnd]. cbn [foldl]. rewrite IH by done.
  assert (∀ j', j ≠ j' → debit_bucket req tok w b j !! j' = b !! j') as Hc.
  { intros j' Hj'. unfold debit_bucket. specialize (Hne b j j' Hj'). destruct (bucketFor b j w) as [b' x].
    cbn in Hne. by rewrite lookup_insert_ne. }
  destruct (decide (k = j)) as [->|Hkj].
  - rewrite decide_False by done. rewrite decide_True by (by left). unfold debit_bucket.
    destruct (bucketFor b j w) as [b' x]. by rewrite lookup_insert_eq.
  - assert ((bucketFor (debit_bucket req tok w b j) k w).2 = (bucketFor b k w).2) as E.
    { unfold bucketFor. rewrite Hc by done. destruct (b !! k); [destruct (_ =? _)|]; done. }
    destruct (decide (k ∈ matched)) as [Hin|Hin].
    + rewrite decide_True by (by right). by rewrite E.
    + rewrite decide_False; [by apply Hc|]. by intros [?|?]%elem_of_cons.
Qed.

Lemma grant_buckets now at_ G b g :
  0 <= now <= at_ → buckets_ok now G b → NoDup (gr_keys g) → gr_at g = at_ →
  buckets_ok at_ (G ++ [g]) (foldl (debit_bucket (gr_requests g) (gr_tokens g) (windowStartAt at_)) b (gr_keys g)).
Proof.
  intros Hat Hb Hnd Hg k. rewrite consume_lookup by done. pose proof (window_mono now at_ Hat) as Hw.
  destruct (decide (k ∈ gr_keys g)) as [Hk|Hk].
  - destruct (bucketFor_ok now at_ G b k Hat Hb) as (Hb' & E & El). specialize (Hb' k). rewrite El in Hb'. rewrite E in *.
    cbn in *. destruct Hb' as (_ & _ & _ & Hle). rewrite !total_app. cbn.
    assert (counted k (windowStartAt at_) g = true) as Hc.
    { unfold counted, gr_window. by rewrite Hg, !bool_decide_true. }
    rewrite Hc. split_and!; [lia..|]. intros g' [Hin| ->%list_elem_of_singleton]%elem_of_app Hk'; [by apply Hle|].
    unfold gr_window. rewrite Hg. lia.
  - specialize (Hb k). assert (∀ w, counted k w g = false) as Hc.
    { intros w. unfold counted. rewrite (bool_decide_false (k ∈ gr_keys g)) by done. apply andb_false_r. }
    destruct (b !! k) as [x|]; cbn in *.
    + destruct Hb as (H1 & H2 & H3 & H4). rewrite !total_app. cbn. rewrite !Hc. split_and!; [lia..|].
      intros g' [Hin| ->%list_elem_of_singleton]%elem_of_app Hk'; [by apply H4|done].
    + intros g' [Hin| ->%list_elem_of_singleton]%elem_of_app; [by apply Hb|done].
Qed.

(** ** Settling *)

Lemma settle_lookup f w b keys k :
  NoDup keys → (∀ x, mb_windowStart (f x) = mb_windowStart x) →
  foldl (settle_bucket f w) b keys !! k =
    (if decide (k ∈ keys) then (fun x => if mb_windowStart x =? w then f x else x) <$> b !! k else b !! k).
Proof.
  intros Hnd Hf. revert b. induction keys as [|j keys IH]; intros b; [done|]. apply NoDup_cons in Hnd as [Hj Hnd].
  cbn [foldl]. rewrite IH by done. unfold settle_bucket at 1 2.
  destruct (decide (k = j)) as [->|Hne].
  - rewrite decide_False by done. rewrite (decide_True (P := j ∈ j :: keys)) by (by left).
    destruct (b !! j) as [x|] eqn:Hx; [|by rewrite Hx]. cbn. destruct (_ =? _); [by rewrite lookup_insert_eq|by rewrite Hx].
  - assert (∀ c : gmap K MemoryBucket, c = (match b !! j with Some x => if mb_windowStart x =? w then <[j := f x]> b else b
      | None => b end) → c !! k = b !! k) as Hc.
    { intros c ->. destruct (b !! j); [|done]. destruct (_ =? _); [by rewrite lookup_insert_ne|done]. }
    rewrite (Hc _ eq_refl). destruct (decide (k ∈ keys)) as [Hin|Hin].
    + by rewrite decide_True by (by right).
    + rewrite decide_False; [done|]. by intros [?|?]%elem_of_cons.
Qed.

(** Replacing one row of the ledger in its own window. *)
Lemma settle_buckets now G1 g G2 b f (dr dt : Z) (g' : list Grant) :
  buckets_ok now (G1 ++ g :: G2) b → NoDup (gr_keys g) → (∀ x, mb_windowStart (f x) = mb_windowStart x) →
  (∀ x, x ∈ g' → gr_keys x = gr_keys g ∧ gr_at x = gr_at g) →
  (∀ p, (∀ x, x ∈ g' → p x = p g) → total gr_requests p g' = (if p g then gr_requests g + dr else 0) ∧
     total gr_tokens p g' = (if p g then gr_tokens g + dt else 0)) →
  (∀ k x, k ∈ gr_keys g → b !! k = Some x → mb_windowStart x = gr_window g →
     mb_requests (f x) = mb_requests x + dr ∧ mb_tokens (f x) = mb_tokens x + dt) →
  buckets_ok now (G1 ++ g' ++ G2) (foldl (settle_bucket f (gr_window g)) b (gr_keys g)).
Proof.
  intros Hb Hnd Hf Hg' Hd Hx k. rewrite settle_lookup by done. specialize (Hb k).
  assert (∀ w x, x ∈ g' → counted k w x = counted k w g) as Hcount.
  { intros w x Hin. destruct (Hg' x Hin) as [Ek Ea]. unfold counted, gr_window. by rewrite Ek, Ea. }
  assert (∀ y, y ∈ G1 ++ g' ++ G2 → ∃ z, z ∈ G1 ++ g :: G2 ∧ gr_keys z = gr_keys y ∧ gr_window z = gr_window y) as Hback.
  { intros y [Hy|[Hy|Hy]%elem_of_app]%elem_of_app.
    - exists y. split; [apply elem_of_app; by left|done].
    - exists g. destruct (Hg' y Hy) as [E1 E2]. unfold gr_window. rewrite E1, E2. split; [|done].
      apply elem_of_app. right. by left.
    - exists y. split; [apply elem_of_app; right; by right|done]. }
  assert (∀ w, total gr_requests (counted k w) (G1 ++ g' ++ G2) =
      total gr_requests (counted k w) (G1 ++ g :: G2) + (if counted k w g then dr else 0) ∧
    total gr_tokens (counted k w) (G1 ++ g' ++ G2) =
      total gr_tokens (counted k w) (G1 ++ g :: G2) + (if counted k w g then dt else 0)) as Htot.
  { intros w. destruct (Hd (counted k w) (Hcount w)) as [E1 E2]. rewrite !total_app, E1, E2. cbn.
    destruct (counted k w g); lia. }
  destruct (b !! k) as [x|] eqn:Hk.
  - cbn in Hb. destruct Hb as (H1 & H2 & H3 & H4).
    assert (∀ y, y ∈ G1 ++ g' ++ G2 → k ∈ gr_keys y → gr_window y <= mb_windowStart x) as H4'.
    { intros y (z & Hz & Ez & Ew)%Hback Hy. rewrite <- Ew. apply H4; [done|by rewrite Ez]. }
    destruct (Htot (mb_windowStart x)) as [T1 T2]. destruct (decide (k ∈ gr_keys g)) as [Hin|Hin]; cbn.
    + destruct (Z.eqb_spec (mb_windowStart x) (gr_window g)) as [E|E]; cbn.
      * destruct (Hx k x Hin Hk E) as [F1 F2]. rewrite Hf.
        assert (counted k (mb_windowStart x) g = true) as Hc by (unfold counted; by rewrite E, !bool_decide_true).
        rewrite Hc in *. split_and!; [done|lia..|done].
      * assert (counted k (mb_windowStart x) g = false) as Hc
          by (unfold counted; rewrite bool_decide_false by done; done).
        rewrite Hc in *. split_and!; [done|lia..|done].
    + assert (counted k (mb_windowStart x) g = false) as Hc
        by (unfold counted; rewrite (bool_decide_false (k ∈ gr_keys g)) by done; apply andb_false_r).
      rewrite Hc in *. split_and!; [done|lia..|done].
  - cbn in Hb. destruct (decide (k ∈ gr_keys g)) as [Hin|Hin]; cbn.
    + exfalso. apply (Hb g); [apply elem_of_app; right; by left|done].
    + intros y (z & Hz & Ez & _)%Hback. rewrite <- Ez. by apply Hb.
Qed.

(** ** The invariant *)

Record quota_inv (now : Z) s G : Prop := {
  qi_buckets : buckets_ok now G (ql_buckets s);
  qi_reservations : ∀ id r, ql_reservations s !! id = Some r →
    ∃ g, g ∈ G ∧ gr_open g = true ∧ gr_id g = id ∧ gr_window g = mr_windowStart r ∧ gr_keys g = mr_keys r ∧
      gr_requests g = mr_requests r ∧ gr_tokens g = mr_estimateTokens r;
  qi_open : ∀ g, g ∈ G → gr_open g = true → windowStartAt now <= gr_window g → is_Some (ql_reservations s !! gr_id g);
  qi_ids : NoDup (map gr_id G);
  qi_next : ∀ g, g ∈ G → ∃ n, (n <= ql_next s)%N ∧ gr_id g = reservation_id n;
  qi_rows : ∀ g, g ∈ G → 0 <= gr_admitted g ∧ gr_admitted g <= gr_requests g ∧ 0 <= gr_tokens g ∧
    NoDup (gr_keys g) ∧ 0 <= gr_at g <= now;
  qi_cap : ∀ rule k cap w, (rule, k) ∈ rows → qr_requestsPerMinute rule = Some cap →
    total gr_admitted (counted k w) G <= cap;
}.

Lemma reservation_id_inj n m : reservation_id n = reservation_id m → n = m.
Proof. unfold reservation_id. cbn. intros [= E]. by apply (inj dec_of_N) in E. Qed.

Lemma matching_spec request k : k ∈ matching request ↔ ∃ rule, (rule, k) ∈ rows ∧ quotaRuleMatches rule request = true.
Proof.
  unfold matching. split.
  - intros ([rule k'] & -> & [Hm Hin]%list_elem_of_filter)%list_elem_of_fmap. by exists rule.
  - intros (rule & Hin & Hm). apply list_elem_of_fmap. exists (rule, k). split; [done|]. by apply list_elem_of_filter.
Qed.

Lemma matching_nodup request : NoDup (map snd rows) → NoDup (matching request).
Proof. intros Hnd. eapply sublist_NoDup; [exact Hnd|]. apply fmap_sublist, sublist_filter. Qed.

Lemma row_unique rule rule' k : NoDup (map snd rows) → (rule, k) ∈ rows → (rule', k) ∈ rows → rule = rule'.
Proof.
  intros Hnd Hr Hr'. apply list_elem_of_lookup in Hr as [i Hi], Hr' as [j Hj].
  assert (i = j) as ->; [|congruence]. apply (NoDup_lookup _ i j k Hnd); by rewrite list_lookup_fmap, ?Hi, ?Hj.
Qed.

Lemma admission_requests rule counters estimate ms cap :
  quotaRuleAdmission rule counters estimate ms = None → qr_requestsPerMinute rule = Some cap →
  qc_requests counters + qc_requests estimate <= cap.
Proof.
  intros Ha Hc. unfold quotaRuleAdmission in Ha. rewrite Hc in Ha.
  destruct (Z.ltb_spec cap (qc_requests counters + qc_requests estimate)); [done|lia].
Qed.

Lemma inv_reserve now at_ s G request :
  NoDup (map snd rows) → 0 <= now <= at_ → quota_inv now s G → call_ok (q_reserve request) →
  quota_inv at_ (reserve rows s request at_).1 (record_call s G (at_, q_reserve request)).
Proof.
  intros Hnd Hat [I1 I2 I3 I4 I5 I6 I7] [Hreq Htok]. unfold record_call. cbn [snd fst]. unfold reserve. cbn zeta.
  pose proof (window_mono now at_ Hat) as Hw. set (w := windowStartAt at_) in *.
  destruct (scans_ok now at_ G request (ql_buckets s) [] None rows Hat I1) as (Hb & E1 & E2). fold w in Hb, E1, E2.
  destruct (foldl (scan_rule request w (w + QUOTA_WINDOW_MS - at_)) (ql_buckets s, [], None) rows) as [[b matched] denial]. cbn [fst snd] in Hb, E1, E2.
  change (matched = matching request) in E1. subst matched.
  assert (∀ id r, prune (ql_reservations s) w !! id = Some r →
    ql_reservations s !! id = Some r) as Hprune by (by intros id r [? _]%map_lookup_filter_Some).
  assert (∀ g, g ∈ G → gr_open g = true → w <= gr_window g → is_Some (prune (ql_reservations s) w !! gr_id g)) as Hopen.
  { intros g Hg Ho Hgw. destruct (I3 g Hg Ho ltac:(lia)) as [r Hr]. exists r. apply map_lookup_filter_Some. split; [done|].
    destruct (I2 _ r Hr) as (g' & Hg' & _ & Hid & Hwin & _). cbn. apply Z.ltb_ge. rewrite <- Hwin.
    assert (g' = g) as ->; [|done]. apply list_elem_of_lookup in Hg as [i Hi], Hg' as [j Hj].
    assert (i = j) as ->; [|congruence]. apply (NoDup_lookup _ i j (gr_id g) I4); rewrite list_lookup_fmap, ?Hi, ?Hj; cbn; congruence. }
  destruct denial as [denial|]; cbn [fst snd].
  { split; try done.
    - intros id r Hr. by apply I2, Hprune.
    - intros g Hg. destruct (I6 g Hg) as (? & ? & ? & ? & ?). split_and!; lia || done. }
  destruct (E2 eq_refl) as [_ Hrows]. set (g := mkGrant _ _ _ _ _ _ _).
  assert (∀ g', g' ∈ G ++ [g] → g' ∈ G ∨ g' = g) as Hin.
  { intros g' [?| ->%list_elem_of_singleton]%elem_of_app; auto. }
  assert (∀ g', g' ∈ G → gr_id g' ≠ gr_id g) as Hfresh.
  { intros g' Hg'. destruct (I5 g' Hg') as (n & Hn & ->). cbn. intros E%reservation_id_inj. lia. }
  split; cbn [ql_buckets ql_reservations ql_next].
  - apply (grant_buckets at_ at_ G b g); [lia|done|by apply matching_nodup|done].
  - intros id r. rewrite lookup_insert_Some. intros [[<- <-]|[_ Hr]].
    + exists g. split; [apply elem_of_app; right; by left|done].
    + destruct (I2 id r (Hprune id r Hr)) as (g' & Hg' & ?). exists g'. split; [apply elem_of_app; by left|done].
  - intros g' [Hg'| ->]%Hin Ho Hgw; [|by rewrite lookup_insert_eq].
    rewrite lookup_insert_ne by (apply not_eq_sym, (Hfresh g' Hg')). by apply Hopen.
  - rewrite map_app. apply NoDup_app. split_and!; [done| |apply NoDup_singleton].
    intros i (g' & -> & Hg')%list_elem_of_fmap Hi%list_elem_of_singleton. by apply (Hfresh g' Hg').
  - intros g' [Hg'| ->]%Hin; [|by exists (ql_next s + 1)%N]. destruct (I5 g' Hg') as (n & Hn & ?). exists n. split; [lia|done].
  - intros g' [Hg'| ->]%Hin.
    + destruct (I6 g' Hg') as (? & ? & ? & ? & ?). split_and!; lia || done.
    + cbn. split_and!; try lia. by apply matching_nodup.
  - intros rule k cap w' Hrow Hcap. rewrite total_app. cbn [total]. pose proof (I7 rule k cap w' Hrow Hcap) as Hold.
    destruct (counted k w' g) eqn:Hc; [|lia]. unfold counted in Hc. apply andb_true_iff in Hc as [Ew Ek].
    apply bool_decide_eq_true in Ew, Ek. change (w = w') in Ew. subst w'.
    apply matching_spec in Ek as (rule' & Hrow' & Hm). assert (rule' = rule) as -> by (by eapply row_unique).
    pose proof (admission_requests _ _ _ _ cap (Hrows (rule, k) Hrow Hm) Hcap) as Had. cbn in Had.
    assert (total gr_admitted (counted k w) G <= total gr_requests (counted k w) G) by (apply total_le; by intros x (_ & ? & _)%I6).
    cbn. lia.
Qed.

(** ** Settling a row *)

Lemma inv_replace now at_ s G1 g G2 (g' : list Grant) b' :
  0 <= now <= at_ → quota_inv now s (G1 ++ g :: G2) →
  (g' = [] ∨ ∃ x, g' = [x]) →
  (∀ x, x ∈ g' → gr_id x = gr_id g ∧ gr_keys x = gr_keys g ∧ gr_at x = gr_at g ∧ gr_admitted x = gr_admitted g ∧
     gr_admitted x <= gr_requests x ∧ 0 <= gr_tokens x ∧ gr_open x = false) →
  buckets_ok at_ (G1 ++ g' ++ G2) b' →
  quota_inv at_ (mkLimiter b' (delete (gr_id g) (ql_reservations s)) (ql_next s)) (G1 ++ g' ++ G2).
Proof.
  intros Hat [I1 I2 I3 I4 I5 I6 I7] Hone Hg' Hb. pose proof (window_mono now at_ Hat) as Hw.
  assert (g ∈ G1 ++ g :: G2) as Hgin by (apply elem_of_app; right; by left).
  assert (∀ y, y ∈ G1 ++ g' ++ G2 → (y ∈ G1 ++ g :: G2 ∧ gr_id y ≠ gr_id g) ∨ y ∈ g') as Hin.
  { rewrite map_app in I4. cbn in I4. apply NoDup_app in I4 as (_ & N2 & N3). apply NoDup_cons in N3 as [N3 _].
    intros y [Hy|[Hy|Hy]%elem_of_app]%elem_of_app; [left|by right|left].
    - split; [apply elem_of_app; by left|]. intros E. apply (N2 (gr_id y)); [by apply list_elem_of_fmap_2|]. rewrite E. by left.
    - split; [apply elem_of_app; right; by right|]. intros E. apply N3. rewrite <- E. by apply list_elem_of_fmap_2. }
  split; cbn [ql_buckets ql_reservations ql_next]; [done| | | | | |].
  - intros id r [Hne Hr]%lookup_delete_Some. destruct (I2 id r Hr) as (y & Hy & Ho & Hid & ?). exists y. split; [|done].
    apply elem_of_app in Hy as [Hy|[->|Hy]%elem_of_cons]; [apply elem_of_app; by left|congruence|].
    apply elem_of_app; right; apply elem_of_app; by right.
  - intros y [[Hy Hne]|Hy]%Hin Ho Hyw.
    + rewrite lookup_delete_ne by done. apply I3; [done|done|lia].
    + destruct (Hg' y Hy) as (_ & _ & _ & _ & _ & _ & ?). congruence.
  - rewrite !map_app in *. cbn in I4. destruct Hone as [-> | [x ->]]; cbn.
    + eapply sublist_NoDup; [exact I4|]. apply sublist_app; [done|]. by apply sublist_cons.
    + by destruct (Hg' x ltac:(by left)) as [-> _].
  - intros y [[Hy _]|Hy]%Hin; [by apply I5|]. destruct (Hg' y Hy) as [-> _]. by apply I5.
  - intros y [[Hy _]|Hy]%Hin.
    + destruct (I6 y Hy) as (? & ? & ? & ? & ?). split_and!; lia || done.
    + destruct (Hg' y Hy) as (_ & Ek & Ea & Ed & ? & ? & _). destruct (I6 g Hgin) as (? & _ & _ & ? & ?).
      rewrite Ek, Ea, Ed in *. split_and!; lia || done.
  - intros rule k cap w Hrow Hcap. specialize (I7 rule k cap w Hrow Hcap). rewrite total_mid in I7.
    rewrite !total_app in *. destruct (I6 g Hgin) as (? & _). destruct Hone as [-> | [x ->]]; cbn.
    + destruct (counted k w g); lia.
    + destruct (Hg' x ltac:(by left)) as (_ & Ek & Ea & Ed & _).
      assert (counted k w x = counted k w g) as -> by (unfold counted, gr_window; by rewrite Ek, Ea).
      rewrite Ed. lia.
Qed.

Lemma buckets_later now at_ G b : 0 <= now <= at_ → buckets_ok now G b → buckets_ok at_ G b.
Proof.
  intros Hat Hb k. specialize (Hb k). pose proof (window_mono now at_ Hat). destruct (b !! k); [|done].
  cbn in *. intuition lia.
Qed.

Lemma inv_later now at_ s G : 0 <= now <= at_ → quota_inv now s G → quota_inv at_ s G.
Proof.
  intros Hat [I1 I2 I3 I4 I5 I6 I7]. pose proof (window_mono now at_ Hat). split; try done.
  - by eapply buckets_later.
  - intros g Hg Ho Hw. apply I3; [done|done|lia].
  - intros g Hg. destruct (I6 g Hg) as (? & ? & ? & ? & ?). split_and!; lia || done.
Qed.

(** Closing a row without touching its counts. *)
Lemma buckets_closed now G1 g G2 b :
  NoDup (gr_keys g) → buckets_ok now (G1 ++ g :: G2) b → buckets_ok now (G1 ++ [closed g] ++ G2) b.
Proof.
  intros Hnd Hb. pose proof (settle_buckets now G1 g G2 b id 0 0 [closed g] Hb Hnd ltac:(done)) as Hs.
  assert (buckets_ok now (G1 ++ [closed g] ++ G2) (foldl (settle_bucket id (gr_window g)) b (gr_keys g))) as Hs'.
  { apply Hs.
    - by intros x ->%list_elem_of_singleton.
    - intros p Hp. cbn. rewrite (Hp (closed g)) by (by left). destruct (p g); cbn; lia.
    - intros k x _ _ _. cbn. lia. }
  intros k. specialize (Hs' k). rewrite settle_lookup in Hs' by done.
  destruct (decide (k ∈ gr_keys g)); [|done]. destruct (b !! k) as [x|]; [|done]. cbn in Hs'. by destruct (_ =? _).
Qed.

Definition opt_list (o : option Grant) : list Grant := match o with Some g => [g] | None => [] end.

Lemma omap_other f id at_ G : (∀ g, g ∈ G → gr_id g = id → gr_open g = false) → omap (on_open f id at_) G = G.
Proof.
  intros Hn. induction G as [|g G IH]; cbn; [done|]. rewrite IH by (intros ? ?; apply Hn; by right).
  unfold on_open at 1. destruct (gr_open g) eqn:Ho; cbn; [|done]. rewrite bool_decide_false; [done|].
  intros E. rewrite (Hn g) in Ho; [done|by left|done].
Qed.

Lemma omap_one f at_ G1 g G2 :
  NoDup (map gr_id (G1 ++ g :: G2)) →
  omap (on_open f (gr_id g) at_) (G1 ++ g :: G2) = G1 ++ opt_list (on_open f (gr_id g) at_ g) ++ G2.
Proof.
  rewrite map_app. cbn. intros (_ & N2 & N3)%NoDup_app. apply NoDup_cons in N3 as [N3 _].
  rewrite omap_app. cbn. rewrite !omap_other.
  - by destruct (on_open f (gr_id g) at_ g).
  - intros x Hx E. destruct N3. rewrite <- E. by apply list_elem_of_fmap_2.
  - intros x Hx E. exfalso. apply (N2 (gr_id x)); [by apply list_elem_of_fmap_2|]. rewrite E. by left.
Qed.

(** A settlement that replaces an open row in its window by [f], and the counters of
    its buckets by [F]. *)
Lemma inv_settle now at_ s G id (f : Grant → option Grant) (F : MemoryReservation K → MemoryBucket → MemoryBucket) :
  0 <= now <= at_ → quota_inv now s G →
  (∀ r x, mb_windowStart (F r x) = mb_windowStart x) →
  (∀ g x, f g = Some x → gr_id x = gr_id g ∧ gr_keys x = gr_keys g ∧ gr_at x = gr_at g ∧ gr_admitted x = gr_admitted g ∧
     (gr_admitted g <= gr_requests g → gr_admitted x <= gr_requests x) ∧ 0 <= gr_tokens x ∧ gr_open x = false) →
  (∀ g r x, gr_requests g = mr_requests r → gr_tokens g = mr_estimateTokens r →
     gr_requests g <= mb_requests x → gr_tokens g <= mb_tokens x →
     mb_requests (F r x) = mb_requests x + (total gr_requests (fun _ => true) (opt_list (f g)) - gr_requests g) ∧
     mb_tokens (F r x) = mb_tokens x + (total gr_tokens (fun _ => true) (opt_list (f g)) - gr_tokens g)) →
  quota_inv at_ (settle_reservation F s id at_) (omap (on_open f id at_) G).
Proof.
  intros Hat Hinv HF Hf Hcount. pose proof Hinv as [I1 I2 I3 I4 I5 I6 I7].
  destruct (decide (Exists (fun g => gr_id g = id ∧ gr_open g = true) G)) as [He|Hne].
  2:{ rewrite omap_other.
      - assert (ql_reservations s !! id = None) as Hn.
        { apply eq_None_not_Some. intros [r (g & Hg & ? & ? & _)%I2]. apply Hne, Exists_exists. eauto. }
        unfold settle_reservation. rewrite Hn. by eapply inv_later.
      - intros g Hg E. destruct (gr_open g) eqn:Ho; [|done]. exfalso. apply Hne, Exists_exists. eauto. }
  apply Exists_exists in He as (g & Hg & <- & Ho). apply list_elem_of_split in Hg as (G1 & G2 & ->).
  assert (g ∈ G1 ++ g :: G2) as Hg by (apply elem_of_app; right; by left).
  rewrite omap_one by done. unfold on_open. rewrite Ho, bool_decide_true by done. cbn [andb].
  destruct (I6 g Hg) as (R1 & R2 & R3 & R4 & R5).
  assert (∀ r, ql_reservations s !! gr_id g = Some r → gr_window g = mr_windowStart r ∧ gr_keys g = mr_keys r ∧
      gr_requests g = mr_requests r ∧ gr_tokens g = mr_estimateTokens r) as Hr.
  { intros r (g' & Hg' & _ & Hid & ?)%I2. apply list_elem_of_lookup in Hg as [i Hi], Hg' as [j Hj].
    assert (i = j) as ->; [|by replace g with g' by congruence].
    apply (NoDup_lookup _ i j (gr_id g) I4); rewrite list_lookup_fmap, ?Hi, ?Hj; cbn; congruence. }
  destruct (Z.eqb_spec (gr_window g) (windowStartAt at_)) as [Ew|Ew].
  - pose proof (window_mono now at_ Hat). destruct (I3 g Hg Ho ltac:(lia)) as [r Hres].
    destruct (Hr r Hres) as (W1 & W2 & W3 & W4). unfold settle_reservation. rewrite Hres, <- W1, Ew, Z.eqb_refl, <- W2.
    apply (inv_replace now at_); try done.
    + destruct (f g); [right; by eexists|by left].
    + intros x Hx. destruct (f g) as [y|] eqn:Efg; [|by apply elem_of_nil in Hx].
      apply list_elem_of_singleton in Hx as ->. destruct (Hf g y Efg) as (? & ? & ? & ? & Hle & ? & ?).
      split_and!; try done. by apply Hle.
    + rewrite <- Ew. apply (settle_buckets at_ _ g _ _ _ (total gr_requests (fun _ => true) (opt_list (f g)) - gr_requests g)
               (total gr_tokens (fun _ => true) (opt_list (f g)) - gr_tokens g)); try done.
      * by eapply buckets_later.
      * intros x Hx. destruct (f g) as [y|] eqn:Efg; [|by apply elem_of_nil in Hx].
        apply list_elem_of_singleton in Hx as ->. by destruct (Hf g y Efg) as (? & ? & ? & _).
      * intros p Hp. destruct (f g) as [y|]; cbn in *; [rewrite (Hp y) by (by left)|]; destruct (p g); lia.
      * intros k x Hk Hx Hxw. pose proof (I1 k) as Hbk. rewrite Hx in Hbk. cbn in Hbk. destruct Hbk as (_ & B2 & B3 & _).
        assert (counted k (mb_windowStart x) g = true) as Hc by (unfold counted; by rewrite Hxw, !bool_decide_true).
        rewrite total_mid, Hc in B2, B3.
        assert (∀ y, y ∈ G1 ++ G2 → y ∈ G1 ++ g :: G2) as Hsub.
        { intros y [?|?]%elem_of_app; apply elem_of_app; [by left|right; by right]. }
        assert (0 <= total gr_requests (counted k (mb_windowStart x)) (G1 ++ G2)).
        { apply total_nonneg. intros y Hy. destruct (I6 y (Hsub y Hy)) as (? & ? & _). lia. }
        assert (0 <= total gr_tokens (counted k (mb_windowStart x)) (G1 ++ G2)).
        { apply total_nonneg. intros y Hy. by destruct (I6 y (Hsub y Hy)) as (_ & _ & ? & _). }
        apply Hcount; [done|done|lia|lia].
  - assert (∀ b', b' = ql_buckets s → quota_inv at_ (mkLimiter b' (delete (gr_id g) (ql_reservations s)) (ql_next s))
      (G1 ++ [closed g] ++ G2)) as Hcl.
    { intros b' ->. apply (inv_replace now at_); [done|done|right; by eexists| |].
      - by intros x ->%list_elem_of_singleton.
      - apply buckets_closed; [done|]. by eapply buckets_later. }
    unfold settle_reservation. destruct (ql_reservations s !! gr_id g) as [r|] eqn:Hres.
    + destruct (Hr r eq_refl) as (W1 & _). rewrite <- W1. destruct (Z.eqb_spec (gr_window g) (windowStartAt at_)); [done|].
      by apply Hcl.
    + specialize (Hcl _ eq_refl). rewrite delete_id in Hcl by done. by destruct s.
Qed.

Lemma inv_call now at_ s G call :
  NoDup (map snd rows) → 0 <= now <= at_ → quota_inv now s G → call_ok call →
  quota_inv at_ (run_call rows s (at_, call)).1 (record_call s G (at_, call)).
Proof.
  intros Hnd Hat Hinv Hok. destruct call as [request|id usage actual|id]; cbn [run_call snd fst].
  - pose proof (inv_reserve now at_ s G request Hnd Hat Hinv Hok) as Hr. by destruct (reserve rows s request at_).
  - cbn in Hok. apply (inv_settle now at_ s G id _ (reconcile_bucket usage actual)); try done.
    + intros g x [= <-]. cbn. unfold quotaActualRequestsDelta.
      split_and!; try done. intros. destruct actual as [[]|]; try lia. destruct (Z.ltb_spec 1 z); lia.
    + intros g r x Hr Ht Hr' Ht'. cbn. lia.
  - apply (inv_settle now at_ s G id _ release_bucket); try done. intros g r x Hr Ht Hr' Ht'. cbn. lia.
Qed.

Lemma inv_calls now s G calls :
  NoDup (map snd rows) → 0 <= now → quota_inv now s G → calls_ok now calls →
  ∃ now', now <= now' ∧ quota_inv now' (run_ledger s G calls).1 (run_ledger s G calls).2 ∧
    now' = default now (fst <$> last calls).
Proof.
  intros Hnd. revert now s G. induction calls as [|[at_ call] calls IH]; intros now s G Hnow Hinv Hok.
  { exists now. split_and!; [lia|done|done]. }
  destruct Hok as (Hat & Hc & Hcs). cbn [run_ledger].
  destruct (IH at_ _ _ ltac:(lia) (inv_call now at_ s G call Hnd ltac:(lia) Hinv Hc) Hcs) as (now' & Hle & Hi & E).
  exists now'. split_and!; [lia|done|]. rewrite last_cons. subst now'. by destruct (last calls).
Qed.

Lemma inv_empty : (∀ rule k cap, (rule, k) ∈ rows → qr_requestsPerMinute rule = Some cap → 0 <= cap) →
  quota_inv 0 empty_limiter [].
Proof.
  intros Hcap. split.
  - intros k. cbn. rewrite lookup_empty. by intros g ?%elem_of_nil.
  - by intros id r.
  - by intros g ?%elem_of_nil.
  - constructor.
  - by intros g ?%elem_of_nil.
  - by intros g ?%elem_of_nil.
  - intros rule k cap w Hr Hc. cbn. by eapply Hcap.
Qed.
End Ledger.

(** ** The in-process limiter *)

Lemma canonical_nodup rules : NoDup (map snd (canonical_order rules)).
Proof.
  assert (map snd (canonical_order rules) ≡ₚ seq 0 (length rules)) as ->; [|apply NoDup_seq].
  unfold canonical_order. rewrite sort_rules_perm.
  assert (map snd (snd <$> imap (fun index rule => (quotaRuleKey rule, (rule, index))) rules) = seq 0 (length rules)) as ->; [|done].
  apply list_eq. intros i. unfold fmap. rewrite !list_lookup_fmap, list_lookup_imap.
  destruct (rules !! i) eqn:E; cbn.
  - symmetry. apply lookup_seq. apply lookup_lt_Some in E. lia.
  - symmetry. apply lookup_ge_None. rewrite length_seq. by apply lookup_ge_None.
Qed.

Lemma validate_caps i entries e n :
  validate_from i entries = Ok tt → e ∈ entries →
  qr_requestsPerMinute (copy_rule (default [] (asRecord (Some e)))) = Some n → 1 <= n.
Proof.
  revert i. induction entries as [|e' entries IH]; intros i Hv Hin; [by apply elem_of_nil in Hin|].
  cbn [validate_from] in Hv. apply bind_ok in Hv as ([] & He & Hv). apply elem_of_cons in Hin as [->|Hin]; [|by eapply IH].
  destruct e' as [| | | | | |r]; try done. unfold validate_rule in He.
  destruct (find_first (fun d => negb (dimension_ok r d)) DIMENSIONS); [done|]. unfold copy_rule. cbn [qr_requestsPerMinute asRecord default from_option id].
  destruct (prop r "requestsPerMinute") as [[| |m| | | |]|] eqn:Hp; try done.
  intros [= <-]. cbn [cap_ok] in He. destruct (Z.leb_spec 1 m); [done|]. by destruct (prop r "tokensPerMinute").
Qed.

Lemma snapshot_caps raw rules rule n :
  snapshotQuotaRules raw = Ok rules → rule ∈ rules → qr_requestsPerMinute rule = Some n → 1 <= n.
Proof.
  unfold snapshotQuotaRules. intros ([] & Hv & Hs)%bind_ok. destruct (first_duplicate _ _ _) as [[]|]; [done|].
  injection Hs as <-. intros (e & -> & Hin)%list_elem_of_fmap.
  destruct raw as [| | | | |entries|]; try (by apply elem_of_nil in Hin). destruct entries as [|e' entries]; [done|].
  by eapply validate_caps.
Qed.

Lemma canonical_elem rules rule k : (rule, k) ∈ canonical_order rules → rule ∈ rules.
Proof.
  unfold canonical_order. intros ([key row] & E & Hin)%list_elem_of_fmap. rewrite sort_rules_perm in Hin.
  apply elem_of_lookup_imap in Hin as (i & r & E' & Hl). cbn in E. subst row. injection E' as _ -> ->.
  by eapply list_elem_of_lookup_2.
Qed.

Lemma limiter_inv raw rules calls :
  snapshotQuotaRules raw = Ok rules → calls_ok 0 calls →
  let r := run_ledger (canonical_order rules) empty_limiter [] calls in
  quota_inv (canonical_order rules) (default 0 (fst <$> last calls)) r.1 r.2 ∧ 0 <= default 0 (fst <$> last calls).
Proof.
  intros Hs Hok. destruct (inv_calls (canonical_order rules) 0 empty_limiter [] calls) as (now & Hle & Hi & <-).
  - apply canonical_nodup.
  - done.
  - apply inv_empty. intros rule k cap Hr%canonical_elem Hc. pose proof (snapshot_caps _ _ _ _ Hs Hr Hc). lia.
  - done.
  - done.
Qed.

(** C25: The request cap of a rule is hard.  For every rule set that passes construction
    and every sequence of calls with non-negative counts under a clock that does not
    run backwards, the requests admitted in any window under a rule, less those
    released unused in it, never exceed its requestsPerMinute, whatever was settled,
    and so in any sixty seconds no more than twice the cap is admitted. *)
Theorem request_cap_is_hard raw rules calls rule k cap :
  snapshotQuotaRules raw = Ok rules → calls_ok 0 calls →
  (rule, k) ∈ canonical_order rules → qr_requestsPerMinute rule = Some cap →
  let G := (run_ledger (canonical_order rules) empty_limiter [] calls).2 in
  (∀ w, total gr_admitted (counted k w) G <= cap) ∧
  ∀ t, 0 <= t →
    total gr_admitted (fun g => bool_decide (t <= gr_at g < t + QUOTA_WINDOW_MS) && bool_decide (k ∈ gr_keys g)) G <= 2 * cap.
Proof.
  intros Hs Hok Hrow Hcap G. destruct (limiter_inv raw rules calls Hs Hok) as [Hi _]. fold G in Hi.
  assert (∀ w, total gr_admitted (counted k w) G <= cap) as Hw by (intros w; by eapply qi_cap).
  split; [done|]. intros t Ht.
  pose proof (Hw (windowStartAt t)). pose proof (Hw (windowStartAt t + QUOTA_WINDOW_MS)).
  assert (total gr_admitted (fun g => bool_decide (t <= gr_at g < t + QUOTA_WINDOW_MS) && bool_decide (k ∈ gr_keys g)) G
    <= total gr_admitted (counted k (windowStartAt t)) G + total gr_admitted (counted k (windowStartAt t + QUOTA_WINDOW_MS)) G);
    [|lia].
  apply total_split.
  - intros g Hg. by destruct (qi_rows _ _ _ _ Hi g Hg) as (? & _).
  - intros g Hg [Hat%bool_decide_eq_true Hk]%andb_true_iff. unfold counted. rewrite Hk, !andb_true_r, !bool_decide_eq_true.
    destruct (window_multiple t Ht) as [q Hq], (window_multiple (gr_at g) ltac:(lia)) as [q' Hq'].
    pose proof (window_bounds t Ht). pose proof (window_bounds (gr_at g) ltac:(lia)). unfold gr_window, QUOTA_WINDOW_MS in *. lia.
Qed.

(** C26: The windows count exactly what happened.  After any such sequence of calls the
    counters a rule shows in the current window are the requests and tokens of the
    grants of that window: a settled grant counts its actual tokens and the requests it
    really made, an open one its estimate, and a released one nothing. *)
Theorem window_counts_are_exact raw rules calls k now :
  snapshotQuotaRules raw = Ok rules → calls_ok 0 calls → default 0 (fst <$> last calls) <= now →
  let r := run_ledger (canonical_order rules) empty_limiter [] calls in
  window_counters r.1 k now =
    mkCounters (total gr_requests (counted k (windowStartAt now)) r.2) (total gr_tokens (counted k (windowStartAt now)) r.2).
Proof.
  intros Hs Hok Hnow r. destruct (limiter_inv raw rules calls Hs Hok) as [Hi Hpos]. fold r in Hi.
  pose proof (qi_buckets _ _ _ _ Hi k) as Hb. unfold window_counters.
  pose proof (window_mono _ now (conj Hpos Hnow)) as Hmono.
  assert (∀ w', (∀ g, g ∈ r.2 → k ∈ gr_keys g → gr_window g ≠ w') → ∀ f, total f (counted k w') r.2 = 0) as Hnone.
  { intros w' Hw f. apply total_none. intros g Hg. unfold counted. apply andb_false_iff.
    destruct (decide (k ∈ gr_keys g)) as [Hk|Hk]; [left; apply bool_decide_false; by apply Hw|right; by apply bool_decide_false]. }
  destruct (ql_buckets r.1 !! k) as [x|]; cbn in Hb.
  - destruct Hb as (H1 & H2 & H3 & H4). destruct (Z.eqb_spec (mb_windowStart x) (windowStartAt now)) as [E|E].
    + by rewrite H2, H3, E.
    + rewrite !Hnone; [done|..]; intros g Hg Hk; specialize (H4 g Hg Hk); lia.
  - rewrite !Hnone; [done|..]; intros g Hg Hk; by destruct (Hb g Hg).
Qed.
