(* ===== verification/QuotaExamples.v ===== *)
(** * The quota limiter at concrete inputs (packages/core/src/model/quota.ts) *)
From S2P Require Import Prelude Json Identity Usage Entries Quota QuotaKey QuotaOrder QuotaLaws.

#[local] Open Scope Z_scope.

Definition ex_per_model : json := JObj [("model", JStr "large"); ("requestsPerMinute", JNum 2)].
Definition ex_tokens : json := JObj [("provider", JStr "p"); ("tokensPerMinute", JNum 100)].
Definition ex_rules : json := JArr [ex_per_model; ex_tokens].
Definition ex_swapped : json := JArr [ex_tokens; ex_per_model].

Definition ex_rule_model : QuotaRule := mkRule None (Some "large") None None None None None None None (Some 2) None.
Definition ex_rule_tokens : QuotaRule := mkRule (Some "p") None None None None None None None None None (Some 100).

Lemma quota_built : snapshotQuotaRules ex_rules = Ok [ex_rule_model; ex_rule_tokens].
Proof. vm_compute. reflexivity. Qed.

Lemma quota_built_swapped : snapshotQuotaRules ex_swapped = Ok [ex_rule_tokens; ex_rule_model].
Proof. vm_compute. reflexivity. Qed.

Definition ask (tokens : Z) : QuotaCall :=
  q_reserve (mkRequest "p" "large" None (fun _ => None) (mkEstimate 1 tokens None)).

(** Two requests just before a window ends and two just after: the third of the first
    window is refused, and a settlement corrects the tokens of the second window. *)
Definition ex_calls : list (Z * QuotaCall) :=
  [(59000, ask 10); (59100, ask 10); (59200, ask 10); (60100, ask 30); (60200, ask 30);
   (60300, q_reconcile "mq-3" (mkUsage 40 5 0 0 None None None) (Some (Whole 3))); (60400, q_release "mq-4")].

Example ex_answers :
  (run_calls (canonical_order [ex_rule_model; ex_rule_tokens]) empty_limiter ex_calls).2 =
  [Some (granted "mq-1"); Some (granted "mq-2"); Some (refused (mkDenial 800 (requests_exhausted 2)));
   Some (granted "mq-3"); Some (granted "mq-4"); None; None].
Proof. vm_compute. reflexivity. Qed.

Lemma ex_calls_ok : calls_ok 0 ex_calls.
Proof. cbn. unfold quotaEstimateTokens, quotaActualTokens. cbn. lia. Qed.

Lemma ex_row : (ex_rule_model, 0%nat) ∈ canonical_order [ex_rule_model; ex_rule_tokens].
Proof. vm_compute. repeat constructor. Qed.

Lemma quota_order_independent_witness :
  snapshotQuotaRules ex_rules = Ok [ex_rule_model; ex_rule_tokens] ∧
  (run_calls (canonical_order [ex_rule_model; ex_rule_tokens]) (empty_limiter (K := nat)) ex_calls).2 =
    (run_calls (canonical_order [ex_rule_tokens; ex_rule_model]) (empty_limiter (K := nat)) ex_calls).2 ∧
  (run_calls (canonical_order [ex_rule_model; ex_rule_tokens]) (empty_limiter (K := nat)) ex_calls).2 =
    (run_calls (key_order [ex_rule_model; ex_rule_tokens]) (empty_limiter (K := string)) ex_calls).2.
Proof.
  split; [exact quota_built|].
  exact (quota_order_independent ex_rules ex_swapped _ _ ex_calls quota_built quota_built_swapped (perm_swap _ _ [])).
Defined.

Lemma request_cap_is_hard_witness :
  let G := (run_ledger (canonical_order [ex_rule_model; ex_rule_tokens]) empty_limiter [] ex_calls).2 in
  total gr_admitted (counted 0%nat 0) G = 2 ∧
  (∀ w, total gr_admitted (counted 0%nat w) G <= 2) ∧
  ∀ t, 0 <= t →
    total gr_admitted (fun g => bool_decide (t <= gr_at g < t + QUOTA_WINDOW_MS) && bool_decide (0%nat ∈ gr_keys g)) G <= 2 * 2.
Proof.
  split; [vm_compute; reflexivity|].
  exact (request_cap_is_hard ex_rules [ex_rule_model; ex_rule_tokens] ex_calls ex_rule_model 0%nat 2 quota_built ex_calls_ok ex_row eq_refl).
Defined.

Lemma window_counts_are_exact_witness :
  let r := run_ledger (canonical_order [ex_rule_model; ex_rule_tokens]) empty_limiter [] ex_calls in
  window_counters r.1 0%nat 60500 = mkCounters 3 45 ∧
  window_counters r.1 0%nat 60500 =
    mkCounters (total gr_requests (counted 0%nat (windowStartAt 60500)) r.2) (total gr_tokens (counted 0%nat (windowStartAt 60500)) r.2).
Proof.
  split; [vm_compute; reflexivity|].
  exact (window_counts_are_exact ex_rules [ex_rule_model; ex_rule_tokens] ex_calls 0%nat 60500 quota_built ex_calls_ok
    ltac:(vm_compute; discriminate)).
Defined.

(** ** Where the documentation and the code part *)

(** A request that can never fit is to be retried at once, so that its bounded
    attempts run out without waiting; beside a rule that is merely exhausted it waits
    for that rule's window. *)
Example never_fits_waits :
  (run_calls (canonical_order [ex_rule_model; ex_rule_tokens]) empty_limiter
     [(0, ask 10); (0, ask 10); (10000, ask 500)]).2 =
  [Some (granted "mq-1"); Some (granted "mq-2"); Some (refused (mkDenial 50000 (never_fits 500 100)))].
Proof. vm_compute. reflexivity. Qed.

(** A clock that steps back over a window boundary empties the bucket. *)
Example clock_step_resets_the_window :
  (run_calls (canonical_order [ex_rule_model]) empty_limiter
     [(60000, ask 1); (60001, ask 1); (59999, ask 1); (60002, ask 1)]).2 =
  [Some (granted "mq-1"); Some (granted "mq-2"); Some (granted "mq-3"); Some (granted "mq-4")].
Proof. vm_compute. reflexivity. Qed.
