(* ===== verification/SpawnAdmission.v ===== *)
(** * Spawn admission (packages/core/src/orchestrator/admission.ts)

    [AdmissionController]: the single point every spawn passes.  It reads the lineage
    index, debits the termination account and commits reserves on the run budget, which
    it shares with the rest of the run: its state holds the three of them.  A verdict is
    decided live, before the entry that carries it is journaled ([SpawnReplay] has the
    encoding of that entry).  [controller_admit] is the method [admit].

    The journal view is the argument [journal].  Identifiers are minted from a stream
    [mintId].  Amounts of a spec are finite numbers. *)
From S2P Require Import Prelude Json JsMap Entries Scope Identity Disposition Termination Lineage Num Pricing Budget.

Definition DEFAULT_MAX_DEPTH : Z := 1.
Definition MAX_DEPTH_CEILING : Z := 4.
Definition DEFAULT_MAX_CHILDREN_PER_NODE : Z := 16.

Inductive SpawnOrigin :=
  | or_workflow | or_orchestrate | or_spawn_agent | or_parallel_agents
  | or_decomposition | or_rung_respawn | or_reuse_link.

Inductive LineageRelation := rel_first | rel_respawn | rel_rung_retry | rel_decompose_child | rel_unpark_restart.

Definition relation_name (r : LineageRelation) : string :=
  match r with
  | rel_first => "first"
  | rel_respawn => "respawn"
  | rel_rung_retry => "rung-retry"
  | rel_decompose_child => "decompose-child"
  | rel_unpark_restart => "unpark-restart"
  end.

(** The lineage option of a spawn; [causeRef] is tested at run time. *)
Record SpawnLineageOpt := mkLineageOpt {
  lo_continues : string;
  lo_relation : option LineageRelation;
  lo_causeRef : option json;
}.

(** [Partial<ApproachSignatureInputs>]. *)
Record PartialSignature := mkPartialSig {
  ps_agentType : option string;
  ps_toolsetHash : option string;
  ps_schemaHash : option string;
  ps_isolation : option string;
}.

(** What [evaluateLineage] reads of a spec. *)
Record LineageSpec := mkLineageSpec {
  ls_name : string;
  ls_lineage : option SpawnLineageOpt;
  ls_approach : option string;
  ls_ancestry : option (list string);
  ls_signature : option PartialSignature;
}.

(** The computed block of a decision. *)
Record LineageBlock := mkBlock {
  lb_logicalTaskId : string;
  lb_relation : LineageRelation;
  lb_attemptOrdinal : nat;
  lb_causeRef : option json;
  lb_ancestry : list string;
  lb_approachSig : string;
  lb_approachSigCoarse : string;
  lb_approachTag : string;
}.

Inductive AdmitError :=
  | causeRef_required
  | ill_typed (e : LineageError)
  | bad_scope (e : ScopeError)
  | second_account.

Inductive ControllerError :=
  | bad_maxDepth
  | bad_controller_option (name : string)
  | bad_limits (e : LimitsError).

Section Types.
Context {T : Type}.

Record Roster := mkRoster { ro_floor : Z; ro_admittedChildren : Z; ro_liveExposureUsd : T }.

Record AdmitSpec := mkSpec {
  as_origin : SpawnOrigin;
  as_task : LineageSpec;
  as_childScope : string;
  as_parentAccountScope : string;
  as_budgetUsd : option T;
  as_estCostUsd : option T;
  as_pendingReserveUsd : option T;
  as_roster : option Roster;
  as_ladderLength : option Z;
  as_nodeKey : option string;
}.

Inductive ReserveSource := src_estCost | src_default.
Inductive ClampedBy := by_explicit_budget | by_fraction_ceiling.

Record BudgetReserve := mkReserve {
  br_reserveUsd : T;
  br_childCeilingUsd : option T;
  br_source : ReserveSource;
  br_clampedBy : option ClampedBy;
}.

Inductive AdmitRejectReason :=
  | rj_depth | rj_quota | rj_budget | rj_lifetime
  | rj_termination_exhausted | rj_ladder_exceeds_frozen
  | rj_lineage_exhausted | rj_lineage_busy
  | rj_osc_guard (spawnKey : string) (oscillationCount : N)
  | rj_roster_floor (floor admittedChildren seatsRemaining : Z) (perSeatProjectionUsd liveExposureUsd remainderUsd : T)
  | rj_reserve_exceeds_budget (agentType childAccount : string)
      (estCostUsd resolvedReserveUsd childCeilingUsd minimumBudgetUsd : T).

Record AdmitLineage := mkAdmitLineage { al_logicalTaskId : string; al_isNew : bool; al_depth : Z }.

(** The donor and boot of the reuse verdicts, and the dedup note, are never read here. *)
Inductive AdmitVerdict :=
  | v_admit (reserve : BudgetReserve) (spawnUnitsAfter : Z) (lineage : AdmitLineage)
  | v_reuse_full (donor : json) (spawnUnitsAfter : Z) (lineage : AdmitLineage)
  | v_admit_graft (donor : json) (reserve : BudgetReserve) (boot : json) (spawnUnitsAfter : Z) (lineage : AdmitLineage)
  | v_reject (reason : AdmitRejectReason).

Record AdmissionStatsBefore := mkStatsBefore {
  sb_spawnsBefore : Z;
  sb_childrenOfParentBefore : Z;
  sb_depth : Z;
  sb_lineage : option LineageStats;
}.

Record AdmissionDecision := mkDecision {
  ad_verdict : AdmitVerdict;
  ad_statsBefore : AdmissionStatsBefore;
  ad_nodeId : option string;
  ad_lineage : option LineageBlock;
  ad_ladderLength : option Z;
}.

(** What the constructor fixes. *)
Record ControllerOptions := mkOptions {
  co_maxDepth : Z;
  co_maxChildrenPerNode : Z;
  co_childBudgetFraction : T;
  co_flatReserveUsd : T;
  co_maxTotalSpawns : option Z;
  co_limits : EscalationLimits;
}.
End Types.

Arguments AdmitSpec T : clear implicits.
Arguments AdmitVerdict T : clear implicits.
Arguments AdmitRejectReason T : clear implicits.
Arguments AdmissionDecision T : clear implicits.
Arguments BudgetReserve T : clear implicits.
Arguments ControllerOptions T : clear implicits.
Arguments Roster T : clear implicits.

Record AdmissionController (T : Type) := mkController {
  ac_budget : RunBudget T;
  ac_termination : option TerminationAccount;
  ac_index : option LineageIndex;
  ac_childrenOf : gmap string Z;
  ac_admittedTotal : Z;
  ac_minted : N;
}.
Arguments mkController {T}.
Arguments ac_budget {T}.
Arguments ac_termination {T}.
Arguments ac_index {T}.
Arguments ac_childrenOf {T}.
Arguments ac_admittedTotal {T}.
Arguments ac_minted {T}.

(** [maxDepth], 1 when absent. *)
Definition max_depth_of (maxDepth : option json) : result ControllerError Z :=
  match maxDepth with
  | None | Some JNull => Ok DEFAULT_MAX_DEPTH
  | Some (JNum d) => if (d <? 1)%Z || (MAX_DEPTH_CEILING <? d)%Z then Err bad_maxDepth else Ok d
  | Some _ => Err bad_maxDepth
  end.

(** [requirePositiveInteger], of an option that may be absent. *)
Definition positive_integer (v : option json) (name : string) : result ControllerError (option Z) :=
  match v with
  | None => Ok None
  | Some (JNum n) => if (n <? 1)%Z then Err (bad_controller_option name) else Ok (Some n)
  | Some _ => Err (bad_controller_option name)
  end.

Definition spawnDepthOf (childScope : string) : result ScopeError Z :=
  segments ← parseScopePath childScope;
  Ok (Z.of_nat (length (List.filter (fun seg =>
        match seg with SegWorkflow _ _ | SegAgent _ | SegPlanNode _ => true | _ => false end) segments))).

Section Controller.
Context {T : Type} `{Num T}.
Variable stringify_frac : Z → positive → string.
Variable sha256 : string → string.
Variable nfc_lower : string → string.
Variable mintId : N → string.
Variable bopts : BudgetOptions T.
Variable copts : ControllerOptions T.
Implicit Types c : AdmissionController T.
Implicit Types spec : AdmitSpec T.

Definition DEFAULT_CHILD_BUDGET_FRACTION : T := num_div (num_of_Z 3) (num_of_Z 10).
Definition DEFAULT_FLAT_RESERVE_USD : T := num_div (num_of_Z 1) (num_of_Z 2).

(** [requireFraction]: in (0, 1]. *)
Definition requireFraction (v : option (jsnum T)) (name : string) : result ControllerError (option T) :=
  match v with
  | None => Ok None
  | Some (Finite x) =>
      if num_ltb num_zero x && num_leb x (num_of_Z 1) then Ok (Some x) else Err (bad_controller_option name)
  | Some NonFinite => Err (bad_controller_option name)
  end.

Definition non_negative (v : option (jsnum T)) (name : string) : result ControllerError (option T) :=
  match v with
  | None => Ok None
  | Some (Finite x) => if num_leb num_zero x then Ok (Some x) else Err (bad_controller_option name)
  | Some NonFinite => Err (bad_controller_option name)
  end.

(** The constructor; [lineage] is the binding, with its raw limits. *)
Definition newAdmissionController (budget : RunBudget T) (maxDepth maxChildrenPerNode maxTotalSpawns : option json)
    (childBudgetFraction flatReserveUsd : option (jsnum T)) (lineage : option (option record))
    : result ControllerError (ControllerOptions T * AdmissionController T) :=
  depth ← max_depth_of maxDepth;
  children ← positive_integer maxChildrenPerNode "maxChildrenPerNode";
  fraction ← requireFraction childBudgetFraction "childBudgetFraction";
  flat ← non_negative flatReserveUsd "flatReserveUsd";
  total ← positive_integer maxTotalSpawns "maxTotalSpawns";
  match validateEscalationLimits (default None lineage) with
  | Err e => Err (bad_limits e)
  | Ok limits =>
      Ok (mkOptions depth (default DEFAULT_MAX_CHILDREN_PER_NODE children)
            (default DEFAULT_CHILD_BUDGET_FRACTION fraction) (default DEFAULT_FLAT_RESERVE_USD flat) total limits,
          mkController budget None (match lineage with Some _ => Some newLineageIndex | None => None end) ∅ 0 0)
  end.

(** ** Setters *)

Definition with_budget c (b : RunBudget T) : AdmissionController T :=
  mkController b (ac_termination c) (ac_index c) (ac_childrenOf c) (ac_admittedTotal c) (ac_minted c).
Definition with_termination c (a : TerminationAccount) : AdmissionController T :=
  mkController (ac_budget c) (Some a) (ac_index c) (ac_childrenOf c) (ac_admittedTotal c) (ac_minted c).
Definition with_index c (x : option LineageIndex) : AdmissionController T :=
  mkController (ac_budget c) (ac_termination c) x (ac_childrenOf c) (ac_admittedTotal c) (ac_minted c).
Definition count_child c (nodeKey : string) : AdmissionController T :=
  mkController (ac_budget c) (ac_termination c) (ac_index c)
    (<[nodeKey := (default 0 (ac_childrenOf c !! nodeKey) + 1)%Z]> (ac_childrenOf c)) (ac_admittedTotal c + 1)%Z
    (ac_minted c).
Definition mint_next c : AdmissionController T * string :=
  (mkController (ac_budget c) (ac_termination c) (ac_index c) (ac_childrenOf c) (ac_admittedTotal c)
     (ac_minted c + 1)%N, mintId (ac_minted c)).

(** ** Lineage *)

(** [lineage()]: the index, caught up with the journal. *)
Definition lineage c (journal : list JournalEntry) : result AdmitError (AdmissionController T) :=
  match ac_index c with
  | None => Ok c
  | Some x =>
      match absorb stringify_frac sha256 nfc_lower x journal with
      | Ok x => Ok (with_index c (Some x))
      | Err e => Err (ill_typed e)
      end
  end.

Definition bindTermination c (a : TerminationAccount) (same : bool) : AdmissionController T * result AdmitError unit :=
  match ac_termination c with
  | Some _ => if same then (c, Ok tt) else (c, Err second_account)
  | None => (with_termination c a, Ok tt)
  end.

(** The signature inputs: what the spec leaves out is canonized. *)
Definition signature_of (task : LineageSpec) : ApproachSignatureInputs :=
  let legacy := LEGACY_SIGNATURE_INPUTS sha256 in
  let given := fun (f : PartialSignature → option string) fallback =>
    default fallback (ls_signature task ≫= f) in
  mkSigInputs (given ps_agentType (ls_name task)) (given ps_toolsetHash (si_toolsetHash legacy))
    (given ps_schemaHash (si_schemaHash legacy)) (given ps_isolation (si_isolation legacy)).

Definition block_of (task : LineageSpec) (logicalTaskId : string) (attempts : nat) : LineageBlock :=
  let coarse := approachSigCoarse stringify_frac sha256 (signature_of task) in
  mkBlock logicalTaskId
    (match ls_lineage task with None => rel_first | Some l => default rel_respawn (lo_relation l) end)
    attempts (ls_lineage task ≫= lo_causeRef) (default [] (ls_ancestry task))
    (approachSigOf stringify_frac sha256 nfc_lower coarse (ls_approach task)) coarse
    (normalizeApproachTag nfc_lower (ls_approach task)).

(** A continuation of a live task, or of one whose attempts are used up, is refused. *)
Definition lineage_refusal (x : option LineageIndex) (continued : option string) : option (AdmitRejectReason T) :=
  match x, continued with
  | Some x, Some id =>
      if hasLiveAttempt x id then Some rj_lineage_busy
      else if (el_maxAttemptsPerLogicalTask (co_limits copts) <=? Z.of_nat (attemptsUsed x id None))%Z
      then Some rj_lineage_exhausted
      else None
  | _, _ => None
  end.

Definition lacks_cause (task : LineageSpec) : bool :=
  match ls_lineage task with Some l => negb (is_number (lo_causeRef l)) | None => false end.

Definition evaluateLineage c (journal : list JournalEntry) (task : LineageSpec)
    : AdmissionController T * result AdmitError ((AdmitRejectReason T + LineageBlock) * option LineageStats) :=
  if lacks_cause task then (c, Err causeRef_required)
  else
    match lineage c journal with
    | Err e => (c, Err e)
    | Ok c =>
        let continued := lo_continues <$> ls_lineage task in
        let stats := x ← ac_index c; id ← continued; Some (statsOf x id None) in
        match lineage_refusal (ac_index c) continued with
        | Some reason => (c, Ok (inl reason, stats))
        | None =>
            let '(c, id) := match continued with Some id => (c, id) | None => mint_next c end in
            let attempts := match ac_index c with Some x => attemptsUsed x id None | None => 0%nat end in
            (c, Ok (inr (block_of task id attempts), stats))
        end
    end.

Definition registerLineageAdmit c (logicalTaskId : string) : AdmissionController T :=
  with_index c ((fun x => noteAdmitted x logicalTaskId) <$> ac_index c).

(** ** The reserve *)

(** [dispatchProjectionReserveUsd]. *)
Definition dispatchProjectionReserveUsd (estCostUsd budgetUsd : option T) (flatReserveUsd : T) : T :=
  let base := default flatReserveUsd estCostUsd in
  match budgetUsd with None => base | Some b => num_min base b end.

Definition projectedDispatchReserveUsd (estCostUsd budgetUsd : option T) : T :=
  dispatchProjectionReserveUsd estCostUsd budgetUsd (co_flatReserveUsd copts).

Definition spawnToolOrigin (o : SpawnOrigin) : bool :=
  match o with or_spawn_agent | or_parallel_agents => true | _ => false end.

Definition child_ceiling c spec : option T :=
  if spawnToolOrigin (as_origin spec) then as_budgetUsd spec
  else
    match remainderOf (ac_budget c) (as_parentAccountScope spec) with
    | Some remainder =>
        let cap := num_mul (co_childBudgetFraction copts) remainder in
        Some (match as_budgetUsd spec with None => cap | Some b => num_min b cap end)
    | None => as_budgetUsd spec
    end.

(** The reserve never exceeds the ceiling of the child. *)
Definition derive_reserve c spec : BudgetReserve T :=
  let wanted := default (co_flatReserveUsd copts) (as_estCostUsd spec) in
  let source := match as_estCostUsd spec with None => src_default | Some _ => src_estCost end in
  let ceiling := child_ceiling c spec in
  match ceiling with
  | Some x =>
      if num_ltb x wanted then
        mkReserve x ceiling source
          (Some (match as_budgetUsd spec with
                 | Some b => if num_eqb x b then by_explicit_budget else by_fraction_ceiling
                 | None => by_fraction_ceiling
                 end))
      else mkReserve wanted ceiling source None
  | None => mkReserve wanted None source None
  end.

(** ** Admission *)

Definition spawn_nodeKey spec : string := default (as_parentAccountScope spec) (as_nodeKey spec).
Definition ladder_of spec : Z := default 1%Z (as_ladderLength spec).

Definition termination_refusal c spec : option (AdmitRejectReason T) :=
  match ac_termination c with
  | None => None
  | Some a =>
      if (kMax (limits a) <? ladder_of spec)%Z then Some rj_ladder_exceeds_frozen
      else if spawnUnitsExhausted a then Some rj_termination_exhausted
      else None
  end.

(** The sequential roster test. *)
Definition roster_refusal c spec : option (AdmitRejectReason T) :=
  match as_roster spec with
  | None => None
  | Some r =>
      let seats := (ro_floor r - ro_admittedChildren r)%Z in
      if (0 <? seats)%Z then
        let perSeat := projectedDispatchReserveUsd (as_estCostUsd spec) (as_budgetUsd spec) in
        match remainderOf (ac_budget c) (as_parentAccountScope spec) with
        | Some remainder =>
            if num_ltb remainder (num_add (num_mul (num_of_Z seats) perSeat) (ro_liveExposureUsd r))
            then Some (rj_roster_floor (ro_floor r) (ro_admittedChildren r) seats perSeat (ro_liveExposureUsd r) remainder)
            else None
        | None => None
        end
      else None
  end.

(** The structural limits, in the order of the code. *)
Definition structural_refusal c spec (depth childrenBefore : Z) : option (AdmitRejectReason T) :=
  match termination_refusal c spec with
  | Some reason => Some reason
  | None =>
      if (co_maxDepth copts <? depth)%Z then Some rj_depth
      else if (co_maxChildrenPerNode copts <=? childrenBefore)%Z then Some rj_quota
      else if from_option (fun cap => (cap <=? ac_admittedTotal c)%Z) false (co_maxTotalSpawns copts) then Some rj_lifetime
      else
        match roster_refusal c spec with
        | Some reason => Some reason
        | None => if (spawnHeadroom bopts (ac_budget c) <=? 0)%Z then Some rj_lifetime else None
        end
  end.

(** The read-only evaluation of an embedded spawn. *)
Definition embedded_refused c spec : bool :=
  match remainderOf (ac_budget c) (as_parentAccountScope spec) with
  | None => false
  | Some remainder =>
      num_leb remainder num_zero ||
      num_ltb remainder (num_add (projectedDispatchReserveUsd (as_estCostUsd spec) (as_budgetUsd spec))
                           (default num_zero (as_pendingReserveUsd spec)))
  end.

(** The budget part: the reserve is committed, or evaluated read-only. *)
Definition budget_step c spec (reserve : BudgetReserve T) (commitReserve : bool) : AdmissionController T * bool :=
  if commitReserve then
    match admitSpawn bopts (ac_budget c) (Finite (br_reserveUsd reserve)) (as_parentAccountScope spec) with
    | (b, Ok _) => (with_budget c b, true)
    | (b, Err _) => (with_budget c b, false)
    end
  else (c, negb (embedded_refused c spec)).

Definition spawn_isNew spec : bool := match ls_lineage (as_task spec) with None => true | Some _ => false end.

(** The debit of the termination account; [None] when it refuses. *)
Definition debit_step c spec (logicalTaskId : string) : AdmissionController T * option Z :=
  match ac_termination c with
  | None => (c, Some (spawnHeadroom bopts (ac_budget c)))
  | Some a =>
      match debitSpawn a (Some (mkDebitLineage logicalTaskId (spawn_isNew spec) (Some (ladder_of spec)))) with
      | (a', Debited after) => (with_termination c a', Some after)
      | (a', _) => (with_termination c a', None)
      end
  end.

Definition controller_admit c (journal : list JournalEntry) spec (commitReserve : bool)
    : AdmissionController T * result AdmitError (AdmissionDecision T) :=
  match spawnDepthOf (as_childScope spec) with
  | Err e => (c, Err (bad_scope e))
  | Ok depth =>
      let nodeKey := spawn_nodeKey spec in
      let childrenBefore := default 0%Z (ac_childrenOf c !! nodeKey) in
      match evaluateLineage c journal (as_task spec) with
      | (c, Err e) => (c, Err e)
      | (c, Ok (evaluated, stats)) =>
          let statsBefore := mkStatsBefore (rb_spawned (ac_budget c)) childrenBefore depth stats in
          let reject c reason := (c, Ok (mkDecision (v_reject reason) statsBefore None None None)) in
          match evaluated with
          | inl reason => reject c reason
          | inr block =>
              match structural_refusal c spec depth childrenBefore with
              | Some reason => reject c reason
              | None =>
                  let reserve := derive_reserve c spec in
                  match budget_step c spec reserve commitReserve with
                  | (c, false) => reject c rj_budget
                  | (c, true) =>
                      let c := registerLineageAdmit (count_child c nodeKey) (lb_logicalTaskId block) in
                      match debit_step c spec (lb_logicalTaskId block) with
                      | (c, None) => reject c rj_termination_exhausted
                      | (c, Some spawnUnitsAfter) =>
                          let ladderLength := match ac_termination c with None => None | Some _ => Some (ladder_of spec) end in
                          let '(c, nodeId) := mint_next c in
                          (c, Ok (mkDecision
                                    (v_admit reserve spawnUnitsAfter
                                       (mkAdmitLineage (lb_logicalTaskId block) (spawn_isNew spec) depth))
                                    statsBefore (Some nodeId) (Some block) ladderLength))
                      end
                  end
              end
          end
      end
  end.

(** ** Resume *)

Definition recoverChild c (nodeKey : string) : AdmissionController T := count_child c nodeKey.

Definition recover_reserve c (reserve : T) (scope : string) : AdmissionController T * result BudgetError unit :=
  match admitRecovered (ac_budget c) reserve scope with
  | (b, Ok _) => (count_child (with_budget c b) scope, Ok tt)
  | (b, Err e) => (with_budget c b, Err e)
  end.

Definition recoverSettled c (scope : string) : AdmissionController T * result BudgetError unit :=
  recover_reserve c num_zero scope.

Definition recoverInFlight c (scope : string) (verdict : AdmitVerdict T) : AdmissionController T * result BudgetError unit :=
  match verdict with
  | v_reject _ => (c, Ok tt)
  | v_reuse_full _ _ _ => recover_reserve c num_zero scope
  | v_admit reserve _ _ | v_admit_graft _ reserve _ _ _ => recover_reserve c (br_reserveUsd reserve) scope
  end.
End Controller.
