(* ===== verification/SpawnLaws.v ===== *)
(** * Laws of spawn admission (packages/core/src/orchestrator/admission.ts)

    What [controller_admit] decides and what it changes, against the laws of the run budget, the
    termination account and the lineage index. *)
From Stdlib Require Import QArith Lqa.
From S2P Require Import Prelude Json JsMap Entries Scope Identity Disposition Termination Lineage Num Pricing Budget BudgetTree BudgetInv BudgetLaws SpawnAdmission.

Section Laws.
Context {T : Type} `{Num T}.
Variable stringify_frac : Z → positive → string.
Variable sha256 : string → string.
Variable nfc_lower : string → string.
Variable mintId : N → string.
Variable bopts : BudgetOptions T.
Variable copts : ControllerOptions T.
Implicit Types c : AdmissionController T.
Implicit Types spec : AdmitSpec T.

#[local] Abbreviation controller_admit := (controller_admit stringify_frac sha256 nfc_lower mintId bopts copts).
#[local] Abbreviation evaluateLineage := (evaluateLineage stringify_frac sha256 nfc_lower mintId copts).
#[local] Abbreviation absorb := (absorb stringify_frac sha256 nfc_lower).
#[local] Abbreviation block_of := (block_of stringify_frac sha256 nfc_lower).

(** ** Evaluating the lineage *)

Definition continued_of (task : LineageSpec) : option string := lo_continues <$> ls_lineage task.

(** The index after a look at the journal. *)
Definition caught_up c (journal : list JournalEntry) (x : option LineageIndex) : Prop :=
  match ac_index c with
  | None => x = None
  | Some y => ∃ y', absorb y journal = Ok y' ∧ x = Some y'
  end.

Definition attempts_in (x : option LineageIndex) (id : string) : nat :=
  match x with Some x => attemptsUsed x id None | None => 0%nat end.

Lemma evaluate_spec c journal task c1 res stats :
  evaluateLineage c journal task = (c1, Ok (res, stats)) →
  lacks_cause task = false ∧
  ∃ x minted, caught_up c journal x ∧
    c1 = mkController (ac_budget c) (ac_termination c) x (ac_childrenOf c) (ac_admittedTotal c) minted ∧
    match res with
    | inl reason => lineage_refusal copts x (continued_of task) = Some reason
    | inr b =>
        lineage_refusal copts x (continued_of task) = None ∧
        b = block_of task (default (mintId (ac_minted c)) (continued_of task))
              (attempts_in x (default (mintId (ac_minted c)) (continued_of task)))
    end.
Proof.
  unfold evaluateLineage. destruct (lacks_cause task); [done|].
  assert (∀ c0, lineage stringify_frac sha256 nfc_lower c journal = Ok c0 → ∃ x, caught_up c journal x ∧
    c0 = mkController (ac_budget c) (ac_termination c) x (ac_childrenOf c) (ac_admittedTotal c) (ac_minted c)) as Hl.
  { intros c0. unfold lineage, caught_up. destruct c as [b t [y|] ch n m]; cbn.
    - destruct (absorb y journal) as [y'|e] eqn:E; [|done]. intros [= <-]. eexists. split; [by eexists|done].
    - intros [= <-]. by eexists. }
  destruct (lineage _ _ _ _ _) as [c0|e]; [|done]. destruct (Hl c0 eq_refl) as (x & Hx & ->). cbn [ac_index].
  change (lo_continues <$> ls_lineage task) with (continued_of task).
  destruct (lineage_refusal copts x (continued_of task)) as [reason|] eqn:Hr.
  - intros [= <- <- _]. split; [done|]. by exists x, (ac_minted c).
  - destruct (continued_of task) as [id|] eqn:Hc; cbn; intros [= <- <- _]; (split; [done|]); eexists x, _; by split_and!.
Qed.

(** ** The verdict *)

Definition admit_debit spec (id : string) : option DebitLineage :=
  Some (mkDebitLineage id (spawn_isNew spec) (Some (ladder_of spec))).

Lemma debit_succeeds spec id a :
  (kMax (limits a) <? ladder_of spec)%Z = false → spawnUnitsExhausted a = false →
  ∃ a', debitSpawn a (admit_debit spec id) = (a', Debited (spawnUnits a - 1)) ∧
    limits a' = limits a ∧ spawnUnits a' = (spawnUnits a - 1)%Z.
Proof.
  intros Hk Hu. unfold debitSpawn, admit_debit, spawnUnitsExhausted in *. rewrite Hu. cbn. rewrite Hk.
  destruct (_ && _); by eexists.
Qed.

(** The state an admitted spawn leaves. *)
Definition admitted_state c (b : RunBudget T) (x : option LineageIndex) spec (id : string) c' : Prop :=
  ac_budget c' = b ∧
  ac_termination c' = (fun a => (debitSpawn a (admit_debit spec id)).1) <$> ac_termination c ∧
  ac_index c' = (fun y => noteAdmitted y id) <$> x ∧
  ac_childrenOf c' = <[spawn_nodeKey spec := (default 0 (ac_childrenOf c !! spawn_nodeKey spec) + 1)%Z]> (ac_childrenOf c) ∧
  ac_admittedTotal c' = (ac_admittedTotal c + 1)%Z.

(** The state a refused one leaves. *)
Definition refused_state c (b : RunBudget T) (x : option LineageIndex) c' : Prop :=
  ac_budget c' = b ∧ ac_termination c' = ac_termination c ∧ ac_index c' = x ∧
  ac_childrenOf c' = ac_childrenOf c ∧ ac_admittedTotal c' = ac_admittedTotal c.

Definition units_after c (b : RunBudget T) : Z :=
  match ac_termination c with Some a => (spawnUnits a - 1)%Z | None => spawnHeadroom bopts b end.

(** A verdict, by the checks that led to it. *)
Definition verdict_of c spec (depth : Z) (x : option LineageIndex) (cm : bool) c' (d : AdmissionDecision T) : Prop :=
  let children := default 0%Z (ac_childrenOf c !! spawn_nodeKey spec) in
  let id := default (mintId (ac_minted c)) (continued_of (as_task spec)) in
  let reserve := derive_reserve copts c spec in
  match lineage_refusal copts x (continued_of (as_task spec)) with
  | Some reason => ad_verdict d = v_reject reason ∧ refused_state c (ac_budget c) x c'
  | None =>
      match structural_refusal bopts copts c spec depth children with
      | Some reason => ad_verdict d = v_reject reason ∧ refused_state c (ac_budget c) x c'
      | None =>
          let '(c2, fits) := budget_step bopts copts c spec reserve cm in
          if fits then
            ad_verdict d = v_admit reserve (units_after c (ac_budget c2)) (mkAdmitLineage id (spawn_isNew spec) depth) ∧
            ad_lineage d = Some (block_of (as_task spec) id (attempts_in x id)) ∧
            ad_ladderLength d = (match ac_termination c with None => None | Some _ => Some (ladder_of spec) end) ∧
            admitted_state c (ac_budget c2) x spec id c'
          else ad_verdict d = v_reject rj_budget ∧ refused_state c (ac_budget c2) x c'
      end
  end.

(** What the budget part reads and writes. *)
Lemma budget_step_frame c c1 spec reserve cm :
  ac_budget c1 = ac_budget c →
  let r := budget_step bopts copts c spec reserve cm in
  budget_step bopts copts c1 spec reserve cm = (with_budget c1 (ac_budget r.1), r.2) ∧
  ac_termination r.1 = ac_termination c.
Proof.
  destruct c as [b t x ch n m], c1 as [b1 t1 x1 ch1 n1 m1]. cbn [ac_budget]. intros ->.
  unfold budget_step, embedded_refused. destruct cm; cbn; [|done].
  destruct (admitSpawn _ _ _ _) as [b' [[]|e]]; done.
Qed.

Lemma admit_verdict c journal spec cm c' d :
  controller_admit c journal spec cm = (c', Ok d) →
  ∃ depth x, spawnDepthOf (as_childScope spec) = Ok depth ∧ lacks_cause (as_task spec) = false ∧
    caught_up c journal x ∧ verdict_of c spec depth x cm c' d.
Proof.
  unfold controller_admit. destruct (spawnDepthOf _) as [depth|e] eqn:Hd; [|done].
  destruct (evaluateLineage c journal (as_task spec)) as [c1 [[res stats]|e]] eqn:He; [|done].
  destruct (evaluate_spec _ _ _ _ _ _ He) as (Hcause & x & minted & Hx & -> & Hres).
  intros Hadmit. exists depth, x. split_and!; try done. unfold verdict_of.
  destruct res as [reason|b].
  { rewrite Hres. injection Hadmit as <- <-. done. }
  destruct Hres as [Hres ->]. rewrite Hres. cbn [ac_budget ac_termination ac_index ac_childrenOf ac_admittedTotal] in Hadmit.
  set (c1 := mkController _ _ _ _ _ _) in *.
  change (structural_refusal bopts copts c1 spec depth (default 0%Z (ac_childrenOf c !! spawn_nodeKey spec)))
    with (structural_refusal bopts copts c spec depth (default 0%Z (ac_childrenOf c !! spawn_nodeKey spec))) in Hadmit.
  change (derive_reserve copts c1 spec) with (derive_reserve copts c spec) in Hadmit.
  destruct (structural_refusal _ _ _ _ _ _) as [reason|] eqn:Hs.
  { injection Hadmit as <- <-. done. }
  destruct (budget_step_frame c c1 spec (derive_reserve copts c spec) cm eq_refl) as [Hb Ht]. rewrite Hb in Hadmit.
  destruct (budget_step bopts copts c spec _ cm) as [c2 [|]]; cbn [fst snd] in Hadmit, Ht;
    [|injection Hadmit as <- <-; done].
  unfold debit_step in Hadmit. cbn [registerLineageAdmit with_index count_child with_budget ac_termination c1] in Hadmit.
  unfold structural_refusal, termination_refusal in Hs. unfold units_after, admitted_state.
  destruct (ac_termination c) as [a|] eqn:Ha.
  - destruct (Z.ltb_spec (kMax (limits a)) (ladder_of spec)) as [?|Hk]; [done|].
    destruct (spawnUnitsExhausted a) eqn:Hu; [done|].
    destruct (debit_succeeds spec (lb_logicalTaskId (block_of (as_task spec)
      (default (mintId (ac_minted c)) (continued_of (as_task spec)))
      (attempts_in x (default (mintId (ac_minted c)) (continued_of (as_task spec)))))) a) as (a' & Hdb & _ & _);
      [apply Z.ltb_ge; lia|done|].
    fold (admit_debit spec (lb_logicalTaskId (block_of (as_task spec)
      (default (mintId (ac_minted c)) (continued_of (as_task spec)))
      (attempts_in x (default (mintId (ac_minted c)) (continued_of (as_task spec))))))) in Hadmit.
    rewrite Hdb in Hadmit. cbn in Hadmit, Hdb. injection Hadmit as <- <-. cbn. rewrite Hdb. done.
  - cbn in Hadmit. injection Hadmit as <- <-. done.
Qed.
End Laws.

(** ** The reasons *)

Section Reasons.
Context {T : Type} `{Num T, !ExactNum T}.
Variable stringify_frac : Z → positive → string.
Variable sha256 : string → string.
Variable nfc_lower : string → string.
Variable mintId : N → string.
Variable bopts : BudgetOptions T.
Variable copts : ControllerOptions T.
Implicit Types c : AdmissionController T.
Implicit Types spec : AdmitSpec T.

#[local] Abbreviation controller_admit := (controller_admit stringify_frac sha256 nfc_lower mintId bopts copts).

(** The funds an embedded spawn lacks: the parent is spent out, or what dispatch will
    reserve does not fit beside the reserves still pending in the batch. *)
Definition lacks_funds c spec : Prop :=
  ∃ remainder, remainderOf (ac_budget c) (as_parentAccountScope spec) = Some remainder ∧
    (val remainder <= 0 ∨
     val remainder < val (projectedDispatchReserveUsd copts (as_estCostUsd spec) (as_budgetUsd spec)) +
       val (default num_zero (as_pendingReserveUsd spec)))%Q.

(** When a reason to refuse a spawn holds. *)
Definition holds_against c (x : option LineageIndex) spec (depth : Z) (cm : bool) (reason : AdmitRejectReason T) : Prop :=
  let attempts_of P := ∃ y id, x = Some y ∧ continued_of (as_task spec) = Some id ∧ P y id in
  match reason with
  | rj_lineage_busy => attempts_of (fun y id => hasLiveAttempt y id = true)
  | rj_lineage_exhausted =>
      attempts_of (fun y id => (el_maxAttemptsPerLogicalTask (co_limits copts) <= Z.of_nat (attemptsUsed y id None))%Z)
  | rj_ladder_exceeds_frozen => ∃ a, ac_termination c = Some a ∧ (kMax (limits a) < ladder_of spec)%Z
  | rj_termination_exhausted => ∃ a, ac_termination c = Some a ∧ (spawnUnits a <= 0)%Z
  | rj_depth => (co_maxDepth copts < depth)%Z
  | rj_quota => (co_maxChildrenPerNode copts <= default 0 (ac_childrenOf c !! spawn_nodeKey spec))%Z
  | rj_lifetime => (∃ cap, co_maxTotalSpawns copts = Some cap ∧ cap <= ac_admittedTotal c)%Z ∨
      (bo_spawnCap bopts <= rb_spawned (ac_budget c))%Z
  | rj_roster_floor floor admitted seats perSeat live remainder =>
      as_roster spec = Some (mkRoster floor admitted live) ∧ seats = (floor - admitted)%Z ∧ (0 < seats)%Z ∧
      perSeat = projectedDispatchReserveUsd copts (as_estCostUsd spec) (as_budgetUsd spec) ∧
      remainderOf (ac_budget c) (as_parentAccountScope spec) = Some remainder ∧
      (val remainder < inject_Z seats * val perSeat + val live)%Q
  | rj_budget =>
      if cm then ∃ e, refusal_reason bopts (ac_budget c) (Finite (br_reserveUsd (derive_reserve copts c spec)))
                        (as_parentAccountScope spec) e
      else lacks_funds c spec
  | _ => False
  end.

Lemma admit_spawn_refusal s reserve scope :
  tree_ok (rb_accounts s) →
  let r := admitSpawn bopts s reserve scope in
  match r.2 with
  | Ok _ => ∀ e, ¬ refusal_reason bopts s reserve scope e
  | Err e => refusal_reason bopts s reserve scope e ∧ rb_accounts r.1 = rb_accounts s ∧ rb_spawned r.1 = rb_spawned s
  end.
Proof.
  intros Ht. cbn zeta. pose proof (refuseSpawn_spec bopts s reserve scope Ht) as Hs. unfold admitSpawn.
  destruct (refuseSpawnIfInfeasible bopts s reserve scope) as [s1 [[]|e]]; cbn in Hs; [|by destruct Hs as (? & ? & ?)].
  destruct Hs as (Ha & Hn & r & l & -> & Hr & Hcap & Hl & Hroom). unfold admitRecovered.
  assert (chainOf (with_spawned s1 (rb_spawned s1 + 1)) scope = Ok l) as -> by (unfold chainOf; cbn; by rewrite Ha).
  cbn [snd]. destruct (chainOf_ok s scope l Ht Hl) as [Hsc Hm _ _]. intros []; cbn; try (by intros []); try done.
  - intros Hneg. specialize (Hneg r eq_refl). lra.
  - intros [-> Hno]. unfold chainOf in Hl. cbn in Hl. by rewrite Hno in Hl.
  - lia.
  - intros (r' & a & [= <-] & Hin & Hk & Hnot). apply Hnot. rewrite <- Hsc in Hin.
    apply list_elem_of_fmap in Hin as (a' & -> & Hin). rewrite (Hm a' Hin) in Hk. injection Hk as <-. by apply Hroom.
Qed.

Lemma lineage_reason c x spec depth cm :
  match lineage_refusal copts x (continued_of (as_task spec)) with
  | Some reason => holds_against c x spec depth cm reason
  | None => ¬ holds_against c x spec depth cm rj_lineage_busy ∧ ¬ holds_against c x spec depth cm rj_lineage_exhausted
  end.
Proof.
  unfold lineage_refusal. destruct x as [y|]; [destruct (continued_of (as_task spec)) as [id|] eqn:Hc|].
  - destruct (hasLiveAttempt y id) eqn:E; [by exists y, id|].
    destruct (Z.leb_spec (el_maxAttemptsPerLogicalTask (co_limits copts)) (Z.of_nat (attemptsUsed y id None))) as [Hle|Hlt].
    + exists y, id. by split_and!.
    + cbn. rewrite Hc. split; intros (? & ? & [= <-] & [= <-] & ?); [congruence|lia].
  - split; intros (? & ? & ? & Hc' & ?); congruence.
  - by split; intros (? & ? & ? & ?).
Qed.

Lemma structural_reason c x spec depth cm :
  match structural_refusal bopts copts c spec depth (default 0%Z (ac_childrenOf c !! spawn_nodeKey spec)) with
  | Some reason => holds_against c x spec depth cm reason
  | None => ∀ reason, holds_against c x spec depth cm reason → reason = rj_lineage_busy ∨ reason = rj_lineage_exhausted ∨ reason = rj_budget
  end.
Proof.
  unfold structural_refusal, termination_refusal.
  set (term := match ac_termination c with None => None | Some a => _ end).
  assert (match term with
    | Some reason => holds_against c x spec depth cm reason
    | None => ¬ holds_against c x spec depth cm rj_ladder_exceeds_frozen ∧ ¬ holds_against c x spec depth cm rj_termination_exhausted
    end) as Ht.
  { subst term. destruct (ac_termination c) as [a|] eqn:Ha; [|by split; intros (? & E & _); rewrite Ha in E].
    destruct (Z.ltb_spec (kMax (limits a)) (ladder_of spec)); [by exists a|]. unfold spawnUnitsExhausted.
    destruct (Z.leb_spec (spawnUnits a) 0); [by exists a|]. cbn. rewrite Ha. split; intros (? & [= <-] & ?); lia. }
  destruct term as [reason|]; [done|]. destruct Ht as [Ht1 Ht2].
  destruct (Z.ltb_spec (co_maxDepth copts) depth) as [?|Hdepth]; [done|].
  destruct (Z.leb_spec (co_maxChildrenPerNode copts) (default 0%Z (ac_childrenOf c !! spawn_nodeKey spec))) as [?|Hquota]; [done|].
  destruct (from_option _ false (co_maxTotalSpawns copts)) eqn:Htotal.
  { cbn. left. destruct (co_maxTotalSpawns copts) as [cap|]; [|done]. exists cap. by rewrite <- Z.leb_le. }
  destruct (roster_refusal copts c spec) as [reason|] eqn:Hroster.
  { unfold roster_refusal in Hroster. destruct (as_roster spec) as [[fl ad li]|] eqn:Hr; [|done]. cbn in Hroster.
    destruct (Z.ltb_spec 0 (fl - ad)); [|done]. destruct (remainderOf _ _) as [rem|] eqn:Hrem; [|done].
    destruct (num_ltb _ _) eqn:E; [|done]. injection Hroster as <-. cbn. rewrite Hr. split_and!; try done. apply ltb_true in E.
    rewrite val_add, val_mul, val_of_Z in E. exact E. }
  destruct (Z.leb_spec (spawnHeadroom bopts (ac_budget c)) 0) as [Hh|Hh]; unfold spawnHeadroom in Hh.
  { cbn. right. lia. }
  intros []; try (by auto); try done; cbn; intros Hreason; exfalso.
  - lia.
  - lia.
  - destruct Hreason as [(cap & Hcap & ?)|?]; [|lia]. rewrite Hcap in Htotal. cbn in Htotal. apply Z.leb_gt in Htotal. lia.
  - destruct Hreason as (Hr & -> & Hseats & -> & Hrem & Hlt). unfold roster_refusal in Hroster. rewrite Hr, Hrem in Hroster.
    cbn in Hroster. destruct (Z.ltb_spec 0 (floor - admittedChildren)); [|lia].
    destruct (num_ltb _ _) eqn:E; [done|]. apply ltb_false in E. rewrite val_add, val_mul, val_of_Z in E.
    apply Qlt_not_le in Hlt. by apply Hlt.
Qed.

Lemma funds_reason c spec : embedded_refused copts c spec = true ↔ lacks_funds c spec.
Proof.
  unfold embedded_refused, lacks_funds. destruct (remainderOf _ _) as [rem|]; [|by split; [|intros (? & ? & _)]].
  rewrite orb_true_iff, leb_true, ltb_true, val_add. unfold num_zero at 1. rewrite val_zero. split.
  - intros Hr. by exists rem.
  - by intros (? & [= <-] & Hr).
Qed.

Lemma budget_reason c x spec depth cm :
  tree_ok (rb_accounts (ac_budget c)) →
  let r := budget_step bopts copts c spec (derive_reserve copts c spec) cm in
  if r.2 then ¬ holds_against c x spec depth cm rj_budget ∧
    ac_budget r.1 = (if cm then (admitSpawn bopts (ac_budget c) (Finite (br_reserveUsd (derive_reserve copts c spec)))
                                   (as_parentAccountScope spec)).1 else ac_budget c)
  else holds_against c x spec depth cm rj_budget ∧
    rb_accounts (ac_budget r.1) = rb_accounts (ac_budget c) ∧ rb_spawned (ac_budget r.1) = rb_spawned (ac_budget c).
Proof.
  intros Ht. unfold budget_step, holds_against. destruct cm.
  - pose proof (admit_spawn_refusal (ac_budget c) (Finite (br_reserveUsd (derive_reserve copts c spec)))
      (as_parentAccountScope spec) Ht) as Hr.
    destruct (admitSpawn _ _ _ _) as [b [[]|e]]; cbn in *.
    + split; [|done]. intros [e He]. by eapply Hr.
    + destruct Hr as (? & ? & ?). split_and!; [by exists e|done..].
  - cbn. pose proof (funds_reason c spec) as Hf. destruct (embedded_refused copts c spec); cbn.
    + split; [by apply Hf|done].
    + split; [|done]. by intros ?%Hf.
Qed.

Lemma derived_reserve_fits c spec ceiling :
  child_ceiling copts c spec = Some ceiling → (val (br_reserveUsd (derive_reserve copts c spec)) <= val ceiling)%Q.
Proof.
  intros Hc. unfold derive_reserve. rewrite Hc. destruct (num_ltb _ _) eqn:E; cbn; [lra|]. by apply ltb_false in E.
Qed.

(** C8: The verdict on a spawn is exact.  A refusal carries a reason that holds against
    the spawn: its task is live or out of attempts, the ladder or the spawn units of
    the termination account, the depth, the children of its node, the lifetime caps,
    the roster that no longer fits, or the budget; it moves no counter, no account of
    the budget, no unit and no attempt.  An admission is given only when none of these
    reasons holds; it counts the child and the spawn once, debits the termination
    account once, notes one attempt of the task the verdict names, and reserves at most
    the ceiling of the child, on the budget when it commits and nowhere otherwise. *)
Theorem spawn_admission_spec parseDate c journal spec cm c' d :
  reachable parseDate bopts (ac_budget c) → controller_admit c journal spec cm = (c', Ok d) →
  ∃ depth x, spawnDepthOf (as_childScope spec) = Ok depth ∧ caught_up stringify_frac sha256 nfc_lower c journal x ∧
    match ad_verdict d with
    | v_reject reason =>
        holds_against c x spec depth cm reason ∧ ∃ b, refused_state c b x c' ∧
        rb_accounts b = rb_accounts (ac_budget c) ∧ rb_spawned b = rb_spawned (ac_budget c)
    | v_admit reserve units l =>
        (∀ reason, ¬ holds_against c x spec depth cm reason) ∧
        reserve = derive_reserve copts c spec ∧
        (∀ ceiling, child_ceiling copts c spec = Some ceiling → val (br_reserveUsd reserve) <= val ceiling)%Q ∧
        al_logicalTaskId l = default (mintId (ac_minted c)) (continued_of (as_task spec)) ∧
        admitted_state c (if cm then (admitSpawn bopts (ac_budget c) (Finite (br_reserveUsd reserve)) (as_parentAccountScope spec)).1
                          else ac_budget c) x spec (al_logicalTaskId l) c' ∧
        units = units_after bopts c (ac_budget c')
    | _ => False
    end.
Proof.
  intros Ht%reachable_tree Hd. apply admit_verdict in Hd as (depth & x & Hdepth & _ & Hx & Hv).
  exists depth, x. split_and!; [done..|]. unfold verdict_of in Hv.
  pose proof (lineage_reason c x spec depth cm) as Hl. destruct (lineage_refusal _ _ _) as [reason|].
  { destruct Hv as [-> ?]. split; [done|]. by eexists. }
  pose proof (structural_reason c x spec depth cm) as Hs. destruct (structural_refusal _ _ _ _ _ _) as [reason|].
  { destruct Hv as [-> ?]. split; [done|]. by eexists. }
  pose proof (budget_reason c x spec depth cm Ht) as Hb. cbn zeta in Hb.
  destruct (budget_step _ _ _ _ _ _) as [c2 [|]]; cbn [fst snd] in Hb, Hv.
  - destruct Hb as [Hb E], Hv as (-> & _ & _ & Hst), Hl as [Hl1 Hl2]. rewrite E in Hst. split_and!; try done.
    + intros reason Hr. by destruct (Hs _ Hr) as [->|[->| ->]].
    + apply derived_reserve_fits.
    + destruct Hst as (-> & _). by rewrite E.
  - destruct Hb as (Hb & E1 & E2), Hv as [-> Hst]. split; [done|]. by exists (ac_budget c2).
Qed.
End Reasons.
