(* ===== verification/SpawnRuns.v ===== *)
(** * The limits of spawn admission over runs (packages/core/src/orchestrator/admission.ts)

    Whatever a run interleaves between admissions (evaluations of lineages, budget
    operations, debits of the termination account), the limits hold. *)
From S2P Require Import Prelude Json JsMap Entries Scope Identity Disposition Termination Lineage Num Pricing Budget BudgetTree BudgetInv SpawnAdmission SpawnLaws.

Section Runs.
Context {T : Type} `{Num T}.
Variable stringify_frac : Z → positive → string.
Variable sha256 : string → string.
Variable nfc_lower : string → string.
Variable mintId : N → string.
Variable parseDate : string → option Z.
Variable bopts : BudgetOptions T.
Variable copts : ControllerOptions T.
Implicit Types c : AdmissionController T.
Implicit Types spec : AdmitSpec T.

#[local] Abbreviation controller_admit := (controller_admit stringify_frac sha256 nfc_lower mintId bopts copts).
#[local] Abbreviation evaluateLineage := (evaluateLineage stringify_frac sha256 nfc_lower mintId copts).

Definition is_admitted (d : AdmissionDecision T) : bool := match ad_verdict d with v_reject _ => false | _ => true end.

(** A step of a run, with the number of spawns it has admitted. *)
Inductive gate_step : AdmissionController T * Z → AdmissionController T * Z → Prop :=
  | gs_admit c n journal spec cm c' d :
      controller_admit c journal spec cm = (c', Ok d) → gate_step (c, n) (c', if is_admitted d then n + 1 else n)%Z
  | gs_throw c n journal spec cm c' e : controller_admit c journal spec cm = (c', Err e) → gate_step (c, n) (c', n)
  | gs_evaluate c n journal task : gate_step (c, n) ((evaluateLineage c journal task).1, n)
  | gs_register c n id : gate_step (c, n) (registerLineageAdmit c id, n)
  | gs_budget c n op : gate_step (c, n) (with_budget c (run_op bopts parseDate (ac_budget c) op), n)
  | gs_debit c n a op :
      ac_termination c = Some a → gate_step (c, n) (with_termination c (apply_op a op).1, n).

Lemma debit_spends a op :
  limits (apply_op a op).1 = limits a ∧ (spawnUnits (apply_op a op).1 <= spawnUnits a)%Z ∧
  (0 <= spawnUnits a → 0 <= spawnUnits (apply_op a op).1)%Z.
Proof.
  destruct op; cbn; unfold debitSpawn, debitRevision, debitEscalation, debitRung, requireLineage, take_spawn, set_lineage;
    repeat case_match; cbn in *; simplify_eq/=; split_and!; try done; lia.
Qed.

(** What holds [n] admissions after a state [c0]. *)
Record within_limits (c0 : AdmissionController T) (s : AdmissionController T * Z) : Prop := {
  wl_count : (0 <= s.2)%Z;
  wl_total : ac_admittedTotal s.1 = (ac_admittedTotal c0 + s.2)%Z;
  wl_children : ∀ node, (default 0 (ac_childrenOf s.1 !! node) <=
                  Z.max (co_maxChildrenPerNode copts) (default 0 (ac_childrenOf c0 !! node)))%Z;
  wl_cap : ∀ cap, co_maxTotalSpawns copts = Some cap → (ac_admittedTotal s.1 <= Z.max cap (ac_admittedTotal c0))%Z;
  wl_units : ∀ a0, ac_termination c0 = Some a0 → (0 <= spawnUnits a0)%Z →
    ∃ a, ac_termination s.1 = Some a ∧ limits a = limits a0 ∧ (0 <= spawnUnits a)%Z ∧ (spawnUnits a + s.2 <= spawnUnits a0)%Z;
}.

Lemma structural_limits c spec depth children :
  structural_refusal bopts copts c spec depth children = None →
  (children < co_maxChildrenPerNode copts)%Z ∧
  (∀ cap, co_maxTotalSpawns copts = Some cap → ac_admittedTotal c < cap)%Z ∧
  (∀ a, ac_termination c = Some a → (kMax (limits a) <? ladder_of spec)%Z = false ∧ spawnUnitsExhausted a = false).
Proof.
  unfold structural_refusal, termination_refusal. intros Hs.
  destruct (ac_termination c) as [a|] eqn:Ha.
  - destruct (kMax (limits a) <? ladder_of spec)%Z eqn:Hk; [done|]. destruct (spawnUnitsExhausted a) eqn:Hu; [done|].
    destruct (co_maxDepth copts <? depth)%Z; [done|].
    destruct (Z.leb_spec (co_maxChildrenPerNode copts) children); [done|]. split; [done|].
    split; [|by intros ? [= <-]]. intros cap Hcap. rewrite Hcap in Hs. cbn in Hs. destruct (Z.leb_spec cap (ac_admittedTotal c)); [done|lia].
  - destruct (co_maxDepth copts <? depth)%Z; [done|].
    destruct (Z.leb_spec (co_maxChildrenPerNode copts) children); [done|]. split; [done|].
    split; [|done]. intros cap Hcap. rewrite Hcap in Hs. cbn in Hs. destruct (Z.leb_spec cap (ac_admittedTotal c)); [done|lia].
Qed.

(** Steps that leave counters, and spend no unit, keep the limits. *)
Lemma limits_keep c0 c n c' :
  within_limits c0 (c, n) → ac_childrenOf c' = ac_childrenOf c → ac_admittedTotal c' = ac_admittedTotal c →
  ac_termination c' = ac_termination c → within_limits c0 (c', n).
Proof. intros [H1 H2 H3 H4 H5] E1 E2 E3. split; cbn in *; rewrite ?E1, ?E2, ?E3; done. Qed.

Lemma evaluate_keeps c journal task :
  let c' := (evaluateLineage c journal task).1 in
  ac_childrenOf c' = ac_childrenOf c ∧ ac_admittedTotal c' = ac_admittedTotal c ∧ ac_termination c' = ac_termination c.
Proof.
  cbn zeta. destruct (evaluateLineage c journal task) as [c1 [[res stats]|e]] eqn:He.
  - apply evaluate_spec in He as (_ & x & minted & _ & -> & _). done.
  - unfold SpawnAdmission.evaluateLineage in He. destruct (lacks_cause task); [by injection He as <- _|].
    destruct (lineage _ _ _ _ _); [|by injection He as <- _]. destruct (lineage_refusal _ _ _); [done|].
    by destruct (lo_continues <$> ls_lineage task).
Qed.

Lemma admit_keeps c journal spec cm c' r :
  controller_admit c journal spec cm = (c', r) → (∀ d, r = Ok d → is_admitted d = false) →
  ac_childrenOf c' = ac_childrenOf c ∧ ac_admittedTotal c' = ac_admittedTotal c ∧ ac_termination c' = ac_termination c.
Proof.
  intros Ha Hr. destruct r as [d|e].
  - specialize (Hr d eq_refl). apply admit_verdict in Ha as (depth & x & _ & _ & _ & Hv). unfold verdict_of, is_admitted in *.
    destruct (lineage_refusal _ _ _); [by destruct Hv as [_ (_ & ? & _ & ? & ?)]|].
    destruct (structural_refusal _ _ _ _ _ _); [by destruct Hv as [_ (_ & ? & _ & ? & ?)]|].
    destruct (budget_step _ _ _ _ _ _) as [c2 [|]]; [by destruct Hv as (E & _); rewrite E in Hr|].
    by destruct Hv as [_ (_ & ? & _ & ? & ?)].
  - unfold SpawnAdmission.controller_admit in Ha. destruct (spawnDepthOf _); [|by injection Ha as <- _].
    pose proof (evaluate_keeps c journal (as_task spec)) as Hk.
    destruct (evaluateLineage c journal (as_task spec)) as [c1 [[res stats]|e1]]; [|by injection Ha as <- _].
    destruct res; [done|]. destruct (structural_refusal _ _ _ _ _ _); [done|].
    destruct (budget_step _ _ _ _ _ _) as [c2 [|]]; [|done]. by destruct (debit_step _ _ _ _) as [c3 [|]].
Qed.

Lemma admit_counts c0 c n journal spec cm c' d :
  within_limits c0 (c, n) → controller_admit c journal spec cm = (c', Ok d) → is_admitted d = true → within_limits c0 (c', n + 1)%Z.
Proof.
  intros [H1 H2 H3 H4 H5] Ha Hd. cbn in *. apply admit_verdict in Ha as (depth & x & _ & _ & _ & Hv).
  unfold verdict_of, is_admitted in *.
  destruct (lineage_refusal _ _ _); [by destruct Hv as [E _]; rewrite E in Hd|].
  destruct (structural_refusal _ _ _ _ _ _) eqn:Hs; [by destruct Hv as [E _]; rewrite E in Hd|].
  destruct (budget_step _ _ _ _ _ _) as [c2 [|]]; [|by destruct Hv as [E _]; rewrite E in Hd].
  destruct Hv as (_ & _ & _ & (_ & Et & _ & Ec & En)). apply structural_limits in Hs as (S1 & S2 & S3).
  split; cbn.
  - lia.
  - rewrite En. lia.
  - intros node. rewrite Ec. destruct (decide (node = spawn_nodeKey spec)) as [->|Hne].
    + rewrite lookup_insert_eq. cbn. specialize (H3 (spawn_nodeKey spec)). lia.
    + rewrite lookup_insert_ne by done. apply H3.
  - intros cap Hcap. rewrite En. specialize (S2 cap Hcap). lia.
  - intros a0 Ha0 Hpos. destruct (H5 a0 Ha0 Hpos) as (a & Ha & Hl & Hu & Hn). rewrite Et, Ha. cbn.
    destruct (S3 a Ha) as [Hk He]. match goal with |- context [debitSpawn a (admit_debit spec ?id)] =>
      destruct (debit_succeeds spec id a Hk He) as (a' & Hdb & Hl' & Hu') end.
    exists a'. rewrite Hdb. cbn. unfold spawnUnitsExhausted in He. apply Z.leb_gt in He. split_and!; [done|congruence|lia|lia].
Qed.

(** C28: The limits of spawn admission hold over every run.  From any state, however
    admissions interleave with evaluations of lineages, operations of the budget and
    debits of the termination account, no node has more children than its quota allows
    (or than were recovered before), the lifetime cap is not passed, every admission is
    counted once, and the spawn units of a bound account pay for each: a run admits no
    more spawns than the account had units. *)
Theorem spawn_limits_hold c0 c n :
  rtc gate_step (c0, 0%Z) (c, n) →
  ac_admittedTotal c = (ac_admittedTotal c0 + n)%Z ∧
  (∀ node, default 0 (ac_childrenOf c !! node) <=
     Z.max (co_maxChildrenPerNode copts) (default 0 (ac_childrenOf c0 !! node)))%Z ∧
  (∀ cap, co_maxTotalSpawns copts = Some cap → ac_admittedTotal c <= Z.max cap (ac_admittedTotal c0))%Z ∧
  (∀ a0, ac_termination c0 = Some a0 → (0 <= spawnUnits a0)%Z →
     ∃ a, ac_termination c = Some a ∧ limits a = limits a0 ∧ (0 <= spawnUnits a)%Z ∧ (spawnUnits a + n <= spawnUnits a0)%Z).
Proof.
  assert (∀ s s', gate_step s s' → within_limits c0 s → within_limits c0 s') as Hstep.
  { intros s s' Hst Hw. destruct Hst as [c1 k journal spec cm c' d Ha|c1 k journal spec cm c' e Ha|c1 k journal task|c1 k id|c1 k op|c1 k a op Ha].
    - destruct (is_admitted d) eqn:Hd; [by eapply admit_counts|].
      destruct (admit_keeps _ _ _ _ _ _ Ha) as (? & ? & ?); [by intros ? [= <-]|]. by eapply limits_keep.
    - destruct (admit_keeps _ _ _ _ _ _ Ha) as (? & ? & ?); [done|]. by eapply limits_keep.
    - destruct (evaluate_keeps c1 journal task) as (? & ? & ?). by eapply limits_keep.
    - by eapply limits_keep.
    - by eapply limits_keep.
    - destruct Hw as [H1 H2 H3 H4 H5]. destruct (debit_spends a op) as (L1 & L2 & L3). split; try done.
      intros a0 Ha0 Hpos. destruct (H5 a0 Ha0 Hpos) as (a1 & Ha1 & Hl & Hu & Hn). cbn in Ha1, Hn. rewrite Ha in Ha1. injection Ha1 as <-.
      eexists. split; [done|]. cbn. split_and!; [congruence|by apply L3|lia]. }
  intros Hrun. assert (within_limits c0 (c0, 0%Z)) as H0.
  { split; cbn; try done; try lia. intros a0 Ha0 Hpos. exists a0. split_and!; [done..|lia]. }
  assert (within_limits c0 (c, n)) as [H1 H2 H3 H4 H5].
  { remember (c0, 0%Z) as s0. remember (c, n) as s1. clear Heqs1. subst s0. revert H0.
    induction Hrun as [|s1' s2 s3 Hst _ IH]; [done|]. intros Hw. apply IH. by eapply Hstep. }
  by split_and!.
Qed.
End Runs.
