(* ===== verification/SpawnBatch.v ===== *)
(** * A batch of embedded spawns (packages/plan/src/plan-runner.ts, [admitAdd])

    A revision evaluates its spawns read-only, each beside the reserves of the ones
    before it, and dispatches them later, one by one, against the run budget.  What was
    admitted can be dispatched. *)
From Stdlib Require Import QArith Lqa.
From S2P Require Import Prelude Json JsMap Entries Scope Identity Disposition Termination Lineage Num Pricing Budget BudgetTree BudgetInv BudgetLaws SpawnAdmission SpawnLaws.

Section Batch.
Context {T : Type} `{Num T}.
Variable stringify_frac : Z → positive → string.
Variable sha256 : string → string.
Variable nfc_lower : string → string.
Variable mintId : N → string.
Variable bopts : BudgetOptions T.
Variable copts : ControllerOptions T.
Implicit Types c : AdmissionController T.
Implicit Types spec : AdmitSpec T.

#[local] Abbreviation controller_admit := (controller_admit stringify_frac sha256 nfc_lower mintId bopts copts).

(** The spec with the reserves pending before it, when there are any. *)
Definition with_pending spec (pending : T) : AdmitSpec T :=
  mkSpec (as_origin spec) (as_task spec) (as_childScope spec) (as_parentAccountScope spec) (as_budgetUsd spec)
    (as_estCostUsd spec) (if num_eqb pending num_zero then None else Some pending) (as_roster spec)
    (as_ladderLength spec) (as_nodeKey spec).

Definition projection spec : T := projectedDispatchReserveUsd copts (as_estCostUsd spec) (as_budgetUsd spec).

(** The admissions of one revision, and the reserves their dispatches will take; an
    error ends it. *)
Fixpoint embedded_batch c (journal : list JournalEntry) (specs : list (AdmitSpec T)) (pending : T)
    : AdmissionController T * list T :=
  match specs with
  | [] => (c, [])
  | spec :: specs =>
      match controller_admit c journal (with_pending spec pending) false with
      | (c, Err _) => (c, [])
      | (c, Ok d) =>
          match ad_verdict d with
          | v_admit _ _ _ =>
              let '(c, reserves) := embedded_batch c journal specs (num_add pending (projection spec)) in
              (c, projection spec :: reserves)
          | _ => embedded_batch c journal specs pending
          end
      end
  end.

(** The dispatches, in order. *)
Fixpoint dispatch_all (b : RunBudget T) (scope : string) (reserves : list T) : RunBudget T * list (result BudgetError unit) :=
  match reserves with
  | [] => (b, [])
  | r :: reserves =>
      let '(b, res) := admitSpawn bopts b (Finite r) scope in
      let '(b, rest) := dispatch_all b scope reserves in (b, res :: rest)
  end.
End Batch.

Section Dispatch.
Context {T : Type} `{Num T, !ExactNum T}.
Variable stringify_frac : Z → positive → string.
Variable sha256 : string → string.
Variable nfc_lower : string → string.
Variable mintId : N → string.
Variable bopts : BudgetOptions T.
Variable copts : ControllerOptions T.
Implicit Types c : AdmissionController T.
Implicit Types spec : AdmitSpec T.
Implicit Types b : RunBudget T.

(** Only the account of the batch has a ceiling, and it has [left] to spend. *)
Record batch_room b (scope : string) (left : Q) : Prop := {
  br_tree : tree_ok (rb_accounts b);
  br_account : ∃ a, rb_accounts b !! scope = Some a ∧
    from_option (fun ceiling => val (committed_sum a) + left <= val ceiling)%Q True (ac_ceiling a);
  br_others : ∀ k a, k ∈ scopes_of (rb_accounts b) scope → k ≠ scope → rb_accounts b !! k = Some a → ac_ceiling a = None;
}.

Lemma dispatch_one b scope r left :
  batch_room b scope (val r + left) → (0 < val r)%Q → (0 <= left)%Q → (rb_spawned b < bo_spawnCap bopts)%Z →
  let x := admitSpawn bopts b (Finite r) scope in
  x.2 = Ok tt ∧ batch_room x.1 scope left ∧ rb_spawned x.1 = (rb_spawned b + 1)%Z.
Proof.
  intros [Ht (a & Ha & Hroom) Hothers] Hr Hleft Hcap. cbn zeta.
  pose proof (refuseSpawn_spec bopts b (Finite r) scope Ht) as Hs.
  destruct (chainOf_total b scope Ht) as [(l & Hl & _)|[_ Hno]]; [|congruence].
  destruct (chainOf_ok b scope l Ht Hl) as [Hsc Hm _ _].
  assert (∀ y, y ∈ l → has_room r y) as Hfit.
  { intros y Hy. pose proof (Hm y Hy) as Hk. unfold has_room. destruct (decide (ac_scope y = scope)) as [E|E].
    - rewrite E in Hk. assert (y = a) as -> by congruence. destruct (ac_ceiling a) as [ce|]; [|done]. cbn in Hroom. lra.
    - assert (ac_ceiling y = None) as ->; [|done]. eapply Hothers; [|exact E|exact Hk]. rewrite <- Hsc. by apply list_elem_of_fmap_2. }
  unfold admitSpawn. destruct (refuseSpawnIfInfeasible _ _ _ _) as [b1 [[]|e]]; cbn [fst snd] in Hs.
  - destruct Hs as (E1 & E2 & _). unfold admitRecovered.
    assert (chainOf (with_spawned b1 (rb_spawned b1 + 1)) scope = Ok l) as Hl' by (unfold chainOf; cbn; by rewrite E1).
    rewrite Hl'. cbn [fst snd]. split; [done|]. rewrite update_chain_spawned. cbn [rb_spawned with_spawned]. split; [|by rewrite E2].
    destruct (update_walk (add_committed r) (with_spawned b1 (rb_spawned b1 + 1)) scope l ltac:(done)) as (Ht' & Hg & Hup);
      [cbn; by rewrite E1|done|]. change (rb_accounts (with_spawned b1 (rb_spawned b1 + 1))) with (rb_accounts b1) in *.
    rewrite E1 in *.
    assert (scopes_of (rb_accounts (update_chain (add_committed r) (with_spawned b1 (rb_spawned b1 + 1)) l)) scope =
      scopes_of (rb_accounts b) scope) as Hscopes by (apply scopes_grow; [done|done|by exists a]).
    split; [done| |].
    + exists (add_committed r a). rewrite Hup, Ha. split.
      * rewrite decide_True; [done|]. rewrite <- Hsc. apply list_elem_of_fmap.
        unfold chainOf in Hl. cbn in Hl. rewrite Ha in Hl. apply bind_ok in Hl as (rest & _ & [= <-]). exists a.
        split; [by rewrite (tr_keys _ Ht _ _ Ha)|by left].
      * cbn. destruct (ac_ceiling a) as [ce|]; [|done]. cbn in Hroom |- *. unfold committed_sum in *. cbn. num_lra.
    + intros k y Hin Hne Hk. rewrite Hscopes in Hin. rewrite Hup in Hk. case_decide; [|done].
      destruct (rb_accounts b !! k) as [z|] eqn:Hz; [|done]. injection Hk as <-. cbn. by eapply Hothers.
  - exfalso. destruct Hs as (_ & _ & Hs). destruct e; cbn in Hs; try done.
    + specialize (Hs r eq_refl). lra.
    + destruct Hs as [_ Hno]. congruence.
    + lia.
    + destruct Hs as (r' & y & [= <-] & Hin & Hk & Hnot). apply Hnot. rewrite <- Hsc in Hin.
      apply list_elem_of_fmap in Hin as (y' & -> & Hin). rewrite (Hm y' Hin) in Hk. injection Hk as <-. by apply Hfit.
Qed.

Fixpoint sum_of (reserves : list T) : Q := match reserves with [] => 0 | r :: rs => val r + sum_of rs end.

Lemma sum_nonneg rs : (∀ r, r ∈ rs → 0 < val r)%Q → (0 <= sum_of rs)%Q.
Proof.
  induction rs as [|r rs IH]; intros Hr; cbn; [lra|]. pose proof (Hr r ltac:(by left)).
  assert (0 <= sum_of rs)%Q by (apply IH; intros y Hy; apply Hr; by right). lra.
Qed.

Lemma dispatch_room b scope rs :
  batch_room b scope (sum_of rs) → (∀ r, r ∈ rs → 0 < val r)%Q →
  (rb_spawned b + Z.of_nat (length rs) <= bo_spawnCap bopts)%Z →
  Forall (eq (Ok tt)) (dispatch_all bopts b scope rs).2.
Proof.
  revert b. induction rs as [|r rs IH]; intros b Hb Hr Hcap; [constructor|]. cbn in *.
  destruct (dispatch_one b scope r (sum_of rs) Hb) as (E1 & E2 & E3); [apply Hr; by left| |lia|].
  { apply sum_nonneg. intros y Hy. apply Hr. by right. }
  destruct (admitSpawn bopts b (Finite r) scope) as [b' res]. cbn in E1, E2, E3.
  specialize (IH b' E2 ltac:(intros y Hy; apply Hr; by right) ltac:(lia)).
  destruct (dispatch_all bopts b' scope rs) as [b2 rest]. cbn in *. by constructor.
Qed.

(** ** The admissions *)

#[local] Abbreviation controller_admit := (controller_admit stringify_frac sha256 nfc_lower mintId bopts copts).
#[local] Abbreviation embedded_batch := (embedded_batch stringify_frac sha256 nfc_lower mintId bopts copts).

Lemma embedded_admit c journal spec c' d :
  controller_admit c journal spec false = (c', Ok d) →
  ac_budget c' = ac_budget c ∧ ∀ r u l, ad_verdict d = v_admit r u l → embedded_refused copts c spec = false.
Proof.
  intros (depth & x & _ & _ & _ & Hv)%admit_verdict. unfold verdict_of in Hv.
  destruct (lineage_refusal _ _ _) as [reason|]; [by destruct Hv as [-> (? & _)]|].
  destruct (structural_refusal _ _ _ _ _ _) as [reason|]; [by destruct Hv as [-> (? & _)]|].
  cbn in Hv. destruct (embedded_refused copts c spec); cbn in Hv.
  - by destruct Hv as [-> (? & _)].
  - by destruct Hv as (-> & _ & _ & (? & _)).
Qed.

Lemma remainder_value b scope a ceiling rem :
  rb_accounts b !! scope = Some a → ac_ceiling a = Some ceiling → remainderOf b scope = Some rem →
  (0 < val rem)%Q → (val rem == val ceiling - val (committed_sum a))%Q.
Proof.
  unfold remainderOf. intros -> Hc. cbn. rewrite Hc. cbn. intros [= <-]. unfold committed_sum.
  intros Hpos. num_lra.
Qed.

Lemma batch_fits c journal specs pending c' rs scope a ceiling :
  embedded_batch c journal specs pending = (c', rs) → (∀ spec, spec ∈ specs → as_parentAccountScope spec = scope) →
  rb_accounts (ac_budget c) !! scope = Some a → ac_ceiling a = Some ceiling → rs ≠ [] →
  (val (committed_sum a) + (val pending + sum_of rs) <= val ceiling)%Q.
Proof.
  intros Hb Hscope Ha Hc. revert c pending c' rs Hb Ha.
  induction specs as [|spec specs IH]; intros c pending c' rs Hb Ha Hrs; cbn in Hb; [injection Hb as <- <-; done|].
  assert (∀ s, s ∈ specs → as_parentAccountScope s = scope) as Hscope' by (intros s Hs; apply Hscope; by right).
  destruct (controller_admit c journal (with_pending spec pending) false) as [c1 [d|e]] eqn:Hd;
    [|injection Hb as <- <-; done].
  destruct (embedded_admit _ _ _ _ _ Hd) as [Hbud Hfits].
  destruct (ad_verdict d) as [r u l| | |] eqn:Hv; try (eapply IH; [done|exact Hb|by rewrite Hbud|done]).
  specialize (Hfits r u l eq_refl).
  destruct (embedded_batch c1 journal specs (num_add pending (projection copts spec))) as [c2 rs'] eqn:Hrest.
  injection Hb as <- <-. cbn [sum_of].
  assert (val (committed_sum a) + (val pending + val (projection copts spec)) <= val ceiling)%Q as Hfirst.
  { unfold embedded_refused in Hfits. cbn [as_parentAccountScope with_pending as_estCostUsd as_budgetUsd as_pendingReserveUsd] in Hfits.
    rewrite (Hscope spec ltac:(by left)) in Hfits.
    destruct (remainderOf (ac_budget c) scope) as [rem|] eqn:Hrem; [|unfold remainderOf in Hrem; rewrite Ha in Hrem; cbn in Hrem; by rewrite Hc in Hrem].
    apply orb_false_iff in Hfits as [H1%leb_false H2%ltb_false]. unfold num_zero at 1 in H1. rewrite val_zero in H1.
    pose proof (remainder_value _ _ _ _ _ Ha Hc Hrem H1) as Hval. rewrite val_add in H2. fold (projection copts spec) in H2.
    assert (val (default num_zero (if num_eqb pending num_zero then None else Some pending)) == val pending)%Q as E.
    { destruct (num_eqb pending num_zero) eqn:E; cbn; [|reflexivity]. unfold num_eqb in E.
      apply andb_true_iff in E as [E1%leb_true E2%leb_true]. lra. }
    rewrite E in H2. lra. }
  destruct rs' as [|r' rs']; [cbn; lra|].
  assert (val (committed_sum a) + (val (num_add pending (projection copts spec)) + sum_of (r' :: rs')) <= val ceiling)%Q as Hih.
  { eapply IH; [done|exact Hrest|by rewrite Hbud|done]. }
  rewrite val_add in Hih. lra.
Qed.

(** C27: What a revision admits can be dispatched.  When the spawns of a batch are
    admitted read-only under one account, each beside the reserves of those before it,
    and none but this account carries a ceiling on the walk to the root, the dispatches,
    in order, are all accepted by the run budget: provided every dispatch reserves
    something and the spawn cap has room for the batch. *)
Theorem batch_is_dispatchable parseDate c journal specs c' reserves scope :
  reachable parseDate bopts (ac_budget c) → is_Some (rb_accounts (ac_budget c) !! scope) →
  (∀ k a, k ∈ scopes_of (rb_accounts (ac_budget c)) scope → k ≠ scope → rb_accounts (ac_budget c) !! k = Some a → ac_ceiling a = None) →
  (∀ spec, spec ∈ specs → as_parentAccountScope spec = scope) →
  embedded_batch c journal specs num_zero = (c', reserves) →
  (∀ r, r ∈ reserves → 0 < val r)%Q →
  (rb_spawned (ac_budget c) + Z.of_nat (length reserves) <= bo_spawnCap bopts)%Z →
  Forall (eq (Ok tt)) (dispatch_all bopts (ac_budget c) scope reserves).2.
Proof.
  intros Ht%reachable_tree [a Ha] Hothers Hscope Hb Hpos Hcap. destruct reserves as [|r rs]; [constructor|].
  apply dispatch_room; [|done|done]. split; [done| |done]. exists a. split; [done|].
  destruct (ac_ceiling a) as [ceiling|] eqn:Hc; [|done].
  pose proof (batch_fits _ _ _ _ _ _ _ _ _ Hb Hscope Ha Hc ltac:(done)) as Hf. unfold num_zero in Hf.
  rewrite val_zero in Hf. cbn [from_option]. lra.
Qed.
End Dispatch.
