(* ===== verification/SpawnReplay.v ===== *)
(** * Spawn decisions in the journal (packages/core/src/orchestrator/admission.ts)

    The encoding of a decision in the entry that carries it, and what the folds make of
    that entry: the termination account and the lineage index a run keeps are those a
    reload of its journal builds. *)
From S2P Require Import Prelude Json JsMap Entries Scope Identity Disposition Termination Lineage Num Pricing Budget SpawnAdmission SpawnLaws.

(** ** The encoding

    [JSON.stringify] of the decision object; [num_json] prints an amount. *)
Section Encoding.
Context {T : Type}.
Variable num_json : T → json.

Definition given_member {A} (name : string) (f : A → json) (v : option A) : record :=
  match v with Some v => [(name, f v)] | None => [] end.

Definition reserve_json (r : BudgetReserve T) : json :=
  JObj ([("reserveUsd", num_json (br_reserveUsd r));
         ("source", JStr (match br_source r with src_estCost => "estCost" | src_default => "default" end))] ++
        given_member "clampedBy" (fun k => JStr (match k with by_explicit_budget => "explicit-budget"
                                                 | by_fraction_ceiling => "fraction-ceiling" end)) (br_clampedBy r) ++
        given_member "childCeilingUsd" num_json (br_childCeilingUsd r)).

Definition admit_lineage_json (l : AdmitLineage) : json :=
  JObj [("logicalTaskId", JStr (al_logicalTaskId l)); ("isNew", JBool (al_isNew l)); ("depth", JNum (al_depth l))].

Definition code_json (code : string) (rest : record) : json := JObj (("code", JStr code) :: rest).

Definition reason_json (reason : AdmitRejectReason T) : json :=
  match reason with
  | rj_depth => code_json "depth" []
  | rj_quota => code_json "quota" []
  | rj_budget => code_json "budget" []
  | rj_lifetime => code_json "lifetime" []
  | rj_termination_exhausted => code_json "termination_exhausted" []
  | rj_ladder_exceeds_frozen => code_json "ladder_exceeds_frozen" []
  | rj_lineage_exhausted => code_json "lineage_exhausted" []
  | rj_lineage_busy => code_json "lineage_busy" []
  | rj_osc_guard key n => code_json "osc_guard" [("spawnKey", JStr key); ("oscillationCount", JNum (Z.of_N n))]
  | rj_roster_floor floor admitted seats perSeat live remainder =>
      code_json "roster_floor"
        [("floor", JNum floor); ("admittedChildren", JNum admitted); ("seatsRemaining", JNum seats);
         ("perSeatProjectionUsd", num_json perSeat); ("liveExposureUsd", num_json live); ("remainderUsd", num_json remainder)]
  | rj_reserve_exceeds_budget agentType account est resolved ceiling minimum =>
      code_json "reserve_exceeds_budget"
        [("agentType", JStr agentType); ("childAccount", JStr account); ("estCostUsd", num_json est);
         ("resolvedReserveUsd", num_json resolved); ("childCeilingUsd", num_json ceiling); ("minimumBudgetUsd", num_json minimum)]
  end.

Definition verdict_json (v : AdmitVerdict T) : json :=
  match v with
  | v_admit reserve units l =>
      JObj [("kind", JStr "admit"); ("reserve", reserve_json reserve); ("spawnUnitsAfter", JNum units); ("lineage", admit_lineage_json l)]
  | v_reuse_full donor units l =>
      JObj [("kind", JStr "reuse_full"); ("donor", donor); ("spawnUnitsAfter", JNum units); ("lineage", admit_lineage_json l)]
  | v_admit_graft donor reserve boot units l =>
      JObj [("kind", JStr "admit_graft"); ("donor", donor); ("reserve", reserve_json reserve); ("boot", boot);
            ("spawnUnitsAfter", JNum units); ("lineage", admit_lineage_json l)]
  | v_reject reason => JObj [("kind", JStr "reject"); ("reason", reason_json reason)]
  end.

Definition outcome_name (o : AttemptOutcomeClass) : string :=
  match o with
  | OutOk => "ok" | OutEscalated => "escalated" | OutTaskError => "task-error" | OutTransientError => "transient-error"
  | OutNoProgress => "no-progress" | OutVerifyFailed => "verify-failed" | OutLimit => "limit" | OutAbandoned => "abandoned"
  end.

Definition stats_json (s : LineageStats) : json :=
  JObj [("attemptsUsed", JNum (Z.of_nat (st_attemptsUsed s))); ("escalationsUsed", JNum (Z.of_nat (st_escalationsUsed s)));
        ("stallStreak", JNum (Z.of_nat (st_stallStreak s)));
        ("approaches", JArr (map (fun '(sig, tag, n, o) =>
           JObj ([("approachSig", JStr sig)] ++ given_member "approachTag" id tag ++
                 [("attempts", JNum (Z.of_nat n)); ("lastOutcome", JStr (outcome_name o))])) (st_approaches s)))].

Definition stats_before_json (s : AdmissionStatsBefore) : json :=
  JObj ([("spawnsBefore", JNum (sb_spawnsBefore s)); ("childrenOfParentBefore", JNum (sb_childrenOfParentBefore s));
         ("depth", JNum (sb_depth s))] ++ given_member "lineage" stats_json (sb_lineage s)).

Definition block_json (b : LineageBlock) : json :=
  JObj ([("logicalTaskId", JStr (lb_logicalTaskId b)); ("relation", JStr (relation_name (lb_relation b)));
         ("attemptOrdinal", JNum (Z.of_nat (lb_attemptOrdinal b)))] ++
        given_member "causeRef" id (lb_causeRef b) ++
        [("ancestry", JArr (map JStr (lb_ancestry b))); ("approachSig", JStr (lb_approachSig b));
         ("approachSigCoarse", JStr (lb_approachSigCoarse b)); ("sigVersion", JNum 1); ("approachTag", JStr (lb_approachTag b))]).

Definition decision_json (d : AdmissionDecision T) : json :=
  JObj ([("verdict", verdict_json (ad_verdict d)); ("statsBefore", stats_before_json (ad_statsBefore d))] ++
        given_member "nodeId" JStr (ad_nodeId d) ++ given_member "lineage" block_json (ad_lineage d) ++
        given_member "ladderLength" JNum (ad_ladderLength d)).

(** The value of the entry that carries a decision: the code adds members of its own
    beside these three. *)
Record carries (e : JournalEntry) (d : AdmissionDecision T) : Prop := {
  cy_kind : e_kind e = KDecision;
  cy_value : ∃ v, e_value e = Some (JObj v) ∧ prop v "decisionType" = Some (JStr "spawn-admission") ∧
    prop v "decision" = Some (decision_json d) ∧ prop v "reject" = None;
}.
End Encoding.

(** The block as the index reads it back. *)
Definition read_back (b : LineageBlock) : SpawnLineage :=
  mkSpawnLineage (lb_logicalTaskId b) (Some (JStr (relation_name (lb_relation b)))) (lb_approachSig b)
    (Some (JStr (lb_approachSigCoarse b))) (Some (JStr (lb_approachTag b))).

(** ** The termination account *)

Lemma fold_termination_app initSeq s es e :
  fold_termination_entries initSeq s (es ++ [e]) =
  (s ← fold_termination_entries initSeq s es; if (e_seq e <=? initSeq)%N then Ok s else fold_termination_entry s e).
Proof.
  revert s. induction es as [|e' es IH]; intros s; cbn [app fold_termination_entries].
  - cbn. destruct (e_seq e <=? initSeq)%N; [done|]. by destruct (fold_termination_entry s e).
  - destruct (if (e_seq e' <=? initSeq)%N then Ok s else fold_termination_entry s e'); [|done]. apply IH.
Qed.

(** An entry after the journal moves the account of the fold by its own debits. *)
Lemma fold_appended journal e f a' :
  foldTermination journal = Ok (Some f) → (∀ e', e' ∈ journal → (e_seq e' < e_seq e)%N) →
  (∀ s, fs_account s = tf_account f → ∃ s', fold_termination_entry s e = Ok s' ∧ fs_account s' = a') →
  ∃ f', foldTermination (journal ++ [e]) = Ok (Some f') ∧ tf_account f' = a'.
Proof.
  unfold foldTermination. intros Hf Hseq Hstep. rewrite find_first_app.
  destruct (find_first is_init journal) as [ie|] eqn:Hi; [|done]. apply find_first_Some in Hi as [Hin _].
  apply bind_ok in Hf as (init & -> & Hf). cbn. destruct init as [init|]; [|done].
  destruct (validateTerminationLimits _); [|done]. apply bind_ok in Hf as (s & Hs & [= <-]). cbn in Hstep.
  rewrite fold_termination_app, Hs. cbn. destruct (N.leb_spec (e_seq e) (e_seq ie)) as [?|_]; [specialize (Hseq ie Hin); lia|].
  destruct (Hstep s eq_refl) as (s' & -> & <-). by eexists.
Qed.

Section Replay.
Context {T : Type} `{Num T}.
Variable stringify_frac : Z → positive → string.
Variable sha256 : string → string.
Variable nfc_lower : string → string.
Variable mintId : N → string.
Variable bopts : BudgetOptions T.
Variable copts : ControllerOptions T.
Variable num_json : T → json.
Implicit Types c : AdmissionController T.
Implicit Types spec : AdmitSpec T.

#[local] Abbreviation controller_admit := (controller_admit stringify_frac sha256 nfc_lower mintId bopts copts).
#[local] Abbreviation absorb := (absorb stringify_frac sha256 nfc_lower).
#[local] Abbreviation absorbEntry := (absorbEntry stringify_frac sha256 nfc_lower).
#[local] Abbreviation lineage := (lineage stringify_frac sha256 nfc_lower).

(** A decision [controller_admit] returns: what its entry says to the folds. *)
Lemma read_admitted d reserve units l b v :
  ad_verdict d = v_admit reserve units l → ad_lineage d = Some b →
  prop v "decision" = Some (decision_json num_json d) →
  readSpawnAdmission v = Some (mkAdmission (Some (al_logicalTaskId l)) (al_isNew l) (JNum <$> ad_ladderLength d) (Some (JNum units))) ∧
  ∃ decision, asRecord (prop v "decision") = Some decision ∧
    (∃ verdict, asRecord (prop decision "verdict") = Some verdict ∧ prop verdict "kind" = Some (JStr "admit")) ∧
    ∀ seq, readSpawnLineage stringify_frac sha256 nfc_lower seq decision = Ok (Some (read_back b)).
Proof.
  destruct d as [verdict stats nodeId lin ladder]. cbn. intros -> -> Hv. split.
  - unfold readSpawnAdmission. rewrite Hv. destruct l as [ltid [|] depth]; by destruct nodeId, ladder.
  - rewrite Hv. eexists. split; [done|]. split.
    + eexists. by split.
    + intros seq. unfold readSpawnLineage. destruct b as [id rel att [cause|] anc sig coarse tag]; by destruct nodeId.
Qed.

Lemma read_rejected d reason v :
  ad_verdict d = v_reject reason → prop v "decision" = Some (decision_json num_json d) →
  readSpawnAdmission v = None ∧
  ∃ decision, asRecord (prop v "decision") = Some decision ∧
    ∃ verdict, asRecord (prop decision "verdict") = Some verdict ∧ prop verdict "kind" = Some (JStr "reject").
Proof.
  destruct d as [verdict stats nodeId lin ladder]. cbn. intros -> Hv. split.
  - unfold readSpawnAdmission. by rewrite Hv.
  - rewrite Hv. eexists. split; [done|]. eexists. by split.
Qed.

Lemma fold_spawn_decision s e v :
  e_kind e = KDecision → e_value e = Some (JObj v) → prop v "decisionType" = Some (JStr "spawn-admission") →
  fold_termination_entry s e =
  match readSpawnAdmission v with
  | None => Ok s
  | Some ad => with_account s <$> applySpawnDebit (fs_account s) e ad
  end.
Proof.
  intros Hk Hv Hd. unfold fold_termination_entry, fold_decision. rewrite Hk, Hv. cbn [asRecord]. by rewrite Hd.
Qed.

(** The debit the fold makes of a decision is the debit [controller_admit] made. *)
Lemma decision_debit c journal spec cm c' d e a s :
  controller_admit c journal spec cm = (c', Ok d) → carries num_json e d → ac_termination c = Some a → fs_account s = a →
  ∃ s' a', fold_termination_entry s e = Ok s' ∧ fs_account s' = a' ∧ ac_termination c' = Some a'.
Proof.
  intros (depth & x & _ & _ & _ & Hv)%admit_verdict [Hk (v & Hval & Htype & Hdec & _)] Ha Hs.
  rewrite (fold_spawn_decision s e v Hk Hval Htype). unfold verdict_of in Hv.
  assert (∀ reason, ad_verdict d = v_reject reason → readSpawnAdmission v = None) as Hrej
    by (intros reason Hr; by destruct (read_rejected d reason v Hr Hdec)).
  destruct (lineage_refusal _ _ _) as [reason|].
  { destruct Hv as [Hr (_ & Et & _)]. rewrite (Hrej _ Hr), Et, Ha. by exists s, a. }
  destruct (structural_refusal _ _ _ _ _ _) as [reason|] eqn:Hst.
  { destruct Hv as [Hr (_ & Et & _)]. rewrite (Hrej _ Hr), Et, Ha. by exists s, a. }
  destruct (budget_step _ _ _ _ _ _) as [c2 [|]].
  - destruct Hv as (Hr & Hl & Hlad & (_ & Et & _)). destruct (read_admitted d _ _ _ _ v Hr Hl Hdec) as [-> _].
    rewrite Et, Ha. cbn. unfold structural_refusal, termination_refusal in Hst. rewrite Ha in Hst, Hlad.
    destruct (kMax (limits a) <? ladder_of spec)%Z eqn:Hkm; [done|]. destruct (spawnUnitsExhausted a) eqn:Hu; [done|].
    destruct (debit_succeeds spec (default (mintId (ac_minted c)) (continued_of (as_task spec))) a Hkm Hu) as (a' & Hdb & _).
    rewrite Hlad, Hdb. unfold applySpawnDebit. cbn. unfold admit_debit in Hdb. rewrite Hs, Hdb. unfold units_after. rewrite Ha. cbn.
    rewrite Z.eqb_refl. cbn. by eexists _, a'.
  - destruct Hv as [Hr (_ & Et & _)]. rewrite (Hrej _ Hr), Et, Ha. by exists s, a.
Qed.

(** ** The lineage index *)

(** A pending admission is only ever noted by [noteAdmitted]. *)
Lemma no_pending_settle x id : ix_pendingAdmits x = ∅ → ix_pendingAdmits (settle_pending x id) = ∅.
Proof. intros Hx. unfold settle_pending. by rewrite Hx, lookup_empty. Qed.

Lemma no_pending_register x seq l scope : ix_pendingAdmits x = ∅ → ix_pendingAdmits (registerAttempt x seq l scope) = ∅.
Proof. intros Hx. unfold registerAttempt. by apply no_pending_settle. Qed.

Lemma no_pending_foldl {A} (f : LineageIndex → A → LineageIndex) l x :
  (∀ y a, ix_pendingAdmits y = ∅ → ix_pendingAdmits (f y a) = ∅) → ix_pendingAdmits x = ∅ → ix_pendingAdmits (foldl f x l) = ∅.
Proof. intros Hf. revert x. induction l as [|a l IH]; intros x Hx; cbn; [done|]. apply IH. by apply Hf. Qed.

Lemma no_pending_admissions x e x' :
  register_admissions stringify_frac sha256 nfc_lower x e = Ok x' → ix_pendingAdmits x = ∅ → ix_pendingAdmits x' = ∅.
Proof.
  unfold register_admissions. intros (l & _ & [= <-])%bind_ok. apply no_pending_foldl. intros y [] Hy. by apply no_pending_register.
Qed.

Lemma no_pending_decision x e x' :
  absorbDecision stringify_frac sha256 nfc_lower x e = Ok x' → ix_pendingAdmits x = ∅ → ix_pendingAdmits x' = ∅.
Proof.
  unfold absorbDecision. intros Hd Hx. destruct (asRecord (e_value e)) as [value|]; [|by injection Hd as <-].
  destruct (is_str _ "spawn-admission").
  { revert Hd. unfold absorb_spawn_admission. repeat (case_match; try (by intros [= <-])).
    all: intros (? & _ & [= <-])%bind_ok; repeat case_match; try done; by apply no_pending_register. }
  destruct (is_str _ "ladder-verdict").
  { revert Hd. unfold absorb_ladder_verdict. set (x1 := if is_str _ "verify-failed" then _ else _).
    assert (ix_pendingAdmits x1 = ∅) as H1 by (unfold x1; repeat case_match; done). clearbody x1.
    repeat (case_match; try (by intros [= <-])). intros (? & _ & [= <-])%bind_ok. by apply no_pending_register. }
  destruct (is_str _ "escalation-decision"); [|by injection Hd as <-].
  revert Hd. unfold absorb_escalation. case_match; [by intros [= <-]|]. intros Hd. eapply no_pending_admissions; [exact Hd|].
  by apply no_pending_foldl.
Qed.

Lemma no_pending_entry x e x' : absorbEntry x e = Ok x' → ix_pendingAdmits x = ∅ → ix_pendingAdmits x' = ∅.
Proof.
  unfold Lineage.absorbEntry. destruct (e_kind e), (e_ref e); try apply no_pending_decision; try apply no_pending_admissions;
    intros [= <-] Hx; try done;
    unfold absorbResolution, absorbAbandon, absorbSpawnEntry, bindRoot; repeat case_match; simplify_eq/=; done.
Qed.

Lemma no_pending es x x' : absorb x es = Ok x' → ix_pendingAdmits x = ∅ → ix_pendingAdmits x' = ∅.
Proof.
  revert x. induction es as [|e es IH]; intros x Ha Hx; [by injection Ha as <-|]. cbn [Lineage.absorb] in Ha.
  destruct (_ <=? _)%Z; [by eapply IH|]. apply bind_ok in Ha as (x1 & H1 & Ha). eapply IH; [exact Ha|].
  by eapply no_pending_entry.
Qed.

(** The child slot an entry names. *)
Definition slot_of (e : JournalEntry) : option string := v ← asRecord (e_value e); readString v "childScope".

(** What the entry of a decision does to an index that has not seen it. *)
Lemma absorb_decision y e d :
  carries num_json e d → (ix_cursor y < Z.of_N (e_seq e))%Z →
  (∀ reason, ad_verdict d = v_reject reason → absorb y [e] = Ok (set_cursor y (e_seq e))) ∧
  (∀ reserve units l b, ad_verdict d = v_admit reserve units l → ad_lineage d = Some b →
     absorb y [e] = Ok (registerAttempt (set_cursor y (e_seq e)) (e_seq e) (read_back b) (slot_of e))).
Proof.
  intros [Hk (v & Hval & Htype & Hdec & Hrej)] Hc.
  assert (absorb y [e] = (x' ← absorb_spawn_admission stringify_frac sha256 nfc_lower (set_cursor y (e_seq e)) e v; Ok x')) as ->.
  { cbn [Lineage.absorb]. destruct (Z.leb_spec (Z.of_N (e_seq e)) (ix_cursor y)); [lia|].
    unfold Lineage.absorbEntry, absorbDecision. rewrite Hk, Hval. cbn [asRecord]. by rewrite Htype. }
  unfold absorb_spawn_admission. rewrite Hrej. rewrite decide_False by (by intros [? ?]).
  split.
  - intros reason Hv. destruct (read_rejected d reason v Hv Hdec) as (_ & decision & -> & verdict & -> & Hkind). by rewrite Hkind.
  - intros reserve units l b Hv Hl. destruct (read_admitted d reserve units l b v Hv Hl Hdec) as (_ & decision & -> & (verdict & -> & Hkind) & Hread).
    rewrite Hkind, Hread. unfold slot_of. by rewrite Hval.
Qed.

(** Noting an admission before its entry lands comes to the same. *)
Lemma noted_register y seq b scope :
  ix_pendingAdmits y = ∅ →
  registerAttempt (set_cursor (noteAdmitted y (lb_logicalTaskId b)) seq) seq (read_back b) scope =
  registerAttempt (set_cursor y seq) seq (read_back b) scope.
Proof.
  intros Hp. unfold registerAttempt, settle_pending, push_attempt, noteAdmitted, set_pending, set_cursor. cbn. rewrite Hp.
  rewrite !lookup_insert_eq, !lookup_empty. cbn. by rewrite delete_insert_id.
Qed.

(** The registered attempt is live, and is one more. *)
Lemma registered_attempt y seq b scope :
  index_wf y →
  let y' := registerAttempt (set_cursor y seq) seq (read_back b) scope in
  hasLiveAttempt y' (lb_logicalTaskId b) = true ∧
  attemptsUsed y' (lb_logicalTaskId b) None = S (attemptsUsed y (lb_logicalTaskId b) None).
Proof.
  intros Hwf. cbn zeta. set (id := lb_logicalTaskId b).
  assert (∀ x, ix_records (settle_pending x id) = ix_records x ∧ ix_attemptsByLtid (settle_pending x id) = ix_attemptsByLtid x) as Hs
    by (intros x; unfold settle_pending; by case_match).
  unfold registerAttempt. cbn [sl_logicalTaskId read_back sl_relation sl_approachSig sl_approachSigCoarse sl_approachTag]. fold id.
  set (r := mkAttempt id _ _ _ _ _ _ _ _ _ _).
  destruct (Hs (push_attempt (set_cursor y seq) r scope)) as [Hrec Hatt]. cbn in Hrec, Hatt. fold id in Hatt.
  split.
  - unfold hasLiveAttempt. apply orb_true_iff. right. rewrite Hatt, jm_get_set_eq. cbn [default from_option].
    apply existsb_elem_of. exists (length (ix_records y)). split; [apply elem_of_app; right; by left|].
    unfold is_live. rewrite Hrec, list_lookup_middle by done. done.
  - unfold attemptsUsed, attemptsOf. rewrite Hatt, Hrec, jm_get_set_eq. cbn [default from_option].
    unfold Datatypes.id. rewrite omap_app, List.filter_app, length_app. cbn [omap list_omap]. rewrite list_lookup_middle by done.
    cbn. rewrite Nat.add_1_r. do 2 f_equal.
    assert (∀ l : list nat, (∀ i, i ∈ l → (i < length (ix_records y))%nat) →
      omap (fun i => (ix_records y ++ [r]) !! i) l = omap (M := list) (fun i => ix_records y !! i) l) as ->; [|done|].
    { induction l as [|i l IH]; intros Hl; [done|]. cbn [omap list_omap]. rewrite lookup_app_l by (apply Hl; by left).
      rewrite IH; [done|]. intros j Hj. apply Hl. by right. }
    intros i Hi. by apply (Hwf id).
Qed.

Lemma cursor_below x es x' m :
  absorb x es = Ok x' → (ix_cursor x < m)%Z → (∀ e, e ∈ es → (Z.of_N (e_seq e) < m)%Z) → (ix_cursor x' < m)%Z.
Proof.
  revert x. induction es as [|e es IH]; intros x Ha Hx Hes; [by injection Ha as <-|].
  assert (∀ e', e' ∈ es → (Z.of_N (e_seq e') < m)%Z) as Hes' by (intros e' He'; apply Hes; by right).
  rewrite absorb_cons in Ha. destruct (_ <=? _)%Z; [by eapply IH|]. apply bind_ok in Ha as (x1 & H1 & Ha).
  eapply IH; [exact Ha| |done]. pose proof (absorbEntry_step _ _ _ _ _ _ H1) as [_ _ Hcur]. rewrite Hcur. cbn. apply Hes. by left.
Qed.

Lemma absorb_appended x journal e :
  absorb x journal = Ok x → absorb x (journal ++ [e]) = absorb x [e].
Proof. intros Hx. by rewrite absorb_app, Hx. Qed.

Lemma noted_past x journal id :
  absorb newLineageIndex journal = Ok x → absorb x journal = Ok x ∧ absorb (noteAdmitted x id) journal = Ok (noteAdmitted x id).
Proof.
  intros Hx. destruct (absorb_grows _ _ _ journal _ x Hx new_index_wf) as (_ & _ & Hp & _). split; by apply absorb_past.
Qed.

(** C7: The state a run keeps is the one a reload builds.  When a decision on a spawn,
    admission or refusal, is journaled after the journal it was decided on, the fold of
    the longer journal accepts it and gives the termination account the run kept while
    deciding, debits and allocations included; and the lineage index, which had noted
    the admission ahead of its entry, becomes the index of one pass over the longer
    journal, in which an admitted task has one attempt more and is live. *)
Theorem live_gate_is_reload c journal spec cm c' d e :
  controller_admit c journal spec cm = (c', Ok d) → carries num_json e d → (∀ e', e' ∈ journal → (e_seq e' < e_seq e)%N) →
  (∀ f, foldTermination journal = Ok (Some f) → ac_termination c = Some (tf_account f) →
     ∃ f', foldTermination (journal ++ [e]) = Ok (Some f') ∧ ac_termination c' = Some (tf_account f')) ∧
  (∀ x y, ac_index c = Some x → absorb x journal = Ok y → absorb newLineageIndex journal = Ok y →
     ∃ y', absorb newLineageIndex (journal ++ [e]) = Ok y' ∧ lineage c' (journal ++ [e]) = Ok (with_index c' (Some y')) ∧
       match ad_verdict d with
       | v_admit _ _ l => hasLiveAttempt y' (al_logicalTaskId l) = true ∧
           attemptsUsed y' (al_logicalTaskId l) None = S (attemptsUsed y (al_logicalTaskId l) None)
       | _ => True
       end).
Proof.
  intros Hadmit Hcarry Hseq. split.
  - intros f Hf Ha. destruct (decision_debit c journal spec cm c' d e (tf_account f) (mkFoldState (tf_account f) ∅ []) Hadmit Hcarry Ha eq_refl)
      as (s0 & a' & _ & _ & Ha').
    destruct (fold_appended journal e f a' Hf Hseq) as (f' & Hf' & <-); [|by exists f'].
    intros s Hs. destruct (decision_debit c journal spec cm c' d e (tf_account f) s Hadmit Hcarry Ha Hs) as (s' & a2 & ? & ? & Ha2).
    exists s'. split; [done|]. congruence.
  - intros x y Hx Hxy Hy. apply admit_verdict in Hadmit as (depth & x1 & _ & _ & Hcaught & Hv).
    unfold caught_up in Hcaught. rewrite Hx in Hcaught. destruct Hcaught as (y1 & Hy1 & ->).
    assert (y1 = y) as -> by congruence.
    assert (ix_cursor y < Z.of_N (e_seq e))%Z as Hcur.
    { eapply (cursor_below newLineageIndex journal); [done|cbn; lia|]. intros e' He'. specialize (Hseq e' He'). lia. }
    destruct (absorb_decision y e d Hcarry Hcur) as [Hrej Hadm].
    destruct (noted_past y journal "" Hy) as [Hpast _].
    assert (∀ reason, ad_verdict d = v_reject reason → ac_index c' = Some y →
      ∃ y', absorb newLineageIndex (journal ++ [e]) = Ok y' ∧ lineage c' (journal ++ [e]) = Ok (with_index c' (Some y')) ∧
      match ad_verdict d with v_admit _ _ l => hasLiveAttempt y' (al_logicalTaskId l) = true ∧
        attemptsUsed y' (al_logicalTaskId l) None = S (attemptsUsed y (al_logicalTaskId l) None) | _ => True end) as Hcase.
    { intros reason Hr Hc'. exists (set_cursor y (e_seq e)). rewrite Hr, absorb_app, Hy. unfold SpawnAdmission.lineage.
      rewrite Hc', (absorb_appended _ _ _ Hpast). cbn [mbind result_bind]. by rewrite (Hrej reason Hr). }
    unfold verdict_of in Hv. destruct (lineage_refusal _ _ _) as [reason|].
    { destruct Hv as [Hr (_ & _ & Hc' & _)]. by eapply Hcase. }
    destruct (structural_refusal _ _ _ _ _ _) as [reason|]; [destruct Hv as [Hr (_ & _ & Hc' & _)]; by eapply Hcase|].
    destruct (budget_step _ _ _ _ _ _) as [c2 [|]]; [|destruct Hv as [Hr (_ & _ & Hc' & _)]; by eapply Hcase].
    destruct Hv as (Hr & Hl & _ & (_ & _ & Hc' & _)).
    set (ltid := default (mintId (ac_minted c)) (continued_of (as_task spec))) in *.
    set (b := block_of stringify_frac sha256 nfc_lower (as_task spec) ltid (attempts_in (Some y) ltid)) in *.
    exists (registerAttempt (set_cursor y (e_seq e)) (e_seq e) (read_back b) (slot_of e)).
    rewrite Hr, absorb_app, Hy. cbn [mbind result_bind]. split; [by eapply Hadm|]. split.
    + unfold SpawnAdmission.lineage. rewrite Hc'. cbn [fmap option_fmap option_map]. destruct (noted_past y journal ltid Hy) as [_ Hnote].
      rewrite (absorb_appended _ _ _ Hnote). destruct (absorb_decision (noteAdmitted y ltid) e d Hcarry Hcur) as [_ Hadm2].
      rewrite (Hadm2 _ _ _ b Hr Hl). pose proof (noted_register y (e_seq e) b (slot_of e) ltac:(eapply no_pending; [exact Hy|done])) as Hn. change (lb_logicalTaskId b) with ltid in Hn. by rewrite Hn.
    + destruct (absorb_grows _ _ _ journal _ y Hy new_index_wf) as (Hwf & _). by apply (registered_attempt y (e_seq e) b).
Qed.
End Replay.
