(* ===== verification/SpawnCapacity.v ===== *)
(** * What an orchestration plan costs (packages/core/src/orchestrator/admission.ts)

    The acceptance tail, which prices the judge passes and compositions a declared
    posture arms, and the wire capacity estimate, which counts them.  Both read one
    derivation of what is armed.  A spec comes from a host that may not type it: an
    unknown key, a number that is not finite and a posture outside its vocabulary are
    represented. *)
From Stdlib Require Import QArith Lqa.
From S2P Require Import Prelude Json Num SpawnAdmission.

Inductive ClaimStage := stage_draft | stage_final | stage_both.
Inductive ClaimOnFound := claim_report | claim_carry | claim_fail | claim_repair.
Inductive CitationOnFound := citation_report | citation_repair | citation_fail.

#[global] Instance ClaimStage_eq_dec : EqDecision ClaimStage.
Proof. solve_decision. Defined.
#[global] Instance ClaimOnFound_eq_dec : EqDecision ClaimOnFound.
Proof. solve_decision. Defined.
#[global] Instance CitationOnFound_eq_dec : EqDecision CitationOnFound.
Proof. solve_decision. Defined.

Record SemanticRoundPosture := mkPosture {
  po_claimStage : option ClaimStage;
  po_claimOnFound : option ClaimOnFound;
  po_citationOnFound : option CitationOnFound;
  po_claimConfigured : option bool;
}.

Record SemanticRoundArming := mkArming {
  ar_claimRoundArmed : bool;
  ar_citationRoundArmed : bool;
  ar_roundArmed : bool;
  ar_citationRoundRejudgesClaim : bool;
}.

Definition acceptanceJudgePasses (stage : option ClaimStage) (onFound : option ClaimOnFound) : Z :=
  let resolvedStage := default stage_draft stage in
  let roundArmed := bool_decide (default claim_report onFound = claim_repair) && negb (bool_decide (resolvedStage = stage_draft)) in
  ((if decide (resolvedStage = stage_both) then 2 else 1) + (if roundArmed then 1 else 0))%Z.

Definition semanticRoundArming (posture : SemanticRoundPosture) : SemanticRoundArming :=
  let past_draft := negb (bool_decide (default stage_draft (po_claimStage posture) = stage_draft)) in
  let claim := bool_decide (po_claimOnFound posture = Some claim_repair) && past_draft in
  let citation := bool_decide (po_citationOnFound posture = Some citation_repair) in
  mkArming claim citation (claim || citation)
    (citation && negb claim && bool_decide (po_claimConfigured posture = Some true) && past_draft).

Section Capacity.
Context {T : Type} `{Num T}.

(** ** The acceptance tail *)

Record AcceptanceTailSpec := mkTailSpec {
  ts_posture : SemanticRoundPosture;
  ts_synthesisReserveUsd : option T;
  ts_claimJudgeEstCostUsd : option T;
  ts_finishEstRepairCostUsd : option T;
  ts_synthesisEstCostUsd : option T;
  ts_citationJudgeEstCostUsd : option T;
  ts_workingRoomUsd : T;
}.

Record AcceptanceTailTerms := mkTerms {
  tt_synthesisReserveUsd : T;
  tt_judgeEstUsd : T;
  tt_judgePasses : Z;
  tt_estRepairCostUsd : T;
  tt_roundCompositionUsd : T;
  tt_citation : option (T * Z);
  tt_workingRoomUsd : T;
}.

Definition citationDeclared (spec : AcceptanceTailSpec) : bool :=
  match ts_citationJudgeEstCostUsd spec, po_citationOnFound (ts_posture spec) with None, None => false | _, _ => true end.

Definition acceptanceTailRequiredUsd (spec : AcceptanceTailSpec) : T * AcceptanceTailTerms :=
  let posture := ts_posture spec in
  let arming := semanticRoundArming posture in
  let judgePasses := (acceptanceJudgePasses (po_claimStage posture) (po_claimOnFound posture) +
                      (if ar_citationRoundRejudgesClaim arming then 1 else 0))%Z in
  let citationJudgePasses := if citationDeclared spec then (1 + (if ar_citationRoundArmed arming then 1 else 0))%Z else 0%Z in
  let citationJudgeEstUsd := default num_zero (ts_citationJudgeEstCostUsd spec) in
  let terms := mkTerms (default num_zero (ts_synthesisReserveUsd spec)) (default num_zero (ts_claimJudgeEstCostUsd spec)) judgePasses
    (default num_zero (ts_finishEstRepairCostUsd spec))
    (if ar_roundArmed arming then default num_zero (ts_synthesisEstCostUsd spec) else num_zero)
    (if citationDeclared spec then Some (citationJudgeEstUsd, citationJudgePasses) else None) (ts_workingRoomUsd spec) in
  (num_add (num_add (num_add (num_add (num_add (tt_synthesisReserveUsd terms)
     (num_mul (tt_judgeEstUsd terms) (num_of_Z (tt_judgePasses terms)))) (tt_estRepairCostUsd terms))
     (tt_roundCompositionUsd terms)) (num_mul citationJudgeEstUsd (num_of_Z citationJudgePasses))) (tt_workingRoomUsd terms),
   terms).

(** ** The wire capacity *)

(** A posture member as a host gave it: absent, or a value of the vocabulary or not. *)
Definition Given (A : Type) : Type := option (option A).

Record WireCapacitySpec := mkWireSpec {
  ws_keys : list string;
  ws_childWires : option (jsnum T);
  ws_children : option (jsnum T);
  ws_turnsPerChild : option (jsnum T);
  ws_coordinationWires : option (jsnum T);
  ws_synthesisWires : option (jsnum T);
  ws_judgeWires : option (jsnum T);
  ws_citationJudgeWires : option (jsnum T);
  ws_extractWires : option (jsnum T);
  ws_claimStage : Given ClaimStage;
  ws_claimOnFound : Given ClaimOnFound;
  ws_citationOnFound : Given CitationOnFound;
  ws_claimConfigured : Given bool;
  ws_maxTotalRepairRounds : option json;
  ws_maxSemanticRepairRounds : option json;
}.

Inductive CapacityError :=
  | unknown_key (key : string)
  | half_pair
  | fan_out_undeclared
  | bad_number (name : string)
  | contradiction (name : string)
  | reserve_exceeds_pool
  | bad_posture (name : string).

Record WireCapacityEstimate := mkEstimate {
  we_baseWires : T;
  we_repairRoundDeltaWires : Z;
  we_mechanicalRepairDeltaWires : Z;
  we_wiresWithRound : T;
  we_roundOverheadShare : T;
  we_repairWiresCeiling : option Z;
}.

Definition known_keys : list string :=
  ["childWires"; "children"; "turnsPerChild"; "coordinationWires"; "synthesisWires"; "judgeWires"; "citationJudgeWires";
   "extractWires"; "claimStage"; "claimOnFound"; "citationOnFound"; "claimConfigured"; "maxTotalRepairRounds";
   "maxSemanticRepairRounds"].

(** [requireNonNegativeNumber]. *)
Definition count_of (v : jsnum T) (name : string) : result CapacityError T :=
  match v with
  | Finite x => if num_leb num_zero x then Ok x else Err (bad_number name)
  | NonFinite => Err (bad_number name)
  end.

Definition count_or_zero (v : option (jsnum T)) (name : string) : result CapacityError T :=
  match v with None => Ok num_zero | Some v => count_of v name end.

(** [requireNonNegativeInteger]. *)
Definition rounds_of (v : option json) (name : string) : result CapacityError (option Z) :=
  match v with
  | None => Ok None
  | Some (JNum n) => if (n <? 0)%Z then Err (bad_number name) else Ok (Some n)
  | Some _ => Err (bad_number name)
  end.

Definition same_count (v : jsnum T) (n : T) : bool := match v with Finite x => num_eqb x n | NonFinite => false end.

(** The declared fan-out. *)
Definition fan_out (spec : WireCapacitySpec) : result CapacityError T :=
  match ws_children spec, ws_turnsPerChild spec with
  | None, None =>
      match ws_childWires spec with
      | None => Err fan_out_undeclared
      | Some v => count_of v "childWires"
      end
  | Some children, Some turns =>
      children ← count_of children "children";
      turns ← count_of turns "turnsPerChild";
      let product := num_mul children turns in
      match ws_childWires spec with
      | None => Ok product
      | Some v => n ← count_of v "childWires"; if num_eqb n product then Ok n else Err (contradiction "childWires")
      end
  | _, _ => Err half_pair
  end.

(** The run repair pool, and the reserve inside it. *)
Definition repair_pool (spec : WireCapacitySpec) : result CapacityError (option Z * option Z) :=
  total ← rounds_of (ws_maxTotalRepairRounds spec) "maxTotalRepairRounds";
  reserve ← rounds_of (ws_maxSemanticRepairRounds spec) "maxSemanticRepairRounds";
  match total, reserve with
  | Some t, Some r => if (t <? r)%Z then Err reserve_exceeds_pool else Ok (total, reserve)
  | _, _ => Ok (total, reserve)
  end.

Definition posture_member {A} (v : Given A) (name : string) : result CapacityError (option A) :=
  match v with None => Ok None | Some None => Err (bad_posture name) | Some (Some a) => Ok (Some a) end.

Definition declared {A} (v : Given A) : bool := match v with None => false | Some _ => true end.

Definition postureDeclared (spec : WireCapacitySpec) : bool :=
  declared (ws_claimStage spec) || declared (ws_claimOnFound spec) || declared (ws_citationOnFound spec) ||
  declared (ws_claimConfigured spec).

Definition posture_of (spec : WireCapacitySpec) : result CapacityError SemanticRoundPosture :=
  stage ← posture_member (ws_claimStage spec) "claimStage";
  onFound ← posture_member (ws_claimOnFound spec) "claimOnFound";
  citation ← posture_member (ws_citationOnFound spec) "citationOnFound";
  configured ← posture_member (ws_claimConfigured spec) "claimConfigured";
  Ok (mkPosture stage onFound citation configured).

Definition claim_configured (posture : SemanticRoundPosture) : bool :=
  bool_decide (po_claimConfigured posture = Some true) || bool_decide (is_Some (po_claimStage posture)) ||
  bool_decide (is_Some (po_claimOnFound posture)).

Definition computed_judges (posture : SemanticRoundPosture) : Z * Z :=
  ((if claim_configured posture then (if decide (po_claimStage posture = Some stage_both) then 2 else 1) else 0)%Z,
   match po_citationOnFound posture with None => 0%Z | Some _ => 1%Z end).

Definition bit (b : bool) : Z := if b then 1 else 0.

Definition round_delta (arming : SemanticRoundArming) : Z :=
  if ar_roundArmed arming
  then (1 + bit (ar_claimRoundArmed arming) + bit (ar_citationRoundArmed arming) + bit (ar_citationRoundRejudgesClaim arming))%Z
  else 0%Z.

Definition agrees (v : option (jsnum T)) (computed : Z) : bool :=
  match v with None => true | Some v => same_count v (num_of_Z computed) end.

(** The judge wires, the citation judge wires and the delta of the round. *)
Definition judge_wires (spec : WireCapacitySpec) : result CapacityError (T * T * Z) :=
  if postureDeclared spec then
    posture ← posture_of spec;
    let '(judges, citations) := computed_judges posture in
    if negb (agrees (ws_judgeWires spec) judges) then Err (contradiction "judgeWires")
    else if negb (agrees (ws_citationJudgeWires spec) citations) then Err (contradiction "citationJudgeWires")
    else Ok (num_of_Z judges, num_of_Z citations, round_delta (semanticRoundArming posture))
  else
    judges ← count_or_zero (ws_judgeWires spec) "judgeWires";
    citations ← count_or_zero (ws_citationJudgeWires spec) "citationJudgeWires";
    Ok (judges, citations, 2%Z).

Definition mechanicalRepairDeltaWires : Z := 1.

Definition repair_ceiling (delta totalPool : Z) (semanticReserve : option Z) : Z :=
  let reserve := default 0%Z semanticReserve in
  let roundAllowed := (1 <=? totalPool)%Z && from_option (fun r => (1 <=? r)%Z) true semanticReserve in
  let withRound := if roundAllowed then (delta + (totalPool - Z.max 1 reserve) * mechanicalRepairDeltaWires)%Z else 0%Z in
  let withoutRound := ((totalPool - reserve) * mechanicalRepairDeltaWires)%Z in
  Z.max (Z.max withRound withoutRound) 0.

Definition wireCapacityEstimate (spec : WireCapacitySpec) : result CapacityError WireCapacityEstimate :=
  match find_first (fun k => negb (bool_decide (k ∈ known_keys))) (ws_keys spec) with
  | Some key => Err (unknown_key key)
  | None =>
      childWires ← fan_out spec;
      coordination ← count_or_zero (ws_coordinationWires spec) "coordinationWires";
      synthesis ← count_or_zero (ws_synthesisWires spec) "synthesisWires";
      extract ← count_or_zero (ws_extractWires spec) "extractWires";
      pool ← repair_pool spec;
      judges ← judge_wires spec;
      let '(judgeWires, citationJudgeWires, delta) := judges in
      let baseWires := num_add (num_add (num_add (num_add (num_add childWires coordination) synthesis) judgeWires)
                         citationJudgeWires) extract in
      Ok (mkEstimate baseWires delta mechanicalRepairDeltaWires (num_add baseWires (num_of_Z delta))
            (if num_eqb baseWires num_zero then num_zero else num_div (num_of_Z delta) baseWires)
            (total ← pool.1; Some (repair_ceiling delta total pool.2)))
  end.

Definition retryWireMultiplier (baseWires retries : jsnum T) : result CapacityError T :=
  retries ← count_of retries "retries";
  match baseWires with
  | Finite b => if num_ltb num_zero b then Ok (num_add (num_of_Z 1) (num_div retries b)) else Err (bad_number "baseWires")
  | NonFinite => Err (bad_number "baseWires")
  end.
End Capacity.

Arguments AcceptanceTailSpec T : clear implicits.
Arguments WireCapacitySpec T : clear implicits.
Arguments WireCapacityEstimate T : clear implicits.
Arguments AcceptanceTailTerms T : clear implicits.

(** ** Money and wires agree *)

Definition citation_passes {T} (terms : AcceptanceTailTerms T) : Z := from_option snd 0%Z (tt_citation terms).

(** The dispatches the tail pays for: judge passes, citation passes, compositions. *)
Definition paid_dispatches {T} (spec : AcceptanceTailSpec T) (terms : AcceptanceTailTerms T) : Z :=
  (tt_judgePasses terms + citation_passes terms + bit (ar_roundArmed (semanticRoundArming (ts_posture spec))))%Z.

Lemma posture_dispatches {T} `{Num T} (spec : AcceptanceTailSpec T) :
  claim_configured (ts_posture spec) = true →
  ts_citationJudgeEstCostUsd spec = None ∨ is_Some (po_citationOnFound (ts_posture spec)) →
  let '(judges, citations) := computed_judges (ts_posture spec) in
  (judges + citations + round_delta (semanticRoundArming (ts_posture spec)))%Z =
  paid_dispatches spec (acceptanceTailRequiredUsd spec).2.
Proof.
  destruct spec as [[stage onFound citation configured] sr je fe se ce wr]. cbn [ts_posture ts_citationJudgeEstCostUsd].
  unfold paid_dispatches, computed_judges. cbn [po_citationOnFound ts_posture]. intros Hc Hcit. rewrite Hc.
  destruct stage as [[]|], onFound as [[]|], citation as [[]|], configured as [[]|], ce; try reflexivity;
    try (vm_compute in Hc; discriminate); destruct Hcit as [?|[]]; discriminate.
Qed.


(** ** The repair pool *)

(** What a run may still repair: at most one semantic round, which consumes a token of
    its own, and mechanical grants, which never draw the semantic reserve. *)
Definition repair_trajectory (total : Z) (reserve : option Z) (round : bool) (mechanical : Z) : Prop :=
  (0 <= mechanical /\ mechanical <= total - default 0 reserve /\
   (round = true → 1 <= default 1 reserve /\ mechanical + 1 <= total))%Z.

(** The repair ceiling is the worst case: no trajectory the pool allows dispatches
    more wires, and one dispatches as many. *)
Theorem repair_ceiling_is_worst_case delta total reserve :
  (0 <= delta)%Z → (0 <= default 0 reserve <= total)%Z →
  (∀ round mechanical, repair_trajectory total reserve round mechanical →
     bit round * delta + mechanical <= repair_ceiling delta total reserve)%Z ∧
  ∃ round mechanical, repair_trajectory total reserve round mechanical ∧
     (bit round * delta + mechanical)%Z = repair_ceiling delta total reserve.
Proof.
  intros Hd Hr. unfold repair_ceiling, repair_trajectory, mechanicalRepairDeltaWires.
  destruct (Z.leb_spec 1 total) as [Ht|Ht]; destruct reserve as [r|]; cbn in *;
    try (destruct (Z.leb_spec 1 r) as [Hr1|Hr1]); split; try (intros [|] m (H1 & H2 & H3); cbn; try specialize (H3 eq_refl); lia).
  - destruct (Z_le_dec (total - r) (delta + (total - Z.max 1 r))).
    + exists true, (total - Z.max 1 r)%Z. cbn. split; [|lia]. split_and!; lia.
    + exists false, (total - r)%Z. cbn. split; [|lia]. split_and!; [lia|lia|done].
  - exists false, (total - r)%Z. cbn. split; [|lia]. split_and!; [lia|lia|done].
  - destruct (Z_le_dec total (delta + (total - 1))).
    + exists true, (total - 1)%Z. cbn. split; [|lia]. split_and!; lia.
    + exists false, total. cbn. split; [|lia]. split_and!; [lia|lia|done].
  - exists false, (total - r)%Z. cbn. split; [|lia]. split_and!; [lia|lia|done].
  - exists false, (total - r)%Z. cbn. split; [|lia]. split_and!; [lia|lia|done].
  - exists false, total. cbn. split; [|lia]. split_and!; [lia|lia|done].
Qed.
