(* ===== verification/SpawnExamples.v ===== *)
(** * Spawn admission at concrete inputs (packages/core/src/orchestrator/admission.ts)

    A run with a dollar to spend, at which every theorem of spawn admission applies; and
    runs that show where the code and its documentation part. *)
From Stdlib Require Import QArith.
From S2P Require Import Prelude Json JsMap Entries Scope Usage Identity Disposition Termination Lineage Num Pricing Budget BudgetTree BudgetInv BudgetLaws SpawnAdmission SpawnLaws SpawnRuns SpawnBatch SpawnReplay SpawnCapacity.

#[local] Open Scope Q_scope.

Definition gate_price (_ : string) (u : Usage) : option (jsnum Q) := Some (Finite (Qred (outputTokens u # 100))).

Definition gate_budget_options (cap : Z) : BudgetOptions Q :=
  mkBudgetOptions (Some 1) None false cap gate_price (fun _ => None) None ∅.

Definition gate_budget : RunBudget Q :=
  mkBudget {[ROOT_ACCOUNT := root_account (Some 1) (num_of_Z 0)]} zero_usage 0 ∅ false (num_of_Z 0) ∅ 0 ∅ [] [] ∅ ∅ ∅.

Lemma gate_budget_built :
  newBudget (Some (Finite 1)) None None None gate_price (fun _ => None) None None = Ok (gate_budget_options 500, gate_budget).
Proof. reflexivity. Qed.

Definition no_date (_ : string) : option Z := None.

Lemma gate_reachable : reachable no_date (gate_budget_options 500) gate_budget.
Proof. eapply reach_new. exact gate_budget_built. Qed.

Definition gate_options : ControllerOptions Q := mkOptions 1 16 (3 # 10) (1 # 2) None DEFAULT_ESCALATION_LIMITS.

(** A controller with a termination account and an index. *)
Definition gate_start : AdmissionController Q :=
  mkController gate_budget (Some (newTerminationAccount limits_example)) (Some newLineageIndex) ∅ 0 0.

Definition gate_id (n : N) : string := "t" +:+ dec_of_N n.

(** A spawn of an agent under the run root, from an estimate. *)
Definition spawn (est : Q) (lin : option SpawnLineageOpt) : AdmitSpec Q :=
  mkSpec or_spawn_agent (mkLineageSpec "worker" lin None None None) "agent:3" ROOT_ACCOUNT None (Some est) None None (Some 1%Z) (Some "plan").

Definition gate_admit (cap : Z) := controller_admit (fun _ _ => "") (fun s => s) (fun s => s) gate_id (gate_budget_options cap) gate_options.

Definition decided (r : AdmissionController Q * result AdmitError (AdmissionDecision Q)) : AdmissionDecision Q :=
  match r.2 with Ok d => d | Err _ => mkDecision (v_reject rj_budget) (mkStatsBefore 0 0 0 None) None None None end.

Definition gate_journal : list JournalEntry := [init_entry_example].

(** ** The theorems apply *)

Definition first_run := gate_admit 500 gate_start gate_journal (spawn (1 # 4) None) true.

Lemma first_run_eq : first_run = (first_run.1, Ok (decided first_run)).
Proof. vm_compute. reflexivity. Qed.

Lemma spawn_admission_spec_witness :
  ad_verdict (decided first_run) = v_admit (mkReserve (1 # 4) None src_estCost None) 2 (mkAdmitLineage "t0" true 1) ∧
  ∃ depth x, spawnDepthOf "agent:3" = Ok depth ∧ caught_up (fun _ _ => "") (fun s => s) (fun s => s) gate_start gate_journal x ∧
    match ad_verdict (decided first_run) with
    | v_reject reason =>
        holds_against (gate_budget_options 500) gate_options gate_start x (spawn (1 # 4) None) depth true reason ∧
        ∃ b, refused_state gate_start b x first_run.1 ∧
        rb_accounts b = rb_accounts gate_budget ∧ rb_spawned b = rb_spawned gate_budget
    | v_admit reserve units l =>
        (∀ reason, ¬ holds_against (gate_budget_options 500) gate_options gate_start x (spawn (1 # 4) None) depth true reason) ∧
        reserve = derive_reserve gate_options gate_start (spawn (1 # 4) None) ∧
        (∀ ceiling, child_ceiling gate_options gate_start (spawn (1 # 4) None) = Some ceiling → val (br_reserveUsd reserve) <= val ceiling) ∧
        al_logicalTaskId l = "t0" ∧
        admitted_state gate_start (admitSpawn (gate_budget_options 500) gate_budget (Finite (br_reserveUsd reserve)) ROOT_ACCOUNT).1 x
          (spawn (1 # 4) None) (al_logicalTaskId l) first_run.1 ∧
        units = units_after (gate_budget_options 500) gate_start (ac_budget first_run.1)
    | _ => False
    end.
Proof.
  split; [vm_compute; reflexivity|].
  exact (spawn_admission_spec (fun _ _ => "") (fun s => s) (fun s => s) gate_id (gate_budget_options 500) gate_options no_date
    gate_start gate_journal (spawn (1 # 4) None) true first_run.1 (decided first_run) gate_reachable first_run_eq).
Defined.

(** Two spawns and a budget operation between them. *)
Definition gate_second := gate_admit 500 first_run.1 gate_journal (spawn (1 # 4) None) true.

Lemma gate_second_eq : gate_second = (gate_second.1, Ok (decided gate_second)).
Proof. vm_compute. reflexivity. Qed.

Lemma two_spawns :
  rtc (gate_step (fun _ _ => "") (fun s => s) (fun s => s) gate_id no_date (gate_budget_options 500) gate_options)
    (gate_start, 0%Z) (gate_second.1, 2%Z).
Proof.
  eapply rtc_l; [exact (gs_admit _ _ _ _ _ _ _ gate_start 0%Z gate_journal (spawn (1 # 4) None) true first_run.1 (decided first_run) first_run_eq)|].
  eapply rtc_l; [exact (gs_admit _ _ _ _ _ _ _ first_run.1 1%Z gate_journal (spawn (1 # 4) None) true gate_second.1 (decided gate_second) gate_second_eq)|].
  apply rtc_refl.
Qed.

Lemma spawn_limits_hold_witness :
  ac_admittedTotal gate_second.1 = 2%Z ∧
  ac_admittedTotal gate_second.1 = (0 + 2)%Z ∧
  (∀ node, default 0 (ac_childrenOf gate_second.1 !! node) <= Z.max 16 (default 0 (ac_childrenOf gate_start !! node)))%Z ∧
  (∀ cap, co_maxTotalSpawns gate_options = Some cap → ac_admittedTotal gate_second.1 <= Z.max cap (ac_admittedTotal gate_start))%Z ∧
  (∀ a0, ac_termination gate_start = Some a0 → (0 <= spawnUnits a0)%Z →
     ∃ a, ac_termination gate_second.1 = Some a ∧ limits a = limits a0 ∧ (0 <= spawnUnits a)%Z ∧ (spawnUnits a + 2 <= spawnUnits a0)%Z).
Proof.
  split; [vm_compute; reflexivity|].
  exact (spawn_limits_hold (fun _ _ => "") (fun s => s) (fun s => s) gate_id no_date (gate_budget_options 500) gate_options
    gate_start gate_second.1 2%Z two_spawns).
Defined.

(** A batch of two embedded spawns that fills the budget. *)
Definition batch_of (cap : Z) (specs : list (AdmitSpec Q)) :=
  embedded_batch (fun _ _ => "") (fun s => s) (fun s => s) gate_id (gate_budget_options cap) gate_options gate_start gate_journal specs num_zero.

Definition two_halves := batch_of 500 [spawn (1 # 2) None; spawn (1 # 2) None; spawn (1 # 2) None].

Lemma two_halves_eq : two_halves = (two_halves.1, [1 # 2; 1 # 2]).
Proof. vm_compute. reflexivity. Qed.

Lemma root_only k a : k ∈ scopes_of (rb_accounts gate_budget) ROOT_ACCOUNT → k ≠ ROOT_ACCOUNT →
  rb_accounts gate_budget !! k = Some a → ac_ceiling a = None.
Proof. intros Hk Hne _. assert (k = ROOT_ACCOUNT); [|done]. vm_compute in Hk. by apply list_elem_of_singleton in Hk. Qed.

Lemma positive_halves r : r ∈ [1 # 2; 1 # 2] → 0 < val r.
Proof. intros [->|[->|[]%elem_of_nil]%elem_of_cons]%elem_of_cons; vm_compute; reflexivity. Qed.

Lemma under_root s : s ∈ [spawn (1 # 2) None; spawn (1 # 2) None; spawn (1 # 2) None] → as_parentAccountScope s = ROOT_ACCOUNT.
Proof. by intros [->|[->|[->|[]%elem_of_nil]%elem_of_cons]%elem_of_cons]%elem_of_cons. Qed.

Lemma batch_is_dispatchable_witness :
  two_halves = (two_halves.1, [1 # 2; 1 # 2]) ∧
  Forall (eq (Ok tt)) (dispatch_all (gate_budget_options 500) gate_budget ROOT_ACCOUNT [1 # 2; 1 # 2]).2.
Proof.
  split; [exact two_halves_eq|].
  refine (batch_is_dispatchable (fun _ _ => "") (fun s => s) (fun s => s) gate_id (gate_budget_options 500) gate_options no_date
    gate_start gate_journal _ two_halves.1 [1 # 2; 1 # 2] ROOT_ACCOUNT gate_reachable _ root_only under_root two_halves_eq positive_halves _).
  - by eexists.
  - vm_compute. discriminate.
Defined.

(** The decision of the first spawn, journaled. *)
Definition amount_json (q : Q) : json := JFrac (Qnum q) (Qden q).

Definition first_entry : JournalEntry :=
  decision_entry 1 [("decisionType", JStr "spawn-admission"); ("origin", JStr "spawn_agent"); ("childScope", JStr "agent:3");
                    ("decision", decision_json amount_json (decided first_run))].

Lemma first_carries : carries amount_json first_entry (decided first_run).
Proof. split; [reflexivity|]. eexists. by split_and!. Qed.

Lemma first_after e : e ∈ gate_journal → (e_seq e < e_seq first_entry)%N.
Proof. intros ->%list_elem_of_singleton. vm_compute. reflexivity. Qed.

Lemma live_gate_is_reload_witness :
  ac_termination first_run.1 ≠ ac_termination gate_start ∧
  (∀ f, foldTermination gate_journal = Ok (Some f) → ac_termination gate_start = Some (tf_account f) →
     ∃ f', foldTermination (gate_journal ++ [first_entry]) = Ok (Some f') ∧ ac_termination first_run.1 = Some (tf_account f')) ∧
  (∀ x y, ac_index gate_start = Some x → absorb_plain x gate_journal = Ok y → absorb_plain newLineageIndex gate_journal = Ok y →
     ∃ y', absorb_plain newLineageIndex (gate_journal ++ [first_entry]) = Ok y' ∧
       lineage (fun _ _ => "") (fun s => s) (fun s => s) first_run.1 (gate_journal ++ [first_entry]) = Ok (with_index first_run.1 (Some y')) ∧
       match ad_verdict (decided first_run) with
       | v_admit _ _ l => hasLiveAttempt y' (al_logicalTaskId l) = true ∧
           attemptsUsed y' (al_logicalTaskId l) None = S (attemptsUsed y (al_logicalTaskId l) None)
       | _ => True
       end).
Proof.
  split; [vm_compute; discriminate|].
  exact (live_gate_is_reload (fun _ _ => "") (fun s => s) (fun s => s) gate_id (gate_budget_options 500) gate_options amount_json
    gate_start gate_journal (spawn (1 # 4) None) true first_run.1 (decided first_run) first_entry first_run_eq first_carries first_after).
Defined.

(** A plan of four children with the claim round and the audit's round armed. *)
Definition armed : SemanticRoundPosture := mkPosture (Some stage_both) (Some claim_repair) (Some citation_repair) (Some true).

Definition armed_wires : WireCapacitySpec Q :=
  mkWireSpec ["children"; "turnsPerChild"; "claimStage"] None (Some (Finite 4)) (Some (Finite 10)) (Some (Finite 6)) (Some (Finite 1))
    None None None (Some (Some stage_both)) (Some (Some claim_repair)) (Some (Some citation_repair)) (Some (Some true))
    (Some (JNum 2)) (Some (JNum 1)).

Definition armed_tail : AcceptanceTailSpec Q := mkTailSpec armed (Some 1) (Some (1 # 10)) None (Some (1 # 2)) (Some (1 # 10)) (1 # 2).

Lemma armed_estimate : wireCapacityEstimate armed_wires = Ok (mkEstimate 50 3 1 53 (3 # 50) (Some 4%Z)).
Proof. vm_compute. reflexivity. Qed.


Lemma repair_ceiling_is_worst_case_witness :
  (repair_ceiling 3 2 (Some 1) = 4 ∧
   (∀ round mechanical, repair_trajectory 2 (Some 1) round mechanical → bit round * 3 + mechanical <= repair_ceiling 3 2 (Some 1)) ∧
   ∃ round mechanical, repair_trajectory 2 (Some 1) round mechanical ∧ bit round * 3 + mechanical = repair_ceiling 3 2 (Some 1))%Z.
Proof.
  split; [vm_compute; reflexivity|]. exact (repair_ceiling_is_worst_case 3 2 (Some 1%Z) ltac:(lia) ltac:(cbn; lia)).
Defined.

(** ** Where the documentation and the code part *)

(** The batch is promised to be dispatchable; one remaining spawn admits two of them,
    and the dispatch of the second is refused. *)
Example batch_overruns_spawn_cap :
  let b := batch_of 1 [spawn (1 # 4) None; spawn (1 # 4) None] in
  b.2 = [1 # 4; 1 # 4] ∧
  (dispatch_all (gate_budget_options 1) gate_budget ROOT_ACCOUNT b.2).2 = [Ok tt; Err spawn_cap_reached].
Proof. vm_compute. by split. Qed.

(** A spawn without cost is admitted after the batch has filled the account, which
    refuses every dispatch. *)
Example exact_fill_strands_a_free_spawn :
  let b := batch_of 500 [spawn 1 None; spawn 0 None] in
  b.2 = [1; 0] ∧
  (dispatch_all (gate_budget_options 500) gate_budget ROOT_ACCOUNT b.2).2 = [Ok tt; Err (ceiling_reached ROOT_ACCOUNT)].
Proof. vm_compute. by split. Qed.

(** The read-only evaluation looks at the parent account, the dispatch at every account
    up to the root: under an account without a ceiling of its own nothing is refused. *)
Definition nested_budget : RunBudget Q :=
  run_op (gate_budget_options 500) no_date gate_budget (op_open "outer" None None None None).

Example embedded_admit_ignores_the_ancestors :
  let c := mkController nested_budget None None ∅ 0 0 in
  let spec := mkSpec or_spawn_agent (mkLineageSpec "worker" None None None None) "agent:3" "outer" None (Some 2) None None None None in
  ad_verdict (decided (gate_admit 500 c [] spec false)) = v_admit (mkReserve 2 None src_estCost None) 500 (mkAdmitLineage "t0" true 1) ∧
  (admitSpawn (gate_budget_options 500) nested_budget (Finite 2) "outer").2 = Err (ceiling_reached ROOT_ACCOUNT).
Proof. vm_compute. by split. Qed.

(** The balance an embedded admission carries without a termination account is the one
    before it: two in a row carry the same. *)
Example units_after_is_before :
  let c := mkController gate_budget None None ∅ 0 0 in
  let first := gate_admit 500 c [] (spawn (1 # 4) None) false in
  let second := gate_admit 500 first.1 [] (spawn (1 # 4) None) false in
  ad_verdict (decided first) = v_admit (mkReserve (1 # 4) None src_estCost None) 500 (mkAdmitLineage "t0" true 1) ∧
  ad_verdict (decided second) = v_admit (mkReserve (1 # 4) None src_estCost None) 500 (mkAdmitLineage "t2" true 1).
Proof. vm_compute. by split. Qed.

(** ** One live attempt per task

    The agent call evaluates its lineage, awaits the append of the decision and notes the
    admission only then. *)
Definition again : LineageSpec := mkLineageSpec "worker" (Some (mkLineageOpt "t1" None (Some (JNum 3)))) None None None.

Definition evaluate := evaluateLineage (T := Q) (fun _ _ => "") (fun s => s) (fun s => s) gate_id gate_options.

Definition is_evaluated (r : AdmissionController Q * result AdmitError ((AdmitRejectReason Q + LineageBlock) * option LineageStats)) : option (option (AdmitRejectReason Q)) :=
  match r.2 with Ok (inr _, _) => Some None | Ok (inl reason, _) => Some (Some reason) | Err _ => None end.

(** Two calls that evaluate before either is noted are both admitted. *)
Example two_live_attempts :
  let c := mkController gate_budget None (Some newLineageIndex) ∅ 0 0 in
  let first := evaluate c failing_task again in
  let second := evaluate first.1 failing_task again in
  is_evaluated first = Some None ∧ is_evaluated second = Some None.
Proof. vm_compute. by split. Qed.

(** An evaluation that absorbs the entry before the admission is noted leaves the note
    unpaid: the task stays live when its attempt has ended, and every continuation of it
    is refused. *)
Definition retry_entries : list JournalEntry :=
  [decision_entry 5 [("decisionType", JStr "spawn-admission"); ("lineage", lineage_json "t1"); ("childScope", JStr "plan/a")];
   base_entry 6 "plan/a" "k2" KAgent StRunning;
   with_error (with_ref (base_entry 7 "plan/a" "k2" KAgent StError) 6)
     (mkWire "agent" "" false (Some (JObj [("kind", JStr "terminal")])))].

Example late_note_wedges_the_task :
  let c := mkController gate_budget None (Some newLineageIndex) ∅ 0 0 in
  let absorbed := (evaluate (evaluate c failing_task again).1 (failing_task ++ retry_entries) again).1 in
  is_evaluated (evaluate absorbed (failing_task ++ retry_entries) again) = Some None ∧
  is_evaluated (evaluate (registerLineageAdmit absorbed "t1") (failing_task ++ retry_entries) again) = Some (Some rj_lineage_busy).
Proof. vm_compute. by split. Qed.
