(* ===== verification/Shell.v ===== *)
(** * The argv shell matcher (packages/core/src/tools/shell-matcher.ts)

    A command is lexed into segments, quotes and escapes honoured and nothing expanded;
    each segment is judged by three tables of patterns and the strictest verdict wins.
    The loop of the lexer is [lex_loop], one iteration is [lex_step], and the text after
    the current character is a string instead of an index into the command. *)
From S2P Require Import Prelude.

Definition NEWLINE : ascii := "010"%char.
Definition TAB : ascii := "009"%char.
Definition SINGLE_QUOTE : ascii := "'"%char.
Definition DOUBLE_QUOTE : ascii := "034"%char.
Definition BACKSLASH : ascii := "\"%char.
Definition BACKTICK : ascii := "`"%char.

Record ShellSegment := mkSegment { argv : list string; unmatchable : bool }.

#[global] Instance ShellSegment_eq_dec : EqDecision ShellSegment.
Proof. solve_decision. Defined.

(** ** Assignments before a command *)

Definition name_start (c : ascii) : bool := char_between "A" "Z" c || char_between "a" "z" c || Ascii.eqb c "_".
Definition name_rest (c : ascii) : bool := name_start c || is_digit c.

Fixpoint name_then_equals (s : string) : bool :=
  match s with
  | "" => false
  | String c r => Ascii.eqb c "=" || (name_rest c && name_then_equals r)
  end.

(** [/^[A-Za-z_][A-Za-z0-9_]*=/]. *)
Definition is_assignment (token : string) : bool :=
  match token with
  | "" => false
  | String c r => name_start c && name_then_equals r
  end.

Fixpoint stripAssignments (tokens : list string) : list string :=
  match tokens with
  | [] => []
  | t :: rest => if is_assignment t then stripAssignments rest else tokens
  end.

(** ** The lexer *)

Record Lexer := mkLexer {
  segments : list ShellSegment;
  tokens : list string;
  current : string;
  hasCurrent : bool;
  poisoned : bool;   (* the variable [unmatchable] *)
}.

Definition pushToken (st : Lexer) : Lexer :=
  if hasCurrent st then mkLexer (segments st) (tokens st ++ [current st]) "" false (poisoned st) else st.

Definition segment_of (st : Lexer) : list ShellSegment :=
  if bool_decide (tokens st ≠ []) || poisoned st then [mkSegment (stripAssignments (tokens st)) (poisoned st)] else [].

Definition pushSegment (st : Lexer) : Lexer :=
  let st := pushToken st in
  mkLexer (segments st ++ segment_of st) [] (current st) (hasCurrent st) false.

Definition poison (st : Lexer) : Lexer :=
  mkLexer (segments st) (tokens st) (current st) (hasCurrent st) true.

(** [current += text; hasCurrent = true]. *)
Definition take_text (text : string) (st : Lexer) : Lexer :=
  mkLexer (segments st) (tokens st) (current st +:+ text) true (poisoned st).

Definition one (c : ascii) : string := String c "".

Definition head_is (c : ascii) (s : string) : bool :=
  match s with String d _ => Ascii.eqb d c | "" => false end.

Definition drop1 (s : string) : string :=
  match s with String _ r => r | "" => "" end.

(** The text up to the closing single quote, and the text after it. *)
Fixpoint single_quoted (s : string) : string * string :=
  match s with
  | "" => ("", "")
  | String c r =>
      if Ascii.eqb c SINGLE_QUOTE then ("", r)
      else let '(inner, after) := single_quoted r in (String c inner, after)
  end.

(** The text inside double quotes, whether it substitutes, and the text after. *)
Fixpoint double_quoted (s : string) : string * bool * string :=
  match s with
  | "" => ("", false, "")
  | String c r =>
      if Ascii.eqb c DOUBLE_QUOTE then ("", false, r)
      else match r with
           | String d r' =>
               if Ascii.eqb c BACKSLASH then
                 let '(inner, p, after) := double_quoted r' in (String d inner, p, after)
               else
                 let '(inner, p, after) := double_quoted r in
                 (String c inner, Ascii.eqb c BACKTICK || (Ascii.eqb c "$" && Ascii.eqb d "(") || p, after)
           | "" =>
               let '(inner, p, after) := double_quoted r in
               (String c inner, Ascii.eqb c BACKTICK || p, after)
           end
  end.

(** One iteration at the character [ch], with [rest] after it: the variables, and what
    is left of the command. *)
Definition lex_step (ch : ascii) (rest : string) (st : Lexer) : Lexer * string :=
  if Ascii.eqb ch "&" && head_is "&" rest then (pushSegment st, drop1 rest)
  else if Ascii.eqb ch "|" && head_is "|" rest then (pushSegment st, drop1 rest)
  else if Ascii.eqb ch ";" || Ascii.eqb ch NEWLINE || Ascii.eqb ch "&" then (pushSegment st, rest)
  else if Ascii.eqb ch "|" then (pushSegment st, rest)
  else if Ascii.eqb ch BACKTICK then (poison st, rest)
  else if Ascii.eqb ch "$" && head_is "(" rest then (poison st, drop1 rest)
  else if (Ascii.eqb ch "<" || Ascii.eqb ch ">") && head_is "(" rest then (poison st, drop1 rest)
  else if (Ascii.eqb ch "<" || Ascii.eqb ch ">") && head_is "&" rest then (take_text (String ch "&") st, drop1 rest)
  else if Ascii.eqb ch "<" && head_is "<" rest then (poison st, drop1 rest)
  else if Ascii.eqb ch SINGLE_QUOTE then
    let '(inner, after) := single_quoted rest in (take_text inner st, after)
  else if Ascii.eqb ch DOUBLE_QUOTE then
    let '(inner, p, after) := double_quoted rest in
    (take_text inner (if p then poison st else st), after)
  else if Ascii.eqb ch BACKSLASH && negb (bool_decide (rest = "")) then
    (take_text (one (default "000"%char (String.get 0 rest))) st, drop1 rest)
  else if Ascii.eqb ch " " || Ascii.eqb ch TAB then (pushToken st, rest)
  else (take_text (one ch) st, rest).

(** [while (i < command.length)]: an iteration consumes a character. *)
Fixpoint lex_loop (fuel : nat) (command : string) (st : Lexer) : Lexer :=
  match fuel, command with
  | S fuel, String ch rest => let '(st, rest) := lex_step ch rest st in lex_loop fuel rest st
  | _, _ => st
  end.

Definition lexer_start : Lexer := mkLexer [] [] "" false false.

Definition lexShellCommand (command : string) : list ShellSegment :=
  segments (pushSegment (lex_loop (String.length command) command lexer_start)).

(** ** Patterns *)

(** [pattern.split(' ').filter((word) => word !== '')]. *)
Definition pattern_words (pattern : string) : list string :=
  List.filter (fun w => negb (bool_decide (w = ""))) (split_on " " pattern).

(** [**] before the last word. *)
Fixpoint misplaced_rest (words : list string) : bool :=
  match words with
  | [] | [_] => false
  | w :: rest => bool_decide (w = "**") || misplaced_rest rest
  end.

Fixpoint match_words (words argv : list string) : bool :=
  match words with
  | [] => bool_decide (argv = [])
  | word :: words =>
      if bool_decide (word = "**") then true
      else match argv with
           | [] => false
           | arg :: argv =>
               if bool_decide (word ≠ "*") && bool_decide (word ≠ arg) then false else match_words words argv
           end
  end.

Definition matchArgvPattern (pattern : string) (argv : list string) : bool :=
  let words := pattern_words pattern in
  if misplaced_rest words then false else match_words words argv.

(** ** Verdicts *)

Inductive ShellVerdict := shell_allow | shell_ask | shell_deny.

#[global] Instance ShellVerdict_eq_dec : EqDecision ShellVerdict.
Proof. solve_decision. Defined.

Record ShellPatternRules := mkShellRules {
  sh_deny : option (list string);
  sh_ask : option (list string);
  sh_allow : option (list string);
}.

(** [(table ?? []).some((pattern) => matchArgvPattern(pattern, argv))]. *)
Definition table_matches (table : option (list string)) (argv : list string) : bool :=
  existsb (fun pattern => matchArgvPattern pattern argv) (default [] table).

Definition segmentVerdict (segment : ShellSegment) (rules : ShellPatternRules) : ShellVerdict :=
  if unmatchable segment then shell_ask
  else if bool_decide (argv segment = []) then shell_ask
  else if table_matches (sh_deny rules) (argv segment) then shell_deny
  else if table_matches (sh_ask rules) (argv segment) then shell_ask
  else if table_matches (sh_allow rules) (argv segment) then shell_allow
  else shell_ask.

(** The loop of [matchShellCommand]. *)
Fixpoint compose_verdicts (verdict : ShellVerdict) (segments : list ShellSegment) (rules : ShellPatternRules) : ShellVerdict :=
  match segments with
  | [] => verdict
  | segment :: rest =>
      match segmentVerdict segment rules with
      | shell_deny => shell_deny
      | shell_ask => compose_verdicts shell_ask rest rules
      | shell_allow => compose_verdicts verdict rest rules
      end
  end.

Definition matchShellCommand (command : string) (rules : ShellPatternRules) : ShellVerdict :=
  match lexShellCommand command with
  | [] => shell_ask
  | segments => compose_verdicts shell_allow segments rules
  end.
