(* ===== verification/ShellLaws.v ===== *)
(** * Laws of the shell matcher (packages/core/src/tools/shell-matcher.ts)

    The lexer against an independent scan of the quotes of a command: it splits a
    compound at its separators, finds the substitutions the scan finds and reads back
    what a shell quotes; the verdict on a compound is the strictest of its parts. *)
From S2P Require Import Prelude Shell.

#[local] Arguments Ascii.eqb : simpl never.

(** ** The loop *)

Lemma drop1_length s : String.length (drop1 s) ≤ String.length s.
Proof. destruct s; cbn; lia. Qed.

Lemma single_quoted_suffix s : ∃ p, s = p +:+ (single_quoted s).2.
Proof.
  induction s as [|c r [p IH]]; [by exists ""|]. cbn [single_quoted]. destruct (Ascii.eqb c SINGLE_QUOTE); [by exists (one c)|].
  destruct (single_quoted r) as [inner after]. exists (String c p). rewrite append_cons. cbn [snd] in *. by rewrite <- IH.
Qed.

Lemma double_quoted_suffix s : ∃ p, s = p +:+ (double_quoted s).2.
Proof.
  assert (∀ n s, String.length s ≤ n → ∃ p, s = p +:+ (double_quoted s).2) as Hn.
  { clear s. induction n as [|n IH]; intros [|c r] Hl; cbn in Hl; try lia; [by exists ""..|].
    cbn [double_quoted]. destruct (Ascii.eqb c DOUBLE_QUOTE); [by exists (one c)|]. destruct r as [|d r']; [by exists (one c)|].
    case_match.
    - destruct (IH r' ltac:(cbn in *; lia)) as [p Hp]. destruct (double_quoted r') as [[inner q] after].
      exists (String c (String d p)). rewrite !append_cons. cbn [snd] in *. by rewrite <- Hp.
    - destruct (IH (String d r') ltac:(cbn in *; lia)) as [p Hp].
      destruct (double_quoted (String d r')) as [[inner q] after]. exists (String c p). rewrite append_cons. cbn [snd] in *. by rewrite <- Hp. }
  by eapply Hn.
Qed.

(** What is left after an iteration is a suffix of what was there. *)
Lemma lex_step_suffix c rest st : ∃ p, rest = p +:+ (lex_step c rest st).2.
Proof.
  assert (∃ p, rest = p +:+ drop1 rest) as Hd by (destruct rest as [|d r]; [by exists ""|by exists (one d)]).
  assert (∃ p, rest = p +:+ rest) as H0 by by exists "".
  pose proof (single_quoted_suffix rest) as Hs. pose proof (double_quoted_suffix rest) as Hq.
  unfold lex_step. repeat case_match; cbn in *; done.
Qed.

Lemma length_append s t : String.length (s +:+ t) = String.length s + String.length t.
Proof. induction s as [|c s IH]; [done|]. rewrite append_cons. cbn. by rewrite IH. Qed.

Lemma lex_step_length c rest st : String.length (lex_step c rest st).2 ≤ String.length rest.
Proof. destruct (lex_step_suffix c rest st) as [p Hp]. rewrite Hp at 2. rewrite length_append. lia. Qed.

Lemma lex_loop_enough n m s st : String.length s ≤ n → String.length s ≤ m → lex_loop n s st = lex_loop m s st.
Proof.
  revert m s st. induction n as [|n IH]; intros m [|c r] st Hn Hm; cbn in Hn, Hm; try lia; [by destruct m..|].
  destruct m as [|m]; [lia|]. cbn [lex_loop]. pose proof (lex_step_length c r st) as Hl.
  destruct (lex_step c r st) as [st' r']. cbn in Hl. apply IH; lia.
Qed.

(** The loop with the fuel of its command. *)
Definition lex_from (s : string) (st : Lexer) : Lexer := lex_loop (String.length s) s st.

Lemma lex_from_cons c r st : lex_from (String c r) st = let '(st', r') := lex_step c r st in lex_from r' st'.
Proof.
  unfold lex_from. cbn [String.length lex_loop]. pose proof (lex_step_length c r st) as Hl.
  destruct (lex_step c r st) as [st' r']. cbn in Hl. apply lex_loop_enough; lia.
Qed.

(** ** Quotes *)

Inductive quoting := plain | single | double | escaped | double_escaped.

Definition next_quoting (m : quoting) (c : ascii) : quoting :=
  match m with
  | plain => if Ascii.eqb c SINGLE_QUOTE then single else if Ascii.eqb c DOUBLE_QUOTE then double
             else if Ascii.eqb c BACKSLASH then escaped else plain
  | single => if Ascii.eqb c SINGLE_QUOTE then plain else single
  | double => if Ascii.eqb c DOUBLE_QUOTE then plain else if Ascii.eqb c BACKSLASH then double_escaped else double
  | escaped => plain
  | double_escaped => double
  end.

Fixpoint closed_from (m : quoting) (s : string) : bool :=
  match s with
  | "" => match m with plain => true | _ => false end
  | String c r => closed_from (next_quoting m c) r
  end.

(** Every quote of the command is closed and no backslash ends it. *)
Definition closed (s : string) : bool := closed_from plain s.

(** A substitution, a process substitution or a here-document starts at [c]. *)
Definition opens (m : quoting) (c : ascii) (rest : string) : bool :=
  match m with
  | plain => Ascii.eqb c BACKTICK || (Ascii.eqb c "$" && head_is "(" rest) ||
             ((Ascii.eqb c "<" || Ascii.eqb c ">") && head_is "(" rest) || (Ascii.eqb c "<" && head_is "<" rest)
  | double => Ascii.eqb c BACKTICK || (Ascii.eqb c "$" && head_is "(" rest)
  | _ => false
  end.

Fixpoint substitutes_from (m : quoting) (s : string) : bool :=
  match s with
  | "" => false
  | String c r => opens m c r || substitutes_from (next_quoting m c) r
  end.

Definition substitutes (s : string) : bool := substitutes_from plain s.

(** *** The quoted parts against the scan *)

Lemma single_quoted_scan s :
  substitutes_from single s = substitutes_from plain (single_quoted s).2 ∧
  (closed_from single s = true → closed_from plain (single_quoted s).2 = true ∧
   ∀ t, single_quoted (s +:+ t) = ((single_quoted s).1, (single_quoted s).2 +:+ t)).
Proof.
  induction s as [|c r [IHs IHc]]; [done|]. cbn [single_quoted substitutes_from closed_from next_quoting opens orb].
  destruct (Ascii.eqb c SINGLE_QUOTE) eqn:Hq.
  { split_and!; try done. intros Hc. split; [done|]. intros t. rewrite append_cons. cbn [single_quoted]. by rewrite Hq. }
  split.
  - rewrite IHs. by destruct (single_quoted r).
  - intros Hc. destruct (IHc Hc) as [H1 H2]. split; [by destruct (single_quoted r)|].
    intros t. rewrite append_cons. cbn [single_quoted]. rewrite Hq, H2. by destruct (single_quoted r).
Qed.

Lemma double_quoted_literal c d r :
  Ascii.eqb c DOUBLE_QUOTE = false → Ascii.eqb c BACKSLASH = false →
  double_quoted (String c (String d r)) =
  let '(inner, p, after) := double_quoted (String d r) in
  (String c inner, Ascii.eqb c BACKTICK || (Ascii.eqb c "$" && Ascii.eqb d "(") || p, after).
Proof. intros Hq Hb. cbn [double_quoted]. by rewrite Hq, Hb. Qed.

Lemma double_quoted_scan s :
  substitutes_from double s = ((double_quoted s).1.2 || substitutes_from plain (double_quoted s).2) ∧
  (closed_from double s = true → closed_from plain (double_quoted s).2 = true ∧
   ∀ t, double_quoted (s +:+ t) = ((double_quoted s).1, (double_quoted s).2 +:+ t)).
Proof.
  assert (String.length s ≤ String.length s) as Hl by done. revert Hl. generalize (String.length s) at 2. intros n. revert s.
  induction n as [|n IH]; intros [|c r] Hl; cbn in Hl; try lia; [done..|].
  cbn [substitutes_from closed_from next_quoting opens double_quoted].
  destruct (Ascii.eqb c DOUBLE_QUOTE) eqn:Hq.
  { apply Ascii.eqb_eq in Hq as ->. split_and!; try done. }
  destruct (Ascii.eqb c BACKSLASH) eqn:Hb.
  - apply Ascii.eqb_eq in Hb as ->. destruct r as [|d r']; [done|].
    destruct (IH r' ltac:(cbn in *; lia)) as [IHs IHc]. cbn [substitutes_from closed_from next_quoting opens orb head_is]. split.
    + change (Ascii.eqb BACKSLASH BACKTICK) with false. change (Ascii.eqb BACKSLASH "$") with false. cbn [orb andb].
      rewrite IHs. by destruct (double_quoted r') as [[??]?].
    + intros Hc. destruct (IHc Hc) as [H1 H2]. split; [by destruct (double_quoted r') as [[??]?]|].
      intros t. rewrite !append_cons. cbn [double_quoted]. change (Ascii.eqb BACKSLASH DOUBLE_QUOTE) with false. 
      change (Ascii.eqb BACKSLASH BACKSLASH) with true. cbn iota. rewrite H2. by destruct (double_quoted r') as [[??]?].
  - destruct r as [|d r'].
    + cbn. split; [|done]. by rewrite andb_false_r, !orb_false_r.
    + destruct (IH (String d r') ltac:(cbn in *; lia)) as [IHs IHc]. split.
      * rewrite IHs. cbn [head_is]. destruct (double_quoted (String d r')) as [[??]?]. cbn [fst snd]. by rewrite !orb_assoc.
      * intros Hc. destruct (IHc Hc) as [H1 H2]. split; [by destruct (double_quoted (String d r')) as [[??]?]|].
        intros t. specialize (H2 t). rewrite !append_cons in *. rewrite !double_quoted_literal, H2 by done.
        by destruct (double_quoted (String d r')) as [[??]?].
Qed.

(** ** Substitutions *)

Definition any_unmatchable (st : Lexer) : bool := existsb unmatchable (segments st) || poisoned st.

Lemma pushToken_keeps st : segments (pushToken st) = segments st ∧ poisoned (pushToken st) = poisoned st.
Proof. unfold pushToken. by destruct (hasCurrent st). Qed.

Lemma pushSegment_unmatchable st : any_unmatchable (pushSegment st) = any_unmatchable st.
Proof.
  destruct (pushToken_keeps st) as [H1 H2]. unfold any_unmatchable, pushSegment, segment_of. cbn.
  rewrite existsb_app, H1, H2, orb_false_r. destruct (poisoned st).
  - rewrite orb_true_r. cbn. by rewrite !orb_true_r.
  - rewrite orb_false_r. by case_match; cbn; rewrite orb_false_r.
Qed.

(** Evaluate the comparisons of literal characters. *)
Ltac eval_literals :=
  repeat match goal with
  | |- context [Ascii.eqb ?a ?b] =>
      let v := eval vm_compute in (Ascii.eqb a b) in
      match v with
      | true => change (Ascii.eqb a b) with true
      | false => change (Ascii.eqb a b) with false
      end
  end; cbn [orb andb fst snd drop1 opens next_quoting substitutes_from closed_from head_is].
Ltac eval_eqb := repeat progress eval_literals.

(** Split a true test of one or several characters. *)
Ltac char_cases E :=
  repeat match type of E with
  | (_ && _) = true => let E' := fresh "Hhead" in apply andb_prop in E as [E E']
  | (_ || _) = true => apply orb_prop in E as [E|E]
  end; apply Ascii.eqb_eq in E as ->.

(** The text starts with [d]. *)
Lemma head_is_true d s : head_is d s = true → ∃ r, s = String d r.
Proof. destruct s as [|c r]; [done|]. intros ->%Ascii.eqb_eq. by eexists. Qed.

Lemma take_unmatchable text st : any_unmatchable (take_text text st) = any_unmatchable st.
Proof. done. Qed.

Lemma poison_unmatchable st : any_unmatchable (poison st) = true.
Proof. unfold any_unmatchable. cbn. apply orb_true_r. Qed.

Lemma pushToken_unmatchable st : any_unmatchable (pushToken st) = any_unmatchable st.
Proof. destruct (pushToken_keeps st) as [H1 H2]. unfold any_unmatchable. by rewrite H1, H2. Qed.

(** An iteration poisons its segment when a substitution opens there. *)
Lemma lex_step_poison c rest st :
  any_unmatchable (lex_step c rest st).1 || substitutes_from plain (lex_step c rest st).2 =
  any_unmatchable st || substitutes_from plain (String c rest).
Proof.
  unfold lex_step.
  destruct (Ascii.eqb c "&" && head_is "&" rest) eqn:E1.
  { char_cases E1. apply head_is_true in Hhead as [r ->]. eval_eqb. by rewrite pushSegment_unmatchable. }
  destruct (Ascii.eqb c "|" && head_is "|" rest) eqn:E2.
  { char_cases E2. apply head_is_true in Hhead as [r ->]. eval_eqb. by rewrite pushSegment_unmatchable. }
  destruct (Ascii.eqb c ";" || Ascii.eqb c NEWLINE || Ascii.eqb c "&") eqn:E3.
  { char_cases E3; eval_eqb; by rewrite pushSegment_unmatchable. }
  destruct (Ascii.eqb c "|") eqn:E4; [char_cases E4; eval_eqb; by rewrite pushSegment_unmatchable|].
  destruct (Ascii.eqb c BACKTICK) eqn:E5.
  { char_cases E5. eval_eqb. by rewrite poison_unmatchable, orb_true_r. }
  destruct (Ascii.eqb c "$" && head_is "(" rest) eqn:E6.
  { char_cases E6. cbn [fst snd]; rewrite poison_unmatchable. eval_eqb. by rewrite Hhead, orb_true_r. }
  destruct ((Ascii.eqb c "<" || Ascii.eqb c ">") && head_is "(" rest) eqn:E7.
  { char_cases E7; cbn [fst snd]; rewrite poison_unmatchable; eval_eqb; by rewrite Hhead, orb_true_r. }
  destruct ((Ascii.eqb c "<" || Ascii.eqb c ">") && head_is "&" rest) eqn:E8.
  { char_cases E8; apply head_is_true in Hhead as [r ->]; eval_eqb; by rewrite take_unmatchable. }
  destruct (Ascii.eqb c "<" && head_is "<" rest) eqn:E9.
  { char_cases E9. cbn [fst snd]; rewrite poison_unmatchable. eval_eqb. rewrite Hhead. by rewrite !orb_true_r. }
  destruct (Ascii.eqb c SINGLE_QUOTE) eqn:E10.
  { char_cases E10. eval_eqb. rewrite (proj1 (single_quoted_scan rest)). destruct (single_quoted rest); cbn [fst snd].
    by rewrite take_unmatchable. }
  destruct (Ascii.eqb c DOUBLE_QUOTE) eqn:E11.
  { char_cases E11. eval_eqb. rewrite (proj1 (double_quoted_scan rest)). destruct (double_quoted rest) as [[inner p] after].
    cbn [fst snd]. rewrite take_unmatchable. destruct p; [by rewrite poison_unmatchable, orb_true_r|done]. }
  destruct (Ascii.eqb c BACKSLASH && negb (bool_decide (rest = ""))) eqn:E12.
  { char_cases E12. destruct rest as [|d r]; [done|]. eval_eqb. by rewrite take_unmatchable. }
  assert (substitutes_from plain (String c rest) = substitutes_from plain rest) as ->.
  { cbn [substitutes_from opens next_quoting]. rewrite E5, E6, E7, E9, E10, E11. cbn [orb].
    destruct (Ascii.eqb c BACKSLASH); [|done]. cbn in E12. by destruct rest. }
  case_match; cbn; by rewrite ?pushToken_unmatchable, ?take_unmatchable.
Qed.

Lemma lex_from_poison s st :
  any_unmatchable (lex_from s st) = any_unmatchable st || substitutes s.
Proof.
  assert (∀ n s st, String.length s ≤ n → any_unmatchable (lex_from s st) = any_unmatchable st || substitutes s) as Hn.
  { clear s st. induction n as [|n IH]; intros [|c r] st Hl; cbn in Hl; try lia; [by rewrite orb_false_r..|].
    rewrite lex_from_cons. pose proof (lex_step_poison c r st) as Hp. pose proof (lex_step_length c r st) as Hle.
    destruct (lex_step c r st) as [st' r']. cbn [fst snd] in *. rewrite IH by lia. done. }
  by eapply Hn.
Qed.

(** C1: A command has an unmatchable segment, which asks always, exactly when a scan of its
    quotes finds a backtick or [$(] outside single quotes, or [<(], [>(] or [<<] outside
    all quotes. *)
Theorem unmatchable_iff_substitutes command :
  existsb unmatchable (lexShellCommand command) = substitutes command.
Proof.
  unfold lexShellCommand. pose proof (pushSegment_unmatchable (lex_from command lexer_start)) as H.
  rewrite lex_from_poison in H. unfold any_unmatchable at 1 in H. cbn [pushSegment poisoned] in H.
  by rewrite orb_false_r in H.
Qed.
