(* ===== verification/ShellSplit.v ===== *)
(** * Compound commands (packages/core/src/tools/shell-matcher.ts)

    A compound lexes into the segments of its parts, and its verdict is the strictest
    of theirs; what a shell quotes is read back whole. *)
From S2P Require Import Prelude Shell ShellLaws.

#[local] Arguments Ascii.eqb : simpl never.

(** ** Two texts one after the other *)

(** Two characters the lexer reads as one. *)
Definition bigram (c d : ascii) : bool :=
  (Ascii.eqb c "&" && Ascii.eqb d "&") || (Ascii.eqb c "|" && Ascii.eqb d "|") ||
  (Ascii.eqb c "$" && Ascii.eqb d "(") ||
  ((Ascii.eqb c "<" || Ascii.eqb c ">") && (Ascii.eqb d "(" || Ascii.eqb d "&")) ||
  (Ascii.eqb c "<" && Ascii.eqb d "<").

(** The last character of [a] and the first of [t] are such a pair. *)
Fixpoint glued (a t : string) : bool :=
  match a with
  | "" => false
  | String c "" => match t with "" => false | String d _ => bigram c d end
  | String _ r => glued r t
  end.

Lemma pair_test_app c x d r t :
  (x = "&"%char ∧ d = "&"%char) ∨ (x = "|"%char ∧ d = "|"%char) ∨ (x = "$"%char ∧ d = "("%char) ∨
  ((x = "<"%char ∨ x = ">"%char) ∧ (d = "("%char ∨ d = "&"%char)) ∨ (x = "<"%char ∧ d = "<"%char) →
  (r = "" → glued (one c) t = false) →
  Ascii.eqb c x && head_is d (r +:+ t) = Ascii.eqb c x && head_is d r.
Proof.
  intros Hx Hg. destruct r as [|e r]; [|done]. specialize (Hg eq_refl). change ("" +:+ t) with t. destruct t as [|e t]; [done|]. cbn in Hg |- *.
  rewrite andb_false_r. apply not_true_iff_false. intros H. char_cases H. apply Ascii.eqb_eq in Hhead as ->.
  destruct Hx as [[-> ->]|[[-> ->]|[[-> ->]|[[[-> | ->] [-> | ->]]|[-> ->]]]]]; discriminate Hg.
Qed.

(** An iteration does not look past the text it is in. *)
Lemma lex_step_app c r t st :
  closed (String c r) = true → (r = "" → glued (one c) t = false) →
  lex_step c (r +:+ t) st = ((lex_step c r st).1, (lex_step c r st).2 +:+ t) ∧ closed (lex_step c r st).2 = true.
Proof.
  intros Hc Hg.
  assert (∀ d, head_is d r = true → drop1 (r +:+ t) = drop1 r +:+ t) as Hdrop by by intros d; destruct r.
  assert (next_quoting plain c = plain → closed r = true) as Hr.
  { intros Hn. unfold closed in *. cbn [closed_from] in Hc. by rewrite Hn in Hc. }
  assert (∀ d, head_is d r = true → next_quoting plain c = plain → next_quoting plain d = plain → closed (drop1 r) = true) as Hr2.
  { intros d Hd Hn Hnd. specialize (Hr Hn). apply head_is_true in Hd as [r' ->]. unfold closed in *. cbn [closed_from drop1] in *.
    by rewrite Hnd in Hr. }
  unfold lex_step. rewrite !andb_orb_distrib_l, !(pair_test_app c _ _ r t) by (done || tauto).
  destruct (Ascii.eqb c "&" && head_is "&" r) eqn:E1; [char_cases E1; cbn [fst snd]; erewrite Hdrop by done; eauto|].
  destruct (Ascii.eqb c "|" && head_is "|" r) eqn:E2; [char_cases E2; cbn [fst snd]; erewrite Hdrop by done; eauto|].
  destruct (Ascii.eqb c ";" || Ascii.eqb c NEWLINE || Ascii.eqb c "&") eqn:E3; [char_cases E3; cbn [fst snd]; eauto|].
  destruct (Ascii.eqb c "|") eqn:E4; [char_cases E4; cbn [fst snd]; eauto|].
  destruct (Ascii.eqb c BACKTICK) eqn:E5; [char_cases E5; cbn [fst snd]; eauto|].
  destruct (Ascii.eqb c "$" && head_is "(" r) eqn:E6; [char_cases E6; cbn [fst snd]; erewrite Hdrop by done; eauto|].
  destruct (Ascii.eqb c "<" && head_is "(" r || Ascii.eqb c ">" && head_is "(" r) eqn:E7;
    [char_cases E7; cbn [fst snd]; erewrite Hdrop by done; eauto|].
  destruct (Ascii.eqb c "<" && head_is "&" r || Ascii.eqb c ">" && head_is "&" r) eqn:E8;
    [char_cases E8; cbn [fst snd]; erewrite Hdrop by done; eauto|].
  destruct (Ascii.eqb c "<" && head_is "<" r) eqn:E9; [char_cases E9; cbn [fst snd]; erewrite Hdrop by done; eauto|].
  destruct (Ascii.eqb c SINGLE_QUOTE) eqn:E10.
  { char_cases E10. destruct (proj2 (single_quoted_scan r) Hc) as [H1 H2]. rewrite H2. by destruct (single_quoted r). }
  destruct (Ascii.eqb c DOUBLE_QUOTE) eqn:E11.
  { char_cases E11. destruct (proj2 (double_quoted_scan r) Hc) as [H1 H2]. rewrite H2. by destruct (double_quoted r) as [[??]?]. }
  destruct (Ascii.eqb c BACKSLASH) eqn:E12.
  { char_cases E12. by destruct r as [|d r]. }
  assert (closed r = true) by (apply Hr; cbn; by rewrite E10, E11, E12). cbn [andb].
  by case_match.
Qed.

(** ** Separators *)

(** The lexer between two segments. *)
Definition between (st : Lexer) : Prop := tokens st = [] ∧ current st = "" ∧ hasCurrent st = false ∧ poisoned st = false.

(** No text is pending unless the flag says so. *)
Definition tidy (st : Lexer) : Prop := hasCurrent st = false → current st = "".

Lemma pushToken_tidy st : tidy st → current (pushToken st) = "" ∧ hasCurrent (pushToken st) = false.
Proof. unfold tidy, pushToken. destruct (hasCurrent st) eqn:E; cbn; auto. Qed.

Lemma pushSegment_between st : tidy st → between (pushSegment st).
Proof. intros (H1 & H2)%pushToken_tidy. by split_and!. Qed.

Lemma lex_step_tidy c rest st : tidy st → tidy (lex_step c rest st).1.
Proof.
  intros Ht. assert (tidy (pushSegment st)) as Hp by (by intros _; apply pushSegment_between).
  assert (tidy (pushToken st)) as Hk by (by intros _; apply pushToken_tidy).
  unfold lex_step. repeat case_match; done.
Qed.

Lemma lex_from_tidy s st : tidy st → tidy (lex_from s st).
Proof.
  assert (∀ n s st, String.length s ≤ n → tidy st → tidy (lex_from s st)) as Hn.
  { clear s st. induction n as [|n IH]; intros [|c r] st Hl Ht; cbn in Hl; try lia; [done..|].
    rewrite lex_from_cons. pose proof (lex_step_tidy c r st Ht) as Ht'. pose proof (lex_step_length c r st) as Hle.
    destruct (lex_step c r st) as [st' r']. apply IH; [cbn in *; lia|done]. }
  by apply (Hn (String.length s)).
Qed.

Lemma between_push st : between st → pushSegment st = st.
Proof.
  destruct st as [sg tk cu hc po]. unfold between. cbn. intros (-> & -> & -> & ->). unfold pushSegment, pushToken, segment_of. cbn.
  by rewrite app_nil_r.
Qed.

Lemma pushSegment_twice st : tidy st → pushSegment (pushSegment st) = pushSegment st.
Proof. intros Ht. by apply between_push, pushSegment_between. Qed.

Definition after_segments (done : list ShellSegment) (st : Lexer) : Lexer :=
  mkLexer (done ++ segments st) (tokens st) (current st) (hasCurrent st) (poisoned st).

Lemma pushToken_after done st : pushToken (after_segments done st) = after_segments done (pushToken st).
Proof. unfold pushToken. cbn. by destruct (hasCurrent st). Qed.

Lemma pushSegment_after done st : pushSegment (after_segments done st) = after_segments done (pushSegment st).
Proof. unfold pushSegment. rewrite pushToken_after. unfold after_segments, segment_of. cbn. by rewrite app_assoc. Qed.

Lemma lex_step_after done c rest st :
  lex_step c rest (after_segments done st) = (after_segments done (lex_step c rest st).1, (lex_step c rest st).2).
Proof. unfold lex_step. rewrite pushSegment_after, pushToken_after. by repeat case_match. Qed.

Lemma lex_from_after done s st : lex_from s (after_segments done st) = after_segments done (lex_from s st).
Proof.
  assert (∀ n s st, String.length s ≤ n → lex_from s (after_segments done st) = after_segments done (lex_from s st)) as Hn.
  { clear s st. induction n as [|n IH]; intros [|c r] st Hl; cbn in Hl; try lia; [done..|].
    rewrite !lex_from_cons, lex_step_after. pose proof (lex_step_length c r st) as Hle.
    destruct (lex_step c r st) as [st' r']. apply IH. cbn in *. lia. }
  by apply (Hn (String.length s)).
Qed.

(** Lexing on from between two segments. *)
Lemma lex_between s st : between st → segments (pushSegment (lex_from s st)) = segments st ++ lexShellCommand s.
Proof.
  intros Hb. assert (st = after_segments (segments st) lexer_start) as Hs.
  { destruct st as [sg tk cu hc po]. unfold between in Hb. cbn in Hb. destruct Hb as (-> & -> & -> & ->).
    unfold after_segments. cbn. by rewrite app_nil_r. }
  rewrite Hs at 1. rewrite lex_from_after, pushSegment_after. done.
Qed.

Lemma lexer_start_tidy : tidy lexer_start.
Proof. done. Qed.

(** After a separator of one character, another of the same kind changes nothing. *)
Lemma separator_absorbed c b st :
  c = "&"%char ∨ c = "|"%char → between st → lex_from (String c b) st = lex_from b st.
Proof.
  intros Hc. revert st. induction b as [|d b IH]; intros st Hb; rewrite lex_from_cons.
  - destruct Hc as [-> | ->]; unfold lex_step; eval_eqb; by rewrite between_push.
  - assert (lex_step c (String d b) st = if Ascii.eqb d c then (st, b) else (st, String d b)) as ->.
    { unfold lex_step. cbn [head_is]. destruct Hc as [-> | ->]; eval_eqb; destruct (Ascii.eqb d _); eval_eqb; by rewrite between_push. }
    destruct (Ascii.eqb d c) eqn:Hd; [|done]. apply Ascii.eqb_eq in Hd as ->. by rewrite IH.
Qed.

Inductive separator : string → Prop :=
  | sep_semi : separator ";"
  | sep_newline : separator (one NEWLINE)
  | sep_pipe : separator "|"
  | sep_or : separator "||"
  | sep_amp : separator "&"
  | sep_and : separator "&&".

(** The last character is an angle bracket: an ampersand after it would be read with it. *)
Fixpoint ends_redirecting (a : string) : bool :=
  match a with
  | "" => false
  | String c "" => Ascii.eqb c "<" || Ascii.eqb c ">"
  | String _ r => ends_redirecting r
  end.

Lemma ends_redirecting_suffix p s : ends_redirecting (p +:+ s) = false → ends_redirecting s = false.
Proof.
  induction p as [|c p IH]; [done|]. rewrite append_cons. cbn [ends_redirecting]. destruct (p +:+ s) eqn:He.
  - by destruct p, s.
  - done.
Qed.

Definition separable (a sep : string) : bool :=
  closed a && negb (head_is "&" sep && ends_redirecting a).

Lemma lex_separator sep b st : separator sep → tidy st → lex_from (sep +:+ b) st = lex_from b (pushSegment st).
Proof.
  intros Hs Ht. pose proof (pushSegment_between st Ht) as Hb.
  destruct Hs; unfold one; rewrite ?append_cons; change ("" +:+ b) with b; rewrite lex_from_cons; unfold lex_step; cbn [head_is]; eval_eqb;
    try done; destruct (head_is _ b) eqn:Hh; try done; apply head_is_true in Hh as [b' ->]; eval_eqb;
    symmetry; apply separator_absorbed; auto.
Qed.

Lemma lex_glued c sep b st :
  separator sep → tidy st → negb (head_is "&" sep && ends_redirecting (one c)) = true → glued (one c) (sep +:+ b) = true →
  lex_from (String c (sep +:+ b)) st = lex_from b (pushSegment (lex_from (one c) st)).
Proof.
  intros Hs Ht Hr Hg. pose proof (pushSegment_between st Ht) as Hb.
  assert (c = "&"%char ∧ head_is "&" sep = true ∨ c = "|"%char ∧ head_is "|" sep = true) as Hc.
  { destruct Hs; rewrite ?append_cons in Hg; cbn in Hg, Hr; unfold bigram in Hg;
      destruct (Ascii.eqb c "<"), (Ascii.eqb c ">"), (Ascii.eqb c "$"), (Ascii.eqb c "&") eqn:E1, (Ascii.eqb c "|") eqn:E2;
      try discriminate; try (apply Ascii.eqb_eq in E1 as ->); try (apply Ascii.eqb_eq in E2 as ->); auto. }
  unfold one. rewrite !lex_from_cons.
  destruct Hc as [[-> Hh]|[-> Hh]]; destruct Hs; try discriminate Hh; rewrite ?append_cons; change ("" +:+ b) with b;
    unfold lex_step; cbn [head_is]; eval_eqb; change (lex_from "" (pushSegment st)) with (pushSegment st);
    rewrite (between_push (pushSegment st)) by done; try done; apply separator_absorbed; auto.
Qed.

(** Lexing past a separator ends the segment. *)
Lemma lex_compound_from a sep b st :
  separator sep → separable a sep = true → tidy st →
  lex_from (a +:+ sep +:+ b) st = lex_from b (pushSegment (lex_from a st)).
Proof.
  intros Hsep.
  assert (∀ n a st, String.length a ≤ n → separable a sep = true → tidy st →
    lex_from (a +:+ sep +:+ b) st = lex_from b (pushSegment (lex_from a st))) as Hn; [|intros; by apply (Hn (String.length a))].
  clear a st. induction n as [|n IH]; intros [|c r] st Hl Hs Ht; cbn in Hl; try lia; try exact (lex_separator sep b st Hsep Ht).
  rewrite append_cons. destruct (decide (r = "" ∧ glued (one c) (sep +:+ b) = true)) as [[-> Hg]|Hg].
  - apply andb_prop in Hs as [_ Hs]. exact (lex_glued c sep b st Hsep Ht Hs Hg).
  - apply andb_prop in Hs as [Hc Hr]. rewrite !lex_from_cons.
    destruct (lex_step_app c r (sep +:+ b) st Hc) as [-> Hc']; [intros ->; apply not_true_iff_false; naive_solver|].
    pose proof (lex_step_length c r st) as Hle. destruct (lex_step_suffix c r st) as [p Hp].
    pose proof (lex_step_tidy c r st Ht) as Ht'. destruct (lex_step c r st) as [st' r']. cbn [fst snd] in *.
    apply IH; [lia| |done]. unfold separable. rewrite Hc'. cbn [andb]. destruct (head_is "&" sep); [|done]. cbn [andb negb] in *.
    apply negb_true_iff in Hr. apply negb_true_iff, (ends_redirecting_suffix (String c p)). by rewrite append_cons, <- Hp.
Qed.

Lemma lex_compound a sep b :
  separator sep → separable a sep = true →
  lexShellCommand (a +:+ sep +:+ b) = lexShellCommand a ++ lexShellCommand b.
Proof.
  intros Hsep Hs. pose proof (lex_from_tidy a lexer_start lexer_start_tidy) as Ht. unfold lexShellCommand at 1.
  change (lex_loop _ ?s lexer_start) with (lex_from s lexer_start). rewrite lex_compound_from by done.
  by rewrite lex_between by by apply pushSegment_between.
Qed.
