(* ===== verification/ShellVerdict.v ===== *)
(** * Verdicts on commands (packages/core/src/tools/shell-matcher.ts)

    The patterns against a relation, the verdict on a command and on a compound, and the
    reading of a quoted script. *)
From S2P Require Import Prelude Shell ShellLaws ShellSplit.

#[local] Arguments Ascii.eqb : simpl never.

(** ** Patterns *)

(** What the words of a pattern promise: a literal is one identical token, [*] one token,
    a final [**] all that remain. *)
Inductive covers : list string → list string → Prop :=
  | covers_nil : covers [] []
  | covers_rest argv : covers ["**"] argv
  | covers_any words arg argv : covers words argv → covers ("*" :: words) (arg :: argv)
  | covers_word word words argv : word ≠ "**" → covers words argv → covers (word :: words) (word :: argv).

Lemma match_words_spec words argv :
  misplaced_rest words = false → match_words words argv = true ↔ covers words argv.
Proof.
  revert argv. induction words as [|w words IH]; intros argv Hm; cbn [match_words].
  - rewrite bool_decide_eq_true. split; [intros ->; constructor|by inversion 1].
  - case_bool_decide as Hw; [subst w|].
    { destruct words; [|by cbn in Hm]. split; [constructor|done]. }
    assert (misplaced_rest words = false) as Hm'.
    { destruct words; [done|]. cbn [misplaced_rest] in Hm. by apply orb_false_elim in Hm as [_ ?]. }
    destruct argv as [|arg argv]; [split; [done|by inversion 1]|].
    destruct (decide (w = "*")) as [->|Hs]; [|destruct (decide (w = arg)) as [->|Ha]].
    + rewrite bool_decide_eq_false_2 by auto. cbn [andb]. rewrite IH by done.
      split; [by constructor|]. inversion 1; subst; done.
    + rewrite (bool_decide_eq_false_2 (arg ≠ arg)), andb_false_r by auto. rewrite IH by done.
      split; [by constructor|]. inversion 1; subst; done.
    + rewrite !bool_decide_eq_true_2 by done. cbn [andb]. split; [done|]. inversion 1; by subst.
Qed.

Lemma covers_placed words argv : covers words argv → misplaced_rest words = false.
Proof.
  induction 1 as [|argv|words arg argv H IH|word words argv Hw H IH]; [done..| |];
    cbn [misplaced_rest]; destruct words; [done| |done|]; rewrite IH, orb_false_r; by apply bool_decide_eq_false.
Qed.

Lemma matchArgvPattern_spec pattern argv : matchArgvPattern pattern argv = true ↔ covers (pattern_words pattern) argv.
Proof.
  unfold matchArgvPattern. destruct (misplaced_rest (pattern_words pattern)) eqn:Hm.
  - split; [done|]. intros H%covers_placed. congruence.
  - by apply match_words_spec.
Qed.

(** Some pattern of the table covers the whole argv. *)
Definition listed (table : option (list string)) (argv : list string) : Prop :=
  ∃ pattern, pattern ∈ default [] table ∧ covers (pattern_words pattern) argv.

Lemma table_matches_spec table argv : table_matches table argv = true ↔ listed table argv.
Proof.
  unfold table_matches, listed. rewrite existsb_elem_of. by setoid_rewrite matchArgvPattern_spec.
Qed.

(** ** Verdicts *)

Definition strictest (v w : ShellVerdict) : ShellVerdict :=
  match v, w with
  | shell_deny, _ | _, shell_deny => shell_deny
  | shell_ask, _ | _, shell_ask => shell_ask
  | shell_allow, shell_allow => shell_allow
  end.

#[global] Instance strictest_assoc : Assoc (=) strictest.
Proof. by intros [] [] []. Qed.
#[global] Instance strictest_comm : Comm (=) strictest.
Proof. by intros [] []. Qed.

Definition strictest_of (rules : ShellPatternRules) (segments : list ShellSegment) : ShellVerdict :=
  foldr (fun segment => strictest (segmentVerdict segment rules)) shell_allow segments.

Lemma compose_verdicts_spec v segments rules :
  v ≠ shell_deny → compose_verdicts v segments rules = strictest v (strictest_of rules segments).
Proof.
  revert v. induction segments as [|s segments IH]; intros v Hv; [by destruct v|]. cbn.
  rewrite (assoc_L strictest). destruct (segmentVerdict s rules); rewrite ?IH; try done; by destruct v.
Qed.

Lemma matchShellCommand_spec command rules :
  matchShellCommand command rules =
  if decide (lexShellCommand command = []) then shell_ask else strictest_of rules (lexShellCommand command).
Proof.
  unfold matchShellCommand. destruct (lexShellCommand command) as [|s segments]; [done|].
  rewrite compose_verdicts_spec by done. by destruct (strictest_of _ _).
Qed.

Lemma strictest_of_app rules l k : strictest_of rules (l ++ k) = strictest (strictest_of rules l) (strictest_of rules k).
Proof.
  unfold strictest_of. induction l as [|s l IH]; [by destruct (foldr _ _ k)|].
  change ((s :: l) ++ k) with (s :: (l ++ k)). cbn [foldr]. by rewrite IH, (assoc_L strictest).
Qed.

(** C1: The verdict on two commands joined by a separator is the strictest of the verdicts on
    each, a part without segments adding nothing; so nothing that would ask or be denied
    alone is allowed behind a command that is. *)
Theorem compound_is_strictest a sep b rules :
  separator sep → separable a sep = true →
  matchShellCommand (a +:+ sep +:+ b) rules =
    if decide (lexShellCommand a = []) then matchShellCommand b rules
    else if decide (lexShellCommand b = []) then matchShellCommand a rules
    else strictest (matchShellCommand a rules) (matchShellCommand b rules).
Proof.
  intros Hsep Hs. rewrite !matchShellCommand_spec, lex_compound by done.
  destruct (decide (lexShellCommand a = [])) as [->|Ha]; [done|].
  destruct (decide (lexShellCommand b = [])) as [->|Hb]; [by rewrite app_nil_r, decide_False|].
  rewrite decide_False by (intros [??]%app_nil; done). apply strictest_of_app.
Qed.

Lemma strictest_of_allow rules l : strictest_of rules l = shell_allow ↔ ∀ s, s ∈ l → segmentVerdict s rules = shell_allow.
Proof.
  induction l as [|s l IH]; [split; [by intros _ s ?%elem_of_nil|done]|].
  change (strictest_of rules (s :: l)) with (strictest (segmentVerdict s rules) (strictest_of rules l)). setoid_rewrite elem_of_cons. split.
  - destruct (segmentVerdict s rules) eqn:Hs, (strictest_of rules l); intros Heq; try discriminate Heq. intros x [->|Hx]; [done|]. by apply IH.
  - intros Hl. rewrite (Hl s) by auto. rewrite (proj2 IH) by auto. done.
Qed.

Lemma segmentVerdict_allow s rules :
  segmentVerdict s rules = shell_allow ↔
  unmatchable s = false ∧ argv s ≠ [] ∧ ¬ listed (sh_deny rules) (argv s) ∧ ¬ listed (sh_ask rules) (argv s) ∧
  listed (sh_allow rules) (argv s).
Proof.
  unfold segmentVerdict. rewrite <- !table_matches_spec. destruct (unmatchable s); [split; [done|by intros [? _]]|].
  case_bool_decide as Ha; [split; [done|by intros (_ & [] & _)]|].
  destruct (table_matches (sh_deny rules) _), (table_matches (sh_ask rules) _), (table_matches (sh_allow rules) _);
    split; try done; try (intros (_ & _ & H1 & H2 & H3); (by destruct H1) || (by destruct H2)).
Qed.

(** C1: A command is allowed exactly when it substitutes nothing, has a segment, and every
    segment, less its assignments, is a nonempty argv that an allow pattern covers whole
    and no deny or ask pattern covers. *)
Theorem allowed_iff command rules :
  matchShellCommand command rules = shell_allow ↔
  substitutes command = false ∧ lexShellCommand command ≠ [] ∧
  ∀ s, s ∈ lexShellCommand command →
    argv s ≠ [] ∧ ¬ listed (sh_deny rules) (argv s) ∧ ¬ listed (sh_ask rules) (argv s) ∧ listed (sh_allow rules) (argv s).
Proof.
  rewrite matchShellCommand_spec, <- unmatchable_iff_substitutes, existsb_false_elem_of.
  destruct (decide _) as [He|He]; [split; [done|]; by intros (_ & ? & _)|].
  rewrite strictest_of_allow. setoid_rewrite segmentVerdict_allow. naive_solver.
Qed.

(** ** Quoting *)

(** A word as a shell quotes it: in single quotes, a quote inside as ['\'']. *)
Fixpoint escape_quotes (w : string) : string :=
  match w with
  | "" => ""
  | String c r => if Ascii.eqb c SINGLE_QUOTE
                  then String SINGLE_QUOTE (String BACKSLASH (String SINGLE_QUOTE (String SINGLE_QUOTE (escape_quotes r))))
                  else String c (escape_quotes r)
  end.

Definition quote_word (w : string) : string := String SINGLE_QUOTE (escape_quotes w +:+ one SINGLE_QUOTE).

Definition quote_command (argv : list string) : string := join_with " " (map quote_word argv).

Definition quote_script (commands : list (list string)) : string := join_with ";" (map quote_command commands).

Lemma take_text_twice u v st : take_text v (take_text u st) = take_text (u +:+ v) st.
Proof. unfold take_text. cbn. by rewrite append_assoc. Qed.

Lemma single_quoted_lacks p t :
  lacks SINGLE_QUOTE p = true → single_quoted (p +:+ String SINGLE_QUOTE t) = (p, t).
Proof.
  induction p as [|c p IH]; [done|]. unfold lacks. cbn [str_forall]. intros [Hc Hp]%andb_prop. apply negb_true_iff in Hc.
  rewrite append_cons. cbn [single_quoted]. rewrite Hc. by rewrite IH.
Qed.

Lemma lex_open_quote p t st :
  lacks SINGLE_QUOTE p = true → lex_from (String SINGLE_QUOTE (p +:+ String SINGLE_QUOTE t)) st = lex_from t (take_text p st).
Proof. intros Hp. rewrite lex_from_cons. unfold lex_step. eval_eqb. by rewrite single_quoted_lacks. Qed.

Lemma lex_escaped_quote t st :
  lex_from (String BACKSLASH (String SINGLE_QUOTE t)) st = lex_from t (take_text (one SINGLE_QUOTE) st).
Proof. by rewrite lex_from_cons. Qed.

Lemma lex_quoted_from p w t st :
  lacks SINGLE_QUOTE p = true →
  lex_from (String SINGLE_QUOTE (p +:+ escape_quotes w +:+ String SINGLE_QUOTE t)) st = lex_from t (take_text (p +:+ w) st).
Proof.
  revert p st. induction w as [|c w IH]; intros p st Hp; cbn [escape_quotes].
  - change ("" +:+ ?x) with x. by rewrite append_nil_r, lex_open_quote.
  - destruct (Ascii.eqb c SINGLE_QUOTE) eqn:Hc.
    + apply Ascii.eqb_eq in Hc as ->. rewrite !append_cons, lex_open_quote, lex_escaped_quote by done.
      pose proof (IH "" (take_text (one SINGLE_QUOTE) (take_text p st)) eq_refl) as IH'.
      change ("" +:+ ?x) with x in IH'. rewrite IH', !take_text_twice. done.
    + rewrite append_cons. assert (∀ x, p +:+ String c x = (p +:+ one c) +:+ x) as Hpc by (intros; by rewrite append_assoc).
      rewrite !Hpc. apply IH. rewrite lacks_app, Hp. unfold lacks, one. cbn. by rewrite Hc.
Qed.

Lemma lex_quote_word w t st : lex_from (quote_word w +:+ t) st = lex_from t (take_text w st).
Proof.
  unfold quote_word. rewrite append_cons, append_assoc. apply (lex_quoted_from "" w t st). done.
Qed.

(** A command as quoted takes one token per word. *)
Lemma lex_quote_command argv st :
  argv ≠ [] → current st = "" → hasCurrent st = false →
  pushToken (lex_from (quote_command argv) st) = mkLexer (segments st) (tokens st ++ argv) "" false (poisoned st).
Proof.
  unfold quote_command. revert st. induction argv as [|w argv IH]; intros st Hne Hc Hh; [done|]. cbn [map].
  destruct argv as [|w' argv].
  - cbn [map join_with]. rewrite <- (append_nil_r (quote_word w)), lex_quote_word.
    unfold pushToken. cbn. by rewrite Hc.
  - cbn [map]. rewrite join_with_cons, lex_quote_word, lex_from_cons. unfold lex_step. eval_eqb.
    rewrite <- (map_cons quote_word w' argv), IH by done. cbn. by rewrite Hc, <- app_assoc.
Qed.

Lemma closed_quoted w t : closed_from single (escape_quotes w +:+ String SINGLE_QUOTE t) = closed t.
Proof.
  induction w as [|c w IH]; cbn [escape_quotes]; [done|]. destruct (Ascii.eqb c SINGLE_QUOTE) eqn:Hc.
  - rewrite !append_cons. exact IH.
  - rewrite append_cons. cbn [closed_from next_quoting]. by rewrite Hc.
Qed.

Lemma closed_quote_word w t : closed (quote_word w +:+ t) = closed t.
Proof. unfold quote_word. rewrite append_cons, append_assoc. exact (closed_quoted w t). Qed.

Lemma closed_quote_command argv : closed (quote_command argv) = true.
Proof.
  unfold quote_command. induction argv as [|w [|w' argv] IH]; [done| |].
  - cbn [map join_with]. by rewrite <- (append_nil_r (quote_word w)), closed_quote_word.
  - cbn [map]. rewrite join_with_cons, closed_quote_word. exact IH.
Qed.

Lemma lex_one_command argv :
  argv ≠ [] → lexShellCommand (quote_command argv) = [mkSegment (stripAssignments argv) false].
Proof.
  intros Hne. unfold lexShellCommand. change (lex_loop _ ?s lexer_start) with (lex_from s lexer_start).
  unfold pushSegment. rewrite lex_quote_command by done. unfold segment_of. cbn. by rewrite bool_decide_eq_true_2.
Qed.

(** C1: Whatever the words of a script hold (separators, quotes, substitutions, newlines), once
    they are quoted as a shell quotes them the lexer reads back one segment per command
    with exactly its words, less leading assignments, and nothing unmatchable. *)
Theorem quoted_script_roundtrip commands :
  Forall (.≠ []) commands →
  lexShellCommand (quote_script commands) = map (fun argv => mkSegment (stripAssignments argv) false) commands.
Proof.
  unfold quote_script. induction 1 as [|argv commands Ha Hc IH]; [done|]. destruct commands as [|argv' commands].
  - by apply lex_one_command.
  - cbn [map] in *. rewrite join_with_cons.
    change (String ";" ?r) with (";" +:+ r). rewrite lex_compound; [|constructor|].
    + by rewrite lex_one_command, IH.
    + unfold separable. by rewrite closed_quote_command.
Qed.

(** ** Concrete commands *)

Definition text (parts : list string) : string := String.concat "" parts.

Lemma compound_is_strictest_witness :
  matchShellCommand ("npm test" +:+ ";" +:+ " rm -rf /") (mkShellRules None None (Some ["npm test"])) = shell_ask.
Proof.
  exact (eq_trans (compound_is_strictest "npm test" ";" " rm -rf /" (mkShellRules None None (Some ["npm test"]))
                     sep_semi eq_refl) eq_refl).
Defined.

Lemma quoted_script_roundtrip_witness :
  lexShellCommand (quote_script [["echo"; "a; b && $(c) 'd'"]; ["rm"; "-rf"; "/tmp/x y"]]) =
  [mkSegment ["echo"; "a; b && $(c) 'd'"] false; mkSegment ["rm"; "-rf"; "/tmp/x y"] false].
Proof.
  exact (quoted_script_roundtrip [["echo"; "a; b && $(c) 'd'"]; ["rm"; "-rf"; "/tmp/x y"]]
    ltac:(repeat constructor; discriminate)).
Defined.

(** A backslash and a newline between the dollar and the parenthesis: a shell joins the
    lines and substitutes; the lexer reads words, and an echo with any words is allowed. *)
Example continued_substitution_is_allowed :
  matchShellCommand (text ["echo $"; one BACKSLASH; one NEWLINE; "(rm -rf /)"]) (mkShellRules None None (Some ["echo **"])) = shell_allow.
Proof. reflexivity. Qed.

(** [$'\'']: a quote by its escape; the lexer closes the word at it and reads the second
    command as quoted text. *)
Example escaped_quote_hides_a_command :
  matchShellCommand (text ["echo $'"; one BACKSLASH; "'' ; rm -rf / ; echo $'"; one BACKSLASH; "''"])
    (mkShellRules (Some ["rm **"]) None (Some ["echo *"])) = shell_allow.
Proof. reflexivity. Qed.

(** The target of a redirection is a word that a star accepts. *)
Example star_accepts_a_redirection :
  matchShellCommand "echo >/etc/passwd" (mkShellRules None None (Some ["echo *"])) = shell_allow.
Proof. reflexivity. Qed.

(** A backslash inside double quotes is dropped before any character; a shell keeps it
    before a letter, so the command matched is not the command that runs. *)
Example double_quoted_backslash_is_dropped :
  matchShellCommand (text ["cat "; one DOUBLE_QUOTE; "a"; one BACKSLASH; "b"; one DOUBLE_QUOTE])
    (mkShellRules None None (Some ["cat ab"])) = shell_allow.
Proof. reflexivity. Qed.
