(* ===== verification/Permission.v ===== *)
(** * The permission chain (packages/core/src/runtime/permission-chain.ts, tools/presets.ts)

    The one approval surface of a tool call: hooks, deny rules, ask rules, [canUseTool]
    and the terminal default.  Hooks and [canUseTool] are host functions that may throw
    an [E]; a call consults each at most once and awaits it, so for one call a function
    of its arguments is all there is to know of it.  The abort signal and the log of a
    context are left out. *)
From S2P Require Import Prelude Json Shell.

Inductive ToolRisk := risk_read | risk_write | risk_network | risk_execute | risk_destructive.
Inductive RiskRuleValue := declared (r : ToolRisk) | undeclared.

#[global] Instance ToolRisk_eq_dec : EqDecision ToolRisk.
Proof. solve_decision. Defined.
#[global] Instance RiskRuleValue_eq_dec : EqDecision RiskRuleValue.
Proof. solve_decision. Defined.

(** [A | A[]]. *)
Inductive OneOrMany (A : Type) := single_value (a : A) | many_values (l : list A).
Arguments single_value {A} a.
Arguments many_values {A} l.

Definition values {A} (v : OneOrMany A) : list A :=
  match v with single_value a => [a] | many_values l => l end.

Inductive PermissionRule :=
  | rule_tool (tool : OneOrMany string)
  | rule_risk (risk : OneOrMany RiskRuleValue)
  | rule_argv (tool : string) (argv : OneOrMany string)
  | rule_domains (tool : string) (domains : list string).

Record ToolContext := mkContext {
  tc_runId : string;
  tc_spanId : string;
  tc_agentType : string;
  tc_label : option string;
  tc_cwd : string;
  tc_isolation : json;
}.

Inductive HookVerdict := hook_allow | hook_deny | hook_ask | hook_modified (input : json) | hook_pass.
Inductive CanUseVerdict := can_allow | can_deny | can_modified (input : json).

Inductive Verdict := allowed | denied | asked.
Inductive DecidedBy := by_hook | by_deny_rule | by_ask_rule | by_canUseTool | by_default.

#[global] Instance Verdict_eq_dec : EqDecision Verdict.
Proof. solve_decision. Defined.
#[global] Instance DecidedBy_eq_dec : EqDecision DecidedBy.
Proof. solve_decision. Defined.

Record PermissionVerdict := mkVerdict {
  pv_verdict : Verdict;
  pv_decidedBy : DecidedBy;
  pv_rule : option PermissionRule;
  pv_input : json;
  pv_advisory : option (list PermissionRule);
}.

(** ** Presets *)

Inductive PermissionPreset := preset_strict | preset_standard | preset_open.

(** The deny and the ask rules of a preset. *)
Definition compilePermissionPreset (preset : PermissionPreset) : list PermissionRule * list PermissionRule :=
  match preset with
  | preset_strict =>
      ([rule_risk (single_value (declared risk_destructive))],
       [rule_risk (many_values [declared risk_write; declared risk_network; declared risk_execute]);
        rule_risk (single_value undeclared)])
  | preset_standard =>
      ([],
       [rule_risk (many_values [declared risk_network; declared risk_execute; declared risk_destructive]);
        rule_risk (single_value undeclared)])
  | preset_open => ([], [])
  end.

Section Chain.
Context {E : Type}.
(** [process.cwd()]. *)
Variable processCwd : string.

Definition PermissionHook : Type := string → json → ToolContext → result E HookVerdict.
Definition CanUseTool : Type := string → json → ToolContext → result E CanUseVerdict.

(** The modes and the deadline of a layer are what the host wrote, checked at compile. *)
Record PermissionConfig := mkConfig {
  pc_hooks : option (list PermissionHook);
  pc_deny : option (list PermissionRule);
  pc_ask : option (list PermissionRule);
  pc_canUseTool : option CanUseTool;
  pc_strictApprovals : option json;
  pc_approvalDeadlineMs : option json;
  pc_hookAllow : option json;
}.

Record AgentProfilePermissions := mkProfile {
  ap_config : PermissionConfig;
  ap_preset : option PermissionPreset;
  ap_inheritPermissions : option json;
}.

Record CompiledPermissionChain := mkChain {
  ch_hooks : list PermissionHook;
  ch_deny : list PermissionRule;
  ch_ask : list PermissionRule;
  ch_canUseTool : option CanUseTool;
  ch_strictApprovals : bool;
  ch_approvalDeadlineMs : option Z;
  ch_advisory : bool;   (* [hookAllow] is present *)
}.

(** ** Compiling the layers *)

Definition MAX_DEADLINE_MS : Z := 3155760000000.

(** A [ConfigError] names the option it refuses. *)
Definition requireDeadlineMs (value : json) (site : string) : result string Z :=
  match value with
  | JNum n => if (n <? 1)%Z then Err site else if (MAX_DEADLINE_MS <? n)%Z then Err site else Ok n
  | _ => Err site
  end.

(** [a ?? b]. *)
Definition nullish (a b : option json) : option json :=
  match a with None | Some JNull => b | Some _ => a end.

Definition layer_list {A} (field : PermissionConfig → option (list A)) (layer : option PermissionConfig) : list A :=
  default [] (layer ≫= field).

Definition first_given {A} (a b : option A) : option A := match a with Some _ => a | None => b end.

(** [value !== undefined && typeof value !== 'boolean']. *)
Definition require_boolean (site : string) (value : option json) : result string unit :=
  match value with None | Some (JBool _) => Ok () | Some _ => Err site end.

Definition require_mode (site : string) (value : option json) : result string unit :=
  if decide (value = None) then Ok ()
  else if is_str value "decisive" || is_str value "advisory" then Ok () else Err site.

(** The spawning agent's layer, when the profile opts in. *)
Definition inherited_layer (profile : option AgentProfilePermissions) (parent : option PermissionConfig) : option PermissionConfig :=
  if is_true_json (profile ≫= ap_inheritPermissions) then parent else None.

Definition preset_rules (profile : option AgentProfilePermissions) : list PermissionRule * list PermissionRule :=
  match profile ≫= ap_preset with None => ([], []) | Some preset => compilePermissionPreset preset end.

Definition compilePermissionChain (engine : option PermissionConfig) (profile : option AgentProfilePermissions)
    (parent : option PermissionConfig) : result string CompiledPermissionChain :=
  let preset := preset_rules profile in
  _ ← require_boolean "profile permissions.inheritPermissions" (profile ≫= ap_inheritPermissions);
  let inherited := inherited_layer profile parent in
  let own := ap_config <$> profile in
  let deny := layer_list pc_deny engine ++ layer_list pc_deny inherited ++ layer_list pc_deny own ++ preset.1 in
  let ask := layer_list pc_ask engine ++ layer_list pc_ask inherited ++ layer_list pc_ask own ++ preset.2 in
  let canUseTool := first_given (own ≫= pc_canUseTool) (first_given (inherited ≫= pc_canUseTool) (engine ≫= pc_canUseTool)) in
  _ ← require_boolean "permissions.strictApprovals" (engine ≫= pc_strictApprovals);
  _ ← require_boolean "inherited permissions.strictApprovals" (inherited ≫= pc_strictApprovals);
  _ ← require_boolean "profile permissions.strictApprovals" (own ≫= pc_strictApprovals);
  let strictApprovals := is_true_json (engine ≫= pc_strictApprovals) || is_true_json (inherited ≫= pc_strictApprovals) ||
                         is_true_json (own ≫= pc_strictApprovals) in
  _ ← require_mode "permissions.hookAllow" (engine ≫= pc_hookAllow);
  _ ← require_mode "inherited permissions.hookAllow" (inherited ≫= pc_hookAllow);
  _ ← require_mode "profile permissions.hookAllow" (own ≫= pc_hookAllow);
  let advisoryHookAllow := is_str (engine ≫= pc_hookAllow) "advisory" || is_str (inherited ≫= pc_hookAllow) "advisory" ||
                           is_str (own ≫= pc_hookAllow) "advisory" in
  let deadline := nullish (own ≫= pc_approvalDeadlineMs)
                    (nullish (inherited ≫= pc_approvalDeadlineMs) (engine ≫= pc_approvalDeadlineMs)) in
  approvalDeadlineMs ← match deadline with
                       | None => Ok None
                       | Some v => Some <$> requireDeadlineMs v "permissions.approvalDeadlineMs"
                       end;
  Ok (mkChain (layer_list pc_hooks engine ++ layer_list pc_hooks inherited ++ layer_list pc_hooks own)
        deny ask canUseTool strictApprovals approvalDeadlineMs advisoryHookAllow).

(** ** Rules *)

(** The command text an argv rule matches against. *)
Definition commandOf (input : json) : option string :=
  match input with
  | JStr s => Some s
  | _ => r ← asRecord (Some input); as_string (prop r "command")
  end.

Definition ruleMatches (rule : PermissionRule) (toolName : string) (risk : option ToolRisk) (input : json) : bool :=
  match rule with
  | rule_risk risks =>
      (bool_decide (undeclared ∈ values risks) && bool_decide (risk = None)) ||
      match risk with Some r => bool_decide (declared r ∈ values risks) | None => false end
  | rule_domains _ _ => false
  | rule_tool tools => bool_decide (toolName ∈ values tools)
  | rule_argv tool patterns =>
      bool_decide (toolName = tool) &&
      match commandOf input with
      | None => false
      | Some command =>
          existsb (fun segment => negb (unmatchable segment) &&
                     existsb (fun pattern => matchArgvPattern pattern (argv segment)) (values patterns))
            (lexShellCommand command)
      end
  end.

Definition domain_rule_for (toolName : string) (rule : PermissionRule) : bool :=
  match rule with rule_domains tool _ => bool_decide (tool = toolName) | _ => false end.

Definition advisoryMatches (chain : CompiledPermissionChain) (toolName : string) : list PermissionRule :=
  List.filter (domain_rule_for toolName) (ch_deny chain ++ ch_ask chain).

Definition argv_rule_for (toolName : string) (rule : PermissionRule) : bool :=
  match rule with rule_argv tool _ => bool_decide (toolName = tool) | _ => false end.

Definition argvUnmatchableAsk (chain : CompiledPermissionChain) (toolName : string) (input : json) : bool :=
  if existsb (argv_rule_for toolName) (ch_deny chain ++ ch_ask chain) then
    match commandOf input with
    | None => true
    | Some command => existsb unmatchable (lexShellCommand command)
    end
  else false.

(** ** Evaluating a call *)

Definition offlineContext (toolName : string) : ToolContext :=
  mkContext "dry-run" ("dry-run-" +:+ toolName) "" None processCwd (JStr "none").

(** [Pick<ToolDef, 'name' | 'needsApproval' | 'risk'>], or a name. *)
Record ToolFacts := mkTool { tf_name : string; tf_needsApproval : bool; tf_risk : option ToolRisk }.
Inductive ToolRef := by_name (name : string) | by_facts (tool : ToolFacts).

Definition facts_of (tool : ToolRef) : ToolFacts :=
  match tool with by_name name => mkTool name false None | by_facts t => t end.

(** How the hooks end: one decided, or the layers below see [effective], an allow held or not. *)
Inductive HooksEnd := hooks_decide (v : Verdict) (effective : json) | hooks_done (effective : json) (heldAllow : bool).

Fixpoint run_hooks (name : string) (context : ToolContext) (strictHold holdHookAllow : bool)
    (hooks : list PermissionHook) (effective : json) : result E HooksEnd :=
  match hooks with
  | [] => Ok (hooks_done effective false)
  | hook :: hooks =>
      verdict ← hook name effective context;
      match verdict with
      | hook_pass => run_hooks name context strictHold holdHookAllow hooks effective
      | hook_allow =>
          if strictHold then run_hooks name context strictHold holdHookAllow hooks effective
          else if holdHookAllow then Ok (hooks_done effective true)
          else Ok (hooks_decide allowed effective)
      | hook_deny => Ok (hooks_decide denied effective)
      | hook_ask => Ok (hooks_decide asked effective)
      | hook_modified input => run_hooks name context strictHold holdHookAllow hooks input
      end
  end.

(** The chain below the ask rules: [canUseTool] and the terminal default. *)
Definition last_layers (chain : CompiledPermissionChain) (def : ToolFacts) (context : ToolContext) (strictHold : bool)
    (effective : json) : result E (Verdict * DecidedBy * json) :=
  let terminal input := if tf_needsApproval def then (asked, by_default, input) else (allowed, by_default, input) in
  match ch_canUseTool chain with
  | None => Ok (terminal effective)
  | Some canUseTool =>
      verdict ← canUseTool (tf_name def) effective context;
      Ok match verdict with
         | can_allow => if strictHold then terminal effective else (allowed, by_canUseTool, effective)
         | can_deny => (denied, by_canUseTool, effective)
         | can_modified input => terminal input
         end
  end.

Definition evaluatePermission (chain : CompiledPermissionChain) (tool : ToolRef) (input : json) (ctx : option ToolContext)
    : result E PermissionVerdict :=
  let def := facts_of tool in
  let risk := tf_risk def in
  let context := default (offlineContext (tf_name def)) ctx in
  let advisory := advisoryMatches chain (tf_name def) in
  let withAdvisory v layer rule input := mkVerdict v layer rule input (if decide (advisory = []) then None else Some advisory) in
  let strictHold := ch_strictApprovals chain && tf_needsApproval def in
  ended ← run_hooks (tf_name def) context strictHold (ch_advisory chain) (ch_hooks chain) input;
  match ended with
  | hooks_decide v effective => Ok (withAdvisory v by_hook None effective)
  | hooks_done effective heldAllow =>
      let matches rule := ruleMatches rule (tf_name def) risk effective in
      match find_first matches (ch_deny chain) with
      | Some rule => Ok (withAdvisory denied by_deny_rule (Some rule) effective)
      | None =>
          if heldAllow then Ok (withAdvisory allowed by_hook None effective)
          else match find_first matches (ch_ask chain) with
               | Some rule => Ok (withAdvisory asked by_ask_rule (Some rule) effective)
               | None =>
                   if argvUnmatchableAsk chain (tf_name def) effective
                   then Ok (withAdvisory asked by_ask_rule None effective)
                   else '(v, layer, input) ← last_layers chain def context strictHold effective;
                        Ok (withAdvisory v layer None input)
               end
      end
  end.

End Chain.

Arguments PermissionHook : clear implicits.
Arguments CanUseTool : clear implicits.
Arguments PermissionConfig : clear implicits.
Arguments AgentProfilePermissions : clear implicits.
Arguments CompiledPermissionChain : clear implicits.
