(* ===== verification/PermissionLaws.v ===== *)
(** * Laws of the permission chain (packages/core/src/runtime/permission-chain.ts)

    What an allow says of the layers it went through, and what a layer of rules and modes
    may change of a verdict. *)
From S2P Require Import Prelude Json Shell ShellLaws ShellSplit ShellVerdict Permission.

Section Laws.
Context {E : Type}.
Variable processCwd : string.
Implicit Types chain : CompiledPermissionChain E.
Implicit Types engine parent : option (PermissionConfig E).
Implicit Types profile : option (AgentProfilePermissions E).

#[local] Abbreviation evaluatePermission := (evaluatePermission processCwd).

(** ** The layers a verdict went through *)

Definition context_of (tool : ToolRef) (ctx : option ToolContext) : ToolContext :=
  default (offlineContext processCwd (tf_name (facts_of tool))) ctx.

Definition strict_hold chain (tool : ToolRef) : bool := ch_strictApprovals chain && tf_needsApproval (facts_of tool).

Definition hooks_end chain tool input ctx : result E HooksEnd :=
  run_hooks (tf_name (facts_of tool)) (context_of tool ctx) (strict_hold chain tool) (ch_advisory chain) (ch_hooks chain) input.

Definition matches_rule (tool : ToolRef) (input : json) (rule : PermissionRule) : bool :=
  ruleMatches rule (tf_name (facts_of tool)) (tf_risk (facts_of tool)) input.

(** No rule of the tables, and no unmatchable command, stops the call. *)
Definition passes_tables chain (tool : ToolRef) (input : json) : Prop :=
  (∀ rule, rule ∈ ch_deny chain ++ ch_ask chain → matches_rule tool input rule = false) ∧
  argvUnmatchableAsk chain (tf_name (facts_of tool)) input = false.

Definition last_allows chain (tool : ToolRef) ctx (effective : json) (layer : DecidedBy) (final : json) : Prop :=
  last_layers chain (facts_of tool) (context_of tool ctx) (strict_hold chain tool) effective = Ok (allowed, layer, final).

(** The ways a call is allowed. *)
Inductive allows chain tool input ctx : DecidedBy → json → Prop :=
  | allows_hook effective :
      hooks_end chain tool input ctx = Ok (hooks_decide allowed effective) → allows chain tool input ctx by_hook effective
  | allows_held effective :
      hooks_end chain tool input ctx = Ok (hooks_done effective true) →
      (∀ rule, rule ∈ ch_deny chain → matches_rule tool effective rule = false) →
      allows chain tool input ctx by_hook effective
  | allows_last effective layer final :
      hooks_end chain tool input ctx = Ok (hooks_done effective false) →
      passes_tables chain tool effective → last_allows chain tool ctx effective layer final →
      allows chain tool input ctx layer final.

Lemma evaluate_allows chain tool input ctx v :
  evaluatePermission chain tool input ctx = Ok v → pv_verdict v = allowed →
  allows chain tool input ctx (pv_decidedBy v) (pv_input v).
Proof.
  unfold Permission.evaluatePermission. fold (context_of tool ctx). fold (strict_hold chain tool).
  fold (hooks_end chain tool input ctx). intros (ended & Hend & H)%bind_ok Hv.
  destruct ended as [w effective|effective held].
  { injection H as <-. cbn in *. subst. by constructor. }
  destruct (find_first _ (ch_deny chain)) eqn:Hdeny; [by injection H as <-|]. rewrite find_first_None in Hdeny.
  destruct held; [injection H as <-; cbn; by apply allows_held|].
  destruct (find_first _ (ch_ask chain)) eqn:Hask; [by injection H as <-|]. rewrite find_first_None in Hask.
  destruct (argvUnmatchableAsk _ _ _) eqn:Hu; [by injection H as <-|].
  apply bind_ok in H as ([[w layer] final] & Hl & [= <-]). cbn in *. subst w.
  eapply allows_last; [done| |done]. split; [|done]. intros rule [Hr|Hr]%elem_of_app; [by apply Hdeny|by apply Hask].
Qed.

Lemma allows_evaluate chain tool input ctx layer final :
  allows chain tool input ctx layer final →
  ∃ v, evaluatePermission chain tool input ctx = Ok v ∧ pv_verdict v = allowed ∧ pv_decidedBy v = layer ∧ pv_input v = final.
Proof.
  intros Ha. unfold Permission.evaluatePermission. fold (context_of tool ctx). fold (strict_hold chain tool).
  fold (hooks_end chain tool input ctx). destruct Ha as [effective He|effective He Hd|effective layer final He [Ht Hu] Hl]; rewrite He; cbn [mbind result_bind].
  - by eexists.
  - rewrite (proj2 (find_first_None _ _)) by done. by eexists.
  - rewrite !(proj2 (find_first_None _ _)) by (intros; apply Ht; set_solver). rewrite Hu.
    unfold last_allows in Hl. rewrite Hl. cbn. by eexists.
Qed.

(** ** The modes *)

Lemma run_hooks_strict name context held hooks input ended :
  run_hooks (E:=E) name context true held hooks input = Ok ended →
  (∀ effective, ended ≠ hooks_decide allowed effective) ∧ (∀ effective, ended ≠ hooks_done effective true).
Proof.
  revert input. induction hooks as [|hook hooks IH]; intros input; cbn.
  - intros [= <-]. by split.
  - intros (v & _ & H)%bind_ok. destruct v; try (by eapply IH); injection H as <-; by split.
Qed.

Lemma run_hooks_advisory name context strict hooks input ended :
  run_hooks (E:=E) name context strict true hooks input = Ok ended → ∀ effective, ended ≠ hooks_decide allowed effective.
Proof.
  revert input. induction hooks as [|hook hooks IH]; intros input; cbn; [by intros [= <-]|].
  intros (v & _ & H)%bind_ok. destruct v; try (by eapply IH); try (by injection H as <-).
  destruct strict; [by eapply IH|by injection H as <-].
Qed.

Lemma strict_never_allows chain tool input ctx layer final :
  strict_hold chain tool = true → ¬ allows chain tool input ctx layer final.
Proof.
  intros Hs Ha. pose proof Hs as [_ Hneed]%andb_prop.
  destruct Ha as [effective He|effective He _|effective layer final He _ Hl]; unfold hooks_end in *.
  1, 2: rewrite Hs in He; destruct (run_hooks_strict _ _ _ _ _ _ He) as [H1 H2]; naive_solver.
  unfold last_allows, last_layers in Hl. rewrite Hs, Hneed in Hl. destruct (ch_canUseTool chain); [|done].
  apply bind_ok in Hl as (w & _ & Hw). by destruct w.
Qed.

(** ** Compiled chains *)

(** A layer of the three that reach a chain. *)
Definition reaches engine profile parent (layer : PermissionConfig E) : Prop :=
  engine = Some layer ∨ inherited_layer profile parent = Some layer ∨ ap_config <$> profile = Some layer.

Lemma compile_fields engine profile parent chain :
  compilePermissionChain engine profile parent = Ok chain →
  let inherited := inherited_layer profile parent in
  let own := ap_config <$> profile in
  ch_hooks chain = layer_list pc_hooks engine ++ layer_list pc_hooks inherited ++ layer_list pc_hooks own ∧
  ch_deny chain = layer_list pc_deny engine ++ layer_list pc_deny inherited ++ layer_list pc_deny own ++ (preset_rules profile).1 ∧
  ch_ask chain = layer_list pc_ask engine ++ layer_list pc_ask inherited ++ layer_list pc_ask own ++ (preset_rules profile).2 ∧
  ch_canUseTool chain = first_given (own ≫= pc_canUseTool) (first_given (inherited ≫= pc_canUseTool) (engine ≫= pc_canUseTool)) ∧
  ch_strictApprovals chain = is_true_json (engine ≫= pc_strictApprovals) || is_true_json (inherited ≫= pc_strictApprovals) ||
                             is_true_json (own ≫= pc_strictApprovals) ∧
  ch_advisory chain = is_str (engine ≫= pc_hookAllow) "advisory" || is_str (inherited ≫= pc_hookAllow) "advisory" ||
                      is_str (own ≫= pc_hookAllow) "advisory".
Proof.
  unfold compilePermissionChain. intros H. repeat (apply bind_ok in H as (? & _ & H)). injection H as <-. by split_and!.
Qed.

Lemma in_layer_list {A} (field : PermissionConfig E → option (list A)) layer x :
  x ∈ default [] (field layer) → x ∈ layer_list field (Some layer).
Proof. done. Qed.

Lemma reaches_deny engine profile parent chain layer rule :
  compilePermissionChain engine profile parent = Ok chain → reaches engine profile parent layer →
  rule ∈ default [] (pc_deny layer) → rule ∈ ch_deny chain.
Proof.
  intros (_ & -> & _)%compile_fields [-> | [-> | ->]] Hr%in_layer_list; rewrite !elem_of_app; auto.
Qed.

Lemma reaches_ask engine profile parent chain layer rule :
  compilePermissionChain engine profile parent = Ok chain → reaches engine profile parent layer →
  rule ∈ default [] (pc_ask layer) → rule ∈ ch_ask chain.
Proof.
  intros (_ & _ & -> & _)%compile_fields [-> | [-> | ->]] Hr%in_layer_list; rewrite !elem_of_app; auto.
Qed.

Lemma reaches_strict engine profile parent chain layer :
  compilePermissionChain engine profile parent = Ok chain → reaches engine profile parent layer →
  pc_strictApprovals layer = Some (JBool true) → ch_strictApprovals chain = true.
Proof.
  intros (_ & _ & _ & _ & -> & _)%compile_fields [-> | [-> | ->]] Hs; cbn; rewrite Hs; cbn; by rewrite ?orb_true_r.
Qed.

Lemma reaches_advisory engine profile parent chain layer :
  compilePermissionChain engine profile parent = Ok chain → reaches engine profile parent layer →
  pc_hookAllow layer = Some (JStr "advisory") → ch_advisory chain = true.
Proof.
  intros (_ & _ & _ & _ & _ & ->)%compile_fields [-> | [-> | ->]] Hs; cbn; rewrite Hs; cbn; by rewrite ?orb_true_r.
Qed.

(** C1: A strict mode armed by any layer that reaches the chain (the engine, the spawning agent
    when the profile inherits, the profile) is armed for good: no hook and no [canUseTool]
    of any layer gets a tool that declares the need of approval allowed. *)
Theorem strict_approvals_hold engine profile parent chain layer tool input ctx v :
  compilePermissionChain engine profile parent = Ok chain → reaches engine profile parent layer →
  pc_strictApprovals layer = Some (JBool true) → tf_needsApproval tool = true →
  evaluatePermission chain (by_facts tool) input ctx = Ok v → pv_verdict v ≠ allowed.
Proof.
  intros Hc Hr Hs Hn Hv Ha. eapply strict_never_allows, evaluate_allows; [|done|done].
  unfold strict_hold. cbn. by rewrite (reaches_strict _ _ _ _ _ Hc Hr Hs).
Qed.

(** What the deny tables read of an allowed call under the advisory mode. *)
Lemma advisory_allows chain tool input ctx layer final :
  ch_advisory chain = true → allows chain tool input ctx layer final →
  ∃ effective held, hooks_end chain tool input ctx = Ok (hooks_done effective held) ∧
    (∀ rule, rule ∈ ch_deny chain → matches_rule tool effective rule = false) ∧
    (final = effective ∨ ∃ canUseTool, ch_canUseTool chain = Some canUseTool ∧
       canUseTool (tf_name (facts_of tool)) effective (context_of tool ctx) = Ok (can_modified final)).
Proof.
  intros Had Ha. destruct Ha as [effective He|effective He Hd|effective layer final He [Ht _] Hl].
  - unfold hooks_end in He. rewrite Had in He. by destruct (run_hooks_advisory _ _ _ _ _ _ He effective).
  - exists effective, true. split_and!; auto.
  - exists effective, false. split_and!; [done|intros; apply Ht; set_solver|].
    unfold last_allows, last_layers in Hl. destruct (ch_canUseTool chain) as [canUseTool|].
    + apply bind_ok in Hl as (w & Hw & Hl). destruct w; repeat case_match; simplify_eq; eauto.
    + repeat case_match; simplify_eq; auto.
Qed.

(** C1: An advisory mode armed by any layer that reaches the chain keeps every deny rule of
    every such layer in force: no allow, whoever gives it, is given to an input that one
    of them matches, save for what [canUseTool] substitutes afterwards. *)
Theorem advisory_denies_hold engine profile parent chain armed tool input ctx v :
  compilePermissionChain engine profile parent = Ok chain → reaches engine profile parent armed →
  pc_hookAllow armed = Some (JStr "advisory") →
  evaluatePermission chain tool input ctx = Ok v → pv_verdict v = allowed →
  ∃ effective,
    (∀ layer rule, reaches engine profile parent layer → rule ∈ default [] (pc_deny layer) →
       matches_rule tool effective rule = false) ∧
    (∀ rule, rule ∈ (preset_rules profile).1 → matches_rule tool effective rule = false) ∧
    (pv_input v = effective ∨ ∃ canUseTool, ch_canUseTool chain = Some canUseTool ∧
       canUseTool (tf_name (facts_of tool)) effective (context_of tool ctx) = Ok (can_modified (pv_input v))).
Proof.
  intros Hc Hr Hm Hv Ha. pose proof (reaches_advisory _ _ _ _ _ Hc Hr Hm) as Had.
  destruct (advisory_allows _ _ _ _ _ _ Had (evaluate_allows _ _ _ _ _ Hv Ha)) as (effective & held & _ & Hd & Hf).
  exists effective. split_and!; [| |done].
  - intros layer rule Hl Hin. apply Hd. by eapply reaches_deny.
  - intros rule Hin. apply Hd. destruct (compile_fields _ _ _ _ Hc) as (_ & -> & _). rewrite !elem_of_app. auto.
Qed.

(** ** Tightening *)

(** The same hooks and [canUseTool]; no rule fewer and no mode weaker. *)
Record tighter (c' c : CompiledPermissionChain E) : Prop := mkTighter {
  t_hooks : ch_hooks c' = ch_hooks c;
  t_can : ch_canUseTool c' = ch_canUseTool c;
  t_deny : ch_deny c ⊆ ch_deny c';
  t_ask : ch_ask c ⊆ ch_ask c';
  t_strict : ch_strictApprovals c = true → ch_strictApprovals c' = true;
  t_advisory : ch_advisory c = true → ch_advisory c' = true;
}.

(** An allow that is held decides without the mode that holds it. *)
Lemma run_hooks_unheld name context strict hooks input effective :
  run_hooks (E:=E) name context strict true hooks input = Ok (hooks_done effective true) →
  run_hooks name context strict false hooks input = Ok (hooks_decide allowed effective).
Proof.
  revert input. induction hooks as [|hook hooks IH]; intros input; cbn; [done|].
  intros (v & Hv & H)%bind_ok. rewrite Hv. cbn. destruct v; try done; try by apply IH.
  destruct strict; [by apply IH|by injection H as ->].
Qed.

Lemma run_hooks_not_held name context strict hooks input effective :
  run_hooks (E:=E) name context strict true hooks input = Ok (hooks_done effective false) →
  run_hooks name context strict false hooks input = Ok (hooks_done effective false).
Proof.
  revert input. induction hooks as [|hook hooks IH]; intros input; cbn; [done|].
  intros (v & Hv & H)%bind_ok. rewrite Hv. cbn. destruct v; try done; try by apply IH.
  destruct strict; [by apply IH|done].
Qed.

Lemma inherited_layer_cases profile layer :
  inherited_layer profile (Some layer) = None ∨ inherited_layer (E:=E) profile (Some layer) = Some layer.
Proof. unfold inherited_layer. case_match; auto. Qed.

Lemma unmatchable_ask_subset c' c toolName input :
  ch_deny c ⊆ ch_deny c' → ch_ask c ⊆ ch_ask c' →
  argvUnmatchableAsk (E:=E) c' toolName input = false → argvUnmatchableAsk (E:=E) c toolName input = false.
Proof.
  intros Hd Ha. unfold argvUnmatchableAsk.
  destruct (existsb (argv_rule_for toolName) (ch_deny c ++ ch_ask c)) eqn:Hc; [|done].
  apply existsb_elem_of in Hc as (rule & Hin & Hr).
  assert (existsb (argv_rule_for toolName) (ch_deny c' ++ ch_ask c') = true) as ->; [|done].
  apply existsb_elem_of. exists rule. split; [set_solver|done].
Qed.

Lemma tighter_allows c' c tool input ctx layer final :
  tighter c' c → allows c' tool input ctx layer final → allows c tool input ctx layer final.
Proof.
  intros [Hh Hcan Hd Ha Hs Had] Hal. destruct (strict_hold c' tool) eqn:Hs'.
  { by destruct (strict_never_allows c' tool input ctx layer final Hs'). }
  assert (strict_hold c tool = false) as Hsc.
  { unfold strict_hold in *. destruct (ch_strictApprovals c); [by rewrite Hs in Hs'|done]. }
  assert (∀ effective, passes_tables c' tool effective → passes_tables c tool effective) as Hpass.
  { intros effective [Ht Hu]. split; [intros; apply Ht; set_solver|by eapply unmatchable_ask_subset]. }
  assert (∀ effective, last_allows c' tool ctx effective layer final → last_allows c tool ctx effective layer final) as Hlast.
  { unfold last_allows, last_layers. intros effective. by rewrite Hcan, Hs', Hsc. }
  assert (∀ b, hooks_end c' tool input ctx = Ok b → ch_advisory c' = ch_advisory c → hooks_end c tool input ctx = Ok b) as Hsame.
  { unfold hooks_end. intros b He Heq. by rewrite Hsc, <- Heq, <- Hh, <- Hs'. }
  assert (ch_advisory c' = ch_advisory c ∨ ch_advisory c' = true ∧ ch_advisory c = false) as Hmode
    by (destruct (ch_advisory c'), (ch_advisory c); auto; by specialize (Had eq_refl)).
  assert (hooks_end c tool input ctx = run_hooks (tf_name (facts_of tool)) (context_of tool ctx) (strict_hold c' tool)
            (ch_advisory c) (ch_hooks c') input) as Hend by (unfold hooks_end; by rewrite Hsc, Hs', Hh).
  destruct Hal as [effective He|effective He Hden|effective layer final He Ht Hl]; pose proof He as He'; unfold hooks_end in He;
    destruct Hmode as [Hm|[Hm Hmc]].
  - constructor. by apply Hsame.
  - rewrite Hm in He. by destruct (run_hooks_advisory _ _ _ _ _ _ He effective).
  - apply allows_held; [by apply Hsame|]. intros rule Hr. by apply Hden, Hd.
  - constructor. rewrite Hend, Hmc. apply run_hooks_unheld. by rewrite Hm in He.
  - eapply allows_last; [by apply Hsame|by apply Hpass|by apply Hlast].
  - eapply allows_last; [|by apply Hpass|by apply Hlast]. rewrite Hend, Hmc. apply run_hooks_not_held. by rewrite Hm in He.
Qed.

(** C1: Inheriting a spawning agent's layer of rules and modes only tightens: a call that the
    chain with the layer allows is allowed without it, by the same layer and with the
    same input. *)
Theorem inherited_rules_only_tighten engine profile layer c c' tool input ctx v' :
  compilePermissionChain engine profile None = Ok c → compilePermissionChain engine profile (Some layer) = Ok c' →
  pc_hooks layer = None → pc_canUseTool layer = None →
  evaluatePermission c' tool input ctx = Ok v' → pv_verdict v' = allowed →
  ∃ v, evaluatePermission c tool input ctx = Ok v ∧ pv_verdict v = allowed ∧
       pv_decidedBy v = pv_decidedBy v' ∧ pv_input v = pv_input v'.
Proof.
  intros Hc Hc' Hhooks Hcan Hv Ha. apply allows_evaluate. eapply tighter_allows, evaluate_allows; [|done..].
  destruct (compile_fields _ _ _ _ Hc) as (H1 & H2 & H3 & H4 & H5 & H6).
  destruct (compile_fields _ _ _ _ Hc') as (G1 & G2 & G3 & G4 & G5 & G6).
  assert (inherited_layer profile None = None) as HN by (unfold inherited_layer; by case_match).
  rewrite HN in *. destruct (inherited_layer_cases profile layer) as [HP|HP]; rewrite HP in *; cbn in *.
  - split; [by rewrite H1, G1|by rewrite H4, G4|by rewrite H2, G2|by rewrite H3, G3|by rewrite H5, G5|by rewrite H6, G6].
  - unfold layer_list in *. cbn in *. rewrite Hhooks, Hcan in *. split.
    + by rewrite H1, G1.
    + by rewrite H4, G4.
    + rewrite H2, G2. set_solver.
    + rewrite H3, G3. set_solver.
    + rewrite H5, G5. intros Hs. destruct (is_true_json (engine ≫= _)), (is_true_json (_ ≫= pc_strictApprovals)); cbn in *; try done; by rewrite ?orb_true_r.
    + rewrite H6, G6. intros Hs. destruct (is_str (engine ≫= _) _); cbn in *; [done|]. rewrite Hs. apply orb_true_r.
Qed.

(** ** The order of the rules *)

Definition outcome_of (v : PermissionVerdict) : Verdict * DecidedBy * json := (pv_verdict v, pv_decidedBy v, pv_input v).

Lemma find_first_perm {A} (p : A → bool) l k : l ≡ₚ k → is_Some (find_first p l) → is_Some (find_first p k).
Proof.
  intros Hp [x [Hx Hpx]%find_first_Some]. destruct (find_first p k) eqn:Hk; [done|].
  rewrite find_first_None in Hk. rewrite Hk in Hpx; [done|]. by rewrite <- Hp.
Qed.

(** Reordering the deny and the ask rules keeps the verdict, who decides and the input. *)
Theorem rule_order_irrelevant (c c' : CompiledPermissionChain E) tool input ctx :
  ch_hooks c' = ch_hooks c → ch_canUseTool c' = ch_canUseTool c →
  ch_strictApprovals c' = ch_strictApprovals c → ch_advisory c' = ch_advisory c →
  ch_deny c ≡ₚ ch_deny c' → ch_ask c ≡ₚ ch_ask c' →
  outcome_of <$> evaluatePermission c tool input ctx = outcome_of <$> evaluatePermission c' tool input ctx.
Proof.
  intros Hh Hcan Hs Had Hd Ha. unfold Permission.evaluatePermission, last_layers. rewrite Hh, Hcan, Hs, Had.
  assert (∀ name eff, argvUnmatchableAsk c' name eff = argvUnmatchableAsk c name eff) as Hu.
  { intros name eff.
    destruct (argvUnmatchableAsk c name eff) eqn:E1, (argvUnmatchableAsk c' name eff) eqn:E2; try done.
    - rewrite (unmatchable_ask_subset c' c) in E1; [done|..|done]; intros x; by rewrite ?Hd, ?Ha.
    - rewrite (unmatchable_ask_subset c c') in E2; [done|..|done]; intros x; by rewrite <- ?Hd, <- ?Ha. }
  destruct (run_hooks _ _ _ _ _ _) as [[w eff|eff held]|e]; [done| |done]. cbn [mbind result_bind].
  set (m := fun rule => ruleMatches rule _ _ eff).
  pose proof (find_first_perm m _ _ Hd) as D1. pose proof (find_first_perm m _ _ (symmetry Hd)) as D2.
  pose proof (find_first_perm m _ _ Ha) as A1. pose proof (find_first_perm m _ _ (symmetry Ha)) as A2.
  destruct (find_first m (ch_deny c)), (find_first m (ch_deny c'));
    [done|by destruct (D1 (mk_is_Some _ _ eq_refl))|by destruct (D2 (mk_is_Some _ _ eq_refl))|].
  destruct held; [done|].
  destruct (find_first m (ch_ask c)), (find_first m (ch_ask c'));
    [done|by destruct (A1 (mk_is_Some _ _ eq_refl))|by destruct (A2 (mk_is_Some _ _ eq_refl))|].
  rewrite Hu. destruct (argvUnmatchableAsk c _ eff); [done|]. by destruct (match ch_canUseTool c with None => _ | Some _ => _ end) as [[[??]?]|].
Qed.
End Laws.
