(* ===== verification/PermissionTables.v ===== *)
(** * What the tables keep out (packages/core/src/runtime/permission-chain.ts, tools/presets.ts)

    Presets against their table of verdicts, argv rules against the segments of a command,
    and calls at which the theorems of the chain apply. *)
From S2P Require Import Prelude Json Shell ShellLaws ShellSplit ShellVerdict Permission PermissionLaws.

(** ** Presets *)

(** The table of the documentation, by risk and preset. *)
Definition preset_table (preset : PermissionPreset) (risk : option ToolRisk) : Verdict :=
  match preset, risk with
  | preset_open, _ | _, Some risk_read | preset_standard, Some risk_write => allowed
  | preset_strict, Some risk_destructive => denied
  | _, _ => asked
  end.

(** The rules of a preset say what its table says. *)
Lemma preset_rules_table preset name risk input :
  let stops := existsb (fun rule => ruleMatches rule name risk input) in
  preset_table preset risk =
    if stops (compilePermissionPreset preset).1 then denied
    else if stops (compilePermissionPreset preset).2 then asked else allowed.
Proof. by destruct preset, risk as [[]|]. Qed.

Section Tables.
Context {E : Type}.
Variable processCwd : string.
Implicit Types chain : CompiledPermissionChain E.

#[local] Abbreviation evaluatePermission := (evaluatePermission processCwd).

Lemma no_rule_stops tool input rules :
  (∀ rule, rule ∈ rules → matches_rule tool input rule = false) →
  existsb (fun rule => ruleMatches rule (tf_name (facts_of tool)) (tf_risk (facts_of tool)) input) rules = false.
Proof. intros Hr. by apply existsb_false_elem_of. Qed.

(** C1: A preset is a floor under every other layer: whatever the engine, the spawning agent
    and the profile add, no layer below the hooks allows a call its table asks about or
    denies, and under the advisory mode not even a hook allows what it denies. *)
Theorem preset_is_a_floor engine profile parent chain preset tool input ctx v :
  compilePermissionChain engine profile parent = Ok chain → profile ≫= ap_preset = Some preset →
  evaluatePermission chain tool input ctx = Ok v → pv_verdict v = allowed →
  (pv_decidedBy v ≠ by_hook → preset_table preset (tf_risk (facts_of tool)) = allowed) ∧
  (ch_advisory chain = true → preset_table preset (tf_risk (facts_of tool)) ≠ denied).
Proof.
  intros Hc Hp Hv Ha. pose proof (evaluate_allows _ _ _ _ _ _ Hv Ha) as Hal.
  destruct (compile_fields _ _ _ _ Hc) as (_ & Hd & Hk & _). unfold preset_rules in Hd, Hk. rewrite Hp in Hd, Hk.
  assert (∀ effective, (∀ rule, rule ∈ ch_deny chain → matches_rule tool effective rule = false) →
    existsb (fun rule => ruleMatches rule (tf_name (facts_of tool)) (tf_risk (facts_of tool)) effective)
      (compilePermissionPreset preset).1 = false) as Hdeny.
  { intros effective Hr. apply no_rule_stops. intros rule Hin. apply Hr. rewrite Hd, !elem_of_app. auto. }
  split.
  - intros Hby. inversion Hal as [|e He|effective layer final He [Ht _] Hl]; subst; try congruence.
    rewrite (preset_rules_table preset (tf_name (facts_of tool)) _ effective).
    rewrite Hdeny by (intros; apply Ht; set_solver). rewrite no_rule_stops; [done|].
    intros rule Hin. apply Ht. rewrite Hk, !elem_of_app. auto 10.
  - intros Had. destruct (advisory_allows _ _ _ _ _ _ _ Had Hal) as (effective & held & _ & Hden & _).
    rewrite (preset_rules_table preset (tf_name (facts_of tool)) _ effective), Hdeny by done. by case_match.
Qed.

(** ** Commands *)

Lemma argv_rule_misses name patterns toolName risk input command :
  name = toolName → commandOf input = Some command →
  ruleMatches (rule_argv name patterns) toolName risk input = false →
  ∀ s, s ∈ lexShellCommand command → unmatchable s = false →
  ∀ pattern, pattern ∈ values patterns → ¬ covers (pattern_words pattern) (argv s).
Proof.
  intros -> Hc. cbn. rewrite Hc, bool_decide_eq_true_2 by done. cbn [andb]. rewrite existsb_false_elem_of.
  intros Hs s Hin Hu pattern Hp Hcov%matchArgvPattern_spec. specialize (Hs s Hin). rewrite Hu in Hs. cbn in Hs.
  rewrite existsb_false_elem_of in Hs. by rewrite Hs in Hcov.
Qed.

(** C1: For a tool with an argv rule in either table, a call that no hook decides is allowed
    only when the input the tables read carries a command, the command substitutes
    nothing, and no pattern of the rule covers any of its segments, wherever the command
    puts it. *)
Theorem allowed_command_is_clean chain tool input ctx v name patterns :
  evaluatePermission chain tool input ctx = Ok v → pv_verdict v = allowed → pv_decidedBy v ≠ by_hook →
  rule_argv name patterns ∈ ch_deny chain ++ ch_ask chain → name = tf_name (facts_of tool) →
  ∃ effective command,
    hooks_end processCwd chain tool input ctx = Ok (hooks_done effective false) ∧
    commandOf effective = Some command ∧ substitutes command = false ∧
    ∀ pattern, pattern ∈ values patterns →
      (∀ s, s ∈ lexShellCommand command → ¬ covers (pattern_words pattern) (argv s)) ∧
      (∀ before sep rest, command = before +:+ sep +:+ rest → separator sep → separable before sep = true →
         ∀ s, s ∈ lexShellCommand rest → ¬ covers (pattern_words pattern) (argv s)).
Proof.
  intros Hv Ha Hby Hin Hname. pose proof (evaluate_allows _ _ _ _ _ _ Hv Ha) as Hal.
  inversion Hal as [|e He|effective layer final He [Ht Hu] Hl]; subst; try congruence.
  unfold argvUnmatchableAsk in Hu.
  assert (existsb (argv_rule_for (tf_name (facts_of tool))) (ch_deny chain ++ ch_ask chain) = true) as Hrule.
  { apply existsb_elem_of. eexists. split; [done|]. cbn. by apply bool_decide_eq_true_2. }
  rewrite Hrule in Hu. destruct (commandOf effective) as [command|] eqn:Hcmd; [|done].
  assert (∀ s, s ∈ lexShellCommand command → unmatchable s = false) as Hmatch by by apply existsb_false_elem_of.
  assert (∀ pattern, pattern ∈ values patterns → ∀ s, s ∈ lexShellCommand command → ¬ covers (pattern_words pattern) (argv s)) as Hmiss.
  { intros pattern Hp s Hs. exact (argv_rule_misses _ patterns _ (tf_risk (facts_of tool)) effective command eq_refl Hcmd (Ht _ Hin) s Hs (Hmatch s Hs) pattern Hp). }
  exists effective, command. split_and!; [done..|by rewrite <- unmatchable_iff_substitutes|].
  intros pattern Hp. split; [by apply Hmiss|]. intros before sep rest -> Hsep Hs s Hrest. apply Hmiss; [done|].
  rewrite lex_compound by done. set_solver.
Qed.

End Tables.

(** ** Calls *)

Definition no_config : PermissionConfig unit := mkConfig None None None None None None None.
Definition allow_hook : PermissionHook unit := fun _ _ _ => Ok hook_allow.
Definition allow_all : CanUseTool unit := fun _ _ _ => Ok can_allow.

Definition engine_layer : PermissionConfig unit :=
  mkConfig (Some [allow_hook]) None None (Some allow_all) None None (Some (JStr "advisory")).
Definition child_profile : AgentProfilePermissions unit :=
  mkProfile (mkConfig None (Some [rule_argv "shell" (single_value "rm **")]) None None None None None)
    (Some preset_strict) (Some (JBool true)).
Definition spawning_layer : PermissionConfig unit :=
  mkConfig None (Some [rule_tool (single_value "deploy")]) None None (Some (JBool true)) None None.

Definition compiled {E} (r : result string (CompiledPermissionChain E)) : CompiledPermissionChain E :=
  match r with Ok c => c | Err _ => mkChain [] [] [] None false None false end.

Definition family_chain : CompiledPermissionChain unit :=
  compiled (compilePermissionChain (Some engine_layer) (Some child_profile) (Some spawning_layer)).
Definition orphan_chain : CompiledPermissionChain unit :=
  compiled (compilePermissionChain (Some engine_layer) (Some child_profile) None).

Definition reader : ToolFacts := mkTool "read_file" false (Some risk_read).
Definition guarded : ToolFacts := mkTool "publish" true (Some risk_read).
Definition verdict_on (chain : CompiledPermissionChain unit) (tool : ToolRef) (input : json) : PermissionVerdict :=
  match evaluatePermission "/work" chain tool input None with
  | Ok v => v
  | Err _ => mkVerdict denied by_default None input None
  end.

Lemma family_compiles :
  compilePermissionChain (Some engine_layer) (Some child_profile) (Some spawning_layer) = Ok family_chain.
Proof. reflexivity. Qed.

Lemma strict_approvals_hold_witness :
  pv_verdict (verdict_on family_chain (by_facts guarded) JNull) = asked ∧
  pv_verdict (verdict_on family_chain (by_facts guarded) JNull) ≠ allowed.
Proof.
  split; [reflexivity|].
  exact (strict_approvals_hold "/work" (Some engine_layer) (Some child_profile) (Some spawning_layer) family_chain spawning_layer guarded
    JNull None (verdict_on family_chain (by_facts guarded) JNull)
    eq_refl (or_intror (or_introl eq_refl)) eq_refl eq_refl eq_refl).
Defined.

Lemma advisory_denies_hold_witness : ∃ effective,
    (∀ layer rule, reaches (Some engine_layer) (Some child_profile) (Some spawning_layer) layer → rule ∈ default [] (pc_deny layer) →
       matches_rule (by_facts reader) effective rule = false) ∧
    (∀ rule, rule ∈ (preset_rules (Some child_profile)).1 → matches_rule (by_facts reader) effective rule = false) ∧
    (pv_input (verdict_on family_chain (by_facts reader) (JStr "a.txt")) = effective ∨
     ∃ canUseTool, ch_canUseTool family_chain = Some canUseTool ∧
       canUseTool "read_file" effective (context_of "/work" (by_facts reader) None) =
         Ok (can_modified (pv_input (verdict_on family_chain (by_facts reader) (JStr "a.txt"))))).
Proof.
  exact (advisory_denies_hold "/work" (Some engine_layer) (Some child_profile) (Some spawning_layer) family_chain engine_layer
    (by_facts reader) (JStr "a.txt") None (verdict_on family_chain (by_facts reader) (JStr "a.txt"))
    eq_refl (or_introl eq_refl) eq_refl eq_refl eq_refl).
Defined.

Lemma inherited_rules_only_tighten_witness :
  ∃ v, evaluatePermission "/work" orphan_chain (by_facts reader) (JStr "a.txt") None = Ok v ∧ pv_verdict v = allowed ∧
       pv_decidedBy v = by_hook ∧ pv_input v = JStr "a.txt".
Proof.
  exact (inherited_rules_only_tighten "/work" (Some engine_layer) (Some child_profile) spawning_layer orphan_chain family_chain
    (by_facts reader) (JStr "a.txt") None (verdict_on family_chain (by_facts reader) (JStr "a.txt"))
    eq_refl eq_refl eq_refl eq_refl eq_refl eq_refl).
Defined.

Lemma preset_is_a_floor_witness :
  (by_hook ≠ by_hook → preset_table preset_strict (Some risk_read) = allowed) ∧
  (true = true → preset_table preset_strict (Some risk_read) ≠ denied).
Proof.
  exact (preset_is_a_floor "/work" (Some engine_layer) (Some child_profile) (Some spawning_layer) family_chain preset_strict
    (by_facts reader) (JStr "a.txt") None (verdict_on family_chain (by_facts reader) (JStr "a.txt"))
    eq_refl eq_refl eq_refl eq_refl).
Defined.

(** A chain with an argv rule and no hook. *)
Definition shell_chain : CompiledPermissionChain unit :=
  mkChain [] [rule_argv "shell" (single_value "rm **")] [] None false None false.

Lemma allowed_command_is_clean_witness : ∃ effective command,
    hooks_end "/work" shell_chain (by_name "shell") (JStr "ls; pwd") None = Ok (hooks_done effective false) ∧
    commandOf effective = Some command ∧ substitutes command = false ∧
    ∀ pattern, pattern ∈ ["rm **"] →
      (∀ s, s ∈ lexShellCommand command → ¬ covers (pattern_words pattern) (argv s)) ∧
      (∀ before sep rest, command = before +:+ sep +:+ rest → separator sep → separable before sep = true →
         ∀ s, s ∈ lexShellCommand rest → ¬ covers (pattern_words pattern) (argv s)).
Proof.
  exact (allowed_command_is_clean "/work" shell_chain (by_name "shell") (JStr "ls; pwd") None
    (verdict_on shell_chain (by_name "shell") (JStr "ls; pwd")) "shell" (single_value "rm **")
    eq_refl eq_refl ltac:(discriminate) (list_elem_of_here _ _) eq_refl).
Defined.

(** In the decisive order a hook's allow retires every deny rule. *)
Example decisive_hook_retires_denials :
  pv_verdict (verdict_on (mkChain [allow_hook] [rule_tool (single_value "deploy")] [] None false None false) (by_name "deploy") JNull) = allowed.
Proof. reflexivity. Qed.

(** What [canUseTool] substitutes is read by no table. *)
Example substituted_command_is_not_read :
  pv_verdict (verdict_on (mkChain [] [rule_argv "shell" (single_value "rm **")] []
     (Some (fun _ _ _ => Ok (can_modified (JStr "rm -rf /")))) false None false) (by_name "shell") (JStr "ls")) = allowed.
Proof. reflexivity. Qed.

(** A command in a subshell is denied by no rule that names it. *)
Example subshell_is_not_denied :
  pv_verdict (verdict_on shell_chain (by_name "shell") (JStr "(rm -rf /)")) = allowed.
Proof. reflexivity. Qed.

(** Adding an ask rule turns a denial by [canUseTool] into a question. *)
Example ask_rule_preempts_a_denial :
  let deny_all : CanUseTool unit := fun _ _ _ => Ok can_deny in
  pv_verdict (verdict_on (mkChain [] [] [] (Some deny_all) false None false) (by_name "x") JNull) = denied ∧
  pv_verdict (verdict_on (mkChain [] [] [rule_tool (single_value "x")] (Some deny_all) false None false) (by_name "x") JNull) = asked.
Proof. done. Qed.
